(* ===== verification/_CoqProject ===== *)
-Q . S2P
Prelude.v
GoStrings.v
Descriptor.v
Protobuf.v
NsFiles.v
NsFilesThms.v
NsTypes.v
NsTypesThms.v
NsNamespace.v
Snapshot.v
Compat.v
CompatThms.v
Conflict.v
Compiler.v
CompilerThms.v
Namespace.v
NamespaceThms.v
Resolve.v
Store.v
Registry.v
RegistryThms.v
RegistryCoherence.v
RegistryRestore.v
GoPath.v
GoJSON.v
Postgres.v
PostgresThms.v
PostgresRead.v
Base64.v
Auth.v
Validate.v
Server.v
ServerThms.v
Paging.v
PostgresPaging.v
PostgresQueries.v
RegistryExamples.v
ServerExamples.v
GoProg.v
ClientSnapshot.v
ClientSnapshotThms.v
ClientAggregate.v
GoFS.v
GoJSONThms.v
Client.v
ClientManifest.v
ClientCache.v
ClientRefresh.v
ClientRefreshThms.v
ClientLookupThms.v
ClientPopulateThms.v
ClientCacheThms.v
ClientServer.v
GoDir.v
Ctl.v
CtlLoad.v
CtlLoadThms.v
CtlCommands.v
CtlCommandsThms.v
CtlServe.v
ClientExamples.v
ClientReaders.v
ClientLoop.v
ClientReadersExamples.v
ClientTest.v
GoURL.v
CtlRedact.v
CtlRoot.v
CtlExamples.v
BuildVersion.v
CtlOutput.v
Tasks.v
RegistryTasks.v
RegistryCalm.v
RegistryInterleaved.v
RegistryIsolation.v
RegistryTasksThms.v
PostgresIsolation.v
InterleavedExamples.v
ServerReads.v
