(* ===== verification/Prelude.v ===== *)
(** * protoregistry: a verification development

    protoregistry stores versioned Protocol Buffers schemas. Schemas live in namespaces,
    namespaces form a hierarchy in which a child sees the types of its ancestors, and a
    schema moves from published (staged) to current by an atomic promotion of its
    namespace.

    ** The parts of the program and where they are modelled

    - [Prelude]: errors as values ([res]), the state-and-error monad [M] with its triples
      [hoare] and invariants [preserves], Go map iteration ([GoRange]: any order that
      lists every key once), text collation, shared tactics and lemmas.
    - [GoStrings], [Descriptor], [Protobuf]: the string functions used, the descriptors
      of protobuf reflection as inductive types, and the protobuf runtime
      (protoregistry.Files and Types, protodesc) as classes of operations with the laws
      the code relies on; reference instances show that the laws can hold.
    - [NsFiles], [NsFilesThms], [NsTypes], [NsTypesThms], [NsNamespace]: the layered file
      and type registries of src/nsregistry. A registry with its parents is a list. The
      abstraction [files_rep] relates all indexes of a file registry to one finite map
      from paths to files, and every operation is proved to refine the operation on the
      map, and an update that clashes is proved to break it; type registries keep exact
      counters along every run of regular calls, and along no other.
    - [Snapshot] (src/snapshot): an immutable compiled version with its lookups.
    - [Compat], [CompatThms] (src/compat): the compatibility check as the list of its
      violations, proved equivalent to a declarative relation, which is transitive.
    - [Conflict] (src/compiler/conflict.go): name conflicts with ancestors, proved exact.
    - [Compiler], [CompilerThms] (src/compiler): caps, normalization, the resolver chain
      and compilation over a [Toolchain] (protobuf parser, linker, SHA-256) given as a
      parameter; the resolution order, self-containedness, caps and fingerprints.
      [BuildVersion]: the version string of the compiler and what it tells apart.
    - [Namespace], [NamespaceThms] (src/namespace): the in-memory namespaces as a heap
      from identifiers to namespaces, a parent pointer being an identifier; the chain
      walk, staging, promotion.
    - [Resolve] (src/resolve): lookups along the chain, nearest namespace first.
    - [Store] (src/store/store.go): the persistence interface as a class [Store] and its
      promises as [StoreLaws] over an abstract view of the database, which survive calls
      that fail before they have an effect ([flaky]).
    - [Registry], [RegistryThms], [RegistryCoherence], [RegistryRestore] (src/registry.go,
      src/authz): every operation of the registry over any [Store] and [Toolchain]; what
      each operation does to the memory, that memory and database agree after every
      sequence of calls, and what recovery rebuilds, proved from [StoreLaws] alone.
    - [Tasks]: programs as trees of atomic accesses, pools of them under every
      interleaving, what one of them does under interference ([runs], [does]), and rules
      with a rely and a guarantee ([rg], [calm]).
    - [RegistryTasks]: the mutating calls of the registry as tasks, one access for each
      call of the store and for each load or store of an atomic pointer of
      src/namespace. [RegistryTasksThms]: alone, a task is the call of [Registry].
      [RegistryCalm], [RegistryInterleaved]: over [StoreLaws], under every interleaving,
      pointers lead to stored versions and versions are unique. [RegistryIsolation]:
      calls on different namespaces keep database and memory in agreement.
      [ServerReads]: GetDescriptor and GetSource of the server as
      tasks; beside any writes, the version read as current is found in the database.
      [InterleavedExamples]: schedules over the PostgreSQL store, the witnesses, and the
      interleavings of two calls on one namespace that break the agreement.
    - [Postgres], [PostgresThms], [PostgresRead] (src/store/postgres): the tables with
      their keys and foreign keys, the SQL statements, the store methods with their
      transactions, metadata as JSONB documents; the store discharges [StoreLaws], keeps the hierarchy acyclic within
      the depth of its check, and reads back what was written.
    - [PostgresIsolation]: the transaction of SetNamespaceParent statement by statement, at
      the isolation level of the database; alone it is the one above, two at once can
      close a cycle.
    - [PostgresQueries]: the statements no store method calls; soft deletion, dependents,
      and the pages of the re-parenting history.
    - [GoPath], [Base64]: path.Clean, white-space splitting and base64 of the Go standard
      library, with the lemmas the server needs.
    - [Validate] (src/server/validate.go, limits.go), [Auth]
      (src/server/auth.go): which requests are well-formed and who the caller is.
    - [Server], [ServerThms] (src/server/server.go): all handlers of the service, with the
      log; effects need rights, successful writes and only they are audited, errors are
      sanitized.
    - [Paging], [PostgresPaging]: following the page tokens of a listing returns the whole
      listing, over every [PagedStore], which the PostgreSQL store is.
    - [RegistryExamples], [ServerExamples]: runs of the registry and of the server over the
      PostgreSQL store, and at them the witnesses of the theorems about them; the restart
      after which an incompatible version is promoted unchecked.
    - [GoProg]: programs over a state that may also panic ([Prog]), for the client, whose
      code dereferences pointers and calls the registries of src/nsregistry.
    - [GoFS]: a file system with a script of faults: any call may fail, a
      failing write may have written a part. [GoJSON], [GoJSONThms]: the encoder and the
      decoder of encoding/json on the values the manifest uses, with their round trip;
      UTF-8, maps of strings as documents, the normal form of a JSONB column, and the round
      trip of a map through it.
    - [ClientSnapshot], [ClientSnapshotThms], [ClientAggregate] (src/client/snapshot.go):
      the compiled view of a schema with its fingerprint, the namespace-wide aggregate,
      the name index. The aggregate is related to the files of the snapshot by
      [resolver_rep]; the index is proved exact.
    - [Client], [ClientRefresh] (src/client/client.go, refresh.go): resolvers as objects of
      a heap; options, construction alone or with the ancestors of the server's chain,
      lookups, pinning, sources, closing, refreshing. [ClientRefreshThms]: a refresh
      refines the replacement of the snapshot by the current versions of the listing, unless
      two schemas declare one name, which it refuses. The theorems on refreshing are for
      schemas that, if they share no name, share no path, extension number or package name
      either ([mergeable]); what happens otherwise is in [ClientReadersExamples].
      [ClientPopulateThms], [ClientLookupThms]: construction, pinning and lookups.
    - [ClientManifest], [ClientCache], [ClientCacheThms] (src/client/cache.go): the manifest
      and its JSON text, atomic replacement, persisting and loading; crash safety and the
      round trip through the disk.
    - [ClientReaders], [ClientLoop]: a running refresh as the sequence of its single calls of
      the aggregate, what lookups between two of them answer, and the background loop of a
      resolver with its ticks and its stop.
    - [ClientServer]: the client connected to the modelled server; its listing is complete.
      [ClientTest] (src/client/internal/clienttest): the server the
      tests of the client run against, and a schema published there found by a client.
    - [GoDir] (src/compiler/builtins.go, the directory walks of
      src/internal/ctl): directory trees as data and the loaders over them.
    - [Ctl], [CtlLoad], [CtlLoadThms], [CtlCommands], [CtlCommandsThms]
      (src/internal/ctl): the commands over any [RegistryClient], which the modelled
      server is one of; what [load] publishes and in which order, and that destructive
      commands ask. [CtlOutput] (src/internal/ctl/output.go): tables, with text/tabwriter.
    - [CtlServe] (src/internal/ctl/serve.go): starting the server, with the
      bootstrap of the built-ins, and who may then call it: the unary methods of the
      registry pass the interceptor, the streams of server reflection do not.
    - [GoURL], [CtlRedact]: the part of net/url that separates the user information from the
      rest of a URL, and the database URL in the log, which hides the password.
    - [CtlRoot] (src/cmd, src/internal/ctl/root.go): the tree of commands with
      its flags, the connection opened before and closed after a command, the exit status;
      serve, help and refused command lines too.
    - [ClientExamples], [ClientReadersExamples], [CtlExamples]: runs of the client, of the commands and of the
      served registry: the witnesses, and the behaviours that differ from the
      documentation.

    ** Conventions

    A Go function that returns an error returns [res] or runs in [M], where the effects
    made before an error stay; a panic is the value [Panics]. Versions are Z with the
    wrap-around of uint64 ([u64]) and the clamping of the BIGINT column written out.
    Timestamps are Z. A byte string is a [string]. Locks only serialise, so a method of a
    locked object is one step. A registry call is one step in [Registry] and a task of
    single accesses in [RegistryTasks]; a call of the store is one step in both, because
    its transactions write rows under primary keys or in one statement, except that of
    SetNamespaceParent, which [PostgresIsolation] takes apart. In a task, the walk along
    the parent pointers is one access, and a Range over a namespace visits the schemas
    there are when it starts. Contexts are dropped, except that the decision of an
    authorizer for the caller is a function of the operation.

    Fuel appears in six places and is always enough: the walk up the enclosing packages
    of a name takes the length of the name, and each step shortens it ([Protoreflect]
    states that a parent name is shorter); the chain walk is bounded by 64 in the source;
    the ancestor query of the store is bounded by 64 in the source; the client loop over
    pages ends within one page more than there are rows; closing and persisting a resolver
    recurse into its ancestors, which are older objects of the heap, so the size of the
    heap is enough; the loop of [load] makes at most one round per file and one more.

    ** What is not modelled

    How cobra splits a command line into a command, its flags and its arguments, and the JSON
    text of printed responses: both are the work of a library on values the model has; the
    completion command that cobra adds. Failures of the connection to the database and of its
    driver: the definitions of [Postgres] fail only for what the tables say, [flaky] stores
    also fail before a call has an effect, and an error reported after a commit is in neither.
    The check of a text column that its bytes are UTF-8 without NUL: the model stores such
    texts too, so a call that succeeds in the program succeeds in the model. The
    transport of gRPC, its keepalive and its graceful stop: a call is the run of its handler.
    Hosts, paths and fragments of net/url, which are operations of a class, each given only its
    own part of the URL. The generated protocol code and the generated
    row types, whose content is in the types of the model. The migrations (SQL text run by a
    library) and the database container of the tests: the tables they leave are [Postgres.DB].
    The parser, linker and hash of the [Toolchain] and the driver are third-party code and
    parameters. Two calls on one resolver are not interleaved: they hold its mutex. *)

From stdpp Require Import prelude gmap strings list sorting pretty.

#[global] Set Default Goal Selector "!".

Declare Scope go_scope.
Delimit Scope go_scope with go.

(** ** Error values *)

(** Errors the code compares by identity ([errors.Is], [==]). *)
Inductive sentinel :=
  | ErrParentCycle | ErrNamespaceNotFound | ErrPermissionDenied
  | NotFound | ErrNotExist
  | ErrNoRows | ErrUniqueViolation | ErrForeignKeyViolation.

(** The gRPC status codes the server uses. *)
Inductive code :=
  | InvalidArgument | NotFoundCode | PermissionDenied | Unauthenticated
  | FailedPrecondition | Internal | Unimplemented.

(** A fully-qualified-name collision ([compiler.FQNConflict]). *)
Record FQNConflict := {
  fc_FQN : string; fc_Kind : string; fc_ChildFile : string; fc_AncestorFile : string }.

(** A Go error value: [errors.New] / [fmt.Errorf] without a wrapped error,
    [fmt.Errorf("ctx: %w", e)], a sentinel, a typed error, a gRPC status. *)
Inductive error :=
  | ErrNew (msg : string)
  | ErrWrap (ctx : string) (e : error)
  | ErrSentinel (s : sentinel)
  | ErrFQNConflict (ancestor : string) (conflicts : list FQNConflict)
  | ErrStatus (c : code) (msg : string).

#[global] Instance sentinel_eq_dec : EqDecision sentinel.
Proof. solve_decision. Defined.
#[global] Instance code_eq_dec : EqDecision code.
Proof. solve_decision. Defined.
#[global] Instance FQNConflict_eq_dec : EqDecision FQNConflict.
Proof. solve_decision. Defined.
#[global] Instance error_eq_dec : EqDecision error.
Proof. solve_decision. Defined.

(** The value-or-error pair a Go function returns. *)
Inductive res (A : Type) :=
  | Ok (a : A)
  | Err (e : error).
Arguments Ok {A} a.
Arguments Err {A} e.

Definition is_ok {A} (r : res A) : bool :=
  match r with Ok _ => true | Err _ => false end.

(** The value of a successful result, for closed examples. *)
Definition from_ok {A} (d : A) (r : res A) : A :=
  match r with Ok a => a | Err _ => d end.
Lemma from_ok_spec {A} (d : A) r : is_ok r = true → r = Ok (from_ok d r).
Proof. by destruct r. Qed.

#[global] Instance res_ret : MRet res := λ A a, Ok a.
#[global] Instance res_bind : MBind res := λ A B f m,
  match m with Ok a => f a | Err e => Err e end.
#[global] Instance res_fmap : FMap res := λ A B f m,
  match m with Ok a => Ok (f a) | Err e => Err e end.

(** [fmt.Errorf("ctx: %w", err)] around a fallible result. *)
Definition wrap {A} (ctx : string) (r : res A) : res A :=
  match r with Ok a => Ok a | Err e => Err (ErrWrap ctx e) end.

(** [errors.Is(err, sentinel)]: walks the wrap chain. *)
Fixpoint errors_Is (e : error) (s : sentinel) : bool :=
  match e with
  | ErrWrap _ e' => errors_Is e' s
  | ErrSentinel s' => bool_decide (s' = s)
  | _ => false
  end.

(** A loop that threads a value and stops at the first error. *)
Definition foldM {A B} (f : B → A → res B) : B → list A → res B :=
  fix go b l :=
    match l with
    | [] => Ok b
    | x :: l => match f b x with Ok b' => go b' l | Err e => Err e end
    end.

(** A call that may panic. *)
Inductive outcome (A : Type) :=
  | Returns (a : A)
  | Panics.
Arguments Returns {A} a.
Arguments Panics {A}.

(** ** The state-and-error monad of the stateful code *)

(** A Go method with effects on a state [S]: the state reached is kept when the
    call fails, because nothing undoes the calls made before the error. *)
Definition M (S A : Type) : Type := S → res A * S.

#[global] Instance M_ret S : MRet (M S) := λ A a s, (Ok a, s).
#[global] Instance M_bind S : MBind (M S) := λ A B f m s,
  match m s with (Ok a, s') => f a s' | (Err e, s') => (Err e, s') end.

Definition fail {S A} (e : error) : M S A := λ s, (Err e, s).
Definition gets {S A} (f : S → A) : M S A := λ s, (Ok (f s), s).
Definition modify {S} (f : S → S) : M S unit := λ s, (Ok tt, f s).
Definition of_res {S A} (r : res A) : M S A := λ s, (r, s).
(** Run [m] and hand its result, error included, to the caller. *)
Definition attempt {S A} (m : M S A) : M S (res A) := λ s,
  let '(r, s') := m s in (Ok r, s').
Definition wrapM {S A} (ctx : string) (m : M S A) : M S A := λ s,
  let '(r, s') := m s in (wrap ctx r, s').
Definition run {S A} (m : M S A) (s : S) : res A * S := m s.

Fixpoint forM_ {S A} (l : list A) (f : A → M S unit) : M S unit :=
  match l with
  | [] => mret tt
  | x :: l => f x ;; forM_ l f
  end.

(** ** Machine integers *)

Definition maxInt32 : Z := 2 ^ 31 - 1.
Definition maxInt64 : Z := 2 ^ 63 - 1.
Definition u64 (z : Z) : Z := z `mod` 2 ^ 64.

(** ** Iteration over Go maps

    Go leaves the iteration order of a map (and of [sync.Map.Range]) unspecified.
    [GoRange] is an arbitrary enumeration: theorems proved over it hold for every
    order the runtime may choose. *)
Class GoRange := {
  go_range {K V} `{Countable K} : gmap K V → list (K * V);
  go_range_perm {K V} `{Countable K} (m : gmap K V) : go_range m ≡ₚ map_to_list m }.

Definition range_default : GoRange :=
  {| go_range K V _ _ m := map_to_list m; go_range_perm K V _ _ m := reflexivity _ |}.

(** ** The order of [ORDER BY] on text columns

    The database's collation decides it; a deterministic collation is a total
    order on strings. *)
Class Collation := {
  coll_le : string → string → Prop;
  coll_le_dec x y :: Decision (coll_le x y);
  coll_le_total :: Total coll_le;
  coll_le_trans :: Transitive coll_le;
  coll_le_antisym :: AntiSymm (=) coll_le }.

(** ** Shared lemmas *)

Section range.
Context `{GoRange} {K V : Type} `{Countable K}.
Implicit Types m : gmap K V.

Lemma elem_of_go_range m k v : (k, v) ∈ go_range m ↔ m !! k = Some v.
Proof. by rewrite go_range_perm, elem_of_map_to_list. Qed.

Lemma elem_of_go_range' m kv : kv ∈ go_range m ↔ m !! kv.1 = Some kv.2.
Proof. destruct kv. apply elem_of_go_range. Qed.

Lemma NoDup_go_range m : NoDup (go_range m).
Proof. rewrite go_range_perm. apply NoDup_map_to_list. Qed.

Lemma NoDup_fst_go_range m : NoDup (go_range m).*1.
Proof. rewrite go_range_perm. apply NoDup_fst_map_to_list. Qed.

Lemma length_go_range m : length (go_range m) = size m.
Proof. by rewrite go_range_perm, length_map_to_list. Qed.

Lemma list_to_map_go_range m : list_to_map (go_range m) =@{gmap K V} m.
Proof.
  rewrite <-(list_to_map_to_list m) at 2.
  apply list_to_map_proper; [apply NoDup_fst_go_range | apply go_range_perm].
Qed.
End range.

Lemma filter_all {A} (P : A → Prop) `{∀ x, Decision (P x)} (l : list A) :
  (∀ x, x ∈ l → P x) → filter P l = l.
Proof.
  intros Hl. induction l as [|x l IH]; [done|]. rewrite filter_cons_True by (apply Hl; left).
  rewrite IH; [done|]. intros y Hy. apply Hl. by right.
Qed.

Lemma NoDup_fmap_same {A B} (f : A → B) l x y :
  NoDup (f <$> l) → x ∈ l → y ∈ l → f x = f y → x = y.
Proof.
  induction l as [|a l IH]; cbn; [by intros _ ?%elem_of_nil|].
  intros [Ha Hnd]%NoDup_cons [->|Hx]%elem_of_cons [->|Hy]%elem_of_cons E; [done|..].
  - destruct Ha. rewrite E. by apply list_elem_of_fmap_2.
  - destruct Ha. rewrite <-E. by apply list_elem_of_fmap_2.
  - by apply IH.
Qed.

Lemma filter_none {A} (P : A → Prop) `{∀ x, Decision (P x)} (l : list A) :
  (∀ x, x ∈ l → ¬ P x) → filter P l = [].
Proof.
  intros Hl. apply elem_of_nil_inv. intros x [Hx Hin]%list_elem_of_filter. by eapply Hl.
Qed.

(** Invariant rule of [foldM]. *)
Lemma foldM_ind {A B} (f : B → A → res B) (P : B → list A → Prop) b l b' :
  foldM f b l = Ok b' → P b [] →
  (∀ b1 done x b2, P b1 done → f b1 x = Ok b2 → P b2 (done ++ [x])%list) →
  P b' l.
Proof.
  intros Hf H0 Hstep. change l with ([] ++ l)%list.
  revert b Hf H0. generalize (@nil A) as pre. induction l as [|x l IH]; intros pre b; cbn.
  - intros [= ->]. by rewrite app_nil_r.
  - destruct (f b x) as [b1|] eqn:E; [|done]. intros Hf H0.
    replace (pre ++ x :: l)%list with ((pre ++ [x]) ++ l)%list by by rewrite <-app_assoc.
    eauto.
Qed.

(** Reduce monadic code on a concrete state. *)
Ltac munfold :=
  unfold mret, mbind, M_ret, M_bind, res_ret, res_bind, fail, gets, modify,
    of_res, attempt, wrapM, run in *; cbn in *.

Lemma M_bind_Ok {S A B} (m : M S A) (f : A → M S B) s b s' :
  (m ≫= f) s = (Ok b, s') ↔ ∃ a s1, m s = (Ok a, s1) ∧ f a s1 = (Ok b, s').
Proof.
  unfold mbind, M_bind. destruct (m s) as [[a|e] s1]; split.
  - eauto.
  - by intros (? & ? & [= -> ->] & ?).
  - done.
  - by intros (? & ? & ? & ?).
Qed.

Lemma M_bind_Err {S A B} (m : M S A) (f : A → M S B) s e s' :
  (m ≫= f) s = (Err e, s') ↔
  m s = (Err e, s') ∨ ∃ a s1, m s = (Ok a, s1) ∧ f a s1 = (Err e, s').
Proof.
  unfold mbind, M_bind. destruct (m s) as [[a|e'] s1]; split.
  - eauto.
  - by intros [[=]|(? & ? & [= -> ->] & ?)].
  - intros [= -> ->]; auto.
  - intros [[= -> ->]|(? & ? & ? & ?)]; [done|congruence].
Qed.

(** A property of the state that every call of [m] preserves, whatever it returns. *)
Definition preserves {S A} (I : S → Prop) (m : M S A) : Prop :=
  ∀ s, I s → I (m s).2.

Section preserves.
Context {S : Type} (I : S → Prop).

Lemma preserves_ret {A} (a : A) : preserves I (mret a).
Proof. by intros s ?. Qed.
Lemma preserves_fail {A} e : preserves I (fail (A := A) e).
Proof. by intros s ?. Qed.
Lemma preserves_gets {A} (f : S → A) : preserves I (gets f).
Proof. by intros s ?. Qed.
Lemma preserves_of_res {A} (r : res A) : preserves I (of_res r).
Proof. by intros s ?. Qed.
Lemma preserves_modify f : (∀ s, I s → I (f s)) → preserves I (modify f).
Proof. by intros Hf s ?; apply Hf. Qed.
Lemma preserves_bind {A B} (m : M S A) (f : A → M S B) :
  preserves I m → (∀ a, preserves I (f a)) → preserves I (m ≫= f).
Proof.
  intros Hm Hf s Hs. specialize (Hm s Hs). unfold mbind, M_bind.
  destruct (m s) as [[a|e] s1]; [by apply Hf | done].
Qed.
Lemma preserves_attempt {A} (m : M S A) : preserves I m → preserves I (attempt m).
Proof. intros Hm s Hs. specialize (Hm s Hs). unfold attempt. by destruct (m s). Qed.
Lemma preserves_wrapM {A} c (m : M S A) : preserves I m → preserves I (wrapM c m).
Proof. intros Hm s Hs. specialize (Hm s Hs). unfold wrapM. by destruct (m s). Qed.
Lemma preserves_forM_ {A} (l : list A) f :
  (∀ x, preserves I (f x)) → preserves I (forM_ l f).
Proof.
  intros Hf. induction l as [|x l IH]; cbn; [apply preserves_ret|].
  apply preserves_bind; auto.
Qed.
Lemma preserves_mapM {A B} (f : A → M S B) (l : list A) :
  (∀ x, preserves I (f x)) → preserves I (mapM f l).
Proof.
  intros Hf. induction l as [|x l IH]; cbn; [apply preserves_ret|].
  apply preserves_bind; [done|]. intros b.
  apply preserves_bind; [done|]. intros bs. apply preserves_ret.
Qed.
End preserves.

(** Triples: from a state with [P], a normal return satisfies [Q] and a failure [E]. *)
Definition hoare {S A} (P : S → Prop) (m : M S A) (Q : A → S → Prop) (E : S → Prop) : Prop :=
  ∀ s, P s → match m s with (Ok a, s') => Q a s' | (Err _, s') => E s' end.

Section hoare.
Context {S : Type}.
Implicit Types (P E I : S → Prop).

Lemma hoare_conseq {A} P P' (m : M S A) (Q Q' : A → S → Prop) E E' :
  hoare P' m Q' E' → (∀ s, P s → P' s) → (∀ a s, Q' a s → Q a s) → (∀ s, E' s → E s) →
  hoare P m Q E.
Proof.
  intros Hm HP HQ HE s Hs. specialize (Hm s (HP s Hs)). destruct (m s) as [[]]; auto.
Qed.

Lemma hoare_bind {A B} P (m : M S A) R (f : A → M S B) Q E :
  hoare P m R E → (∀ a, hoare (R a) (f a) Q E) → hoare P (m ≫= f) Q E.
Proof.
  intros Hm Hf s Hs. specialize (Hm s Hs). unfold mbind, M_bind.
  destruct (m s) as [[a|e] s1]; [by apply Hf|done].
Qed.

Lemma hoare_ret {A} (a : A) (Q : A → S → Prop) E : hoare (Q a) (mret a) Q E.
Proof. by intros s ?. Qed.

Lemma hoare_fail {A} e (Q : A → S → Prop) E : hoare E (fail e) Q E.
Proof. by intros s ?. Qed.

Lemma hoare_of_res {A} P (r : res A) (Q : A → S → Prop) E :
  (∀ a s, r = Ok a → P s → Q a s) → (∀ s, P s → E s) → hoare P (of_res r) Q E.
Proof. intros HQ HE s Hs. unfold of_res. destruct r; auto. Qed.

Lemma hoare_gets {A} P (f : S → A) (Q : A → S → Prop) E :
  (∀ s, P s → Q (f s) s) → hoare P (gets f) Q E.
Proof. intros HQ s Hs. by apply HQ. Qed.

Lemma hoare_modify P f (Q : unit → S → Prop) E :
  (∀ s, P s → Q tt (f s)) → hoare P (modify f) Q E.
Proof. intros HQ s Hs. by apply HQ. Qed.

Lemma hoare_wrapM {A} P c (m : M S A) Q E : hoare P m Q E → hoare P (wrapM c m) Q E.
Proof. intros Hm s Hs. specialize (Hm s Hs). unfold wrapM. by destruct (m s) as [[]]. Qed.

Lemma hoare_preserves {A} I (m : M S A) : preserves I m → hoare I m (λ _, I) I.
Proof. intros Hm s Hs. specialize (Hm s Hs). by destruct (m s) as [[]]. Qed.

(** A step that keeps [I], followed by a program specified from [I]. *)
Lemma hoare_keep {A B} I (m : M S A) (f : A → M S B) Q :
  preserves I m → (∀ a, hoare I (f a) Q I) → hoare I (m ≫= f) Q I.
Proof. intros Hm Hf. eapply hoare_bind; [by apply hoare_preserves|]. apply Hf. Qed.

(** The same with a weaker condition on failures. *)
Lemma hoare_step {A B} I (m : M S A) (f : A → M S B) Q E :
  (∀ s, I s → E s) → preserves I m → (∀ a, hoare I (f a) Q E) → hoare I (m ≫= f) Q E.
Proof.
  intros HE Hm Hf. eapply hoare_bind; [|exact Hf].
  eapply hoare_conseq; [by apply hoare_preserves|done|intros ? ? Hs; exact Hs|exact HE].
Qed.

(** A pure fact in the precondition. *)
Lemma hoare_pure {A} P (φ : Prop) (m : M S A) Q E :
  (φ → hoare P m Q E) → hoare (λ s, P s ∧ φ) m Q E.
Proof. intros Hm s [Hs Hφ]. by apply Hm. Qed.

Lemma preserves_hoare {A} I (m : M S A) : hoare I m (λ _, I) I → preserves I m.
Proof. intros Hm s Hs. specialize (Hm s Hs). by destruct (m s) as [[]]. Qed.

(** A loop with an invariant on the elements done. *)
Lemma hoare_forM_ {A} (J : list A → S → Prop) (E : S → Prop) (f : A → M S unit) l :
  (∀ xs x, x ∈ l → hoare (J xs) (f x) (λ _, J (xs ++ [x])%list) E) →
  hoare (J []) (forM_ l f) (λ _, J l) E.
Proof.
  intros Hf. enough (∀ pre, hoare (J pre) (forM_ l f) (λ _, J (pre ++ l)%list) E) as HH
    by apply (HH []).
  induction l as [|x l IH]; intros pre; cbn [forM_].
  - rewrite app_nil_r. by intros st Hst.
  - eapply hoare_bind; [apply Hf; left|]. intros [].
    replace (pre ++ x :: l)%list with ((pre ++ [x]) ++ l)%list by by rewrite <-app_assoc.
    apply IH. intros xs y Hy. apply Hf. by right.
Qed.

Lemma hoare_Ok {A} P (m : M S A) Q E s a s' :
  hoare P m Q E → P s → m s = (Ok a, s') → Q a s'.
Proof. intros Hm Hs E'. specialize (Hm s Hs). by rewrite E' in Hm. Qed.

Lemma hoare_Err {A} P (m : M S A) Q E s e s' :
  hoare P m Q E → P s → m s = (Err e, s') → E s'.
Proof. intros Hm Hs E'. specialize (Hm s Hs). by rewrite E' in Hm. Qed.
End hoare.

Create HintDb preserves discriminated.
#[export] Hint Resolve preserves_ret preserves_fail preserves_gets preserves_of_res
  preserves_bind preserves_attempt preserves_wrapM preserves_forM_ preserves_mapM
  : preserves.

(** Split a monadic program into its steps and close each from the [preserves] hints. *)
Ltac solve_preserves :=
  repeat first
    [ apply preserves_ret | apply preserves_fail | apply preserves_gets
    | apply preserves_of_res | apply preserves_attempt | apply preserves_wrapM
    | apply preserves_forM_; intros ? | apply preserves_mapM; intros ?
    | apply preserves_bind; [|intros ?]
    | case_match ];
  eauto with preserves.
