(* ===== verification/GoStrings.v ===== *)
(** * The parts of Go's [strings] and [fmt] packages the code uses, on byte strings *)

From S2P Require Import Prelude.
From stdpp Require Import prelude strings list pretty.

Open Scope string_scope.

(** The bytes the code splits on. *)
Definition dot : Ascii.ascii := Ascii.ascii_of_nat 46.
Definition slash : Ascii.ascii := Ascii.ascii_of_nat 47.
Definition newline : Ascii.ascii := Ascii.ascii_of_nat 10.

(** [s[n:]] and [s[:n]]. *)
Fixpoint str_drop (n : nat) (s : string) : string :=
  match n, s with
  | O, _ => s
  | S n, String _ s => str_drop n s
  | S _, EmptyString => EmptyString
  end.

Fixpoint str_take (n : nat) (s : string) : string :=
  match n, s with
  | S n, String c s => String c (str_take n s)
  | _, _ => EmptyString
  end.

(** [strings.IndexByte] and [strings.LastIndexByte]; [None] is the -1 of Go. *)
Fixpoint IndexByte (c : Ascii.ascii) (s : string) : option nat :=
  match s with
  | EmptyString => None
  | String c' s => if decide (c' = c) then Some O else S <$> IndexByte c s
  end.

Fixpoint LastIndexByte (c : Ascii.ascii) (s : string) : option nat :=
  match s with
  | EmptyString => None
  | String c' s =>
     match LastIndexByte c s with
     | Some i => Some (S i)
     | None => if decide (c' = c) then Some O else None
     end
  end.

(** [strings.HasPrefix] and [strings.HasSuffix]. *)
Fixpoint HasPrefix (s pre : string) : bool :=
  match pre, s with
  | EmptyString, _ => true
  | String c pre, String c' s => if decide (c = c') then HasPrefix s pre else false
  | String _ _, EmptyString => false
  end.

Definition HasSuffix (s suf : string) : bool :=
  (String.length suf <=? String.length s)%nat &&
  bool_decide (str_drop (String.length s - String.length suf) s = suf).

(** [strings.TrimPrefix]. *)
Definition TrimPrefix (s pre : string) : string :=
  if HasPrefix s pre then str_drop (String.length pre) s else s.

(** [strings.Contains]. *)
Fixpoint Contains (s sub : string) : bool :=
  HasPrefix s sub ||
  match s with EmptyString => false | String _ s => Contains s sub end.

(** [strings.Join]. *)
Fixpoint strings_Join (l : list string) (sep : string) : string :=
  match l with
  | [] => ""
  | [x] => x
  | x :: l => x +:+ sep +:+ strings_Join l sep
  end.

(** [strings.Split] with a one-byte separator. *)
Fixpoint Split (s : string) (sep : Ascii.ascii) : list string :=
  match s with
  | EmptyString => [""]
  | String c s =>
     if decide (c = sep) then "" :: Split s sep
     else match Split s sep with
          | [] => [String c ""]
          | x :: l => String c x :: l
          end
  end.

Definition dquote : string := String (Ascii.ascii_of_nat 34) "".

(** The [%q] verb on strings of printable bytes: backslash and double quote are
    escaped. *)
Fixpoint quote_body (s : string) : string :=
  match s with
  | EmptyString => ""
  | String c s =>
     if decide (Ascii.nat_of_ascii c = 34 ∨ Ascii.nat_of_ascii c = 92)
     then String (Ascii.ascii_of_nat 92) (String c (quote_body s))
     else String c (quote_body s)
  end.

Definition quote (s : string) : string := dquote +:+ quote_body s +:+ dquote.

(** ** Lemmas *)

Lemma str_app_nil_l s : "" +:+ s = s.
Proof. done. Qed.

Lemma str_app_cons c s t : String c s +:+ t = String c (s +:+ t).
Proof. done. Qed.

#[local] Set Warnings "-implicit-create-rewrite-hint-db".
#[export] Hint Rewrite str_app_nil_l str_app_cons : str.

(** Structural induction on a string, with appends pushed inwards. *)
Ltac str_induction s := let c := fresh "c" in let IH := fresh "IH" in
  induction s as [|c s IH]; cbn; autorewrite with str; cbn.

Lemma length_str_app s t : String.length (s +:+ t) = String.length s + String.length t.
Proof. str_induction s; [done|]. by rewrite IH. Qed.

Lemma str_app_assoc s t u : (s +:+ t) +:+ u = s +:+ t +:+ u.
Proof. str_induction s; [done|]. by rewrite IH. Qed.

Lemma str_app_nil_r s : s +:+ "" = s.
Proof. str_induction s; [done|]. by rewrite IH. Qed.

Lemma str_drop_app s t : str_drop (String.length s) (s +:+ t) = t.
Proof. str_induction s; [by destruct t|done]. Qed.

Lemma str_drop_past s c t : str_drop (S (String.length s)) (s +:+ String c t) = t.
Proof. induction s as [|a s IH]; [by rewrite str_app_nil_l|]. rewrite str_app_cons. exact IH. Qed.

Lemma str_app_inj_r s s' t t' :
  String.length s = String.length s' → s +:+ t = s' +:+ t' → s = s' ∧ t = t'.
Proof.
  revert s'. induction s as [|c s IH]; intros [|c' s']; cbn; autorewrite with str; try done.
  intros [= Hl] [= -> Ht]. by destruct (IH s' Hl Ht) as [-> ->].
Qed.

Lemma HasPrefix_app s t : HasPrefix (s +:+ t) s = true.
Proof. str_induction s; [by destruct t|]. by rewrite decide_True. Qed.

Lemma HasPrefix_spec s pre : HasPrefix s pre = true ↔ ∃ t, s = pre +:+ t.
Proof.
  split.
  - revert s. induction pre as [|c pre IH]; intros s; [by exists s|].
    destruct s as [|c' s]; cbn; [done|]. case_decide; [|done]. subst.
    intros [t ->]%IH. by exists t.
  - intros [t ->]. apply HasPrefix_app.
Qed.
