(* ===== verification/Descriptor.v ===== *)
(** * Descriptors

    The data the code reads through the interfaces of [protoreflect]: files, messages,
    fields, enums, services. A descriptor collection ([MessageDescriptors],
    [FieldDescriptors], ...) is the list of its elements, [Get i] its [i]-th element and
    [ByName] / [ByNumber] the documented lookups (the element with that name or number,
    nil when there is none). *)

From S2P Require Import Prelude.
From stdpp Require Import prelude gmap strings list.

(** [protoreflect.Kind]. *)
Inductive Kind :=
  | BoolKind | EnumKind | Int32Kind | Sint32Kind | Uint32Kind | Int64Kind
  | Sint64Kind | Uint64Kind | Sfixed32Kind | Fixed32Kind | FloatKind | Sfixed64Kind
  | Fixed64Kind | DoubleKind | StringKind | BytesKind | MessageKind | GroupKind.

(** [protoreflect.Cardinality]. *)
Inductive Cardinality := Optional | Required | Repeated.

#[global] Instance Kind_eq_dec : EqDecision Kind.
Proof. solve_decision. Defined.
#[global] Instance Cardinality_eq_dec : EqDecision Cardinality.
Proof. solve_decision. Defined.

(** [protoreflect.FieldDescriptor], also of an extension. [fld_Message] and [fld_Enum]
    are the full names behind [Message()] and [Enum()], read only for those kinds;
    [fld_ContainingMessage] is the full name of the extended message. *)
Record FieldDescriptor := Field {
  fld_Name : string; fld_FullName : string; fld_Number : Z; fld_Kind : Kind;
  fld_Cardinality : Cardinality; fld_Message : string; fld_Enum : string;
  fld_ContainingMessage : string }.

Record OneofDescriptor := Oneof { oo_Name : string; oo_FullName : string }.

Record EnumValueDescriptor := EnumValue {
  ev_Name : string; ev_FullName : string; ev_Number : Z }.

Record EnumDescriptor := Enum {
  en_Name : string; en_FullName : string; en_Values : list EnumValueDescriptor }.

Record MethodDescriptor := Method {
  mt_Name : string; mt_FullName : string; mt_Input : string; mt_Output : string }.

Record ServiceDescriptor := Service {
  sv_Name : string; sv_FullName : string; sv_Methods : list MethodDescriptor }.

Inductive MessageDescriptor := Message {
  msg_Name : string; msg_FullName : string;
  msg_Fields : list FieldDescriptor; msg_Oneofs : list OneofDescriptor;
  msg_Enums : list EnumDescriptor; msg_Messages : list MessageDescriptor;
  msg_Extensions : list FieldDescriptor }.

(** A file holds the descriptors of the files it imports. *)
Inductive FileDescriptor := File {
  file_Path : string; file_Package : string; file_Imports : list FileDescriptor;
  file_Messages : list MessageDescriptor; file_Enums : list EnumDescriptor;
  file_Extensions : list FieldDescriptor; file_Services : list ServiceDescriptor }.

(** [protoreflect.Descriptor]: what a lookup by name returns. *)
Inductive Descriptor :=
  | DEnum (e : EnumDescriptor)
  | DEnumValue (v : EnumValueDescriptor)
  | DMessage (m : MessageDescriptor)
  | DExtension (x : FieldDescriptor)
  | DService (s : ServiceDescriptor)
  | DField (f : FieldDescriptor)
  | DOneof (o : OneofDescriptor)
  | DMethod (m : MethodDescriptor).

Definition desc_FullName (d : Descriptor) : string :=
  match d with
  | DEnum e => en_FullName e
  | DEnumValue v => ev_FullName v
  | DMessage m => msg_FullName m
  | DExtension x => fld_FullName x
  | DService s => sv_FullName s
  | DField f => fld_FullName f
  | DOneof o => oo_FullName o
  | DMethod m => mt_FullName m
  end.

(** First element of a list with a given key: [ByName], [ByNumber]. *)
Fixpoint find_by {A K} `{EqDecision K} (key : A → K) (k : K) (l : list A) : option A :=
  match l with
  | [] => None
  | x :: l => if decide (key x = k) then Some x else find_by key k l
  end.

Definition messages_ByName := find_by msg_Name.
Definition enums_ByName := find_by en_Name.
Definition values_ByName := find_by ev_Name.
Definition values_ByNumber := find_by ev_Number.
Definition fields_ByName := find_by fld_Name.
Definition fields_ByNumber := find_by fld_Number.
Definition oneofs_ByName := find_by oo_Name.
Definition services_ByName := find_by sv_Name.
Definition methods_ByName := find_by mt_Name.

(** What protobuf guarantees of a linked message: names and numbers are unique among
    siblings, at every nesting level. *)

Fixpoint message_wf (m : MessageDescriptor) : Prop :=
  NoDup (fld_Number <$> msg_Fields m) ∧
  NoDup (oo_Name <$> msg_Oneofs m) ∧
  NoDup (en_Name <$> msg_Enums m) ∧
  NoDup (msg_Name <$> msg_Messages m) ∧
  foldr (λ m P, message_wf m ∧ P) True (msg_Messages m).

Definition service_wf (s : ServiceDescriptor) : Prop := NoDup (mt_Name <$> sv_Methods s).

Definition file_wf (f : FileDescriptor) : Prop :=
  NoDup (msg_Name <$> file_Messages f) ∧
  NoDup (en_Name <$> file_Enums f) ∧
  NoDup (sv_Name <$> file_Services f) ∧
  Forall message_wf (file_Messages f) ∧
  Forall service_wf (file_Services f).

(** ** Lemmas *)

Section find_by.
Context {A K : Type} `{EqDecision K} (key : A → K).

Lemma find_by_Some k l x : find_by key k l = Some x → x ∈ l ∧ key x = k.
Proof.
  induction l as [|y l IH]; cbn; [done|]. case_decide.
  - intros [= ->]. split; [left|done].
  - intros [? ?]%IH. split; [by right|done].
Qed.

Lemma find_by_None k l : find_by key k l = None ↔ ∀ x, x ∈ l → key x ≠ k.
Proof.
  induction l as [|y l IH]; cbn; [set_solver|].
  case_decide; [set_solver|]. rewrite IH. set_solver.
Qed.

Lemma find_by_is_Some k l : is_Some (find_by key k l) ↔ ∃ x, x ∈ l ∧ key x = k.
Proof.
  split.
  - intros [x Hx]. exists x. by apply find_by_Some.
  - intros (x & Hx & Hk). destruct (find_by key k l) eqn:E; [by eexists|].
    rewrite find_by_None in E. by destruct (E x Hx).
Qed.

Lemma find_by_unique l x :
  NoDup (key <$> l) → x ∈ l → find_by key (key x) l = Some x.
Proof.
  induction l as [|y l IH]; cbn; [set_solver|].
  rewrite NoDup_cons, list_elem_of_fmap. intros [Hy Hl] [->|Hx]%elem_of_cons.
  - by rewrite decide_True.
  - rewrite decide_False; [by apply IH|]. intros E. apply Hy. by exists x.
Qed.
End find_by.

(** Induction over a message and its nested messages. *)
Lemma message_ind (P : MessageDescriptor → Prop) :
  (∀ n fn fs os es ms xs, Forall P ms → P (Message n fn fs os es ms xs)) → ∀ m, P m.
Proof.
  intros IH. fix F 1. intros [n fn fs os es ms xs]. apply IH.
  induction ms as [|m ms IHms]; constructor; [apply F | apply IHms].
Qed.

(** Induction over a file and the files it imports. *)
Lemma file_ind (P : FileDescriptor → Prop) :
  (∀ p pk imps ms es xs ss, Forall P imps → P (File p pk imps ms es xs ss)) → ∀ f, P f.
Proof.
  intros IH. fix F 1. intros [p pk imps ms es xs ss]. apply IH.
  induction imps as [|i imps IHi]; constructor; [apply F | apply IHi].
Qed.

Lemma foldr_and_Forall {A} (P : A → Prop) l : foldr (λ x Q, P x ∧ Q) True l ↔ Forall P l.
Proof.
  induction l as [|x l IH]; cbn; [by split|]. by rewrite Forall_cons, IH.
Qed.

Lemma message_wf_unfold m :
  message_wf m ↔
  NoDup (fld_Number <$> msg_Fields m) ∧ NoDup (oo_Name <$> msg_Oneofs m) ∧
  NoDup (en_Name <$> msg_Enums m) ∧ NoDup (msg_Name <$> msg_Messages m) ∧
  Forall message_wf (msg_Messages m).
Proof. destruct m; cbn. by rewrite foldr_and_Forall. Qed.
