(* ===== verification/Protobuf.v ===== *)
(** * The protobuf-go runtime, as an interface

    [google.golang.org/protobuf] is not part of the repository. The code uses it through
    the operations below; a law states documented behaviour of an operation and is
    assumed, by name, only by the theorems that need it. *)

From S2P Require Import Prelude GoStrings Descriptor.
From stdpp Require Import prelude gmap strings list.

(** [protoreflect.FullName.Parent]: the name with its last identifier removed, the empty
    name for a single identifier. The code's loops over it stop at the empty name, so the
    one thing they rely on is that the parent of a non-empty name is shorter. *)
Class Protoreflect := {
  Parent : string → string;
  Parent_shorter name : name ≠ "" → String.length (Parent name) < String.length name }.

(** [protoregistry.Files]. *)
Class ProtoFiles := {
  Files : Type;
  Files_empty : Files;
  Files_RegisterFile : Files → FileDescriptor → res Files;
  Files_FindFileByPath : Files → string → res FileDescriptor;
  Files_FindDescriptorByName : Files → string → res Descriptor;
  Files_RangeFiles : Files → list FileDescriptor;
  Files_NumFiles : Files → Z;
  Files_NumFilesByPackage : Files → string → Z;
  Files_RangeFilesByPackage : Files → string → list FileDescriptor }.

(** [FindFileByPath] returns a file by its path, [RangeFiles] visits the registered
    files, [RegisterFile] adds one file whose path was free. *)
Class ProtoFilesLaws `{ProtoFiles} : Prop := {
  Files_find_range fs fd :
    fd ∈ Files_RangeFiles fs ↔ Files_FindFileByPath fs (file_Path fd) = Ok fd;
  Files_find_path fs p fd : Files_FindFileByPath fs p = Ok fd → file_Path fd = p;
  Files_range_empty : Files_RangeFiles Files_empty = [];
  Files_find_empty p : Files_FindFileByPath Files_empty p = Err (ErrSentinel NotFound);
  Files_range_register fs fd fs' :
    Files_RegisterFile fs fd = Ok fs' →
    Files_RangeFiles fs' ≡ₚ fd :: Files_RangeFiles fs ∧
    Files_FindFileByPath fs (file_Path fd) = Err (ErrSentinel NotFound);
  Files_find_register_ne fs fd fs' p :
    Files_RegisterFile fs fd = Ok fs' → file_Path fd ≠ p →
    Files_FindFileByPath fs' p = Files_FindFileByPath fs p }.

(** A runtime type: [dynamicpb.NewMessageType], [NewEnumType], [NewExtensionType]
    around a descriptor. *)
Inductive RtType :=
  | TMessage (md : MessageDescriptor)
  | TEnum (ed : EnumDescriptor)
  | TExtension (xd : FieldDescriptor).

(** [protoregistry.Types]. *)
Class ProtoTypes := {
  Types : Type;
  Types_empty : Types;
  Types_RegisterMessage : Types → MessageDescriptor → res Types;
  Types_RegisterEnum : Types → EnumDescriptor → res Types;
  Types_RegisterExtension : Types → FieldDescriptor → res Types;
  Types_FindEnumByName : Types → string → res EnumDescriptor;
  Types_FindMessageByName : Types → string → res MessageDescriptor;
  Types_FindMessageByURL : Types → string → res MessageDescriptor;
  Types_FindExtensionByName : Types → string → res FieldDescriptor;
  Types_FindExtensionByNumber : Types → string → Z → res FieldDescriptor;
  Types_NumEnums : Types → Z;
  Types_NumMessages : Types → Z;
  Types_NumExtensions : Types → Z;
  Types_NumExtensionsByMessage : Types → string → Z;
  Types_RangeEnums : Types → list EnumDescriptor;
  Types_RangeMessages : Types → list MessageDescriptor;
  Types_RangeExtensions : Types → list FieldDescriptor;
  Types_RangeExtensionsByMessage : Types → string → list FieldDescriptor }.

(** What registering a type changes: the new type is found by its name, and no other
    lookup by name is affected. *)
Class ProtoTypesLaws `{ProtoTypes} : Prop := {
  Types_find_empty n : Types_FindMessageByName Types_empty n = Err (ErrSentinel NotFound);
  Types_find_register_message ts md ts' n m :
    Types_RegisterMessage ts md = Ok ts' →
    Types_FindMessageByName ts' n = Ok m ↔
      (n = msg_FullName md ∧ m = md) ∨ Types_FindMessageByName ts n = Ok m;
  Types_find_register_enum ts ed ts' n m :
    Types_RegisterEnum ts ed = Ok ts' →
    Types_FindMessageByName ts' n = Ok m ↔ Types_FindMessageByName ts n = Ok m;
  Types_find_register_extension ts xd ts' n m :
    Types_RegisterExtension ts xd = Ok ts' →
    Types_FindMessageByName ts' n = Ok m ↔ Types_FindMessageByName ts n = Ok m }.

(** [descriptorpb] and [protodesc]: the serialisable form of files and its conversions;
    [proto.Marshal] and [proto.Unmarshal] of a [FileDescriptorSet]. *)
Class Protodesc `{ProtoFiles} := {
  FileDescriptorProto : Type;
  ToFileDescriptorProto : FileDescriptor → FileDescriptorProto;
  fdp_Name : FileDescriptorProto → string;
  NewFiles : list FileDescriptorProto → res Files;
  Marshal : list FileDescriptorProto → res string;
  Unmarshal : string → res (list FileDescriptorProto) }.

(** A callback-driven iteration ([Range...(func(x) bool)]): the callback updates a
    captured state and stops the walk by returning [false]. *)
Fixpoint iterate {A S} (f : A → S → bool * S) (l : list A) (s : S) : bool * S :=
  match l with
  | [] => (true, s)
  | x :: l => let '(cont, s') := f x s in if cont then iterate f l s' else (false, s')
  end.

(** ** Reference instances, for the witnesses *)

(** The part of a dotted name before its last dot. *)
Fixpoint before_last_dot (s : string) : option string :=
  match s with
  | EmptyString => None
  | String c s =>
     match before_last_dot s with
     | Some p => Some (String c p)
     | None => if decide (c = dot) then Some "" else None
     end
  end.

Definition dotted_parent (s : string) : string := default "" (before_last_dot s).

Lemma before_last_dot_shorter s p :
  before_last_dot s = Some p → String.length p < String.length s.
Proof.
  revert p. induction s as [|c s IH]; intros p; cbn; [done|].
  destruct (before_last_dot s) as [p'|].
  - intros [= <-]; cbn. specialize (IH p' eq_refl). lia.
  - case_decide; [|done]. intros [= <-]; cbn. lia.
Qed.

Definition dotted : Protoreflect.
Proof.
  refine {| Parent := dotted_parent |}.
  intros name Hname. unfold dotted_parent.
  destruct (before_last_dot name) eqn:E; cbn; [by apply before_last_dot_shorter|].
  destruct name; cbn; [done|lia].
Defined.

(** A file registry keyed by path. *)
Definition path_files : ProtoFiles := {|
  Files := gmap string FileDescriptor;
  Files_empty := ∅;
  Files_RegisterFile fs fd :=
    match fs !! file_Path fd with
    | Some _ => Err (ErrNew "file is already registered")
    | None => Ok (<[file_Path fd := fd]> fs)
    end;
  Files_FindFileByPath fs p :=
    match fs !! p with
    | Some fd => if decide (file_Path fd = p) then Ok fd else Err (ErrSentinel NotFound)
    | None => Err (ErrSentinel NotFound)
    end;
  Files_FindDescriptorByName fs n := Err (ErrSentinel NotFound);
  Files_RangeFiles fs :=
    (filter (λ kv, file_Path kv.2 = kv.1) (map_to_list fs)).*2;
  Files_NumFiles fs := Z.of_nat (size fs);
  Files_NumFilesByPackage fs p :=
    Z.of_nat (length (filter (λ kv, file_Package kv.2 = p) (map_to_list fs)));
  Files_RangeFilesByPackage fs p :=
    (filter (λ kv, file_Package kv.2 = p) (map_to_list fs)).*2 |}.

Lemma path_files_range (fs : gmap string FileDescriptor) fd :
  fd ∈ @Files_RangeFiles path_files fs ↔ fs !! file_Path fd = Some fd.
Proof.
  cbn. rewrite list_elem_of_fmap. split.
  - intros ([k v] & -> & [Hp Hin]%list_elem_of_filter). cbn in *. subst.
    by apply elem_of_map_to_list in Hin.
  - intros H. exists (file_Path fd, fd). split; [done|].
    apply list_elem_of_filter. split; [done|]. by apply elem_of_map_to_list.
Qed.

Lemma path_files_laws : @ProtoFilesLaws path_files.
Proof.
  split.
  - intros fs fd. rewrite path_files_range. cbn in *.
    destruct (fs !! file_Path fd) eqn:E; [case_decide|]; naive_solver.
  - intros fs p fd. cbn in *. destruct (fs !! p) eqn:E; [|done]. case_decide; [|done].
    by intros [= ->].
  - done.
  - done.
  - intros fs fd fs'. cbn in *. destruct (fs !! file_Path fd) eqn:E; [done|].
    intros [= <-]. split; [|done].
    rewrite map_to_list_insert by done. by rewrite filter_cons_True.
  - intros fs fd fs' p. cbn in *. destruct (fs !! file_Path fd) eqn:E; [done|].
    intros [= <-] Hne. by rewrite lookup_insert_ne.
Qed.

(** A type registry keyed by full name. *)
Definition rt_FullName (t : RtType) : string :=
  match t with
  | TMessage md => msg_FullName md
  | TEnum ed => en_FullName ed
  | TExtension xd => fld_FullName xd
  end.

Definition rt_register (ts : gmap string RtType) (t : RtType) : res (gmap string RtType) :=
  match ts !! rt_FullName t with
  | Some _ => Err (ErrNew "type is already registered")
  | None => Ok (<[rt_FullName t := t]> ts)
  end.

Definition rt_message (t : RtType) : option MessageDescriptor :=
  match t with TMessage d => Some d | _ => None end.
Definition rt_enum (t : RtType) : option EnumDescriptor :=
  match t with TEnum d => Some d | _ => None end.
Definition rt_extension (t : RtType) : option FieldDescriptor :=
  match t with TExtension d => Some d | _ => None end.

Definition rt_find {A} (sel : RtType → option A) (ts : gmap string RtType) (n : string)
    : res A :=
  match ts !! n ≫= sel with Some a => Ok a | None => Err (ErrSentinel NotFound) end.
Definition rt_all {A} (sel : RtType → option A) (ts : gmap string RtType) : list A :=
  omap (λ kv, sel kv.2) (map_to_list ts).

Definition name_types : ProtoTypes := {|
  Types := gmap string RtType;
  Types_empty := ∅;
  Types_RegisterMessage ts d := rt_register ts (TMessage d);
  Types_RegisterEnum ts d := rt_register ts (TEnum d);
  Types_RegisterExtension ts d := rt_register ts (TExtension d);
  Types_FindEnumByName := rt_find rt_enum;
  Types_FindMessageByName := rt_find rt_message;
  Types_FindMessageByURL ts url :=
    rt_find rt_message ts
      (match LastIndexByte slash url with Some i => str_drop (S i) url | None => url end);
  Types_FindExtensionByName := rt_find rt_extension;
  Types_FindExtensionByNumber ts m k :=
    match filter (λ x, fld_ContainingMessage x = m ∧ fld_Number x = k)
                 (rt_all rt_extension ts) with
    | x :: _ => Ok x
    | [] => Err (ErrSentinel NotFound)
    end;
  Types_NumEnums ts := Z.of_nat (length (rt_all rt_enum ts));
  Types_NumMessages ts := Z.of_nat (length (rt_all rt_message ts));
  Types_NumExtensions ts := Z.of_nat (length (rt_all rt_extension ts));
  Types_NumExtensionsByMessage ts m :=
    Z.of_nat (length (filter (λ x, fld_ContainingMessage x = m) (rt_all rt_extension ts)));
  Types_RangeEnums := rt_all rt_enum;
  Types_RangeMessages := rt_all rt_message;
  Types_RangeExtensions := rt_all rt_extension;
  Types_RangeExtensionsByMessage ts m :=
    filter (λ x, fld_ContainingMessage x = m) (rt_all rt_extension ts) |}.

Lemma rt_find_register ts t ts' n m :
  rt_register ts t = Ok ts' →
  rt_find rt_message ts' n = Ok m ↔
    (n = rt_FullName t ∧ t = TMessage m) ∨ rt_find rt_message ts n = Ok m.
Proof.
  unfold rt_register, rt_find. destruct (ts !! rt_FullName t) eqn:E; [done|].
  intros [= <-]. rewrite lookup_insert. case_decide as Hn.
  - subst n. rewrite E. cbn. destruct t; cbn; naive_solver.
  - naive_solver.
Qed.

Lemma name_types_laws : @ProtoTypesLaws name_types.
Proof.
  split.
  - intros n. cbn. unfold rt_find. by rewrite lookup_empty.
  - intros ts md ts' n m Hr. cbn in *. rewrite (rt_find_register _ _ _ _ _ Hr). naive_solver.
  - intros ts md ts' n m Hr. cbn in *. rewrite (rt_find_register _ _ _ _ _ Hr). naive_solver.
  - intros ts md ts' n m Hr. cbn in *. rewrite (rt_find_register _ _ _ _ _ Hr). naive_solver.
Qed.

(** Descriptors serialised as themselves. *)
Definition self_desc : @Protodesc path_files := {|
  FileDescriptorProto := FileDescriptor;
  ToFileDescriptorProto fd := fd;
  fdp_Name := file_Path;
  NewFiles := foldM (@Files_RegisterFile path_files) ∅;
  Marshal fds := Ok "fds";
  Unmarshal b := Ok [] |}.
