(* ===== verification/NsFiles.v ===== *)
(** * nsregistry.NamespacedFiles: a file registry with hierarchical fallback

    Models [src/nsregistry/namespace.go] (the files half) and the helpers of
    [src/nsregistry/helpers.go]. The [parent] pointer of a registry is the tail of the
    list it heads: a [list NamespacedFiles] is a registry followed by its ancestors, and
    the empty list is the nil pointer. The mutex only serialises calls, so one call is one
    step. *)

From S2P Require Import Prelude GoStrings Descriptor Protobuf.
From stdpp Require Import prelude gmap strings list.

Open Scope string_scope.

Section NsFiles.
Context `{Protoreflect, ProtoFiles, GoRange}.

(** The [any] values of [descsByName]. *)
Inductive descEntry :=
  | packageDescriptor (files : list FileDescriptor)
  | EDesc (d : Descriptor).

Record fileRecord := { fr_pkg : string; fr_names : list string }.

Record NamespacedFiles := {
  nf_global : option Files;
  nf_descsByName : gmap string descEntry;
  nf_filesByPath : gmap string (list FileDescriptor);
  nf_numFiles : Z;
  nf_fileDescs : gmap string fileRecord }.

Definition NewNamespacedFiles : NamespacedFiles := {|
  nf_global := None;
  nf_descsByName := {[ "" := packageDescriptor [] ]};
  nf_filesByPath := ∅;
  nf_numFiles := 0;
  nf_fileDescs := ∅ |}.

(** [&NamespacedFiles{global: g}]: the read-only wrapper around the global registry. *)
Definition globalFilesWrapper (g : Files) : NamespacedFiles := {|
  nf_global := Some g; nf_descsByName := ∅; nf_filesByPath := ∅; nf_numFiles := 0;
  nf_fileDescs := ∅ |}.

Definition isGlobalWrapperF (r : NamespacedFiles) : bool :=
  match nf_global r with Some _ => true | None => false end.

Definition set_descs (r : NamespacedFiles) (m : gmap string descEntry) : NamespacedFiles :=
  {| nf_global := nf_global r; nf_descsByName := m; nf_filesByPath := nf_filesByPath r;
     nf_numFiles := nf_numFiles r; nf_fileDescs := nf_fileDescs r |}.

(** [for name := pkg; name != ""; name = name.Parent()]: the names the loop visits. *)
Fixpoint parents (fuel : nat) (name : string) : list string :=
  match fuel with
  | O => []
  | S fuel => if decide (name = "") then [] else name :: parents fuel (Parent name)
  end.

Definition pkgChain (name : string) : list string := parents (String.length name) name.

(** The callbacks [rangeTopLevelDescriptors] makes, in order. *)
Definition rangeTopLevelDescriptors (fd : FileDescriptor) : list Descriptor :=
  (e ← reverse (file_Enums fd); DEnum e :: (DEnumValue <$> reverse (en_Values e))) ++
  (DMessage <$> reverse (file_Messages fd)) ++
  (DExtension <$> reverse (file_Extensions fd)) ++
  (DService <$> reverse (file_Services fd)).

Definition topLevelNames (fd : FileDescriptor) : list string :=
  desc_FullName <$> rangeTopLevelDescriptors fd.

(** [removeFileByPath]: drops the first file with the path. *)
Fixpoint removeFileByPath (files : list FileDescriptor) (path : string) : list FileDescriptor :=
  match files with
  | [] => []
  | f :: fs => if decide (file_Path f = path) then fs else f :: removeFileByPath fs path
  end.

(** Creates the missing package entries of a package chain. *)
Definition ensurePackages (names : list string) (m : gmap string descEntry) :=
  foldl (λ m name, match m !! name with
                   | None => <[name := packageDescriptor []]> m
                   | Some _ => m
                   end) m names.

(** [insertFileLocked]; the type assertion on the package entry panics when the entry is
    not a package. *)
Definition insertFileLocked (r : NamespacedFiles) (file : FileDescriptor)
    : outcome NamespacedFiles :=
  let path := file_Path file in
  let descs := ensurePackages (pkgChain (file_Package file)) (nf_descsByName r) in
  match descs !! file_Package file with
  | Some (packageDescriptor files) =>
     let descs := <[file_Package file := packageDescriptor (files ++ [file])]> descs in
     let tops := rangeTopLevelDescriptors file in
     let descs := foldl (λ m d, <[desc_FullName d := EDesc d]> m) descs tops in
     Returns {| nf_global := nf_global r; nf_descsByName := descs;
                nf_filesByPath := <[path := [file]]> (nf_filesByPath r);
                nf_numFiles := nf_numFiles r + 1;
                nf_fileDescs :=
                  <[path := {| fr_pkg := file_Package file;
                               fr_names := desc_FullName <$> tops |}]> (nf_fileDescs r) |}
  | _ => Panics
  end.

(** A package name is free when every prefix of it is absent or a package. *)
Fixpoint packageConflict (m : gmap string descEntry) (names : list string) : option string :=
  match names with
  | [] => None
  | name :: names =>
     match m !! name with
     | None | Some (packageDescriptor _) => packageConflict m names
     | Some (EDesc _) => Some name
     end
  end.

Fixpoint nameConflict (m : gmap string descEntry) (tops : list Descriptor) : option string :=
  match tops with
  | [] => None
  | d :: tops =>
     match m !! desc_FullName d with
     | Some _ => Some (desc_FullName d)
     | None => nameConflict m tops
     end
  end.

(** A method call: the error it returns (if any) and the registry it leaves. *)
Definition callF := outcome (res unit * NamespacedFiles).

Definition RegisterFile (r : NamespacedFiles) (file : FileDescriptor) : callF :=
  if isGlobalWrapperF r then
    Returns (Err (ErrNew "nsregistry: cannot register files on read-only global namespace"), r)
  else
  let path := file_Path file in
  match nf_filesByPath r !! path with
  | Some (_ :: _) =>
     Returns (Err (ErrNew ("nsregistry: file " +:+ quote path +:+ " is already registered")), r)
  | _ =>
  match packageConflict (nf_descsByName r) (pkgChain (file_Package file)) with
  | Some name =>
     Returns (Err (ErrNew ("nsregistry: file " +:+ quote path +:+
       " has a package name conflict over " +:+ name)), r)
  | None =>
  match nameConflict (nf_descsByName r) (rangeTopLevelDescriptors file) with
  | Some name =>
     Returns (Err (ErrNew ("nsregistry: file " +:+ quote path +:+
       " has a name conflict over " +:+ name)), r)
  | None =>
     match insertFileLocked r file with
     | Returns r' => Returns (Ok tt, r')
     | Panics => Panics
     end
  end end end.

(** [cleanupPackageChain]: deletes empty package entries from [pkg] upwards, stopping at
    the first entry that is not an empty package. *)
Fixpoint cleanupChain (names : list string) (m : gmap string descEntry) :=
  match names with
  | [] => m
  | name :: names =>
     match m !! name with
     | Some (packageDescriptor []) => cleanupChain names (delete name m)
     | _ => m
     end
  end.

Definition cleanupPackageChain (pkg : string) (m : gmap string descEntry) :=
  cleanupChain (pkgChain pkg) m.

(** Takes the file out of its package entry and cleans the package chain. *)
Definition removeFromPackage (pkg path : string) (m : gmap string descEntry) :=
  match m !! pkg with
  | Some (packageDescriptor files) =>
     cleanupPackageChain pkg (<[pkg := packageDescriptor (removeFileByPath files path)]> m)
  | _ => m
  end.

Definition deleteNames (names : list string) (m : gmap string descEntry) :=
  foldl (λ m name, delete name m) m names.

(** The descriptor index [UpdateFile] leaves after taking the old version of a file out:
    stale names are deleted, the file leaves its package entry, and a package the file
    moved away from is cleaned up. *)
Definition replacedIndex (m : gmap string descEntry) (old : fileRecord)
    (file : FileDescriptor) : gmap string descEntry :=
  let path := file_Path file in
  let newNames := topLevelNames file in
  let m := deleteNames (filter (λ name, name ∉ newNames) (fr_names old)) m in
  let m := if decide (fr_pkg old ≠ file_Package file)
           then removeFromPackage (fr_pkg old) path m else m in
  if decide (fr_pkg old = file_Package file)
  then match m !! file_Package file with
       | Some (packageDescriptor files) =>
          <[file_Package file := packageDescriptor (removeFileByPath files path)]> m
       | _ => m
       end
  else m.

Definition UpdateFile (r : NamespacedFiles) (file : FileDescriptor) : callF :=
  if isGlobalWrapperF r then
    Returns (Err (ErrNew "nsregistry: cannot update files on read-only global namespace"), r)
  else
  let path := file_Path file in
  let r1 :=
    match nf_fileDescs r !! path with
    | Some old =>
       {| nf_global := nf_global r;
          nf_descsByName := replacedIndex (nf_descsByName r) old file;
          nf_filesByPath := delete path (nf_filesByPath r);
          nf_numFiles := nf_numFiles r - 1;
          nf_fileDescs := delete path (nf_fileDescs r) |}
    | None => r
    end in
  match insertFileLocked r1 file with
  | Returns r' => Returns (Ok tt, r')
  | Panics => Panics
  end.

Definition UnregisterFile (r : NamespacedFiles) (path : string) : callF :=
  if isGlobalWrapperF r then
    Returns (Err (ErrNew "nsregistry: cannot unregister files on read-only global namespace"), r)
  else
  match nf_fileDescs r !! path with
  | None => Returns (Err (ErrSentinel NotFound), r)
  | Some old =>
     let m := deleteNames (fr_names old) (nf_descsByName r) in
     let m := removeFromPackage (fr_pkg old) path m in
     Returns (Ok tt,
       {| nf_global := nf_global r; nf_descsByName := m;
          nf_filesByPath := delete path (nf_filesByPath r);
          nf_numFiles := nf_numFiles r - 1;
          nf_fileDescs := delete path (nf_fileDescs r) |})
  end.

(** [nameSuffix.Pop]: the first identifier and the rest of the suffix. *)
Definition Pop (s : string) : string * string :=
  match IndexByte dot s with
  | Some i => (str_take i s, str_drop (S i) s)
  | None => (s, "")
  end.

(** The enum values of a message's enums, scanned from the last enum. *)
Fixpoint findValueInEnums (es : list EnumDescriptor) (name : string)
    : option EnumValueDescriptor :=
  match es with
  | [] => None
  | e :: es =>
     match values_ByName name (en_Values e) with
     | Some v => Some v
     | None => findValueInEnums es name
     end
  end.

(** The leaf lookups of [findDescriptorInMessage], made when the suffix is used up. *)
Definition findLeaf (md : MessageDescriptor) (name : string) : option Descriptor :=
  match enums_ByName name (msg_Enums md) with
  | Some e => Some (DEnum e)
  | None =>
  match findValueInEnums (reverse (msg_Enums md)) name with
  | Some v => Some (DEnumValue v)
  | None =>
  match fields_ByName name (msg_Extensions md) with
  | Some x => Some (DExtension x)
  | None =>
  match fields_ByName name (msg_Fields md) with
  | Some f => Some (DField f)
  | None =>
  match oneofs_ByName name (msg_Oneofs md) with
  | Some o => Some (DOneof o)
  | None => None
  end end end end end.

Fixpoint findDescriptorInMessage (md : MessageDescriptor) (suffix : string)
    : option Descriptor :=
  let '(name, suffix) := Pop suffix in
  match (if decide (suffix = "") then findLeaf md name else None) with
  | Some d => Some d
  | None =>
     (fix nested ms :=
        match ms with
        | [] => None
        | m :: ms =>
           if decide (msg_Name m = name)
           then if decide (suffix = "") then Some (DMessage m)
                else findDescriptorInMessage m suffix
           else nested ms
        end) (msg_Messages md)
  end.

(** The test [d != nil && d.FullName() == name] on a candidate. *)
Definition ifNamed (name : string) (d : option Descriptor) (k : res Descriptor)
    : res Descriptor :=
  match d with
  | Some d => if decide (desc_FullName d = name) then Ok d else k
  | None => k
  end.

(** The switch of [findDescriptorByNameLocal] on the entry found for a prefix. *)
Definition matchEntry (name suffix : string) (e : descEntry) : res Descriptor :=
  let miss := Err (ErrSentinel NotFound) in
  match e with
  | EDesc (DEnum d) => ifNamed name (Some (DEnum d)) miss
  | EDesc (DEnumValue d) => ifNamed name (Some (DEnumValue d)) miss
  | EDesc (DMessage d) =>
     ifNamed name (Some (DMessage d)) (ifNamed name (findDescriptorInMessage d suffix) miss)
  | EDesc (DExtension d) => ifNamed name (Some (DExtension d)) miss
  | EDesc (DService d) =>
     ifNamed name (Some (DService d))
       (ifNamed name (DMethod <$> methods_ByName (Pop suffix).1 (sv_Methods d)) miss)
  | _ => miss
  end.

Fixpoint findLocalLoop (fuel : nat) (m : gmap string descEntry) (name prefix suffix : string)
    : res Descriptor :=
  match fuel with
  | O => Err (ErrSentinel NotFound)
  | S fuel =>
     if decide (prefix = "") then Err (ErrSentinel NotFound) else
     match m !! prefix with
     | Some e => matchEntry name suffix e
     | None =>
        let prefix := Parent prefix in
        findLocalLoop fuel m name prefix (str_drop (S (String.length prefix)) name)
     end
  end.

Definition findDescriptorByNameLocal (r : NamespacedFiles) (name : string) : res Descriptor :=
  findLocalLoop (String.length name) (nf_descsByName r) name name "".

Fixpoint FindDescriptorByName (r : list NamespacedFiles) (name : string) : res Descriptor :=
  match r with
  | [] => Err (ErrSentinel NotFound)
  | r :: parent =>
     match nf_global r with
     | Some g => Files_FindDescriptorByName g name
     | None =>
        match findDescriptorByNameLocal r name with
        | Err (ErrSentinel NotFound) => FindDescriptorByName parent name
        | d => d
        end
     end
  end.

Fixpoint FindFileByPath (r : list NamespacedFiles) (path : string) : res FileDescriptor :=
  match r with
  | [] => Err (ErrSentinel NotFound)
  | r :: parent =>
     match nf_global r with
     | Some g => Files_FindFileByPath g path
     | None =>
        match default [] (nf_filesByPath r !! path) with
        | [fd] => Ok fd
        | [] => FindFileByPath parent path
        | _ => Err (ErrNew ("nsregistry: multiple files named " +:+ quote path))
        end
     end
  end.

Definition NumFiles (r : list NamespacedFiles) : Z :=
  match r with
  | [] => 0
  | r :: _ =>
     match nf_global r with Some g => Files_NumFiles g | None => nf_numFiles r end
  end.

(** The files [RangeFiles] visits, in the order of the map walk. *)
Definition localFiles (r : NamespacedFiles) : list FileDescriptor :=
  concat (go_range (nf_filesByPath r)).*2.

Definition RangeFiles {S} (r : list NamespacedFiles) (f : FileDescriptor → S → bool * S)
    (s : S) : S :=
  match r with
  | [] => s
  | r :: _ =>
     match nf_global r with
     | Some g => (iterate f (Files_RangeFiles g) s).2
     | None => (iterate f (localFiles r) s).2
     end
  end.

(** [rangeFilesAll]: the walk up the chain, with the paths already seen. *)
Fixpoint rangeFilesAll {S} (r : list NamespacedFiles) (f : FileDescriptor → S → bool * S)
    (seen : gset string) (s : S) : bool * (gset string * S) :=
  match r with
  | [] => (true, (seen, s))
  | r :: parent =>
     match nf_global r with
     | Some g =>
        iterate (λ fd '(seen, s),
          if decide (file_Path fd ∈ seen) then (true, (seen, s))
          else let '(cont, s) := f fd s in (cont, ({[ file_Path fd ]} ∪ seen, s)))
          (Files_RangeFiles g) (seen, s)
     | None =>
        let '(cont, (seen, s)) :=
          iterate (λ '(path, files) '(seen, s),
            if decide (path ∈ seen) then (true, (seen, s))
            else let '(cont, s) := iterate f files s in (cont, ({[ path ]} ∪ seen, s)))
            (go_range (nf_filesByPath r)) (seen, s) in
        if cont : bool then rangeFilesAll parent f seen s else (false, (seen, s))
     end
  end.

Definition RangeFilesAll {S} (r : list NamespacedFiles) (f : FileDescriptor → S → bool * S)
    (s : S) : S :=
  match r with [] => s | _ => (rangeFilesAll r f ∅ s).2.2 end.

Definition packageFiles (r : NamespacedFiles) (name : string) : list FileDescriptor :=
  match nf_descsByName r !! name with
  | Some (packageDescriptor files) => files
  | _ => []
  end.

Definition NumFilesByPackage (r : list NamespacedFiles) (name : string) : Z :=
  match r with
  | [] => 0
  | r :: _ =>
     match nf_global r with
     | Some g => Files_NumFilesByPackage g name
     | None => Z.of_nat (length (packageFiles r name))
     end
  end.

Definition RangeFilesByPackage {S} (r : list NamespacedFiles) (name : string)
    (f : FileDescriptor → S → bool * S) (s : S) : S :=
  match r with
  | [] => s
  | r :: _ =>
     match nf_global r with
     | Some g => (iterate f (Files_RangeFilesByPackage g name) s).2
     | None => (iterate f (packageFiles r name) s).2
     end
  end.

End NsFiles.
