(* ===== verification/NsFilesThms.v ===== *)
(** * Correctness of the file registry

    [files_rep r F] says that a local registry [r] represents the finite map [F] from
    paths to files: the path index, the per-file records, the counter, the descriptor
    index and the package lists all agree with [F]. Every operation is shown to refine
    the obvious operation on [F], and lookups to be functions of [F]. *)

From S2P Require Import Prelude GoStrings Descriptor Protobuf NsFiles.
From stdpp Require Import prelude gmap strings list.

Open Scope string_scope.

Section files_rep.
Context `{Protoreflect, ProtoFiles, GoRange}.
Implicit Types (r : NamespacedFiles) (F : gmap string FileDescriptor) (f : FileDescriptor)
  (m : gmap string descEntry).

(** What protobuf guarantees of a single file: its top-level names are distinct and none
    of them is its package or an enclosing package. *)
Definition registrable f : Prop :=
  NoDup (topLevelNames f) ∧
  ∀ n, n ∈ topLevelNames f → n ≠ "" ∧ n ∉ pkgChain (file_Package f).

Definition record_of f : fileRecord :=
  {| fr_pkg := file_Package f; fr_names := topLevelNames f |}.

(** The descriptor index holds exactly the top-level descriptors of the files, every
    package entry lists exactly the files of that package, and the package of every file
    (and the root) has an entry. *)
Record index_rep m F : Prop := {
  ir_descs n d : m !! n = Some (EDesc d) ↔
    ∃ p f, F !! p = Some f ∧ d ∈ rangeTopLevelDescriptors f ∧ desc_FullName d = n;
  ir_pkgs k fs : m !! k = Some (packageDescriptor fs) →
    NoDup (file_Path <$> fs) ∧
    ∀ f, f ∈ fs ↔ F !! file_Path f = Some f ∧ file_Package f = k;
  ir_pkg_of p f : F !! p = Some f → ∃ fs, m !! file_Package f = Some (packageDescriptor fs);
  ir_root : ∃ fs, m !! "" = Some (packageDescriptor fs);
  ir_disjoint p q f g n : F !! p = Some f → F !! q = Some g →
    n ∈ topLevelNames f → n ∈ topLevelNames g → p = q;
  ir_files p f : F !! p = Some f → file_Path f = p ∧ registrable f }.

Record files_rep r F : Prop := {
  fr_local : nf_global r = None;
  fr_byPath : nf_filesByPath r = (λ f, [f]) <$> F;
  fr_records : nf_fileDescs r = record_of <$> F;
  fr_count : nf_numFiles r = Z.of_nat (size F);
  fr_index : index_rep (nf_descsByName r) F }.

(** ** The helpers *)

Lemma parents_nonempty fuel name : "" ∉ parents fuel name.
Proof.
  revert name. induction fuel as [|fuel IH]; intros name; cbn; [set_solver|].
  case_decide; [set_solver|]. rewrite elem_of_cons. naive_solver.
Qed.

Lemma pkgChain_self name : name ≠ "" → name ∈ pkgChain name.
Proof.
  intros Hn. unfold pkgChain. destruct name as [|c s]; [done|]. cbn. left.
Qed.

Lemma packageConflict_None m names :
  packageConflict m names = None ↔ ∀ n d, n ∈ names → m !! n ≠ Some (EDesc d).
Proof.
  induction names as [|n names IH]; cbn; [set_solver|].
  destruct (m !! n) as [[fs|d]|] eqn:E; [rewrite IH|split|rewrite IH].
  - split; [|set_solver]. intros HH n' d [->|?]%elem_of_cons; [by rewrite E|eauto].
  - done.
  - intros HH. by destruct (HH n d ltac:(left) E).
  - split; [|set_solver]. intros HH n' d [->|?]%elem_of_cons; [by rewrite E|eauto].
Qed.

Lemma nameConflict_None m tops :
  nameConflict m tops = None ↔ ∀ d, d ∈ tops → m !! desc_FullName d = None.
Proof.
  induction tops as [|d tops IH]; cbn; [set_solver|].
  destruct (m !! desc_FullName d) eqn:E; [split|rewrite IH].
  - done.
  - intros HH. specialize (HH d ltac:(left)). congruence.
  - split; [|set_solver]. intros HH d' [->|?]%elem_of_cons; eauto.
Qed.

Lemma packageConflict_Some m names n :
  packageConflict m names = Some n → ∃ d, n ∈ names ∧ m !! n = Some (EDesc d).
Proof.
  induction names as [|x names IH]; cbn; [done|].
  destruct (m !! x) as [[fs|d]|] eqn:E; [|intros [= <-]; exists d; split; [left|done]|];
    intros (d & ? & ?)%IH; exists d; (split; [by right|done]).
Qed.

Lemma nameConflict_Some m tops n :
  nameConflict m tops = Some n → ∃ d e, d ∈ tops ∧ desc_FullName d = n ∧ m !! n = Some e.
Proof.
  induction tops as [|d tops IH]; cbn; [done|].
  destruct (m !! desc_FullName d) as [e|] eqn:E.
  - intros [= <-]. exists d, e. split; [left|done].
  - intros (d' & e & ? & ? & ?)%IH. exists d', e. split; [by right|done].
Qed.

Lemma lookup_ensurePackages m names n :
  ensurePackages names m !! n =
    match m !! n with
    | Some e => Some e
    | None => if decide (n ∈ names) then Some (packageDescriptor []) else None
    end.
Proof.
  unfold ensurePackages. revert m. induction names as [|x names IH]; intros m; cbn.
  { rewrite decide_False by set_solver. by destruct (m !! n). }
  rewrite IH. destruct (m !! x) eqn:Ex.
  - destruct (m !! n) eqn:En; [done|].
    destruct (decide (n ∈ names)); [rewrite decide_True by set_solver; done|].
    rewrite decide_False; [done|]. set_unfold. intros [->|?]; congruence.
  - destruct (decide (x = n)) as [->|].
    + rewrite lookup_insert_eq, Ex. by rewrite decide_True by set_solver.
    + rewrite lookup_insert_ne by done. destruct (m !! n); [done|].
      destruct (decide (n ∈ names)); [rewrite decide_True by set_solver|
        rewrite decide_False by set_solver]; done.
Qed.

Lemma lookup_deleteNames m names n :
  deleteNames names m !! n = if decide (n ∈ names) then None else m !! n.
Proof.
  unfold deleteNames. revert m. induction names as [|x names IH]; intros m; cbn.
  { by rewrite decide_False by set_solver. }
  rewrite IH. destruct (decide (n ∈ names)).
  - by rewrite decide_True by set_solver.
  - destruct (decide (x = n)) as [->|].
    + rewrite decide_True by set_solver. apply lookup_delete_eq.
    + rewrite decide_False by set_solver. by apply lookup_delete_ne.
Qed.

(** Registering descriptors with distinct names. *)
Lemma lookup_insertTops m (tops : list Descriptor) n e :
  NoDup (desc_FullName <$> tops) →
  foldl (λ m d, <[desc_FullName d := EDesc d]> m) m tops !! n = Some e ↔
  (∃ d, d ∈ tops ∧ desc_FullName d = n ∧ e = EDesc d) ∨
  (n ∉ desc_FullName <$> tops ∧ m !! n = Some e).
Proof.
  revert m. induction tops as [|d tops IH]; intros m; cbn.
  { intros _. split; [|set_solver]. intros ?. right. split; [set_solver|done]. }
  intros [Hd Hnd]%NoDup_cons. rewrite IH by done. clear IH.
  destruct (decide (desc_FullName d = n)) as [<-|Hne].
  - rewrite lookup_insert_eq. split.
    + intros [(d' & ? & E & ->)|[? [= <-]]]; [|left; exists d; set_solver].
      destruct Hd. apply list_elem_of_fmap. by exists d'.
    + intros [(d' & Hin & E & ->)|[Hnin _]]; [|set_solver].
      apply elem_of_cons in Hin as [->|Hin]; [right; auto|].
      destruct Hd. apply list_elem_of_fmap. by exists d'.
  - rewrite lookup_insert_ne by done. set_solver.
Qed.

Lemma elem_of_removeFileByPath fs path f :
  NoDup (file_Path <$> fs) →
  f ∈ removeFileByPath fs path ↔ f ∈ fs ∧ file_Path f ≠ path.
Proof.
  induction fs as [|g fs IH]; cbn; [set_solver|].
  intros [Hg Hnd]%NoDup_cons. case_decide as Hp.
  - subst. split.
    + intros Hf. split; [by right|]. intros E. apply Hg. rewrite <-E.
      by apply list_elem_of_fmap_2.
    + intros [[->|Hf]%elem_of_cons ?]; done.
  - rewrite !elem_of_cons, IH by done. naive_solver.
Qed.

Lemma NoDup_removeFileByPath fs path :
  NoDup (file_Path <$> fs) → NoDup (file_Path <$> removeFileByPath fs path).
Proof.
  induction fs as [|g fs IH]; cbn; [done|].
  intros [Hg Hnd]%NoDup_cons. case_decide; [done|]. cbn. apply NoDup_cons. split; [|auto].
  intros (x & ? & Hx)%list_elem_of_fmap.
  apply elem_of_removeFileByPath in Hx as [? _]; [|done].
  apply Hg, list_elem_of_fmap. eauto.
Qed.

(** [cleanupChain] only removes empty package entries. *)
Lemma lookup_cleanupChain names m n :
  cleanupChain names m !! n = m !! n ∨
  (n ∈ names ∧ m !! n = Some (packageDescriptor []) ∧ cleanupChain names m !! n = None).
Proof.
  revert m. induction names as [|x names IH]; intros m; cbn; [by left|].
  destruct (m !! x) as [[[|g fs]|d]|] eqn:Ex; try by left.
  destruct (decide (x = n)) as [->|Hne].
  - right. split_and!; [left|done|]. destruct (IH (delete n m)) as [->|(_ & E & _)].
    + apply lookup_delete_eq.
    + by rewrite lookup_delete_eq in E.
  - rewrite <-(lookup_delete_ne m x n) by done.
    destruct (IH (delete x m)) as [?|(? & ? & ?)]; [by left|right; set_solver].
Qed.

(** ** The index under cleaning, removal and insertion *)

Lemma topLevelNames_elem f n :
  n ∈ topLevelNames f ↔ ∃ d, d ∈ rangeTopLevelDescriptors f ∧ desc_FullName d = n.
Proof. unfold topLevelNames. rewrite list_elem_of_fmap. naive_solver. Qed.

Lemma pkg_not_top f : registrable f → file_Package f ∉ topLevelNames f.
Proof.
  intros [_ Hn] Hin. destruct (Hn _ Hin) as [Hne Hch]. by apply Hch, pkgChain_self.
Qed.

Lemma index_cleanup names m F :
  "" ∉ names → index_rep m F → index_rep (cleanupChain names m) F.
Proof.
  intros Hroot [Hd Hp Hof Hr Hdis Hfl]. split; [| | | |done|done].
  - intros n d. rewrite <-Hd. destruct (lookup_cleanupChain names m n) as [->|(_ & -> & ->)];
      naive_solver.
  - intros k fs Hk. apply Hp. destruct (lookup_cleanupChain names m k) as [E|(_ & _ & E)];
      congruence.
  - intros p f Hf. destruct (Hof p f Hf) as [fs Hfs]. exists fs.
    destruct (lookup_cleanupChain names m (file_Package f)) as [E|(_ & E & _)]; [congruence|].
    rewrite Hfs in E. injection E as ->. destruct (Hp _ _ Hfs) as [_ Hin].
    destruct (not_elem_of_nil f). apply Hin. by destruct (Hfl p f Hf) as [-> _].
  - destruct Hr as [fs Hfs]. exists fs.
    destruct (lookup_cleanupChain names m "") as [E|(? & _)]; [congruence|done].
Qed.

(** Dropping a file: its names leave the index and it leaves its package entry. *)
Lemma index_drop m F f fs :
  index_rep m F → F !! file_Path f = Some f →
  m !! file_Package f = Some (packageDescriptor fs) →
  index_rep
    (<[file_Package f := packageDescriptor (removeFileByPath fs (file_Path f))]>
       (deleteNames (topLevelNames f) m))
    (delete (file_Path f) F).
Proof.
  intros [Hd Hp Hof Hr Hdis Hfl] Hf Hpkg. destruct (Hfl _ _ Hf) as [_ Hreg].
  pose proof (pkg_not_top f Hreg) as Hpn. destruct (Hp _ _ Hpkg) as [Hnd Hin].
  split.
  - intros n d. rewrite lookup_insert, lookup_deleteNames. setoid_rewrite lookup_delete.
    destruct (decide (file_Package f = n)) as [<-|Hne].
    { split; [done|]. intros (p & g & Hg & Hdg & E). case_decide; [done|].
      rewrite (proj2 (Hd _ d)) in Hpkg; [done|]. eauto. }
    destruct (decide (n ∈ topLevelNames f)) as [Hn|Hn].
    { split; [done|]. intros (p & g & Hg & Hdg & E). case_decide as Hpp; [done|].
      destruct Hpp. eapply Hdis; [exact Hf|exact Hg|exact Hn|].
      apply topLevelNames_elem. eauto. }
    rewrite Hd. split; intros (p & g & Hg & Hdg & E); exists p, g.
    + rewrite decide_False; [done|]. intros <-. rewrite Hf in Hg. injection Hg as <-.
      apply Hn, topLevelNames_elem. eauto.
    + by case_decide.
  - intros k gs. rewrite lookup_insert, lookup_deleteNames. setoid_rewrite lookup_delete.
    case_decide as Hk.
    + intros [= <-]. split; [by apply NoDup_removeFileByPath|]. intros g.
      rewrite elem_of_removeFileByPath, Hin by done. subst k. case_decide; naive_solver.
    + case_decide; [done|]. intros Hgs. destruct (Hp _ _ Hgs) as [? Hgin].
      split; [done|]. intros g. rewrite Hgin. case_decide as E; [|done].
      split; [|naive_solver]. intros [Hg ?]. rewrite <-E, Hf in Hg. congruence.
  - intros p g. rewrite lookup_delete. case_decide; [done|]. intros Hg.
    rewrite lookup_insert, lookup_deleteNames. case_decide; [eauto|].
    destruct (Hof p g Hg) as [gs Hgs]. exists gs. rewrite decide_False; [done|].
    rewrite topLevelNames_elem. intros (d & Hdf & E).
    rewrite <-E in Hgs. rewrite (proj2 (Hd _ d)) in Hgs; [done|]. eauto.
  - destruct Hr as [rs Hrs]. rewrite lookup_insert, lookup_deleteNames.
    case_decide; [eauto|]. rewrite decide_False; [eauto|].
    intros Hn. by destruct (proj2 Hreg _ Hn).
  - intros p q g g' n. rewrite !lookup_delete. case_decide; [done|]. case_decide; [done|].
    eauto.
  - intros p g. rewrite lookup_delete. case_decide; [done|]. eauto.
Qed.

(** A file fits an index: its package is no descriptor, and none of its names is a
    descriptor or the package of a registered file. *)
Definition fits m F f : Prop :=
  (∀ d, m !! file_Package f ≠ Some (EDesc d)) ∧
  (∀ n, n ∈ topLevelNames f →
     (∀ d, m !! n ≠ Some (EDesc d)) ∧ ∀ p g, F !! p = Some g → file_Package g ≠ n).

(** The descriptor index after [insertFileLocked], over a base [m0] that agrees with the
    actual index [m] except on [f]'s own names, which are overwritten. *)
Section index_insert.
Context (m0 m : gmap string descEntry) (F : gmap string FileDescriptor).
Context (f : FileDescriptor) (fs : list FileDescriptor).
Notation ens := (ensurePackages (pkgChain (file_Package f)) m).
Notation base := (<[file_Package f := packageDescriptor (fs ++ [f])]> ens).
Notation full := (foldl (λ m d, <[desc_FullName d := EDesc d]> m) base
                        (rangeTopLevelDescriptors f)).
Context (Hm : ∀ n, n ∉ topLevelNames f → m !! n = m0 !! n).
Context (Hrep : index_rep m0 F) (HF : F !! file_Path f = None).
Context (Hreg : registrable f) (Hfit : fits m0 F f).
Context (Hfs : ens !! file_Package f = Some (packageDescriptor fs)).

Lemma ins_ens n : n ∉ topLevelNames f →
  ens !! n = match m0 !! n with
             | Some e => Some e
             | None => if decide (n ∈ pkgChain (file_Package f))
                       then Some (packageDescriptor []) else None
             end.
Proof. intros Hn. by rewrite lookup_ensurePackages, Hm. Qed.

(** A package entry of [ens] lists the files of that package. *)
Lemma ins_pkg_files k gs : k ∉ topLevelNames f → ens !! k = Some (packageDescriptor gs) →
  NoDup (file_Path <$> gs) ∧ ∀ g, g ∈ gs ↔ F !! file_Path g = Some g ∧ file_Package g = k.
Proof.
  intros Hk. rewrite ins_ens by done. destruct (m0 !! k) as [e|] eqn:E.
  - intros [= ->]. by apply (ir_pkgs _ _ Hrep).
  - case_decide; [|done]. intros [= <-]. split; [constructor|].
    intros g. split; [by intros ?%not_elem_of_nil|]. intros [Hg <-].
    destruct (ir_pkg_of _ _ Hrep _ _ Hg) as [? ?]. congruence.
Qed.

Lemma ins_base_desc n d : n ∉ topLevelNames f →
  base !! n = Some (EDesc d) ↔ m0 !! n = Some (EDesc d).
Proof.
  intros Hn. rewrite lookup_insert. destruct (decide (file_Package f = n)) as [<-|].
  - split; [done|]. intros E. rewrite ins_ens, E in Hfs by done. done.
  - rewrite ins_ens by done. destruct (m0 !! n); [done|]. case_decide; naive_solver.
Qed.

Lemma ins_full n e : full !! n = Some e ↔
  (∃ d, d ∈ rangeTopLevelDescriptors f ∧ desc_FullName d = n ∧ e = EDesc d) ∨
  (n ∉ topLevelNames f ∧ base !! n = Some e).
Proof. apply lookup_insertTops, Hreg. Qed.

Lemma ins_fresh_name p g n : F !! p = Some g → n ∈ topLevelNames g → n ∉ topLevelNames f.
Proof.
  intros Hg (d & Hin & E)%topLevelNames_elem Hn.
  apply (proj1 (proj2 Hfit _ Hn) d). apply (ir_descs _ _ Hrep). eauto.
Qed.

Lemma ins_descs n d : full !! n = Some (EDesc d) ↔
  ∃ p g, <[file_Path f := f]> F !! p = Some g ∧
         d ∈ rangeTopLevelDescriptors g ∧ desc_FullName d = n.
Proof.
  rewrite ins_full. split.
  - intros [(d' & Hin & E & [= <-])|[Hn Hx]].
    + exists (file_Path f), f. by rewrite lookup_insert_eq.
    + apply ins_base_desc in Hx; [|done].
      apply (ir_descs _ _ Hrep) in Hx as (p & g & Hg & Hin & E).
      exists p, g. rewrite lookup_insert_ne; [done|congruence].
  - intros (p & g & Hg & Hin & E). apply lookup_insert_Some in Hg as [[<- <-]|[? Hg]];
      [left; eauto|right].
    assert (n ∉ topLevelNames f).
    { eapply ins_fresh_name; [done|]. apply topLevelNames_elem. eauto. }
    split; [done|]. apply ins_base_desc; [done|]. apply (ir_descs _ _ Hrep). eauto.
Qed.

Lemma ins_own_pkg :
  NoDup (file_Path <$> (fs ++ [f])%list) ∧
  ∀ g, g ∈ (fs ++ [f])%list ↔ <[file_Path f := f]> F !! file_Path g = Some g ∧
                       file_Package g = file_Package f.
Proof.
  destruct (ins_pkg_files _ _ (pkg_not_top _ Hreg) Hfs) as [Hnd Hin].
  rewrite fmap_app. split.
  - apply NoDup_app. split_and!; [done| |apply NoDup_singleton].
    intros p (g & -> & Hg)%list_elem_of_fmap Hq. cbn in Hq.
    apply list_elem_of_singleton in Hq. apply Hin in Hg as [Hg _]. congruence.
  - intros g. rewrite elem_of_app, list_elem_of_singleton, Hin, lookup_insert_Some.
    split; [|naive_solver]. intros [[Hg ?]| ->]; [|naive_solver].
    split; [|done]. right. split; [congruence|done].
Qed.

Lemma ins_pkgs k gs : full !! k = Some (packageDescriptor gs) →
  NoDup (file_Path <$> gs) ∧
  ∀ g, g ∈ gs ↔ <[file_Path f := f]> F !! file_Path g = Some g ∧ file_Package g = k.
Proof.
  intros [(d & _ & _ & [=])|[Hk Hx]]%ins_full.
  apply lookup_insert_Some in Hx as [[<- [= <-]]|[Hne Hx]]; [apply ins_own_pkg|].
  destruct (ins_pkg_files _ _ Hk Hx) as [Hnd Hin]. split; [done|].
  intros g. rewrite Hin, lookup_insert_Some. split; [|naive_solver].
  intros [Hg ?]. split; [|done]. right. split; [congruence|done].
Qed.

Lemma ins_pkg_of p g : <[file_Path f := f]> F !! p = Some g →
  ∃ gs, full !! file_Package g = Some (packageDescriptor gs).
Proof.
  intros Hg. destruct (decide (file_Package g = file_Package f)) as [->|Hne].
  { exists (fs ++ [f])%list. apply ins_full. right. split; [by apply pkg_not_top|].
    apply lookup_insert_eq. }
  apply lookup_insert_Some in Hg as [[<- <-]|[_ Hg]]; [done|].
  destruct (ir_pkg_of _ _ Hrep _ _ Hg) as [gs Hgs]. exists gs. apply ins_full. right.
  assert (Hn : file_Package g ∉ topLevelNames f)
    by (intros Hx; by destruct (proj2 (proj2 Hfit _ Hx) _ _ Hg)).
  split; [done|]. rewrite lookup_insert_ne by done. by rewrite ins_ens, Hgs.
Qed.

Lemma ins_root : ∃ gs, full !! "" = Some (packageDescriptor gs).
Proof.
  assert (Hn : "" ∉ topLevelNames f) by (intros Hx; by destruct (proj2 Hreg _ Hx)).
  destruct (ir_root _ _ Hrep) as [rs Hrs]. setoid_rewrite ins_full.
  destruct (decide (file_Package f = "")) as [E|Hne].
  - exists (fs ++ [f])%list. right. split; [done|]. rewrite <-E. apply lookup_insert_eq.
  - exists rs. right. split; [done|]. rewrite lookup_insert_ne by done.
    by rewrite ins_ens, Hrs.
Qed.

Lemma index_insert : index_rep full (<[file_Path f := f]> F).
Proof.
  split; [exact ins_descs|exact ins_pkgs|exact ins_pkg_of|exact ins_root| |].
  - intros p q g g' n [[<- <-]|[? Hg]]%lookup_insert_Some
      [[<- <-]|[? Hg']]%lookup_insert_Some ??; [done| | |by eapply (ir_disjoint _ _ Hrep)].
    + by destruct (ins_fresh_name _ _ n Hg').
    + by destruct (ins_fresh_name _ _ n Hg).
  - intros p g [[<- <-]|[? Hg]]%lookup_insert_Some; [done|by apply (ir_files _ _ Hrep)].
Qed.
End index_insert.

(** ** The operations *)

Lemma insertFileLocked_rep r m0 F f :
  nf_global r = None →
  nf_filesByPath r = (λ f, [f]) <$> F → nf_fileDescs r = record_of <$> F →
  nf_numFiles r = Z.of_nat (size F) →
  (∀ n, n ∉ topLevelNames f → nf_descsByName r !! n = m0 !! n) →
  index_rep m0 F → F !! file_Path f = None → registrable f → fits m0 F f →
  ∃ r', insertFileLocked r f = Returns r' ∧ files_rep r' (<[file_Path f := f]> F).
Proof.
  intros Hg Hb Hrec Hc Hm Hrep HF Hreg Hfit. unfold insertFileLocked.
  assert (∃ fs, ensurePackages (pkgChain (file_Package f)) (nf_descsByName r)
    !! file_Package f = Some (packageDescriptor fs)) as [fs Hfs].
  { rewrite (ins_ens m0); [|done|by apply pkg_not_top].
    destruct (decide (file_Package f = "")) as [->|Hne].
    - destruct (ir_root _ _ Hrep) as [rs ->]. eauto.
    - pose proof (pkgChain_self _ Hne) as Hin.
      destruct (m0 !! file_Package f) as [[gs|d]|] eqn:E; [eauto| |].
      + by destruct (proj1 Hfit d).
      + rewrite decide_True by done. eauto. }
  rewrite Hfs. eexists. split; [done|]. split; cbn; [done| | | |].
  - by rewrite Hb, fmap_insert.
  - by rewrite Hrec, fmap_insert.
  - rewrite map_size_insert_None by done. lia.
  - by eapply index_insert.
Qed.

(** Why a registration is refused. *)
Definition clash r F f : Prop :=
  is_Some (F !! file_Path f) ∨
  (∃ n p g, n ∈ pkgChain (file_Package f) ∧ F !! p = Some g ∧ n ∈ topLevelNames g) ∨
  (∃ n p g, n ∈ topLevelNames f ∧ F !! p = Some g ∧ n ∈ topLevelNames g) ∨
  (∃ n fs, n ∈ topLevelNames f ∧ nf_descsByName r !! n = Some (packageDescriptor fs)).

Lemma indexed_name m F n d :
  index_rep m F → m !! n = Some (EDesc d) → ∃ p g, F !! p = Some g ∧ n ∈ topLevelNames g.
Proof.
  intros Hrep (p & g & Hg & Hd & <-)%(ir_descs _ _ Hrep). exists p, g. split; [done|].
  apply topLevelNames_elem. eauto.
Qed.

Lemma package_no_desc m F f :
  index_rep m F → (∀ n d, n ∈ pkgChain (file_Package f) → m !! n ≠ Some (EDesc d)) →
  ∀ d, m !! file_Package f ≠ Some (EDesc d).
Proof.
  intros Hrep Hch d. destruct (decide (file_Package f = "")) as [->|Hne].
  - destruct (ir_root _ _ Hrep) as [fs ->]. done.
  - by apply Hch, pkgChain_self.
Qed.

(** [RegisterFile] never panics. It fails exactly when the path is taken, a prefix of
    the package is a registered descriptor, or a top-level name of the file is already
    registered as a descriptor or a package, and then leaves the registry as it was;
    otherwise the registry represents the files with the new one added: path index,
    records, counter, descriptor index and package lists together. *)
Lemma RegisterFile_refines r F f :
  files_rep r F → registrable f →
  ∃ x r', RegisterFile r f = Returns (x, r') ∧
    match x with
    | Err _ => r' = r ∧ clash r F f
    | Ok _ => ¬ clash r F f ∧ files_rep r' (<[file_Path f := f]> F)
    end.
Proof.
  intros [Hg Hb Hrec Hc Hrep] Hreg. unfold RegisterFile, isGlobalWrapperF. rewrite Hg.
  rewrite Hb, lookup_fmap. destruct (F !! file_Path f) as [g|] eqn:HF; cbn.
  { do 2 eexists. split; [done|]. split; [done|]. left. by rewrite HF. }
  destruct (packageConflict _ _) as [n|] eqn:Epc.
  { do 2 eexists. split; [done|]. split; [done|]. right. left.
    apply packageConflict_Some in Epc as (d & Hn & Hd).
    destruct (indexed_name _ _ _ _ Hrep Hd) as (p & g & ? & ?). eauto 6. }
  destruct (nameConflict _ _) as [n|] eqn:Enc.
  { do 2 eexists. split; [done|]. split; [done|]. right. right.
    apply nameConflict_Some in Enc as (d & [fs|d'] & Hd & <- & E).
    - right. exists (desc_FullName d), fs. split; [apply topLevelNames_elem; eauto|done].
    - left. destruct (indexed_name _ _ _ _ Hrep E) as (p & g & ? & ?).
      exists (desc_FullName d), p, g. split; [apply topLevelNames_elem; eauto|done]. }
  rewrite packageConflict_None in Epc. rewrite nameConflict_None in Enc.
  destruct (insertFileLocked_rep r (nf_descsByName r) F f) as (r' & -> & Hr'); try done.
  { split; [by apply (package_no_desc _ F)|]. intros n (d & Hd & <-)%topLevelNames_elem.
    specialize (Enc d Hd). split; [naive_solver|]. intros p g HgF E.
    destruct (ir_pkg_of _ _ Hrep _ _ HgF). congruence. }
  do 2 eexists. split; [done|]. split; [|done].
  intros [[? ?]|[(n & p & g & Hn & HgF & Hin)|[(n & p & g & Hn & HgF & Hin)|(n & fs & Hn & E)]]].
  - congruence.
  - apply topLevelNames_elem in Hin as (d & Hd & <-).
    apply (Epc _ d Hn), (ir_descs _ _ Hrep). eauto.
  - apply topLevelNames_elem in Hn as (d & Hd & <-), Hin as (d' & Hd' & E).
    specialize (Enc d Hd). assert (nf_descsByName r !! desc_FullName d = Some (EDesc d'));
      [|congruence]. apply (ir_descs _ _ Hrep). eauto.
  - apply topLevelNames_elem in Hn as (d & Hd & <-). rewrite (Enc d Hd) in E. done.
Qed.

(** [UnregisterFile] on a represented registry. *)
Lemma removeFromPackage_rep m F f :
  index_rep m F → F !! file_Path f = Some f →
  index_rep (removeFromPackage (file_Package f) (file_Path f)
               (deleteNames (topLevelNames f) m)) (delete (file_Path f) F).
Proof.
  intros Hrep HF. destruct (ir_pkg_of _ _ Hrep _ _ HF) as [fs Hfs].
  destruct (ir_files _ _ Hrep _ _ HF) as [_ Hreg]. unfold removeFromPackage.
  rewrite lookup_deleteNames, decide_False, Hfs by (by apply pkg_not_top).
  apply index_cleanup; [apply parents_nonempty|]. by apply index_drop.
Qed.

Lemma size_delete_Z {V} (m : gmap string V) k v :
  m !! k = Some v → Z.of_nat (size (delete k m)) = (Z.of_nat (size m) - 1)%Z.
Proof.
  intros Hk. rewrite map_size_delete_Some by eauto.
  assert (size m ≠ 0); [|lia]. intros E%map_size_empty_inv. by subst.
Qed.

(** [UnregisterFile] returns [NotFound] and changes nothing for a path that is not
    registered, and otherwise leaves a registry that represents the remaining files. *)
Lemma UnregisterFile_refines r F path :
  files_rep r F →
  match F !! path with
  | None => UnregisterFile r path = Returns (Err (ErrSentinel NotFound), r)
  | Some _ => ∃ r', UnregisterFile r path = Returns (Ok tt, r') ∧ files_rep r' (delete path F)
  end.
Proof.
  intros [Hg Hb Hrec Hc Hrep]. unfold UnregisterFile, isGlobalWrapperF. rewrite Hg.
  rewrite Hrec, lookup_fmap. destruct (F !! path) as [f|] eqn:HF; cbn; [|done].
  destruct (ir_files _ _ Hrep _ _ HF) as [<- Hreg].
  eexists. split; [done|]. split; cbn; [done| | | |].
  - by rewrite Hb, fmap_delete.
  - by rewrite fmap_delete.
  - by rewrite (size_delete_Z _ _ f), Hc.
  - by apply removeFromPackage_rep.
Qed.

(** ** UpdateFile *)

Lemma cleanupChain_agree names m m' n :
  (∀ x, x ∈ names → m !! x = m' !! x) → m !! n = m' !! n →
  cleanupChain names m !! n = cleanupChain names m' !! n.
Proof.
  revert m m'. induction names as [|x names IH]; intros m m' Hx Hn; cbn; [done|].
  rewrite <-(Hx x) by set_solver. destruct (m !! x) as [[[|]|]|]; try done.
  apply IH.
  - intros y Hy. rewrite !lookup_delete. case_decide; [done|]. apply Hx. set_solver.
  - rewrite !lookup_delete. by case_decide.
Qed.

(** The file [f] can replace the file at its path: it shares no name with the other files,
    and neither declares the package of the other. *)
Definition upsertable F f : Prop :=
  ∀ p g, F !! p = Some g → p ≠ file_Path f →
    (∀ n, n ∈ topLevelNames f → n ∉ topLevelNames g ∧ n ≠ file_Package g) ∧
    file_Package f ∉ topLevelNames g.

Lemma upsertable_fits m F f :
  upsertable F f → index_rep m (delete (file_Path f) F) →
  fits m (delete (file_Path f) F) f.
Proof.
  intros Hup Hrep. split.
  - intros d (p & g & Hg & Hd & E)%(ir_descs _ _ Hrep).
    apply lookup_delete_Some in Hg as [Hp Hg].
    destruct (Hup _ _ Hg (not_eq_sym Hp)) as [_ Hch]. apply Hch.
    apply topLevelNames_elem. eauto.
  - intros n Hn. split.
    + intros d (p & g & Hg & Hd & E)%(ir_descs _ _ Hrep).
      apply lookup_delete_Some in Hg as [Hp Hg].
      destruct (Hup _ _ Hg (not_eq_sym Hp)) as [Hx _]. destruct (Hx n Hn) as [Hx' _].
      apply Hx', topLevelNames_elem. eauto.
    + intros p g [Hp Hg]%lookup_delete_Some E.
      destruct (Hup _ _ Hg (not_eq_sym Hp)) as [Hx _]. by destruct (Hx n Hn).
Qed.

Lemma replacedIndex_rep m F old f :
  index_rep m F → F !! file_Path f = Some old →
  ∃ m0, index_rep m0 (delete (file_Path f) F) ∧
    ∀ n, n ∉ topLevelNames f → replacedIndex m (record_of old) f !! n = m0 !! n.
Proof.
  intros Hrep HF. destruct (ir_files _ _ Hrep _ _ HF) as [Hp Hreg].
  destruct (ir_pkg_of _ _ Hrep _ _ HF) as [fs Hfs].
  pose proof (pkg_not_top _ Hreg) as Hpn. unfold replacedIndex. cbn [record_of fr_pkg fr_names].
  set (stale := filter _ _). rewrite <-Hp in HF |- *.
  assert (Hagree : ∀ n, n ∉ topLevelNames f ∨ n ∉ topLevelNames old →
    deleteNames stale m !! n = deleteNames (topLevelNames old) m !! n).
  { intros n Hn. rewrite !lookup_deleteNames. unfold stale.
    repeat case_decide; rewrite ?list_elem_of_filter in *; naive_solver. }
  assert (Hst : deleteNames stale m !! file_Package old = Some (packageDescriptor fs)).
  { rewrite Hagree, lookup_deleteNames by auto. by rewrite decide_False. }
  destruct (decide (file_Package old = file_Package f)) as [E|E].
  - rewrite (decide_False (P := _ ≠ _)) by naive_solver. rewrite <-E, Hst.
    eexists. split; [by apply (index_drop m F old fs)|].
    intros n Hn. rewrite !lookup_insert. case_decide; [done|]. auto.
  - rewrite (decide_True (P := _ ≠ _)) by done.
    eexists. split; [by apply (removeFromPackage_rep m F old)|].
    intros n Hn. unfold removeFromPackage.
    rewrite Hst, <-Hagree, Hst by auto. apply cleanupChain_agree.
    + intros x Hx. rewrite !lookup_insert. case_decide; [done|]. apply Hagree. right.
      intros Hx'. by destruct (proj2 Hreg _ Hx').
    + rewrite !lookup_insert. case_decide; [done|]. auto.
Qed.

(** [UpdateFile] on a file that clashes with no other registered file replaces the file
    at its path, or adds it: it returns without error and the registry represents the
    updated map, whether or not the package of the file changed. *)
Lemma UpdateFile_refines r F f :
  files_rep r F → registrable f → upsertable F f →
  ∃ r', UpdateFile r f = Returns (Ok tt, r') ∧ files_rep r' (<[file_Path f := f]> F).
Proof.
  intros [Hg Hb Hrec Hc Hrep] Hreg Hup. unfold UpdateFile, isGlobalWrapperF. rewrite Hg.
  rewrite Hrec, lookup_fmap. rewrite <-insert_delete_eq.
  destruct (F !! file_Path f) as [old|] eqn:HF; cbn [fmap option_fmap option_map].
  - destruct (replacedIndex_rep _ _ _ _ Hrep HF) as (m0 & Hm0 & Hag).
    edestruct (insertFileLocked_rep
      {| nf_global := None;
         nf_descsByName := replacedIndex (nf_descsByName r) (record_of old) f;
         nf_filesByPath := delete (file_Path f) (nf_filesByPath r);
         nf_numFiles := nf_numFiles r - 1;
         nf_fileDescs := delete (file_Path f) (record_of <$> F) |} m0
      (delete (file_Path f) F) f) as (r' & Hr' & Hrep'); cbn; try done.
    + by rewrite Hb, fmap_delete.
    + by rewrite fmap_delete.
    + by rewrite (size_delete_Z _ _ old), Hc.
    + apply lookup_delete_eq.
    + by apply upsertable_fits.
    + exists r'. by rewrite Hr'.
  - rewrite delete_id in * by done.
    destruct (insertFileLocked_rep r (nf_descsByName r) F f) as (r' & -> & Hr'); try done.
    { pose proof (upsertable_fits (nf_descsByName r) F f Hup) as Hfit.
      rewrite delete_id in Hfit by done. auto. }
    by exists r'.
Qed.

(** [UpdateFile] makes no conflict check: adding a file whose package is the name of a
    descriptor of another registered file panics (the type assertion on the package
    entry). *)
Theorem UpdateFile_package_clash_panics r F f p g :
  files_rep r F → F !! file_Path f = None →
  F !! p = Some g → file_Package f ∈ topLevelNames g →
  UpdateFile r f = Panics.
Proof.
  intros [Hg Hb Hrec Hc Hrep] HF Hp (d & Hd & E)%topLevelNames_elem.
  unfold UpdateFile, isGlobalWrapperF. rewrite Hg, Hrec, lookup_fmap, HF. cbn.
  unfold insertFileLocked. rewrite lookup_ensurePackages.
  rewrite (proj2 (ir_descs _ _ Hrep _ d)); [done|]. eauto.
Qed.

(** ** Lookups *)

(** The descriptors declared inside a message, at any depth. *)
Inductive nestedIn : MessageDescriptor → Descriptor → Prop :=
  | nested_enum md e : e ∈ msg_Enums md → nestedIn md (DEnum e)
  | nested_value md e v : e ∈ msg_Enums md → v ∈ en_Values e → nestedIn md (DEnumValue v)
  | nested_ext md x : x ∈ msg_Extensions md → nestedIn md (DExtension x)
  | nested_field md x : x ∈ msg_Fields md → nestedIn md (DField x)
  | nested_oneof md o : o ∈ msg_Oneofs md → nestedIn md (DOneof o)
  | nested_message md c : c ∈ msg_Messages md → nestedIn md (DMessage c)
  | nested_deep md c d : c ∈ msg_Messages md → nestedIn c d → nestedIn md d.

(** A descriptor declared in a file: top-level, in a message or a method of a service. *)
Definition declaredIn f (d : Descriptor) : Prop :=
  d ∈ rangeTopLevelDescriptors f ∨
  (∃ md, DMessage md ∈ rangeTopLevelDescriptors f ∧ nestedIn md d) ∨
  (∃ sv mt, DService sv ∈ rangeTopLevelDescriptors f ∧ mt ∈ sv_Methods sv ∧ d = DMethod mt).

Lemma findValueInEnums_Some es name v :
  findValueInEnums es name = Some v → ∃ e, e ∈ es ∧ v ∈ en_Values e.
Proof.
  induction es as [|e es IH]; cbn; [done|].
  destruct (values_ByName name (en_Values e)) eqn:E.
  - intros [= <-]. apply find_by_Some in E as [? _]. exists e. set_solver.
  - intros [e' ?]%IH. exists e'. set_solver.
Qed.

Lemma findLeaf_nested md name d : findLeaf md name = Some d → nestedIn md d.
Proof.
  unfold findLeaf. repeat case_match; try done; intros [= <-]; simplify_eq;
    repeat match goal with
    | E : enums_ByName _ _ = Some _ |- _ => apply find_by_Some in E as [? _]
    | E : fields_ByName _ _ = Some _ |- _ => apply find_by_Some in E as [? _]
    | E : oneofs_ByName _ _ = Some _ |- _ => apply find_by_Some in E as [? _]
    | E : findValueInEnums _ _ = Some _ |- _ =>
       apply findValueInEnums_Some in E as (? & Hin & ?); rewrite elem_of_reverse in Hin
    end; eauto using nestedIn.
Qed.

(** The search in the nested messages is [Messages().ByName]. *)
Lemma findDescriptorInMessage_unfold md suffix :
  findDescriptorInMessage md suffix =
    let '(name, rest) := Pop suffix in
    match (if decide (rest = "") then findLeaf md name else None) with
    | Some d => Some d
    | None =>
       match messages_ByName name (msg_Messages md) with
       | Some c => if decide (rest = "") then Some (DMessage c)
                   else findDescriptorInMessage c rest
       | None => None
       end
    end.
Proof.
  destruct md as [n fn fs os es ms xs]. cbn [findDescriptorInMessage].
  destruct (Pop suffix) as [name rest]. destruct (if decide _ then _ else _); [done|].
  cbn [msg_Messages]. unfold messages_ByName.
  induction ms as [|c ms IH]; cbn [find_by]; [done|]. destruct (decide (msg_Name c = name)); [done|exact IH].
Qed.

Lemma findDescriptorInMessage_nested md suffix d :
  findDescriptorInMessage md suffix = Some d → nestedIn md d.
Proof.
  revert suffix. induction md as [n fn fs os es ms xs IH] using message_ind.
  intros suffix. rewrite findDescriptorInMessage_unfold. destruct (Pop suffix) as [name rest].
  destruct (if decide _ then _ else _) as [d'|] eqn:El.
  { intros [= <-]. case_decide; [|done]. by apply findLeaf_nested in El. }
  clear El. destruct (messages_ByName _ _) as [c|] eqn:Ec; [|done].
  apply find_by_Some in Ec as [Hc _]. case_decide.
  - intros [= <-]. by apply nested_message.
  - rewrite Forall_forall in IH. eauto using nestedIn.
Qed.

Lemma ifNamed_Ok name d k x :
  ifNamed name d k = Ok x → (d = Some x ∧ desc_FullName x = name) ∨ k = Ok x.
Proof. unfold ifNamed. destruct d; [case_decide|]; naive_solver. Qed.

Lemma matchEntry_sound name suffix d x :
  matchEntry name suffix (EDesc d) = Ok x →
  desc_FullName x = name ∧
  (x = d ∨ (∃ md, d = DMessage md ∧ nestedIn md x) ∨
   (∃ sv mt, d = DService sv ∧ mt ∈ sv_Methods sv ∧ x = DMethod mt)).
Proof.
  destruct d; unfold matchEntry; cbv zeta; try done;
    repeat (intros [[E ?]|Hx]%ifNamed_Ok; [|revert Hx]); try done; simplify_eq; eauto.
  - split; [done|]. right. left. eauto using findDescriptorInMessage_nested.
  - apply fmap_Some in E as (mt & [? _]%find_by_Some & ->). naive_solver.
Qed.

Lemma findLocalLoop_sound fuel m name prefix suffix d :
  findLocalLoop fuel m name prefix suffix = Ok d →
  ∃ n e s, m !! n = Some e ∧ matchEntry name s e = Ok d.
Proof.
  revert prefix suffix. induction fuel as [|fuel IH]; intros prefix suffix; cbn; [done|].
  case_decide; [done|]. destruct (m !! prefix) eqn:E; [eauto|apply IH].
Qed.

Lemma matchEntry_top f d s :
  d ∈ rangeTopLevelDescriptors f → matchEntry (desc_FullName d) s (EDesc d) = Ok d.
Proof.
  unfold rangeTopLevelDescriptors. intros Hd.
  assert (match d with DField _ | DOneof _ | DMethod _ => False | _ => True end).
  { repeat (apply elem_of_app in Hd as [Hd|Hd]).
    - apply list_elem_of_bind in Hd as (e & Hd & _).
      apply elem_of_cons in Hd as [->|(? & -> & _)%list_elem_of_fmap]; done.
    - by apply list_elem_of_fmap in Hd as (? & -> & _).
    - by apply list_elem_of_fmap in Hd as (? & -> & _).
    - by apply list_elem_of_fmap in Hd as (? & -> & _). }
  destruct d; cbn; try done; by rewrite decide_True.
Qed.

(** A lookup by name in a represented registry: every top-level descriptor of a
    registered file is found under its full name whatever the ancestors hold, and whatever
    the local search returns has the requested full name and is declared in a registered
    file. *)
Theorem FindDescriptorByName_local r F ancestors :
  files_rep r F →
  (∀ p f d, F !! p = Some f → d ∈ rangeTopLevelDescriptors f →
     FindDescriptorByName (r :: ancestors) (desc_FullName d) = Ok d) ∧
  (∀ name d, findDescriptorByNameLocal r name = Ok d →
     desc_FullName d = name ∧ ∃ p f, F !! p = Some f ∧ declaredIn f d).
Proof.
  intros [Hg _ _ _ Hrep]. split.
  - intros p f d Hf Hd. cbn. rewrite Hg. unfold findDescriptorByNameLocal.
    assert (desc_FullName d ≠ "") as Hne.
    { destruct (ir_files _ _ Hrep _ _ Hf) as [_ [_ Hn]].
      destruct (Hn (desc_FullName d)); [|done]. apply topLevelNames_elem. eauto. }
    destruct (String.length (desc_FullName d)) as [|k] eqn:El; [by destruct (desc_FullName d)|].
    cbn. rewrite decide_False by done.
    rewrite (proj2 (ir_descs _ _ Hrep _ d)) by eauto. by rewrite (matchEntry_top f).
  - intros name d (n & e & s & He & Hd)%findLocalLoop_sound.
    destruct e as [fs|t]; [done|]. apply matchEntry_sound in Hd as [Hname Hd].
    split; [done|]. apply (ir_descs _ _ Hrep) in He as (p & f & Hf & Ht & _).
    exists p, f. split; [done|]. unfold declaredIn. naive_solver.
Qed.

(** ** Enumeration *)

Definition collect f (acc : list FileDescriptor) : bool * list FileDescriptor :=
  (true, (acc ++ [f])%list).

(** One tier of the walk: the files whose path was not seen before. *)
Lemma iterate_tier (l : list (string * list FileDescriptor)) seen acc :
  (∀ p fs, (p, fs) ∈ l → ∃ f, fs = [f] ∧ file_Path f = p) → NoDup l.*1 →
  ∃ seen' L,
    iterate (λ '(path, files) '(seen, s),
      if decide (path ∈ seen) then (true, (seen, s))
      else let '(cont, s) := iterate collect files s in (cont, ({[ path ]} ∪ seen, s)))
      l (seen : gset string, acc) = (true, (seen', acc ++ L)%list) ∧
    (∀ p, p ∈ seen' ↔ p ∈ seen ∨ p ∈ l.*1) ∧
    NoDup (file_Path <$> L) ∧
    ∀ f, f ∈ L ↔ (file_Path f, [f]) ∈ l ∧ file_Path f ∉ seen.
Proof.
  revert seen acc. induction l as [|[p fs] l IH]; intros seen acc Hl.
  { intros _. exists seen, []. cbn. rewrite app_nil_r. split_and!; [done|set_solver| |set_solver].
    constructor. }
  cbn [fmap list_fmap fst]. intros [Hp Hnd]%NoDup_cons.
  destruct (Hl p fs) as (f & -> & <-); [left|].
  assert (Hl' : ∀ p fs, (p, fs) ∈ l → ∃ f, fs = [f] ∧ file_Path f = p) by set_solver.
  cbn [iterate]. case_decide as Hs.
  - destruct (IH seen acc Hl' Hnd) as (seen' & L & -> & Hseen & HndL & HL).
    exists seen', L. split_and!; [done| |done|]; set_solver.
  - cbn. destruct (IH ({[file_Path f]} ∪ seen) (acc ++ [f])%list Hl' Hnd)
      as (seen' & L & -> & Hseen & HndL & HL).
    exists seen', (f :: L)%list. rewrite <-app_assoc. split_and!; [done|set_solver| |].
    + cbn. apply NoDup_cons. split; [|done].
      intros (g & E & Hg)%list_elem_of_fmap. apply HL in Hg as [_ Hg]. set_solver.
    + intros g. rewrite elem_of_cons, HL, elem_of_cons. split; [|set_solver].
      intros [->|[? ?]]; [|set_solver]. split; [by left|done].
Qed.

Lemma rangeFilesAll_collect rs Fs seen acc :
  Forall2 files_rep rs Fs →
  ∃ seen' L, rangeFilesAll rs collect seen acc = (true, (seen', (acc ++ L)%list)) ∧
    NoDup (file_Path <$> L) ∧
    ∀ f, f ∈ L ↔ file_Path f ∉ seen ∧ FindFileByPath rs (file_Path f) = Ok f.
Proof.
  intros Hrs. revert seen acc. induction Hrs as [|r F rs Fs Hr Hrs IH]; intros seen acc.
  { exists seen, []. cbn. rewrite app_nil_r. split_and!; [done|constructor|set_solver]. }
  destruct Hr as [Hg Hb _ _ Hrep]. cbn [rangeFilesAll]. rewrite Hg.
  destruct (iterate_tier (go_range (nf_filesByPath r)) seen acc)
    as (seen1 & L1 & -> & Hseen1 & Hnd1 & HL1).
  { intros p fs. rewrite elem_of_go_range, Hb, lookup_fmap, fmap_Some.
    intros (f & Hf & ->). exists f. split; [done|]. by apply (ir_files _ _ Hrep). }
  { apply NoDup_fst_go_range. }
  destruct (IH seen1 (acc ++ L1)%list) as (seen2 & L2 & -> & Hnd2 & HL2).
  assert (HF : ∀ p, p ∈ (go_range (nf_filesByPath r)).*1 ↔ is_Some (F !! p)).
  { intros p. rewrite go_range_perm, <-elem_of_dom. rewrite Hb.
    rewrite <-(dom_fmap_L (λ f, [f]) F), elem_of_dom, list_elem_of_fmap.
    setoid_rewrite elem_of_map_to_list'. split; [|intros [x Hx]; by exists (p, x)].
    intros (kv & -> & Hkv). eauto. }
  exists seen2, (L1 ++ L2)%list. rewrite <-app_assoc. split_and!; [done| |].
  - rewrite fmap_app. apply NoDup_app. split_and!; [done| |done].
    intros p (f & -> & Hf)%list_elem_of_fmap (g & E & Hg2)%list_elem_of_fmap.
    apply HL1 in Hf as [Hf _]. apply HL2 in Hg2 as [Hg2 _]. apply Hg2, Hseen1. right.
    rewrite <-E. apply list_elem_of_fmap. by exists (file_Path f, [f]).
  - intros f. cbn. rewrite Hg, elem_of_app, HL1, HL2, Hseen1, HF, elem_of_go_range.
    rewrite Hb, lookup_fmap. destruct (F !! file_Path f) as [g|] eqn:E; cbn.
    + naive_solver.
    + pose proof (@is_Some_None FileDescriptor). naive_solver.
Qed.

(** Enumerating everything visible from a chain of registries visits every path once
    and yields exactly the files that a lookup by path returns: the nearest registry that
    has a path shadows its ancestors. *)
Theorem RangeFilesAll_agrees_with_lookup rs Fs :
  Forall2 files_rep rs Fs →
  let L := RangeFilesAll rs collect [] in
  NoDup (file_Path <$> L) ∧ ∀ f, f ∈ L ↔ FindFileByPath rs (file_Path f) = Ok f.
Proof.
  intros Hrs. destruct (rangeFilesAll_collect _ _ ∅ [] Hrs) as (seen & L & HE & Hnd & HL).
  assert (RangeFilesAll rs collect [] = L) as ->.
  { unfold RangeFilesAll. destruct rs; [by simplify_eq/=|]. by rewrite HE. }
  split; [done|]. intros f. rewrite HL. set_solver.
Qed.

End files_rep.

(** ** Witnesses *)

Section files_rep_new.
Context `{Protoreflect, ProtoFiles, GoRange}.

Lemma files_rep_new : files_rep NewNamespacedFiles ∅.
Proof.
  split; cbn; [done|by rewrite fmap_empty|by rewrite fmap_empty|by rewrite map_size_empty|].
  split.
  - intros n d. rewrite lookup_singleton. setoid_rewrite lookup_empty.
    case_decide; naive_solver.
  - intros k fs. rewrite lookup_singleton. case_decide; [|done]. intros [= <-].
    split; [constructor|]. intros f. rewrite lookup_empty. set_solver.
  - intros p f. by rewrite lookup_empty.
  - rewrite lookup_singleton. eauto.
  - intros p q f g n. by rewrite lookup_empty.
  - intros p f. by rewrite lookup_empty.
Qed.

Lemma files_rep_one f r :
  registrable f → insertFileLocked NewNamespacedFiles f = Returns r →
  files_rep r {[ file_Path f := f ]}.
Proof.
  intros Hreg Hr.
  destruct (insertFileLocked_rep NewNamespacedFiles (nf_descsByName NewNamespacedFiles) ∅ f)
    as (r' & Hr' & Hrep); try done; try apply files_rep_new.
  { split; [|intros n Hn; split; [|by intros p g ?%lookup_empty_Some]]; intros *;
      cbn; rewrite lookup_singleton; by case_decide. }
  rewrite Hr in Hr'. injection Hr' as <-. exact Hrep.
Qed.
End files_rep_new.

(** ** Calls from the empty registry *)

Section calls.
Context `{Protoreflect, ProtoFiles, GoRange}.
Implicit Types (r : NamespacedFiles) (F : gmap string FileDescriptor).

Inductive file_call :=
  | CallRegister (f : FileDescriptor)
  | CallUpdate (f : FileDescriptor)
  | CallUnregister (path : string).

Definition run_call r (c : file_call) : outcome (res unit * NamespacedFiles) :=
  match c with
  | CallRegister f => RegisterFile r f
  | CallUpdate f => UpdateFile r f
  | CallUnregister path => UnregisterFile r path
  end.

(** The files handed to the registry are well formed. *)
Definition well_formed (c : file_call) : Prop :=
  match c with
  | CallRegister f | CallUpdate f => registrable f
  | CallUnregister _ => True
  end.

(** An update that clashes with no other file; [UpdateFile] does not check it. *)
Definition orderly F (c : file_call) : Prop :=
  match c with CallUpdate f => upsertable F f | _ => True end.

(** What a call does to the map of files, and what it returns. *)
Inductive file_step r F : file_call → res unit → gmap string FileDescriptor → Prop :=
  | step_registered f : ¬ clash r F f →
      file_step r F (CallRegister f) (Ok tt) (<[file_Path f := f]> F)
  | step_refused f e : clash r F f → file_step r F (CallRegister f) (Err e) F
  | step_updated f : file_step r F (CallUpdate f) (Ok tt) (<[file_Path f := f]> F)
  | step_unregistered path : is_Some (F !! path) →
      file_step r F (CallUnregister path) (Ok tt) (delete path F)
  | step_missing path : F !! path = None →
      file_step r F (CallUnregister path) (Err (ErrSentinel NotFound)) F.

Inductive files_reachable : NamespacedFiles → gmap string FileDescriptor → Prop :=
  | reachable_new : files_reachable NewNamespacedFiles ∅
  | reachable_call r F c x r' F' :
      files_reachable r F → well_formed c → orderly F c → run_call r c = Returns (x, r') →
      file_step r F c x F' → files_reachable r' F'.

Lemma call_refines r F c :
  files_rep r F → well_formed c → orderly F c →
  ∃ x r' F', run_call r c = Returns (x, r') ∧ file_step r F c x F' ∧ files_rep r' F'.
Proof.
  intros Hr Hc Ho. destruct c as [f|f|path]; cbn in *.
  - destruct (RegisterFile_refines r F f Hr Hc) as ([[]|e] & r' & E & Hx & Hx').
    + do 3 eexists. split; [done|]. split; [by constructor|done].
    + subst r'. do 3 eexists. split; [done|]. split; [by constructor|done].
  - destruct (UpdateFile_refines r F f Hr Hc Ho) as (r' & E & Hr').
    do 3 eexists. split; [done|]. split; [constructor|done].
  - pose proof (UnregisterFile_refines r F path Hr) as Hu. destruct (F !! path) eqn:HF.
    + destruct Hu as (r' & E & Hr'). do 3 eexists. split; [done|].
      split; [constructor; by rewrite HF|done].
    + do 3 eexists. split; [done|]. split; [by constructor|done].
Qed.

Lemma file_step_det r F c x F1 F2 : file_step r F c x F1 → file_step r F c x F2 → F1 = F2.
Proof. intros [] E; by inversion E. Qed.

Lemma reachable_rep r F : files_reachable r F → files_rep r F.
Proof.
  induction 1 as [|r F c x r' F' _ IH Hc Ho E Hs]; [apply files_rep_new|].
  destruct (call_refines r F c IH Hc Ho) as (x0 & r0 & F0 & E0 & Hs0 & Hr0).
  rewrite E in E0. injection E0 as <- <-. by rewrite (file_step_det _ _ _ _ _ _ Hs Hs0).
Qed.

(** A registry that holds the files has no clash among them. *)
Lemma rep_upsertable r F f : files_rep r (<[file_Path f := f]> F) → upsertable F f.
Proof.
  intros Hr p g Hg Hp. pose proof (fr_index _ _ Hr) as Hrep.
  assert (Hf : <[file_Path f := f]> F !! file_Path f = Some f) by apply lookup_insert_eq.
  assert (Hg' : <[file_Path f := f]> F !! p = Some g) by by rewrite lookup_insert_ne.
  assert (Hno : ∀ q h q' h', <[file_Path f := f]> F !! q = Some h →
    <[file_Path f := f]> F !! q' = Some h' → file_Package h ∉ topLevelNames h').
  { intros q h q' h' Hh Hh' (d & Hd & E)%topLevelNames_elem.
    destruct (ir_pkg_of _ _ Hrep _ _ Hh) as [fs Hfs].
    rewrite (proj2 (ir_descs _ _ Hrep (file_Package h) d)) in Hfs; [done|]. by exists q', h'. }
  split; [|exact (Hno _ _ _ _ Hf Hg')].
  intros n Hn. split; [intros Hn'; apply Hp; by apply (ir_disjoint _ _ Hrep p (file_Path f) g f n)|].
  intros ->. exact (Hno _ _ _ _ Hg' Hf Hn).
Qed.

(** C21. A registry reached from the empty one by calls of [RegisterFile], [UpdateFile] (with
    files that clash with no other registered file) and [UnregisterFile] simulates the map
    from paths to files: no such call panics, each returns and changes what the map
    prescribes (a registration is refused exactly on a clash, an unregistration exactly when
    the path is missing, and then nothing changes), and the counter and the lookup by path are
    those of the map. [UpdateFile] does not check for clashes: with a file that clashes, it
    panics or leaves a registry that no longer holds the updated map. *)
Theorem file_registry_refines_map r F :
  files_reachable r F →
  (∀ c, well_formed c → orderly F c →
     ∃ x r' F', run_call r c = Returns (x, r') ∧ file_step r F c x F' ∧ files_reachable r' F') ∧
  (∀ f, registrable f → ¬ upsertable F f →
     match UpdateFile r f with
     | Panics => True
     | Returns (_, r') => ¬ files_rep r' (<[file_Path f := f]> F)
     end) ∧
  nf_numFiles r = Z.of_nat (size F) ∧
  ∀ path, FindFileByPath [r] path = match F !! path with
                                    | Some f => Ok f
                                    | None => Err (ErrSentinel NotFound)
                                    end.
Proof.
  intros Hre. pose proof (reachable_rep r F Hre) as Hr. split; [|split; [|split]].
  - intros c Hc Ho. destruct (call_refines r F c Hr Hc Ho) as (x & r' & F' & E & Hs & _).
    exists x, r', F'. split; [done|]. split; [done|]. by econstructor.
  - intros f _ Hup. destruct (UpdateFile r f) as [[x r']|]; [|done].
    intros Hr'. by eapply Hup, rep_upsertable.
  - apply Hr.
  - intros path. cbn. rewrite (fr_local _ _ Hr), (fr_byPath _ _ Hr), lookup_fmap.
    by destruct (F !! path).
Qed.
End calls.

Module Examples.
(** Concrete instances: dotted names, a path-keyed global registry, a fixed map order. *)
#[local] Existing Instance dotted.
#[local] Existing Instance path_files.
#[local] Existing Instance range_default.

Definition ex_msg (pkg n : string) : MessageDescriptor :=
  Message n (pkg +:+ "." +:+ n) [] [] [] [] [].
Definition ex_file : FileDescriptor :=
  File "a.proto" "acme.v1" [] [ex_msg "acme.v1" "Config"] [] [] [].
Definition ex_file2 : FileDescriptor :=
  File "a.proto" "acme.v2" [] [ex_msg "acme.v2" "Config"] [] [] [].
Definition ex_clash : FileDescriptor :=
  File "b.proto" "acme.v1.Config" [] [] [] [] [].

Definition ex_reg : NamespacedFiles :=
  match insertFileLocked NewNamespacedFiles ex_file with
  | Returns r => r
  | Panics => NewNamespacedFiles
  end.

Lemma registrable_dec f :
  bool_decide (NoDup (topLevelNames f) ∧
    Forall (λ n, n ≠ "" ∧ n ∉ pkgChain (file_Package f)) (topLevelNames f)) = true →
  registrable f.
Proof. intros [Hnd Hall]%bool_decide_eq_true. rewrite Forall_forall in Hall. done. Qed.

Lemma ex_rep : files_rep ex_reg {[ "a.proto" := ex_file ]}.
Proof. apply (files_rep_one ex_file); [by apply registrable_dec|done]. Qed.

Lemma ex_reachable : files_reachable ex_reg {[ "a.proto" := ex_file ]}.
Proof.
  apply (reachable_call NewNamespacedFiles ∅ (CallRegister ex_file) (Ok tt)).
  - constructor.
  - by apply registrable_dec.
  - exact I.
  - reflexivity.
  - constructor. destruct (RegisterFile_refines NewNamespacedFiles ∅ ex_file) as (x & r' & E & Hx).
    + apply files_rep_new.
    + by apply registrable_dec.
    + injection E as <- <-. apply Hx.
Qed.

Lemma file_registry_refines_map_witness :
  FindFileByPath [ex_reg] "a.proto" = Ok ex_file.
Proof.
  destruct (file_registry_refines_map ex_reg {[ "a.proto" := ex_file ]} ex_reachable) as (_ & _ & _ & Hf).
  exact (Hf "a.proto").
Defined.

Lemma UpdateFile_package_clash_panics_witness : UpdateFile ex_reg ex_clash = Panics.
Proof.
  apply (UpdateFile_package_clash_panics ex_reg {[ "a.proto" := ex_file ]} ex_clash
           "a.proto" ex_file).
  - apply ex_rep.
  - done.
  - done.
  - apply (bool_decide_unpack _). vm_compute. exact I.
Defined.

Lemma FindDescriptorByName_local_witness :
  FindDescriptorByName [ex_reg] "acme.v1.Config" = Ok (DMessage (ex_msg "acme.v1" "Config")).
Proof.
  apply (proj1 (FindDescriptorByName_local ex_reg {[ "a.proto" := ex_file ]} [] ex_rep)
           "a.proto" ex_file (DMessage (ex_msg "acme.v1" "Config"))); [done|left].
Defined.

Lemma RangeFilesAll_agrees_with_lookup_witness :
  let rs := [ex_reg; NewNamespacedFiles] in
  let L := RangeFilesAll rs collect [] in
  NoDup (file_Path <$> L) ∧ ∀ f, f ∈ L ↔ FindFileByPath rs (file_Path f) = Ok f.
Proof.
  apply (RangeFilesAll_agrees_with_lookup _ [ {[ "a.proto" := ex_file ]}; ∅ ]).
  constructor; [apply ex_rep|]. constructor; [apply files_rep_new|constructor].
Defined.
End Examples.
