(* ===== verification/NsTypes.v ===== *)
(** * nsregistry.NamespacedTypes: a type registry with hierarchical fallback

    Models the types half of [src/nsregistry/namespace.go]. As for files, a
    [list NamespacedTypes] is a registry followed by its ancestors. *)

From S2P Require Import Prelude GoStrings Descriptor Protobuf.
From stdpp Require Import prelude gmap strings list pretty.

Open Scope string_scope.

Section NsTypes.
Context `{ProtoTypes, GoRange}.

Record NamespacedTypes := {
  nt_global : option Types;
  nt_typesByName : gmap string RtType;
  nt_extensionsByMessage : gmap string (gmap Z FieldDescriptor);
  nt_numEnums : Z;
  nt_numMessages : Z;
  nt_numExtensions : Z }.

Definition NewNamespacedTypes : NamespacedTypes := {|
  nt_global := None; nt_typesByName := ∅; nt_extensionsByMessage := ∅;
  nt_numEnums := 0; nt_numMessages := 0; nt_numExtensions := 0 |}.

(** [&NamespacedTypes{global: g}]. *)
Definition globalTypesWrapper (g : Types) : NamespacedTypes := {|
  nt_global := Some g; nt_typesByName := ∅; nt_extensionsByMessage := ∅;
  nt_numEnums := 0; nt_numMessages := 0; nt_numExtensions := 0 |}.

Definition isGlobalWrapperT (r : NamespacedTypes) : bool :=
  match nt_global r with Some _ => true | None => false end.

(** A method call: its error, if any, and the registry it leaves. *)
Definition callT : Type := res unit * NamespacedTypes.

Definition cannot_register : error :=
  ErrNew "nsregistry: cannot register types on read-only global namespace".
Definition cannot_update : error :=
  ErrNew "nsregistry: cannot update types on read-only global namespace".
Definition cannot_unregister : error :=
  ErrNew "nsregistry: cannot unregister types on read-only global namespace".

Definition RegisterMessage (r : NamespacedTypes) (md : MessageDescriptor) : callT :=
  if isGlobalWrapperT r then (Err cannot_register, r) else
  let name := msg_FullName md in
  match nt_typesByName r !! name with
  | Some _ => (Err (ErrNew ("nsregistry: message " +:+ name +:+ " is already registered")), r)
  | None =>
     (Ok tt, {| nt_global := nt_global r;
                nt_typesByName := <[name := TMessage md]> (nt_typesByName r);
                nt_extensionsByMessage := nt_extensionsByMessage r;
                nt_numEnums := nt_numEnums r;
                nt_numMessages := nt_numMessages r + 1;
                nt_numExtensions := nt_numExtensions r |})
  end.

Definition UpdateMessage (r : NamespacedTypes) (md : MessageDescriptor) : callT :=
  if isGlobalWrapperT r then (Err cannot_update, r) else
  let name := msg_FullName md in
  (Ok tt, {| nt_global := nt_global r;
             nt_typesByName := <[name := TMessage md]> (nt_typesByName r);
             nt_extensionsByMessage := nt_extensionsByMessage r;
             nt_numEnums := nt_numEnums r;
             nt_numMessages := match nt_typesByName r !! name with
                               | None => nt_numMessages r + 1
                               | Some _ => nt_numMessages r
                               end;
             nt_numExtensions := nt_numExtensions r |}).

Definition UnregisterMessage (r : NamespacedTypes) (name : string) : callT :=
  if isGlobalWrapperT r then (Err cannot_unregister, r) else
  match nt_typesByName r !! name with
  | Some (TMessage _) =>
     (Ok tt, {| nt_global := nt_global r;
                nt_typesByName := delete name (nt_typesByName r);
                nt_extensionsByMessage := nt_extensionsByMessage r;
                nt_numEnums := nt_numEnums r;
                nt_numMessages := nt_numMessages r - 1;
                nt_numExtensions := nt_numExtensions r |})
  | _ => (Err (ErrSentinel NotFound), r)
  end.

Definition RegisterEnum (r : NamespacedTypes) (ed : EnumDescriptor) : callT :=
  if isGlobalWrapperT r then (Err cannot_register, r) else
  let name := en_FullName ed in
  match nt_typesByName r !! name with
  | Some _ => (Err (ErrNew ("nsregistry: enum " +:+ name +:+ " is already registered")), r)
  | None =>
     (Ok tt, {| nt_global := nt_global r;
                nt_typesByName := <[name := TEnum ed]> (nt_typesByName r);
                nt_extensionsByMessage := nt_extensionsByMessage r;
                nt_numEnums := nt_numEnums r + 1;
                nt_numMessages := nt_numMessages r;
                nt_numExtensions := nt_numExtensions r |})
  end.

Definition UpdateEnum (r : NamespacedTypes) (ed : EnumDescriptor) : callT :=
  if isGlobalWrapperT r then (Err cannot_update, r) else
  let name := en_FullName ed in
  (Ok tt, {| nt_global := nt_global r;
             nt_typesByName := <[name := TEnum ed]> (nt_typesByName r);
             nt_extensionsByMessage := nt_extensionsByMessage r;
             nt_numEnums := match nt_typesByName r !! name with
                            | None => nt_numEnums r + 1
                            | Some _ => nt_numEnums r
                            end;
             nt_numMessages := nt_numMessages r;
             nt_numExtensions := nt_numExtensions r |}).

Definition UnregisterEnum (r : NamespacedTypes) (name : string) : callT :=
  if isGlobalWrapperT r then (Err cannot_unregister, r) else
  match nt_typesByName r !! name with
  | Some (TEnum _) =>
     (Ok tt, {| nt_global := nt_global r;
                nt_typesByName := delete name (nt_typesByName r);
                nt_extensionsByMessage := nt_extensionsByMessage r;
                nt_numEnums := nt_numEnums r - 1;
                nt_numMessages := nt_numMessages r;
                nt_numExtensions := nt_numExtensions r |})
  | _ => (Err (ErrSentinel NotFound), r)
  end.

(** [r.extensionsByMessage[message][field]]. *)
Definition extension_at (r : NamespacedTypes) (message : string) (field : Z)
    : option FieldDescriptor :=
  nt_extensionsByMessage r !! message ≫= λ exts, exts !! field.

(** [r.extensionsByMessage[message][field] = xt], creating the inner map if needed. *)
Definition put_extension (m : gmap string (gmap Z FieldDescriptor)) (xd : FieldDescriptor) :=
  <[fld_ContainingMessage xd :=
      <[fld_Number xd := xd]> (default ∅ (m !! fld_ContainingMessage xd))]> m.

(** Deletes the entry of an extension, and the inner map when it becomes empty. *)
Definition drop_extension (m : gmap string (gmap Z FieldDescriptor)) (xd : FieldDescriptor) :=
  match m !! fld_ContainingMessage xd with
  | Some exts =>
     let exts := delete (fld_Number xd) exts in
     if decide (exts = ∅) then delete (fld_ContainingMessage xd) m
     else <[fld_ContainingMessage xd := exts]> m
  | None => m
  end.

Definition RegisterExtension (r : NamespacedTypes) (xd : FieldDescriptor) : callT :=
  if isGlobalWrapperT r then (Err cannot_register, r) else
  let name := fld_FullName xd in
  match nt_typesByName r !! name with
  | Some _ => (Err (ErrNew ("nsregistry: extension " +:+ name +:+ " is already registered")), r)
  | None =>
  match extension_at r (fld_ContainingMessage xd) (fld_Number xd) with
  | Some _ =>
     (Err (ErrNew ("nsregistry: extension number " +:+ pretty (fld_Number xd) +:+
       " is already registered on message " +:+ fld_ContainingMessage xd)), r)
  | None =>
     (Ok tt, {| nt_global := nt_global r;
                nt_typesByName := <[name := TExtension xd]> (nt_typesByName r);
                nt_extensionsByMessage := put_extension (nt_extensionsByMessage r) xd;
                nt_numEnums := nt_numEnums r;
                nt_numMessages := nt_numMessages r;
                nt_numExtensions := nt_numExtensions r + 1 |})
  end end.

Definition UpdateExtension (r : NamespacedTypes) (xd : FieldDescriptor) : callT :=
  if isGlobalWrapperT r then (Err cannot_update, r) else
  let name := fld_FullName xd in
  (Ok tt, {| nt_global := nt_global r;
             nt_typesByName := <[name := TExtension xd]> (nt_typesByName r);
             nt_extensionsByMessage := put_extension (nt_extensionsByMessage r) xd;
             nt_numEnums := nt_numEnums r;
             nt_numMessages := nt_numMessages r;
             nt_numExtensions := match nt_typesByName r !! name with
                                 | None => nt_numExtensions r + 1
                                 | Some _ => nt_numExtensions r
                                 end |}).

Definition UnregisterExtension (r : NamespacedTypes) (name : string) : callT :=
  if isGlobalWrapperT r then (Err cannot_unregister, r) else
  match nt_typesByName r !! name with
  | Some (TExtension xd) =>
     (Ok tt, {| nt_global := nt_global r;
                nt_typesByName := delete name (nt_typesByName r);
                nt_extensionsByMessage := drop_extension (nt_extensionsByMessage r) xd;
                nt_numEnums := nt_numEnums r;
                nt_numMessages := nt_numMessages r;
                nt_numExtensions := nt_numExtensions r - 1 |})
  | _ => (Err (ErrSentinel NotFound), r)
  end.

(** [typeName]. *)
Definition typeName (t : RtType) : string :=
  match t with TEnum _ => "enum" | TMessage _ => "message" | TExtension _ => "extension" end.

Definition wrong_type (got : RtType) (want : string) : error :=
  ErrNew ("nsregistry: found wrong type: got " +:+ typeName got +:+ ", want " +:+ want).

Fixpoint FindEnumByName (r : list NamespacedTypes) (enum : string) : res EnumDescriptor :=
  match r with
  | [] => Err (ErrSentinel NotFound)
  | r :: parent =>
     match nt_global r with
     | Some g => Types_FindEnumByName g enum
     | None =>
        match nt_typesByName r !! enum with
        | Some (TEnum et) => Ok et
        | Some v => Err (wrong_type v "enum")
        | None => FindEnumByName parent enum
        end
     end
  end.

Fixpoint FindMessageByName (r : list NamespacedTypes) (message : string)
    : res MessageDescriptor :=
  match r with
  | [] => Err (ErrSentinel NotFound)
  | r :: parent =>
     match nt_global r with
     | Some g => Types_FindMessageByName g message
     | None =>
        match nt_typesByName r !! message with
        | Some (TMessage mt) => Ok mt
        | Some v => Err (wrong_type v "message")
        | None => FindMessageByName parent message
        end
     end
  end.

(** The message name of a type URL: what follows the last slash. *)
Definition url_message (url : string) : string :=
  match LastIndexByte slash url with
  | Some i => str_drop (S i) url
  | None => url
  end.

Fixpoint FindMessageByURL (r : list NamespacedTypes) (url : string) : res MessageDescriptor :=
  match r with
  | [] => Err (ErrSentinel NotFound)
  | r :: parent =>
     match nt_global r with
     | Some g => Types_FindMessageByURL g url
     | None =>
        match nt_typesByName r !! url_message url with
        | Some (TMessage mt) => Ok mt
        | Some v => Err (wrong_type v "message")
        | None => FindMessageByURL parent url
        end
     end
  end.

Fixpoint FindExtensionByName (r : list NamespacedTypes) (field : string) : res FieldDescriptor :=
  match r with
  | [] => Err (ErrSentinel NotFound)
  | r :: parent =>
     match nt_global r with
     | Some g => Types_FindExtensionByName g field
     | None =>
        match nt_typesByName r !! field with
        | Some (TExtension xt) => Ok xt
        | Some v => Err (wrong_type v "extension")
        | None => FindExtensionByName parent field
        end
     end
  end.

Fixpoint FindExtensionByNumber (r : list NamespacedTypes) (message : string) (field : Z)
    : res FieldDescriptor :=
  match r with
  | [] => Err (ErrSentinel NotFound)
  | r :: parent =>
     match nt_global r with
     | Some g => Types_FindExtensionByNumber g message field
     | None =>
        match extension_at r message field with
        | Some xt => Ok xt
        | None => FindExtensionByNumber parent message field
        end
     end
  end.

Definition NumEnums (r : list NamespacedTypes) : Z :=
  match r with
  | [] => 0
  | r :: _ => match nt_global r with Some g => Types_NumEnums g | None => nt_numEnums r end
  end.

Definition NumMessages (r : list NamespacedTypes) : Z :=
  match r with
  | [] => 0
  | r :: _ =>
     match nt_global r with Some g => Types_NumMessages g | None => nt_numMessages r end
  end.

Definition NumExtensions (r : list NamespacedTypes) : Z :=
  match r with
  | [] => 0
  | r :: _ =>
     match nt_global r with Some g => Types_NumExtensions g | None => nt_numExtensions r end
  end.

(** The entries of one kind, in the order of the map walk. *)
Definition local_messages (r : NamespacedTypes) : list MessageDescriptor :=
  omap (λ kv, match kv.2 with TMessage md => Some md | _ => None end)
       (go_range (nt_typesByName r)).
Definition local_enums (r : NamespacedTypes) : list EnumDescriptor :=
  omap (λ kv, match kv.2 with TEnum ed => Some ed | _ => None end)
       (go_range (nt_typesByName r)).
Definition local_extensions (r : NamespacedTypes) : list FieldDescriptor :=
  omap (λ kv, match kv.2 with TExtension xd => Some xd | _ => None end)
       (go_range (nt_typesByName r)).

Definition RangeMessages {S} (r : list NamespacedTypes)
    (f : MessageDescriptor → S → bool * S) (s : S) : S :=
  match r with
  | [] => s
  | r :: _ =>
     match nt_global r with
     | Some g => (iterate f (Types_RangeMessages g) s).2
     | None => (iterate f (local_messages r) s).2
     end
  end.

Definition RangeEnums {S} (r : list NamespacedTypes)
    (f : EnumDescriptor → S → bool * S) (s : S) : S :=
  match r with
  | [] => s
  | r :: _ =>
     match nt_global r with
     | Some g => (iterate f (Types_RangeEnums g) s).2
     | None => (iterate f (local_enums r) s).2
     end
  end.

Definition RangeExtensions {S} (r : list NamespacedTypes)
    (f : FieldDescriptor → S → bool * S) (s : S) : S :=
  match r with
  | [] => s
  | r :: _ =>
     match nt_global r with
     | Some g => (iterate f (Types_RangeExtensions g) s).2
     | None => (iterate f (local_extensions r) s).2
     end
  end.

Definition NumExtensionsByMessage (r : list NamespacedTypes) (message : string) : Z :=
  match r with
  | [] => 0
  | r :: _ =>
     match nt_global r with
     | Some g => Types_NumExtensionsByMessage g message
     | None => Z.of_nat (size (default ∅ (nt_extensionsByMessage r !! message)))
     end
  end.

Definition RangeExtensionsByMessage {S} (r : list NamespacedTypes) (message : string)
    (f : FieldDescriptor → S → bool * S) (s : S) : S :=
  match r with
  | [] => s
  | r :: _ =>
     match nt_global r with
     | Some g => (iterate f (Types_RangeExtensionsByMessage g message) s).2
     | None =>
        (iterate f (go_range (default ∅ (nt_extensionsByMessage r !! message))).*2 s).2
     end
  end.

End NsTypes.
