(* ===== verification/NsTypesThms.v ===== *)
(** * Correctness of the type registry

    The invariant [types_inv] ties the three counters and the two-level extension index to
    the table of types. It holds on every registry reached by registrations,
    unregistrations and updates that keep the kind (and, for extensions, the number) of
    the entry they replace, and every other update breaks it; two theorems show how. *)

From S2P Require Import Prelude GoStrings Descriptor Protobuf NsTypes.
From stdpp Require Import prelude gmap strings list.

Open Scope string_scope.

Definition is_message (t : RtType) : bool := match t with TMessage _ => true | _ => false end.
Definition is_enum (t : RtType) : bool := match t with TEnum _ => true | _ => false end.
Definition is_extension (t : RtType) : bool :=
  match t with TExtension _ => true | _ => false end.

(** Number of entries of a kind. *)
Definition count (P : RtType → bool) (m : gmap string RtType) : Z :=
  Z.of_nat (size (filter (λ kv, P kv.2 = true) m)).

Definition b2z (b : bool) : Z := if b then 1 else 0.

Definition ext_at (m : gmap string (gmap Z FieldDescriptor)) (msg : string) (num : Z) :=
  m !! msg ≫= λ exts, exts !! num.

Section types_inv.
Context `{ProtoTypes, GoRange}.
Implicit Types (r : NamespacedTypes) (m : gmap string RtType).

Record types_inv r : Prop := {
  ti_local : nt_global r = None;
  ti_keys n t : nt_typesByName r !! n = Some t → rt_FullName t = n;
  ti_enums : nt_numEnums r = count is_enum (nt_typesByName r);
  ti_messages : nt_numMessages r = count is_message (nt_typesByName r);
  ti_extensions : nt_numExtensions r = count is_extension (nt_typesByName r);
  ti_index msg num x : ext_at (nt_extensionsByMessage r) msg num = Some x ↔
    nt_typesByName r !! fld_FullName x = Some (TExtension x) ∧
    fld_ContainingMessage x = msg ∧ fld_Number x = num }.

(** The mutating methods, with any arguments. *)
Inductive types_call :=
  | DoRegisterMessage (md : MessageDescriptor)
  | DoRegisterEnum (ed : EnumDescriptor)
  | DoRegisterExtension (xd : FieldDescriptor)
  | DoUpdateMessage (md : MessageDescriptor)
  | DoUpdateEnum (ed : EnumDescriptor)
  | DoUpdateExtension (xd : FieldDescriptor)
  | DoUnregisterMessage (n : string)
  | DoUnregisterEnum (n : string)
  | DoUnregisterExtension (n : string).

Definition run_types r (c : types_call) : NamespacedTypes :=
  match c with
  | DoRegisterMessage md => (RegisterMessage r md).2
  | DoRegisterEnum ed => (RegisterEnum r ed).2
  | DoRegisterExtension xd => (RegisterExtension r xd).2
  | DoUpdateMessage md => (UpdateMessage r md).2
  | DoUpdateEnum ed => (UpdateEnum r ed).2
  | DoUpdateExtension xd => (UpdateExtension r xd).2
  | DoUnregisterMessage n => (UnregisterMessage r n).2
  | DoUnregisterEnum n => (UnregisterEnum r n).2
  | DoUnregisterExtension n => (UnregisterExtension r n).2
  end.

(** The updates that keep the registry consistent: the entry that is replaced has the same
    kind, and an extension keeps the extended message and the number of the extension it
    replaces, or is new and uses a number that is free. The methods do not check this. *)
Definition regular r (c : types_call) : Prop :=
  match c with
  | DoUpdateMessage md => ∀ t, nt_typesByName r !! msg_FullName md = Some t → is_message t = true
  | DoUpdateEnum ed => ∀ t, nt_typesByName r !! en_FullName ed = Some t → is_enum t = true
  | DoUpdateExtension xd =>
     match nt_typesByName r !! fld_FullName xd with
     | Some (TExtension old) =>
        fld_ContainingMessage old = fld_ContainingMessage xd ∧ fld_Number old = fld_Number xd
     | Some _ => False
     | None => extension_at r (fld_ContainingMessage xd) (fld_Number xd) = None
     end
  | _ => True
  end.

Definition types_step r r' : Prop := ∃ c, regular r c ∧ r' = run_types r c.

(** What a caller sees: the counters are the numbers of entries the [Range] methods visit,
    and the index by number finds exactly the extensions that are visited. *)
Definition consistent r : Prop :=
  NumMessages [r] = Z.of_nat (length (local_messages r)) ∧
  NumEnums [r] = Z.of_nat (length (local_enums r)) ∧
  NumExtensions [r] = Z.of_nat (length (local_extensions r)) ∧
  (∀ msg num x, extension_at r msg num = Some x ↔
     x ∈ local_extensions r ∧ fld_ContainingMessage x = msg ∧ fld_Number x = num).

(** ** Counting and indexing *)

Lemma count_insert_None P m k t :
  m !! k = None → count P (<[k := t]> m) = (count P m + b2z (P t))%Z.
Proof.
  intros Hk. unfold count, b2z. destruct (P t) eqn:E.
  - rewrite map_filter_insert_True by done.
    rewrite map_size_insert_None; [lia|]. by apply map_lookup_filter_None_2; left.
  - rewrite map_filter_insert_False by (cbn; congruence).
    rewrite delete_id by done. lia.
Qed.

Lemma count_delete P m k t :
  m !! k = Some t → count P (delete k m) = (count P m - b2z (P t))%Z.
Proof.
  intros Hk. rewrite <-(insert_delete_id m k t Hk) at 2.
  rewrite count_insert_None by apply lookup_delete_eq. lia.
Qed.

Lemma count_replace P m k t t' :
  m !! k = Some t → count P (<[k := t']> m) = (count P m - b2z (P t) + b2z (P t'))%Z.
Proof.
  intros Hk. rewrite <-insert_delete_eq, count_insert_None by apply lookup_delete_eq.
  by rewrite (count_delete _ _ _ t).
Qed.

(** A counter and the walk that selects the same entries agree. *)
Lemma count_omap {A} (P : RtType → bool) (f : RtType → option A) m :
  (∀ t, P t = bool_decide (is_Some (f t))) →
  count P m = Z.of_nat (length (omap (λ kv, f kv.2) (go_range m))).
Proof.
  intros Hf. rewrite go_range_perm.
  induction m as [|k t m Hk IH] using map_ind.
  { unfold count. by rewrite map_filter_empty, map_to_list_empty. }
  rewrite count_insert_None, IH, map_to_list_insert by done. cbn. rewrite Hf.
  destruct (f t) as [a|]; unfold b2z.
  - rewrite (bool_decide_true (is_Some (Some a))) by eauto. cbn. lia.
  - rewrite (bool_decide_false (is_Some (None (A := A)))) by (by intros [? ?]). lia.
Qed.

Lemma ext_at_put em xd msg num :
  ext_at (put_extension em xd) msg num =
    if decide (fld_ContainingMessage xd = msg ∧ fld_Number xd = num)
    then Some xd else ext_at em msg num.
Proof.
  unfold ext_at, put_extension. rewrite lookup_insert. case_decide as Hm.
  - subst msg. cbn. rewrite lookup_insert. case_decide as Hn.
    + by rewrite decide_True.
    + rewrite decide_False by naive_solver.
      destruct (em !! fld_ContainingMessage xd); cbn; [done|apply lookup_empty].
  - by rewrite decide_False by naive_solver.
Qed.

Lemma ext_at_drop em xd msg num :
  ext_at (drop_extension em xd) msg num =
    if decide (fld_ContainingMessage xd = msg ∧ fld_Number xd = num)
    then None else ext_at em msg num.
Proof.
  unfold ext_at, drop_extension. destruct (em !! fld_ContainingMessage xd) as [exts|] eqn:E.
  - assert (Hx : ∀ em' : gmap string (gmap Z FieldDescriptor),
        em' !! fld_ContainingMessage xd ≫= (λ e, e !! num) =
        delete (fld_Number xd) exts !! num →
        (∀ k, k ≠ fld_ContainingMessage xd → em' !! k = em !! k) →
        em' !! msg ≫= (λ e, e !! num) =
        if decide (fld_ContainingMessage xd = msg ∧ fld_Number xd = num)
        then None else em !! msg ≫= (λ e, e !! num)).
    { intros em' Hd Ho. destruct (decide (fld_ContainingMessage xd = msg)) as [<-|Hne].
      - rewrite Hd, E, lookup_delete. cbn.
        case_decide as Hn; [by rewrite decide_True|by rewrite decide_False by naive_solver].
      - rewrite decide_False by naive_solver. by rewrite Ho by done. }
    cbv zeta. destruct (decide (delete (fld_Number xd) exts = ∅)) as [Hempty|]; apply Hx.
    + rewrite lookup_delete_eq, Hempty, lookup_empty. done.
    + intros k Hk. by rewrite lookup_delete_ne by done.
    + by rewrite lookup_insert_eq.
    + intros k Hk. by rewrite lookup_insert_ne by done.
  - case_decide as Hc; [|done]. destruct Hc as [<- _]. by rewrite E.
Qed.

(** ** Preservation *)

(** Adding an entry under a free name. *)
Lemma inv_add r t em :
  types_inv r → nt_typesByName r !! rt_FullName t = None →
  (∀ msg num x, ext_at em msg num = Some x ↔
     <[rt_FullName t := t]> (nt_typesByName r) !! fld_FullName x = Some (TExtension x) ∧
     fld_ContainingMessage x = msg ∧ fld_Number x = num) →
  types_inv {| nt_global := nt_global r;
               nt_typesByName := <[rt_FullName t := t]> (nt_typesByName r);
               nt_extensionsByMessage := em;
               nt_numEnums := nt_numEnums r + b2z (is_enum t);
               nt_numMessages := nt_numMessages r + b2z (is_message t);
               nt_numExtensions := nt_numExtensions r + b2z (is_extension t) |}.
Proof.
  intros [Hl Hk He Hmm Hx Hi] Hn Hem. split; cbn; [done| | | | |exact Hem].
  - intros n t' [[<- <-]|[? ?]]%lookup_insert_Some; [done|eauto].
  - by rewrite count_insert_None, He.
  - by rewrite count_insert_None, Hmm.
  - by rewrite count_insert_None, Hx.
Qed.

(** Removing an entry. *)
Lemma inv_remove r n t em :
  types_inv r → nt_typesByName r !! n = Some t →
  (∀ msg num x, ext_at em msg num = Some x ↔
     delete n (nt_typesByName r) !! fld_FullName x = Some (TExtension x) ∧
     fld_ContainingMessage x = msg ∧ fld_Number x = num) →
  types_inv {| nt_global := nt_global r;
               nt_typesByName := delete n (nt_typesByName r);
               nt_extensionsByMessage := em;
               nt_numEnums := nt_numEnums r - b2z (is_enum t);
               nt_numMessages := nt_numMessages r - b2z (is_message t);
               nt_numExtensions := nt_numExtensions r - b2z (is_extension t) |}.
Proof.
  intros [Hl Hk He Hmm Hx Hi] Hn Hem. split; cbn; [done| | | | |exact Hem].
  - intros n' t' [? ?]%lookup_delete_Some. eauto.
  - by rewrite (count_delete _ _ _ t), He.
  - by rewrite (count_delete _ _ _ t), Hmm.
  - by rewrite (count_delete _ _ _ t), Hx.
Qed.

(** The extension index is unaffected by the entries of other kinds. *)
Lemma index_add_other r t :
  types_inv r → nt_typesByName r !! rt_FullName t = None → is_extension t = false →
  ∀ msg num x, ext_at (nt_extensionsByMessage r) msg num = Some x ↔
    <[rt_FullName t := t]> (nt_typesByName r) !! fld_FullName x = Some (TExtension x) ∧
    fld_ContainingMessage x = msg ∧ fld_Number x = num.
Proof.
  intros Hr Hn Ht msg num x. rewrite (ti_index _ Hr), lookup_insert.
  case_decide as E; [|done]. rewrite <-E, Hn. destruct t; naive_solver.
Qed.

Lemma index_remove_other r n t :
  types_inv r → nt_typesByName r !! n = Some t → is_extension t = false →
  ∀ msg num x, ext_at (nt_extensionsByMessage r) msg num = Some x ↔
    delete n (nt_typesByName r) !! fld_FullName x = Some (TExtension x) ∧
    fld_ContainingMessage x = msg ∧ fld_Number x = num.
Proof.
  intros Hr Hn Ht msg num x. rewrite (ti_index _ Hr), lookup_delete.
  case_decide as E; [|done]. rewrite <-E, Hn. destruct t; naive_solver.
Qed.

Lemma index_put r xd :
  types_inv r →
  (∀ t, nt_typesByName r !! fld_FullName xd = Some t → ∃ old, t = TExtension old ∧
     fld_ContainingMessage old = fld_ContainingMessage xd ∧ fld_Number old = fld_Number xd) →
  (nt_typesByName r !! fld_FullName xd = None →
     ext_at (nt_extensionsByMessage r) (fld_ContainingMessage xd) (fld_Number xd) = None) →
  ∀ msg num x, ext_at (put_extension (nt_extensionsByMessage r) xd) msg num = Some x ↔
    <[fld_FullName xd := TExtension xd]> (nt_typesByName r) !! fld_FullName x
      = Some (TExtension x) ∧
    fld_ContainingMessage x = msg ∧ fld_Number x = num.
Proof.
  intros Hr Hsame Hfree msg num x. rewrite ext_at_put, lookup_insert.
  case_decide as Hp; case_decide as Hn.
  - naive_solver.
  - split; [intros [= ->]; done|]. intros (Hx & <- & <-). exfalso.
    destruct Hp as [Hp1 Hp2].
    assert (He : ext_at (nt_extensionsByMessage r) (fld_ContainingMessage x) (fld_Number x)
      = Some x) by (by apply (ti_index _ Hr)).
    destruct (nt_typesByName r !! fld_FullName xd) as [t|] eqn:Et.
    + destruct (Hsame t eq_refl) as (old & -> & Ho1 & Ho2).
      assert (Ho : ext_at (nt_extensionsByMessage r) (fld_ContainingMessage x)
        (fld_Number x) = Some old).
      { apply (ti_index _ Hr). rewrite (ti_keys _ Hr _ _ Et : fld_FullName old = _).
        split; [done|]. by rewrite Ho1, Ho2. }
      rewrite He in Ho. injection Ho as <-. apply Hn. symmetry. exact (ti_keys _ Hr _ _ Et).
    + rewrite <-Hp1, <-Hp2, Hfree in He by done. done.
  - rewrite (ti_index _ Hr). split; [|naive_solver]. intros (Hx & <- & <-). exfalso.
    rewrite <-Hn in Hx. destruct (Hsame _ Hx) as (old & [= <-] & Ho1 & Ho2). naive_solver.
  - apply (ti_index _ Hr).
Qed.

Lemma index_drop_ext r n xd :
  types_inv r → nt_typesByName r !! n = Some (TExtension xd) →
  ∀ msg num x, ext_at (drop_extension (nt_extensionsByMessage r) xd) msg num = Some x ↔
    delete n (nt_typesByName r) !! fld_FullName x = Some (TExtension x) ∧
    fld_ContainingMessage x = msg ∧ fld_Number x = num.
Proof.
  intros Hr Hn msg num x. pose proof (ti_keys _ Hr _ _ Hn) as Hk. cbn in Hk.
  rewrite ext_at_drop, lookup_delete. case_decide as Hp; case_decide as E.
  - naive_solver.
  - split; [done|]. intros (Hx & <- & <-). destruct Hp as [Hp1 Hp2]. exfalso. apply E.
    assert (H1 : ext_at (nt_extensionsByMessage r) (fld_ContainingMessage x) (fld_Number x)
      = Some x) by (by apply (ti_index _ Hr)).
    assert (H2 : ext_at (nt_extensionsByMessage r) (fld_ContainingMessage x) (fld_Number x)
      = Some xd) by (apply (ti_index _ Hr); by rewrite Hk).
    congruence.
  - split; [|naive_solver]. intros (Hx & <- & <-)%(ti_index _ Hr). exfalso. apply Hp.
    rewrite <-E, Hn in Hx. by injection Hx as <-.
  - apply (ti_index _ Hr).
Qed.

(** Replacing an entry by one of the same kind and name. *)
Lemma inv_replace r t t' em :
  types_inv r → nt_typesByName r !! rt_FullName t' = Some t →
  is_message t = is_message t' → is_enum t = is_enum t' → is_extension t = is_extension t' →
  (∀ msg num x, ext_at em msg num = Some x ↔
     <[rt_FullName t' := t']> (nt_typesByName r) !! fld_FullName x = Some (TExtension x) ∧
     fld_ContainingMessage x = msg ∧ fld_Number x = num) →
  types_inv {| nt_global := nt_global r;
               nt_typesByName := <[rt_FullName t' := t']> (nt_typesByName r);
               nt_extensionsByMessage := em;
               nt_numEnums := nt_numEnums r;
               nt_numMessages := nt_numMessages r;
               nt_numExtensions := nt_numExtensions r |}.
Proof.
  intros [Hl Hk He Hmm Hx Hi] Hn E1 E2 E3 Hem. split; cbn; [done| | | | |exact Hem].
  - intros n t0 [[<- <-]|[? ?]]%lookup_insert_Some; [done|eauto].
  - rewrite (count_replace _ _ _ t), He, E2 by done. lia.
  - rewrite (count_replace _ _ _ t), Hmm, E1 by done. lia.
  - rewrite (count_replace _ _ _ t), Hx, E3 by done. lia.
Qed.

Lemma index_replace_other r t t' :
  types_inv r → nt_typesByName r !! rt_FullName t' = Some t →
  is_extension t = false → is_extension t' = false →
  ∀ msg num x, ext_at (nt_extensionsByMessage r) msg num = Some x ↔
    <[rt_FullName t' := t']> (nt_typesByName r) !! fld_FullName x = Some (TExtension x) ∧
    fld_ContainingMessage x = msg ∧ fld_Number x = num.
Proof.
  intros Hr Hn Ht Ht' msg num x. rewrite (ti_index _ Hr), lookup_insert.
  case_decide as E; [|done]. rewrite <-E, Hn. destruct t, t'; naive_solver.
Qed.

(** The counters of a record rewritten with the increments of the shared lemmas. *)
Lemma types_inv_eq r g m em e1 e2 e3 :
  types_inv {| nt_global := g; nt_typesByName := m; nt_extensionsByMessage := em;
               nt_numEnums := e1; nt_numMessages := e2; nt_numExtensions := e3 |} →
  nt_global r = g → nt_typesByName r = m → nt_extensionsByMessage r = em →
  nt_numEnums r = e1 → nt_numMessages r = e2 → nt_numExtensions r = e3 → types_inv r.
Proof. destruct r; cbn. by intros ? -> -> -> -> -> ->. Qed.

Ltac solve_types_eq H := eapply types_inv_eq; [apply H| ..]; cbn; try done; try lia.

Lemma register_inv r t em :
  types_inv r → nt_typesByName r !! rt_FullName t = None →
  (is_extension t = false → em = nt_extensionsByMessage r) →
  (∀ xd, t = TExtension xd →
     em = put_extension (nt_extensionsByMessage r) xd ∧
     extension_at r (fld_ContainingMessage xd) (fld_Number xd) = None) →
  types_inv {| nt_global := nt_global r;
               nt_typesByName := <[rt_FullName t := t]> (nt_typesByName r);
               nt_extensionsByMessage := em;
               nt_numEnums := nt_numEnums r + b2z (is_enum t);
               nt_numMessages := nt_numMessages r + b2z (is_message t);
               nt_numExtensions := nt_numExtensions r + b2z (is_extension t) |}.
Proof.
  intros Hr Hn Ho Hx. apply inv_add; [done|done|]. destruct t as [md|ed|xd].
  - rewrite Ho by done. by apply (index_add_other r (TMessage md)).
  - rewrite Ho by done. by apply (index_add_other r (TEnum ed)).
  - destruct (Hx xd eq_refl) as [-> Hfree]. cbn in *.
    apply index_put; [done|by rewrite Hn|done].
Qed.

Lemma step_register_inv r : types_inv r →
  (∀ md, types_inv (RegisterMessage r md).2) ∧ (∀ ed, types_inv (RegisterEnum r ed).2) ∧
  (∀ xd, types_inv (RegisterExtension r xd).2).
Proof.
  intros Hr. split_and!.
  - intros md. unfold RegisterMessage. case_match; [done|].
    destruct (nt_typesByName r !! msg_FullName md) eqn:E; [done|].
    solve_types_eq (register_inv r (TMessage md) (nt_extensionsByMessage r) Hr E); done.
  - intros ed. unfold RegisterEnum. case_match; [done|].
    destruct (nt_typesByName r !! en_FullName ed) eqn:E; [done|].
    solve_types_eq (register_inv r (TEnum ed) (nt_extensionsByMessage r) Hr E); done.
  - intros xd. unfold RegisterExtension. case_match; [done|].
    destruct (nt_typesByName r !! fld_FullName xd) eqn:E; [done|].
    destruct (extension_at r _ _) eqn:Ex; [done|].
    solve_types_eq (register_inv r (TExtension xd)
      (put_extension (nt_extensionsByMessage r) xd) Hr E); naive_solver.
Qed.

Lemma step_unregister_inv r n : types_inv r →
  types_inv (UnregisterMessage r n).2 ∧ types_inv (UnregisterEnum r n).2 ∧
  types_inv (UnregisterExtension r n).2.
Proof.
  intros Hr. unfold UnregisterMessage, UnregisterEnum, UnregisterExtension.
  case_match; [done|]. destruct (nt_typesByName r !! n) as [[md|ed|xd]|] eqn:E; try done.
  - split_and!; try done. solve_types_eq (inv_remove r n (TMessage md)); try done.
    by eapply index_remove_other.
  - split_and!; try done. solve_types_eq (inv_remove r n (TEnum ed)); try done.
    by eapply index_remove_other.
  - split_and!; try done. solve_types_eq (inv_remove r n (TExtension xd)); try done.
    by apply index_drop_ext.
Qed.

Lemma update_message_inv r md :
  (∀ t, nt_typesByName r !! msg_FullName md = Some t → is_message t = true) →
  types_inv r → types_inv (UpdateMessage r md).2.
Proof.
  intros Hk Hr. unfold UpdateMessage. case_match; [done|].
  destruct (nt_typesByName r !! msg_FullName md) as [t|] eqn:E; cbn.
  - specialize (Hk t eq_refl). destruct t; try done.
    apply (inv_replace r _ (TMessage md)) with (1 := Hr) (2 := E); try done.
    by eapply (index_replace_other r _ (TMessage md)).
  - solve_types_eq (register_inv r (TMessage md) (nt_extensionsByMessage r) Hr E); done.
Qed.

Lemma update_enum_inv r ed :
  (∀ t, nt_typesByName r !! en_FullName ed = Some t → is_enum t = true) →
  types_inv r → types_inv (UpdateEnum r ed).2.
Proof.
  intros Hk Hr. unfold UpdateEnum. case_match; [done|].
  destruct (nt_typesByName r !! en_FullName ed) as [t|] eqn:E; cbn.
  - specialize (Hk t eq_refl). destruct t; try done.
    apply (inv_replace r _ (TEnum ed)) with (1 := Hr) (2 := E); try done.
    by eapply (index_replace_other r _ (TEnum ed)).
  - solve_types_eq (register_inv r (TEnum ed) (nt_extensionsByMessage r) Hr E); done.
Qed.

Lemma update_extension_inv r xd :
  match nt_typesByName r !! fld_FullName xd with
  | Some (TExtension old) =>
     fld_ContainingMessage old = fld_ContainingMessage xd ∧ fld_Number old = fld_Number xd
  | Some _ => False
  | None => extension_at r (fld_ContainingMessage xd) (fld_Number xd) = None
  end → types_inv r → types_inv (UpdateExtension r xd).2.
Proof.
  intros Hk Hr. unfold UpdateExtension. destruct (isGlobalWrapperT r); [done|].
  destruct (nt_typesByName r !! fld_FullName xd) as [t|] eqn:E; cbn.
  - destruct t as [| |old]; try done.
    apply (inv_replace r _ (TExtension xd)) with (1 := Hr) (2 := E); try done.
    apply index_put; [done| |congruence]. rewrite E. naive_solver.
  - solve_types_eq (register_inv r (TExtension xd)
      (put_extension (nt_extensionsByMessage r) xd) Hr E); naive_solver.
Qed.

Lemma types_step_inv r r' : types_step r r' → types_inv r → types_inv r'.
Proof.
  intros (c & Hc & ->) Hr. destruct c; cbn in *;
    try (by apply step_register_inv); try (by apply step_unregister_inv).
  - by apply update_message_inv.
  - by apply update_enum_inv.
  - by apply update_extension_inv.
Qed.

Lemma types_steps_inv r r' : rtc types_step r r' → types_inv r → types_inv r'.
Proof. induction 1; eauto using types_step_inv. Qed.

Lemma types_inv_new : types_inv NewNamespacedTypes.
Proof.
  split; cbn; try done; unfold count; try by rewrite map_filter_empty.
  intros msg num x. unfold ext_at. rewrite lookup_empty. split; [done|].
  by intros (? & _).
Qed.

(** A local registry whose table is keyed by name. *)
Definition keyed r : Prop :=
  nt_global r = None ∧ ∀ n t, nt_typesByName r !! n = Some t → rt_FullName t = n.

Lemma keyed_run r c : keyed r → keyed (run_types r c).
Proof.
  intros [Hl Hk].
  assert (Hins : ∀ t n u, <[rt_FullName t := t]> (nt_typesByName r) !! n = Some u → rt_FullName u = n).
  { intros t n u [[<- <-]|[_ Hu]]%lookup_insert_Some; [done|by apply Hk]. }
  assert (Hdel : ∀ k n u, delete k (nt_typesByName r) !! n = Some u → rt_FullName u = n).
  { intros k n u [_ Hu]%lookup_delete_Some. by apply Hk. }
  destruct c; cbn; unfold RegisterMessage, RegisterEnum, RegisterExtension, UpdateMessage,
    UpdateEnum, UpdateExtension, UnregisterMessage, UnregisterEnum, UnregisterExtension,
    isGlobalWrapperT; rewrite Hl; repeat case_match; try done; (split; [done|]); cbn;
    first [apply (Hins (TMessage md))|apply (Hins (TEnum ed))|apply (Hins (TExtension xd))|apply Hdel].
Qed.

(** Consistency is the invariant, seen from outside. *)
Lemma types_inv_consistent r : types_inv r ↔ keyed r ∧ consistent r.
Proof.
  assert (Hc : keyed r →
    (nt_numMessages r = count is_message (nt_typesByName r) ↔
       NumMessages [r] = Z.of_nat (length (local_messages r))) ∧
    (nt_numEnums r = count is_enum (nt_typesByName r) ↔
       NumEnums [r] = Z.of_nat (length (local_enums r))) ∧
    (nt_numExtensions r = count is_extension (nt_typesByName r) ↔
       NumExtensions [r] = Z.of_nat (length (local_extensions r))) ∧
    (∀ x, x ∈ local_extensions r ↔ nt_typesByName r !! fld_FullName x = Some (TExtension x))).
  { intros [Hl Hk]. cbn. rewrite Hl. split_and!.
    - by rewrite (count_omap _ (λ t, match t with TMessage d => Some d | _ => None end)) by by intros [].
    - by rewrite (count_omap _ (λ t, match t with TEnum d => Some d | _ => None end)) by by intros [].
    - by rewrite (count_omap _ (λ t, match t with TExtension d => Some d | _ => None end)) by by intros [].
    - intros x. unfold local_extensions. rewrite list_elem_of_omap. split.
      + intros ([k t] & Hin & Ht). apply elem_of_go_range in Hin. destruct t; try done.
        injection Ht as ->. by rewrite (Hk _ _ Hin : fld_FullName x = _).
      + intros Hn. exists (fld_FullName x, TExtension x). by rewrite elem_of_go_range. }
  split.
  - intros [Hl Hk He Hm Hx Hi]. assert (Hkd : keyed r) by done.
    destruct (Hc Hkd) as (Em & Ee & Ex & El). split; [done|]. split_and!; [by apply Em|by apply Ee|by apply Ex|].
    intros msg num x. rewrite El. apply Hi.
  - intros [Hkd (Hm & He & Hx & Hi)]. destruct (Hc Hkd) as (Em & Ee & Ex & El). destruct Hkd as [Hl Hk].
    split; [done|done|by apply Ee|by apply Em|by apply Ex|].
    intros msg num x. rewrite <-El. apply Hi.
Qed.

(** An update that is not regular breaks the invariant. *)
Lemma irregular_breaks r c : types_inv r → types_inv (run_types r c) → regular r c.
Proof.
  intros Hr Hr'. pose proof (ti_local _ Hr) as Hl. destruct c as [| | |md|ed|xd| | |]; try done; cbn in *;
    unfold UpdateMessage, UpdateEnum, UpdateExtension, isGlobalWrapperT in Hr'; rewrite Hl in Hr'; cbn in Hr'.
  - intros t Et. pose proof (ti_messages _ Hr') as Hm. cbn in Hm. rewrite Et in Hm.
    rewrite (count_replace _ _ _ t), (ti_messages _ Hr) in Hm by done. cbn in Hm.
    destruct (is_message t); [done|]. cbn in Hm. lia.
  - intros t Et. pose proof (ti_enums _ Hr') as Hm. cbn in Hm. rewrite Et in Hm.
    rewrite (count_replace _ _ _ t), (ti_enums _ Hr) in Hm by done. cbn in Hm.
    destruct (is_enum t); [done|]. cbn in Hm. lia.
  - pose proof (ti_index _ Hr') as Hi. cbn in Hi.
    destruct (nt_typesByName r !! fld_FullName xd) as [t|] eqn:Et.
    + pose proof (ti_extensions _ Hr') as Hm. cbn in Hm.
      rewrite (count_replace _ _ _ t), (ti_extensions _ Hr) in Hm by done. cbn in Hm.
      destruct t as [md|ed|old]; cbn in Hm; [lia..|]. clear Hm.
      pose proof (ti_keys _ Hr _ _ Et) as Hk. cbn in Hk.
      destruct (decide (fld_ContainingMessage xd = fld_ContainingMessage old ∧
        fld_Number xd = fld_Number old)) as [[-> ->]|Hne]; [done|]. exfalso.
      assert (Ho : ext_at (put_extension (nt_extensionsByMessage r) xd)
        (fld_ContainingMessage old) (fld_Number old) = Some old).
      { rewrite ext_at_put, decide_False by done. apply (ti_index _ Hr). by rewrite Hk. }
      apply Hi in Ho as [Ho _]. rewrite Hk, lookup_insert_eq in Ho. naive_solver.
    + destruct (extension_at r _ _) as [old|] eqn:Eo; [|done]. exfalso.
      apply (ti_index _ Hr) in Eo as (Ho & Hm & Hn).
      assert (Hx : ext_at (put_extension (nt_extensionsByMessage r) xd)
        (fld_ContainingMessage old) (fld_Number old) = Some old).
      { apply Hi. split; [|done]. rewrite lookup_insert_ne; [done|]. intros E. by rewrite E, Ho in Et. }
      rewrite ext_at_put, decide_True in Hx by done. injection Hx as ->. by rewrite Ho in Et.
Qed.

(** C37. Every type registry reached from the empty one by registrations, unregistrations and
    regular updates is consistent: [NumMessages], [NumEnums] and [NumExtensions] are the
    numbers of entries the corresponding [Range] visits, and the index by number finds an
    extension exactly when the table of names holds an extension of that message and number.
    A further call with any arguments keeps it consistent exactly when it is regular: an
    update must replace an entry of its own kind, and an extension update keep the message
    and number of the extension it replaces or, under a new name, use a free number. *)
Theorem types_registry_consistent r :
  rtc types_step NewNamespacedTypes r →
  consistent r ∧ ∀ c, consistent (run_types r c) ↔ regular r c.
Proof.
  intros Hr. pose proof (types_steps_inv _ _ Hr types_inv_new) as Hi.
  destruct (proj1 (types_inv_consistent r) Hi) as [Hk Hc]. split; [done|].
  intros c. split; intros Hx.
  - apply irregular_breaks; [done|]. apply types_inv_consistent. split; [by apply keyed_run|done].
  - apply types_inv_consistent. eapply types_step_inv; [by exists c|done].
Qed.

(** Updating a message name with an enum moves the counters away from the table: the
    enum is stored, but neither counter changes, so after the enum is removed again an
    empty table reports one message and minus one enums. *)
Theorem UpdateEnum_over_message_drifts md ed :
  msg_FullName md = en_FullName ed →
  let r := (UnregisterEnum (UpdateEnum (RegisterMessage NewNamespacedTypes md).2 ed).2
              (en_FullName ed)).2 in
  nt_typesByName r = ∅ ∧ NumMessages [r] = 1%Z ∧ NumEnums [r] = (-1)%Z.
Proof.
  intros Hn r. subst r. unfold RegisterMessage, UpdateEnum, UnregisterEnum. cbn.
  rewrite lookup_empty. cbn. rewrite Hn, !lookup_insert_eq. cbn.
  split_and!; [|done..].
  by rewrite insert_insert_eq, delete_insert_id by apply lookup_empty.
Qed.

(** Updating an extension to a new number keeps the old number registered: a lookup
    by the old number still returns the replaced extension, even after the extension has
    been unregistered by name. *)
Theorem UpdateExtension_stale_number old new :
  fld_FullName old = fld_FullName new →
  fld_ContainingMessage old = fld_ContainingMessage new → fld_Number old ≠ fld_Number new →
  let r := (UnregisterExtension
              (UpdateExtension (RegisterExtension NewNamespacedTypes old).2 new).2
              (fld_FullName new)).2 in
  nt_typesByName r = ∅ ∧
  FindExtensionByNumber [r] (fld_ContainingMessage old) (fld_Number old) = Ok old.
Proof.
  intros Hn Hc Hnum r. subst r.
  unfold RegisterExtension, UpdateExtension, UnregisterExtension. cbn.
  unfold extension_at. cbn. rewrite !lookup_empty. cbn. rewrite lookup_insert_eq. cbn. split.
  - by rewrite Hn, insert_insert_eq, delete_insert_id by apply lookup_empty.
  - unfold extension_at. cbn. fold (ext_at
      (drop_extension (put_extension (put_extension ∅ old) new) new)
      (fld_ContainingMessage old) (fld_Number old)).
    rewrite ext_at_drop, !ext_at_put.
    rewrite !(decide_False (P := fld_ContainingMessage new = _ ∧ _)) by naive_solver.
    by rewrite decide_True.
Qed.

(** Resolving a type URL is resolving the name after its last slash, in every chain
    of registries (over a global registry that resolves URLs in the same way). *)
Theorem FindMessageByURL_spec (chain : list NamespacedTypes) url :
  (∀ r g, r ∈ chain → nt_global r = Some g →
     Types_FindMessageByURL g url = Types_FindMessageByName g (url_message url)) →
  FindMessageByURL chain url = FindMessageByName chain (url_message url).
Proof.
  induction chain as [|r chain IH]; intros Hg; [done|]. cbn.
  destruct (nt_global r) as [g|] eqn:E; [apply (Hg r g); [left|done]|].
  destruct (nt_typesByName r !! url_message url) as [[]|]; try done.
  apply IH. intros r' g' ?. apply Hg. by right.
Qed.

End types_inv.

Module Examples.
#[local] Existing Instance range_default.

#[local] Existing Instance name_types.

Definition ex_msg : MessageDescriptor := Message "Config" "acme.Config" [] [] [] [] [].
Definition ex_enum : EnumDescriptor := Enum "Config" "acme.Config" [].
Definition ex_ext (num : Z) : FieldDescriptor :=
  Field "note" "acme.note" num StringKind Optional "" "" "acme.Config".

Lemma types_registry_consistent_witness :
  let r := (RegisterExtension (RegisterMessage NewNamespacedTypes ex_msg).2 (ex_ext 100)).2 in
  consistent r ∧ ¬ consistent (UpdateExtension r (ex_ext 101)).2.
Proof.
  intros r.
  assert (Hr : rtc types_step NewNamespacedTypes r).
  { eapply rtc_l; [by exists (DoRegisterMessage ex_msg)|].
    eapply rtc_l; [by exists (DoRegisterExtension (ex_ext 100))|]. apply rtc_refl. }
  destruct (types_registry_consistent r Hr) as [Hc Hiff]. split; [exact Hc|].
  intros Hx. apply (Hiff (DoUpdateExtension (ex_ext 101))) in Hx. vm_compute in Hx.
  destruct Hx as [_ Hx]. discriminate Hx.
Defined.

Lemma UpdateEnum_over_message_drifts_witness :
  NumEnums [(UnregisterEnum (UpdateEnum (RegisterMessage NewNamespacedTypes ex_msg).2
    ex_enum).2 "acme.Config").2] = (-1)%Z.
Proof. apply (UpdateEnum_over_message_drifts ex_msg ex_enum). reflexivity. Defined.

Lemma UpdateExtension_stale_number_witness :
  FindExtensionByNumber
    [(UnregisterExtension (UpdateExtension (RegisterExtension NewNamespacedTypes
       (ex_ext 100)).2 (ex_ext 101)).2 "acme.note").2] "acme.Config" 100 = Ok (ex_ext 100).
Proof.
  apply (UpdateExtension_stale_number (ex_ext 100) (ex_ext 101)); [reflexivity..|].
  vm_compute. discriminate.
Defined.

Lemma FindMessageByURL_spec_witness :
  FindMessageByURL [(RegisterMessage NewNamespacedTypes ex_msg).2]
    "type.googleapis.com/acme.Config" = Ok ex_msg.
Proof.
  rewrite (FindMessageByURL_spec [(RegisterMessage NewNamespacedTypes ex_msg).2]);
    [vm_compute; reflexivity|].
  intros r g Hr. apply list_elem_of_singleton in Hr. subst r. discriminate.
Defined.
End Examples.
