(* ===== verification/NsNamespace.v ===== *)
(** * nsregistry.Namespace: a file registry and a type registry with one parent chain

    Models the constructors of [src/nsregistry/namespace.go]. The two registries of a
    namespace are the heads of two chains of the same shape. *)

From S2P Require Import Prelude GoStrings Descriptor Protobuf NsFiles NsTypes.
From stdpp Require Import prelude gmap strings list.

Open Scope string_scope.

Section NsNamespace.
Context `{Protoreflect, ProtoFiles, ProtoTypes, GoRange}.

Record RegistryPair := {
  rp_Files : list NamespacedFiles;
  rp_Types : list NamespacedTypes }.

(** [NewNamespace]; [None] is the nil parent. *)
Definition NewNamespace (parent : option RegistryPair) : RegistryPair :=
  match parent with
  | Some p => {| rp_Files := NewNamespacedFiles :: rp_Files p;
                 rp_Types := NewNamespacedTypes :: rp_Types p |}
  | None => {| rp_Files := [NewNamespacedFiles]; rp_Types := [NewNamespacedTypes] |}
  end.

Definition NewRootNamespace : RegistryPair := NewNamespace None.

(** [NewNamespaceOverGlobal]; the arguments are [protoregistry.GlobalFiles] and
    [GlobalTypes]. *)
Definition NewNamespaceOverGlobal (GlobalFiles : Files) (GlobalTypes : Types) : RegistryPair :=
  {| rp_Files := [NewNamespacedFiles; globalFilesWrapper GlobalFiles];
     rp_Types := [NewNamespacedTypes; globalTypesWrapper GlobalTypes] |}.

(** A fresh child namespace resolves everything as its parent does. *)
Lemma NewNamespace_transparent p name :
  FindMessageByName (rp_Types (NewNamespace (Some p))) name = FindMessageByName (rp_Types p) name ∧
  FindEnumByName (rp_Types (NewNamespace (Some p))) name = FindEnumByName (rp_Types p) name ∧
  FindExtensionByName (rp_Types (NewNamespace (Some p))) name
    = FindExtensionByName (rp_Types p) name ∧
  FindFileByPath (rp_Files (NewNamespace (Some p))) name = FindFileByPath (rp_Files p) name.
Proof. split_and!; reflexivity. Qed.

End NsNamespace.
