(* ===== verification/Snapshot.v ===== *)
(** * Snapshots: immutable compiled views of a schema version

    Models [src/snapshot/snapshot.go]. A snapshot owns a file registry and a type registry
    of the protobuf runtime; the constructors fill the type registry by walking every
    file. The registries under construction are local to a call that fails, so they are
    threaded through [res]. *)

From S2P Require Import Prelude GoStrings Descriptor Protobuf.
From stdpp Require Import prelude strings list.

Open Scope string_scope.

Section Snapshot.
Context `{ProtoTypes, Protodesc}.

Record Snapshot := {
  snap_version : Z;
  snap_files : Files;
  snap_types : Types;
  snap_fileList : list FileDescriptor }.

Fixpoint registerMessage (types : Types) (md : MessageDescriptor) : res Types :=
  match Types_RegisterMessage types md with
  | Err e => Err e
  | Ok types =>
     match foldM registerMessage types (msg_Messages md) with
     | Err e => Err e
     | Ok types =>
        match foldM Types_RegisterEnum types (msg_Enums md) with
        | Err e => Err e
        | Ok types => foldM Types_RegisterExtension types (msg_Extensions md)
        end
     end
  end.

Definition registerTypes (types : Types) (fd : FileDescriptor) : res Types :=
  match foldM registerMessage types (file_Messages fd) with
  | Err e => Err e
  | Ok types =>
     match foldM Types_RegisterEnum types (file_Enums fd) with
     | Err e => Err e
     | Ok types => foldM Types_RegisterExtension types (file_Extensions fd)
     end
  end.

(** [snapshot.New]. *)
Definition New (version : Z) (fds : list FileDescriptorProto) : res Snapshot :=
  match NewFiles fds with
  | Err e => Err (ErrWrap "building file registry" e)
  | Ok files =>
     match foldM registerTypes Types_empty (Files_RangeFiles files) with
     | Err e => Err (ErrWrap "registering types" e)
     | Ok types =>
        Ok {| snap_version := version; snap_files := files; snap_types := types;
              snap_fileList := Files_RangeFiles files |}
     end
  end.

(** One iteration of the loop of [NewFromFiles]. *)
Definition registerFileAndTypes (ft : Files * Types) (fd : FileDescriptor)
    : res (Files * Types) :=
  match Files_RegisterFile ft.1 fd with
  | Err e => Err (ErrWrap ("registering file " +:+ file_Path fd) e)
  | Ok files =>
     match registerTypes ft.2 fd with
     | Err e => Err (ErrWrap ("registering types for " +:+ file_Path fd) e)
     | Ok types => Ok (files, types)
     end
  end.

Definition NewFromFiles (version : Z) (fds : list FileDescriptor) : res Snapshot :=
  match foldM registerFileAndTypes (Files_empty, Types_empty) fds with
  | Err e => Err e
  | Ok (files, types) =>
     Ok {| snap_version := version; snap_files := files; snap_types := types;
           snap_fileList := fds |}
  end.

Definition FileDescriptors (s : Snapshot) : list FileDescriptor := snap_fileList s.

Definition Snapshot_FindMessageByName (s : Snapshot) (name : string)
    : res MessageDescriptor :=
  match Types_FindMessageByName (snap_types s) name with
  | Err e => Err (ErrWrap ("message " +:+ name +:+ " not found") e)
  | Ok mt => Ok mt
  end.

(** [NewMessage] returns an empty dynamic message of the type found; the message is
    represented by its descriptor. *)
Definition NewMessage (s : Snapshot) (name : string) : res MessageDescriptor :=
  match Types_FindMessageByName (snap_types s) name with
  | Err e => Err (ErrWrap ("message " +:+ name +:+ " not found") e)
  | Ok mt => Ok mt
  end.

(** Every message declared in a message or file, at any depth. *)
Fixpoint message_tree (md : MessageDescriptor) : list MessageDescriptor :=
  md :: flat_map message_tree (msg_Messages md).
Definition file_messages (fd : FileDescriptor) : list MessageDescriptor :=
  flat_map message_tree (file_Messages fd).

(** ** What a snapshot finds *)

Context {Laws : ProtoTypesLaws}.

(** [types'] finds the messages of [types] and those of [l]. *)
Definition adds (types types' : Types) (l : list MessageDescriptor) : Prop :=
  ∀ n m, Types_FindMessageByName types' n = Ok m ↔
    Types_FindMessageByName types n = Ok m ∨ (m ∈ l ∧ n = msg_FullName m).

Lemma adds_nil t : adds t t [].
Proof. intros n m. rewrite elem_of_nil. naive_solver. Qed.

Lemma adds_app t1 t2 t3 l1 l2 : adds t1 t2 l1 → adds t2 t3 l2 → adds t1 t3 (l1 ++ l2)%list.
Proof. intros Ha Hb n m. rewrite (Hb n m), (Ha n m), elem_of_app. naive_solver. Qed.

(** A loop whose body adds the messages [g x] adds those of all elements. *)
Lemma foldM_adds {A} (f : Types → A → res Types) (g : A → list MessageDescriptor) t l t' :
  (∀ t1 x t2, x ∈ l → f t1 x = Ok t2 → adds t1 t2 (g x)) →
  foldM f t l = Ok t' → adds t t' (flat_map g l).
Proof.
  revert t. induction l as [|x l IH]; intros t Hf; cbn; [intros [= ->]; apply adds_nil|].
  destruct (f t x) as [t1|] eqn:E; [|done]. intros Hl.
  eapply adds_app; [apply (Hf t x t1); [left|done]|].
  apply IH; [|done]. intros t2 y t3 Hy. apply Hf. by right.
Qed.

Lemma enums_add t l t' : foldM Types_RegisterEnum t l = Ok t' → adds t t' [].
Proof.
  intros Hl. replace [] with (flat_map (λ _ : EnumDescriptor, [] : list MessageDescriptor) l).
  - eapply foldM_adds; [|done]. intros t1 x t2 _ Hr n m.
    rewrite (Types_find_register_enum _ _ _ _ _ Hr), elem_of_nil. naive_solver.
  - clear Hl. by induction l.
Qed.

Lemma extensions_add t l t' : foldM Types_RegisterExtension t l = Ok t' → adds t t' [].
Proof.
  intros Hl. replace [] with (flat_map (λ _ : FieldDescriptor, [] : list MessageDescriptor) l).
  - eapply foldM_adds; [|done]. intros t1 x t2 _ Hr n m.
    rewrite (Types_find_register_extension _ _ _ _ _ Hr), elem_of_nil. naive_solver.
  - clear Hl. by induction l.
Qed.

Lemma registerMessage_adds md t t' :
  registerMessage t md = Ok t' → adds t t' (message_tree md).
Proof.
  revert t t'. induction md as [nm fn fields oneofs enums msgs exts IH] using message_ind.
  intros t t'. cbn.
  destruct (Types_RegisterMessage t _) as [t1|] eqn:E1; [|done].
  destruct (foldM registerMessage t1 msgs) as [t2|] eqn:E2; [|done].
  destruct (foldM Types_RegisterEnum t2 enums) as [t3|] eqn:E3; [|done]. intros E4.
  eapply (adds_app _ t1 _ [_]); [|].
  - intros n m. rewrite (Types_find_register_message _ _ _ _ _ E1).
    rewrite list_elem_of_singleton. naive_solver.
  - rewrite <-(app_nil_r (flat_map _ _)). eapply adds_app.
    + eapply foldM_adds; [|exact E2]. intros. eapply Forall_forall in IH; eauto.
    + rewrite <-(app_nil_l []). eapply adds_app; [by eapply enums_add|by eapply extensions_add].
Qed.

Lemma registerTypes_adds fd t t' :
  registerTypes t fd = Ok t' → adds t t' (file_messages fd).
Proof.
  unfold registerTypes. destruct (foldM registerMessage t _) as [t1|] eqn:E1; [|done].
  destruct (foldM Types_RegisterEnum t1 _) as [t2|] eqn:E2; [|done]. intros E3.
  unfold file_messages. rewrite <-(app_nil_r (flat_map _ _)). eapply adds_app.
  - eapply foldM_adds; [|exact E1]. intros; by apply registerMessage_adds.
  - rewrite <-(app_nil_l []). eapply adds_app; [by eapply enums_add|by eapply extensions_add].
Qed.

(** A snapshot built from compiled files finds by name exactly the messages its files
    declare, nested messages included, and keeps the version and the file list it was
    given. *)
Theorem NewFromFiles_finds version fds s :
  NewFromFiles version fds = Ok s →
  snap_version s = version ∧ FileDescriptors s = fds ∧
  ∀ n m, Snapshot_FindMessageByName s n = Ok m ↔
    n = msg_FullName m ∧ ∃ fd, fd ∈ fds ∧ m ∈ file_messages fd.
Proof.
  unfold NewFromFiles. destruct (foldM _ _ fds) as [[files types]|] eqn:E; [|done].
  intros [= <-]. split_and!; [done..|]. intros n m.
  assert (Ha : adds Types_empty types (flat_map file_messages fds)).
  { apply (foldM_ind _ (λ ft l, adds Types_empty ft.2 (flat_map file_messages l)) _ _ _ E).
    - apply adds_nil.
    - intros [f1 t1] l fd [f2 t2] Hl. cbn. unfold registerFileAndTypes.
      destruct (Files_RegisterFile _ _); [|done]. cbn.
      destruct (registerTypes t1 fd) eqn:Er; [|done]. intros [= <- <-].
      rewrite flat_map_app. eapply adds_app; [exact Hl|]. cbn. rewrite app_nil_r.
      by apply registerTypes_adds. }
  specialize (Ha n m). rewrite Types_find_empty in Ha.
  unfold Snapshot_FindMessageByName. cbn.
  destruct (Types_FindMessageByName types n) as [m'|e].
  - rewrite Ha. rewrite list_elem_of_In, in_flat_map. setoid_rewrite list_elem_of_In.
    naive_solver.
  - split; [done|]. intros (-> & fd & ? & ?). exfalso. assert (Err e = Ok m) as [=]. apply Ha. right. split; [|done].
    rewrite list_elem_of_In, in_flat_map. setoid_rewrite <-list_elem_of_In. eauto.
Qed.

End Snapshot.

Module Examples.
#[local] Existing Instance path_files.
#[local] Existing Instance name_types.
#[local] Existing Instance self_desc.

Definition inner : MessageDescriptor := Message "In" "p.Out.In" [] [] [] [] [].
Definition outer : MessageDescriptor := Message "Out" "p.Out" [] [] [] [inner] [].
Definition ex_file : FileDescriptor := File "p.proto" "p" [] [outer] [] [] [].

Definition ex_snap : Snapshot :=
  from_ok {| snap_version := 0; snap_files := Files_empty; snap_types := Types_empty;
             snap_fileList := [] |} (NewFromFiles 3 [ex_file]).

Lemma ex_snap_ok : NewFromFiles 3 [ex_file] = Ok ex_snap.
Proof. apply from_ok_spec. vm_compute. reflexivity. Qed.

Lemma NewFromFiles_finds_witness :
  snap_version ex_snap = 3%Z ∧ Snapshot_FindMessageByName ex_snap "p.Out.In" = Ok inner.
Proof.
  destruct (NewFromFiles_finds (Laws := name_types_laws) 3 [ex_file] ex_snap ex_snap_ok)
    as (Hv & _ & Hf).
  split; [exact Hv|]. apply Hf. split; [reflexivity|].
  exists ex_file. split; [left|]. vm_compute. right. left.
Defined.
End Examples.
