(* ===== verification/Compat.v ===== *)
(** * Backward compatibility of schema versions

    Models [src/compat/compat.go]. The functions append to the violations of a shared
    [Result]; here each returns the violations it appends, in order. [file] is the path of
    the file under comparison, the only part of it the messages use. *)

From S2P Require Import Prelude GoStrings Descriptor Protobuf Snapshot.
From stdpp Require Import prelude strings list pretty.

Open Scope string_scope.

Record Violation := {
  v_File : string; v_Path : string; v_Rule : string; v_Message : string }.

Record Result := { Violations : list Violation }.

Definition Violation_Error (v : Violation) : string :=
  v_Rule v +:+ ": " +:+ v_Message v +:+ " at " +:+ v_Path v +:+ " (" +:+ v_File v +:+ ")".

Definition OK (r : Result) : bool := bool_decide (length (Violations r) = 0).

Definition Result_Error (r : Result) : string :=
  if OK r then "" else
  foldl (λ s v, s +:+ String newline "  - " +:+ Violation_Error v)
        (pretty (length (Violations r)) +:+ " compatibility violation(s):") (Violations r).

(** [protoreflect.Kind.String] and [Cardinality.String]. *)
Class ProtoNames := {
  Kind_String : Kind → string;
  Cardinality_String : Cardinality → string }.

Section Compat.
Context `{ProtoNames}.

Definition checkField (file msg : string) (oldField : FieldDescriptor)
    (newFields : list FieldDescriptor) : list Violation :=
  match fields_ByNumber (fld_Number oldField) newFields with
  | None =>
     [{| v_File := file; v_Path := fld_FullName oldField; v_Rule := "FIELD_NO_DELETE";
         v_Message := "field " +:+ fld_Name oldField +:+ " (number " +:+
           pretty (fld_Number oldField) +:+ ") was removed from " +:+ msg |}]
  | Some newField =>
     ((if decide (fld_Kind oldField ≠ fld_Kind newField) then
        [{| v_File := file; v_Path := fld_FullName oldField; v_Rule := "FIELD_SAME_TYPE";
            v_Message := "field " +:+ fld_Name oldField +:+ " changed type from " +:+
              Kind_String (fld_Kind oldField) +:+ " to " +:+
              Kind_String (fld_Kind newField) |}] else []) ++
      (if decide (fld_Name oldField ≠ fld_Name newField) then
        [{| v_File := file; v_Path := fld_FullName oldField; v_Rule := "FIELD_SAME_NAME";
            v_Message := "field number " +:+ pretty (fld_Number oldField) +:+
              " renamed from " +:+ fld_Name oldField +:+ " to " +:+
              fld_Name newField |}] else []) ++
      (if decide (fld_Cardinality oldField ≠ fld_Cardinality newField) then
        [{| v_File := file; v_Path := fld_FullName oldField;
            v_Rule := "FIELD_SAME_CARDINALITY";
            v_Message := "field " +:+ fld_Name oldField +:+ " changed cardinality from " +:+
              Cardinality_String (fld_Cardinality oldField) +:+ " to " +:+
              Cardinality_String (fld_Cardinality newField) |}] else []) ++
      (if decide (fld_Kind oldField = MessageKind ∧ fld_Kind newField = MessageKind) then
        if decide (fld_Message oldField ≠ fld_Message newField) then
          [{| v_File := file; v_Path := fld_FullName oldField;
              v_Rule := "FIELD_SAME_MESSAGE_TYPE";
              v_Message := "field " +:+ fld_Name oldField +:+
                " changed message type from " +:+ fld_Message oldField +:+ " to " +:+
                fld_Message newField |}] else []
        else []) ++
      (if decide (fld_Kind oldField = EnumKind ∧ fld_Kind newField = EnumKind) then
        if decide (fld_Enum oldField ≠ fld_Enum newField) then
          [{| v_File := file; v_Path := fld_FullName oldField;
              v_Rule := "FIELD_SAME_ENUM_TYPE";
              v_Message := "field " +:+ fld_Name oldField +:+
                " changed enum type from " +:+ fld_Enum oldField +:+ " to " +:+
                fld_Enum newField |}] else []
        else []))%list
  end.

Definition checkEnum (file : string) (oldEnum : EnumDescriptor)
    (newEnums : list EnumDescriptor) : list Violation :=
  match enums_ByName (en_Name oldEnum) newEnums with
  | None =>
     [{| v_File := file; v_Path := en_FullName oldEnum; v_Rule := "ENUM_NO_DELETE";
         v_Message := "enum " +:+ en_Name oldEnum +:+ " was removed" |}]
  | Some newEnum =>
     flat_map (λ oldVal,
       match values_ByNumber (ev_Number oldVal) (en_Values newEnum) with
       | None =>
          [{| v_File := file; v_Path := ev_FullName oldVal;
              v_Rule := "ENUM_VALUE_NO_DELETE";
              v_Message := "enum value " +:+ ev_Name oldVal +:+ " (number " +:+
                pretty (ev_Number oldVal) +:+ ") was removed from " +:+
                en_FullName oldEnum |}]
       | Some _ => []
       end) (en_Values oldEnum)
  end.

Fixpoint checkMessage (file : string) (oldMsg : MessageDescriptor)
    (newMsgs : list MessageDescriptor) : list Violation :=
  match messages_ByName (msg_Name oldMsg) newMsgs with
  | None =>
     [{| v_File := file; v_Path := msg_FullName oldMsg; v_Rule := "MESSAGE_NO_DELETE";
         v_Message := "message " +:+ msg_Name oldMsg +:+ " was removed" |}]
  | Some newMsg =>
     (flat_map (λ oldField, checkField file (msg_FullName oldMsg) oldField
                              (msg_Fields newMsg)) (msg_Fields oldMsg) ++
      flat_map (λ m, checkMessage file m (msg_Messages newMsg)) (msg_Messages oldMsg) ++
      flat_map (λ e, checkEnum file e (msg_Enums newMsg)) (msg_Enums oldMsg) ++
      flat_map (λ oldOneof,
        match oneofs_ByName (oo_Name oldOneof) (msg_Oneofs newMsg) with
        | None =>
           [{| v_File := file; v_Path := oo_FullName oldOneof; v_Rule := "ONEOF_NO_DELETE";
               v_Message := "oneof " +:+ oo_Name oldOneof +:+ " was removed" |}]
        | Some _ => []
        end) (msg_Oneofs oldMsg))%list
  end.

(** One iteration over the methods of a service. *)
Definition checkMethod (file : string) (oldSvc newSvc : ServiceDescriptor)
    (oldMethod : MethodDescriptor) : list Violation :=
  match methods_ByName (mt_Name oldMethod) (sv_Methods newSvc) with
  | None =>
     [{| v_File := file; v_Path := mt_FullName oldMethod; v_Rule := "METHOD_NO_DELETE";
         v_Message := "method " +:+ mt_Name oldMethod +:+ " was removed from " +:+
           sv_FullName oldSvc |}]
  | Some newMethod =>
     ((if decide (mt_Input oldMethod ≠ mt_Input newMethod) then
        [{| v_File := file; v_Path := mt_FullName oldMethod;
            v_Rule := "METHOD_SAME_INPUT_TYPE";
            v_Message := "method " +:+ mt_Name oldMethod +:+ " changed input type from " +:+
              mt_Input oldMethod +:+ " to " +:+ mt_Input newMethod |}] else []) ++
      (if decide (mt_Output oldMethod ≠ mt_Output newMethod) then
        [{| v_File := file; v_Path := mt_FullName oldMethod;
            v_Rule := "METHOD_SAME_OUTPUT_TYPE";
            v_Message := "method " +:+ mt_Name oldMethod +:+ " changed output type from " +:+
              mt_Output oldMethod +:+ " to " +:+ mt_Output newMethod |}] else []))%list
  end.

Definition checkService (file : string) (oldSvc : ServiceDescriptor)
    (newSvcs : list ServiceDescriptor) : list Violation :=
  match services_ByName (sv_Name oldSvc) newSvcs with
  | None =>
     [{| v_File := file; v_Path := sv_FullName oldSvc; v_Rule := "SERVICE_NO_DELETE";
         v_Message := "service " +:+ sv_Name oldSvc +:+ " was removed" |}]
  | Some newSvc => flat_map (checkMethod file oldSvc newSvc) (sv_Methods oldSvc)
  end.

Definition checkFile (oldFile newFile : FileDescriptor) : list Violation :=
  let file := file_Path oldFile in
  (flat_map (λ m, checkMessage file m (file_Messages newFile)) (file_Messages oldFile) ++
   flat_map (λ e, checkEnum file e (file_Enums newFile)) (file_Enums oldFile) ++
   flat_map (λ s, checkService file s (file_Services newFile)) (file_Services oldFile))%list.

Context `{ProtoTypes, ProtoFiles}.

(** [compat.Check]; [None] is the nil snapshot. *)
Definition Check (old : option Snapshot) (new : Snapshot) : Result :=
  match old with
  | None => {| Violations := [] |}
  | Some old =>
     {| Violations :=
          flat_map (λ oldFile,
            match Files_FindFileByPath (snap_files new) (file_Path oldFile) with
            | Err _ =>
               [{| v_File := file_Path oldFile; v_Path := file_Path oldFile;
                   v_Rule := "FILE_NO_DELETE"; v_Message := "file was removed" |}]
            | Ok newFile => checkFile oldFile newFile
            end) (Files_RangeFiles (snap_files old)) |}
  end.

End Compat.
