(* ===== verification/CompatThms.v ===== *)
(** * Correctness of the compatibility check

    [file_keeps] says what a compatible successor must keep, without reference to the
    order of the walk or to the lookups of the code: every field number with its name,
    kind, cardinality and type, every nested message, enum, enum number, oneof, service
    and method. The check accepts exactly these successors, and the relation is reflexive
    and transitive, so checking each version against the previous one is enough to stay
    compatible with all earlier versions. *)

From S2P Require Import Prelude GoStrings Descriptor Protobuf Snapshot Compat.
From stdpp Require Import prelude gmap strings list.

Open Scope string_scope.

(** Every element of [old] has a successor with its key in [new], related by [R]. *)
Definition keeps {A K} (key : A → K) (R : A → A → Prop) (old new : list A) : Prop :=
  ∀ o, o ∈ old → ∃ n, n ∈ new ∧ key n = key o ∧ R o n.

Definition field_keeps (o n : FieldDescriptor) : Prop :=
  fld_Kind o = fld_Kind n ∧ fld_Name o = fld_Name n ∧
  fld_Cardinality o = fld_Cardinality n ∧
  (fld_Kind o = MessageKind → fld_Message o = fld_Message n) ∧
  (fld_Kind o = EnumKind → fld_Enum o = fld_Enum n).

Definition enum_keeps (o n : EnumDescriptor) : Prop :=
  keeps ev_Number (λ _ _, True) (en_Values o) (en_Values n).

Inductive message_keeps : MessageDescriptor → MessageDescriptor → Prop :=
  | Message_keeps o n :
     keeps fld_Number field_keeps (msg_Fields o) (msg_Fields n) →
     (∀ o', o' ∈ msg_Messages o →
        ∃ n', n' ∈ msg_Messages n ∧ msg_Name n' = msg_Name o' ∧ message_keeps o' n') →
     keeps en_Name enum_keeps (msg_Enums o) (msg_Enums n) →
     keeps oo_Name (λ _ _, True) (msg_Oneofs o) (msg_Oneofs n) →
     message_keeps o n.

Definition method_keeps (o n : MethodDescriptor) : Prop :=
  mt_Input o = mt_Input n ∧ mt_Output o = mt_Output n.

Definition service_keeps (o n : ServiceDescriptor) : Prop :=
  keeps mt_Name method_keeps (sv_Methods o) (sv_Methods n).

Definition file_keeps (o n : FileDescriptor) : Prop :=
  keeps msg_Name message_keeps (file_Messages o) (file_Messages n) ∧
  keeps en_Name enum_keeps (file_Enums o) (file_Enums n) ∧
  keeps sv_Name service_keeps (file_Services o) (file_Services n).

(** ** [keeps] is a preorder when its relation is one *)

Lemma keeps_refl {A K} (key : A → K) R l : (∀ x, x ∈ l → R x x) → keeps key R l l.
Proof. intros HR x Hx. exists x. auto. Qed.

Lemma keeps_trans {A K} (key : A → K) (R : A → A → Prop) l1 l2 l3 :
  (∀ x y z, x ∈ l1 → R x y → R y z → R x z) →
  keeps key R l1 l2 → keeps key R l2 l3 → keeps key R l1 l3.
Proof.
  intros HR H12 H23 x Hx. destruct (H12 x Hx) as (y & Hy & Hk & Hxy).
  destruct (H23 y Hy) as (z & Hz & Hk' & Hyz). exists z. split_and!; [done|congruence|eauto].
Qed.

Lemma field_keeps_trans x y z : field_keeps x y → field_keeps y z → field_keeps x z.
Proof.
  intros (? & ? & ? & Hm & He) (? & ? & ? & Hm' & He'). split_and!; try congruence.
  - intros E. rewrite Hm by done. apply Hm'. congruence.
  - intros E. rewrite He by done. apply He'. congruence.
Qed.

Lemma enum_keeps_trans x y z : enum_keeps x y → enum_keeps y z → enum_keeps x z.
Proof. by apply keeps_trans. Qed.

Lemma method_keeps_trans x y z : method_keeps x y → method_keeps y z → method_keeps x z.
Proof. intros [? ?] [? ?]. split; congruence. Qed.

Lemma message_keeps_refl m : message_keeps m m.
Proof.
  induction m as [n fn fs os es ms xs IH] using message_ind. rewrite Forall_forall in IH.
  constructor; cbn.
  - by apply keeps_refl.
  - intros o Ho. exists o. auto.
  - apply keeps_refl. intros e _. by apply keeps_refl.
  - by apply keeps_refl.
Qed.

Lemma message_keeps_trans x y z : message_keeps x y → message_keeps y z → message_keeps x z.
Proof.
  revert y z. induction x as [n fn fs os es ms xs IH] using message_ind.
  rewrite Forall_forall in IH. intros y z Hxy Hyz.
  inversion Hxy as [o1 n1 F1 M1 E1 O1]; subst. inversion Hyz as [o2 n2 F2 M2 E2 O2]; subst.
  constructor; cbn in *.
  - eapply keeps_trans; eauto using field_keeps_trans.
  - intros o Ho. destruct (M1 o Ho) as (y' & Hy' & Hn & Hoy).
    destruct (M2 y' Hy') as (z' & Hz' & Hn' & Hyz'). exists z'.
    split_and!; [done|congruence|]. by eapply IH.
  - eapply keeps_trans; eauto using enum_keeps_trans.
  - by eapply keeps_trans.
Qed.

(** ** The walk of the code computes [keeps] *)

Lemma app_nil_iff {A} (l1 l2 : list A) : (l1 ++ l2 = [])%list ↔ l1 = [] ∧ l2 = [].
Proof. split; [apply app_nil|]. by intros [-> ->]. Qed.

Lemma flat_map_nil {A B} (f : A → list B) l : flat_map f l = [] ↔ ∀ x, x ∈ l → f x = [].
Proof.
  induction l as [|x l IH]; cbn; [set_solver|]. rewrite app_nil_iff, IH. set_solver.
Qed.

(** A per-element check that looks the successor up by key. *)
Lemma check_keeps {A K} `{EqDecision K} (key : A → K) (R : A → A → Prop) (chk : A → list Violation)
    (miss : A → Violation) (cmp : A → A → list Violation) old new :
  NoDup (key <$> new) →
  (∀ o, o ∈ old → chk o = match find_by key (key o) new with
                          | None => [miss o] | Some n => cmp o n end) →
  (∀ o n, o ∈ old → n ∈ new → cmp o n = [] ↔ R o n) →
  flat_map chk old = [] ↔ keeps key R old new.
Proof.
  intros Hnd Hchk Hcmp. rewrite flat_map_nil. split; intros H o Ho.
  - specialize (H o Ho). rewrite Hchk in H by done.
    destruct (find_by key (key o) new) as [n|] eqn:E; [|done].
    apply find_by_Some in E as [Hn Hk]. exists n. split_and!; [done..|]. by apply Hcmp.
  - destruct (H o Ho) as (n & Hn & Hk & HR). rewrite Hchk, <-Hk by done.
    rewrite find_by_unique by done. by apply Hcmp.
Qed.

(** A per-element check that only looks whether the key is still there. *)
Lemma check_present {A K} `{EqDecision K} (key : A → K) (miss : A → Violation) old new :
  flat_map (λ o, match find_by key (key o) new with None => [miss o] | Some _ => [] end) old
    = [] ↔ keeps key (λ _ _, True) old new.
Proof.
  rewrite flat_map_nil. split; intros H o Ho; specialize (H o Ho).
  - destruct (find_by key (key o) new) as [n|] eqn:E; [|done].
    apply find_by_Some in E as [Hn Hk]. eauto.
  - destruct H as (n & Hn & Hk & _).
    destruct (proj2 (find_by_is_Some key (key o) new)) as [n' ->]; eauto.
Qed.

Ltac decide_nil := repeat case_decide; try (split; [discriminate|]); intuition congruence.

Section Compat.
Context `{ProtoNames}.

Lemma checkFields_spec file msg old new :
  NoDup (fld_Number <$> new) →
  flat_map (λ o, checkField file msg o new) old = [] ↔ keeps fld_Number field_keeps old new.
Proof.
  intros Hnd. eapply check_keeps; [done| |].
  - intros o _. unfold checkField, fields_ByNumber. reflexivity.
  - intros o n _ _. rewrite !app_nil_iff. unfold field_keeps. decide_nil.
Qed.

Lemma checkEnums_spec file old new :
  NoDup (en_Name <$> new) →
  flat_map (λ e, checkEnum file e new) old = [] ↔ keeps en_Name enum_keeps old new.
Proof.
  intros Hnd. eapply check_keeps; [done| |].
  - intros o _. unfold checkEnum, enums_ByName. reflexivity.
  - intros o n _ _. apply check_present.
Qed.

Lemma checkMessages_spec file new : ∀ old,
  NoDup (msg_Name <$> new) → Forall message_wf new →
  flat_map (λ m, checkMessage file m new) old = [] ↔ keeps msg_Name message_keeps old new.
Proof.
  assert (Hone : ∀ o new, NoDup (msg_Name <$> new) → Forall message_wf new →
    checkMessage file o new = [] ↔
    ∃ n, n ∈ new ∧ msg_Name n = msg_Name o ∧ message_keeps o n).
  { intros o. induction o as [nm fn fs os es ms xs IH] using message_ind.
    rewrite Forall_forall in IH. clear new. intros new Hnd Hwf.
    rewrite Forall_forall in Hwf. cbn [checkMessage msg_Name].
    assert (Hbody : ∀ n, n ∈ new →
      (flat_map (λ f, checkField file fn f (msg_Fields n)) fs ++
       flat_map (λ m, checkMessage file m (msg_Messages n)) ms ++
       flat_map (λ e, checkEnum file e (msg_Enums n)) es ++
       flat_map (λ o, match oneofs_ByName (oo_Name o) (msg_Oneofs n) with
         | None => [{| v_File := file; v_Path := oo_FullName o; v_Rule := "ONEOF_NO_DELETE";
             v_Message := "oneof " +:+ oo_Name o +:+ " was removed" |}]
         | Some _ => [] end) os)%list = [] ↔
      message_keeps (Message nm fn fs os es ms xs) n).
    { intros n Hn. pose proof (Hwf n Hn) as (Hf & Ho & He & Hm & Hsub)%message_wf_unfold.
      rewrite !app_nil_iff, checkFields_spec, checkEnums_spec by done.
      unfold oneofs_ByName. rewrite (check_present oo_Name), flat_map_nil. split.
      - intros (? & HM & ? & ?). constructor; [done| |done..].
        cbn. intros o' Ho'. apply IH; auto.
      - inversion 1 as [? ? F M E O]; subst. split_and!; [done| |done..].
        cbn in M. intros m Hm'. apply IH; auto. }
    split.
    - unfold messages_ByName. destruct (find_by msg_Name nm new) as [n|] eqn:E; [|done].
      apply find_by_Some in E as [Hn Hk]. intros HB. exists n. by rewrite <-Hbody.
    - intros (n & Hn & Hk & HR). unfold messages_ByName. cbn in Hk. rewrite <-Hk.
      rewrite find_by_unique by done. by apply Hbody. }
  intros old Hnd Hwf. rewrite flat_map_nil. unfold keeps.
  split; intros Hc o Ho; apply Hone; auto.
Qed.

Lemma checkServices_spec file old new :
  NoDup (sv_Name <$> new) → Forall service_wf new →
  flat_map (λ s, checkService file s new) old = [] ↔ keeps sv_Name service_keeps old new.
Proof.
  intros Hnd Hwf. rewrite Forall_forall in Hwf. eapply check_keeps; [done| |].
  - intros o _. unfold checkService, services_ByName. reflexivity.
  - intros o n _ Hn. unfold service_keeps. eapply check_keeps; [by apply Hwf| |].
    + intros m _. unfold checkMethod, methods_ByName. reflexivity.
    + intros m m' _ _. rewrite app_nil_iff. unfold method_keeps. decide_nil.
Qed.

Lemma checkFile_spec o n : file_wf n → checkFile o n = [] ↔ file_keeps o n.
Proof.
  intros (Hm & He & Hs & Hmw & Hsw). unfold checkFile, file_keeps.
  by rewrite !app_nil_iff, checkMessages_spec, checkEnums_spec, checkServices_spec.
Qed.

Context `{ProtoTypes, ProtoFiles} {Laws : ProtoFilesLaws}.

(** The files of a snapshot as the protobuf runtime links them. *)
Definition snapshot_wf (s : Snapshot) : Prop :=
  ∀ fd, fd ∈ Files_RangeFiles (snap_files s) → file_wf fd.

(** Every file of [old] has a compatible successor at its path. *)
Definition snapshot_keeps (old new : Snapshot) : Prop :=
  ∀ o, o ∈ Files_RangeFiles (snap_files old) →
    ∃ n, n ∈ Files_RangeFiles (snap_files new) ∧ file_Path n = file_Path o ∧ file_keeps o n.

Lemma Check_spec old new :
  snapshot_wf new → OK (Check (Some old) new) = true ↔ snapshot_keeps old new.
Proof.
  intros Hwf. unfold OK, Check. cbn. rewrite bool_decide_eq_true.
  rewrite length_zero_iff_nil, flat_map_nil. unfold snapshot_keeps.
  split; intros Hc o Ho; specialize (Hc o Ho).
  - destruct (Files_FindFileByPath (snap_files new) (file_Path o)) as [n|] eqn:E; [|done].
    pose proof (Files_find_path _ _ _ E) as Hp.
    assert (Hn : n ∈ Files_RangeFiles (snap_files new)) by (apply Files_find_range; congruence).
    exists n. split_and!; [done..|]. by apply checkFile_spec; [apply Hwf|].
  - destruct Hc as (n & Hn & Hp & Hk). pose proof Hn as E%Files_find_range.
    rewrite <-Hp, E. by apply checkFile_spec; [apply Hwf|].
Qed.

(** C22. The check accepts a new version of a schema exactly when every file of the old
    version is still there and keeps what its consumers rely on. *)
Theorem Check_accepts_exactly old new :
  snapshot_wf new → OK (Check (Some old) new) = true ↔ snapshot_keeps old new.
Proof. apply Check_spec. Qed.

Lemma snapshot_keeps_trans s1 s2 s3 :
  snapshot_keeps s1 s2 → snapshot_keeps s2 s3 → snapshot_keeps s1 s3.
Proof.
  intros H12 H23 x Hx. destruct (H12 x Hx) as (y & Hy & Hp & Hm & He & Hs).
  destruct (H23 y Hy) as (z & Hz & Hp' & Hm' & He' & Hs').
  exists z. split_and!; [done|congruence|]. split_and!.
  - eapply keeps_trans; eauto using message_keeps_trans.
  - eapply keeps_trans; eauto using enum_keeps_trans.
  - eapply keeps_trans; [|eauto..]. intros ? ? ? _. apply keeps_trans.
    intros ? ? ? _. apply method_keeps_trans.
Qed.

(** C23. Checking each version against its predecessor is enough: along any chain of
    versions in which every step passes the check, the last version passes it against
    every earlier one, itself included. *)
Theorem Check_chain_compatible (versions : list Snapshot) (i j : nat) si sj :
  Forall snapshot_wf versions →
  (∀ k a b, versions !! k = Some a → versions !! S k = Some b →
     OK (Check (Some a) b) = true) →
  (i ≤ j)%nat → versions !! i = Some si → versions !! j = Some sj →
  OK (Check (Some si) sj) = true.
Proof.
  intros Hwf Hstep Hij Hi. rewrite Forall_lookup in Hwf. revert sj.
  induction Hij as [|j Hij IH]; intros sj Hj.
  - rewrite Hi in Hj. injection Hj as <-. apply Check_spec; [eauto|].
    intros o Ho. exists o. split_and!; [done..|].
    split_and!; apply keeps_refl; intros; [apply message_keeps_refl|by apply keeps_refl|].
    by apply keeps_refl.
  - assert (is_Some (versions !! j)) as [sk Hk].
    { apply lookup_lt_is_Some. apply lookup_lt_Some in Hj. lia. }
    apply Check_spec; [eauto|]. apply snapshot_keeps_trans with sk.
    + apply Check_spec; eauto.
    + apply Check_spec; eauto.
Qed.

End Compat.

Module Examples.
#[local] Existing Instance path_files.
#[local] Existing Instance name_types.

Definition names : ProtoNames :=
  {| Kind_String _ := "kind"; Cardinality_String _ := "cardinality" |}.
#[local] Existing Instance names.

Definition fld (n : string) (num : Z) : FieldDescriptor :=
  Field n ("p.M." +:+ n) num StringKind Optional "" "" "".
Definition v1 : FileDescriptor :=
  File "p.proto" "p" [] [Message "M" "p.M" [fld "a" 1] [] [] [] []] [] [] [].
Definition v2 : FileDescriptor :=
  File "p.proto" "p" [] [Message "M" "p.M" [fld "b" 2; fld "a" 1] [] [] [] []] [] [] [].
Definition snap (v : Z) (f : FileDescriptor) : Snapshot :=
  {| snap_version := v; snap_files := ({[ file_Path f := f ]} : gmap string FileDescriptor);
     snap_types := (∅ : gmap string RtType); snap_fileList := [f] |}.

Lemma snap_wf v f :
  file_wf f → snapshot_wf (snap v f).
Proof.
  intros Hf fd Hfd%path_files_range. change (({[ file_Path f := f ]} : gmap string FileDescriptor) !! file_Path fd
    = Some fd) in Hfd.
  apply lookup_singleton_Some in Hfd as [_ <-]. exact Hf.
Qed.

Ltac solve_wf :=
  repeat match goal with
  | |- file_wf _ => unfold file_wf
  | |- message_wf _ => apply message_wf_unfold
  | |- _ ∧ _ => split
  | |- NoDup _ => apply (bool_decide_unpack _); vm_compute; exact I
  | |- Forall _ _ => constructor
  end.

Lemma v1_wf : file_wf v1.
Proof. solve_wf. Qed.
Lemma v2_wf : file_wf v2.
Proof. solve_wf. Qed.

Lemma Check_accepts_exactly_witness : snapshot_keeps (snap 1 v1) (snap 2 v2).
Proof.
  apply (Check_accepts_exactly (Laws := path_files_laws)).
  - apply snap_wf, v2_wf.
  - vm_compute. reflexivity.
Defined.

Lemma Check_chain_compatible_witness :
  OK (Check (Some (snap 1 v1)) (snap 3 v2)) = true.
Proof.
  apply (Check_chain_compatible (Laws := path_files_laws)
    [snap 1 v1; snap 2 v2; snap 3 v2] 0 2).
  - repeat (apply Forall_cons; split); [apply snap_wf; first [apply v1_wf | apply v2_wf]..|].
    apply Forall_nil_2.
  - intros [|[|[|k]]] a b Ha Hb; try discriminate; injection Ha as <-; injection Hb as <-;
      vm_compute; reflexivity.
  - lia.
  - reflexivity.
  - reflexivity.
Defined.
End Examples.
