(* ===== verification/Conflict.v ===== *)
(** * Name collisions between a namespace and its ancestors

    Models [src/compiler/conflict.go]: the names a snapshot declares, and the detection of
    names a child redefines in a file of its own. *)

From S2P Require Import Prelude GoStrings Descriptor Protobuf Snapshot.
From stdpp Require Import prelude gmap strings list sorting pretty.

Open Scope string_scope.

Record fqnEntry := { fe_kind : string; fe_file : string }.

#[global] Instance fqnEntry_eq_dec : EqDecision fqnEntry.
Proof. solve_decision. Defined.

Notation fqnMap := (gmap string fqnEntry).

Fixpoint walkMessage (md : MessageDescriptor) (file : string) (out : fqnMap) : fqnMap :=
  let out := <[msg_FullName md := {| fe_kind := "message"; fe_file := file |}]> out in
  let out := fold_left (λ out m, walkMessage m file out) (msg_Messages md) out in
  let out := fold_left (λ out e,
    <[en_FullName e := {| fe_kind := "enum"; fe_file := file |}]> out) (msg_Enums md) out in
  fold_left (λ out ext,
    <[fld_FullName ext := {| fe_kind := "extension"; fe_file := file |}]> out)
    (msg_Extensions md) out.

Definition walkFile (fd : FileDescriptor) (out : fqnMap) : fqnMap :=
  let path := file_Path fd in
  let out := fold_left (λ out m, walkMessage m path out) (file_Messages fd) out in
  let out := fold_left (λ out e,
    <[en_FullName e := {| fe_kind := "enum"; fe_file := path |}]> out) (file_Enums fd) out in
  let out := fold_left (λ out s,
    <[sv_FullName s := {| fe_kind := "service"; fe_file := path |}]> out)
    (file_Services fd) out in
  fold_left (λ out ext,
    <[fld_FullName ext := {| fe_kind := "extension"; fe_file := path |}]> out)
    (file_Extensions fd) out.

Section Conflict.
Context `{ProtoTypes, ProtoFiles, GoRange}.

Definition collectFQNs (snap : Snapshot) : fqnMap :=
  fold_left (λ out fd, walkFile fd out) (FileDescriptors snap) ∅.

(** The order [sort.Slice] is given. *)
Definition fqn_le (a b : FQNConflict) : Prop := String.le (fc_FQN a) (fc_FQN b).
#[global] Instance fqn_le_dec : RelDecision fqn_le := λ a b, String.le_dec (fc_FQN a) (fc_FQN b).

(** The body of the loop over the child's names. *)
Definition conflictOf (ancestorFQNs : fqnMap) (kv : string * fqnEntry) : option FQNConflict :=
  let '(fqn, cd) := kv in
  match ancestorFQNs !! fqn with
  | None => None
  | Some ad =>
     if decide (fe_file cd = fe_file ad) then None
     else Some {| fc_FQN := fqn; fc_Kind := fe_kind cd;
                  fc_ChildFile := fe_file cd; fc_AncestorFile := fe_file ad |}
  end.

Definition DetectFQNConflicts (child ancestor : option Snapshot) : list FQNConflict :=
  match child, ancestor with
  | Some child, Some ancestor =>
     let ancestorFQNs := collectFQNs ancestor in
     if decide (size ancestorFQNs = 0) then []
     else merge_sort fqn_le (omap (conflictOf ancestorFQNs) (go_range (collectFQNs child)))
  | _, _ => []
  end.
End Conflict.

(** [FQNConflictError.Error]; [%v] prints a slice of strings between brackets, separated
    by spaces. *)
Definition FQNConflictError_Error (AncestorNamespaceID : string)
    (Conflicts : list FQNConflict) : outcome string :=
  match Conflicts with
  | [] => Panics
  | [c] =>
     Returns ("FQN " +:+ quote (fc_FQN c) +:+ " (" +:+ fc_Kind c +:+
       ") is already defined in namespace " +:+ quote AncestorNamespaceID +:+ " at " +:+
       fc_AncestorFile c)
  | c :: _ =>
     Returns (pretty (length Conflicts) +:+ " FQNs in namespace " +:+ quote (fc_FQN c) +:+
       " conflict with ancestor " +:+ quote AncestorNamespaceID +:+ ": [" +:+
       strings_Join (fc_FQN <$> Conflicts) " " +:+ "]")
  end.

(** ** What the walk collects *)

(** The names a message, a file and a snapshot declare, with their kinds and files. *)
Fixpoint message_symbols (file : string) (md : MessageDescriptor) : list (string * fqnEntry) :=
  ((msg_FullName md, {| fe_kind := "message"; fe_file := file |})
   :: flat_map (message_symbols file) (msg_Messages md)
   ++ ((λ e, (en_FullName e, {| fe_kind := "enum"; fe_file := file |})) <$> msg_Enums md)
   ++ ((λ x, (fld_FullName x, {| fe_kind := "extension"; fe_file := file |})) <$>
       msg_Extensions md))%list.

Definition file_symbols (fd : FileDescriptor) : list (string * fqnEntry) :=
  let file := file_Path fd in
  (flat_map (message_symbols file) (file_Messages fd)
   ++ ((λ e, (en_FullName e, {| fe_kind := "enum"; fe_file := file |})) <$> file_Enums fd)
   ++ ((λ s, (sv_FullName s, {| fe_kind := "service"; fe_file := file |})) <$>
       file_Services fd)
   ++ ((λ x, (fld_FullName x, {| fe_kind := "extension"; fe_file := file |})) <$>
       file_Extensions fd))%list.

(** Writing a list of entries into the map, in order. *)
Definition put_all (out : fqnMap) (l : list (string * fqnEntry)) : fqnMap :=
  fold_left (λ out kv, <[kv.1 := kv.2]> out) l out.

Lemma put_all_cons out kv l : put_all out (kv :: l) = put_all (<[kv.1 := kv.2]> out) l.
Proof. done. Qed.

Lemma put_all_app out l1 l2 : put_all out (l1 ++ l2)%list = put_all (put_all out l1) l2.
Proof. apply fold_left_app. Qed.

Lemma put_all_fmap {A} (f : A → string * fqnEntry) l out :
  fold_left (λ out x, <[(f x).1 := (f x).2]> out) l out = put_all out (f <$> l).
Proof. revert out. induction l as [|x l IH]; intros out; [done|]. apply IH. Qed.

Lemma put_all_flat_map {A} (g : A → fqnMap → fqnMap) (f : A → list (string * fqnEntry)) l out :
  (∀ x out, x ∈ l → g x out = put_all out (f x)) →
  fold_left (λ out x, g x out) l out = put_all out (flat_map f l).
Proof.
  revert out. induction l as [|x l IH]; intros out Hg; [done|].
  cbn [fold_left flat_map]. rewrite put_all_app, Hg by left. apply IH. intros y o Hy. apply Hg. by right.
Qed.

Lemma walkMessage_spec file md out :
  walkMessage md file out = put_all out (message_symbols file md).
Proof.
  revert out. induction md as [n fn fs os es ms xs IH] using message_ind.
  rewrite Forall_forall in IH. intros out. cbn [walkMessage message_symbols].
  rewrite put_all_cons, !put_all_app, <-!put_all_fmap. cbn. f_equal. f_equal.
  apply (put_all_flat_map (λ m, walkMessage m file)). eauto.
Qed.

Lemma walkFile_spec fd out : walkFile fd out = put_all out (file_symbols fd).
Proof.
  unfold walkFile, file_symbols. rewrite !put_all_app, <-!put_all_fmap. cbn.
  do 3 f_equal. apply (put_all_flat_map (λ m, walkMessage m (file_Path fd))).
  intros; apply walkMessage_spec.
Qed.

Lemma put_all_lookup l out k e :
  NoDup l.*1 → put_all out l !! k = Some e ↔ (k, e) ∈ l ∨ (k ∉ l.*1 ∧ out !! k = Some e).
Proof.
  revert out. induction l as [|[k' e'] l IH]; intros out; [set_solver|].
  rewrite put_all_cons, fmap_cons, NoDup_cons. cbn [fst snd].
  intros [Hk' Hnd]. rewrite IH by done.
  rewrite lookup_insert_Some, elem_of_cons, not_elem_of_cons.
  assert (Hin : (k, e) ∈ l → k ∈ l.*1) by apply (list_elem_of_fmap_2 fst).
  split; [naive_solver|]. intros [[[= -> ->]|?]|[[? ?] ?]]; naive_solver.
Qed.

Section Detect.
Context `{ProtoTypes, ProtoFiles, GoRange}.

Definition snapshot_symbols (s : Snapshot) : list (string * fqnEntry) :=
  flat_map file_symbols (FileDescriptors s).

(** No name is declared twice: what linking guarantees of the files of a snapshot. *)
Definition symbols_unique (s : Snapshot) : Prop := NoDup (snapshot_symbols s).*1.

Lemma collectFQNs_spec s k e :
  symbols_unique s → collectFQNs s !! k = Some e ↔ (k, e) ∈ snapshot_symbols s.
Proof.
  intros Hs. unfold collectFQNs.
  rewrite (put_all_flat_map walkFile file_symbols) by (intros; apply walkFile_spec).
  rewrite put_all_lookup by done. rewrite lookup_empty. naive_solver.
Qed.

#[global] Instance fqn_le_total : Total fqn_le.
Proof. intros a b. apply String.le_total. Qed.
#[global] Instance fqn_le_trans : Transitive fqn_le.
Proof. intros a b c. apply (transitivity (R := String.le)). Qed.

Lemma elem_of_DetectFQNConflicts child ancestor c :
  c ∈ DetectFQNConflicts (Some child) (Some ancestor) ↔
  ∃ kv, collectFQNs child !! kv.1 = Some kv.2 ∧ conflictOf (collectFQNs ancestor) kv = Some c.
Proof.
  unfold DetectFQNConflicts. case_decide as Hz.
  - apply map_size_empty_inv in Hz. rewrite elem_of_nil, Hz.
    split; [done|]. intros ([k e] & _ & Hc). cbn in Hc. by rewrite lookup_empty in Hc.
  - rewrite merge_sort_Permutation, list_elem_of_omap. by setoid_rewrite elem_of_go_range'.
Qed.

(** The reports of the code: the kind is always the child's. *)
Lemma DetectFQNConflicts_reports child ancestor c :
  symbols_unique child → symbols_unique ancestor →
  c ∈ DetectFQNConflicts (Some child) (Some ancestor) ↔
  ∃ ak,
    (fc_FQN c, {| fe_kind := fc_Kind c; fe_file := fc_ChildFile c |}) ∈ snapshot_symbols child ∧
    (fc_FQN c, {| fe_kind := ak; fe_file := fc_AncestorFile c |}) ∈ snapshot_symbols ancestor ∧
    fc_ChildFile c ≠ fc_AncestorFile c.
Proof.
  intros Hc Ha. rewrite elem_of_DetectFQNConflicts. split.
  - intros ([k [kk kf]] & Hk & Hof). cbn in *.
    destruct (collectFQNs ancestor !! k) as [[ak af]|] eqn:E; [|done].
    cbn in Hof. case_decide; [done|]. injection Hof as <-. cbn.
    exists ak. rewrite <-!collectFQNs_spec by done. done.
  - intros (ak & Hk & Hak & Hne). rewrite <-!collectFQNs_spec in * by done.
    eexists (_, _). cbn. split; [exact Hk|]. rewrite Hak. cbn. rewrite decide_False by done.
    by destruct c.
Qed.

(** The name and the two files a report is about. *)
Definition reported (c : FQNConflict) : string * string * string :=
  (fc_FQN c, fc_ChildFile c, fc_AncestorFile c).

(** C34. For snapshots in which every name is declared once, as the linker sees to, the
    detector reports exactly the names that the child and the ancestor declare in different
    files, each with both files; and when both declarations are of one kind, the report
    names that kind. *)
Theorem DetectFQNConflicts_exact child ancestor n cf af :
  symbols_unique child → symbols_unique ancestor →
  ((n, cf, af) ∈ reported <$> DetectFQNConflicts (Some child) (Some ancestor) ↔
   ∃ ck ak, (n, {| fe_kind := ck; fe_file := cf |}) ∈ snapshot_symbols child ∧
     (n, {| fe_kind := ak; fe_file := af |}) ∈ snapshot_symbols ancestor ∧ cf ≠ af) ∧
  ∀ c k, c ∈ DetectFQNConflicts (Some child) (Some ancestor) →
    (fc_FQN c, {| fe_kind := k; fe_file := fc_ChildFile c |}) ∈ snapshot_symbols child →
    (fc_FQN c, {| fe_kind := k; fe_file := fc_AncestorFile c |}) ∈ snapshot_symbols ancestor →
    fc_Kind c = k.
Proof.
  intros Hc Ha. split.
  - rewrite list_elem_of_fmap. setoid_rewrite (DetectFQNConflicts_reports child ancestor _ Hc Ha). split.
    + intros (c & [= -> -> ->] & ak & Hk & Hak & Hne). eauto.
    + intros (ck & ak & Hk & Hak & Hne).
      exists {| fc_FQN := n; fc_Kind := ck; fc_ChildFile := cf; fc_AncestorFile := af |}. eauto 6.
  - intros c k (ak & Hk & _)%DetectFQNConflicts_reports Hk' _; [|done..].
    apply collectFQNs_spec in Hk, Hk'; [|done..]. congruence.
Qed.

(** The kind of a report is the child's, also when only the ancestor declares a message. *)
Lemma conflict_kind_is_the_childs child ancestor c :
  symbols_unique child → symbols_unique ancestor →
  c ∈ DetectFQNConflicts (Some child) (Some ancestor) →
  (fc_FQN c, {| fe_kind := fc_Kind c; fe_file := fc_ChildFile c |}) ∈ snapshot_symbols child.
Proof. intros Hc Ha (ak & Hk & _)%DetectFQNConflicts_reports; done. Qed.

Lemma conflictOf_FQN m kv c : conflictOf m kv = Some c → fc_FQN c = kv.1.
Proof.
  destruct kv as [k e]. cbn. destruct (m !! k); [|done]. case_decide; [done|].
  by intros [= <-].
Qed.

Lemma conflicts_NoDup m (l : list (string * fqnEntry)) :
  NoDup l.*1 → NoDup (fc_FQN <$> omap (conflictOf m) l).
Proof.
  induction l as [|kv l IH]; [by constructor|]. cbn [fmap list_fmap].
  rewrite NoDup_cons. intros [Hkv Hl]. cbn. destruct (conflictOf m kv) as [c|] eqn:E; [|auto].
  cbn. apply NoDup_cons. split; [|auto]. rewrite (conflictOf_FQN _ _ _ E).
  intros (c' & Hc' & Hin)%list_elem_of_fmap. apply list_elem_of_omap in Hin as (kv' & Hin & E').
  apply Hkv. rewrite Hc', (conflictOf_FQN _ _ _ E'). by apply list_elem_of_fmap_2.
Qed.

(** The conflicts come sorted by name, one per name: the report does not depend on the
    iteration order of the maps behind it. *)
Theorem DetectFQNConflicts_sorted child ancestor :
  StronglySorted fqn_le (DetectFQNConflicts child ancestor) ∧
  NoDup (fc_FQN <$> DetectFQNConflicts child ancestor).
Proof.
  unfold DetectFQNConflicts. destruct child as [child|], ancestor as [ancestor|];
    try (split; constructor).
  case_decide; [split; constructor|]. split.
  - apply StronglySorted_merge_sort; apply _.
  - rewrite merge_sort_Permutation. apply conflicts_NoDup, NoDup_fst_go_range.
Qed.
End Detect.

Module Examples.
#[local] Existing Instance path_files.
#[local] Existing Instance name_types.
#[local] Existing Instance range_default.

Definition snap (path : string) (ms : list MessageDescriptor) : Snapshot :=
  {| snap_version := 1; snap_files := (∅ : gmap string FileDescriptor);
     snap_types := (∅ : gmap string RtType);
     snap_fileList := [File path "p" [] ms [] [] []] |}.
Definition msg (n : string) : MessageDescriptor := Message n ("p." +:+ n) [] [] [] [] [].
Definition child : Snapshot := snap "child.proto" [msg "A"; msg "B"].
Definition ancestor : Snapshot := snap "base.proto" [msg "B"; msg "C"].

Lemma DetectFQNConflicts_exact_witness :
  ("p.B", "child.proto", "base.proto") ∈ reported <$> DetectFQNConflicts (Some child) (Some ancestor).
Proof.
  destruct (DetectFQNConflicts_exact child ancestor "p.B" "child.proto" "base.proto") as [Hex _].
  - apply (bool_decide_unpack _). vm_compute. exact I.
  - apply (bool_decide_unpack _). vm_compute. exact I.
  - apply Hex. exists "message", "message". vm_compute. split; [right; left|]. split; [left|]. discriminate.
Defined.
End Examples.
