(* ===== verification/Compiler.v ===== *)
(** * Namespace-scoped compilation

    Models [src/compiler/compiler.go], [normalize.go], [bundled.go] and [wellknown.go].
    protocompile (parser, linker, resolvers), SHA-256 and the bundled proto files are not
    part of the repository: they are the operations of the class [Toolchain]. Source text
    and hashes are byte strings. *)

From S2P Require Import Prelude GoStrings Descriptor Protobuf Snapshot.
From stdpp Require Import prelude gmap strings list sorting pretty.

Open Scope string_scope.

(** A parser diagnostic and a lexer token, as far as the code reads them. *)
Record Diagnostic := { diag_Level : Z; diag_Message : string }.
Record Token := { tok_IsSynthetic : bool; tok_IsSkippable : bool; tok_Text : string }.

(** A file and every file it imports, directly or not. *)
Fixpoint file_tree (fd : FileDescriptor) : list FileDescriptor :=
  fd :: flat_map file_tree (file_Imports fd).

(** One descriptor per path among the files and their imports. *)
Definition linked (l : list FileDescriptor) : Prop :=
  ∀ f g, f ∈ flat_map file_tree l → g ∈ flat_map file_tree l →
    file_Path f = file_Path g → f = g.

Class Toolchain `{Protodesc} := {
  (** [protocompile.SearchResult] and the result carrying a source text. *)
  SearchResult : Type;
  SourceResult : string → SearchResult;
  (** [parser.Parse]: the diagnostics reported and the token stream of the file. *)
  Parse : string → string → list Diagnostic * list Token;
  report_Error : Z;
  (** Hex-encoded SHA-256. *)
  sha256Hex : string → string;
  SourceAccessorFromMap : gmap string string → string → res string;
  (** A [SourceResolver] with its [Accessor], [None] when the field is left nil. *)
  SourceResolver : option (string → res string) → string → res SearchResult;
  CompositeResolver : list (string → res SearchResult) → string → res SearchResult;
  WithStandardImports : (string → res SearchResult) → string → res SearchResult;
  (** [protocompile.Compiler.Compile] under an optional deadline. *)
  protocompile_Compile :
    option Z → (string → res SearchResult) → list string → res (list FileDescriptor);
  (** [protos.Files.Open] of the bundled schemas. *)
  protos_Open : string → res string;
  GlobalFiles : Files }.

(** Documented behaviour of the resolvers: a source resolver returns what its accessor
    opens; a map accessor opens exactly its keys; a composite resolver returns the first
    success; the standard imports are consulted only when the wrapped resolver fails; the
    linker makes one descriptor per file. *)
Class ToolchainLaws `{Toolchain} : Prop := {
  SourceAccessorFromMap_spec m p :
    SourceAccessorFromMap m p = match m !! p with
                                | Some s => Ok s | None => Err (ErrSentinel ErrNotExist) end;
  SourceResolver_spec acc p :
    SourceResolver (Some acc) p = match acc p with Ok s => Ok (SourceResult s) | Err e => Err e end;
  CompositeResolver_nil p : is_ok (CompositeResolver [] p) = false;
  CompositeResolver_hit r rs p x : r p = Ok x → CompositeResolver (r :: rs) p = Ok x;
  CompositeResolver_miss r rs p e x :
    r p = Err e → CompositeResolver (r :: rs) p = Ok x ↔ CompositeResolver rs p = Ok x;
  WithStandardImports_hit r p x : r p = Ok x → WithStandardImports r p = Ok x;
  protocompile_linked deadline r names l :
    protocompile_Compile deadline r names = Ok l → linked l }.

Record FileResult := {
  fr_Filename : string; fr_BlobSHA256 : string; fr_OriginalSource : string }.

Record Dep := {
  DepNamespaceID : string; DepSchemaID : string; DepFilename : string; DepVersion : Z }.

Record DepSource := {
  ds_Namespace : string; ds_SchemaID : string; ds_Version : Z;
  ds_Filename : string; ds_Source : string }.

Record ChainTier := { ct_NamespaceID : string; ct_Files : list DepSource }.

Record Compiler := {
  c_timeout : Z; c_maxFileSourceBytes : Z; c_maxFiles : Z }.

(** Durations are in nanoseconds. *)
Definition DefaultCompileTimeout : Z := 30 * 10 ^ 9.
Definition DefaultMaxFileSourceBytes : Z := 8 * 1024 * 1024.
Definition DefaultMaxFiles : Z := 1000.

Definition CompilerOption : Type := Compiler → Compiler.

Definition WithTimeout (d : Z) : CompilerOption := λ c,
  {| c_timeout := d; c_maxFileSourceBytes := c_maxFileSourceBytes c;
     c_maxFiles := c_maxFiles c |}.
Definition WithMaxFileSourceBytes (n : Z) : CompilerOption := λ c,
  {| c_timeout := c_timeout c; c_maxFileSourceBytes := n; c_maxFiles := c_maxFiles c |}.
Definition WithMaxFiles (n : Z) : CompilerOption := λ c,
  {| c_timeout := c_timeout c; c_maxFileSourceBytes := c_maxFileSourceBytes c;
     c_maxFiles := n |}.

Definition NewCompiler (opts : list CompilerOption) : Compiler :=
  fold_left (λ c opt, opt c) opts
    {| c_timeout := DefaultCompileTimeout;
       c_maxFileSourceBytes := DefaultMaxFileSourceBytes;
       c_maxFiles := DefaultMaxFiles |}.

Definition toDep (d : DepSource) : Dep :=
  {| DepNamespaceID := ds_Namespace d; DepSchemaID := ds_SchemaID d;
     DepFilename := ds_Filename d; DepVersion := ds_Version d |}.

(** The closure [addFile] of [Compile]: the state is the set of paths seen and the list of
    descriptors appended so far; imports are added before the file itself. *)
Fixpoint addFile (st : gset string * list FileDescriptor) (fd : FileDescriptor)
    : gset string * list FileDescriptor :=
  if decide (file_Path fd ∈ st.1) then st
  else
    let st := fold_left addFile (file_Imports fd) ({[ file_Path fd ]} ∪ st.1, st.2) in
    (st.1, (st.2 ++ [fd])%list).

Definition addFiles (compiled : list FileDescriptor) : list FileDescriptor :=
  (fold_left addFile compiled (∅, [])).2.

(** [sortFileResults]. *)
Definition filename_le (a b : FileResult) : Prop := String.le (fr_Filename a) (fr_Filename b).
#[global] Instance filename_le_dec : RelDecision filename_le :=
  λ a b, String.le_dec (fr_Filename a) (fr_Filename b).
Definition sortFileResults (files : list FileResult) : list FileResult :=
  merge_sort filename_le files.

(** The text hashed by [ComputeFingerprint]: one line per file. *)
Definition fingerprintLine (f : FileResult) : string :=
  fr_Filename f +:+ ":" +:+ fr_BlobSHA256 f +:+ String newline "".
Definition fingerprintText (files : list FileResult) : string :=
  foldr (λ f s, fingerprintLine f +:+ s) "" (sortFileResults files).

Definition bundledImports : list string :=
  ["protowire/schema/v1/annotations.proto"; "pxf/annotations.proto"].

Section Compiler.
Context `{Toolchain, ProtoTypes, GoRange}.

Record CompileResult := {
  cr_Snapshot : Snapshot; cr_Compiled : string;
  cr_Files : list FileResult; cr_Deps : list Dep }.

(** [parseSource]: the first diagnostic at error level or worse is the error. *)
Definition parseSource (filename text : string) : res (list Token) :=
  let '(diags, toks) := Parse filename text in
  match list_find (λ d, (diag_Level d <= report_Error)%Z) diags with
  | Some (_, d) => Err (ErrNew (diag_Message d))
  | None => Ok toks
  end.

(** What [writeCanonical] writes for the token stream. *)
Fixpoint writeCanonical (toks : list Token) : string :=
  match toks with
  | [] => ""
  | tok :: toks =>
     if tok_IsSynthetic tok || tok_IsSkippable tok then writeCanonical toks
     else if decide (tok_Text tok = "") then writeCanonical toks
     else tok_Text tok +:+ " " +:+ writeCanonical toks
  end.

Record NormalizeResult := { nr_SHA256 : string; nr_OriginalSource : string }.

Definition NormalizeAndHash (filename source : string) : res NormalizeResult :=
  match parseSource filename source with
  | Err e => Err (ErrWrap ("parsing " +:+ filename) e)
  | Ok file =>
     Ok {| nr_SHA256 := sha256Hex (writeCanonical file); nr_OriginalSource := source |}
  end.

Definition ComputeFingerprint (files : list FileResult) : string :=
  sha256Hex (fingerprintText files).

(** [sourceMapResolver]: the sources, then the dependencies in order, written into one map. *)
Definition mergeSources (sources : gmap string string) (deps : list DepSource)
    : gmap string string :=
  fold_left (λ m d, <[ds_Filename d := ds_Source d]> m) deps
    (fold_left (λ m kv, <[kv.1 := kv.2]> m) (go_range sources) ∅).

Definition sourceMapResolver (sources : gmap string string) (deps : list DepSource)
    : string → res SearchResult :=
  SourceResolver (Some (SourceAccessorFromMap (mergeSources sources deps))).

Definition bundledResolver : string → res SearchResult :=
  SourceResolver (Some (λ path,
    if decide (path ∈ bundledImports) then protos_Open path
    else Err (ErrSentinel ErrNotExist))).

Definition buildResolverChain (sources : gmap string string) (deps : list DepSource)
    (parentChain : list ChainTier) (builtins : list DepSource) : string → res SearchResult :=
  WithStandardImports (CompositeResolver
    (sourceMapResolver sources deps
     :: omap (λ tier, match ct_Files tier with
                      | [] => None
                      | files => Some (sourceMapResolver ∅ files)
                      end) parentChain
     ++ match builtins with [] => [] | _ => [sourceMapResolver ∅ builtins] end
     ++ [bundledResolver])%list).

(** The loop that normalizes and hashes each source. *)
Fixpoint normalizeAll (sources : list (string * string)) : res (list FileResult) :=
  match sources with
  | [] => Ok []
  | (filename, source) :: sources =>
     match NormalizeAndHash filename source with
     | Err e => Err (ErrWrap ("normalizing " +:+ filename) e)
     | Ok nr =>
        match normalizeAll sources with
        | Err e => Err e
        | Ok l => Ok ({| fr_Filename := filename; fr_BlobSHA256 := nr_SHA256 nr;
                         fr_OriginalSource := nr_OriginalSource nr |} :: l)
        end
     end
  end.

Definition Compile (c : Compiler) (version : Z) (sources : gmap string string)
    (deps : list DepSource) (parentChain : list ChainTier) (builtins : list DepSource)
    : res CompileResult :=
  if decide (0 < c_maxFiles c ∧ c_maxFiles c < Z.of_nat (size sources))%Z then
    Err (ErrNew ("too many files (" +:+ pretty (size sources) +:+ " > " +:+
                 pretty (c_maxFiles c) +:+ ")"))
  else
  match (if decide (0 < c_maxFileSourceBytes c)%Z then
           list_find (λ kv, (c_maxFileSourceBytes c < Z.of_nat (String.length kv.2))%Z)
                     (go_range sources)
         else None) with
  | Some (_, (filename, source)) =>
     Err (ErrNew ("source " +:+ quote filename +:+ " exceeds " +:+
       pretty (c_maxFileSourceBytes c) +:+ " byte limit (" +:+
       pretty (String.length source) +:+ " bytes)"))
  | None =>
  match normalizeAll (go_range sources) with
  | Err e => Err e
  | Ok fileResults =>
  let deadline := if decide (0 < c_timeout c)%Z then Some (c_timeout c) else None in
  match protocompile_Compile deadline (buildResolverChain sources deps parentChain builtins)
          (go_range sources).*1 with
  | Err e => Err (ErrWrap "compilation failed" e)
  | Ok compiled =>
  let fileDescriptors := addFiles compiled in
  match Marshal (ToFileDescriptorProto <$> fileDescriptors) with
  | Err e => Err (ErrWrap "serializing descriptor set" e)
  | Ok serialized =>
  match NewFromFiles version fileDescriptors with
  | Err e => Err (ErrWrap "building snapshot" e)
  | Ok snap =>
     Ok {| cr_Snapshot := snap; cr_Compiled := serialized; cr_Files := fileResults;
           cr_Deps := ((toDep <$> deps) ++
                       flat_map (λ tier, toDep <$> ct_Files tier) parentChain)%list |}
  end end end end end.

Definition IsWellKnownType (filename : string) : bool :=
  match Files_FindFileByPath GlobalFiles filename with
  | Ok _ => true
  | Err _ => is_ok (WithStandardImports (SourceResolver None) filename)
  end.

End Compiler.

(** ** A reference instance, for the witnesses

    A language in which every file compiles to an empty descriptor of its path, one token
    per file, and an injective stand-in for the hash. *)
Definition empty_file (path : string) : FileDescriptor := File path "" [] [] [] [] [].

Fixpoint first_success {A} (rs : list (string → res A)) (p : string) : res A :=
  match rs with
  | [] => Err (ErrSentinel ErrNotExist)
  | r :: rs => match r p with Ok x => Ok x | Err _ => first_success rs p end
  end.

Definition plain_toolchain : @Toolchain path_files self_desc := {|
  SearchResult := string;
  SourceResult s := s;
  Parse f s := ([], [{| tok_IsSynthetic := false; tok_IsSkippable := false; tok_Text := s |}]);
  report_Error := 2;
  sha256Hex s := s;
  SourceAccessorFromMap m p :=
    match m !! p with Some s => Ok s | None => Err (ErrSentinel ErrNotExist) end;
  SourceResolver acc p :=
    match acc with Some acc => acc p | None => Err (ErrSentinel ErrNotExist) end;
  CompositeResolver := first_success;
  WithStandardImports r := r;
  protocompile_Compile _ _ names := Ok (empty_file <$> names);
  protos_Open p := Ok "bundled";
  GlobalFiles := @Files_empty path_files |}.

Lemma plain_toolchain_laws : @ToolchainLaws _ _ plain_toolchain.
Proof.
  split; cbn; try done.
  - intros acc p. by destruct (acc p).
  - intros r rs p x Hr. by rewrite Hr.
  - intros r rs p e x Hr. by rewrite Hr.
  - intros _ r names l [= <-] f g Hf Hg Hp.
    assert (He : ∀ f, f ∈ flat_map file_tree (empty_file <$> names) → f = empty_file (file_Path f)).
    { clear. intros f. induction names as [|n names IH]; cbn; [by intros ?%elem_of_nil|].
      by intros [->|Hf]%elem_of_cons; [|apply IH]. }
    rewrite (He f Hf), (He g Hg). by rewrite Hp.
Qed.
