(* ===== verification/CompilerThms.v ===== *)
(** * Correctness of compilation

    The file list of a compiled schema is self-contained and in dependency order, imports
    resolve to the nearest tier that has the file, the source caps are enforced, and the
    fingerprint identifies the set of (file name, content hash) pairs. *)

From S2P Require Import Prelude GoStrings Descriptor Protobuf Snapshot Compiler.
From stdpp Require Import prelude gmap strings list sorting pretty.

Open Scope string_scope.
Open Scope nat_scope.

(** ** The transitive file list *)

Fixpoint file_size (fd : FileDescriptor) : nat :=
  S (list_sum (file_size <$> file_Imports fd)).

Lemma elem_of_flat_map {A B} (f : A → list B) l y :
  y ∈ flat_map f l ↔ ∃ x, x ∈ l ∧ y ∈ f x.
Proof.
  rewrite list_elem_of_In, in_flat_map. setoid_rewrite list_elem_of_In. done.
Qed.

Lemma elem_of_file_tree f fd :
  f ∈ file_tree fd ↔ f = fd ∨ ∃ i, i ∈ file_Imports fd ∧ f ∈ file_tree i.
Proof. destruct fd; cbn. by rewrite elem_of_cons, elem_of_flat_map. Qed.

Lemma elem_of_list_sum {A} (g : A → nat) l x : x ∈ l → g x ≤ list_sum (g <$> l).
Proof.
  induction l as [|y l IH]; [by intros ?%elem_of_nil|].
  change (list_sum (g <$> y :: l)) with (g y + list_sum (g <$> l)).
  intros [->|Hx]%elem_of_cons; [lia|]. specialize (IH Hx). lia.
Qed.

Lemma import_size fd i : i ∈ file_Imports fd → file_size i < file_size fd.
Proof.
  intros Hi%(elem_of_list_sum file_size).
  assert (file_size fd = S (list_sum (file_size <$> file_Imports fd))) as -> by by destruct fd.
  lia.
Qed.

Lemma file_tree_size fd f : f ∈ file_tree fd → file_size f ≤ file_size fd.
Proof.
  induction fd as [p pk imps ms es xs ss IH] using file_ind. rewrite Forall_forall in IH.
  intros [->|(i & Hi & Hf)]%elem_of_file_tree; [done|].
  specialize (IH i Hi Hf). apply import_size in Hi. lia.
Qed.

Lemma import_tree_not_self fd i : i ∈ file_Imports fd → fd ∉ file_tree i.
Proof.
  intros Hi%import_size Hf%file_tree_size. lia.
Qed.

Lemma file_tree_trans fd f g : f ∈ file_tree fd → g ∈ file_tree f → g ∈ file_tree fd.
Proof.
  revert f g. induction fd as [p pk imps ms es xs ss IH] using file_ind.
  rewrite Forall_forall in IH. intros f g [->|(i & Hi & Hf)]%elem_of_file_tree Hg; [done|].
  apply elem_of_file_tree. right. exists i. eauto.
Qed.

(** Imports come before the files that need them, and no path occurs twice. *)
Definition topological (L : list FileDescriptor) : Prop :=
  NoDup (file_Path <$> L) ∧
  ∀ i f, L !! i = Some f →
    ∀ g, g ∈ file_Imports f → ∃ j, (j < i)%nat ∧ L !! j = Some g.

Lemma topological_nil : topological [].
Proof. split; [constructor|]. intros i f Hf. by rewrite lookup_nil in Hf. Qed.

Lemma topological_snoc L fd :
  topological L → file_Path fd ∉ file_Path <$> L → (∀ g, g ∈ file_Imports fd → g ∈ L) →
  topological (L ++ [fd])%list.
Proof.
  intros [Hnd Ht] Hfd Himp. split.
  - rewrite fmap_app. apply NoDup_app. split_and!; [done| |apply NoDup_singleton].
    intros p Hp ->%list_elem_of_singleton. done.
  - intros i f [Hf|[Hlen Hf]]%lookup_app_Some g Hg.
    + destruct (Ht i f Hf g Hg) as (j & Hj & HL). exists j. split; [done|].
      by apply lookup_app_l_Some.
    + apply list_lookup_singleton_Some in Hf as [Hi <-].
      apply Himp, list_elem_of_lookup in Hg as [j Hj]. exists j. split.
      * apply lookup_lt_Some in Hj. lia.
      * by apply lookup_app_l_Some.
Qed.

Lemma addFile_unfold st fd :
  addFile st fd =
    if decide (file_Path fd ∈ st.1) then st
    else let st := fold_left addFile (file_Imports fd) ({[ file_Path fd ]} ∪ st.1, st.2) in
         (st.1, (st.2 ++ [fd])%list).
Proof. by destruct fd. Qed.

(** What one [addFile] call does: [stack] holds the paths of the files whose imports are
    being walked. *)
Record added (U : list FileDescriptor) (stack : gset string)
    (fds : list FileDescriptor) (L : list FileDescriptor)
    (st : gset string * list FileDescriptor) : Prop := {
  ad_seen : st.1 = list_to_set (file_Path <$> st.2) ∪ stack;
  ad_topo : topological st.2;
  ad_sub f : f ∈ st.2 → f ∈ U;
  ad_keep f : f ∈ L → f ∈ st.2;
  ad_new f : f ∈ st.2 → f ∈ L ∨ f ∈ flat_map file_tree fds;
  ad_has f : f ∈ fds → f ∈ st.2 }.

Section closure.
Context (U : list FileDescriptor)
  (HU : ∀ f g, f ∈ U → g ∈ U → file_Path f = file_Path g → f = g).

(** A walk over a list of files, from the effect of each call. *)
Lemma fold_addFile_added fds stack L :
  (∀ fd, fd ∈ fds → ∀ stack st,
     (∀ g, g ∈ file_tree fd → g ∈ U ∧ file_Path g ∉ stack) →
     added U stack [] st.2 st → added U stack [fd] st.2 (addFile st fd)) →
  (∀ g, g ∈ flat_map file_tree fds → g ∈ U ∧ file_Path g ∉ stack) →
  ∀ st, st.2 = L → added U stack [] L st → added U stack fds L (fold_left addFile fds st).
Proof.
  revert L. induction fds as [|fd fds IH]; intros L Hone Htree st HL Hst; [done|].
  cbn [fold_left].
  assert (H1 : added U stack [fd] st.2 (addFile st fd)).
  { apply Hone; [left| |by rewrite HL]. intros g Hg. apply Htree.
    cbn. apply elem_of_app. by left. }
  destruct H1 as [S1 T1 B1 K1 N1 H1].
  destruct (IH (addFile st fd).2 ltac:(intros; apply Hone; [by right|done..])
    ltac:(intros g Hg; apply Htree; cbn; apply elem_of_app; by right) (addFile st fd)
    eq_refl) as [S2 T2 B2 K2 N2 H2]; [split; try done; auto; set_solver|].
  split; [done..| | |].
  - intros f Hf. apply K2, K1. by rewrite HL.
  - intros f [Hf|Hf]%N2.
    + apply N1 in Hf as [Hf|Hf]; [left; by rewrite <-HL|right].
      cbn in *. rewrite app_nil_r in Hf. apply elem_of_app. by left.
    + right. cbn. apply elem_of_app. by right.
  - intros f [->|Hf]%elem_of_cons; [|auto]. apply K2, H1. left.
Qed.

Lemma addFile_added fd stack st :
  (∀ g, g ∈ file_tree fd → g ∈ U ∧ file_Path g ∉ stack) →
  added U stack [] st.2 st → added U stack [fd] st.2 (addFile st fd).
Proof.
  revert stack st. induction fd as [p pk imps ms es xs ss IH] using file_ind.
  rewrite Forall_forall in IH. set (fd := File p pk imps ms es xs ss) in *.
  intros stack [seen L] Htree [Hseen Htopo Hsub _ _ _]. cbn [fst snd] in *.
  destruct (Htree fd) as [HfdU Hfdst]; [apply elem_of_file_tree; by left|].
  rewrite addFile_unfold. cbn [fst snd]. destruct (decide (file_Path fd ∈ seen)) as [Hin|Hnew].
  - (* already listed *)
    split; cbn; try done; auto.
    intros f ->%list_elem_of_singleton. rewrite Hseen in Hin.
    apply elem_of_union in Hin as [Hin|]; [|done].
    apply elem_of_list_to_set, list_elem_of_fmap in Hin as (g & Hp & Hg). cbn.
    by rewrite (HU fd g) by auto.
  - set (stack' := {[ file_Path fd ]} ∪ stack).
    assert (Hne : ∀ i g, i ∈ imps → g ∈ file_tree i → g ∈ U ∧ file_Path g ∉ stack').
    { intros i g Hi Hg. destruct (Htree g) as [HgU Hgst].
      { apply elem_of_file_tree. right. eauto. }
      split; [done|]. unfold stack'. apply not_elem_of_union. split; [|done].
      intros E%elem_of_singleton. assert (g = fd) as -> by auto.
      by apply (import_tree_not_self fd i). }
    destruct (fold_addFile_added imps stack' L) with (st := ({[ file_Path fd ]} ∪ seen, L))
      as [S1 T1 B1 K1 N1 H1]; [by intros; apply IH| |done| |].
    + intros g (i & Hi & Hg)%elem_of_flat_map. eauto.
    + split; cbn; try done; auto; [|set_solver]. rewrite Hseen. unfold stack'. set_solver.
    + change (file_Imports fd) with imps. cbn [fst snd] in *.
      set (st := fold_left addFile imps _) in *.
      split; cbn.
      * rewrite S1, fmap_app, list_to_set_app_L. cbn. unfold stack'. set_solver.
      * apply topological_snoc; [done| |exact H1].
        intros (g & Hp & [Hg|Hg]%N1)%list_elem_of_fmap.
        -- apply Hnew. rewrite Hseen, Hp. apply elem_of_union_l, elem_of_list_to_set.
           by apply list_elem_of_fmap_2.
        -- apply elem_of_flat_map in Hg as (i & Hi & Hg).
           destruct (Hne i g Hi Hg) as [_ Hst]. apply Hst. unfold stack'. set_solver.
      * intros f [Hf|Hf]%elem_of_app; [auto|]. by apply list_elem_of_singleton in Hf as ->.
      * intros f Hf. apply elem_of_app. auto.
      * intros f [[Hf|Hf]%N1|Hf]%elem_of_app; [auto| |].
        -- right. rewrite app_nil_r. apply elem_of_cons. by right.
        -- right. apply list_elem_of_singleton in Hf as ->. rewrite app_nil_r. left.
      * intros f ->%list_elem_of_singleton. apply elem_of_app. right. left.
Qed.
End closure.

Lemma addFiles_spec compiled :
  linked compiled →
  topological (addFiles compiled) ∧
  ∀ f, f ∈ addFiles compiled ↔ f ∈ flat_map file_tree compiled.
Proof.
  intros HU. unfold addFiles. set (U := flat_map file_tree compiled) in *.
  destruct (fold_addFile_added U HU compiled ∅ []) with (st := (∅ : gset string, @nil FileDescriptor))
    as [S1 T1 B1 K1 N1 H1]; [|set_solver|done| |].
  - intros fd _. by apply addFile_added.
  - split; cbn; try done; try set_solver. apply topological_nil.
  - set (L := (fold_left addFile compiled (∅, [])).2) in *. split; [done|].
    intros f. split; [apply B1|].
    assert (Hclosed : ∀ fd, fd ∈ L → ∀ g, g ∈ file_tree fd → g ∈ L).
    { intros fd. induction fd as [p pk imps ms es xs ss IH] using file_ind.
      rewrite Forall_forall in IH. intros Hfd g [->|(i & Hi & Hg)]%elem_of_file_tree; [done|].
      apply list_elem_of_lookup in Hfd as [k Hk].
      destruct (proj2 T1 k _ Hk i Hi) as (j & _ & Hj). cbn in Hi.
      apply (IH i Hi); [by eapply list_elem_of_lookup_2|done]. }
    unfold U. intros (fd & Hfd & Hf)%elem_of_flat_map. apply (Hclosed fd); auto.
Qed.

(** ** Fingerprints *)

#[global] Instance filename_le_total : Total filename_le.
Proof. intros a b. apply String.le_total. Qed.
#[global] Instance filename_le_trans : Transitive filename_le.
Proof. intros a b c. apply (transitivity (R := String.le)). Qed.

(** A string without line breaks. *)
Fixpoint single_line (s : string) : Prop :=
  match s with
  | EmptyString => True
  | String c s => c ≠ newline ∧ single_line s
  end.

Lemma line_cancel a b r r' :
  single_line a → single_line b →
  a +:+ String newline r = b +:+ String newline r' → a = b ∧ r = r'.
Proof.
  revert b. induction a as [|c a IH]; intros [|d b]; cbn; autorewrite with str.
  - by intros _ _ [= ->].
  - intros _ [Hd _] [= Hc _]. by symmetry in Hc.
  - intros [Hc _] _ [= Hd _]. done.
  - intros [_ Ha] [_ Hb] [= -> H]. by destruct (IH b Ha Hb H) as [-> ->].
Qed.

Lemma single_line_app a b : single_line (a +:+ b) ↔ single_line a ∧ single_line b.
Proof. str_induction a; [naive_solver|]. rewrite IH. naive_solver. Qed.

(** An entry whose line in the hashed text can be told apart: no line break in the file name
    (nothing in the code refuses one) or in the hash, and hashes of one length, as SHA-256
    has them. *)
Definition entry_ok (n : nat) (f : FileResult) : Prop :=
  single_line (fr_Filename f) ∧ single_line (fr_BlobSHA256 f) ∧
  String.length (fr_BlobSHA256 f) = n.

Definition entry (f : FileResult) : string * string := (fr_Filename f, fr_BlobSHA256 f).

Lemma str_app_inj_suffix a b s s' :
  String.length s = String.length s' → a +:+ s = b +:+ s' → a = b ∧ s = s'.
Proof.
  intros Hl E. apply str_app_inj_r; [|done].
  apply (f_equal String.length) in E. rewrite !length_str_app in E. lia.
Qed.

Lemma fingerprintLine_app f r :
  fingerprintLine f +:+ r =
    ((fr_Filename f +:+ ":") +:+ fr_BlobSHA256 f) +:+ String newline r.
Proof. unfold fingerprintLine. by rewrite !str_app_assoc. Qed.

Lemma lines_entries l :
  foldr (λ f s, fingerprintLine f +:+ s) "" l =
  foldr (λ e s, (e.1 +:+ ":" +:+ e.2 +:+ String newline "") +:+ s) "" (entry <$> l).
Proof. induction l as [|f l IH]; [done|]. cbn. by rewrite IH. Qed.

Lemma fingerprintLine_inj n f g r r' :
  entry_ok n f → entry_ok n g →
  fingerprintLine f +:+ r = fingerprintLine g +:+ r' → entry f = entry g ∧ r = r'.
Proof.
  intros (Hf & Hfh & Hfl) (Hg & Hgh & Hgl). rewrite !fingerprintLine_app.
  intros [E ->]%line_cancel; [|by rewrite !single_line_app..].
  apply str_app_inj_suffix in E as [E Eh]; [|congruence].
  apply str_app_inj_suffix in E as [E _]; [|done].
  unfold entry. by rewrite E, Eh.
Qed.

Lemma lines_inj n l l' :
  Forall (entry_ok n) l → Forall (entry_ok n) l' →
  foldr (λ f s, fingerprintLine f +:+ s) "" l = foldr (λ f s, fingerprintLine f +:+ s) "" l' →
  entry <$> l = entry <$> l'.
Proof.
  intros Hl. revert l'. induction Hl as [|f l Hf Hl IH]; intros l' Hl' E.
  - destruct Hl' as [|g l' Hg Hl']; [done|]. cbn in E. apply (f_equal String.length) in E.
    rewrite length_str_app in E. unfold fingerprintLine in E.
    rewrite !length_str_app in E. cbn in E. lia.
  - destruct Hl' as [|g l' Hg Hl'].
    + cbn in E. apply (f_equal String.length) in E. rewrite length_str_app in E.
      unfold fingerprintLine in E. rewrite !length_str_app in E. cbn in E. lia.
    + cbn in E. destruct (fingerprintLine_inj n f g _ _ Hf Hg E) as [Ef Er].
      rewrite !fmap_cons, Ef. f_equal. by apply IH.
Qed.

Lemma sorted_entries l l' :
  (entry <$> l) ≡ₚ (entry <$> l') → NoDup (fr_Filename <$> l) →
  entry <$> sortFileResults l = entry <$> sortFileResults l'.
Proof.
  intros Hp Hnd. set (R := λ a b : string * string, String.le a.1 b.1).
  assert (Hs : ∀ l, StronglySorted R (entry <$> sortFileResults l)).
  { intros k. pose proof (StronglySorted_merge_sort filename_le k) as Hk.
    fold (sortFileResults k) in Hk. induction Hk as [|f k' Hk IH Hf]; cbn; constructor; [done|].
    apply Forall_fmap. exact Hf. }
  assert (Hp' : (entry <$> sortFileResults l) ≡ₚ (entry <$> sortFileResults l')).
  { unfold sortFileResults. by rewrite !merge_sort_Permutation. }
  apply (StronglySorted_unique_strong R); [|done..].
  intros [a1 a2] [b1 b2] Ha Hb Hab Hba. assert (a1 = b1) as <-.
  { by apply (anti_symm String.le). }
  assert (Hnd' : NoDup (entry <$> sortFileResults l).*1).
  { rewrite <-list_fmap_compose. unfold sortFileResults. by rewrite merge_sort_Permutation. }
  rewrite <-Hp' in Hb. clear -Ha Hb Hnd'. revert Ha Hb Hnd'.
  generalize (entry <$> sortFileResults l) as k. intros k.
  induction k as [|[x y] k IH]; [by intros ?%elem_of_nil|].
  rewrite fmap_cons, NoDup_cons. intros Ha Hb [Hx Hk].
  apply elem_of_cons in Ha as [Ha|Ha]; apply elem_of_cons in Hb as [Hb|Hb].
  all: try (injection Ha as -> ->); try (injection Hb as -> ->).
  all: try done; try (by apply IH); destruct Hx.
  - by apply (list_elem_of_fmap_2 fst) in Hb.
  - by apply (list_elem_of_fmap_2 fst) in Ha.
Qed.

Lemma sorted_two f g : filename_le f g → merge_sort filename_le [f; g] = [f; g].
Proof. intros Hfg. cbn. by rewrite decide_True. Qed.

Section Compiler.
Context `{Toolchain, ProtoTypes, GoRange}.

(** A file whose name holds the line of another file. *)
Definition joined (f g : FileResult) : FileResult :=
  {| fr_Filename := fr_Filename f +:+ ":" +:+ fr_BlobSHA256 f +:+ String newline (fr_Filename g);
     fr_BlobSHA256 := fr_BlobSHA256 g; fr_OriginalSource := fr_OriginalSource g |}.

Lemma joined_collides f g :
  filename_le f g → ComputeFingerprint [f; g] = ComputeFingerprint [joined f g].
Proof.
  intros Hfg. unfold ComputeFingerprint, fingerprintText, sortFileResults. f_equal.
  rewrite (sorted_two f g) by done. cbn. unfold fingerprintLine, joined. cbn [fr_Filename fr_BlobSHA256].
  by rewrite !str_app_assoc.
Qed.

(** C33. Two submissions whose file names have no line break and are distinct have the same
    fingerprint exactly when they consist of the same (file name, content hash) pairs, in
    whatever order the files are listed. This needs that the hashes have one length and that
    the two texts hashed do not collide under SHA-256. Without the condition on line breaks
    it fails: a file name can contain the line of another file, and then one file and two
    files are hashed as the same text. *)
Theorem ComputeFingerprint_identifies n (l l' : list FileResult) :
  Forall (entry_ok n) l → Forall (entry_ok n) l' → NoDup (fr_Filename <$> l) →
  (sha256Hex (fingerprintText l) = sha256Hex (fingerprintText l') →
     fingerprintText l = fingerprintText l') →
  (ComputeFingerprint l = ComputeFingerprint l' ↔ (entry <$> l) ≡ₚ (entry <$> l')) ∧
  ∀ f g, filename_le f g →
    ComputeFingerprint [f; g] = ComputeFingerprint [joined f g].
Proof.
  intros Hl Hl' Hnd Hcoll. split; [|intros f g Hfg; by apply joined_collides].
  unfold ComputeFingerprint. split.
  - intros E%Hcoll%(lines_inj n);
      [|unfold sortFileResults; by rewrite merge_sort_Permutation..].
    rewrite <-(merge_sort_Permutation filename_le l), <-(merge_sort_Permutation filename_le l').
    fold (sortFileResults l) (sortFileResults l'). by rewrite E.
  - intros Hp. f_equal. pose proof (sorted_entries l l' Hp Hnd) as E.
    unfold fingerprintText.
    by rewrite !lines_entries, E.
Qed.
(** ** Import resolution *)

Lemma fold_insert_range (m : gmap string string) :
  fold_left (λ m kv, <[kv.1 := kv.2]> m) (go_range m) ∅ =@{gmap string string} m.
Proof.
  assert (Hg : ∀ (l : list (string * string)) (m0 : gmap string string), NoDup l.*1 →
    fold_left (λ m kv, <[kv.1 := kv.2]> m) l m0 = list_to_map l ∪ m0).
  { induction l as [|[k v] l IH]; intros m0; cbn; [by rewrite (left_id_L ∅ (∪))|].
    rewrite NoDup_cons. intros [Hk Hl]. rewrite IH by done.
    rewrite <-insert_union_l, insert_union_r; [done|]. by apply not_elem_of_list_to_map_1. }
  rewrite Hg by apply NoDup_fst_go_range.
  by rewrite list_to_map_go_range, (right_id_L ∅ (∪)).
Qed.

(** The merged map of a tier: the last dependency with the name, else the source. *)
Lemma mergeSources_lookup sources deps p :
  mergeSources sources deps !! p =
    match find_by ds_Filename p (reverse deps) with
    | Some d => Some (ds_Source d)
    | None => sources !! p
    end.
Proof.
  unfold mergeSources. rewrite fold_insert_range.
  induction deps as [|d deps IH] using rev_ind; [done|].
  rewrite fold_left_app, reverse_snoc. cbn. rewrite lookup_insert.
  case_decide; [done|]. exact IH.
Qed.

Context {Laws : ToolchainLaws}.

Lemma sourceMapResolver_spec sources deps p :
  sourceMapResolver sources deps p =
    match mergeSources sources deps !! p with
    | Some s => Ok (SourceResult s)
    | None => Err (ErrSentinel ErrNotExist)
    end.
Proof.
  unfold sourceMapResolver. rewrite SourceResolver_spec, SourceAccessorFromMap_spec.
  by destruct (mergeSources sources deps !! p).
Qed.

(** The content of a file in the first of a list of tiers that has it. *)
Fixpoint first_tier (tiers : list (gmap string string)) (p : string) : option string :=
  match tiers with
  | [] => None
  | m :: tiers => match m !! p with Some s => Some s | None => first_tier tiers p end
  end.

(** The tiers in resolution order: the schema's own files and its dependencies in the
    namespace, the ancestors from the nearest, the built-ins. *)
Definition chain_tiers (sources : gmap string string) (deps : list DepSource)
    (parentChain : list ChainTier) (builtins : list DepSource) : list (gmap string string) :=
  (mergeSources sources deps ::
   (mergeSources ∅ <$> ((ct_Files <$> parentChain) ++ [builtins])))%list.

Lemma composite_map sources deps rs p x :
  CompositeResolver (sourceMapResolver sources deps :: rs) p = Ok x ↔
  match mergeSources sources deps !! p with
  | Some s => x = SourceResult s
  | None => CompositeResolver rs p = Ok x
  end.
Proof.
  pose proof (sourceMapResolver_spec sources deps p) as E.
  destruct (mergeSources sources deps !! p).
  - rewrite (CompositeResolver_hit _ _ _ _ E). naive_solver.
  - by rewrite (CompositeResolver_miss _ _ _ _ x E).
Qed.

(** Dropping the tiers without files changes nothing. *)
Definition nonempty_tier (files : list DepSource) : option (string → res SearchResult) :=
  match files with [] => None | _ => Some (sourceMapResolver ∅ files) end.

Lemma composite_tiers (files : list (list DepSource)) rs p x :
  CompositeResolver (omap nonempty_tier files ++ rs)%list p = Ok x ↔
  match first_tier (mergeSources ∅ <$> files) p with
  | Some s => x = SourceResult s
  | None => CompositeResolver rs p = Ok x
  end.
Proof.
  induction files as [|fs files IH]; [done|].
  rewrite fmap_cons. cbn [first_tier omap list_omap]. destruct fs as [|d fs].
  - rewrite mergeSources_lookup. exact IH.
  - cbn [nonempty_tier app]. rewrite composite_map.
    destruct (mergeSources ∅ (d :: fs) !! p); [done|exact IH].
Qed.

Lemma chain_composite sources deps parentChain builtins p x :
  match first_tier (chain_tiers sources deps parentChain builtins) p with
  | Some s => x = SourceResult s
  | None => bundledResolver p = Ok x
  end →
  buildResolverChain sources deps parentChain builtins p = Ok x.
Proof.
  intros Hx. apply WithStandardImports_hit. rewrite composite_map. revert Hx.
  unfold chain_tiers. cbn [first_tier].
  destruct (mergeSources sources deps !! p); [done|]. intros Hx.
  assert (E : (omap (λ tier, match ct_Files tier with
                      | [] => None
                      | files => Some (sourceMapResolver ∅ files)
                      end) parentChain
     ++ match builtins with [] => [] | _ => [sourceMapResolver ∅ builtins] end
     ++ [bundledResolver])%list =
    (omap nonempty_tier ((ct_Files <$> parentChain) ++ [builtins]) ++ [bundledResolver])%list).
  { rewrite omap_app, <-app_assoc. f_equal; [|by destruct builtins].
    clear Hx. induction parentChain as [|t chain IH]; [done|]. cbn. by destruct (ct_Files t); cbn; rewrite IH. }
  rewrite E, composite_tiers. destruct (first_tier _ p); [done|].
  by apply CompositeResolver_hit.
Qed.

(** An import resolves to the first tier that has a file of that name: the schema's
    own namespace, then the ancestors from nearest to farthest, then the built-ins; a
    bundled schema is used only when no tier has the name. *)
Theorem buildResolverChain_first_match sources deps parentChain builtins p s :
  first_tier (chain_tiers sources deps parentChain builtins) p = Some s ∨
  (first_tier (chain_tiers sources deps parentChain builtins) p = None ∧
   p ∈ bundledImports ∧ protos_Open p = Ok s) →
  buildResolverChain sources deps parentChain builtins p = Ok (SourceResult s).
Proof.
  intros [Hs|(Hs & Hb & Ho)]; apply chain_composite; rewrite Hs; [done|].
  unfold bundledResolver. rewrite SourceResolver_spec, decide_True by done. by rewrite Ho.
Qed.

(** ** The result of [Compile] *)

Lemma normalizeAll_spec l frs :
  normalizeAll l = Ok frs →
  fr_Filename <$> frs = l.*1 ∧
  ∀ fr, fr ∈ frs → ∃ nr, (fr_Filename fr, fr_OriginalSource fr) ∈ l ∧
    NormalizeAndHash (fr_Filename fr) (fr_OriginalSource fr) = Ok nr ∧
    fr_BlobSHA256 fr = nr_SHA256 nr.
Proof.
  revert frs. induction l as [|[f s] l IH]; intros frs; cbn; [intros [= <-]; set_solver|].
  destruct (NormalizeAndHash f s) as [nr|] eqn:E; [|done].
  destruct (normalizeAll l) as [frs'|]; [|done]. intros [= <-].
  destruct (IH frs' eq_refl) as [Hn Hin].
  assert (Ho : nr_OriginalSource nr = s).
  { unfold NormalizeAndHash in E. destruct (parseSource f s); [|done]. by injection E as <-. }
  split; [by rewrite fmap_cons, Hn|].
  intros fr [->|Hfr]%elem_of_cons; cbn.
  - exists nr. rewrite Ho. split_and!; [left|done..].
  - destruct (Hin fr Hfr) as (nr' & ? & ? & ?). exists nr'. split_and!; [by right|done..].
Qed.

(** The stages a successful compilation went through. *)
Lemma Compile_inv c v sources deps chain builtins r :
  Compile c v sources deps chain builtins = Ok r →
  ((0 < c_maxFiles c)%Z → (Z.of_nat (size sources) <= c_maxFiles c)%Z) ∧
  ((0 < c_maxFileSourceBytes c)%Z → ∀ f s, sources !! f = Some s →
     (Z.of_nat (String.length s) <= c_maxFileSourceBytes c)%Z) ∧
  normalizeAll (go_range sources) = Ok (cr_Files r) ∧
  ∃ deadline compiled,
    protocompile_Compile deadline (buildResolverChain sources deps chain builtins)
      (go_range sources).*1 = Ok compiled ∧
    Marshal (ToFileDescriptorProto <$> addFiles compiled) = Ok (cr_Compiled r) ∧
    NewFromFiles v (addFiles compiled) = Ok (cr_Snapshot r) ∧
    cr_Deps r = ((toDep <$> deps) ++ flat_map (λ tier, toDep <$> ct_Files tier) chain)%list.
Proof.
  unfold Compile. case_decide as Hn; [done|].
  destruct (if decide (0 < c_maxFileSourceBytes c)%Z then _ else None) as [[? []]|] eqn:Es;
    [done|].
  destruct (normalizeAll (go_range sources)) as [frs|] eqn:En; [|done].
  destruct (protocompile_Compile _ _ _) as [compiled|] eqn:Ec; [|done].
  destruct (Marshal _) as [ser|] eqn:Em; [|done].
  destruct (NewFromFiles v _) as [snap|] eqn:Ef; [|done]. intros [= <-].
  split_and!; cbn; [lia| |done|eauto 10].
  intros Hpos f s Hs. rewrite decide_True in Es by done.
  apply list_find_None in Es. rewrite Forall_forall in Es.
  specialize (Es (f, s)). rewrite elem_of_go_range in Es. specialize (Es Hs). cbn in Es. lia.
Qed.

(** The file results are the submitted files, each once. *)
Lemma Compile_files c v sources deps chain builtins r :
  Compile c v sources deps chain builtins = Ok r →
  fr_Filename <$> cr_Files r = (go_range sources).*1 ∧
  (∀ fr, fr ∈ cr_Files r → sources !! fr_Filename fr = Some (fr_OriginalSource fr)) ∧
  ∀ f s, sources !! f = Some s → ∃ nr, NormalizeAndHash f s = Ok nr ∧
    {| fr_Filename := f; fr_BlobSHA256 := nr_SHA256 nr; fr_OriginalSource := s |} ∈ cr_Files r.
Proof.
  intros (_ & _ & Hnorm & _)%Compile_inv.
  destruct (normalizeAll_spec _ _ Hnorm) as [Hnames Hin].
  assert (Hlook : ∀ fr, fr ∈ cr_Files r → sources !! fr_Filename fr = Some (fr_OriginalSource fr)).
  { intros fr (nr & Hl & _)%Hin. by apply elem_of_go_range in Hl. }
  split_and!; [done..|]. intros f s Hs.
  assert (Hf : f ∈ fr_Filename <$> cr_Files r).
  { rewrite Hnames. apply list_elem_of_fmap. exists (f, s). by rewrite elem_of_go_range. }
  apply list_elem_of_fmap in Hf as ([f' h s'] & -> & Hfr). cbn in *.
  pose proof (Hlook _ Hfr) as Hs'. cbn in Hs'.
  destruct (Hin _ Hfr) as (nr & _ & Hnr & Hh). cbn in *.
  assert (s' = s) as -> by congruence. exists nr. by subst h.
Qed.

(** C32. A successful compilation accepted no more files and no larger file than the caps
    allow, and its file results are the submitted files, each once, with the hash of its
    own normalized text. *)
Theorem Compile_respects_caps c v sources deps chain builtins r :
  Compile c v sources deps chain builtins = Ok r →
  ((0 < c_maxFiles c)%Z → (Z.of_nat (length (cr_Files r)) <= c_maxFiles c)%Z) ∧
  NoDup (fr_Filename <$> cr_Files r) ∧
  ((0 < c_maxFileSourceBytes c)%Z → ∀ fr, fr ∈ cr_Files r →
     (Z.of_nat (String.length (fr_OriginalSource fr)) <= c_maxFileSourceBytes c)%Z) ∧
  ∀ f s, sources !! f = Some s ↔
    ∃ nr, NormalizeAndHash f s = Ok nr ∧
      {| fr_Filename := f; fr_BlobSHA256 := nr_SHA256 nr; fr_OriginalSource := s |}
        ∈ cr_Files r.
Proof.
  intros Hr. destruct (Compile_files _ _ _ _ _ _ _ Hr) as (Hnames & Hlook & Hfiles).
  apply Compile_inv in Hr as (Hn & Hb & _). split_and!.
  - intros Hpos. specialize (Hn Hpos). rewrite <-length_go_range in Hn.
    apply (f_equal length) in Hnames. rewrite !length_fmap in Hnames. lia.
  - rewrite Hnames. apply NoDup_fst_go_range.
  - intros Hpos fr Hfr. apply (Hb Hpos (fr_Filename fr)). auto.
  - intros f s. split; [apply Hfiles|]. intros (nr & _ & Hfr). apply (Hlook _ Hfr).
Qed.

(** A file of another schema of the namespace hides the schema's own file of the same
    name: the compiler is given the dependency's text, while the schema's own text is the
    one that is hashed and returned for storage. *)
Theorem dependency_hides_own_source c v sources deps chain builtins r p own d :
  Compile c v sources deps chain builtins = Ok r →
  sources !! p = Some own → d ∈ deps → ds_Filename d = p →
  (∀ d', d' ∈ deps → ds_Filename d' = p → d' = d) →
  buildResolverChain sources deps chain builtins p = Ok (SourceResult (ds_Source d)) ∧
  ∃ fr, fr ∈ cr_Files r ∧ fr_Filename fr = p ∧ fr_OriginalSource fr = own.
Proof.
  intros Hr Hown Hd Hp Huniq. split.
  - apply chain_composite. unfold chain_tiers. cbn. rewrite mergeSources_lookup.
    destruct (find_by ds_Filename p (reverse deps)) as [d'|] eqn:E.
    + apply find_by_Some in E as [Hd' Hp']. rewrite elem_of_reverse in Hd'.
      by rewrite (Huniq d').
    + rewrite find_by_None in E. destruct (E d); [by rewrite elem_of_reverse|done].
  - destruct (Compile_files _ _ _ _ _ _ _ Hr) as (_ & _ & Hfiles).
    destruct (Hfiles p own Hown) as (nr & _ & Hfr). eexists. by split.
Qed.

(** C31. The descriptor set of a compiled schema is self-contained: it lists the files the
    linker returned and everything they import, each once, every import before the files
    that need it, and the stored bytes and the snapshot are made from this one list. *)
Theorem Compile_self_contained c v sources deps chain builtins r :
  Compile c v sources deps chain builtins = Ok r →
  let L := FileDescriptors (cr_Snapshot r) in
  topological L ∧
  (∀ f g, f ∈ L → g ∈ file_tree f → g ∈ L) ∧
  Marshal (ToFileDescriptorProto <$> L) = Ok (cr_Compiled r) ∧
  ∃ deadline compiled,
    protocompile_Compile deadline (buildResolverChain sources deps chain builtins)
      (go_range sources).*1 = Ok compiled ∧
    ∀ f, f ∈ L ↔ f ∈ flat_map file_tree compiled.
Proof.
  intros (_ & _ & _ & deadline & compiled & Hc & Hm & Hs & _)%Compile_inv L.
  assert (L = addFiles compiled) as ->.
  { unfold L, NewFromFiles in *. destruct (foldM _ _ _) as [[]|]; [|done].
    by injection Hs as <-. }
  destruct (addFiles_spec compiled) as [Ht Hin]; [by eapply protocompile_linked|].
  split_and!; [done| |done|eauto].
  intros f g Hf Hg. rewrite Hin in *. apply elem_of_flat_map in Hf as (fd & Hfd & Hf).
  apply elem_of_flat_map. exists fd. split; [done|]. by eapply file_tree_trans.
Qed.

End Compiler.

Module Examples.
#[local] Existing Instance path_files.
#[local] Existing Instance name_types.
#[local] Existing Instance self_desc.
#[local] Existing Instance plain_toolchain.
#[local] Existing Instance range_default.

Definition fr (f h : string) : FileResult :=
  {| fr_Filename := f; fr_BlobSHA256 := h; fr_OriginalSource := "" |}.

Lemma ComputeFingerprint_identifies_witness :
  ComputeFingerprint [fr "a" "0"; fr "b" "1"] = ComputeFingerprint [fr "b" "1"; fr "a" "0"].
Proof.
  destruct (ComputeFingerprint_identifies 1 [fr "a" "0"; fr "b" "1"] [fr "b" "1"; fr "a" "0"]) as [Hid _].
  - repeat (apply Forall_cons; split); try apply Forall_nil_2; vm_compute; repeat split; discriminate.
  - repeat (apply Forall_cons; split); try apply Forall_nil_2; vm_compute; repeat split; discriminate.
  - apply (bool_decide_unpack _). vm_compute. exact I.
  - intros E. exact E.
  - apply Hid, Permutation_swap.
Defined.

Definition own : gmap string string := {[ "a.proto" := "mine" ]}.
Definition other : DepSource :=
  {| ds_Namespace := "ns"; ds_SchemaID := "other"; ds_Version := 1;
     ds_Filename := "a.proto"; ds_Source := "theirs" |}.

Lemma buildResolverChain_first_match_witness :
  buildResolverChain own [] [{| ct_NamespaceID := "base"; ct_Files := [other] |}] [] "a.proto"
    = Ok (SourceResult "mine").
Proof.
  apply (buildResolverChain_first_match (Laws := plain_toolchain_laws)).
  left. vm_compute. reflexivity.
Defined.

Definition ex_result (deps : list DepSource) : CompileResult :=
  from_ok {| cr_Snapshot := {| snap_version := 0; snap_files := Files_empty;
                               snap_types := Types_empty; snap_fileList := [] |};
             cr_Compiled := ""; cr_Files := []; cr_Deps := [] |}
    (Compile (NewCompiler []) 1 own deps [] []).

Lemma ex_result_ok deps :
  is_ok (Compile (NewCompiler []) 1 own deps [] []) = true →
  Compile (NewCompiler []) 1 own deps [] [] = Ok (ex_result deps).
Proof. apply from_ok_spec. Qed.

Lemma Compile_respects_caps_witness :
  (Z.of_nat (length (cr_Files (ex_result []))) <= 1000)%Z.
Proof.
  destruct (Compile_respects_caps (Laws := plain_toolchain_laws) (NewCompiler []) 1 own
    [] [] [] (ex_result [])) as [Hcap _].
  - apply ex_result_ok. vm_compute. reflexivity.
  - apply Hcap. reflexivity.
Defined.

Lemma dependency_hides_own_source_witness :
  buildResolverChain own [other] [] [] "a.proto" = Ok (SourceResult "theirs").
Proof.
  apply (dependency_hides_own_source (Laws := plain_toolchain_laws) (NewCompiler []) 1 own [other] [] []
    (ex_result [other]) "a.proto" "mine" other).
  - apply ex_result_ok. vm_compute. reflexivity.
  - vm_compute. reflexivity.
  - left.
  - reflexivity.
  - intros d' Hd' _. by apply list_elem_of_singleton in Hd'.
Defined.

Lemma Compile_self_contained_witness :
  topological (FileDescriptors (cr_Snapshot (ex_result []))).
Proof.
  apply (Compile_self_contained (Laws := plain_toolchain_laws) (NewCompiler []) 1 own [] [] []).
  apply ex_result_ok. vm_compute. reflexivity.
Defined.
End Examples.
