(* ===== verification/Namespace.v ===== *)
(** * In-memory namespaces

    Models [src/namespace/namespace.go]. The registry never drops a namespace and keeps one
    object per identifier, so a [*Namespace] pointer is its identifier in a heap
    [gmap string Namespace]; a parent pointer is the identifier of the parent. The atomic
    pointers of a slot are the two fields of [schemaSlot]; an operation is one sequential
    step (writers are serialized by the caller, as the source states). *)

From S2P Require Import Prelude GoStrings Descriptor Protobuf Snapshot.
From stdpp Require Import prelude gmap strings list.

Open Scope string_scope.
Open Scope nat_scope.

Section Namespace.
Context `{ProtoTypes, ProtoFiles, GoRange}.

Record schemaSlot := { slot_current : option Snapshot; slot_staged : option Snapshot }.

Record Namespace := {
  ns_id : string; ns_parent : option string; ns_schemas : gmap string schemaSlot }.

(** [namespace.Registry]. *)
Definition Registry : Type := gmap string Namespace.

Definition newNamespace (id : string) : Namespace :=
  {| ns_id := id; ns_parent := None; ns_schemas := ∅ |}.

Definition Get (r : gmap string Namespace) (id : string) : option Namespace := r !! id.

(** [GetOrCreate]: the namespace and the registry it leaves. *)
Definition GetOrCreate (r : gmap string Namespace) (id : string)
    : Namespace * gmap string Namespace :=
  match r !! id with
  | Some ns => (ns, r)
  | None => (newNamespace id, <[id := newNamespace id]> r)
  end.

(** [Registry.Range]: the namespaces in the order of the map walk. *)
Definition rangeNamespaces (r : gmap string Namespace) : list Namespace := (go_range r).*2.

Definition SetParent (parent : option string) (ns : Namespace) : Namespace :=
  {| ns_id := ns_id ns; ns_parent := parent; ns_schemas := ns_schemas ns |}.

Definition with_schemas (ns : Namespace) (m : gmap string schemaSlot) : Namespace :=
  {| ns_id := ns_id ns; ns_parent := ns_parent ns; ns_schemas := m |}.

Definition chainMaxDepth : nat := 64.

(** The loop of [Chain]; [fuel] is [chainMaxDepth - len(chain)]. *)
Fixpoint chainLoop (r : gmap string Namespace) (fuel : nat) (seen : gset string)
    (cur : option string) : list Namespace :=
  match fuel, cur with
  | S fuel, Some id =>
     if decide (id ∈ seen) then []
     else match r !! id with
          | Some ns => ns :: chainLoop r fuel ({[ id ]} ∪ seen) (ns_parent ns)
          | None => []
          end
  | _, _ => []
  end.

Definition Chain (r : gmap string Namespace) (id : string) : list Namespace :=
  chainLoop r chainMaxDepth ∅ (Some id).

Definition getSlot (ns : Namespace) (schemaID : string) : option schemaSlot :=
  ns_schemas ns !! schemaID.

Definition getOrCreateSlot (ns : Namespace) (schemaID : string) : schemaSlot :=
  default {| slot_current := None; slot_staged := None |} (ns_schemas ns !! schemaID).

Definition Current (ns : Namespace) (schemaID : string) : option Snapshot :=
  getSlot ns schemaID ≫= slot_current.

Definition Staged (ns : Namespace) (schemaID : string) : option Snapshot :=
  getSlot ns schemaID ≫= slot_staged.

(** The returned snapshot is the previous one. *)
Definition SetCurrent (schemaID : string) (snap : option Snapshot) (ns : Namespace)
    : option Snapshot * Namespace :=
  let slot := getOrCreateSlot ns schemaID in
  (slot_current slot,
   with_schemas ns (<[schemaID := {| slot_current := snap; slot_staged := slot_staged slot |}]>
                      (ns_schemas ns))).

Definition SetStaged (schemaID : string) (snap : option Snapshot) (ns : Namespace)
    : Namespace :=
  let slot := getOrCreateSlot ns schemaID in
  with_schemas ns (<[schemaID := {| slot_current := slot_current slot; slot_staged := snap |}]>
                     (ns_schemas ns)).

(** The callback of [Promote] on one slot. *)
Definition promoteSlot (slot : schemaSlot) : schemaSlot :=
  {| slot_current := match slot_staged slot with
                     | Some s => Some s | None => slot_current slot end;
     slot_staged := None |}.

Definition PromoteNs (ns : Namespace) : list string * Namespace :=
  (omap (λ kv, match slot_staged kv.2 with Some _ => Some kv.1 | None => None end)
        (go_range (ns_schemas ns)),
   with_schemas ns (promoteSlot <$> ns_schemas ns)).

Definition DiscardStagingNs (ns : Namespace) : Namespace :=
  with_schemas ns
    ((λ slot, {| slot_current := slot_current slot; slot_staged := None |}) <$>
       ns_schemas ns).

Definition AllCurrent (ns : Namespace) : gmap string Snapshot :=
  omap slot_current (ns_schemas ns).

(** Staged if available, otherwise current. *)
Definition proposedSlot (slot : schemaSlot) : option Snapshot :=
  match slot_staged slot with Some s => Some s | None => slot_current slot end.

Definition ProposedView (ns : Namespace) : gmap string Snapshot :=
  omap proposedSlot (ns_schemas ns).

Definition SchemaIDs (ns : Namespace) : list string := (go_range (ns_schemas ns)).*1.

Definition Namespace_String (ns : Namespace) : string := "namespace(" +:+ ns_id ns +:+ ")".

(** ** Invariant of the registry: objects are filed under their identifier and parent
    pointers lead to objects of the registry. *)
Record mem_wf (r : gmap string Namespace) : Prop := {
  mw_id id ns : r !! id = Some ns → ns_id ns = id;
  mw_parent id ns p : r !! id = Some ns → ns_parent ns = Some p → is_Some (r !! p) }.

Lemma mem_wf_empty : mem_wf ∅.
Proof. split; intros * Hl; by rewrite lookup_empty in Hl. Qed.

Lemma mem_wf_GetOrCreate r id : mem_wf r → mem_wf (GetOrCreate r id).2.
Proof.
  intros [Hid Hp]. unfold GetOrCreate. destruct (r !! id) eqn:E; [by split|]. cbn. split.
  - intros i ns [[<- <-]|[_ ?]]%lookup_insert_Some; [done|eauto].
  - intros i ns p [[<- <-]|[Hne Hi]]%lookup_insert_Some Hpar; [done|].
    rewrite lookup_insert. case_decide; eauto.
Qed.

(** An update of one namespace that keeps its identifier and points to a known parent. *)
Lemma mem_wf_update r id ns ns' :
  mem_wf r → r !! id = Some ns → ns_id ns' = ns_id ns →
  (∀ p, ns_parent ns' = Some p → is_Some (r !! p)) → mem_wf (<[id := ns']> r).
Proof.
  intros [Hid Hp] Hns Hi Hpar. split.
  - intros i n [[<- <-]|[_ ?]]%lookup_insert_Some; [rewrite Hi|]; eauto.
  - intros i n p [[<- <-]|[Hne Hl]]%lookup_insert_Some Hn; rewrite lookup_insert;
      case_decide; eauto.
Qed.

End Namespace.
