(* ===== verification/NamespaceThms.v ===== *)
(** * Correctness of the in-memory namespaces

    The resolution chain is finite, duplicate-free and follows parent pointers; on a
    hierarchy of at most [chainMaxDepth] levels it is the whole path to the root. Promotion
    makes exactly the proposed view current; discarding staging makes the current view the
    proposed one. *)

From S2P Require Import Prelude GoStrings Descriptor Protobuf Snapshot Namespace.
From stdpp Require Import prelude gmap strings list.

Open Scope string_scope.
Open Scope nat_scope.

Section Namespace.
Context `{ProtoTypes, ProtoFiles, GoRange}.
Implicit Types (r : gmap string Namespace) (ns : Namespace).

(** ** The resolution chain *)

Lemma chainLoop_length r fuel seen cur : length (chainLoop r fuel seen cur) ≤ fuel.
Proof.
  revert seen cur. induction fuel as [|fuel IH]; intros seen [id|]; cbn; try lia.
  case_decide; cbn; [lia|]. destruct (r !! id) as [ns|]; cbn; [|lia].
  specialize (IH ({[id]} ∪ seen) (ns_parent ns)). lia.
Qed.

Lemma chainLoop_fresh r fuel seen cur :
  mem_wf r → NoDup (ns_id <$> chainLoop r fuel seen cur) ∧
  ∀ ns, ns ∈ chainLoop r fuel seen cur → ns_id ns ∉ seen ∧ r !! ns_id ns = Some ns.
Proof.
  intros Hr. revert seen cur. induction fuel as [|fuel IH]; intros seen cur; cbn;
    [split; [constructor|set_solver]|].
  destruct cur as [id|]; cbn; [|split; [constructor|set_solver]].
  case_decide as Hseen; [split; [constructor|set_solver]|].
  destruct (r !! id) as [ns|] eqn:E; [|split; [constructor|set_solver]].
  destruct (IH ({[id]} ∪ seen) (ns_parent ns)) as [Hnd Hfresh].
  pose proof (mw_id r Hr _ _ E) as Hid. split.
  - rewrite fmap_cons, NoDup_cons. split; [|done].
    intros (ns' & Heq & Hin)%list_elem_of_fmap. destruct (Hfresh ns' Hin) as [Hn _].
    apply Hn. set_solver.
  - intros ns' [->|Hin]%elem_of_cons; [by rewrite Hid|].
    destruct (Hfresh ns' Hin). set_solver.
Qed.

(** The walk follows parent pointers, and stops only at a root, at a namespace already
    visited, or at the depth bound. *)
Lemma chainLoop_links r fuel seen cur i a :
  mem_wf r → chainLoop r fuel seen cur !! i = Some a →
  match chainLoop r fuel seen cur !! S i with
  | Some b => ns_parent a = Some (ns_id b)
  | None => S i = fuel ∨
     ∀ p, ns_parent a = Some p → p ∈ seen ∨ p ∈ (ns_id <$> chainLoop r fuel seen cur)
  end.
Proof.
  intros Hr. revert seen cur i. induction fuel as [|fuel IH]; intros seen cur i; [done|].
  destruct cur as [id|]; [|done]. cbn [chainLoop].
  case_decide as Hs; [done|]. destruct (r !! id) as [ns|] eqn:E; [|done].
  pose proof (mw_id r Hr _ _ E) as Hid. destruct i as [|i]; cbn [lookup list_lookup].
  - intros [= <-]. destruct fuel as [|fuel]; cbn [chainLoop]; [by left|].
    destruct (ns_parent ns) as [p|] eqn:Ep; cbn; [|by right].
    case_decide as Hp; cbn; [right; set_solver|].
    destruct (mw_parent r Hr _ _ _ E Ep) as [b Hb]. rewrite Hb. cbn.
    by rewrite (mw_id r Hr _ _ Hb).
  - intros Ha. specialize (IH _ _ _ Ha). destruct (_ !! S i); [done|].
    destruct IH as [->|Hp]; [by left|]. right. intros p Hpar.
    rewrite fmap_cons. specialize (Hp p Hpar). set_solver.
Qed.

(** The resolution chain of a namespace starts with it, follows parent pointers, has
    no namespace twice and at most 64 entries; it ends at a root, at the depth bound, or
    where the pointers lead back into the chain. So the walk terminates on every heap, a
    cyclic one included. *)
Theorem Chain_spec r id ns :
  mem_wf r → r !! id = Some ns →
  let c := Chain r id in
  c !! 0 = Some ns ∧ length c ≤ 64 ∧ NoDup (ns_id <$> c) ∧
  (∀ i a, c !! i = Some a → r !! ns_id a = Some a) ∧
  (∀ i a b, c !! i = Some a → c !! S i = Some b → ns_parent a = Some (ns_id b)) ∧
  (∀ a, last c = Some a →
     ns_parent a = None ∨ length c = 64 ∨ ∃ p, ns_parent a = Some p ∧ p ∈ (ns_id <$> c)).
Proof.
  intros Hr Hns c. destruct (chainLoop_fresh r 64 ∅ (Some id) Hr) as [Hnd Hin].
  fold chainMaxDepth in Hnd, Hin. fold (Chain r id) in Hnd, Hin. fold c in Hnd, Hin.
  split_and!; [|apply chainLoop_length|done| | |].
  - unfold c, Chain. cbn [chainLoop chainMaxDepth]. by rewrite Hns.
  - intros i a Ha. apply Hin. by eapply list_elem_of_lookup_2.
  - intros i a b Ha Hb. pose proof (chainLoop_links r 64 ∅ (Some id) i a Hr Ha) as Hl.
    fold chainMaxDepth in Hl. fold (Chain r id) in Hl. fold c in Hl. by rewrite Hb in Hl.
  - intros a Ha. rewrite last_lookup in Ha.
    pose proof (chainLoop_links r 64 ∅ (Some id) _ a Hr Ha) as Hl.
    fold chainMaxDepth in Hl. fold (Chain r id) in Hl. fold c in Hl.
    assert (0 < length c) by (apply lookup_lt_Some in Ha; lia).
    rewrite (lookup_ge_None_2 c (S _)) in Hl by lia.
    destruct Hl as [Hl|Hl]; [right; left; unfold chainMaxDepth in Hl; lia|].
    destruct (ns_parent a) as [p|]; [|by left].
    destruct (Hl p eq_refl); [set_solver|]. eauto.
Qed.

(** The path from a namespace to its root. *)
Inductive root_path r : string → list Namespace → Prop :=
  | root_path_root id ns :
     r !! id = Some ns → ns_parent ns = None → root_path r id [ns]
  | root_path_step id ns p l :
     r !! id = Some ns → ns_parent ns = Some p → root_path r p l → root_path r id (ns :: l).

Lemma root_path_unique r id l l' : root_path r id l → root_path r id l' → l = l'.
Proof.
  intros Hl. revert l'. induction Hl as [id ns Hns Hp|id ns p l Hns Hp Hl IH];
    intros l' Hl'; inversion Hl'; simplify_eq; [done|]. f_equal. auto.
Qed.

Lemma root_path_suffix r id l ns :
  mem_wf r → root_path r id l → ns ∈ l → ∃ l', root_path r (ns_id ns) l' ∧ length l' ≤ length l.
Proof.
  intros Hr. induction 1 as [id a Ha Hp|id a p l Ha Hp Hl IH].
  - intros ->%list_elem_of_singleton. exists [a]. rewrite (mw_id r Hr _ _ Ha).
    split; [by constructor|done].
  - intros [->|Hin]%elem_of_cons.
    + exists (a :: l). rewrite (mw_id r Hr _ _ Ha). split; [by econstructor|done].
    + destruct (IH Hin) as (l' & ? & ?). exists l'. cbn. split; [done|lia].
Qed.

Lemma chainLoop_root_path r id l fuel seen :
  mem_wf r → root_path r id l → length l ≤ fuel → (∀ ns, ns ∈ l → ns_id ns ∉ seen) →
  chainLoop r fuel seen (Some id) = l.
Proof.
  intros Hr Hl. revert fuel seen.
  induction Hl as [id ns Hns Hp|id ns p l Hns Hp Hl IH]; intros fuel seen Hf Hseen;
    pose proof (mw_id r Hr _ _ Hns) as Hid; destruct fuel as [|fuel]; cbn in Hf; try lia;
    cbn [chainLoop]; (rewrite decide_False by (rewrite <-Hid; apply Hseen; left));
    rewrite Hns, Hp.
  - by destruct fuel.
  - f_equal. apply IH; [lia|]. intros ns' Hin.
    apply not_elem_of_union. split; [|apply Hseen; by right].
    intros E%elem_of_singleton. destruct (root_path_suffix r p l ns' Hr Hl Hin) as (l' & Hl' & Hle).
    rewrite E in Hl'.
    assert (l' = ns :: l) as -> by (eapply root_path_unique; [done|by econstructor]).
    cbn in Hle. lia.
Qed.

(** On a hierarchy of at most 64 levels the chain is the whole path from the namespace
    to its root, nearest first. *)
Theorem Chain_complete r id l :
  mem_wf r → root_path r id l → length l ≤ 64 → Chain r id = l.
Proof.
  intros Hr Hl Hlen. unfold Chain. apply chainLoop_root_path; [done..|]. set_solver.
Qed.

(** ** Snapshots of a namespace *)

Lemma lookup_AllCurrent ns sid : AllCurrent ns !! sid = Current ns sid.
Proof. unfold AllCurrent, Current, getSlot. apply lookup_omap. Qed.

Lemma lookup_ProposedView ns sid :
  ProposedView ns !! sid = match Staged ns sid with Some s => Some s | None => Current ns sid end.
Proof.
  unfold ProposedView, Staged, Current, getSlot. rewrite lookup_omap.
  by destruct (ns_schemas ns !! sid).
Qed.

Lemma Current_PromoteNs ns sid :
  Current (PromoteNs ns).2 sid =
    match Staged ns sid with Some s => Some s | None => Current ns sid end.
Proof.
  unfold PromoteNs, Current, Staged, getSlot. cbn. rewrite lookup_fmap.
  by destruct (ns_schemas ns !! sid) as [[? []]|].
Qed.

Lemma Staged_PromoteNs ns sid : Staged (PromoteNs ns).2 sid = None.
Proof.
  unfold PromoteNs, Staged, getSlot. cbn. rewrite lookup_fmap.
  by destruct (ns_schemas ns !! sid).
Qed.

Lemma Current_DiscardStagingNs ns sid : Current (DiscardStagingNs ns) sid = Current ns sid.
Proof.
  unfold DiscardStagingNs, Current, getSlot. cbn. rewrite lookup_fmap.
  by destruct (ns_schemas ns !! sid).
Qed.

Lemma Staged_DiscardStagingNs ns sid : Staged (DiscardStagingNs ns) sid = None.
Proof.
  unfold DiscardStagingNs, Staged, getSlot. cbn. rewrite lookup_fmap.
  by destruct (ns_schemas ns !! sid).
Qed.

Lemma Current_SetCurrent sid snap ns sid' :
  Current (SetCurrent sid snap ns).2 sid' = if decide (sid = sid') then snap else Current ns sid'.
Proof.
  unfold SetCurrent, Current, getSlot. cbn. rewrite lookup_insert. by case_decide.
Qed.

Lemma Staged_SetCurrent sid snap ns sid' :
  Staged (SetCurrent sid snap ns).2 sid' = Staged ns sid'.
Proof.
  unfold SetCurrent, Staged, getSlot, getOrCreateSlot. cbn. rewrite lookup_insert.
  case_decide; [subst|done]. by destruct (ns_schemas ns !! sid').
Qed.

Lemma Current_SetStaged sid snap ns sid' :
  Current (SetStaged sid snap ns) sid' = Current ns sid'.
Proof.
  unfold SetStaged, Current, getSlot, getOrCreateSlot. cbn. rewrite lookup_insert.
  case_decide; [subst|done]. by destruct (ns_schemas ns !! sid').
Qed.

Lemma Staged_SetStaged sid snap ns sid' :
  Staged (SetStaged sid snap ns) sid' = if decide (sid = sid') then snap else Staged ns sid'.
Proof.
  unfold SetStaged, Staged, getSlot. cbn. rewrite lookup_insert. by case_decide.
Qed.

#[local] Hint Rewrite lookup_AllCurrent lookup_ProposedView Current_PromoteNs Staged_PromoteNs
  Current_DiscardStagingNs Staged_DiscardStagingNs Current_SetStaged Staged_SetStaged
  Current_SetCurrent Staged_SetCurrent : slots.

(** Promotion makes the proposed view current, whatever was staged: afterwards the
    current view, and the proposed view, are the proposed view before, nothing is staged,
    and the identifiers returned are those of the schemas that had a staged version. *)
Theorem PromoteNs_installs_proposed ns :
  AllCurrent (PromoteNs ns).2 = ProposedView ns ∧
  ProposedView (PromoteNs ns).2 = ProposedView ns ∧
  (∀ sid, Staged (PromoteNs ns).2 sid = None) ∧
  (∀ sid, sid ∈ (PromoteNs ns).1 ↔ is_Some (Staged ns sid)) ∧ NoDup (PromoteNs ns).1.
Proof.
  split_and!.
  - apply map_eq. intros sid. by autorewrite with slots.
  - apply map_eq. intros sid. by autorewrite with slots.
  - apply Staged_PromoteNs.
  - intros sid. cbn. rewrite list_elem_of_omap. unfold Staged, getSlot.
    setoid_rewrite elem_of_go_range'. split.
    + intros ([k slot] & Hk & E). cbn in *. destruct (slot_staged slot) eqn:Es; [|done].
      injection E as <-. rewrite Hk. cbn. by rewrite Es.
    + destruct (ns_schemas ns !! sid) as [slot|] eqn:E; [|by intros [? ?]].
      cbn. intros [s Hs]. exists (sid, slot). cbn. by rewrite Hs.
  - cbn. pose proof (NoDup_fst_go_range (ns_schemas ns)) as Hnd. revert Hnd.
    induction (go_range (ns_schemas ns)) as [|[k slot] l IH]; cbn; [constructor|].
    rewrite NoDup_cons. intros [Hk Hl]. destruct (slot_staged slot); [|auto].
    apply NoDup_cons. split; [|auto]. rewrite list_elem_of_omap.
    intros ([k' slot'] & Hin & E). cbn in E. destruct (slot_staged slot'); [|done].
    injection E as ->. apply Hk. by apply (list_elem_of_fmap_2 fst) in Hin.
Qed.

(** Discarding staging leaves every current snapshot and makes the current view the
    proposed one; a promotion after it promotes nothing. *)
Theorem DiscardStagingNs_reverts ns :
  AllCurrent (DiscardStagingNs ns) = AllCurrent ns ∧
  ProposedView (DiscardStagingNs ns) = AllCurrent ns ∧
  (PromoteNs (DiscardStagingNs ns)).1 = [].
Proof.
  split_and!.
  - apply map_eq. intros sid. by autorewrite with slots.
  - apply map_eq. intros sid. by autorewrite with slots.
  - destruct (PromoteNs (DiscardStagingNs ns)).1 as [|sid l] eqn:E; [done|]. exfalso.
    assert (Hin : sid ∈ (PromoteNs (DiscardStagingNs ns)).1) by (rewrite E; left).
    cbn in Hin. rewrite list_elem_of_omap in Hin. setoid_rewrite elem_of_go_range' in Hin.
    destruct Hin as ([k slot] & Hk & Hs). cbn in *. rewrite lookup_fmap in Hk.
    destruct (ns_schemas ns !! k); [|done]. by injection Hk as <-.
Qed.

End Namespace.

Module Examples.
#[local] Existing Instance path_files.
#[local] Existing Instance name_types.

Definition node (id : string) (parent : option string) : Namespace :=
  {| ns_id := id; ns_parent := parent; ns_schemas := ∅ |}.
Definition heap : gmap string Namespace :=
  {[ "team" := node "team" (Some "org"); "org" := node "org" None ]}.

Lemma heap_wf : mem_wf heap.
Proof.
  assert (Hl : ∀ id ns, heap !! id = Some ns →
    (id = "team" ∧ ns = node "team" (Some "org")) ∨ (id = "org" ∧ ns = node "org" None)).
  { intros id ns Hns. unfold heap in Hns.
    apply lookup_insert_Some in Hns as [[<- <-]|[_ Hns]]; [auto|].
    apply lookup_singleton_Some in Hns as [<- <-]. auto. }
  split.
  - by intros id ns [[-> ->]|[-> ->]]%Hl.
  - intros id ns p [[-> ->]|[-> ->]]%Hl; [|done]. intros [= <-]. by eexists.
Qed.

Lemma Chain_spec_witness : Chain heap "team" !! 0 = Some (node "team" (Some "org")).
Proof. apply (Chain_spec heap "team"); [apply heap_wf|reflexivity]. Defined.

Lemma Chain_complete_witness :
  Chain heap "team" = [node "team" (Some "org"); node "org" None].
Proof.
  apply Chain_complete; [apply heap_wf| |cbn; lia].
  apply (root_path_step _ _ _ "org"); [reflexivity|reflexivity|].
  apply root_path_root; reflexivity.
Defined.
End Examples.
