(* ===== verification/Resolve.v ===== *)
(** * Type resolution over the namespace hierarchy

    Models [src/resolve/resolve.go]: lookups over the current snapshots of a namespace and,
    on a miss, of its ancestors. A resolver is the identifier of its namespace; the heap is
    read at the time of the call, so a swapped snapshot is seen at once. *)

From S2P Require Import Prelude GoStrings Descriptor Protobuf Snapshot Namespace NamespaceThms.
From stdpp Require Import prelude gmap strings list.

Open Scope string_scope.

Section Resolve.
Context `{ProtoTypes, ProtoFiles, GoRange}.
Implicit Types (r : gmap string Namespace).

(** The inner loop over [ns.AllCurrent()]: the first snapshot whose lookup succeeds. *)
Fixpoint firstSnapshot {A} (find : Snapshot → res A) (snaps : list (string * Snapshot))
    : option A :=
  match snaps with
  | [] => None
  | (_, snap) :: snaps =>
     match find snap with Ok x => Some x | Err _ => firstSnapshot find snaps end
  end.

(** The outer loop over the chain. *)
Fixpoint firstInChain {A} (find : Snapshot → res A) (chain : list Namespace)
    : res (A * string) :=
  match chain with
  | [] => Err (ErrSentinel NotFound)
  | ns :: chain =>
     match firstSnapshot find (go_range (AllCurrent ns)) with
     | Some x => Ok (x, ns_id ns)
     | None => firstInChain find chain
     end
  end.

Definition FindFileByPathWithOrigin r (id path : string) : res (FileDescriptor * string) :=
  firstInChain (λ snap, Files_FindFileByPath (snap_files snap) path) (Chain r id).
Definition Resolver_FindFileByPath r (id path : string) : res FileDescriptor :=
  fst <$> FindFileByPathWithOrigin r id path.

Definition FindDescriptorByNameWithOrigin r (id name : string) : res (Descriptor * string) :=
  firstInChain (λ snap, Files_FindDescriptorByName (snap_files snap) name) (Chain r id).
Definition Resolver_FindDescriptorByName r (id name : string) : res Descriptor :=
  fst <$> FindDescriptorByNameWithOrigin r id name.

Definition FindMessageByNameWithOrigin r (id name : string)
    : res (MessageDescriptor * string) :=
  firstInChain (λ snap, Types_FindMessageByName (snap_types snap) name) (Chain r id).
Definition Resolver_FindMessageByName r (id name : string) : res MessageDescriptor :=
  fst <$> FindMessageByNameWithOrigin r id name.

Definition FindMessageByURLWithOrigin r (id url : string) : res (MessageDescriptor * string) :=
  firstInChain (λ snap, Types_FindMessageByURL (snap_types snap) url) (Chain r id).
Definition Resolver_FindMessageByURL r (id url : string) : res MessageDescriptor :=
  fst <$> FindMessageByURLWithOrigin r id url.

Definition FindExtensionByNameWithOrigin r (id name : string)
    : res (FieldDescriptor * string) :=
  firstInChain (λ snap, Types_FindExtensionByName (snap_types snap) name) (Chain r id).
Definition Resolver_FindExtensionByName r (id name : string) : res FieldDescriptor :=
  fst <$> FindExtensionByNameWithOrigin r id name.

Definition FindExtensionByNumberWithOrigin r (id message : string) (field : Z)
    : res (FieldDescriptor * string) :=
  firstInChain (λ snap, Types_FindExtensionByNumber (snap_types snap) message field)
    (Chain r id).
Definition Resolver_FindExtensionByNumber r (id message : string) (field : Z)
    : res FieldDescriptor :=
  fst <$> FindExtensionByNumberWithOrigin r id message field.

(** A dynamic message is represented by the descriptor of its type. *)
Definition Resolver_NewMessage r (id name : string) : res MessageDescriptor :=
  wrap ("message " +:+ name +:+ " not found in namespace " +:+ id +:+ " (or any ancestor)")
    (Resolver_FindMessageByName r id name).

Definition SchemaResolver_FindMessageByName (ns : Namespace) (schemaID name : string)
    : res MessageDescriptor :=
  match Current ns schemaID with
  | None => Err (ErrNew ("schema " +:+ schemaID +:+ " has no current version"))
  | Some snap => Types_FindMessageByName (snap_types snap) name
  end.
Definition SchemaResolver_NewMessage (ns : Namespace) (schemaID name : string)
    : res MessageDescriptor :=
  wrap ("message " +:+ name +:+ " not found in schema " +:+ schemaID)
    (SchemaResolver_FindMessageByName ns schemaID name).

(** ** Nearest namespace wins *)

(** Some current snapshot of the namespace answers the lookup with [x]. *)
Definition provides {A} (find : Snapshot → res A) (ns : Namespace) (x : A) : Prop :=
  ∃ sid snap, Current ns sid = Some snap ∧ find snap = Ok x.

Lemma firstSnapshot_Some {A} (find : Snapshot → res A) ns x :
  firstSnapshot find (go_range (AllCurrent ns)) = Some x → provides find ns x.
Proof.
  assert (Hin : ∀ l, firstSnapshot find l = Some x → ∃ kv, kv ∈ l ∧ find kv.2 = Ok x).
  { induction l as [|[k s] l IH]; cbn; [done|]. destruct (find s) eqn:E.
    - intros [= ->]. exists (k, s). split; [left|done].
    - intros (kv & ? & ?)%IH. exists kv. split; [by right|done]. }
  intros ([sid snap] & Hl & Hf)%Hin. apply elem_of_go_range in Hl.
  rewrite lookup_AllCurrent in Hl. by exists sid, snap.
Qed.

Lemma firstSnapshot_None {A} (find : Snapshot → res A) ns :
  firstSnapshot find (go_range (AllCurrent ns)) = None ↔ ∀ x, ¬ provides find ns x.
Proof.
  split.
  - intros Hn x (sid & snap & Hc & Hf). rewrite <-lookup_AllCurrent in Hc.
    apply elem_of_go_range in Hc. revert Hn Hc.
    induction (go_range (AllCurrent ns)) as [|[k s] l IH]; cbn; [by intros _ ?%elem_of_nil|].
    destruct (find s) eqn:E; [done|]. intros Hl [[= <- <-]|Hin]%elem_of_cons; [congruence|auto].
  - intros Hn. destruct (firstSnapshot _ _) as [x|] eqn:E; [|done].
    destruct (Hn x). by apply firstSnapshot_Some.
Qed.




(** A lookup in a namespace sees what was just promoted there: after a promotion, a
    message of a staged snapshot resolves in the namespace itself, in front of every
    ancestor. *)
Theorem Resolver_sees_promotion r id ns sid snap name md :
  mem_wf r → r !! id = Some ns → Staged ns sid = Some snap →
  Types_FindMessageByName (snap_types snap) name = Ok md →
  let r' := <[id := (PromoteNs ns).2]> r in
  ∃ md', FindMessageByNameWithOrigin r' id name = Ok (md', id) ∧
    provides (λ s, Types_FindMessageByName (snap_types s) name) (PromoteNs ns).2 md'.
Proof.
  intros Hr Hns Hst Hf r'. unfold FindMessageByNameWithOrigin, Chain.
  cbn [chainLoop chainMaxDepth]. rewrite decide_False by set_solver.
  unfold r' at 1. rewrite lookup_insert_eq. cbn [firstInChain].
  destruct (firstSnapshot _ (go_range (AllCurrent (PromoteNs ns).2))) as [md'|] eqn:E.
  - exists md'. split; [|by apply firstSnapshot_Some].
    cbn. by rewrite (mw_id r Hr _ _ Hns).
  - rewrite firstSnapshot_None in E. destruct (E md). exists sid, snap.
    by rewrite Current_PromoteNs, Hst.
Qed.

End Resolve.

Module Examples.
#[local] Existing Instance path_files.
#[local] Existing Instance name_types.
#[local] Existing Instance range_default.

Definition md : MessageDescriptor := Message "M" "p.M" [] [] [] [] [].
Definition snap : Snapshot :=
  {| snap_version := 1; snap_files := (∅ : gmap string FileDescriptor);
     snap_types := ({[ "p.M" := TMessage md ]} : gmap string RtType); snap_fileList := [] |}.
Definition ns : Namespace := SetStaged "s" (Some snap) (newNamespace "n").

Lemma Resolver_sees_promotion_witness :
  ∃ md', FindMessageByNameWithOrigin (<[ "n" := (PromoteNs ns).2]> {[ "n" := ns ]}) "n" "p.M"
    = Ok (md', "n").
Proof.
  destruct (Resolver_sees_promotion {[ "n" := ns ]} "n" ns "s" snap "p.M" md) as (md' & E & _).
  - split.
    + intros id m [<- <-]%lookup_singleton_Some. reflexivity.
    + intros id m p [<- <-]%lookup_singleton_Some. discriminate.
  - reflexivity.
  - reflexivity.
  - reflexivity.
  - exists md'. exact E.
Defined.
End Examples.
