(* ===== verification/Store.v ===== *)
(** * The persistence interface

    Models [src/store/store.go]: the records of the store package and the interface
    [store.Store] as a class of operations in the state-and-error monad, over any type of
    database states. [StoreLaws] states what the registry relies on, in terms of an
    abstract view of the database: the schemas that exist, and the current and staged
    version of each; [flaky] adds calls that fail before they have an effect. *)

From S2P Require Import Prelude.
From stdpp Require Import prelude gmap strings list sorting.

Record ProtoBlob := {
  pb_NamespaceID : string; pb_SHA256 : string; pb_OriginalSource : string;
  pb_SizeBytes : Z; pb_CreatedAt : Z }.

(** [store.Namespace]. *)
Record StoreNamespace := {
  sn_ID : string; sn_CreatedAt : Z; sn_DeletedAt : option Z;
  sn_Metadata : option (gmap string string); sn_ParentNamespaceID : option string }.

Record NamespaceParentEvent := {
  pe_ID : Z; pe_NamespaceID : string; pe_PreviousParentID : option string;
  pe_NewParentID : option string; pe_ActorID : string; pe_OccurredAt : Z }.

Record Schema := {
  sc_NamespaceID : string; sc_SchemaID : string; sc_CurrentVersion : option Z;
  sc_StagedVersion : option Z; sc_CreatedAt : Z; sc_DeletedAt : option Z;
  sc_Metadata : option (gmap string string) }.

Record SchemaVersion := {
  sv_NamespaceID : string; sv_SchemaID : string; sv_Version : Z; sv_Compiled : string;
  sv_CompilerVersion : string; sv_CreatedAt : Z; sv_CreatedBy : string;
  sv_DeletedAt : option Z; sv_Metadata : option (gmap string string) }.

Record VersionFile := {
  vf_NamespaceID : string; vf_SchemaID : string; vf_Version : Z;
  vf_Filename : string; vf_BlobSHA256 : string }.

Record VersionDep := {
  vd_NamespaceID : string; vd_SchemaID : string; vd_Version : Z;
  vd_DepNamespaceID : string; vd_DepSchemaID : string; vd_DepFilename : string;
  vd_DepVersion : Z }.

Record PromotedSchema := {
  ps_SchemaID : string; ps_PriorVersion : option Z; ps_CurrentVersion : Z }.

Record CurrentSchema := {
  cs_NamespaceID : string; cs_SchemaID : string; cs_Version : Z; cs_Compiled : string;
  cs_CompilerVersion : string; cs_Files : list VersionFile }.

(** [store.Store]; [S] is the database state. *)
Class Store (S : Type) := {
  store_PutBlob : ProtoBlob → M S unit;
  store_GetBlob : string → string → M S ProtoBlob;
  store_CreateNamespace : StoreNamespace → M S unit;
  store_GetNamespace : string → M S StoreNamespace;
  store_ListNamespaces : M S (list StoreNamespace);
  store_ListNamespacesPage : string → Z → M S (list StoreNamespace);
  store_SetNamespaceParent : string → option string → string → M S unit;
  store_RecordNamespaceParentEvent : NamespaceParentEvent → M S unit;
  store_ListNamespaceParentEvents : string → Z → M S (list NamespaceParentEvent);
  store_CreateSchema : Schema → M S unit;
  store_GetSchema : string → string → M S Schema;
  store_ListSchemas : string → M S (list Schema);
  store_ListSchemasPage : string → string → Z → M S (list Schema);
  store_PutVersion : SchemaVersion → list VersionFile → list VersionDep → M S unit;
  store_GetVersion : string → string → Z → M S SchemaVersion;
  store_GetVersionFiles : string → string → Z → M S (list VersionFile);
  store_GetVersionDeps : string → string → Z → M S (list VersionDep);
  store_ListVersions : string → string → M S (list Z);
  store_SetStaged : string → string → Z → M S unit;
  store_Promote : string → M S (list PromotedSchema);
  store_DiscardStaging : string → M S unit;
  store_LoadAllCurrent : M S (list CurrentSchema);
  store_LoadNamespaceCurrent : string → M S (list CurrentSchema);
  store_LoadNamespaceProposed : string → M S (list CurrentSchema) }.

(** The view of a database state the promises are about; schemas are named by namespace
    and schema identifier, versions by schema and number. [v_ok] is the invariant of the
    states the store produces. *)
Class StoreView (S : Type) := {
  v_ok : S → Prop;
  v_schemas : S → gset (string * string);
  v_versions : S → gset (string * string * Z);
  v_current : S → gmap (string * string) Z;
  v_staged : S → gmap (string * string) Z }.

(** A call that may add schemas and versions but moves no current or staged version. *)
Definition keeps_versions {S A} `{StoreView S} (m : M S A) : Prop :=
  ∀ s, v_ok s →
    v_ok (m s).2 ∧ v_current (m s).2 = v_current s ∧ v_staged (m s).2 = v_staged s ∧
    v_schemas s ⊆ v_schemas (m s).2 ∧ v_versions s ⊆ v_versions (m s).2.

(** A call that reads the database. *)
Definition reads {S A} (m : M S A) : Prop := ∀ s, (m s).2 = s.

(** The versions that are current in a namespace after promoting what is staged. *)
Definition promoted_view (ns : string) (staged current : gmap (string * string) Z)
    : gmap (string * string) Z :=
  filter (λ kv, kv.1.1 = ns) staged ∪ current.

Class StoreLaws (S : Type) `{Store S, StoreView S} : Prop := {
  reads_GetBlob ns h : reads (store_GetBlob ns h);
  reads_GetNamespace id : reads (store_GetNamespace id);
  reads_ListNamespaces : reads store_ListNamespaces;
  reads_GetSchema ns sc : reads (store_GetSchema ns sc);
  reads_GetVersion ns sc v : reads (store_GetVersion ns sc v);
  reads_GetVersionFiles ns sc v : reads (store_GetVersionFiles ns sc v);
  reads_GetVersionDeps ns sc v : reads (store_GetVersionDeps ns sc v);
  reads_ListVersions ns sc : reads (store_ListVersions ns sc);
  reads_LoadAllCurrent : reads store_LoadAllCurrent;
  reads_LoadNamespaceCurrent ns : reads (store_LoadNamespaceCurrent ns);
  reads_LoadNamespaceProposed ns : reads (store_LoadNamespaceProposed ns);
  keeps_PutBlob b : keeps_versions (store_PutBlob b);
  keeps_CreateNamespace n : keeps_versions (store_CreateNamespace n);
  keeps_SetNamespaceParent id p a : keeps_versions (store_SetNamespaceParent id p a);
  keeps_CreateSchema sc : keeps_versions (store_CreateSchema sc);
  keeps_PutVersion v fs ds : keeps_versions (store_PutVersion v fs ds);
  (** A stored version and a schema read back belong to a schema that exists. *)
  GetVersion_schema ns sc v ver s s' :
    v_ok s → store_GetVersion ns sc v s = (Ok ver, s') → (ns, sc) ∈ v_schemas s;
  PutVersion_schema ver fs ds s s' :
    store_PutVersion ver fs ds s = (Ok tt, s') →
    (sv_NamespaceID ver, sv_SchemaID ver) ∈ v_schemas s';
  (** Versions are listed in ascending order, within the range of the column. *)
  ListVersions_sorted ns sc s l s' :
    v_ok s → store_ListVersions ns sc s = (Ok l, s') → StronglySorted Z.lt l;
  ListVersions_stored ns sc s l s' v :
    v_ok s → store_ListVersions ns sc s = (Ok l, s') → v ∈ l →
    (ns, sc, v) ∈ v_versions s ∧ (0 <= v <= maxInt64)%Z;
  (** A version is stored under a number that was free, clamped to the column. *)
  PutVersion_fresh ver fs ds s s' :
    (0 <= sv_Version ver < 2 ^ 64)%Z → store_PutVersion ver fs ds s = (Ok tt, s') →
    (sv_NamespaceID ver, sv_SchemaID ver, Z.min (sv_Version ver) maxInt64)
      ∉ v_versions s;
  (** Staging records the version of an existing schema. *)
  SetStaged_Ok ns sc v s s' :
    store_SetStaged ns sc v s = (Ok tt, s') → (ns, sc) ∈ v_schemas s →
    (0 < v <= maxInt64)%Z →
    v_ok s →
    v_ok s' ∧ v_staged s' = <[(ns, sc) := v]> (v_staged s) ∧
    v_current s' = v_current s ∧ v_schemas s' = v_schemas s ∧ v_versions s' = v_versions s;
  SetStaged_Err ns sc v s e s' : store_SetStaged ns sc v s = (Err e, s') → s' = s;
  (** Promotion and discarding are all or nothing. *)
  Promote_Ok ns s ps s' :
    v_ok s → store_Promote ns s = (Ok ps, s') →
    v_ok s' ∧ v_current s' = promoted_view ns (v_staged s) (v_current s) ∧
    v_staged s' = filter (λ kv, kv.1.1 ≠ ns) (v_staged s) ∧
    v_schemas s' = v_schemas s ∧
    (∀ p, p ∈ ps → v_staged s !! (ns, ps_SchemaID p) = Some (ps_CurrentVersion p)) ∧
    (∀ sc v, v_staged s !! (ns, sc) = Some v → sc ∈ (ps_SchemaID <$> ps));
  Promote_Err ns s e s' : store_Promote ns s = (Err e, s') → s' = s;
  DiscardStaging_Ok ns s s' :
    v_ok s → store_DiscardStaging ns s = (Ok tt, s') →
    v_ok s' ∧ v_staged s' = filter (λ kv, kv.1.1 ≠ ns) (v_staged s) ∧
    v_current s' = v_current s ∧ v_schemas s' = v_schemas s;
  DiscardStaging_Err ns s e s' : store_DiscardStaging ns s = (Err e, s') → s' = s;
  (** What was stored is there and stays; only stored versions are read. *)
  PutVersion_stored ver fs ds s s' :
    (0 <= sv_Version ver < 2 ^ 64)%Z → store_PutVersion ver fs ds s = (Ok tt, s') →
    (sv_NamespaceID ver, sv_SchemaID ver, Z.min (sv_Version ver) maxInt64)
      ∈ v_versions s';
  GetVersion_stored ns sc v ver s s' :
    (0 <= v <= maxInt64)%Z → store_GetVersion ns sc v s = (Ok ver, s') →
    (ns, sc, v) ∈ v_versions s;
  Promote_versions ns s : v_versions (store_Promote ns s).2 = v_versions s;
  DiscardStaging_versions ns s : v_versions (store_DiscardStaging ns s).2 = v_versions s }.

(** ** Composition *)

Section keeps.
Context {S : Type} `{StoreView S}.

Lemma keeps_reads {A} (m : M S A) : reads m → keeps_versions m.
Proof. intros Hr s Hs. specialize (Hr s). destruct (m s) as [x s']. cbn in *. by subst s'. Qed.

Lemma keeps_ret {A} (a : A) : keeps_versions (mret a : M S A).
Proof. done. Qed.

Lemma keeps_fail {A} e : keeps_versions (fail e : M S A).
Proof. done. Qed.

Lemma keeps_of_res {A} (r : res A) : keeps_versions (of_res r : M S A).
Proof. done. Qed.

Lemma keeps_bind {A B} (m : M S A) (f : A → M S B) :
  keeps_versions m → (∀ a, keeps_versions (f a)) → keeps_versions (m ≫= f).
Proof.
  intros Hm Hf s Hok. specialize (Hm s Hok) as (Hok1 & Hc & Hs & Hsc & Hv).
  unfold mbind, M_bind. destruct (m s) as [[a|e] s1]; cbn in *; [|done].
  destruct (Hf a s1 Hok1) as (Hok2 & Hc' & Hs' & Hsc' & Hv'). rewrite Hc', Hs'.
  split_and!; [done..| |].
  - by transitivity (v_schemas s1).
  - by transitivity (v_versions s1).
Qed.

Lemma keeps_attempt {A} (m : M S A) : keeps_versions m → keeps_versions (attempt m).
Proof. intros Hm s Hs. specialize (Hm s Hs). unfold attempt. by destruct (m s). Qed.

Lemma keeps_wrapM {A} c (m : M S A) : keeps_versions m → keeps_versions (wrapM c m).
Proof. intros Hm s Hs. specialize (Hm s Hs). unfold wrapM. by destruct (m s). Qed.

Lemma keeps_forM_ {A} (l : list A) (f : A → M S unit) :
  (∀ x, keeps_versions (f x)) → keeps_versions (forM_ l f).
Proof.
  intros Hf. induction l as [|x l IH]; cbn; [apply keeps_ret|]. by apply keeps_bind.
Qed.

Lemma keeps_mapM {A B} (f : A → M S B) (l : list A) :
  (∀ x, keeps_versions (f x)) → keeps_versions (mapM f l).
Proof.
  intros Hf. induction l as [|x l IH]; cbn; [apply keeps_ret|].
  apply keeps_bind; [done|]. intros b. apply keeps_bind; [done|]. intros bs. apply keeps_ret.
Qed.
End keeps.

(** The laws that say which store calls move no version. *)
Ltac solve_keeps := first
  [ apply keeps_PutBlob | apply keeps_CreateNamespace | apply keeps_SetNamespaceParent
  | apply keeps_CreateSchema | apply keeps_PutVersion
  | apply keeps_reads; first
    [ apply reads_GetBlob | apply reads_GetNamespace | apply reads_ListNamespaces
    | apply reads_GetSchema | apply reads_GetVersion | apply reads_GetVersionFiles
    | apply reads_GetVersionDeps | apply reads_ListVersions | apply reads_LoadAllCurrent
    | apply reads_LoadNamespaceCurrent | apply reads_LoadNamespaceProposed ] ].

(** ** Stores that fail

    A method that reaches a database can fail before it has an effect: no connection, a
    cancelled context, a refused parameter. [faults] says of every call, by the error it
    returns in a state, whether that happens there; a call it lets through is the call of the
    store. A failure that is reported after the database has committed is not of this kind. *)

Definition unless {S A} (fault call : M S A) : M S A := λ s,
  match (fault s).1 with Err e => (Err e, s) | Ok _ => call s end.

Definition flaky {S} (faults st : Store S) : Store S := {|
  store_PutBlob b := unless (@store_PutBlob S faults b) (@store_PutBlob S st b);
  store_GetBlob ns h := unless (@store_GetBlob S faults ns h) (@store_GetBlob S st ns h);
  store_CreateNamespace n :=
    unless (@store_CreateNamespace S faults n) (@store_CreateNamespace S st n);
  store_GetNamespace id := unless (@store_GetNamespace S faults id) (@store_GetNamespace S st id);
  store_ListNamespaces := unless (@store_ListNamespaces S faults) (@store_ListNamespaces S st);
  store_ListNamespacesPage after n :=
    unless (@store_ListNamespacesPage S faults after n) (@store_ListNamespacesPage S st after n);
  store_SetNamespaceParent id p a :=
    unless (@store_SetNamespaceParent S faults id p a) (@store_SetNamespaceParent S st id p a);
  store_RecordNamespaceParentEvent ev :=
    unless (@store_RecordNamespaceParentEvent S faults ev) (@store_RecordNamespaceParentEvent S st ev);
  store_ListNamespaceParentEvents id n :=
    unless (@store_ListNamespaceParentEvents S faults id n) (@store_ListNamespaceParentEvents S st id n);
  store_CreateSchema sc := unless (@store_CreateSchema S faults sc) (@store_CreateSchema S st sc);
  store_GetSchema ns sc := unless (@store_GetSchema S faults ns sc) (@store_GetSchema S st ns sc);
  store_ListSchemas ns := unless (@store_ListSchemas S faults ns) (@store_ListSchemas S st ns);
  store_ListSchemasPage ns after n :=
    unless (@store_ListSchemasPage S faults ns after n) (@store_ListSchemasPage S st ns after n);
  store_PutVersion ver fs ds :=
    unless (@store_PutVersion S faults ver fs ds) (@store_PutVersion S st ver fs ds);
  store_GetVersion ns sc v :=
    unless (@store_GetVersion S faults ns sc v) (@store_GetVersion S st ns sc v);
  store_GetVersionFiles ns sc v :=
    unless (@store_GetVersionFiles S faults ns sc v) (@store_GetVersionFiles S st ns sc v);
  store_GetVersionDeps ns sc v :=
    unless (@store_GetVersionDeps S faults ns sc v) (@store_GetVersionDeps S st ns sc v);
  store_ListVersions ns sc :=
    unless (@store_ListVersions S faults ns sc) (@store_ListVersions S st ns sc);
  store_SetStaged ns sc v :=
    unless (@store_SetStaged S faults ns sc v) (@store_SetStaged S st ns sc v);
  store_Promote ns := unless (@store_Promote S faults ns) (@store_Promote S st ns);
  store_DiscardStaging ns :=
    unless (@store_DiscardStaging S faults ns) (@store_DiscardStaging S st ns);
  store_LoadAllCurrent := unless (@store_LoadAllCurrent S faults) (@store_LoadAllCurrent S st);
  store_LoadNamespaceCurrent ns :=
    unless (@store_LoadNamespaceCurrent S faults ns) (@store_LoadNamespaceCurrent S st ns);
  store_LoadNamespaceProposed ns :=
    unless (@store_LoadNamespaceProposed S faults ns) (@store_LoadNamespaceProposed S st ns) |}.

Section flaky.
Context {S : Type} (faults st : Store S) `{StoreView S}.

Lemma unless_Ok {A} (f m : M S A) s a s' : unless f m s = (Ok a, s') → m s = (Ok a, s').
Proof. unfold unless. by destruct (f s).1. Qed.
Lemma unless_Err {A} (f m : M S A) s e s' :
  unless f m s = (Err e, s') → s' = s ∨ m s = (Err e, s').
Proof. unfold unless. destruct (f s).1; [by right|]. intros [= _ <-]. by left. Qed.
Lemma unless_reads {A} (f m : M S A) : reads m → reads (unless f m).
Proof. intros Hm s. unfold unless. by destruct (f s).1. Qed.
Lemma unless_keeps {A} (f m : M S A) : keeps_versions m → keeps_versions (unless f m).
Proof. intros Hm s. unfold unless. destruct (f s).1; [apply Hm|done]. Qed.

(** The promises of a store survive such failures. *)
Lemma flaky_laws : @StoreLaws S st _ → @StoreLaws S (flaky faults st) _.
Proof.
  intros L. split; intros; cbn in *;
    try (apply unless_reads; first
      [ apply reads_GetBlob | apply reads_GetNamespace | apply reads_ListNamespaces
      | apply reads_GetSchema | apply reads_GetVersion | apply reads_GetVersionFiles
      | apply reads_GetVersionDeps | apply reads_ListVersions | apply reads_LoadAllCurrent
      | apply reads_LoadNamespaceCurrent | apply reads_LoadNamespaceProposed ]);
    try (apply unless_keeps; solve_keeps);
    repeat match goal with
      | E : unless _ _ _ = (Ok _, _) |- _ => apply unless_Ok in E
      | E : unless _ _ _ = (Err _, _) |- _ => apply unless_Err in E as [->|E]; [done|]
      end;
    try (unfold unless; case_match; [|done]);
    first [ by eapply GetVersion_schema | by eapply PutVersion_schema
          | by eapply ListVersions_sorted | by eapply ListVersions_stored
          | by eapply PutVersion_fresh | by eapply SetStaged_Ok | by eapply SetStaged_Err
          | by eapply Promote_Ok | by eapply Promote_Err | by eapply DiscardStaging_Ok
          | by eapply DiscardStaging_Err | by eapply PutVersion_stored
          | by eapply GetVersion_stored | by eapply Promote_versions
          | by eapply DiscardStaging_versions ].
Qed.
End flaky.
