(* ===== verification/Registry.v ===== *)
(** * The registry: compilation, storage and in-memory namespaces tied together

    Models [src/registry.go] and [src/authz/authz.go] over any store and any toolchain. A
    call acts on the database state and on the in-memory heap of namespaces; what a failing
    call did before its error stays done, in both. A [*namespace.Namespace] obtained from
    the heap is its identifier. Contexts carry nothing the model needs: the decision of an
    authorizer for the calling principal is a function of the operation. *)

From S2P Require Import Prelude GoStrings Descriptor Protobuf Snapshot Compat Conflict.
From S2P Require Import Compiler Namespace Store.
From stdpp Require Import prelude gmap strings list pretty.

Open Scope string_scope.

(** [authz.Authorizer]. *)
Record Authorizer := {
  CanCreateNamespace : string → option string → res unit;
  CanSetNamespaceParent : string → option string → res unit;
  CanPublish : string → string → res unit;
  CanPromote : string → res unit;
  CanRebase : string → string → res unit }.

Definition AllowAll : Authorizer := {|
  CanCreateNamespace _ _ := Ok tt;
  CanSetNamespaceParent _ _ := Ok tt;
  CanPublish _ _ := Ok tt;
  CanPromote _ := Ok tt;
  CanRebase _ _ := Ok tt |}.

Definition BuiltinsNamespace : string := "__builtins__".

(** The configuration of a [Registry]; its store and namespaces are the state. *)
Record RegistryConfig := {
  r_compiler : Compiler;
  r_authz : Authorizer;
  r_authzExplicit : bool }.

Definition Option_ : Type := RegistryConfig → RegistryConfig.
Definition WithCompiler (c : Compiler) : Option_ := λ r,
  {| r_compiler := c; r_authz := r_authz r; r_authzExplicit := r_authzExplicit r |}.
Definition WithAuthorizer (a : Authorizer) : Option_ := λ r,
  {| r_compiler := r_compiler r; r_authz := a; r_authzExplicit := true |}.

Definition NewRegistry (opts : list Option_) : RegistryConfig :=
  fold_left (λ r opt, opt r) opts
    {| r_compiler := NewCompiler []; r_authz := AllowAll; r_authzExplicit := false |}.

Record PublishRequest := {
  pr_NamespaceID : string; pr_SchemaID : string; pr_Sources : gmap string string;
  pr_CreatedBy : string; pr_Metadata : option (gmap string string); pr_Force : bool }.

Record CreateNamespaceRequest := {
  cn_NamespaceID : string; cn_ParentID : option string;
  cn_Metadata : option (gmap string string); cn_ActorID : string }.

Record SetNamespaceParentRequest := {
  sp_NamespaceID : string; sp_ParentID : option string; sp_ActorID : string }.

Record RebaseRequest := { rb_NamespaceID : string; rb_SchemaID : string; rb_ActorID : string }.

Record ParentPinStatus := {
  pp_ParentNamespaceID : string; pp_DepSchemaID : string; pp_DepFilename : string;
  pp_PinnedVersion : Z; pp_CurrentVersion : Z }.

Record RebaseStatus := { PinStatuses : list ParentPinStatus; RebaseAvailable : bool }.

(** [compiler.Version()]: read from the build information of the binary. *)
Class CompilerVersion := compiler_Version : string.

Section Registry.
Context `{Toolchain, ProtoTypes, ProtoNames, GoRange, CompilerVersion} {S : Type} `{Store S}.

Record PublishResult := {
  pub_Version : Z; pub_Fingerprint : string; pub_Snapshot : option Snapshot;
  pub_NoChange : bool }.

(** The state of a running registry: the database and the in-memory namespaces. *)
Record RState := { rs_store : S; rs_mem : gmap string Namespace }.

Definition db {A} (m : M S A) : M RState A := λ st,
  let '(x, s') := m (rs_store st) in (x, {| rs_store := s'; rs_mem := rs_mem st |}).
Definition mem {A} (f : gmap string Namespace → A) : M RState A := gets (f ∘ rs_mem).
Definition set_mem (f : gmap string Namespace → gmap string Namespace) : M RState unit :=
  modify (λ st, {| rs_store := rs_store st; rs_mem := f (rs_mem st) |}).

(** [r.namespaces.GetOrCreate(id)]. *)
Definition getOrCreate (id : string) : M RState unit := set_mem (λ h, (GetOrCreate h id).2).
(** A method call on the namespace object [id]. *)
Definition on_ns (id : string) (f : Namespace → Namespace) : M RState unit :=
  set_mem (alter f id).

(** ** Internal helpers *)

(** A step that runs only when a read failed. *)
Definition ensureNamespace (namespaceID : string) : M RState unit :=
  r1 ← attempt (db (store_GetNamespace namespaceID));
  match r1 with
  | Ok _ => mret tt
  | Err _ =>
     r2 ← attempt (db (store_CreateNamespace
       {| sn_ID := namespaceID; sn_CreatedAt := 0; sn_DeletedAt := None;
          sn_Metadata := None; sn_ParentNamespaceID := None |}));
     match r2 with
     | Ok _ => mret tt
     | Err err =>
        r3 ← attempt (db (store_GetNamespace namespaceID));
        match r3 with
        | Ok _ => mret tt
        | Err _ => fail (ErrWrap "creating namespace" err)
        end
     end
  end.

Definition ensureSchema (namespaceID schemaID : string) : M RState unit :=
  r1 ← attempt (db (store_GetSchema namespaceID schemaID));
  match r1 with
  | Ok _ => mret tt
  | Err _ =>
     r2 ← attempt (db (store_CreateSchema
       {| sc_NamespaceID := namespaceID; sc_SchemaID := schemaID; sc_CurrentVersion := None;
          sc_StagedVersion := None; sc_CreatedAt := 0; sc_DeletedAt := None;
          sc_Metadata := None |}));
     match r2 with
     | Ok _ => mret tt
     | Err err =>
        r3 ← attempt (db (store_GetSchema namespaceID schemaID));
        match r3 with
        | Ok _ => mret tt
        | Err _ => fail (ErrWrap "creating schema" err)
        end
     end
  end.

Definition ensureNamespaceAndSchema (namespaceID schemaID : string) : M RState unit :=
  ensureNamespace namespaceID ;; ensureSchema namespaceID schemaID.

Definition gatherDeps (namespaceID schemaID : string) : M RState (list DepSource) :=
  proposed ← db (store_LoadNamespaceProposed namespaceID);
  ls ← mapM (λ cs,
    if decide (cs_SchemaID cs = schemaID) then mret []
    else mapM (λ f,
      blob ← wrapM ("fetching blob for " +:+ cs_SchemaID cs +:+ "/" +:+ vf_Filename f)
               (db (store_GetBlob namespaceID (vf_BlobSHA256 f)));
      mret {| ds_Namespace := namespaceID; ds_SchemaID := cs_SchemaID cs;
              ds_Version := cs_Version cs; ds_Filename := vf_Filename f;
              ds_Source := pb_OriginalSource blob |}) (cs_Files cs)) proposed;
  mret (concat ls).

Definition gatherChainTiers (nsID : string) : M RState (list ChainTier) :=
  chain ← mem (λ h, Chain h nsID);
  mapM (λ ancestor,
    let ancestorID := ns_id ancestor in
    currents ← wrapM ("loading current state of ancestor " +:+ ancestorID)
                 (db (store_LoadNamespaceCurrent ancestorID));
    ls ← mapM (λ cs, mapM (λ f,
      blob ← wrapM ("fetching blob " +:+ vf_Filename f +:+ " from ancestor " +:+ ancestorID)
               (db (store_GetBlob ancestorID (vf_BlobSHA256 f)));
      mret {| ds_Namespace := ancestorID; ds_SchemaID := cs_SchemaID cs;
              ds_Version := cs_Version cs; ds_Filename := vf_Filename f;
              ds_Source := pb_OriginalSource blob |}) (cs_Files cs)) currents;
    mret {| ct_NamespaceID := ancestorID; ct_Files := concat ls |}) (tail chain).

(** The first ancestor with conflicts, and all its conflicts. *)
Fixpoint ancestorConflicts (child : Snapshot) (ancestors : list Namespace)
    : option (string * list FQNConflict) :=
  match ancestors with
  | [] => None
  | ancestor :: ancestors =>
     match flat_map (λ schemaID,
             match Current ancestor schemaID with
             | None => []
             | Some ancestorSnap => DetectFQNConflicts (Some child) (Some ancestorSnap)
             end) (SchemaIDs ancestor) with
     | [] => ancestorConflicts child ancestors
     | allConflicts => Some (ns_id ancestor, allConflicts)
     end
  end.

Definition checkAncestorFQNConflicts (child : Snapshot) (nsID : string) : M RState unit :=
  chain ← mem (λ h, Chain h nsID);
  match ancestorConflicts child (tail chain) with
  | Some (ancestorID, conflicts) => fail (ErrFQNConflict ancestorID conflicts)
  | None => mret tt
  end.

Definition gatherBuiltins : M RState (list DepSource) :=
  current ← db (store_LoadNamespaceCurrent BuiltinsNamespace);
  ls ← mapM (λ cs, mapM (λ f,
    blob ← wrapM ("fetching builtin blob for " +:+ cs_SchemaID cs +:+ "/" +:+ vf_Filename f)
             (db (store_GetBlob BuiltinsNamespace (vf_BlobSHA256 f)));
    mret {| ds_Namespace := BuiltinsNamespace; ds_SchemaID := cs_SchemaID cs;
            ds_Version := cs_Version cs; ds_Filename := vf_Filename f;
            ds_Source := pb_OriginalSource blob |}) (cs_Files cs)) current;
  mret (concat ls).

Definition isUnchanged (namespaceID schemaID fingerprint : string) : M RState bool :=
  schema ← attempt (db (store_GetSchema namespaceID schemaID));
  match schema with
  | Err _ => mret false
  | Ok schema =>
     match (match sc_StagedVersion schema with
            | Some v => Some v | None => sc_CurrentVersion schema end) with
     | None => mret false
     | Some checkVersion =>
        files ← attempt (db (store_GetVersionFiles namespaceID schemaID checkVersion));
        match files with
        | Err _ => mret false
        | Ok files =>
           mret (bool_decide (ComputeFingerprint
             ((λ f, {| fr_Filename := vf_Filename f; fr_BlobSHA256 := vf_BlobSHA256 f;
                       fr_OriginalSource := "" |}) <$> files) = fingerprint))
        end
     end
  end.

(** The sources of a version, from its blobs. *)
Definition loadSources (namespaceID : string) (files : list VersionFile)
    (ctx : VersionFile → string) : M RState (gmap string string) :=
  l ← mapM (λ f,
    blob ← wrapM (ctx f) (db (store_GetBlob namespaceID (vf_BlobSHA256 f)));
    mret (vf_Filename f, pb_OriginalSource blob)) files;
  mret (fold_left (λ m kv, <[kv.1 := kv.2]> m) l (∅ : gmap string string)).

Definition buildSnapshot (r : RegistryConfig) (cs : CurrentSchema) (compilerVer : string)
    : M RState Snapshot :=
  if decide (cs_CompilerVersion cs = compilerVer) then
    fds ← of_res (wrap "unmarshaling compiled" (Unmarshal (cs_Compiled cs)));
    of_res (Snapshot.New (cs_Version cs) fds)
  else
    sources ← loadSources (cs_NamespaceID cs) (cs_Files cs)
                (λ f, "fetching blob " +:+ vf_BlobSHA256 f);
    deps ← wrapM "gathering deps for recompile"
             (gatherDeps (cs_NamespaceID cs) (cs_SchemaID cs));
    getOrCreate (cs_NamespaceID cs) ;;
    chainTiers ← wrapM "gathering parent chain for recompile"
                   (gatherChainTiers (cs_NamespaceID cs));
    builtins ← (if decide (cs_NamespaceID cs = BuiltinsNamespace) then mret []
                else wrapM "gathering builtins for recompile" gatherBuiltins);
    result ← of_res (wrap "recompiling"
      (Compile (r_compiler r) (cs_Version cs) sources deps chainTiers builtins));
    mret (cr_Snapshot result).

(** ** Operations *)

Definition Restore (r : RegistryConfig) : M RState unit :=
  nsRows ← wrapM "listing namespaces" (db store_ListNamespaces);
  forM_ nsRows (λ n, getOrCreate (sn_ID n)) ;;
  forM_ nsRows (λ n,
    match sn_ParentNamespaceID n with
    | None => mret tt
    | Some p =>
       parent ← mem (λ h, Get h p);
       match parent with
       | None => fail (ErrNew ("namespace " +:+ sn_ID n +:+ " references unknown parent " +:+ p))
       | Some _ => on_ns (sn_ID n) (SetParent (Some p))
       end
    end) ;;
  schemas ← wrapM "loading current schemas" (db store_LoadAllCurrent);
  forM_ schemas (λ cs,
    snap ← wrapM ("restoring " +:+ cs_NamespaceID cs +:+ "/" +:+ cs_SchemaID cs +:+ "@" +:+
                  pretty (cs_Version cs)) (buildSnapshot r cs compiler_Version);
    getOrCreate (cs_NamespaceID cs) ;;
    on_ns (cs_NamespaceID cs) (λ ns, (SetCurrent (cs_SchemaID cs) (Some snap) ns).2)).

(** The well-known-type guard of [publishInternal]. *)
Definition shadowCheck (req : PublishRequest) : res unit :=
  if pr_Force req then Ok tt
  else match list_find (λ kv, IsWellKnownType kv.1 = true) (go_range (pr_Sources req)) with
       | Some (_, (filename, _)) =>
          Err (ErrNew ("file " +:+ quote filename +:+
            " shadows a well-known type; use force=true to override"))
       | None => Ok tt
       end.

Definition nextVersionOf (versions : list Z) : Z :=
  match last versions with Some v => u64 (v + 1) | None => 1 end.

(** Storing and staging the compiled version. *)
Definition storeVersion (req : PublishRequest) (nextVersion : Z) (result : CompileResult)
    : M RState unit :=
  forM_ (cr_Files result) (λ f,
    wrapM ("storing blob for " +:+ fr_Filename f) (db (store_PutBlob
      {| pb_NamespaceID := pr_NamespaceID req; pb_SHA256 := fr_BlobSHA256 f;
         pb_OriginalSource := fr_OriginalSource f;
         pb_SizeBytes := Z.of_nat (String.length (fr_OriginalSource f));
         pb_CreatedAt := 0 |}))) ;;
  wrapM "storing version" (db (store_PutVersion
    {| sv_NamespaceID := pr_NamespaceID req; sv_SchemaID := pr_SchemaID req;
       sv_Version := nextVersion; sv_Compiled := cr_Compiled result;
       sv_CompilerVersion := compiler_Version; sv_CreatedAt := 0;
       sv_CreatedBy := pr_CreatedBy req; sv_DeletedAt := None;
       sv_Metadata := pr_Metadata req |}
    ((λ f, {| vf_NamespaceID := pr_NamespaceID req; vf_SchemaID := pr_SchemaID req;
              vf_Version := nextVersion; vf_Filename := fr_Filename f;
              vf_BlobSHA256 := fr_BlobSHA256 f |}) <$> cr_Files result)
    ((λ d, {| vd_NamespaceID := pr_NamespaceID req; vd_SchemaID := pr_SchemaID req;
              vd_Version := nextVersion; vd_DepNamespaceID := DepNamespaceID d;
              vd_DepSchemaID := DepSchemaID d; vd_DepFilename := DepFilename d;
              vd_DepVersion := DepVersion d |}) <$> cr_Deps result))) ;;
  wrapM "staging version"
    (db (store_SetStaged (pr_NamespaceID req) (pr_SchemaID req) nextVersion)).

Definition publishInternal (r : RegistryConfig) (req : PublishRequest)
    (forceNewVersion : bool) : M RState PublishResult :=
  if decide (size (pr_Sources req) = 0%nat) then fail (ErrNew "no source files provided")
  else
  of_res (shadowCheck req) ;;
  ensureNamespaceAndSchema (pr_NamespaceID req) (pr_SchemaID req) ;;
  getOrCreate (pr_NamespaceID req) ;;
  deps ← wrapM "gathering dependencies" (gatherDeps (pr_NamespaceID req) (pr_SchemaID req));
  chainTiers ← wrapM "gathering parent chain" (gatherChainTiers (pr_NamespaceID req));
  builtins ← (if decide (pr_NamespaceID req = BuiltinsNamespace) then mret []
              else wrapM "gathering builtins" gatherBuiltins);
  versions ← wrapM "listing versions"
               (db (store_ListVersions (pr_NamespaceID req) (pr_SchemaID req)));
  let nextVersion := nextVersionOf versions in
  result ← of_res (wrap "compilation failed"
    (Compile (r_compiler r) nextVersion (pr_Sources req) deps chainTiers builtins));
  checkAncestorFQNConflicts (cr_Snapshot result) (pr_NamespaceID req) ;;
  let fingerprint := ComputeFingerprint (cr_Files result) in
  noChange ← (if forceNewVersion then mret false
              else isUnchanged (pr_NamespaceID req) (pr_SchemaID req) fingerprint);
  if noChange : bool then
    mret {| pub_Version := 0; pub_Fingerprint := fingerprint; pub_Snapshot := None;
            pub_NoChange := true |}
  else
    storeVersion req nextVersion result ;;
    on_ns (pr_NamespaceID req) (SetStaged (pr_SchemaID req) (Some (cr_Snapshot result))) ;;
    mret {| pub_Version := nextVersion; pub_Fingerprint := fingerprint;
            pub_Snapshot := Some (cr_Snapshot result); pub_NoChange := false |}.

Definition Publish (r : RegistryConfig) (req : PublishRequest) : M RState PublishResult :=
  of_res (CanPublish (r_authz r) (pr_NamespaceID req) (pr_SchemaID req)) ;;
  publishInternal r req false.

(** The compatibility loop of [Promote]. *)
Fixpoint promoteChecks (namespaceID : string) (ns : Namespace) (ids : list string) : res unit :=
  match ids with
  | [] => Ok tt
  | schemaID :: ids =>
     match Staged ns schemaID with
     | None => promoteChecks namespaceID ns ids
     | Some staged =>
        let current := Current ns schemaID in
        if match current with
           | Some c => bool_decide (snap_version staged <= snap_version c)%Z
           | None => false
           end then
          promoteChecks namespaceID ns ids
        else
          let result := Check current staged in
          if OK result then promoteChecks namespaceID ns ids
          else Err (ErrNew ("compatibility check failed for " +:+ namespaceID +:+ "/" +:+
                      schemaID +:+ ": " +:+ Result_Error result))
     end
  end.

Definition Promote (r : RegistryConfig) (namespaceID : string) : M RState (list PromotedSchema) :=
  of_res (CanPromote (r_authz r) namespaceID) ;;
  ns ← mem (λ h, Get h namespaceID);
  match ns with
  | None => fail (ErrNew ("namespace " +:+ namespaceID +:+ " not found"))
  | Some ns =>
     of_res (promoteChecks namespaceID ns (SchemaIDs ns)) ;;
     promoted ← wrapM "promoting" (db (store_Promote namespaceID));
     on_ns namespaceID (λ ns, (PromoteNs ns).2) ;;
     mret promoted
  end.

Definition DiscardStaging (namespaceID : string) : M RState unit :=
  wrapM "discarding staging" (db (store_DiscardStaging namespaceID)) ;;
  on_ns namespaceID DiscardStagingNs.

Definition Registry_Current (namespaceID schemaID : string) : M RState (option Snapshot) :=
  mem (λ h, Get h namespaceID ≫= λ ns, Current ns schemaID).
Definition Registry_Staged (namespaceID schemaID : string) : M RState (option Snapshot) :=
  mem (λ h, Get h namespaceID ≫= λ ns, Staged ns schemaID).

Definition Rollback (namespaceID schemaID : string) (version : Z) (Force : bool)
    : M RState unit :=
  ver ← wrapM ("getting version " +:+ pretty version)
          (db (store_GetVersion namespaceID schemaID version));
  fds ← of_res (wrap "unmarshaling compiled descriptors" (Unmarshal (sv_Compiled ver)));
  snap ← of_res (wrap "building snapshot" (Snapshot.New version fds));
  (if Force then mret tt
   else
     current ← Registry_Current namespaceID schemaID;
     match current with
     | None => mret tt
     | Some current =>
        let result := Check (Some current) snap in
        if OK result then mret tt
        else fail (ErrNew ("rollback to version " +:+ pretty version +:+
               " would break consumers of " +:+ namespaceID +:+ "/" +:+ schemaID +:+ ": " +:+
               Result_Error result +:+ "; pass force=true to override"))
     end) ;;
  wrapM ("setting staged to version " +:+ pretty version)
    (db (store_SetStaged namespaceID schemaID version)) ;;
  getOrCreate namespaceID ;;
  on_ns namespaceID (SetStaged schemaID (Some snap)).

Definition GetNamespaceChain (namespaceID : string) : M RState (list string) :=
  ns ← mem (λ h, Get h namespaceID);
  match ns with
  | None => fail (ErrNew ("namespace " +:+ namespaceID +:+ " not found"))
  | Some _ => mem (λ h, ns_id <$> Chain h namespaceID)
  end.

Definition CreateNamespace (r : RegistryConfig) (req : CreateNamespaceRequest)
    : M RState unit :=
  of_res (CanCreateNamespace (r_authz r) (cn_NamespaceID req) (cn_ParentID req)) ;;
  wrapM ("creating namespace " +:+ cn_NamespaceID req) (db (store_CreateNamespace
    {| sn_ID := cn_NamespaceID req; sn_CreatedAt := 0; sn_DeletedAt := None;
       sn_Metadata := cn_Metadata req; sn_ParentNamespaceID := None |})) ;;
  getOrCreate (cn_NamespaceID req) ;;
  match cn_ParentID req with
  | None => mret tt
  | Some p =>
     wrapM "setting parent on new namespace"
       (db (store_SetNamespaceParent (cn_NamespaceID req) (Some p) (cn_ActorID req))) ;;
     getOrCreate p ;;
     on_ns (cn_NamespaceID req) (SetParent (Some p))
  end.

Definition GetRebaseStatus (namespaceID schemaID : string) : M RState RebaseStatus :=
  ns ← mem (λ h, Get h namespaceID);
  match ns with
  | None => fail (ErrNew ("namespace " +:+ namespaceID +:+ " not found"))
  | Some ns =>
  match Current ns schemaID with
  | None => fail (ErrNew ("schema " +:+ namespaceID +:+ "/" +:+ schemaID +:+
                          " has no current version"))
  | Some cur =>
  deps ← wrapM ("loading deps for " +:+ namespaceID +:+ "/" +:+ schemaID +:+ "@" +:+
                pretty (snap_version cur))
           (db (store_GetVersionDeps namespaceID schemaID (snap_version cur)));
  pins ← mapM (λ d,
    parentSchema ← attempt (db (store_GetSchema (vd_DepNamespaceID d) (vd_DepSchemaID d)));
    let currentVersion := match parentSchema with
                          | Ok s => default 0%Z (sc_CurrentVersion s)
                          | Err _ => 0%Z
                          end in
    mret {| pp_ParentNamespaceID := vd_DepNamespaceID d; pp_DepSchemaID := vd_DepSchemaID d;
            pp_DepFilename := vd_DepFilename d; pp_PinnedVersion := vd_DepVersion d;
            pp_CurrentVersion := currentVersion |})
    (filter (λ d, vd_DepNamespaceID d ≠ namespaceID) deps);
  mret {| PinStatuses := pins;
          RebaseAvailable :=
            existsb (λ p, bool_decide (pp_PinnedVersion p < pp_CurrentVersion p)%Z) pins |}
  end end.

Definition Rebase (r : RegistryConfig) (req : RebaseRequest) : M RState PublishResult :=
  of_res (CanRebase (r_authz r) (rb_NamespaceID req) "") ;;
  ns ← mem (λ h, Get h (rb_NamespaceID req));
  match ns with
  | None => fail (ErrNew ("namespace " +:+ rb_NamespaceID req +:+ " not found"))
  | Some ns =>
  match Current ns (rb_SchemaID req) with
  | None => fail (ErrNew ("schema " +:+ rb_NamespaceID req +:+ "/" +:+ rb_SchemaID req +:+
                          " has no current version to rebase"))
  | Some cur =>
  files ← wrapM "loading version files"
    (db (store_GetVersionFiles (rb_NamespaceID req) (rb_SchemaID req) (snap_version cur)));
  sources ← loadSources (rb_NamespaceID req) files (λ f, "loading blob " +:+ vf_BlobSHA256 f);
  publishInternal r
    {| pr_NamespaceID := rb_NamespaceID req; pr_SchemaID := rb_SchemaID req;
       pr_Sources := sources; pr_CreatedBy := rb_ActorID req;
       pr_Metadata := Some {[ "rebased_from_version" := pretty (snap_version cur) ]};
       pr_Force := false |} true
  end end.

Definition SetNamespaceParent (r : RegistryConfig) (req : SetNamespaceParentRequest)
    : M RState unit :=
  of_res (CanSetNamespaceParent (r_authz r) (sp_NamespaceID req) (sp_ParentID req)) ;;
  db (store_SetNamespaceParent (sp_NamespaceID req) (sp_ParentID req) (sp_ActorID req)) ;;
  getOrCreate (sp_NamespaceID req) ;;
  match sp_ParentID req with
  | None => on_ns (sp_NamespaceID req) (SetParent None)
  | Some p => getOrCreate p ;; on_ns (sp_NamespaceID req) (SetParent (Some p))
  end.

End Registry.
