(* ===== verification/RegistryThms.v ===== *)
(** * Correctness of the registry

    Theorems about [Registry.v] that hold over every store, and, for the agreement of the
    database with the in-memory state, over every store with [StoreLaws]. *)

From S2P Require Import Prelude GoStrings Descriptor Protobuf Snapshot Compat Conflict.
From S2P Require Import Compiler CompilerThms Namespace NamespaceThms Store Registry.
From stdpp Require Import prelude gmap strings list.

Open Scope string_scope.

Section Registry.
Context `{Toolchain, ProtoTypes, ProtoNames, GoRange, CompilerVersion} {S : Type} `{Store S}.
#[local] Notation RS := (RState (S := S)).
Implicit Types (h : gmap string Namespace) (st : RS).

(** ** Authorization *)

(** A denied operation has no effect: when the authorizer refuses, publishing,
    promoting, creating a namespace, re-parenting and rebasing return its error and leave
    the database and the in-memory state untouched. *)
Theorem denied_calls_have_no_effect (r : RegistryConfig) st e :
  (∀ req, CanPublish (r_authz r) (pr_NamespaceID req) (pr_SchemaID req) = Err e →
     Publish r req st = (Err e, st)) ∧
  (∀ ns, CanPromote (r_authz r) ns = Err e → Promote r ns st = (Err e, st)) ∧
  (∀ req, CanCreateNamespace (r_authz r) (cn_NamespaceID req) (cn_ParentID req) = Err e →
     CreateNamespace r req st = (Err e, st)) ∧
  (∀ req, CanSetNamespaceParent (r_authz r) (sp_NamespaceID req) (sp_ParentID req) = Err e →
     SetNamespaceParent r req st = (Err e, st)) ∧
  (∀ req, CanRebase (r_authz r) (rb_NamespaceID req) "" = Err e →
     Rebase r req st = (Err e, st)).
Proof.
  split_and!; intros x Hx.
  - unfold Publish. by rewrite Hx.
  - unfold Promote. by rewrite Hx.
  - unfold CreateNamespace. by rewrite Hx.
  - unfold SetNamespaceParent. by rewrite Hx.
  - unfold Rebase. by rewrite Hx.
Qed.

(** ** Views of the heap *)

Definition cur_of h (ns sc : string) : option Snapshot := h !! ns ≫= λ n, Current n sc.
Definition stg_of h (ns sc : string) : option Snapshot := h !! ns ≫= λ n, Staged n sc.
Definition par_of h (ns : string) : option string := h !! ns ≫= ns_parent.

(** Two heaps with the same snapshots and parent pointers (they may differ in empty
    namespace objects). *)
Record mem_same h h' : Prop := {
  ms_cur ns sc : cur_of h' ns sc = cur_of h ns sc;
  ms_stg ns sc : stg_of h' ns sc = stg_of h ns sc;
  ms_par ns : par_of h' ns = par_of h ns;
  ms_dom ns : is_Some (h !! ns) → is_Some (h' !! ns) }.

#[global] Instance mem_same_refl : Reflexive mem_same.
Proof. by split. Qed.
#[global] Instance mem_same_trans : Transitive mem_same.
Proof.
  intros h1 h2 h3 [] []. split; intros; try congruence; eauto.
Qed.

Lemma mem_same_GetOrCreate h id : mem_same h (GetOrCreate h id).2.
Proof.
  unfold GetOrCreate. destruct (h !! id) eqn:E; [done|]. cbn.
  split; intros ns *; unfold cur_of, stg_of, par_of; rewrite lookup_insert;
    (case_decide; [subst; rewrite E|]); try done.
Qed.

Lemma GetOrCreate_is_Some h id : is_Some ((GetOrCreate h id).2 !! id).
Proof.
  unfold GetOrCreate. destruct (h !! id) eqn:E; cbn; [by eexists|].
  rewrite lookup_insert_eq. by eexists.
Qed.

(** ** Steps of a call that leave an invariant alone *)

(** The helpers of the registry use these store calls, and create empty namespaces. *)
Record quiet (I : RS → Prop) : Prop := {
  q_getOrCreate id : preserves I (getOrCreate id);
  q_PutBlob b : preserves I (db (store_PutBlob b));
  q_GetBlob ns hash : preserves I (db (store_GetBlob ns hash));
  q_CreateNamespace n : preserves I (db (store_CreateNamespace n));
  q_GetNamespace id : preserves I (db (store_GetNamespace id));
  q_ListNamespaces : preserves I (db store_ListNamespaces);
  q_SetNamespaceParent id p a : preserves I (db (store_SetNamespaceParent id p a));
  q_CreateSchema sc : preserves I (db (store_CreateSchema sc));
  q_GetSchema ns sc : preserves I (db (store_GetSchema ns sc));
  q_PutVersion v fs ds : preserves I (db (store_PutVersion v fs ds));
  q_GetVersion ns sc v : preserves I (db (store_GetVersion ns sc v));
  q_GetVersionFiles ns sc v : preserves I (db (store_GetVersionFiles ns sc v));
  q_GetVersionDeps ns sc v : preserves I (db (store_GetVersionDeps ns sc v));
  q_ListVersions ns sc : preserves I (db (store_ListVersions ns sc));
  q_LoadAllCurrent : preserves I (db store_LoadAllCurrent);
  q_LoadNamespaceCurrent ns : preserves I (db (store_LoadNamespaceCurrent ns));
  q_LoadNamespaceProposed ns : preserves I (db (store_LoadNamespaceProposed ns)) }.

Section quiet.
Context (I : RS → Prop) (HI : quiet I).

Lemma preserves_mem {A} (f : gmap string Namespace → A) : preserves I (mem f).
Proof. apply preserves_gets. Qed.

#[local] Hint Resolve preserves_mem q_getOrCreate q_PutBlob q_GetBlob q_CreateNamespace
  q_GetNamespace q_ListNamespaces q_SetNamespaceParent q_CreateSchema q_GetSchema
  q_PutVersion q_GetVersion q_GetVersionFiles q_GetVersionDeps q_ListVersions
  q_LoadAllCurrent q_LoadNamespaceCurrent q_LoadNamespaceProposed : preserves.

Lemma quiet_ensureNamespaceAndSchema ns sc : preserves I (ensureNamespaceAndSchema ns sc).
Proof. unfold ensureNamespaceAndSchema, ensureNamespace, ensureSchema. solve_preserves. Qed.

Lemma quiet_gatherDeps ns sc : preserves I (gatherDeps ns sc).
Proof. unfold gatherDeps. solve_preserves. Qed.

Lemma quiet_gatherChainTiers ns : preserves I (gatherChainTiers ns).
Proof. unfold gatherChainTiers. solve_preserves. Qed.

Lemma quiet_checkAncestorFQNConflicts snap ns : preserves I (checkAncestorFQNConflicts snap ns).
Proof. unfold checkAncestorFQNConflicts. solve_preserves. Qed.

Lemma quiet_gatherBuiltins : preserves I gatherBuiltins.
Proof. unfold gatherBuiltins. solve_preserves. Qed.

Lemma quiet_isUnchanged ns sc fp : preserves I (isUnchanged ns sc fp).
Proof. unfold isUnchanged. solve_preserves. Qed.

Lemma quiet_loadSources ns fs c : preserves I (loadSources ns fs c).
Proof. unfold loadSources. solve_preserves. Qed.

Lemma quiet_buildSnapshot r cs v : preserves I (buildSnapshot r cs v).
Proof.
  unfold buildSnapshot. solve_preserves; first
    [ apply quiet_loadSources | apply quiet_gatherDeps | apply quiet_gatherChainTiers
    | apply quiet_gatherBuiltins ].
Qed.
End quiet.

(** ** What a call does to the heap *)

(** Database calls do not touch the heap. *)
Lemma preserves_db_mem {A} (P : gmap string Namespace → Prop) (m : M S A) :
  preserves (λ st, P (rs_mem st)) (db m).
Proof. intros st Hst. unfold db. by destruct (m (rs_store st)). Qed.

Lemma quiet_same h0 : quiet (λ st, mem_same h0 (rs_mem st)).
Proof.
  split; intros; try apply (preserves_db_mem (mem_same h0)).
  apply preserves_modify. intros st Hst. cbn. etransitivity; [done|].
  apply mem_same_GetOrCreate.
Qed.

Lemma quiet_same_dom h0 id :
  quiet (λ st, mem_same h0 (rs_mem st) ∧ is_Some (rs_mem st !! id)).
Proof.
  split; intros; try apply (preserves_db_mem (λ h, mem_same h0 h ∧ is_Some (h !! id))).
  apply preserves_modify. intros st [Hst Hid]. cbn. split.
  - etransitivity; [done|]. apply mem_same_GetOrCreate.
  - by apply (ms_dom _ _ (mem_same_GetOrCreate (rs_mem st) _)).
Qed.

#[local] Hint Resolve preserves_db_mem preserves_mem : preserves.

Lemma isUnchanged_mem P ns sc fp : preserves (λ st, P (rs_mem st)) (isUnchanged ns sc fp).
Proof. unfold isUnchanged. solve_preserves. Qed.

Lemma storeVersion_mem P req v res : preserves (λ st, P (rs_mem st)) (storeVersion req v res).
Proof. unfold storeVersion. solve_preserves. Qed.

Lemma getOrCreate_hoare h0 id :
  hoare (λ st, mem_same h0 (rs_mem st)) (getOrCreate id)
    (λ _ st, mem_same h0 (rs_mem st) ∧ is_Some (rs_mem st !! id))
    (λ st, mem_same h0 (rs_mem st)).
Proof.
  apply hoare_modify. intros st Hst. cbn. split; [|apply GetOrCreate_is_Some].
  etransitivity; [done|]. apply mem_same_GetOrCreate.
Qed.

Lemma checkAncestorFQNConflicts_hoare P snap ns :
  hoare (λ st, P (rs_mem st)) (checkAncestorFQNConflicts snap ns)
    (λ _ st, P (rs_mem st) ∧ ancestorConflicts snap (tail (Chain (rs_mem st) ns)) = None)
    (λ st, P (rs_mem st)).
Proof.
  intros st Hst. unfold checkAncestorFQNConflicts.
  change ((mem (λ h, Chain h ns) ≫= ?f) st) with (f (Chain (rs_mem st) ns) st). cbv beta.
  by destruct (ancestorConflicts snap (tail (Chain (rs_mem st) ns))) as [[]|] eqn:E.
Qed.

Lemma Compile_version c v sources deps chain builtins res :
  Compile c v sources deps chain builtins = Ok res → snap_version (cr_Snapshot res) = v.
Proof.
  intros (_ & _ & _ & ? & compiled & _ & _ & Hs & _)%Compile_inv. unfold NewFromFiles in Hs.
  destruct (foldM _ _ _) as [[]|]; [|done]. injection Hs as Hs. by rewrite <-Hs.
Qed.

(** The effect of a publish on the heap. *)
Definition published h0 (ns sc : string) (pr : PublishResult) h' : Prop :=
  if pub_NoChange pr then mem_same h0 h'
  else ∃ h1 snap,
    mem_same h0 h1 ∧ is_Some (h1 !! ns) ∧ h' = alter (SetStaged sc (Some snap)) ns h1 ∧
    pub_Snapshot pr = Some snap ∧ snap_version snap = pub_Version pr ∧
    ancestorConflicts snap (tail (Chain h1 ns)) = None.

Lemma publishInternal_hoare h0 r req force :
  hoare (λ st, mem_same h0 (rs_mem st)) (publishInternal r req force)
    (λ pr st, published h0 (pr_NamespaceID req) (pr_SchemaID req) pr (rs_mem st))
    (λ st, mem_same h0 (rs_mem st)).
Proof.
  unfold publishInternal. case_decide; [apply hoare_fail|].
  pose proof (quiet_same_dom h0 (pr_NamespaceID req)) as HJ.
  apply hoare_keep; [apply preserves_of_res|intros ?].
  apply hoare_keep; [apply quiet_ensureNamespaceAndSchema, quiet_same|intros ?].
  eapply hoare_bind; [apply getOrCreate_hoare|intros ?].
  set (J := λ st : RS, mem_same h0 (rs_mem st) ∧ is_Some (rs_mem st !! pr_NamespaceID req)).
  eapply (hoare_conseq _ J _ _ _ _ J); [|done|intros ? ? Hq; exact Hq|by intros st [Hst _]].
  apply hoare_keep; [by apply preserves_wrapM, quiet_gatherDeps|intros deps].
  apply hoare_keep; [by apply preserves_wrapM, quiet_gatherChainTiers|intros tiers].
  apply hoare_keep.
  { case_decide; [apply preserves_ret|by apply preserves_wrapM, quiet_gatherBuiltins]. }
  intros builtins.
  apply hoare_keep; [by apply preserves_wrapM; apply HJ|intros versions]. cbv zeta.
  eapply hoare_bind.
  { apply (hoare_of_res _ _ (λ res st, snap_version (cr_Snapshot res) = nextVersionOf versions ∧
      (mem_same h0 (rs_mem st) ∧ is_Some (rs_mem st !! pr_NamespaceID req)))); [|done].
    intros res st Hres Hst. split; [|done].
    destruct (Compile _ _ _ _ _ _) eqn:E; [|done]. injection Hres as <-.
    by eapply Compile_version. }
  intros res st [Hv Hst]. revert st Hst.
  eapply (hoare_bind _ _ _ _ _ _ (checkAncestorFQNConflicts_hoare
    (λ h, mem_same h0 h ∧ is_Some (h !! pr_NamespaceID req)) (cr_Snapshot res)
    (pr_NamespaceID req))). intros [].
  set (K := λ h, (mem_same h0 h ∧ is_Some (h !! pr_NamespaceID req)) ∧
    ancestorConflicts (cr_Snapshot res) (tail (Chain h (pr_NamespaceID req))) = None).
  apply (hoare_conseq _ (λ st, K (rs_mem st)) _ _ (λ pr st,
    published h0 (pr_NamespaceID req) (pr_SchemaID req) pr (rs_mem st)) _ (λ st, K (rs_mem st)));
    [|done|done|by intros st [? _]].
  apply hoare_keep.
  { destruct force; [apply preserves_ret|apply (isUnchanged_mem K)]. }
  intros [|].
  - intros st [[Hst _] _]. exact Hst.
  - apply hoare_keep; [apply (storeVersion_mem K)|intros ?].
    intros st [[Hst Hdom] Hc]. exists (rs_mem st), (cr_Snapshot res). done.
Qed.

(** The heap after a successful publish. *)
Lemma Publish_heap r req st pr st' :
  Publish r req st = (Ok pr, st') →
  published (rs_mem st) (pr_NamespaceID req) (pr_SchemaID req) pr (rs_mem st').
Proof.
  unfold Publish. intros (u & s1 & Hof & Hp)%M_bind_Ok.
  assert (s1 = st) as -> by (by injection Hof).
  exact (hoare_Ok _ _ _ _ _ _ _ (publishInternal_hoare (rs_mem st) r req false) (reflexivity _) Hp).
Qed.

Lemma cur_of_alter_SetStaged sc snap id h ns sc' :
  cur_of (alter (SetStaged sc snap) id h) ns sc' = cur_of h ns sc'.
Proof.
  unfold cur_of. rewrite lookup_alter. case_decide; [subst|done].
  destruct (h !! ns); [|done]. cbn. apply Current_SetStaged.
Qed.

Lemma stg_of_alter_SetStaged sc snap id h ns sc' :
  is_Some (h !! id) →
  stg_of (alter (SetStaged sc snap) id h) ns sc' =
    if decide (id = ns ∧ sc = sc') then snap else stg_of h ns sc'.
Proof.
  intros [n Hn]. unfold stg_of. rewrite lookup_alter. case_decide as E.
  - subst. rewrite Hn. cbn. rewrite Staged_SetStaged.
    case_decide; [by rewrite decide_True|by rewrite decide_False by naive_solver].
  - by rewrite decide_False by naive_solver.
Qed.

Lemma ancestorConflicts_None snap ancestors :
  ancestorConflicts snap ancestors = None →
  ∀ a sid asnap, a ∈ ancestors → Current a sid = Some asnap →
    DetectFQNConflicts (Some snap) (Some asnap) = [].
Proof.
  induction ancestors as [|a ancestors IH]; cbn [ancestorConflicts]; [set_solver|].
  destruct (flat_map _ (SchemaIDs a)) as [|c l] eqn:E; [|done].
  intros Hn b sid asnap [->|Hb]%elem_of_cons Hc; [|eauto].
  assert (Hsid : sid ∈ SchemaIDs a).
  { unfold SchemaIDs. apply list_elem_of_fmap. unfold Current, getSlot in Hc.
    destruct (ns_schemas a !! sid) as [slot|] eqn:Es; [|done].
    exists (sid, slot). by rewrite elem_of_go_range. }
  apply list_elem_of_In in Hsid. apply in_split in Hsid as (l1 & l2 & Hs).
  rewrite Hs, flat_map_app in E. cbn in E. rewrite Hc in E.
  apply app_nil in E as [_ E]. by apply app_nil in E as [E _].
Qed.

(** Staging in one namespace changes no chain and no current snapshot along it. *)
Lemma chainLoop_alter_SetStaged sc snap id h fuel seen cur :
  Forall2 (λ a b, ∀ sid, Current a sid = Current b sid)
    (chainLoop (alter (SetStaged sc snap) id h) fuel seen cur) (chainLoop h fuel seen cur).
Proof.
  revert seen cur. induction fuel as [|fuel IH]; intros seen [k|]; cbn; try constructor.
  case_decide; [constructor|]. rewrite lookup_alter. case_decide as E.
  - subst. destruct (h !! k) as [n|]; cbn; constructor; [|apply IH].
    intros sid. apply Current_SetStaged.
  - destruct (h !! k); constructor; [done|apply IH].
Qed.

(** C6. A publish that stores a new version stages exactly that version in memory: the
    staged snapshot of the schema is the one returned and carries the returned version
    number, all current snapshots, the staged snapshots of all other schemas and all
    parent pointers are untouched, and no name of the new snapshot is defined in another
    file of a current schema of an ancestor. *)
Theorem Publish_stages_only_its_schema r req st pr st' :
  Publish r req st = (Ok pr, st') → pub_NoChange pr = false →
  ∃ snap,
    pub_Snapshot pr = Some snap ∧ snap_version snap = pub_Version pr ∧
    stg_of (rs_mem st') (pr_NamespaceID req) (pr_SchemaID req) = Some snap ∧
    (∀ ns sc, cur_of (rs_mem st') ns sc = cur_of (rs_mem st) ns sc) ∧
    (∀ ns sc, (ns, sc) ≠ (pr_NamespaceID req, pr_SchemaID req) →
       stg_of (rs_mem st') ns sc = stg_of (rs_mem st) ns sc) ∧
    (∀ ns, par_of (rs_mem st') ns = par_of (rs_mem st) ns) ∧
    (∀ a sid asnap, a ∈ tail (Chain (rs_mem st') (pr_NamespaceID req)) →
       Current a sid = Some asnap → DetectFQNConflicts (Some snap) (Some asnap) = []).
Proof.
  intros Hp%Publish_heap Hn. unfold published in Hp. rewrite Hn in Hp.
  destruct Hp as (h1 & snap & Hs & Hd & -> & Hps & Hv & Hc). exists snap.
  split_and!; [done|done| | | | |].
  - rewrite stg_of_alter_SetStaged by done. by rewrite decide_True.
  - intros ns sc. rewrite cur_of_alter_SetStaged. apply Hs.
  - intros ns sc Hne. rewrite stg_of_alter_SetStaged, decide_False by naive_solver. apply Hs.
  - intros ns. rewrite <-(ms_par _ _ Hs). unfold par_of. rewrite lookup_alter.
    case_decide; [subst|done]. by destruct (h1 !! _).
  - intros a sid asnap Ha Hcur.
    pose proof (chainLoop_alter_SetStaged (pr_SchemaID req) (Some snap) (pr_NamespaceID req) h1
      chainMaxDepth ∅ (Some (pr_NamespaceID req))) as Hf.
    fold (Chain h1 (pr_NamespaceID req)) in Hf.
    fold (Chain (alter (SetStaged (pr_SchemaID req) (Some snap)) (pr_NamespaceID req) h1)
      (pr_NamespaceID req)) in Hf.
    destruct Hf as [|x y l l' Hxy Hl]; cbn in Ha, Hc; [by apply elem_of_nil in Ha|].
    apply list_elem_of_lookup in Ha as [i Hi].
    destruct (Forall2_lookup_l _ _ _ _ _ Hl Hi) as (b & Hb & Hab).
    apply (ancestorConflicts_None snap l' Hc b sid); [by eapply list_elem_of_lookup_2|].
    by rewrite <-Hab.
Qed.

(** ** Failing calls *)

Lemma hoare_set_mem (I : RS → Prop) f : hoare I (set_mem f) (λ _ _, True) I.
Proof. by apply hoare_modify. Qed.

Lemma hoare_mem_match {A B} I (f : gmap string Namespace → option A) (e : error)
    (k : A → M RS B) :
  (∀ a, hoare I (k a) (λ _ _, True) I) →
  hoare I (x ← mem f; match x with None => fail e | Some a => k a end) (λ _ _, True) I.
Proof. intros Hk. apply hoare_keep; [apply preserves_mem|]. intros []; [done|apply hoare_fail]. Qed.

Lemma publishInternal_err h0 r req force :
  hoare (λ st, mem_same h0 (rs_mem st)) (publishInternal r req force)
    (λ _ _, True) (λ st, mem_same h0 (rs_mem st)).
Proof. eapply hoare_conseq; [apply publishInternal_hoare|intros ? Hs; exact Hs|done|done]. Qed.

Lemma mutators_err h0 r :
  let I := λ st : RS, mem_same h0 (rs_mem st) in
  (∀ req, hoare I (Publish r req) (λ _ _, True) I) ∧
  (∀ ns, hoare I (Promote r ns) (λ _ _, True) I) ∧
  (∀ ns, hoare I (DiscardStaging ns) (λ _ _, True) I) ∧
  (∀ ns sc v force, hoare I (Rollback ns sc v force) (λ _ _, True) I) ∧
  (∀ req, hoare I (CreateNamespace r req) (λ _ _, True) I) ∧
  (∀ req, hoare I (SetNamespaceParent r req) (λ _ _, True) I) ∧
  (∀ req, hoare I (Rebase r req) (λ _ _, True) I).
Proof.
  intros I. pose proof (quiet_same h0) as HI. fold I in HI.
  assert (Hdb : ∀ A (m : M S A), preserves I (db m))
    by (intros; apply (preserves_db_mem (mem_same h0))).
  assert (Hget : ∀ id, preserves I (getOrCreate id)) by apply HI.
  split_and!.
  - intros req. apply hoare_keep; [apply preserves_of_res|]. intros ?. apply publishInternal_err.
  - intros ns. apply hoare_keep; [apply preserves_of_res|]. intros ?.
    apply hoare_mem_match. intros n. apply hoare_keep; [apply preserves_of_res|]. intros ?.
    apply hoare_keep; [by apply preserves_wrapM|]. intros ps.
    eapply hoare_bind; [apply hoare_set_mem|]. by intros ? ? ?.
  - intros ns. apply hoare_keep; [by apply preserves_wrapM|]. intros ?. apply hoare_set_mem.
  - intros ns sc v force. unfold Rollback.
    do 3 (apply hoare_keep; [first [by apply preserves_wrapM | apply preserves_of_res]|intros ?]).
    apply hoare_keep.
    { destruct force; [apply preserves_ret|].
      apply preserves_bind; [apply preserves_mem|]. intros c. solve_preserves. }
    intros ?. apply hoare_keep; [by apply preserves_wrapM|]. intros ?.
    apply hoare_keep; [done|]. intros ?. apply hoare_set_mem.
  - intros req. unfold CreateNamespace. apply hoare_keep; [apply preserves_of_res|]. intros ?.
    apply hoare_keep; [by apply preserves_wrapM|]. intros ?.
    apply hoare_keep; [done|]. intros ?. destruct (cn_ParentID req); [|by intros ? ?].
    apply hoare_keep; [by apply preserves_wrapM|]. intros ?.
    apply hoare_keep; [done|]. intros ?. apply hoare_set_mem.
  - intros req. unfold SetNamespaceParent. apply hoare_keep; [apply preserves_of_res|]. intros ?.
    apply hoare_keep; [done|]. intros ?. apply hoare_keep; [done|]. intros ?.
    destruct (sp_ParentID req); [|apply hoare_set_mem].
    apply hoare_keep; [done|]. intros ?. apply hoare_set_mem.
  - intros req. unfold Rebase. apply hoare_keep; [apply preserves_of_res|]. intros ?.
    apply hoare_mem_match. intros n. destruct (Current n _); [|apply hoare_fail].
    apply hoare_keep; [by apply preserves_wrapM|]. intros ?.
    apply hoare_keep; [by apply quiet_loadSources|]. intros ?. apply publishInternal_err.
Qed.

Lemma err_same {A} (m : M RS A) st e st' :
  hoare (λ s, mem_same (rs_mem st) (rs_mem s)) m (λ _ _, True)
    (λ s, mem_same (rs_mem st) (rs_mem s)) →
  m st = (Err e, st') → mem_same (rs_mem st) (rs_mem st').
Proof. intros Hm. by apply (hoare_Err _ _ _ _ _ _ _ Hm). Qed.

(** C7. A call that fails leaves every snapshot, current or staged, and every parent
    pointer of the in-memory state as it was, wherever in the call the error arose. *)
Theorem failed_calls_keep_memory r st e st' :
  (∃ req, Publish r req st = (Err e, st')) ∨ (∃ ns, Promote r ns st = (Err e, st')) ∨
  (∃ ns, DiscardStaging ns st = (Err e, st')) ∨
  (∃ ns sc v force, Rollback ns sc v force st = (Err e, st')) ∨
  (∃ req, CreateNamespace r req st = (Err e, st')) ∨
  (∃ req, SetNamespaceParent r req st = (Err e, st')) ∨
  (∃ req, Rebase r req st = (Err e, st')) →
  mem_same (rs_mem st) (rs_mem st').
Proof.
  destruct (mutators_err (rs_mem st) r) as (? & ? & ? & ? & ? & ? & ?).
  intros [(? & E)|[(? & E)|[(? & E)|[(? & ? & ? & ? & E)|[(? & E)|[(? & E)|(? & E)]]]]]];
    (eapply err_same; [|exact E]); auto.
Qed.

(** ** Promotion *)

Lemma promoteChecks_Ok namespaceID n ids :
  promoteChecks namespaceID n ids = Ok tt →
  ∀ sc s, sc ∈ ids → Staged n sc = Some s →
    match Current n sc with
    | Some c => (snap_version s <= snap_version c)%Z ∨ OK (Check (Some c) s) = true
    | None => True
    end.
Proof.
  induction ids as [|sc ids IH]; [intros _ ? ? ?%elem_of_nil; done|].
  cbn [promoteChecks]. intros Hc sc' s [->|Hin]%elem_of_cons Hs.
  - rewrite Hs in Hc. destruct (Current n sc) as [c|]; [|done].
    destruct (bool_decide_reflect (snap_version s <= snap_version c)%Z); [by left|].
    destruct (OK (Check (Some c) s)); [by right|done].
  - apply IH; [|done..]. destruct (Staged n sc); [|done].
    destruct (match Current n sc with Some _ => _ | None => _ end); [done|].
    by destruct (OK _).
Qed.

Lemma elem_of_SchemaIDs n sc s : Staged n sc = Some s → sc ∈ SchemaIDs n.
Proof.
  unfold Staged, getSlot, SchemaIDs. destruct (ns_schemas n !! sc) as [slot|] eqn:E; [|done].
  intros _. apply list_elem_of_fmap. exists (sc, slot). by rewrite elem_of_go_range.
Qed.

(** The steps of a successful promotion. *)
Lemma Promote_inv r ns st ps st' :
  Promote r ns st = (Ok ps, st') →
  ∃ n s', rs_mem st !! ns = Some n ∧
    promoteChecks ns n (SchemaIDs n) = Ok tt ∧
    store_Promote ns (rs_store st) = (Ok ps, s') ∧
    st' = {| rs_store := s'; rs_mem := <[ns := (PromoteNs n).2]> (rs_mem st) |}.
Proof.
  unfold Promote. intros (u & s1 & Hof & Hp)%M_bind_Ok.
  assert (s1 = st) as -> by (by injection Hof).
  apply M_bind_Ok in Hp as (o & s2 & Hm & Hp). injection Hm as <- <-.
  unfold Get in Hp. cbn in Hp. destruct (rs_mem st !! ns) as [n|] eqn:En; [|done].
  apply M_bind_Ok in Hp as ([] & s3 & Hc & Hp). injection Hc as Hc <-.
  apply M_bind_Ok in Hp as (ps' & s4 & Hw & Hp).
  apply M_bind_Ok in Hp as ([] & s5 & Ho & Hp). injection Hp as -> <-. injection Ho as <-.
  unfold wrapM, db in Hw. destruct (store_Promote ns (rs_store st)) as [[ps'|] s'] eqn:Es;
    [|done]. injection Hw as -> <-. exists n, s'. split_and!; try done. cbn. f_equal.
  apply map_eq. intros k. rewrite lookup_alter, lookup_insert. case_decide; [|done].
  subst. by rewrite En.
Qed.

(** C5. A promotion that succeeds ran the store's promotion once and makes the proposed
    view of the namespace current, all staged schemas together; every staged version newer
    than the current one was accepted by the compatibility check; other namespaces, and
    the parent pointer of this one, are untouched. *)
Theorem Promote_installs_checked r ns st ps st' :
  Promote r ns st = (Ok ps, st') →
  ∃ n n', rs_mem st !! ns = Some n ∧ rs_mem st' !! ns = Some n' ∧
    store_Promote ns (rs_store st) = (Ok ps, rs_store st') ∧
    AllCurrent n' = ProposedView n ∧ (∀ sc, Staged n' sc = None) ∧
    ns_parent n' = ns_parent n ∧
    (∀ sc s c, Staged n sc = Some s → Current n sc = Some c →
       (snap_version s <= snap_version c)%Z ∨ OK (Check (Some c) s) = true) ∧
    (∀ ns', ns' ≠ ns → rs_mem st' !! ns' = rs_mem st !! ns').
Proof.
  intros (n & s' & Hn & Hc & Hs & ->)%Promote_inv. exists n, (PromoteNs n).2.
  cbn [rs_mem rs_store].
  split_and!; [done|by rewrite lookup_insert_eq|done| | |done| |].
  - apply map_eq. intros sc. by rewrite lookup_AllCurrent, Current_PromoteNs, lookup_ProposedView.
  - apply Staged_PromoteNs.
  - intros sc s c Hst Hcur. pose proof (promoteChecks_Ok _ _ _ Hc sc s) as Hk.
    rewrite Hcur in Hk. apply Hk; [by eapply elem_of_SchemaIDs|done].
  - intros ns' Hne. by rewrite lookup_insert_ne.
Qed.

End Registry.
