(* ===== verification/RegistryCoherence.v ===== *)
(** * Agreement of the database and the in-memory state

    Over every store with [StoreLaws]: in a running registry the versions of the current
    and staged snapshots in memory are the current and staged versions in the database,
    after every call, successful or not. A restart is the exception: it forgets staging,
    and a promotion after it moves the database only. *)

From S2P Require Import Prelude GoStrings Descriptor Protobuf Snapshot Compat Conflict.
From S2P Require Import Compiler CompilerThms Namespace NamespaceThms Store Registry RegistryThms.
From stdpp Require Import prelude gmap strings list.

Open Scope string_scope.

Section Coherence.
Context `{Toolchain, ProtoTypes, ProtoNames, GoRange, CompilerVersion} {S : Type}
  `{StoreLaws S}.
#[local] Notation RS := (RState (S := S)).
Implicit Types (h : gmap string Namespace) (st : RS).

Definition agree st : Prop :=
  ∀ ns sc,
    snap_version <$> cur_of (rs_mem st) ns sc = v_current (rs_store st) !! (ns, sc) ∧
    snap_version <$> stg_of (rs_mem st) ns sc = v_staged (rs_store st) !! (ns, sc).

Definition coherent st : Prop := v_ok (rs_store st) ∧ agree st.

Lemma coherent_same st st' :
  coherent st → v_ok (rs_store st') → mem_same (rs_mem st) (rs_mem st') →
  v_current (rs_store st') = v_current (rs_store st) →
  v_staged (rs_store st') = v_staged (rs_store st) → coherent st'.
Proof.
  intros [_ Hc] Hok Hm E1 E2. split; [done|]. intros ns sc.
  rewrite (ms_cur _ _ Hm), (ms_stg _ _ Hm), E1, E2. apply Hc.
Qed.

(** Coherence, with the facts a publish collects: its namespace is in the heap and the
    versions it listed are still stored. *)
Record coherent_with (ns sc : string) (vs : list Z) st : Prop := {
  cw_coherent : coherent st;
  cw_dom : is_Some (rs_mem st !! ns);
  cw_versions : ∀ v, v ∈ vs → (ns, sc, v) ∈ v_versions (rs_store st) }.

Lemma db_coherent {A} (m : M S A) : keeps_versions m → preserves coherent (db m).
Proof.
  intros Hm st Hst. destruct (Hm (rs_store st) (proj1 Hst)) as (Hok & E1 & E2 & _).
  unfold db. destruct (m (rs_store st)) as [x s']. by apply (coherent_same st).
Qed.

Lemma db_coherent_with {A} ns sc vs (m : M S A) :
  keeps_versions m → preserves (coherent_with ns sc vs) (db m).
Proof.
  intros Hm st [Hc Hd Hv]. pose proof (db_coherent m Hm st Hc) as Hc'.
  destruct (Hm (rs_store st) (proj1 Hc)) as (_ & _ & _ & _ & Hvs). unfold db in *.
  destruct (m (rs_store st)) as [x s']. split; [done|done|]. cbn in *. set_solver.
Qed.

Lemma getOrCreate_coherent id : preserves coherent (getOrCreate id).
Proof.
  apply preserves_modify. intros st Hst. apply (coherent_same st); [done|apply Hst| |done..].
  apply mem_same_GetOrCreate.
Qed.

Lemma getOrCreate_coherent_with ns sc vs id :
  preserves (coherent_with ns sc vs) (getOrCreate id).
Proof.
  intros st [Hc Hd Hv]. split; [by apply (getOrCreate_coherent id)| |done]. cbn.
  by apply (ms_dom _ _ (mem_same_GetOrCreate (rs_mem st) id)).
Qed.

Lemma quiet_coherent : quiet coherent.
Proof. split; intros; first [apply getOrCreate_coherent | apply db_coherent; solve_keeps]. Qed.

Lemma quiet_coherent_with ns sc vs : quiet (coherent_with ns sc vs).
Proof.
  split; intros; first [apply getOrCreate_coherent_with | apply db_coherent_with; solve_keeps].
Qed.

(** Staging the same version in the database and in memory. *)
Lemma coherent_stage st s' ns sc v snap :
  coherent st → v_ok s' → is_Some (rs_mem st !! ns) → snap_version snap = v →
  v_staged s' = <[(ns, sc) := v]> (v_staged (rs_store st)) →
  v_current s' = v_current (rs_store st) →
  coherent {| rs_store := s'; rs_mem := alter (SetStaged sc (Some snap)) ns (rs_mem st) |}.
Proof.
  intros [_ Hc] Hok Hd Hv E1 E2. split; [done|]. intros ns' sc'. cbn. rewrite cur_of_alter_SetStaged, E1, E2.
  split; [apply Hc|]. rewrite stg_of_alter_SetStaged, lookup_insert by done.
  case_decide as E; case_decide as E'; try naive_solver. apply Hc.
Qed.

(** The database is one staging ahead of the memory. *)
Definition staged_ahead (ns sc : string) (v : Z) st : Prop :=
  v_ok (rs_store st) ∧
  ∃ s0, coherent {| rs_store := s0; rs_mem := rs_mem st |} ∧ is_Some (rs_mem st !! ns) ∧
    v_staged (rs_store st) = <[(ns, sc) := v]> (v_staged s0) ∧
    v_current (rs_store st) = v_current s0.

Lemma nextVersion_range ns sc vs s l ver fs ds s1 s2 :
  v_ok s → store_ListVersions ns sc s = (Ok l, s) → l = vs →
  (∀ v, v ∈ vs → (ns, sc, v) ∈ v_versions s1) →
  store_PutVersion ver fs ds s1 = (Ok tt, s2) →
  sv_NamespaceID ver = ns → sv_SchemaID ver = sc → sv_Version ver = nextVersionOf vs →
  (0 < nextVersionOf vs <= maxInt64)%Z.
Proof.
  intros Hok Hl -> Hin Hput <- <- Hv. assert (Hu : (0 <= sv_Version ver < 2 ^ 64)%Z).
  { rewrite Hv. unfold nextVersionOf. destruct (last vs); [|lia].
    apply Z.mod_pos_bound. lia. }
  pose proof (PutVersion_fresh _ _ _ _ _ Hu Hput) as Hfresh.
  rewrite Hv in Hfresh. unfold nextVersionOf in *. clear Hu.
  destruct (last vs) as [v|] eqn:El; [|unfold maxInt64; lia].
  apply last_Some_elem_of in El.
  destruct (ListVersions_stored _ _ _ _ _ _ Hok Hl El) as [_ Hr].
  assert (u64 (v + 1) = v + 1)%Z as E.
  { unfold u64. apply Z.mod_small. unfold maxInt64 in Hr. lia. }
  rewrite E in *. split; [lia|]. destruct (decide (v + 1 <= maxInt64)%Z); [done|].
  destruct Hfresh. rewrite Z.min_r by lia. assert (v = maxInt64) as -> by lia. auto.
Qed.

(** [storeVersion] leaves the database one staging ahead, or the invariant. *)
Lemma storeVersion_ahead req vs result s0 :
  v_ok s0 → store_ListVersions (pr_NamespaceID req) (pr_SchemaID req) s0 = (Ok vs, s0) →
  hoare (coherent_with (pr_NamespaceID req) (pr_SchemaID req) vs)
    (storeVersion req (nextVersionOf vs) result)
    (λ _, staged_ahead (pr_NamespaceID req) (pr_SchemaID req) (nextVersionOf vs)) coherent.
Proof.
  intros Hok0 Hlist. set (ns := pr_NamespaceID req). set (sc := pr_SchemaID req).
  set (I := coherent_with ns sc vs). unfold storeVersion.
  assert (HI : ∀ st, I st → coherent st) by (by intros st []).
  eapply hoare_bind with (R := λ _, I).
  { eapply hoare_conseq; [apply hoare_preserves| |intros ? ? Hs; exact Hs|exact HI]; [|done].
    apply preserves_forM_. intros f. apply preserves_wrapM, db_coherent_with, keeps_PutBlob. }
  intros _. eapply hoare_bind with (R := λ _ st, I st ∧ (ns, sc) ∈ v_schemas (rs_store st) ∧
    (0 < nextVersionOf vs <= maxInt64)%Z).
  { apply hoare_wrapM. intros st Hst. set (ver := {| sv_NamespaceID := _ |}).
    set (fs := (λ f : FileResult, _) <$> _). set (ds := (λ d : Dep, _) <$> _).
    pose proof (db_coherent_with ns sc vs _ (keeps_PutVersion ver fs ds) st Hst) as Hk.
    unfold db in *. destruct (store_PutVersion ver fs ds (rs_store st)) as [[[]|e] s'] eqn:E.
    - split_and!; [exact Hk|exact (PutVersion_schema _ _ _ _ _ E)| |];
        apply (nextVersion_range ns sc vs s0 vs ver fs ds (rs_store st) s'); auto; apply Hst.
    - by apply HI. }
  intros _. apply hoare_wrapM. intros st (Hst & Hsc & Hr). unfold db.
  destruct (store_SetStaged _ _ _ (rs_store st)) as [[[]|e] s'] eqn:E.
  - destruct Hst as [Hc Hd _].
    destruct (SetStaged_Ok _ _ _ _ _ E Hsc Hr (proj1 Hc)) as (Hok & E1 & E2 & _ & _).
    split; [done|]. exists (rs_store st). by destruct st.
  - apply SetStaged_Err in E as ->. destruct Hst as [Hc _ _]. by destruct st.
Qed.

Lemma stage_in_memory ns sc v snap :
  snap_version snap = v →
  hoare (staged_ahead ns sc v) (on_ns ns (SetStaged sc (Some snap))) (λ _, coherent) coherent.
Proof.
  intros Hv. apply hoare_modify. intros [s h] (Hok & s0 & Hc & Hd & E1 & E2). cbn in *.
  by apply (coherent_stage {| rs_store := s0; rs_mem := h |} s ns sc v snap).
Qed.

Lemma cw_weaken ns sc vs st : coherent_with ns sc vs st → coherent st.
Proof. by intros []. Qed.
#[local] Hint Resolve cw_weaken : core.

Lemma ListVersions_hoare ns sc c :
  hoare (coherent_with ns sc []) (wrapM c (db (store_ListVersions ns sc)))
    (λ vs st, coherent_with ns sc vs st ∧ ∃ s0, v_ok s0 ∧ store_ListVersions ns sc s0 = (Ok vs, s0))
    coherent.
Proof.
  apply hoare_wrapM. intros st [Hc Hd _]. unfold db.
  pose proof (reads_ListVersions ns sc (rs_store st)) as Hrd.
  destruct (store_ListVersions ns sc (rs_store st)) as [[vs|] s'] eqn:E; cbn in Hrd; subst s'.
  - split; [|exists (rs_store st); split; [apply Hc|done]]. split; [by destruct st|done|].
    intros v Hv. cbn. by apply (ListVersions_stored _ _ _ _ _ _ (proj1 Hc) E).
  - by destruct st.
Qed.

Lemma publishInternal_coherent r req force : preserves coherent (publishInternal r req force).
Proof.
  set (ns := pr_NamespaceID req). set (sc := pr_SchemaID req).
  pose proof quiet_coherent as HQ. pose proof (quiet_coherent_with ns sc []) as HQ'.
  apply preserves_hoare. unfold publishInternal. case_decide; [apply hoare_fail|].
  apply hoare_keep; [apply preserves_of_res|intros ?].
  apply hoare_keep; [by apply quiet_ensureNamespaceAndSchema|intros ?].
  eapply hoare_bind with (R := λ _, coherent_with ns sc []).
  { apply hoare_modify. intros st Hst. split; [by apply (getOrCreate_coherent ns)| |set_solver].
    apply GetOrCreate_is_Some. }
  intros ?.
  apply hoare_step; [eauto|by apply preserves_wrapM, quiet_gatherDeps|intros deps].
  apply hoare_step; [eauto|by apply preserves_wrapM, quiet_gatherChainTiers|intros tiers].
  apply hoare_step; [eauto| |intros builtins].
  { case_decide; [apply preserves_ret|by apply preserves_wrapM, quiet_gatherBuiltins]. }
  eapply hoare_bind; [apply ListVersions_hoare|]. intros vs. cbv zeta.
  apply hoare_pure. intros (s0 & Hok0 & Hlist). pose proof (quiet_coherent_with ns sc vs) as HV.
  eapply hoare_bind with (R := λ result st, coherent_with ns sc vs st ∧
    snap_version (cr_Snapshot result) = nextVersionOf vs).
  { apply hoare_of_res; [|eauto]. intros result st Hres Hst. split; [done|].
    destruct (Compile _ _ _ _ _ _) eqn:E; [|done]. injection Hres as <-.
    by eapply Compile_version. }
  intros result. apply hoare_pure. intros Hv.
  apply hoare_step; [eauto|by apply quiet_checkAncestorFQNConflicts|intros ?].
  apply hoare_step; [eauto| |intros [|]].
  { destruct force; [apply preserves_ret|by apply quiet_isUnchanged]. }
  { intros st Hst. by apply cw_weaken in Hst. }
  eapply hoare_bind; [by apply (storeVersion_ahead req vs result s0)|intros ?].
  eapply hoare_bind; [by apply stage_in_memory|intros ?]. by intros st Hst.
Qed.

Lemma Publish_coherent r req : preserves coherent (Publish r req).
Proof.
  unfold Publish. apply preserves_bind; [apply preserves_of_res|]. intros ?.
  apply publishInternal_coherent.
Qed.

(** ** The other calls *)

Lemma on_ns_coherent id f :
  (∀ n sc, Current (f n) sc = Current n sc ∧ Staged (f n) sc = Staged n sc) →
  preserves coherent (on_ns id f).
Proof.
  intros Hf. apply preserves_modify. intros st [Hok Hst]. split; [done|]. intros ns sc.
  specialize (Hst ns sc). cbn. unfold cur_of, stg_of in *. rewrite lookup_alter. case_decide; [subst|done].
  destruct (rs_mem st !! _) as [n|]; [|done]. cbn in *. destruct (Hf n sc) as [-> ->]. done.
Qed.

Lemma cur_of_insert ns n h ns' sc :
  cur_of (<[ns := n]> h) ns' sc = if decide (ns = ns') then Current n sc else cur_of h ns' sc.
Proof. unfold cur_of. rewrite lookup_insert. by case_decide. Qed.

Lemma stg_of_insert ns n h ns' sc :
  stg_of (<[ns := n]> h) ns' sc = if decide (ns = ns') then Staged n sc else stg_of h ns' sc.
Proof. unfold stg_of. rewrite lookup_insert. by case_decide. Qed.

(** Clearing the staged versions of a namespace. *)
Lemma lookup_cleared (ns ns' sc : string) (m : gmap (string * string) Z) :
  filter (λ kv, kv.1.1 ≠ ns) m !! (ns', sc) = if decide (ns = ns') then None else m !! (ns', sc).
Proof.
  case_decide as E.
  - apply map_lookup_filter_None_2. right. intros v _ Hn. by apply Hn.
  - destruct (m !! (ns', sc)) as [v|] eqn:Ev.
    + apply map_lookup_filter_Some_2; [done|]. cbn. congruence.
    + apply map_lookup_filter_None_2. by left.
Qed.

Lemma lookup_promoted (ns ns' sc : string) (g c : gmap (string * string) Z) :
  promoted_view ns g c !! (ns', sc) =
    if decide (ns = ns') then match g !! (ns', sc) with Some v => Some v | None => c !! (ns', sc) end
    else c !! (ns', sc).
Proof.
  unfold promoted_view. rewrite lookup_union. case_decide as E.
  - subst. destruct (g !! (ns', sc)) as [v|] eqn:Ev.
    + rewrite (map_lookup_filter_Some_2 _ _ _ v) by done. by destruct (c !! _).
    + rewrite map_lookup_filter_None_2 by by left. by destruct (c !! _).
  - rewrite map_lookup_filter_None_2; [by destruct (c !! _)|].
    right. intros v _ Hn. apply E. by rewrite <-Hn.
Qed.

Lemma Promote_failed r ns st e st' : Promote r ns st = (Err e, st') → st' = st.
Proof.
  unfold Promote. intros [Hof|(u & s1 & Hof & Hp)]%M_bind_Err; [by injection Hof|].
  assert (s1 = st) as -> by (by injection Hof).
  apply M_bind_Err in Hp as [Hm|(o & s2 & Hm & Hp)]; [done|]. injection Hm as <- <-.
  cbn in Hp. destruct (Get (rs_mem st) ns) as [n|]; [|by injection Hp].
  apply M_bind_Err in Hp as [Hc|([] & s3 & Hc & Hp)]; [by injection Hc|].
  injection Hc as _ <-. apply M_bind_Err in Hp as [Hw|(ps & s4 & Hw & Hp)]; [|done].
  unfold wrapM, db in Hw. destruct (store_Promote ns (rs_store st)) as [[|] s'] eqn:Es; [done|].
  apply Promote_Err in Es as ->. injection Hw as _ <-. by destruct st.
Qed.

Lemma Promote_coherent r ns : preserves coherent (Promote r ns).
Proof.
  intros st Hst. destruct (Promote r ns st) as [[ps|e] st'] eqn:E; cbn [snd];
    [|by apply Promote_failed in E as ->].
  apply Promote_inv in E as (n & s' & Hn & _ & Hs & ->).
  destruct Hst as [Hok Hst]. destruct (Promote_Ok _ _ _ _ Hok Hs) as (Hok' & E1 & E2 & _).
  split; [done|]. intros ns' sc. specialize (Hst ns' sc) as [Hc Hg]. cbn [rs_mem rs_store].
  rewrite E1, E2, lookup_promoted, lookup_cleared, cur_of_insert, stg_of_insert.
  case_decide as En; [|done]. subst ns'. unfold cur_of, stg_of in *. rewrite Hn in Hc, Hg.
  change (Some n ≫= ?f) with (f n) in Hc, Hg.
  rewrite Current_PromoteNs, Staged_PromoteNs, <-Hc, <-Hg.
  by destruct (Staged n sc).
Qed.

Lemma DiscardStaging_coherent ns : preserves coherent (DiscardStaging ns).
Proof.
  apply preserves_hoare. unfold DiscardStaging.
  eapply hoare_bind with (R := λ _ st, v_ok (rs_store st) ∧
    ∃ s0, coherent {| rs_store := s0; rs_mem := rs_mem st |} ∧
    v_staged (rs_store st) = filter (λ kv, kv.1.1 ≠ ns) (v_staged s0) ∧
    v_current (rs_store st) = v_current s0).
  { apply hoare_wrapM. intros st Hst. unfold db.
    destruct (store_DiscardStaging ns (rs_store st)) as [[[]|e] s'] eqn:E.
    - destruct (DiscardStaging_Ok _ _ _ (proj1 Hst) E) as (Hok & E1 & E2 & _).
      split; [done|]. exists (rs_store st). by destruct st.
    - apply DiscardStaging_Err in E as ->. by destruct st. }
  intros ?. apply hoare_modify. intros [s h] (Hok & s0 & [_ Hc] & E1 & E2).
  split; [done|]. intros ns' sc. cbn in *. destruct (Hc ns' sc) as [Hc1 Hc2]. cbn in *. rewrite E1, E2, lookup_cleared, <-Hc1, <-Hc2.
  unfold cur_of, stg_of. rewrite lookup_alter. case_decide as E; [subst|done].
  destruct (h !! ns') as [n|]; [|done]. cbn [fmap option_fmap option_map mbind option_bind].
  by rewrite Current_DiscardStagingNs, Staged_DiscardStagingNs.
Qed.

Lemma Rollback_coherent ns sc v force :
  (0 < v <= maxInt64)%Z → preserves coherent (Rollback ns sc v force).
Proof.
  intros Hv. apply preserves_hoare. unfold Rollback.
  set (I := λ st : RS, coherent st ∧ (ns, sc) ∈ v_schemas (rs_store st)).
  assert (HI : ∀ st, I st → coherent st) by (by intros st []).
  eapply hoare_bind with (R := λ _, I).
  { apply hoare_wrapM. intros st Hst. unfold db.
    pose proof (reads_GetVersion ns sc v (rs_store st)) as Hrd.
    destruct (store_GetVersion ns sc v (rs_store st)) as [[ver|] s'] eqn:E; cbn in Hrd; subst s'.
    - split; [by destruct st|]. eapply GetVersion_schema; [apply Hst|exact E].
    - by destruct st. }
  intros ver. apply hoare_step; [done|apply preserves_of_res|intros fds].
  eapply hoare_bind with (R := λ snap st, I st ∧ snap_version snap = v).
  { apply hoare_of_res; [|done]. intros snap st Hn Hst. split; [done|].
    unfold Snapshot.New in Hn. destruct (NewFiles fds); [|done].
    destruct (foldM _ _ _); [|done]. by injection Hn as <-. }
  intros snap. apply hoare_pure. intros Hsv.
  apply hoare_step; [done| |intros ?].
  { destruct force; [apply preserves_ret|]. apply preserves_bind; [apply preserves_gets|].
    intros c. solve_preserves. }
  eapply hoare_bind with (R := λ _ st, v_ok (rs_store st) ∧
    ∃ s0, coherent {| rs_store := s0; rs_mem := rs_mem st |} ∧
    v_staged (rs_store st) = <[(ns, sc) := v]> (v_staged s0) ∧
    v_current (rs_store st) = v_current s0).
  { apply hoare_wrapM. intros st [Hst Hsc]. unfold db.
    destruct (store_SetStaged ns sc v (rs_store st)) as [[[]|e] s'] eqn:E.
    - destruct (SetStaged_Ok _ _ _ _ _ E Hsc Hv (proj1 Hst)) as (Hok & E1 & E2 & _).
      split; [done|]. exists (rs_store st). by destruct st.
    - apply SetStaged_Err in E as ->. by destruct st. }
  intros ?. eapply hoare_bind with (R := λ _, staged_ahead ns sc v); [|intros ?; by apply stage_in_memory].
  apply hoare_modify. intros [s h] (Hok & s0 & Hc & E1 & E2). cbn in *.
  split; [done|]. exists s0. cbn. split_and!; [|apply GetOrCreate_is_Some|done|done].
  apply (coherent_same {| rs_store := s0; rs_mem := h |}); [done|apply Hc| |done..].
  apply mem_same_GetOrCreate.
Qed.

Lemma hierarchy_coherent r :
  (∀ req, preserves coherent (CreateNamespace r req)) ∧
  (∀ req, preserves coherent (SetNamespaceParent r req)).
Proof.
  assert (Hp : ∀ id p, preserves coherent (on_ns id (SetParent p))) by (intros; by apply on_ns_coherent).
  assert (Hg := getOrCreate_coherent).
  split; intros req; [unfold CreateNamespace|unfold SetNamespaceParent]; solve_preserves;
    auto; apply db_coherent; solve_keeps.
Qed.

Lemma Rebase_coherent r req : preserves coherent (Rebase r req).
Proof.
  unfold Rebase. apply preserves_bind; [apply preserves_of_res|]. intros ?.
  apply preserves_bind; [apply preserves_gets|]. intros [n|]; [|apply preserves_fail].
  destruct (Current n _); [|apply preserves_fail].
  apply preserves_bind; [apply preserves_wrapM, db_coherent; solve_keeps|]. intros fs.
  apply preserves_bind; [apply quiet_loadSources, quiet_coherent|]. intros src.
  apply publishInternal_coherent.
Qed.

(** One call of a running registry; its result is ignored. A rollback names a version in
    the range of the version column. *)
Inductive registry_step r : RS → RS → Prop :=
  | step_Publish req st : registry_step r st (Publish r req st).2
  | step_Promote ns st : registry_step r st (Promote r ns st).2
  | step_DiscardStaging ns st : registry_step r st (DiscardStaging ns st).2
  | step_Rollback ns sc v force st :
     (0 < v <= maxInt64)%Z → registry_step r st (Rollback ns sc v force st).2
  | step_CreateNamespace req st : registry_step r st (CreateNamespace r req st).2
  | step_SetNamespaceParent req st : registry_step r st (SetNamespaceParent r req st).2
  | step_Rebase req st : registry_step r st (Rebase r req st).2.

Lemma registry_step_coherent r st st' : registry_step r st st' → coherent st → coherent st'.
Proof.
  destruct 1; intros Hst.
  - by apply Publish_coherent.
  - by apply Promote_coherent.
  - by apply DiscardStaging_coherent.
  - by apply Rollback_coherent.
  - by apply hierarchy_coherent.
  - by apply hierarchy_coherent.
  - by apply Rebase_coherent.
Qed.

(** C1. Database and memory agree: from a coherent state, after any sequence of publishes,
    promotions, discards, rollbacks, rebases and hierarchy changes, each of them
    successful or not, the current and the staged version of every schema in the database
    are the versions of its current and staged snapshot in memory. *)
Theorem registry_stays_coherent r st st' :
  rtc (registry_step r) st st' → coherent st →
  ∀ ns sc,
    snap_version <$> cur_of (rs_mem st') ns sc = v_current (rs_store st') !! (ns, sc) ∧
    snap_version <$> stg_of (rs_mem st') ns sc = v_staged (rs_store st') !! (ns, sc).
Proof.
  intros Hs Hc. enough (coherent st') as [_ Ha] by exact Ha.
  induction Hs as [|x y z Hxy _ IH]; eauto using registry_step_coherent.
Qed.

(** With a version staged in the database and nothing staged in memory, a successful promotion
    makes the staged version current in the database, while the snapshot served from memory
    stays the old one. *)
Lemma Promote_unstaged_diverges r ns st ps st' sc v :
  (∀ sc, stg_of (rs_mem st) ns sc = None) → v_staged (rs_store st) !! (ns, sc) = Some v →
  Promote r ns st = (Ok ps, st') →
  v_ok (rs_store st) →
  v_current (rs_store st') !! (ns, sc) = Some v ∧
  cur_of (rs_mem st') ns sc = cur_of (rs_mem st) ns sc.
Proof.
  intros Hno Hv (n & s' & Hn & _ & Hs & ->)%Promote_inv Hok. cbn [rs_mem rs_store].
  destruct (Promote_Ok _ _ _ _ Hok Hs) as (_ & E1 & _). rewrite E1, lookup_promoted, decide_True, Hv by done.
  split; [done|]. rewrite cur_of_insert, decide_True by done.
  specialize (Hno sc). unfold stg_of, cur_of in *. rewrite Hn in *.
  change (Some n ≫= ?f) with (f n) in *. by rewrite Current_PromoteNs, Hno.
Qed.

End Coherence.
