(* ===== verification/RegistryRestore.v ===== *)
(** * Recovery at startup

    [Restore] rebuilds the in-memory namespaces from the database: the hierarchy from the
    namespace rows, and one current snapshot per loaded schema, whether its stored
    descriptors are used or it is compiled again. *)

From S2P Require Import Prelude GoStrings Descriptor Protobuf Snapshot Compat Conflict.
From S2P Require Import Compiler CompilerThms Namespace NamespaceThms Store Registry.
From S2P Require Import RegistryThms RegistryCoherence.
From stdpp Require Import prelude gmap strings list pretty.

Open Scope string_scope.

(** The parent pointer the namespace rows give to a namespace, and the version the loaded
    schemas give to a schema; a later row wins. *)
Definition restored_parent (rows : list StoreNamespace) (ns : string) : option string :=
  last (omap (λ n, if decide (sn_ID n = ns) then sn_ParentNamespaceID n else None) rows).
Definition restored_version (schemas : list CurrentSchema) (ns sc : string) : option Z :=
  cs_Version <$>
    last (filter (λ c, cs_NamespaceID c = ns ∧ cs_SchemaID c = sc) schemas).

Section Restore.
Context `{Toolchain, ProtoTypes, ProtoNames, GoRange, CompilerVersion} {S : Type}
  `{StoreLaws S}.
#[local] Notation RS := (RState (S := S)).
Implicit Types st : RS.

(** Nothing is known after a failure. *)
#[local] Notation anything := (λ _ : RS, True).

(** The memory during recovery: the namespaces of [rows] exist, the rows [ps] have their
    parents, and [cs] are the schemas loaded. *)
Record recovering (rows ps : list StoreNamespace) (cs : list CurrentSchema)
    (h : gmap string Namespace) : Prop := {
  rc_rows n : n ∈ rows → is_Some (h !! sn_ID n);
  rc_parent ns : par_of h ns = restored_parent ps ns;
  rc_current ns sc : snap_version <$> cur_of h ns sc = restored_version cs ns sc;
  rc_staged ns sc : stg_of h ns sc = None }.

Lemma recovering_same rows ps cs h h' :
  recovering rows ps cs h → mem_same h h' → recovering rows ps cs h'.
Proof.
  intros [R1 R2 R3 R4] [E1 E2 E3 E4]. split; intros *; rewrite ?E1, ?E2, ?E3; eauto.
Qed.

#[local] Notation at_mem P := (λ st : RS, P (rs_mem st)).

Lemma quiet_recovering rows ps cs : quiet (at_mem (recovering rows ps cs)).
Proof.
  split; intros; try apply preserves_db_mem.
  apply preserves_modify. intros st Hst. eapply recovering_same; [done|].
  apply mem_same_GetOrCreate.
Qed.

Lemma create_rows rows :
  hoare (at_mem (recovering [] [] [])) (forM_ rows (λ n, getOrCreate (sn_ID n)))
    (λ _, at_mem (recovering rows [] [])) anything.
Proof.
  apply (hoare_forM_ (λ xs, at_mem (recovering xs [] []))). intros xs n _.
  apply hoare_modify. intros st Hst.
  destruct (recovering_same _ _ _ _ _ Hst (mem_same_GetOrCreate (rs_mem st) (sn_ID n)))
    as [R1 R2 R3 R4].
  split; [|done..]. intros m. rewrite elem_of_app, list_elem_of_singleton.
  intros [Hm| ->]; [auto|apply GetOrCreate_is_Some].
Qed.

Lemma restored_parent_snoc ps n ns :
  restored_parent (ps ++ [n])%list ns =
    match (if decide (sn_ID n = ns) then sn_ParentNamespaceID n else None) with
    | Some p => Some p
    | None => restored_parent ps ns
    end.
Proof.
  unfold restored_parent. rewrite omap_app. cbn.
  destruct (if decide (sn_ID n = ns) then _ else _) as [p|].
  - by rewrite last_snoc.
  - by rewrite app_nil_r.
Qed.

Lemma set_parents rows :
  hoare (at_mem (recovering rows [] []))
    (forM_ rows (λ n,
      match sn_ParentNamespaceID n with
      | None => mret tt
      | Some p =>
         parent ← mem (λ h, Get h p);
         match parent with
         | None => fail (ErrNew ("namespace " +:+ sn_ID n +:+ " references unknown parent " +:+ p))
         | Some _ => on_ns (sn_ID n) (SetParent (Some p))
         end
      end))
    (λ _, at_mem (recovering rows rows [])) anything.
Proof.
  apply (hoare_forM_ (λ ps, at_mem (recovering rows ps []))). intros ps n Hn.
  destruct (sn_ParentNamespaceID n) as [p|] eqn:Ep.
  - eapply hoare_bind with (R := λ _, at_mem (recovering rows ps [])).
    { by intros st Hst. }
    intros [parent|]; [|by intros st _].
    apply hoare_modify. intros st [R1 R2 R3 R4]. destruct (R1 n Hn) as [ns0 Hns0].
    split; cbn [rs_mem]; unfold par_of, cur_of, stg_of in *.
    + intros m Hm. apply lookup_alter_is_Some. auto.
    + intros ns. rewrite restored_parent_snoc, Ep, lookup_alter. case_decide; [subst|apply R2].
      by rewrite Hns0.
    + intros ns sc. rewrite <-R3, lookup_alter. case_decide; [subst|done]. by rewrite Hns0.
    + intros ns sc. rewrite <-(R4 ns sc), lookup_alter. case_decide; [subst|done]. by rewrite Hns0.
  - intros st [R1 R2 R3 R4]. split; [done| |done..]. intros ns.
    rewrite restored_parent_snoc, Ep. by case_decide.
Qed.

(** A snapshot is built at the version of its row. *)
Lemma buildSnapshot_version r cs v P :
  quiet P → hoare P (buildSnapshot r cs v) (λ snap st, P st ∧ snap_version snap = cs_Version cs)
    anything.
Proof.
  intros HP. unfold buildSnapshot.
  assert (HT : ∀ st, P st → True) by done. case_decide.
  - apply hoare_step; [done|apply preserves_of_res|]. intros fds.
    apply hoare_of_res; [|done]. intros snap st Hn Hst. split; [done|].
    unfold Snapshot.New in Hn. destruct (NewFiles fds); [|done].
    destruct (foldM _ _ _); [|done]. by injection Hn as <-.
  - apply hoare_step; [done|by apply quiet_loadSources|intros sources].
    apply hoare_step; [done|by apply preserves_wrapM, quiet_gatherDeps|intros deps].
    apply hoare_step; [done|by apply q_getOrCreate|intros _].
    apply hoare_step; [done|by apply preserves_wrapM, quiet_gatherChainTiers|intros tiers].
    apply hoare_step; [done| |intros builtins].
    { case_decide; [apply preserves_ret|by apply preserves_wrapM, quiet_gatherBuiltins]. }
    eapply hoare_bind with (R := λ result st, P st ∧
      snap_version (cr_Snapshot result) = cs_Version cs).
    + apply hoare_of_res; [|done]. intros result st Hres Hst. split; [done|].
      destruct (Compile _ _ _ _ _ _) eqn:E; [|done]. injection Hres as <-.
      by eapply Compile_version.
    + intros result. by intros st Hst.
Qed.

Lemma restored_version_snoc cs c ns sc :
  restored_version (cs ++ [c])%list ns sc =
    if decide (cs_NamespaceID c = ns ∧ cs_SchemaID c = sc) then Some (cs_Version c)
    else restored_version cs ns sc.
Proof.
  unfold restored_version. rewrite filter_app. case_decide as Hc.
  - by rewrite filter_cons_True, filter_nil, last_snoc by done.
  - by rewrite filter_cons_False, filter_nil, app_nil_r by done.
Qed.

Lemma load_schema rows cs c snap h :
  recovering rows rows cs h → is_Some (h !! cs_NamespaceID c) →
  snap_version snap = cs_Version c →
  recovering rows rows (cs ++ [c])%list
    (alter (λ ns, (SetCurrent (cs_SchemaID c) (Some snap) ns).2) (cs_NamespaceID c) h).
Proof.
  intros [R1 R2 R3 R4] [n Hn] Hv. split; unfold par_of, cur_of, stg_of in *.
  - intros m Hm. apply lookup_alter_is_Some. auto.
  - intros ns. rewrite <-R2, lookup_alter. case_decide; [subst|done]. by rewrite Hn.
  - intros ns sc. rewrite restored_version_snoc, lookup_alter.
    destruct (decide (cs_NamespaceID c = ns)) as [<-|Hne].
    + rewrite Hn. cbn [fmap option_fmap option_map mbind option_bind].
      rewrite Current_SetCurrent. case_decide as E.
      * rewrite decide_True by naive_solver. cbn. by rewrite Hv.
      * rewrite decide_False by naive_solver. rewrite <-R3, Hn. done.
    + rewrite decide_False by naive_solver. apply R3.
  - intros ns sc. rewrite <-(R4 ns sc), lookup_alter. case_decide; [subst|done].
    rewrite Hn. apply Staged_SetCurrent.
Qed.

Lemma load_schemas r rows schemas :
  hoare (at_mem (recovering rows rows []))
    (forM_ schemas (λ cs,
      snap ← wrapM ("restoring " +:+ cs_NamespaceID cs +:+ "/" +:+ cs_SchemaID cs +:+ "@" +:+
                    pretty (cs_Version cs)) (buildSnapshot r cs compiler_Version);
      getOrCreate (cs_NamespaceID cs) ;;
      on_ns (cs_NamespaceID cs) (λ ns, (SetCurrent (cs_SchemaID cs) (Some snap) ns).2)))
    (λ _, at_mem (recovering rows rows schemas)) anything.
Proof.
  apply (hoare_forM_ (λ cs, at_mem (recovering rows rows cs))). intros cs c _.
  eapply hoare_bind; [apply hoare_wrapM, buildSnapshot_version, quiet_recovering|].
  intros snap. apply hoare_pure. intros Hv.
  eapply hoare_bind with (R := λ _ st, recovering rows rows cs (rs_mem st) ∧
    is_Some (rs_mem st !! cs_NamespaceID c)).
  - apply hoare_modify. intros st Hst. split; [|apply GetOrCreate_is_Some].
    eapply recovering_same; [done|]. apply mem_same_GetOrCreate.
  - intros _. apply hoare_modify. intros st [Hst Hd]. by apply load_schema.
Qed.

(** C8. Recovery rebuilds the registry from the database: starting from an empty memory,
    a successful [Restore] gives every namespace row its object and its parent pointer,
    and every loaded schema its current snapshot at the loaded version, from the stored
    descriptors or by compiling again; nothing else is current, and nothing is staged. *)
Theorem Restore_rebuilds r st st' :
  rs_mem st = ∅ → Restore r st = (Ok tt, st') →
  ∃ rows schemas,
    store_ListNamespaces (rs_store st) = (Ok rows, rs_store st) ∧
    store_LoadAllCurrent (rs_store st) = (Ok schemas, rs_store st) ∧
    (∀ n, n ∈ rows → is_Some (rs_mem st' !! sn_ID n)) ∧
    (∀ ns, par_of (rs_mem st') ns = restored_parent rows ns) ∧
    (∀ ns sc, snap_version <$> cur_of (rs_mem st') ns sc = restored_version schemas ns sc) ∧
    (∀ ns sc, stg_of (rs_mem st') ns sc = None).
Proof.
  intros He Hr. unfold Restore in Hr.
  apply M_bind_Ok in Hr as (rows & s1 & Hl & Hr). unfold wrapM, db in Hl.
  pose proof (reads_ListNamespaces (rs_store st)) as Hread.
  destruct (store_ListNamespaces (rs_store st)) as [[rows'|] s'] eqn:E1; [|done].
  cbn in Hread. subst s'. injection Hl as -> <-.
  apply M_bind_Ok in Hr as ([] & s2 & Hc & Hr).
  assert (Hrec0 : recovering [] [] [] (rs_mem {| rs_store := rs_store st; rs_mem := rs_mem st |})).
  { cbn. rewrite He. split; try done. by intros n Hn%elem_of_nil. }
  pose proof (hoare_Ok _ _ _ _ _ _ _ (create_rows rows) Hrec0 Hc) as Hrec1.
  apply M_bind_Ok in Hr as ([] & s3 & Hp & Hr).
  pose proof (hoare_Ok _ _ _ _ _ _ _ (set_parents rows) Hrec1 Hp) as Hrec2.
  apply M_bind_Ok in Hr as (schemas & s4 & Hlc & Hr). unfold wrapM, db in Hlc.
  assert (Hstore : rs_store s3 = rs_store st).
  { assert (Hk : ∀ A (m : M RS A), preserves (λ x, rs_store x = rs_store st) m →
      ∀ x y a, rs_store x = rs_store st → m x = (Ok a, y) → rs_store y = rs_store st).
    { intros A m Hm x y a Hx E. specialize (Hm x Hx). by rewrite E in Hm. }
    eapply Hk; [|eapply Hk; [| |exact Hc]|exact Hp]; [| |done].
    - apply preserves_forM_. intros n. destruct (sn_ParentNamespaceID n); [|apply preserves_ret].
      apply preserves_bind; [apply preserves_gets|]. intros [|]; [|apply preserves_fail].
      by apply preserves_modify.
    - apply preserves_forM_. intros n. by apply preserves_modify. }
  rewrite Hstore in Hlc. pose proof (reads_LoadAllCurrent (rs_store st)) as Hread.
  destruct (store_LoadAllCurrent (rs_store st)) as [[schemas'|] s'] eqn:E2; [|done].
  cbn in Hread. subst s'. injection Hlc as -> <-.
  assert (recovering rows rows schemas (rs_mem st')) as [R1 R2 R3 R4].
  { eapply (hoare_Ok _ _ _ _ _ _ _ (load_schemas r rows schemas)); [|exact Hr]. exact Hrec2. }
  exists rows, schemas. split_and!; auto.
Qed.
End Restore.
