(* ===== verification/GoPath.v ===== *)
(** * Go's [path.Clean], [strings.Fields] and [strings.TrimSpace]

    The parts of the standard library that request validation and the token file parser
    use, on byte strings. *)

From S2P Require Import Prelude GoStrings.
From stdpp Require Import prelude strings list.

Open Scope string_scope.

(** ** [path.Clean] *)

(** One path element; the output is a stack, the last element first. *)
Definition cleanStep (rooted : bool) (out : list string) (seg : string) : list string :=
  if decide (seg = "" ∨ seg = ".") then out
  else if decide (seg = "..") then
    match out with
    | x :: rest => if decide (x = "..") then seg :: out else rest
    | [] => if rooted then [] else [seg]
    end
  else seg :: out.

Definition Clean (p : string) : string :=
  if decide (p = "") then "."
  else
    let rooted := HasPrefix p "/" in
    let out := fold_left (cleanStep rooted) (Split p slash) [] in
    if rooted then "/" +:+ strings_Join (reverse out) "/"
    else match out with [] => "." | _ => strings_Join (reverse out) "/" end.

(** ** White space

    [unicode.IsSpace] on UTF-8: the number of bytes of the white-space character a string
    starts with, 0 when it starts with none. A lead byte never occurs inside another
    character, so scanning by bytes finds the characters Go's decoder finds. *)
Definition byte_of (c : Ascii.ascii) : nat := Ascii.nat_of_ascii c.

Definition space_len (s : string) : nat :=
  match s with
  | String a s1 =>
     let a := byte_of a in
     if decide (9 ≤ a ≤ 13 ∨ a = 32)%nat then 1
     else match s1 with
     | String b s2 =>
        let b := byte_of b in
        if decide (a = 194 ∧ (b = 133 ∨ b = 160)) then 2
        else match s2 with
        | String c _ =>
           let c := byte_of c in
           if decide ((a = 225 ∧ b = 154 ∧ c = 128) ∨
                      (a = 226 ∧ b = 128 ∧ (128 ≤ c ≤ 138 ∨ c = 168 ∨ c = 169 ∨ c = 175)) ∨
                      (a = 226 ∧ b = 129 ∧ c = 159) ∨
                      (a = 227 ∧ b = 128 ∧ c = 128))%nat then 3
           else 0
        | EmptyString => 0
        end
     | EmptyString => 0
     end
  | EmptyString => 0
  end.

(** [strings.Fields]; [skip] counts the remaining bytes of a white-space character and
    [cur] is the field being read. *)
Fixpoint fields_from (skip : nat) (cur s : string) : list string :=
  match s with
  | EmptyString => if decide (cur = "") then [] else [cur]
  | String c rest =>
     match skip with
     | S skip => fields_from skip cur rest
     | O =>
        match space_len s with
        | O => fields_from 0 (cur +:+ String c "") rest
        | S n => if decide (cur = "") then fields_from n "" rest
                 else cur :: fields_from n "" rest
        end
     end
  end.

Definition Fields (s : string) : list string := fields_from 0 "" s.

(** [strings.ToLower] on ASCII text. *)
Definition lower (c : Ascii.ascii) : Ascii.ascii :=
  let n := byte_of c in
  if decide (65 ≤ n ∧ n ≤ 90)%nat then Ascii.ascii_of_nat (n + 32) else c.
Fixpoint ToLower (s : string) : string :=
  match s with EmptyString => "" | String c s => String (lower c) (ToLower s) end.

(** The value of a decimal digit. *)
Definition digit (c : Ascii.ascii) : option Z :=
  let n := Z.of_nat (byte_of c) in
  if decide (48 <= n <= 57)%Z then Some (n - 48)%Z else None.

(** [strings.TrimSpace]. *)
Fixpoint trim_left (skip : nat) (s : string) : string :=
  match s with
  | EmptyString => ""
  | String _ rest =>
     match skip with
     | S skip => trim_left skip rest
     | O => match space_len s with O => s | S n => trim_left n rest end
     end
  end.

Fixpoint trim_right (s : string) : string :=
  match s with
  | EmptyString => ""
  | String c rest => if decide (trim_left 0 s = "") then "" else String c (trim_right rest)
  end.

Definition TrimSpace (s : string) : string := trim_right (trim_left 0 s).

(** ** Splitting and joining *)

Definition no_byte (c : Ascii.ascii) (s : string) : Prop := IndexByte c s = None.

Lemma no_byte_app c s t : no_byte c (s +:+ t) ↔ no_byte c s ∧ no_byte c t.
Proof.
  unfold no_byte. induction s as [|a s IH].
  - rewrite str_app_nil_l. tauto.
  - rewrite str_app_cons. cbn. case_decide; [split; [done|by intros []]|].
    destruct (IndexByte c (s +:+ t)); destruct (IndexByte c s); cbn in *; try naive_solver.
Qed.

Lemma Split_nonempty s c : Split s c ≠ [].
Proof. destruct s as [|x s]; cbn; [done|]. case_decide; [done|]. by destruct (Split s c). Qed.

Lemma strings_Join_cons x l sep :
  l ≠ [] → strings_Join (x :: l) sep = x +:+ sep +:+ strings_Join l sep.
Proof. by destruct l. Qed.

Lemma Join_Split s c : strings_Join (Split s c) (String c "") = s.
Proof.
  induction s as [|x s IH]; [done|]. cbn [Split]. case_decide as E; [subst|].
  - rewrite strings_Join_cons by apply Split_nonempty. cbn. by rewrite IH.
  - destruct (Split s c) as [|y l] eqn:Es; [by apply Split_nonempty in Es|].
    destruct l as [|z l]; [cbn in *; by rewrite IH|].
    rewrite strings_Join_cons in * by done. by rewrite str_app_cons, IH.
Qed.

Lemma Split_no_byte s c : Forall (no_byte c) (Split s c).
Proof.
  induction s as [|x s IH]; cbn; [by repeat constructor|]. case_decide as E.
  - by constructor.
  - destruct (Split s c) as [|y l]; [constructor; [|done]|].
    + unfold no_byte. cbn. by rewrite decide_False.
    + apply Forall_cons in IH as [Hy Hl]. constructor; [|done].
      unfold no_byte in *. cbn. by rewrite decide_False, Hy by done.
Qed.

Lemma Split_single s c : no_byte c s → Split s c = [s].
Proof.
  unfold no_byte. induction s as [|x s IH]; [done|]. cbn. case_decide; [done|].
  destruct (IndexByte c s) eqn:E; [done|]. intros _. by rewrite IH.
Qed.

Lemma Split_app x s c : no_byte c x → Split (x +:+ String c s) c = x :: Split s c.
Proof.
  unfold no_byte. induction x as [|y x IH]; [|rewrite str_app_cons]; cbn [Split IndexByte].
  - intros _. rewrite str_app_nil_l. cbn [Split]. by rewrite decide_True.
  - case_decide; [done|]. destruct (IndexByte c x) eqn:E; [done|]. intros _.
    by rewrite IH.
Qed.

Lemma Split_Join l c : l ≠ [] → Forall (no_byte c) l → Split (strings_Join l (String c "")) c = l.
Proof.
  intros Hne Hl. induction Hl as [|x l Hx Hl IH]; [done|]. destruct l as [|y l].
  - by apply Split_single.
  - rewrite strings_Join_cons by done. change (String c "" +:+ ?t) with (String c t).
    rewrite Split_app by done. by rewrite IH.
Qed.

(** ** Canonical relative paths *)

Definition plain_seg (seg : string) : Prop := seg ≠ "" ∧ seg ≠ "." ∧ seg ≠ "..".

Lemma clean_steps rooted segs out :
  ".." ∉ segs →
  fold_left (cleanStep rooted) segs out =
    (reverse (filter (λ s, ¬ (s = "" ∨ s = ".")) segs) ++ out)%list.
Proof.
  revert out. induction segs as [|s segs IH]; intros out; [done|].
  rewrite not_elem_of_cons. intros [Hs Hin]. cbn [fold_left]. rewrite IH by done.
  unfold cleanStep. case_decide as E.
  - by rewrite filter_cons_False by tauto.
  - rewrite (decide_False (P := s = "..")) by done. rewrite filter_cons_True by done.
    rewrite reverse_cons. by rewrite <-app_assoc.
Qed.

(** Without parent elements, [Clean] changes nothing exactly on the path [.] and on paths
    all of whose elements are proper names. *)
Lemma Clean_fixed p :
  p ≠ "" → HasPrefix p "/" = false → ".." ∉ Split p slash →
  Clean p = p ↔ p = "." ∨ Forall plain_seg (Split p slash).
Proof.
  intros Hne Hr Hdd. unfold Clean. rewrite decide_False, Hr, clean_steps, app_nil_r by done.
  set (kept := filter _ _).
  assert (Hrev : match reverse kept with [] => "." | _ => strings_Join (reverse (reverse kept)) "/" end
    = if decide (kept = []) then "." else strings_Join kept "/").
  { case_decide as E; [by rewrite E|]. rewrite reverse_involutive.
    destruct (reverse kept) eqn:Er; [|done]. destruct E. by apply (inj reverse). }
  rewrite Hrev. clear Hrev. split.
  - case_decide as E; [by left|]. intros Hj. right. rewrite <-Hj at 1.
    rewrite Split_Join; [|done|].
    + apply Forall_forall. intros s [Hs Hin]%list_elem_of_filter. unfold plain_seg.
      split_and!; [tauto..|]. by intros ->.
    + apply Forall_forall. intros s [_ Hin]%list_elem_of_filter.
      by apply (proj1 (Forall_forall _ _) (Split_no_byte p slash)).
  - intros [->|Hall]; [done|].
    assert (kept = Split p slash) as ->.
    { apply filter_all. rewrite Forall_forall in Hall. intros s Hs.
      destruct (Hall s Hs) as (? & ? & _). tauto. }
    rewrite decide_False by apply Split_nonempty. apply Join_Split.
Qed.
