(* ===== verification/GoJSON.v ===== *)
(** * JSON texts

    The parts of [encoding/json] the client's cache uses: [MarshalIndent] with two blanks,
    and the parser of [Unmarshal]. Strings are bytes; texts are read as they are, so they
    stand for valid UTF-8. For the metadata of the store: [Marshal] and [Unmarshal] of a map
    of strings, and the JSONB columns of PostgreSQL, on the documents the texts denote. *)

From Stdlib Require Import Ascii.
From S2P Require Import Prelude GoStrings GoPath.
From stdpp Require Import prelude gmap strings list sorting pretty.

Open Scope string_scope.
Open Scope list_scope.

Inductive json :=
  | JNull
  | JBool (b : bool)
  | JNum (lit : string)
  | JStr (s : string)
  | JArr (l : list json)
  | JObj (l : list (string * json)).

Definition dq : Ascii.ascii := Ascii.ascii_of_nat 34.
Definition backslash : Ascii.ascii := Ascii.ascii_of_nat 92.
Definition one (c : Ascii.ascii) : string := String c "".

(** ** Printing *)

Definition hexDigit (n : nat) : Ascii.ascii :=
  Ascii.ascii_of_nat (if (n <? 10)%nat then 48 + n else 87 + n)%nat.
Definition escape (c : Ascii.ascii) : string := String backslash (one c).

(** One byte of a string; the bytes of HTML markup are escaped too. *)
Definition quoteByte (c : Ascii.ascii) : string :=
  let n := byte_of c in
  if decide (c = dq ∨ c = backslash) then escape c
  else if decide (n = 8)%nat then escape "b"%char
  else if decide (n = 12)%nat then escape "f"%char
  else if decide (n = 10)%nat then escape "n"%char
  else if decide (n = 13)%nat then escape "r"%char
  else if decide (n = 9)%nat then escape "t"%char
  else if decide (n < 32 ∨ n = 60 ∨ n = 62 ∨ n = 38)%nat then
    escape "u"%char +:+ "00" +:+ one (hexDigit (n / 16)) +:+ one (hexDigit (n mod 16))
  else one c.

Fixpoint quoteBytes (s : string) : string :=
  match s with EmptyString => "" | String c s => quoteByte c +:+ quoteBytes s end.
Definition quoteJSON (s : string) : string := String dq (quoteBytes s +:+ one dq).

Fixpoint blanks (n : nat) : string :=
  match n with O => "" | S n => String " "%char (blanks n) end.
(** A new line at an indentation level. *)
Definition newLine (depth : nat) : string := String newline (blanks (2 * depth)).

Fixpoint printJSON (depth : nat) (v : json) : string :=
  match v with
  | JNull => "null"
  | JBool b => if b then "true" else "false"
  | JNum lit => lit
  | JStr s => quoteJSON s
  | JArr [] => "[]"
  | JArr (v :: l) =>
     "[" +:+ newLine (S depth) +:+ printJSON (S depth) v +:+
     (fix rest l := match l with
                    | [] => ""
                    | v :: l => "," +:+ newLine (S depth) +:+ printJSON (S depth) v +:+ rest l
                    end) l +:+ newLine depth +:+ "]"
  | JObj [] => "{}"
  | JObj ((k, v) :: l) =>
     "{" +:+ newLine (S depth) +:+ quoteJSON k +:+ ": " +:+ printJSON (S depth) v +:+
     (fix rest l := match l with
                    | [] => ""
                    | (k, v) :: l =>
                       "," +:+ newLine (S depth) +:+ quoteJSON k +:+ ": " +:+
                       printJSON (S depth) v +:+ rest l
                    end) l +:+ newLine depth +:+ "}"
  end.

(** ** Parsing *)

Definition isSpaceJSON (c : Ascii.ascii) : bool :=
  bool_decide (c = " "%char ∨ byte_of c = 9 ∨ byte_of c = 10 ∨ byte_of c = 13)%nat.
Fixpoint skipSpace (s : string) : string :=
  match s with
  | EmptyString => ""
  | String c s' => if isSpaceJSON c then skipSpace s' else s
  end.

Definition hexValue (c : Ascii.ascii) : option nat :=
  let n := byte_of c in
  if decide (48 ≤ n ≤ 57)%nat then Some (n - 48)%nat
  else if decide (97 ≤ n ≤ 102)%nat then Some (n - 87)%nat
  else if decide (65 ≤ n ≤ 70)%nat then Some (n - 55)%nat
  else None.
Definition hex4 (a b c d : Ascii.ascii) : option Z :=
  a ← hexValue a; b ← hexValue b; c ← hexValue c; d ← hexValue d;
  Some (4096 * Z.of_nat a + 256 * Z.of_nat b + 16 * Z.of_nat c + Z.of_nat d)%Z.

(** The UTF-8 bytes of a code point; a lone surrogate becomes U+FFFD. *)
Definition byteChar (n : Z) : string := one (Ascii.ascii_of_nat (Z.to_nat n)).
Definition utf8 (n : Z) : string :=
  let n := if decide (55296 <= n < 57344)%Z then 65533%Z else n in
  if decide (n < 128)%Z then byteChar n
  else if decide (n < 2048)%Z then byteChar (192 + n / 64) +:+ byteChar (128 + n mod 64)
  else if decide (n < 65536)%Z then
    byteChar (224 + n / 4096) +:+ byteChar (128 + n / 64 mod 64) +:+ byteChar (128 + n mod 64)
  else
    byteChar (240 + n / 262144) +:+ byteChar (128 + n / 4096 mod 64) +:+
    byteChar (128 + n / 64 mod 64) +:+ byteChar (128 + n mod 64).

(** What follows a backslash, but for [u]. *)
Definition unescape (c : Ascii.ascii) : option Ascii.ascii :=
  if decide (c = dq ∨ c = backslash ∨ c = slash) then Some c
  else if decide (c = "b"%char) then Some (Ascii.ascii_of_nat 8)
  else if decide (c = "f"%char) then Some (Ascii.ascii_of_nat 12)
  else if decide (c = "n"%char) then Some (Ascii.ascii_of_nat 10)
  else if decide (c = "r"%char) then Some (Ascii.ascii_of_nat 13)
  else if decide (c = "t"%char) then Some (Ascii.ascii_of_nat 9)
  else None.

Definition prepend (x : string) (r : option (string * string)) : option (string * string) :=
  match r with Some (t, rest) => Some (x +:+ t, rest) | None => None end.

(** The rest of a string after its opening quote: the string and what follows it. *)
Fixpoint unquoteJSON (s : string) : option (string * string) :=
  match s with
  | EmptyString => None
  | String c s =>
     if decide (c = dq) then Some ("", s)
     else if decide (c = backslash) then
       match s with
       | EmptyString => None
       | String e s =>
          if decide (e = "u"%char) then
            match s with
            | String a (String b (String c (String d s))) =>
               match hex4 a b c d with
               | None => None
               | Some hi =>
                  match s with
                  | String x (String y (String a (String b (String c (String d s2))))) =>
                     match (if decide (x = backslash ∧ y = "u"%char ∧ (55296 <= hi < 56320)%Z)
                            then hex4 a b c d else None) with
                     | Some lo =>
                        if decide (56320 <= lo < 57344)%Z then
                          prepend (utf8 (65536 + (hi - 55296) * 1024 + (lo - 56320))%Z) (unquoteJSON s2)
                        else prepend (utf8 hi) (unquoteJSON s)
                     | None => prepend (utf8 hi) (unquoteJSON s)
                     end
                  | _ => prepend (utf8 hi) (unquoteJSON s)
                  end
               end
            | _ => None
            end
          else
            match unescape e with
            | Some x => prepend (one x) (unquoteJSON s)
            | None => None
            end
       end
     else if decide (byte_of c < 32)%nat then None
     else prepend (one c) (unquoteJSON s)
  end.

(** Integer literals: the digits, and the literal of the number they stand for. *)
Fixpoint digits (acc : Z) (s : string) : option Z :=
  match s with
  | EmptyString => Some acc
  | String c s => d ← digit c; digits (acc * 10 + d)%Z s
  end.
Definition intLit (s : string) : option Z :=
  let v := match s with
           | String c s' => if decide (c = "-"%char) then Z.opp <$> digits 0 s' else digits 0 s
           | EmptyString => None
           end in
  z ← v; if decide (s = pretty z ∨ s = "-0") then Some z else None.

(** The grammar of numbers, as an automaton. *)
Inductive numState := NStart | NMinus | NZero | NInt | NDot | NFrac | NE | NSign | NExp.
Definition numStep (st : numState) (c : Ascii.ascii) : option numState :=
  let isDigit := bool_decide (is_Some (digit c)) in
  let isZero := bool_decide (c = "0"%char) in
  let isDot := bool_decide (c = "."%char) in
  let isE := bool_decide (c = "e"%char ∨ c = "E"%char) in
  let isSign := bool_decide (c = "+"%char ∨ c = "-"%char) in
  match st with
  | NStart => if bool_decide (c = "-"%char) then Some NMinus
              else if isZero then Some NZero else if isDigit then Some NInt else None
  | NMinus => if isZero then Some NZero else if isDigit then Some NInt else None
  | NZero => if isDot then Some NDot else if isE then Some NE else None
  | NInt => if isDigit then Some NInt else if isDot then Some NDot
            else if isE then Some NE else None
  | NDot | NFrac => if isDigit then Some NFrac
                    else if isE then match st with NFrac => Some NE | _ => None end else None
  | NE => if isSign then Some NSign else if isDigit then Some NExp else None
  | NSign | NExp => if isDigit then Some NExp else None
  end.
Fixpoint numRun (st : numState) (s : string) : bool :=
  match s with
  | EmptyString => match st with NZero | NInt | NFrac | NExp => true | _ => false end
  | String c s => match numStep st c with Some st => numRun st s | None => false end
  end.
Definition validNumber (lit : string) : bool :=
  bool_decide (is_Some (intLit lit)) || numRun NStart lit.

Definition numChar (c : Ascii.ascii) : bool :=
  bool_decide (is_Some (digit c)) ||
  bool_decide (c = "-"%char ∨ c = "+"%char ∨ c = "."%char ∨ c = "e"%char ∨ c = "E"%char).
Fixpoint spanNumber (s : string) : string * string :=
  match s with
  | EmptyString => ("", "")
  | String c s' => if numChar c then let '(l, r) := spanNumber s' in (String c l, r) else ("", s)
  end.

(** A value, the elements of an array and the members of an object, each with the rest of
    the text. Every call reads a character, so the length of the text is enough fuel. *)
Fixpoint parseValue (fuel : nat) (s : string) : option (json * string) :=
  match fuel with
  | O => None
  | S fuel =>
     match skipSpace s with
     | EmptyString => None
     | String c s' =>
        if decide (c = "["%char) then
          match skipSpace s' with
          | String c2 s2 =>
             if decide (c2 = "]"%char) then Some (JArr [], s2)
             else '(l, rest) ← parseElems fuel s'; Some (JArr l, rest)
          | EmptyString => None
          end
        else if decide (c = "{"%char) then
          match skipSpace s' with
          | String c2 s2 =>
             if decide (c2 = "}"%char) then Some (JObj [], s2)
             else '(l, rest) ← parseMembers fuel s'; Some (JObj l, rest)
          | EmptyString => None
          end
        else if decide (c = dq) then
          '(t, rest) ← unquoteJSON s'; Some (JStr t, rest)
        else if numChar c then
          let '(lit, rest) := spanNumber (String c s') in
          if validNumber lit then Some (JNum lit, rest) else None
        else if HasPrefix (String c s') "null" then Some (JNull, str_drop 4 (String c s'))
        else if HasPrefix (String c s') "true" then Some (JBool true, str_drop 4 (String c s'))
        else if HasPrefix (String c s') "false" then Some (JBool false, str_drop 5 (String c s'))
        else None
     end
  end
with parseElems (fuel : nat) (s : string) : option (list json * string) :=
  match fuel with
  | O => None
  | S fuel =>
     '(v, rest) ← parseValue fuel s;
     match skipSpace rest with
     | String c rest =>
        if decide (c = ","%char) then '(l, rest) ← parseElems fuel rest; Some (v :: l, rest)
        else if decide (c = "]"%char) then Some ([v], rest)
        else None
     | EmptyString => None
     end
  end
with parseMembers (fuel : nat) (s : string) : option (list (string * json) * string) :=
  match fuel with
  | O => None
  | S fuel =>
     match skipSpace s with
     | String c s =>
        if decide (c = dq) then
          '(k, rest) ← unquoteJSON s;
          match skipSpace rest with
          | String c rest =>
             if decide (c = ":"%char) then
               '(v, rest) ← parseValue fuel rest;
               match skipSpace rest with
               | String c rest =>
                  if decide (c = ","%char) then
                    '(l, rest) ← parseMembers fuel rest; Some ((k, v) :: l, rest)
                  else if decide (c = "}"%char) then Some ([(k, v)], rest)
                  else None
               | EmptyString => None
               end
             else None
          | EmptyString => None
          end
        else None
     | EmptyString => None
     end
  end.

Definition parseJSON (s : string) : option json :=
  '(v, rest) ← parseValue (S (String.length s)) s;
  match skipSpace rest with EmptyString => Some v | _ => None end.

Example json_example :
  parseJSON (printJSON 0 (JObj [("a<b", JNum "10"); ("l", JArr [JStr "x"; JNull; JObj []])]))
  = Some (JObj [("a<b", JNum "10"); ("l", JArr [JStr "x"; JNull; JObj []])]).
Proof. vm_compute. reflexivity. Qed.

(** ** UTF-8 *)

Definition byte_in (lo hi : nat) (c : Ascii.ascii) : bool :=
  bool_decide (lo ≤ byte_of c ≤ hi)%nat.
Definition cont (c : Ascii.ascii) : bool := byte_in 128 191 c.

(** The encodings of two, three and four bytes: no overlong form, no surrogate, nothing
    above U+10FFFF. *)
Definition rune2 (a b : Ascii.ascii) : bool := byte_in 194 223 a && cont b.
Definition rune3 (a b c : Ascii.ascii) : bool :=
  (byte_in 224 224 a && byte_in 160 191 b || byte_in 225 236 a && cont b ||
   byte_in 237 237 a && byte_in 128 159 b || byte_in 238 239 a && cont b) && cont c.
Definition rune4 (a b c d : Ascii.ascii) : bool :=
  (byte_in 240 240 a && byte_in 144 191 b || byte_in 241 243 a && cont b ||
   byte_in 244 244 a && byte_in 128 143 b) && cont c && cont d.

(** Walk a text rune by rune; a byte that starts no rune is handed to [bad]. *)
Section runes.
Context {A : Type} (done : A) (keep : Ascii.ascii → A → A) (bad : A → A).
Fixpoint runes (s : string) : A :=
  match s with
  | EmptyString => done
  | String a s1 =>
     if byte_in 0 127 a then keep a (runes s1)
     else match s1 with
          | String b s2 =>
             if rune2 a b then keep a (keep b (runes s2))
             else match s2 with
                  | String c s3 =>
                     if rune3 a b c then keep a (keep b (keep c (runes s3)))
                     else match s3 with
                          | String d s4 =>
                             if rune4 a b c d then keep a (keep b (keep c (keep d (runes s4))))
                             else bad (runes s1)
                          | EmptyString => bad (runes s1)
                          end
                  | EmptyString => bad (runes s1)
                  end
          | EmptyString => bad (runes s1)
          end
  end.
End runes.

(** The encoder writes U+FFFD for every byte that is not part of a rune. *)
Definition toValidUTF8 : string → string := runes "" String (λ t, utf8 65533 +:+ t).
Definition validUTF8 : string → bool := runes true (λ _ b, b) (λ _, false).

(** ** Maps of strings *)

(** [json.Marshal] of a map of strings, as the document it writes: the keys are sorted. *)
Definition member_le (a b : string * string) : Prop := String.le a.1 b.1.
#[global] Instance member_le_dec : RelDecision member_le := λ a b, String.le_dec a.1 b.1.
Definition marshalMap (m : gmap string string) : json :=
  JObj ((λ kv, (toValidUTF8 kv.1, JStr (toValidUTF8 kv.2))) <$> merge_sort member_le (map_to_list m)).

(** The members of an object, a later one replacing an earlier one of the same name. *)
Definition lastWins {A} (l : list (string * A)) : gmap string A := list_to_map (reverse l).

(** [json.Unmarshal] into a nil map of strings, its error ignored: an object becomes a map, in
    which a value that is no string leaves the empty one; anything else leaves the map nil. *)
Definition textOf (v : json) : string := match v with JStr s => s | _ => "" end.
Definition unmarshalMap (v : json) : option (gmap string string) :=
  match v with
  | JObj l => Some (lastWins ((λ kv, (kv.1, textOf kv.2)) <$> l))
  | _ => None
  end.

(** ** JSONB *)

Definition hasNUL (s : string) : bool := bool_decide (is_Some (IndexByte (Ascii.ascii_of_nat 0) s)).
Fixpoint jsonHasNUL (v : json) : bool :=
  match v with
  | JStr s => hasNUL s
  | JArr l => existsb jsonHasNUL l
  | JObj l => existsb (λ kv, hasNUL (fst kv) || jsonHasNUL (snd kv)) l
  | _ => false
  end.

(** The names of an object are kept once, the last value winning, by length and then by bytes. *)
Definition jsonb_le {A} (a b : string * A) : Prop :=
  (String.length a.1 < String.length b.1)%nat ∨
  (String.length a.1 = String.length b.1 ∧ String.le a.1 b.1).
#[global] Instance jsonb_le_dec {A} : RelDecision (@jsonb_le A).
Proof. unfold jsonb_le. intros a b. apply _. Defined.
Fixpoint jsonbNormal (v : json) : json :=
  match v with
  | JArr l => JArr (map jsonbNormal l)
  | JObj l => JObj (merge_sort jsonb_le
      (map_to_list (lastWins (map (λ kv, (fst kv, jsonbNormal (snd kv))) l))))
  | _ => v
  end.

(** A document on its way into a JSONB column: U+0000 cannot be stored. *)
Definition jsonb_in (v : json) : res json :=
  if jsonHasNUL v then Err (ErrNew "ERROR: unsupported Unicode escape sequence (SQLSTATE 22P05)")
  else Ok (jsonbNormal v).

(** *** The round trip of a map *)

Lemma lastWins_perm {A} (l k : list (string * A)) :
  NoDup l.*1 → l ≡ₚ k → lastWins k = list_to_map l.
Proof.
  intros Hnd Hp. unfold lastWins. symmetry. apply list_to_map_proper; [done|].
  by rewrite Hp, reverse_Permutation.
Qed.

Lemma validUTF8_id s : validUTF8 s = true → toValidUTF8 s = s.
Proof.
  unfold validUTF8, toValidUTF8. remember (String.length s) as n eqn:Hn.
  revert s Hn. induction (lt_wf n) as [n _ IH]. intros s ->.
  assert (Hs : ∀ t, (String.length t < String.length s)%nat →
    runes true (λ _ b, b) (λ _, false) t = true →
    runes "" String (λ t, utf8 65533 +:+ t) t = t) by eauto.
  destruct s as [|a [|b [|c [|d s]]]]; cbn [runes]; repeat case_match; intros E; try done;
    rewrite ?Hs; try done; cbn; lia.
Qed.

Definition utf8_map (m : gmap string string) : Prop :=
  map_Forall (λ k v, validUTF8 k = true ∧ validUTF8 v = true) m.
Definition nul_free (m : gmap string string) : Prop :=
  map_Forall (λ k v, hasNUL k = false ∧ hasNUL v = false) m.

Lemma marshalMap_valid m : utf8_map m →
  ∃ l, l ≡ₚ map_to_list m ∧ marshalMap m = JObj ((λ kv, (kv.1, JStr kv.2)) <$> l).
Proof.
  intros Hm. exists (merge_sort member_le (map_to_list m)). split; [apply merge_sort_Permutation|].
  unfold marshalMap. f_equal. apply list_fmap_ext. intros i [k v] Hi.
  apply list_elem_of_lookup_2 in Hi. rewrite merge_sort_Permutation in Hi.
  apply elem_of_map_to_list in Hi. destruct (Hm _ _ Hi) as [Hk Hv]. cbn. by rewrite !validUTF8_id.
Qed.

(** A map of valid texts goes into a JSONB column exactly when it has no NUL, and comes out as
    it was. *)
Lemma jsonb_roundtrip m : utf8_map m →
  match jsonb_in (marshalMap m) with
  | Ok v => nul_free m ∧ unmarshalMap v = Some m
  | Err _ => ¬ nul_free m
  end.
Proof.
  intros Hm. destruct (marshalMap_valid m Hm) as (l & Hl & ->).
  assert (Hnd : NoDup l.*1) by (rewrite Hl; apply NoDup_fst_map_to_list).
  assert (Hnul : jsonHasNUL (JObj ((λ kv, (kv.1, JStr kv.2)) <$> l)) = false ↔ nul_free m).
  { cbn. rewrite <-not_true_iff_false, existsb_exists. split.
    - intros Hn k v Hkv. destruct (hasNUL k) eqn:Ek, (hasNUL v) eqn:Ev; try done; destruct Hn;
        exists (k, JStr v); cbn; rewrite Ek, Ev; (split; [|done]);
        apply list_elem_of_In, list_elem_of_fmap; exists (k, v); (split; [done|]);
        by rewrite Hl, elem_of_map_to_list.
    - intros Hn ([k v] & Hin & Hx). apply list_elem_of_In, list_elem_of_fmap in Hin as ([k' v'] & [= -> ->] & Hin).
      rewrite Hl, elem_of_map_to_list in Hin. destruct (Hn _ _ Hin) as [E1 E2]. cbn in Hx.
      by rewrite E1, E2 in Hx. }
  unfold jsonb_in. destruct (jsonHasNUL _) eqn:E; [by rewrite <-Hnul|].
  split; [by apply Hnul|]. cbn. f_equal.
  rewrite (lastWins_perm ((λ kv, (kv.1, JStr kv.2)) <$> l)).
  2: by rewrite <-list_fmap_compose.
  2: by rewrite map_map.
  rewrite (lastWins_perm l); [|done|].
  - rewrite (list_to_map_proper l (map_to_list m)) by done. apply list_to_map_to_list.
  - rewrite merge_sort_Permutation. rewrite map_to_list_to_map by by rewrite <-list_fmap_compose.
    rewrite <-list_fmap_compose. cbn. rewrite (list_fmap_ext _ id) by by intros ? [].
    by rewrite list_fmap_id.
Qed.

(** What a map becomes that has invalid texts. *)
Example invalid_metadata :
  unmarshalMap (jsonbNormal (marshalMap {[ "k" := String (Ascii.ascii_of_nat 255) "x" ]})) =
    Some {[ "k" := utf8 65533 +:+ "x" ]}.
Proof. vm_compute. reflexivity. Qed.
