(* ===== verification/Postgres.v ===== *)
(** * The PostgreSQL store

    Models [src/store/postgres/postgres.go] and the statements of
    [src/store/postgres/sqlc/*.sql.go] over the tables of [src/migrations]: a database
    state is a record of tables keyed by their primary keys, a statement is a step that
    checks the unique and foreign-key constraints of the tables it writes, and a
    transaction undoes its statements when it fails. A JSONB metadata column holds a
    document: a map goes in as [json.Marshal] writes it, refused when it holds a NUL and
    otherwise in the normal form of the type, and comes out through [json.Unmarshal].
    [ORDER BY] on text follows the collation; [now()] is [db_now].

    A statement fails only for what the tables say. A lost connection, a cancelled context
    and a text column that is given a NUL or bytes that are not UTF-8 are errors of the driver
    or the server that these definitions never return; [flaky] in [Store] adds failures of
    that kind to any store. *)

From S2P Require Import Prelude Store GoStrings GoPath GoJSON.
From stdpp Require Import prelude gmap strings list sorting pretty.

Open Scope string_scope.

(** ** Integers at the column widths *)

(** A uint64 version as a BIGINT, clamped. *)
Definition versionToDB (v : Z) : Z :=
  let v := u64 v in if decide (maxInt64 < v)%Z then maxInt64 else v.

Definition versionFromDB (v : Z) : Z := if decide (v < 0)%Z then 0%Z else v.

Definition intToInt32Clamp (n : Z) : Z :=
  if decide (maxInt32 < n)%Z then maxInt32 else if decide (n < 0)%Z then 0%Z else n.

(** [pgint8], [pgint8ToPtr]: a nullable BIGINT is an option. *)
Definition pgint8 (v : Z) : option Z := Some (versionToDB v).
Definition pgint8ToPtr (v : option Z) : option Z :=
  match v with None => None | Some v => Some (versionFromDB v) end.

(** A nil map is written as the empty object, any other as the encoder writes it: the error
    of [json.Marshal] is dropped, and for a map of strings there is none. *)
Definition marshalJSONOrEmpty (m : option (gmap string string)) : json :=
  match m with None => JObj [] | Some m => marshalMap m end.

(** No bytes give a nil map; of a document the error of the decoder is dropped. *)
Definition unmarshalJSONMap (b : option json) : option (gmap string string) :=
  match b with None => None | Some v => unmarshalMap v end.

(** ** Tables *)

Record NamespaceRow := {
  nr_created_at : Z; nr_deleted_at : option Z; nr_metadata : json;
  nr_parent_namespace_id : option string }.

Record BlobRow := { br_original_source : string; br_size_bytes : Z; br_created_at : Z }.

Record SchemaRow := {
  sr_current_version : option Z; sr_staged_version : option Z; sr_created_at : Z;
  sr_deleted_at : option Z; sr_metadata : json }.

Record VersionRow := {
  vr_compiled : string; vr_compiler_version : string; vr_created_at : Z;
  vr_created_by : string; vr_deleted_at : option Z; vr_metadata : json }.

Record EventRow := {
  er_id : Z; er_namespace_id : string; er_previous_parent_id : option string;
  er_new_parent_id : option string; er_actor_id : string; er_occurred_at : Z }.

Record DB := {
  db_now : Z;
  t_namespaces : gmap string NamespaceRow;
  t_proto_blobs : gmap (string * string) BlobRow;
  t_schemas : gmap (string * string) SchemaRow;
  t_schema_versions : gmap (string * string * Z) VersionRow;
  t_schema_version_files : gmap (string * string * Z * string) string;
  t_schema_version_deps : gmap (string * string * Z * string * string * string) Z;
  t_parent_events : list EventRow }.

Definition with_namespaces (d : DB) t := {|
  db_now := db_now d; t_namespaces := t; t_proto_blobs := t_proto_blobs d;
  t_schemas := t_schemas d; t_schema_versions := t_schema_versions d;
  t_schema_version_files := t_schema_version_files d;
  t_schema_version_deps := t_schema_version_deps d; t_parent_events := t_parent_events d |}.
Definition with_blobs (d : DB) t := {|
  db_now := db_now d; t_namespaces := t_namespaces d; t_proto_blobs := t;
  t_schemas := t_schemas d; t_schema_versions := t_schema_versions d;
  t_schema_version_files := t_schema_version_files d;
  t_schema_version_deps := t_schema_version_deps d; t_parent_events := t_parent_events d |}.
Definition with_schemas (d : DB) t := {|
  db_now := db_now d; t_namespaces := t_namespaces d; t_proto_blobs := t_proto_blobs d;
  t_schemas := t; t_schema_versions := t_schema_versions d;
  t_schema_version_files := t_schema_version_files d;
  t_schema_version_deps := t_schema_version_deps d; t_parent_events := t_parent_events d |}.
Definition with_versions (d : DB) t := {|
  db_now := db_now d; t_namespaces := t_namespaces d; t_proto_blobs := t_proto_blobs d;
  t_schemas := t_schemas d; t_schema_versions := t;
  t_schema_version_files := t_schema_version_files d;
  t_schema_version_deps := t_schema_version_deps d; t_parent_events := t_parent_events d |}.
Definition with_files (d : DB) t := {|
  db_now := db_now d; t_namespaces := t_namespaces d; t_proto_blobs := t_proto_blobs d;
  t_schemas := t_schemas d; t_schema_versions := t_schema_versions d;
  t_schema_version_files := t;
  t_schema_version_deps := t_schema_version_deps d; t_parent_events := t_parent_events d |}.
Definition with_deps (d : DB) t := {|
  db_now := db_now d; t_namespaces := t_namespaces d; t_proto_blobs := t_proto_blobs d;
  t_schemas := t_schemas d; t_schema_versions := t_schema_versions d;
  t_schema_version_files := t_schema_version_files d;
  t_schema_version_deps := t; t_parent_events := t_parent_events d |}.
Definition with_events (d : DB) t := {|
  db_now := db_now d; t_namespaces := t_namespaces d; t_proto_blobs := t_proto_blobs d;
  t_schemas := t_schemas d; t_schema_versions := t_schema_versions d;
  t_schema_version_files := t_schema_version_files d;
  t_schema_version_deps := t_schema_version_deps d; t_parent_events := t |}.

(** The database before any write. *)
Definition empty_db (now : Z) : DB := {|
  db_now := now; t_namespaces := ∅; t_proto_blobs := ∅; t_schemas := ∅;
  t_schema_versions := ∅; t_schema_version_files := ∅; t_schema_version_deps := ∅;
  t_parent_events := [] |}.

(** A transaction: rolled back when it fails. *)
Definition tx {A} (m : M DB A) : M DB A := λ d,
  match m d with
  | (Ok a, d') => (Ok a, d')
  | (Err e, _) => (Err e, d)
  end.

(** A single-row query. *)
Definition one {A} (f : DB → option A) : M DB A := λ d,
  match f d with Some a => (Ok a, d) | None => (Err (ErrSentinel ErrNoRows), d) end.

(** ** Statements (sqlc) *)

Definition q_CreateNamespace (id : string) (metadata : json)
    (parent : option string) : M DB unit := λ d,
  match jsonb_in metadata with
  | Err e => (Err e, d)
  | Ok metadata =>
     match t_namespaces d !! id with
     | Some _ => (Err (ErrSentinel ErrUniqueViolation), d)
     | None =>
        if match parent with
           | None => true
           | Some p => bool_decide (p = id ∨ is_Some (t_namespaces d !! p))
           end then
          (Ok tt, with_namespaces d (<[id :=
             {| nr_created_at := db_now d; nr_deleted_at := None; nr_metadata := metadata;
                nr_parent_namespace_id := parent |}]> (t_namespaces d)))
        else (Err (ErrSentinel ErrForeignKeyViolation), d)
     end
  end.

Definition q_GetNamespace (id : string) : M DB NamespaceRow := one (λ d, t_namespaces d !! id).

Section collation.
Context `{Collation}.

(** [ORDER BY] a text key. *)
Definition text_le {A} (key : A → string) (x y : A) : Prop := coll_le (key x) (key y).
#[global] Instance text_le_dec {A} (key : A → string) : RelDecision (text_le key) :=
  λ x y, coll_le_dec (key x) (key y).
(** [a > b] in the collation. *)
Definition text_gt (a b : string) : Prop := coll_le b a ∧ a ≠ b.

Definition q_ListNamespaces : M DB (list (string * NamespaceRow)) :=
  gets (λ d, merge_sort (text_le fst)
    (filter (λ kv, nr_deleted_at kv.2 = None) (map_to_list (t_namespaces d)))).

Definition q_ListNamespacesPage (after : string) (limit : Z)
    : M DB (list (string * NamespaceRow)) :=
  gets (λ d, take (Z.to_nat limit) (merge_sort (text_le fst)
    (filter (λ kv, nr_deleted_at kv.2 = None ∧ text_gt kv.1 after)
            (map_to_list (t_namespaces d))))).

Definition q_ListSchemas (ns : string) : M DB (list (string * string * SchemaRow)) :=
  gets (λ d, merge_sort (text_le (λ r, r.1.2))
    (filter (λ r, r.1.1 = ns ∧ sr_deleted_at r.2 = None) (map_to_list (t_schemas d)))).

Definition q_ListSchemasPage (ns after : string) (limit : Z)
    : M DB (list (string * string * SchemaRow)) :=
  gets (λ d, take (Z.to_nat limit) (merge_sort (text_le (λ r, r.1.2))
    (filter (λ r, r.1.1 = ns ∧ sr_deleted_at r.2 = None ∧ text_gt r.1.2 after)
            (map_to_list (t_schemas d))))).

(** Rows of [GetVersionFiles]: file name and blob hash. *)
Definition q_GetVersionFiles (ns sc : string) (v : Z) : M DB (list (string * string)) :=
  gets (λ d, merge_sort (text_le fst)
    (omap (λ kv : string * string * Z * string * string,
       let '(ns', sc', v', f, h) := kv in
       if decide (ns' = ns ∧ sc' = sc ∧ v' = v) then Some (f, h) else None)
       (map_to_list (t_schema_version_files d)))).

(** A row of the three recovery queries. *)
Record LoadRow := {
  lr_namespace_id : string; lr_schema_id : string; lr_version : Z; lr_compiled : string;
  lr_compiler_version : string; lr_filename : string; lr_blob_sha256 : string }.

(** [ORDER BY namespace_id, schema_id, filename]. *)
Definition load_le (a b : LoadRow) : Prop :=
  text_gt (lr_namespace_id b) (lr_namespace_id a) ∨
  (lr_namespace_id a = lr_namespace_id b ∧
   (text_gt (lr_schema_id b) (lr_schema_id a) ∨
    (lr_schema_id a = lr_schema_id b ∧ coll_le (lr_filename a) (lr_filename b)))).
#[global] Instance load_le_dec : RelDecision load_le.
Proof. intros a b. unfold load_le, text_gt. apply _. Defined.

(** The joins: the selected version of each schema with its files. *)
Definition load_rows (d : DB) (sel : string * string → SchemaRow → option Z) : list LoadRow :=
  merge_sort load_le
    (flat_map (λ s : string * string * SchemaRow,
       let '(ns, sc, row) := s in
       match sr_deleted_at row, sel (ns, sc) row with
       | None, Some v =>
          match t_schema_versions d !! (ns, sc, v) with
          | None => []
          | Some ver =>
             omap (λ kv : string * string * Z * string * string,
               let '(ns', sc', v', f, h) := kv in
               if decide (ns' = ns ∧ sc' = sc ∧ v' = v) then
                 Some {| lr_namespace_id := ns; lr_schema_id := sc; lr_version := v;
                         lr_compiled := vr_compiled ver;
                         lr_compiler_version := vr_compiler_version ver;
                         lr_filename := f; lr_blob_sha256 := h |}
               else None) (map_to_list (t_schema_version_files d))
          end
       | _, _ => []
       end) (map_to_list (t_schemas d))).

Definition q_LoadAllCurrent : M DB (list LoadRow) :=
  gets (λ d, load_rows d (λ _ row, sr_current_version row)).
Definition q_LoadNamespaceCurrent (ns : string) : M DB (list LoadRow) :=
  gets (λ d, load_rows d (λ k row,
    if decide (k.1 = ns) then sr_current_version row else None)).
Definition q_LoadNamespaceProposed (ns : string) : M DB (list LoadRow) :=
  gets (λ d, load_rows d (λ k row,
    if decide (k.1 = ns) then
      match sr_staged_version row with
      | Some v => Some v
      | None => sr_current_version row
      end
    else None)).
End collation.

(** The recursive query of [SetNamespaceParent]: the namespaces from [id] upwards, at most
    [depth] of them. *)
Fixpoint cte_ancestors (t : gmap string NamespaceRow) (depth : nat) (id : option string)
    : list string :=
  match depth, id with
  | S depth, Some id =>
     match t !! id with
     | Some row => id :: cte_ancestors t depth (nr_parent_namespace_id row)
     | None => []
     end
  | _, _ => []
  end.

Definition set_parent (p : option string) (r : NamespaceRow) : NamespaceRow := {|
  nr_created_at := nr_created_at r; nr_deleted_at := nr_deleted_at r;
  nr_metadata := nr_metadata r; nr_parent_namespace_id := p |}.

(** Returns the number of rows updated. *)
Definition q_SetNamespaceParent (new_parent_id namespace_id : string) : M DB nat := λ d,
  if decide (is_Some (t_namespaces d !! namespace_id) ∧ namespace_id ≠ new_parent_id ∧
             is_Some (t_namespaces d !! new_parent_id) ∧
             namespace_id ∉ cte_ancestors (t_namespaces d) 64 (Some new_parent_id)) then
    (Ok 1%nat, with_namespaces d
       (alter (set_parent (Some new_parent_id)) namespace_id (t_namespaces d)))
  else (Ok 0%nat, d).

Definition q_ClearNamespaceParent (id : string) : M DB nat := λ d,
  (Ok (if decide (is_Some (t_namespaces d !! id)) then 1%nat else 0%nat),
   with_namespaces d (alter (set_parent None) id (t_namespaces d))).

Definition next_event_id (d : DB) : Z := Z.of_nat (length (t_parent_events d)) + 1.

Definition q_RecordNamespaceParentEvent (ns : string) (previous new : option string)
    (actor : string) : M DB unit := λ d,
  match t_namespaces d !! ns with
  | None => (Err (ErrSentinel ErrForeignKeyViolation), d)
  | Some _ =>
     (Ok tt, with_events d (t_parent_events d ++
        [{| er_id := next_event_id d; er_namespace_id := ns; er_previous_parent_id := previous;
            er_new_parent_id := new; er_actor_id := actor; er_occurred_at := db_now d |}])%list)
  end.

(** Newest first. *)
Definition event_ge (a b : EventRow) : Prop :=
  (er_occurred_at b < er_occurred_at a)%Z ∨
  (er_occurred_at a = er_occurred_at b ∧ (er_id b <= er_id a)%Z).
#[global] Instance event_ge_dec : RelDecision event_ge.
Proof. intros a b. unfold event_ge. apply _. Defined.

Definition q_ListNamespaceParentEvents (ns : string) (limit : Z) : M DB (list EventRow) :=
  gets (λ d, take (Z.to_nat limit) (merge_sort event_ge
    (filter (λ e, er_namespace_id e = ns) (t_parent_events d)))).

Definition q_PutBlob (ns sha : string) (source : string) (size : Z) : M DB unit := λ d,
  match t_proto_blobs d !! (ns, sha) with
  | Some _ => (Ok tt, d)
  | None =>
     match t_namespaces d !! ns with
     | None => (Err (ErrSentinel ErrForeignKeyViolation), d)
     | Some _ =>
        (Ok tt, with_blobs d (<[(ns, sha) :=
           {| br_original_source := source; br_size_bytes := size;
              br_created_at := db_now d |}]> (t_proto_blobs d)))
     end
  end.

Definition q_GetBlob (ns sha : string) : M DB BlobRow := one (λ d, t_proto_blobs d !! (ns, sha)).

Definition q_CreateSchema (ns sc : string) (metadata : json) : M DB unit := λ d,
  match jsonb_in metadata with
  | Err e => (Err e, d)
  | Ok metadata =>
     match t_schemas d !! (ns, sc) with
     | Some _ => (Err (ErrSentinel ErrUniqueViolation), d)
     | None =>
        match t_namespaces d !! ns with
        | None => (Err (ErrSentinel ErrForeignKeyViolation), d)
        | Some _ =>
           (Ok tt, with_schemas d (<[(ns, sc) :=
              {| sr_current_version := None; sr_staged_version := None;
                 sr_created_at := db_now d; sr_deleted_at := None;
                 sr_metadata := metadata |}]> (t_schemas d)))
        end
     end
  end.

Definition q_GetSchema (ns sc : string) : M DB SchemaRow := one (λ d, t_schemas d !! (ns, sc)).

Definition set_staged (v : option Z) (r : SchemaRow) : SchemaRow := {|
  sr_current_version := sr_current_version r; sr_staged_version := v;
  sr_created_at := sr_created_at r; sr_deleted_at := sr_deleted_at r;
  sr_metadata := sr_metadata r |}.

Definition q_SetStagedVersion (ns sc : string) (v : option Z) : M DB unit :=
  modify (λ d, with_schemas d (alter (set_staged v) (ns, sc) (t_schemas d))).

Definition q_ClearStagedVersion (ns sc : string) : M DB unit :=
  modify (λ d, with_schemas d (alter (set_staged None) (ns, sc) (t_schemas d))).

(** The staged schemas of a namespace. *)
Definition q_GetStagedSchemas (ns : string) : M DB (list (string * string * SchemaRow)) :=
  gets (λ d, filter (λ r, r.1.1 = ns ∧ sr_staged_version r.2 ≠ None ∧ sr_deleted_at r.2 = None)
               (map_to_list (t_schemas d))).

Definition promote_row (r : SchemaRow) : SchemaRow := {|
  sr_current_version := sr_staged_version r; sr_staged_version := None;
  sr_created_at := sr_created_at r; sr_deleted_at := sr_deleted_at r;
  sr_metadata := sr_metadata r |}.

(** Updates the rows the [WHERE] clause selects; [RETURNING] their identifier and new
    version, in the order of the scan. *)
Definition q_PromoteAllStaged (ns : string) : M DB (list (string * Z)) := λ d,
  (Ok (omap (λ r : string * string * SchemaRow,
         if decide (r.1.1 = ns) then
           match sr_staged_version r.2 with Some v => Some (r.1.2, v) | None => None end
         else None) (map_to_list (t_schemas d))),
   with_schemas d (map_imap (λ k r, Some
     (if decide (k.1 = ns ∧ sr_staged_version r ≠ None) then promote_row r else r))
     (t_schemas d))).

Definition q_DiscardAllStaged (ns : string) : M DB unit :=
  modify (λ d, with_schemas d (map_imap (λ k r, Some
     (if decide (k.1 = ns ∧ sr_staged_version r ≠ None) then set_staged None r else r))
     (t_schemas d))).

Definition q_InsertVersion (ns sc : string) (v : Z) (row : VersionRow) : M DB unit := λ d,
  match jsonb_in (vr_metadata row) with
  | Err e => (Err e, d)
  | Ok metadata =>
     match t_schema_versions d !! (ns, sc, v) with
     | Some _ => (Err (ErrSentinel ErrUniqueViolation), d)
     | None =>
        match t_schemas d !! (ns, sc) with
        | None => (Err (ErrSentinel ErrForeignKeyViolation), d)
        | Some _ =>
           (Ok tt, with_versions d (<[(ns, sc, v) :=
              {| vr_compiled := vr_compiled row; vr_compiler_version := vr_compiler_version row;
                 vr_created_at := db_now d; vr_created_by := vr_created_by row;
                 vr_deleted_at := None; vr_metadata := metadata |}]> (t_schema_versions d)))
        end
     end
  end.

Definition q_GetVersion (ns sc : string) (v : Z) : M DB VersionRow :=
  one (λ d, t_schema_versions d !! (ns, sc, v)).

Definition q_ListVersions (ns sc : string) : M DB (list Z) :=
  gets (λ d, merge_sort Z.le
    (omap (λ kv : string * string * Z * VersionRow,
       let '(ns', sc', v, row) := kv in
       if decide (ns' = ns ∧ sc' = sc ∧ vr_deleted_at row = None) then Some v else None)
       (map_to_list (t_schema_versions d)))).

Definition q_InsertVersionFile (ns sc : string) (v : Z) (f h : string) : M DB unit := λ d,
  match t_schema_version_files d !! (ns, sc, v, f) with
  | Some _ => (Err (ErrSentinel ErrUniqueViolation), d)
  | None =>
     if decide (is_Some (t_schema_versions d !! (ns, sc, v)) ∧
                is_Some (t_proto_blobs d !! (ns, h))) then
       (Ok tt, with_files d (<[(ns, sc, v, f) := h]> (t_schema_version_files d)))
     else (Err (ErrSentinel ErrForeignKeyViolation), d)
  end.

Definition q_InsertVersionDep (ns sc : string) (v : Z) (dns dsc df : string) (dv : Z)
    : M DB unit := λ d,
  match t_schema_version_deps d !! (ns, sc, v, dns, dsc, df) with
  | Some _ => (Err (ErrSentinel ErrUniqueViolation), d)
  | None =>
     if decide (is_Some (t_schema_versions d !! (ns, sc, v)) ∧
                is_Some (t_namespaces d !! dns)) then
       (Ok tt, with_deps d (<[(ns, sc, v, dns, dsc, df) := dv]> (t_schema_version_deps d)))
     else (Err (ErrSentinel ErrForeignKeyViolation), d)
  end.

Definition q_GetVersionDeps (ns sc : string) (v : Z)
    : M DB (list (string * string * string * Z)) :=
  gets (λ d, omap (λ kv : string * string * Z * string * string * string * Z,
    let '(ns', sc', v', dns, dsc, df, dv) := kv in
    if decide (ns' = ns ∧ sc' = sc ∧ v' = v) then Some (dns, dsc, df, dv) else None)
    (map_to_list (t_schema_version_deps d))).

(** ** Conversions of rows *)

Definition namespaceOf (r : string * NamespaceRow) : StoreNamespace := {|
  sn_ID := r.1; sn_CreatedAt := nr_created_at r.2; sn_DeletedAt := nr_deleted_at r.2;
  sn_Metadata := unmarshalJSONMap (Some (nr_metadata r.2));
  sn_ParentNamespaceID := nr_parent_namespace_id r.2 |}.

Definition schemaModelToStore (r : string * string * SchemaRow) : Schema := {|
  sc_NamespaceID := r.1.1; sc_SchemaID := r.1.2;
  sc_CurrentVersion := pgint8ToPtr (sr_current_version r.2);
  sc_StagedVersion := pgint8ToPtr (sr_staged_version r.2);
  sc_CreatedAt := sr_created_at r.2; sc_DeletedAt := sr_deleted_at r.2;
  sc_Metadata := unmarshalJSONMap (Some (sr_metadata r.2)) |}.

Definition fileOf (row : LoadRow) : VersionFile := {|
  vf_NamespaceID := lr_namespace_id row; vf_SchemaID := lr_schema_id row;
  vf_Version := versionFromDB (lr_version row); vf_Filename := lr_filename row;
  vf_BlobSHA256 := lr_blob_sha256 row |}.

(** The body of the grouping loops: [index] holds exactly the schemas of [result]; a row of
    a known schema appends its file to that entry, a row of a new one appends an entry. *)
Fixpoint addRow (row : LoadRow) (result : list CurrentSchema) : list CurrentSchema :=
  match result with
  | [] => [{| cs_NamespaceID := lr_namespace_id row; cs_SchemaID := lr_schema_id row;
              cs_Version := versionFromDB (lr_version row); cs_Compiled := lr_compiled row;
              cs_CompilerVersion := lr_compiler_version row; cs_Files := [fileOf row] |}]
  | cs :: result =>
     if decide (cs_NamespaceID cs = lr_namespace_id row ∧ cs_SchemaID cs = lr_schema_id row)
     then {| cs_NamespaceID := cs_NamespaceID cs; cs_SchemaID := cs_SchemaID cs;
             cs_Version := cs_Version cs; cs_Compiled := cs_Compiled cs;
             cs_CompilerVersion := cs_CompilerVersion cs;
             cs_Files := (cs_Files cs ++ [fileOf row])%list |} :: result
     else cs :: addRow row result
  end.

Definition groupAllCurrentRows (rows : list LoadRow) : list CurrentSchema :=
  fold_left (λ result row, addRow row result) rows [].
Definition groupNSCurrentRows (rows : list LoadRow) : list CurrentSchema :=
  fold_left (λ result row, addRow row result) rows [].
Definition groupNSProposedRows (rows : list LoadRow) : list CurrentSchema :=
  fold_left (λ result row, addRow row result) rows [].

(** ** The methods of the store *)

Definition CreateNamespace (ns : StoreNamespace) : M DB unit :=
  q_CreateNamespace (sn_ID ns) (marshalJSONOrEmpty (sn_Metadata ns)) (sn_ParentNamespaceID ns).

Definition GetNamespace (id : string) : M DB StoreNamespace :=
  row ← wrapM ("getting namespace " +:+ id) (q_GetNamespace id);
  mret (namespaceOf (id, row)).

(** Any error of the read is reported as a missing namespace. *)
Definition orNotFound {A} (m : M DB A) : M DB A := λ d,
  match m d with
  | (Ok a, d') => (Ok a, d')
  | (Err _, d') => (Err (ErrSentinel ErrNamespaceNotFound), d')
  end.

Definition SetNamespaceParent (namespaceID : string) (parentID : option string)
    (actorID : string) : M DB unit :=
  tx (existing ← orNotFound (q_GetNamespace namespaceID);
      let previous := nr_parent_namespace_id existing in
      match parentID with
      | None =>
         wrapM ("clearing parent for " +:+ namespaceID) (q_ClearNamespaceParent namespaceID) ;;
         mret tt
      | Some parentID =>
         orNotFound (q_GetNamespace parentID) ;;
         rows ← wrapM ("setting parent for " +:+ namespaceID)
                  (q_SetNamespaceParent parentID namespaceID);
         if decide (rows = 0%nat) then fail (ErrSentinel ErrParentCycle) else mret tt
      end ;;
      wrapM "recording parent-change audit event"
        (q_RecordNamespaceParentEvent namespaceID previous parentID actorID)).

Definition RecordNamespaceParentEvent (ev : NamespaceParentEvent) : M DB unit :=
  q_RecordNamespaceParentEvent (pe_NamespaceID ev) (pe_PreviousParentID ev)
    (pe_NewParentID ev) (pe_ActorID ev).

Definition ListNamespaceParentEvents (namespaceID : string) (limit : Z)
    : M DB (list NamespaceParentEvent) :=
  rows ← wrapM ("listing parent events for " +:+ namespaceID)
           (q_ListNamespaceParentEvents namespaceID (intToInt32Clamp limit));
  mret ((λ r, {| pe_ID := er_id r; pe_NamespaceID := er_namespace_id r;
                 pe_PreviousParentID := er_previous_parent_id r;
                 pe_NewParentID := er_new_parent_id r; pe_ActorID := er_actor_id r;
                 pe_OccurredAt := er_occurred_at r |}) <$> rows).

Definition PutBlob (blob : ProtoBlob) : M DB unit :=
  q_PutBlob (pb_NamespaceID blob) (pb_SHA256 blob) (pb_OriginalSource blob)
    (intToInt32Clamp (pb_SizeBytes blob)).

Definition GetBlob (namespaceID sha256hex : string) : M DB ProtoBlob :=
  row ← wrapM ("getting blob " +:+ namespaceID +:+ "/" +:+ sha256hex)
          (q_GetBlob namespaceID sha256hex);
  mret {| pb_NamespaceID := namespaceID; pb_SHA256 := sha256hex;
          pb_OriginalSource := br_original_source row; pb_SizeBytes := br_size_bytes row;
          pb_CreatedAt := br_created_at row |}.

Definition CreateSchema (schema : Schema) : M DB unit :=
  q_CreateSchema (sc_NamespaceID schema) (sc_SchemaID schema)
    (marshalJSONOrEmpty (sc_Metadata schema)).

Definition GetSchema (namespaceID schemaID : string) : M DB Schema :=
  row ← wrapM ("getting schema " +:+ namespaceID +:+ "/" +:+ schemaID)
          (q_GetSchema namespaceID schemaID);
  mret (schemaModelToStore (namespaceID, schemaID, row)).

Definition PutVersion (ver : SchemaVersion) (files : list VersionFile)
    (deps : list VersionDep) : M DB unit :=
  tx (wrapM "inserting version"
        (q_InsertVersion (sv_NamespaceID ver) (sv_SchemaID ver) (versionToDB (sv_Version ver))
           {| vr_compiled := sv_Compiled ver; vr_compiler_version := sv_CompilerVersion ver;
              vr_created_at := 0; vr_created_by := sv_CreatedBy ver; vr_deleted_at := None;
              vr_metadata := marshalJSONOrEmpty (sv_Metadata ver) |}) ;;
      forM_ files (λ f,
        wrapM ("inserting version file " +:+ vf_Filename f)
          (q_InsertVersionFile (vf_NamespaceID f) (vf_SchemaID f)
             (versionToDB (vf_Version f)) (vf_Filename f) (vf_BlobSHA256 f))) ;;
      forM_ deps (λ d,
        wrapM "inserting version dep"
          (q_InsertVersionDep (vd_NamespaceID d) (vd_SchemaID d) (versionToDB (vd_Version d))
             (vd_DepNamespaceID d) (vd_DepSchemaID d) (vd_DepFilename d)
             (versionToDB (vd_DepVersion d))))).

Definition GetVersion (namespaceID schemaID : string) (version : Z) : M DB SchemaVersion :=
  row ← wrapM ("getting version " +:+ namespaceID +:+ "/" +:+ schemaID +:+ "@" +:+ pretty version)
          (q_GetVersion namespaceID schemaID (versionToDB version));
  mret {| sv_NamespaceID := namespaceID; sv_SchemaID := schemaID;
          sv_Version := versionFromDB (versionToDB version); sv_Compiled := vr_compiled row;
          sv_CompilerVersion := vr_compiler_version row; sv_CreatedAt := vr_created_at row;
          sv_CreatedBy := vr_created_by row; sv_DeletedAt := vr_deleted_at row;
          sv_Metadata := unmarshalJSONMap (Some (vr_metadata row)) |}.

Definition GetVersionDeps (namespaceID schemaID : string) (version : Z)
    : M DB (list VersionDep) :=
  rows ← wrapM "getting version deps"
           (q_GetVersionDeps namespaceID schemaID (versionToDB version));
  mret ((λ r : string * string * string * Z, let '(dns, dsc, df, dv) := r in
    {| vd_NamespaceID := namespaceID; vd_SchemaID := schemaID;
       vd_Version := versionFromDB (versionToDB version); vd_DepNamespaceID := dns;
       vd_DepSchemaID := dsc; vd_DepFilename := df;
       vd_DepVersion := versionFromDB dv |}) <$> rows).

Definition ListVersions (namespaceID schemaID : string) : M DB (list Z) :=
  rows ← wrapM "listing versions" (q_ListVersions namespaceID schemaID);
  mret (versionFromDB <$> rows).

Definition SetStaged (namespaceID schemaID : string) (version : Z) : M DB unit :=
  if decide (version = 0%Z) then q_ClearStagedVersion namespaceID schemaID
  else q_SetStagedVersion namespaceID schemaID (pgint8 version).

Definition Promote (namespaceID : string) : M DB (list PromotedSchema) :=
  rows ← tx (wrapM "locking staged schemas" (q_GetStagedSchemas namespaceID) ;;
             wrapM "promoting staged" (q_PromoteAllStaged namespaceID));
  mret ((λ r, {| ps_SchemaID := r.1; ps_PriorVersion := None;
                 ps_CurrentVersion := versionFromDB r.2 |}) <$> rows).

Definition DiscardStaging (namespaceID : string) : M DB unit := q_DiscardAllStaged namespaceID.

Section methods.
Context `{Collation}.

Definition ListNamespaces : M DB (list StoreNamespace) :=
  rows ← wrapM "listing namespaces" q_ListNamespaces; mret (namespaceOf <$> rows).

Definition ListNamespacesPage (after : string) (limit : Z) : M DB (list StoreNamespace) :=
  rows ← wrapM "listing namespaces page" (q_ListNamespacesPage after (intToInt32Clamp limit));
  mret (namespaceOf <$> rows).

Definition ListSchemas (namespaceID : string) : M DB (list Schema) :=
  rows ← wrapM ("listing schemas for " +:+ namespaceID) (q_ListSchemas namespaceID);
  mret (schemaModelToStore <$> rows).

Definition ListSchemasPage (namespaceID after : string) (limit : Z) : M DB (list Schema) :=
  rows ← wrapM ("listing schemas page for " +:+ namespaceID)
           (q_ListSchemasPage namespaceID after (intToInt32Clamp limit));
  mret (schemaModelToStore <$> rows).

Definition GetVersionFiles (namespaceID schemaID : string) (version : Z)
    : M DB (list VersionFile) :=
  rows ← wrapM "getting version files"
           (q_GetVersionFiles namespaceID schemaID (versionToDB version));
  mret ((λ r, {| vf_NamespaceID := namespaceID; vf_SchemaID := schemaID;
                 vf_Version := versionFromDB (versionToDB version);
                 vf_Filename := r.1; vf_BlobSHA256 := r.2 |}) <$> rows).

Definition LoadAllCurrent : M DB (list CurrentSchema) :=
  rows ← wrapM "loading all current" q_LoadAllCurrent; mret (groupAllCurrentRows rows).
Definition LoadNamespaceCurrent (namespaceID : string) : M DB (list CurrentSchema) :=
  rows ← wrapM "loading namespace current" (q_LoadNamespaceCurrent namespaceID);
  mret (groupNSCurrentRows rows).
Definition LoadNamespaceProposed (namespaceID : string) : M DB (list CurrentSchema) :=
  rows ← wrapM "loading namespace proposed" (q_LoadNamespaceProposed namespaceID);
  mret (groupNSProposedRows rows).

#[global] Instance postgres_store : Store DB := {|
  store_PutBlob := PutBlob; store_GetBlob := GetBlob;
  store_CreateNamespace := CreateNamespace; store_GetNamespace := GetNamespace;
  store_ListNamespaces := ListNamespaces; store_ListNamespacesPage := ListNamespacesPage;
  store_SetNamespaceParent := SetNamespaceParent;
  store_RecordNamespaceParentEvent := RecordNamespaceParentEvent;
  store_ListNamespaceParentEvents := ListNamespaceParentEvents;
  store_CreateSchema := CreateSchema; store_GetSchema := GetSchema;
  store_ListSchemas := ListSchemas; store_ListSchemasPage := ListSchemasPage;
  store_PutVersion := PutVersion; store_GetVersion := GetVersion;
  store_GetVersionFiles := GetVersionFiles; store_GetVersionDeps := GetVersionDeps;
  store_ListVersions := ListVersions; store_SetStaged := SetStaged;
  store_Promote := Promote; store_DiscardStaging := DiscardStaging;
  store_LoadAllCurrent := LoadAllCurrent;
  store_LoadNamespaceCurrent := LoadNamespaceCurrent;
  store_LoadNamespaceProposed := LoadNamespaceProposed |}.
End methods.
