(* ===== verification/PostgresThms.v ===== *)
(** * Correctness of the PostgreSQL store

    The PostgreSQL store keeps the promises of [StoreLaws], stores versions atomically and
    gives back what was stored, and keeps the namespace hierarchy acyclic within the depth
    of its cycle check. *)

From S2P Require Import Prelude Store GoStrings GoPath GoJSON Postgres.
From stdpp Require Import prelude gmap strings list sorting pretty.

Open Scope string_scope.
Open Scope nat_scope.

(** ** Version numbers at their widths *)

Lemma versionToDB_range v : (0 <= versionToDB v <= maxInt64)%Z.
Proof.
  unfold versionToDB. case_decide; [unfold maxInt64; lia|].
  unfold u64 in *. pose proof (Z.mod_pos_bound v (2 ^ 64)). lia.
Qed.

Lemma versionToDB_id v : (0 <= v <= maxInt64)%Z → versionToDB v = v.
Proof.
  intros Hv. unfold versionToDB, u64. rewrite Z.mod_small by (unfold maxInt64 in Hv; lia).
  by rewrite decide_False by lia.
Qed.

Lemma versionFromDB_id v : (0 <= v)%Z → versionFromDB v = v.
Proof. intros Hv. unfold versionFromDB. by rewrite decide_False by lia. Qed.

Lemma versionToDB_min v : (0 <= v < 2 ^ 64)%Z → versionToDB v = Z.min v maxInt64.
Proof.
  intros Hv. unfold versionToDB, u64. rewrite Z.mod_small by done. case_decide; lia.
Qed.

(** A version number survives the database exactly when it fits the signed column:
    every uint64 up to 2^63-1 is read back unchanged, every larger one is stored as
    2^63-1, no number read back is negative, and the order of versions is kept. *)
Theorem version_column_roundtrip v w :
  (0 <= v < 2 ^ 64)%Z → (0 <= w < 2 ^ 64)%Z →
  (versionFromDB (versionToDB v) = v ↔ (v <= maxInt64)%Z) ∧
  ((maxInt64 < v)%Z → versionFromDB (versionToDB v) = maxInt64) ∧
  (0 <= versionToDB v <= maxInt64)%Z ∧
  ((v <= w)%Z → (versionFromDB (versionToDB v) <= versionFromDB (versionToDB w))%Z).
Proof.
  intros Hv Hw. rewrite !versionToDB_min by done. assert (0 <= maxInt64)%Z by (unfold maxInt64; lia).
  rewrite !versionFromDB_id by lia. split_and!; lia.
Qed.

(** ** The view the interface is about *)

Definition in_column (v : option Z) : Prop :=
  match v with Some v => (0 <= v <= maxInt64)%Z | None => True end.

Record db_ok (d : DB) : Prop := {
  dbo_versions ns sc v row : t_schema_versions d !! (ns, sc, v) = Some row →
    (0 <= v <= maxInt64)%Z ∧ is_Some (t_schemas d !! (ns, sc));
  dbo_schemas k row : t_schemas d !! k = Some row →
    in_column (sr_current_version row) ∧ in_column (sr_staged_version row) }.

#[global] Instance postgres_view : StoreView DB := {|
  v_ok := db_ok;
  v_schemas d := dom (t_schemas d);
  v_versions d := dom (t_schema_versions d);
  v_current d := omap sr_current_version (t_schemas d);
  v_staged d := omap sr_staged_version (t_schemas d) |}.

Lemma db_ok_empty now : db_ok (empty_db now).
Proof. split; intros * Hl; cbn in Hl; by rewrite lookup_empty in Hl. Qed.

(** ** Reads *)

Lemma reads_one {A} (f : DB → option A) : reads (one f).
Proof. intros d. unfold one. by destruct (f d). Qed.
Lemma reads_gets {A} (f : DB → A) : reads (gets f).
Proof. done. Qed.
Lemma reads_wrapM {A} c (m : M DB A) : reads m → reads (wrapM c m).
Proof. intros Hm d. specialize (Hm d). unfold wrapM. by destruct (m d). Qed.
Lemma reads_bind_ret {A B} (m : M DB A) (f : A → B) :
  reads m → reads (x ← m; mret (f x)).
Proof.
  intros Hm d. specialize (Hm d). unfold mbind, M_bind. by destruct (m d) as [[]].
Qed.

Ltac solve_reads :=
  intros; first [apply reads_bind_ret, reads_wrapM; first [apply reads_one | apply reads_gets]].

(** ** Writes that do not touch schemas or versions *)

Definition core (d : DB) := (t_schemas d, t_schema_versions d).

Lemma keeps_core {A} (m : M DB A) :
  (∀ c, preserves (λ d, core d = c) m) → keeps_versions m.
Proof.
  intros Hm d Hd. specialize (Hm (core d) d eq_refl). injection Hm as E1 E2. cbn.
  rewrite E1, E2. split_and!; [|done..]. destruct Hd as [Hv Hs].
  split; rewrite ?E1, ?E2; done.
Qed.

Lemma preserves_tx {A} (I : DB → Prop) (m : M DB A) : preserves I m → preserves I (tx m).
Proof. intros Hm d Hd. specialize (Hm d Hd). unfold tx. by destruct (m d) as [[]]. Qed.

Lemma preserves_step {A} (I : DB → Prop) (m : M DB A) :
  (∀ d a d', I d → m d = (a, d') → I d') → preserves I m.
Proof. intros Hm d Hd. destruct (m d) eqn:E. by eapply Hm. Qed.

(** Statements that leave [core] alone. *)
Ltac core_step :=
  intros; apply preserves_step; intros ? ? ? Hd;
  repeat case_match; intros [= <- <-]; exact Hd.

Lemma core_CreateNamespace c id m p : preserves (λ d, core d = c) (q_CreateNamespace id m p).
Proof. unfold q_CreateNamespace. core_step. Qed.
Lemma core_PutBlob c ns h s z : preserves (λ d, core d = c) (q_PutBlob ns h s z).
Proof. unfold q_PutBlob. core_step. Qed.
Lemma core_GetNamespace c id : preserves (λ d, core d = c) (q_GetNamespace id).
Proof. unfold q_GetNamespace, one. core_step. Qed.
Lemma core_SetNamespaceParent c p id : preserves (λ d, core d = c) (q_SetNamespaceParent p id).
Proof. unfold q_SetNamespaceParent. core_step. Qed.
Lemma core_ClearNamespaceParent c id : preserves (λ d, core d = c) (q_ClearNamespaceParent id).
Proof. by apply preserves_modify. Qed.
Lemma core_RecordEvent c ns p n a :
  preserves (λ d, core d = c) (q_RecordNamespaceParentEvent ns p n a).
Proof. unfold q_RecordNamespaceParentEvent. core_step. Qed.
Lemma core_InsertVersionFile c ns sc v f h :
  preserves (λ d, core d = c) (q_InsertVersionFile ns sc v f h).
Proof. unfold q_InsertVersionFile. core_step. Qed.
Lemma core_InsertVersionDep c ns sc v dns dsc df dv :
  preserves (λ d, core d = c) (q_InsertVersionDep ns sc v dns dsc df dv).
Proof. unfold q_InsertVersionDep. core_step. Qed.

Lemma preserves_orNotFound {A} (I : DB → Prop) (m : M DB A) :
  preserves I m → preserves I (orNotFound m).
Proof. intros Hm d Hd. specialize (Hm d Hd). unfold orNotFound. by destruct (m d) as [[]]. Qed.

Lemma core_SetParent c id p a : preserves (λ d, core d = c) (SetNamespaceParent id p a).
Proof.
  apply preserves_tx. apply preserves_bind; [apply preserves_orNotFound, core_GetNamespace|].
  intros row. apply preserves_bind.
  - destruct p as [p|].
    2: { apply preserves_bind; [apply preserves_wrapM, core_ClearNamespaceParent|].
         intros ?. apply preserves_ret. }
    apply preserves_bind; [apply preserves_orNotFound, core_GetNamespace|]. intros ?.
    apply preserves_bind; [apply preserves_wrapM, core_SetNamespaceParent|].
    intros n. case_decide; [apply preserves_fail|apply preserves_ret].
  - intros ?. apply preserves_wrapM, core_RecordEvent.
Qed.

(** ** Storing a version *)

Lemma tx_Err {A} (m : M DB A) d e d' : tx m d = (Err e, d') → d' = d.
Proof. unfold tx. destruct (m d) as [[]]; [done|]. by intros [= _ <-]. Qed.

Lemma tx_Ok {A} (m : M DB A) d a d' : tx m d = (Ok a, d') → m d = (Ok a, d').
Proof. unfold tx. by destruct (m d) as [[]]. Qed.

Definition version_key (ver : SchemaVersion) : string * string * Z :=
  (sv_NamespaceID ver, sv_SchemaID ver, versionToDB (sv_Version ver)).

Lemma InsertVersion_inv ns sc v row d d' :
  q_InsertVersion ns sc v row d = (Ok tt, d') →
  t_schema_versions d !! (ns, sc, v) = None ∧ is_Some (t_schemas d !! (ns, sc)) ∧
  ∃ md, jsonb_in (vr_metadata row) = Ok md ∧
  d' = with_versions d (<[(ns, sc, v) :=
         {| vr_compiled := vr_compiled row; vr_compiler_version := vr_compiler_version row;
            vr_created_at := db_now d; vr_created_by := vr_created_by row;
            vr_deleted_at := None; vr_metadata := md |}]> (t_schema_versions d)).
Proof.
  unfold q_InsertVersion. destruct (jsonb_in _); [|done].
  destruct (t_schema_versions d !! (ns, sc, v)); [done|].
  destruct (t_schemas d !! (ns, sc)); [|done]. intros [= <-]. eauto.
Qed.

(** What a stored version adds to the two tables of the view. *)
Lemma PutVersion_core ver fs ds d d' :
  PutVersion ver fs ds d = (Ok tt, d') →
  t_schema_versions d !! version_key ver = None ∧
  is_Some (t_schemas d !! (sv_NamespaceID ver, sv_SchemaID ver)) ∧
  t_schemas d' = t_schemas d ∧
  ∃ row, vr_compiled row = sv_Compiled ver ∧ vr_compiler_version row = sv_CompilerVersion ver ∧
    vr_created_by row = sv_CreatedBy ver ∧ vr_deleted_at row = None ∧
    jsonb_in (marshalJSONOrEmpty (sv_Metadata ver)) = Ok (vr_metadata row) ∧
    t_schema_versions d' = <[version_key ver := row]> (t_schema_versions d).
Proof.
  unfold PutVersion. intros (u & d1 & Hi & Hrest)%tx_Ok%M_bind_Ok.
  unfold wrapM in Hi. destruct (q_InsertVersion _ _ _ _ d) as [[[]|] dx] eqn:E; [|done].
  injection Hi as _ <-. apply InsertVersion_inv in E as (Hn & Hs & md & Hmd & E).
  assert (Hcore : core d' = core dx).
  { assert (Hp : preserves (λ s, core s = core dx)
      (forM_ fs (λ f, wrapM ("inserting version file " +:+ vf_Filename f)
          (q_InsertVersionFile (vf_NamespaceID f) (vf_SchemaID f)
             (versionToDB (vf_Version f)) (vf_Filename f) (vf_BlobSHA256 f))) ;;
       forM_ ds (λ d, wrapM "inserting version dep"
          (q_InsertVersionDep (vd_NamespaceID d) (vd_SchemaID d) (versionToDB (vd_Version d))
             (vd_DepNamespaceID d) (vd_DepSchemaID d) (vd_DepFilename d)
             (versionToDB (vd_DepVersion d)))))).
    { apply preserves_bind; [|intros ?]; apply preserves_forM_; intros x; apply preserves_wrapM;
        [apply core_InsertVersionFile|apply core_InsertVersionDep]. }
    specialize (Hp dx eq_refl). by rewrite Hrest in Hp. }
  rewrite E in Hcore. injection Hcore as E1 E2. split_and!; [done..|].
  eexists. split_and!; [..|exact E2]; done.
Qed.

(** ** The laws *)

Lemma pg_keeps_PutVersion ver fs ds : keeps_versions (PutVersion ver fs ds).
Proof.
  intros d Hd. destruct (PutVersion ver fs ds d) as [[[]|e] d'] eqn:E; cbn [snd];
    [|apply tx_Err in E as ->; done].
  apply PutVersion_core in E as (Hn & Hs & E1 & row & _ & _ & _ & _ & _ & E2). cbn.
  rewrite E1, E2. split_and!; [|done..|].
  - destruct Hd as [Hv Hr]. split; rewrite ?E1, ?E2; [|done].
    intros ns sc v row' [[Hk <-]|[_ Hl]]%lookup_insert_Some; [|eauto].
    injection Hk as <- <- <-. split; [apply versionToDB_range|done].
  - rewrite dom_insert_L. set_solver.
Qed.

Lemma pg_keeps_CreateSchema sc : keeps_versions (CreateSchema sc).
Proof.
  intros d Hd. unfold CreateSchema, q_CreateSchema.
  destruct (jsonb_in _); [|done].
  destruct (t_schemas d !! _) eqn:E; [done|]. destruct (t_namespaces d !! _); [|done].
  cbn. split_and!; [| | |rewrite dom_insert_L; set_solver|done].
  - destruct Hd as [Hv Hr]. split; cbn.
    + intros ns s v row Hrow. destruct (Hv _ _ _ _ Hrow) as [? [r ?]]. split; [done|].
      rewrite lookup_insert. case_decide; eauto.
    + intros k row [[_ <-]|[_ Hl]]%lookup_insert_Some; [done|eauto].
  - apply map_eq. intros k. rewrite !lookup_omap, lookup_insert.
    case_decide; [subst; by rewrite E|done].
  - apply map_eq. intros k. rewrite !lookup_omap, lookup_insert.
    case_decide; [subst; by rewrite E|done].
Qed.

Lemma GetVersion_inv ns sc v ver d d' :
  GetVersion ns sc v d = (Ok ver, d') →
  is_Some (t_schema_versions d !! (ns, sc, versionToDB v)).
Proof.
  unfold GetVersion, q_GetVersion, one, wrapM, mbind, M_bind.
  by destruct (t_schema_versions d !! (ns, sc, versionToDB v)).
Qed.

(** The version numbers of a schema, as [ListVersions] selects them. *)
Definition listed (d : DB) (ns sc : string) : list Z :=
  omap (λ kv : string * string * Z * VersionRow,
    let '(ns', sc', v, row) := kv in
    if decide (ns' = ns ∧ sc' = sc ∧ vr_deleted_at row = None) then Some v else None)
    (map_to_list (t_schema_versions d)).

Lemma elem_of_listed d ns sc v :
  v ∈ listed d ns sc ↔
  ∃ row, t_schema_versions d !! (ns, sc, v) = Some row ∧ vr_deleted_at row = None.
Proof.
  unfold listed. rewrite list_elem_of_omap. split.
  - intros ([[[ns' sc'] v'] row] & Hin & E). case_decide as Hc; [|done]. injection E as ->.
    destruct Hc as (-> & -> & Hd). apply elem_of_map_to_list in Hin. eauto.
  - intros (row & Hrow & Hd). exists (ns, sc, v, row). rewrite elem_of_map_to_list.
    by rewrite decide_True.
Qed.

Lemma NoDup_listed d ns sc : NoDup (listed d ns sc).
Proof.
  unfold listed. pose proof (NoDup_fst_map_to_list (t_schema_versions d)) as Hnd.
  induction (map_to_list (t_schema_versions d)) as [|[[[ns' sc'] v] row] l IH]; [constructor|].
  rewrite fmap_cons, NoDup_cons in Hnd. destruct Hnd as [Hk Hl]. cbn.
  case_decide as Hc; [|auto]. apply NoDup_cons. split; [|auto].
  rewrite list_elem_of_omap. intros ([[[ns2 sc2] v2] row2] & Hin & E).
  case_decide as Hc2; [|done]. injection E as ->. destruct Hc as (-> & -> & _), Hc2 as (-> & -> & _).
  apply Hk. by apply (list_elem_of_fmap_2 fst) in Hin.
Qed.

Lemma ListVersions_run d ns sc :
  ListVersions ns sc d = (Ok (versionFromDB <$> merge_sort Z.le (listed d ns sc)), d).
Proof. done. Qed.

Lemma listed_versions d ns sc :
  db_ok d → versionFromDB <$> merge_sort Z.le (listed d ns sc) = merge_sort Z.le (listed d ns sc).
Proof.
  intros Hd. rewrite <-(list_fmap_id (merge_sort _ _)) at 2. apply list_fmap_ext.
  intros i v Hv. apply versionFromDB_id.
  assert (Hin : v ∈ listed d ns sc).
  { rewrite <-(merge_sort_Permutation Z.le). by eapply list_elem_of_lookup_2. }
  apply elem_of_listed in Hin as (row & Hrow & _). apply (dbo_versions _ Hd) in Hrow as [? _]. cbn. lia.
Qed.

Lemma StronglySorted_lt l : StronglySorted Z.le l → NoDup l → StronglySorted Z.lt l.
Proof.
  induction 1 as [|x l Hl IH Hx]; [constructor|]. rewrite NoDup_cons. intros [Hn Hnd].
  constructor; [auto|]. rewrite Forall_forall in *. intros y Hy. specialize (Hx y Hy).
  assert (x ≠ y) by congruence. lia.
Qed.

Lemma SetStaged_run ns sc v d d' :
  SetStaged ns sc v d = (Ok tt, d') → (0 < v <= maxInt64)%Z →
  d' = with_schemas d (alter (set_staged (Some v)) (ns, sc) (t_schemas d)).
Proof.
  intros Hs Hv. unfold SetStaged in Hs. rewrite decide_False in Hs by lia.
  unfold pgint8 in Hs. rewrite versionToDB_id in Hs by lia. by injection Hs as <-.
Qed.

(** A row-wise update of the schema table keeps the invariant when the rows it makes do. *)
Lemma db_ok_schemas d t :
  db_ok d → dom t = dom (t_schemas d) →
  (∀ k row, t !! k = Some row → in_column (sr_current_version row) ∧ in_column (sr_staged_version row)) →
  db_ok (with_schemas d t).
Proof.
  intros [Hv Hs] Hdom Ht. split; cbn; [|done]. intros ns sc v row Hrow.
  destruct (Hv _ _ _ _ Hrow) as [? Hsc]. split; [done|].
  apply elem_of_dom. rewrite Hdom. by apply elem_of_dom.
Qed.

Lemma dom_imap_total {K V} `{Countable K} (f : K → V → V) (m : gmap K V) :
  dom (map_imap (λ k r, Some (f k r)) m) = dom m.
Proof.
  apply set_eq. intros k. rewrite !elem_of_dom, map_lookup_imap.
  destruct (m !! k); cbn; [|done]. split; by eexists.
Qed.

Lemma pg_SetStaged_Ok ns sc v d d' :
  SetStaged ns sc v d = (Ok tt, d') → (ns, sc) ∈ dom (t_schemas d) →
  (0 < v <= maxInt64)%Z → db_ok d →
  db_ok d' ∧ v_staged d' = <[(ns, sc) := v]> (v_staged d) ∧ v_current d' = v_current d ∧
  v_schemas d' = v_schemas d ∧ v_versions d' = v_versions d.
Proof.
  intros Hs [r0 Hr0]%elem_of_dom Hv Hd. apply SetStaged_run in Hs as ->; [|done].
  split_and!.
  - apply db_ok_schemas; [done|apply dom_alter_L|]. intros k row.
    rewrite lookup_alter. case_decide; [|apply Hd].
    destruct (t_schemas d !! _) as [r|] eqn:E; [|done]. cbn. intros [= <-]. cbn.
    destruct (dbo_schemas _ Hd _ _ E). split; [done|]. lia.
  - apply map_eq. intros k. cbn. rewrite lookup_omap, lookup_alter, lookup_insert.
    case_decide; [subst; by rewrite Hr0|]. by rewrite lookup_omap.
  - apply map_eq. intros k. cbn. rewrite !lookup_omap, lookup_alter. case_decide; [|done].
    subst. by destruct (t_schemas d !! _).
  - cbn. apply dom_alter_L.
  - done.
Qed.

(** The rows promotion and discarding select. *)
Lemma staged_of_imap (ns : string) (g : SchemaRow → SchemaRow) d :
  (∀ r, sr_staged_version (g r) = None) →
  omap sr_staged_version (map_imap (λ k r, Some
     (if decide (k.1 = ns ∧ sr_staged_version r ≠ None) then g r else r)) (t_schemas d))
  = filter (λ kv, kv.1.1 ≠ ns) (omap sr_staged_version (t_schemas d)).
Proof.
  intros Hg. apply map_eq. intros [ns' sc]. rewrite lookup_omap, map_lookup_imap.
  rewrite map_lookup_filter, lookup_omap. destruct (t_schemas d !! (ns', sc)) as [r|]; [|done].
  cbn. destruct (sr_staged_version r) as [v|] eqn:E; cbn.
  - destruct (decide (ns' = ns)) as [->|Hne].
    + rewrite decide_True by done. rewrite Hg. by rewrite option_guard_False by naive_solver.
    + rewrite decide_False by naive_solver. rewrite E. by rewrite option_guard_True by done.
  - rewrite decide_False by naive_solver. by rewrite E.
Qed.

Lemma pg_Promote_run ns d :
  Promote ns d =
    (Ok ((λ r : string * Z, {| ps_SchemaID := r.1; ps_PriorVersion := None;
                 ps_CurrentVersion := versionFromDB r.2 |}) <$>
       omap (λ r : string * string * SchemaRow,
         if decide (r.1.1 = ns) then
           match sr_staged_version r.2 with Some v => Some (r.1.2, v) | None => None end
         else None) (map_to_list (t_schemas d))),
     with_schemas d (map_imap (λ k r, Some
       (if decide (k.1 = ns ∧ sr_staged_version r ≠ None) then promote_row r else r))
       (t_schemas d))).
Proof. done. Qed.

Lemma pg_Promote_Ok ns d ps d' :
  db_ok d → Promote ns d = (Ok ps, d') →
  db_ok d' ∧ v_current d' = promoted_view ns (v_staged d) (v_current d) ∧
  v_staged d' = filter (λ kv, kv.1.1 ≠ ns) (v_staged d) ∧
  v_schemas d' = v_schemas d ∧
  (∀ p, p ∈ ps → v_staged d !! (ns, ps_SchemaID p) = Some (ps_CurrentVersion p)) ∧
  (∀ sc v, v_staged d !! (ns, sc) = Some v → sc ∈ (ps_SchemaID <$> ps)).
Proof.
  intros Hd. rewrite pg_Promote_run. intros [= <- <-]. split_and!.
  - apply db_ok_schemas; [done|apply dom_imap_total|]. intros k row. rewrite map_lookup_imap.
    destruct (t_schemas d !! k) as [r|] eqn:E; [|done]. cbn. intros [= <-].
    destruct (dbo_schemas _ Hd _ _ E). by case_decide.
  - apply map_eq. intros [ns' sc]. cbn. unfold promoted_view.
    rewrite lookup_omap, map_lookup_imap, lookup_union, map_lookup_filter, !lookup_omap.
    destruct (t_schemas d !! (ns', sc)) as [r|]; [|done]. cbn.
    destruct (sr_staged_version r) as [v|] eqn:E; cbn.
    + destruct (decide (ns' = ns)) as [->|Hne].
      * rewrite decide_True, option_guard_True by done. cbn. rewrite E.
        by destruct (sr_current_version r).
      * rewrite decide_False, option_guard_False by naive_solver.
        by destruct (sr_current_version r).
    + rewrite decide_False by naive_solver. by destruct (sr_current_version r).
  - by apply staged_of_imap.
  - apply dom_imap_total.
  - intros p (r & -> & Hr)%list_elem_of_fmap. cbn.
    apply list_elem_of_omap in Hr as ([[ns' sc] row] & Hin & E). cbn in E.
    case_decide; [subst|done]. destruct (sr_staged_version row) as [v|] eqn:Ev; [|done].
    injection E as <-. cbn. apply elem_of_map_to_list in Hin. rewrite lookup_omap, Hin. cbn.
    rewrite Ev, versionFromDB_id; [done|].
    destruct (dbo_schemas _ Hd _ _ Hin) as [_ Hst]. rewrite Ev in Hst. cbn in Hst. lia.
  - intros sc v Hv. cbn in Hv. rewrite lookup_omap in Hv.
    destruct (t_schemas d !! (ns, sc)) as [row|] eqn:E; [|done]. cbn in Hv.
    rewrite <-list_fmap_compose. apply list_elem_of_fmap. exists (sc, v). split; [done|].
    apply list_elem_of_omap. exists (ns, sc, row). rewrite elem_of_map_to_list. cbn.
    by rewrite decide_True, Hv.
Qed.

Lemma pg_DiscardStaging_Ok ns d d' :
  db_ok d → DiscardStaging ns d = (Ok tt, d') →
  db_ok d' ∧ v_staged d' = filter (λ kv, kv.1.1 ≠ ns) (v_staged d) ∧
  v_current d' = v_current d ∧ v_schemas d' = v_schemas d.
Proof.
  intros Hd [= <-]. split_and!.
  - apply db_ok_schemas; [done|apply dom_imap_total|]. intros k row. rewrite map_lookup_imap.
    destruct (t_schemas d !! k) as [r|] eqn:E; [|done]. cbn. intros [= <-].
    destruct (dbo_schemas _ Hd _ _ E). by case_decide.
  - by apply staged_of_imap.
  - apply map_eq. intros k. cbn. rewrite !lookup_omap, map_lookup_imap.
    destruct (t_schemas d !! k) as [r|]; [|done]. cbn. by case_decide.
  - apply dom_imap_total.
Qed.

Section laws.
Context `{Collation}.

Lemma postgres_laws : StoreLaws DB.
Proof.
  split; try solve_reads.
  - intros b. apply keeps_core. intros c. apply core_PutBlob.
  - intros n. apply keeps_core. intros c. apply core_CreateNamespace.
  - intros id p a. apply keeps_core. intros c. apply core_SetParent.
  - apply pg_keeps_CreateSchema.
  - apply pg_keeps_PutVersion.
  - intros ns sc v ver d d' Hd [row Hrow]%GetVersion_inv.
    apply elem_of_dom. by apply (dbo_versions _ Hd) in Hrow as [_ ?].
  - intros ver fs ds d d' (_ & Hs & E & _)%PutVersion_core. cbn. rewrite E.
    by apply elem_of_dom.
  - intros ns sc d l d' Hd. cbn. rewrite ListVersions_run. intros [= <- <-].
    rewrite listed_versions by done. apply StronglySorted_lt.
    + apply StronglySorted_merge_sort; apply _.
    + rewrite merge_sort_Permutation. apply NoDup_listed.
  - intros ns sc d l d' v Hd. cbn. rewrite ListVersions_run. intros [= <- <-].
    rewrite listed_versions by done. rewrite merge_sort_Permutation.
    intros (row & Hrow & _)%elem_of_listed. split; [apply elem_of_dom; by eexists|].
    by apply (dbo_versions _ Hd) in Hrow as [? _].
  - intros ver fs ds d d' Hv (Hn & _)%PutVersion_core. cbn. apply not_elem_of_dom.
    unfold version_key in Hn. by rewrite versionToDB_min in Hn.
  - intros ns sc v d d' Hs Hin Hv Hd. by apply pg_SetStaged_Ok.
  - intros ns sc v d e d'. cbn. unfold SetStaged. by case_decide.
  - intros ns d ps d' Hd Hp. by apply pg_Promote_Ok.
  - by intros ns d e d'.
  - intros ns d d' Hd Hp. by apply pg_DiscardStaging_Ok.
  - by intros ns d e d'.
  - intros ver fs ds d d' Hv (_ & _ & _ & row & _ & _ & _ & _ & _ & E)%PutVersion_core.
    cbn. rewrite E. unfold version_key. rewrite versionToDB_min by done. set_solver.
  - intros ns sc v ver d d' Hv Hg%GetVersion_inv. rewrite versionToDB_id in Hg by done.
    by apply elem_of_dom.
  - intros ns d. cbn. by rewrite pg_Promote_run.
  - done.
Qed.

(** C2. The PostgreSQL store implements the interface the registry is verified against:
    reads change nothing, writes move no current or staged version except staging,
    promotion and discarding, which are all-or-nothing and do to the versions of the
    namespace what the interface promises, a version number is never stored twice, and a
    stored version stays stored. It still implements it when any of its calls, depending on
    its arguments and on the state, fails with any error before it has an effect. *)
Theorem postgres_implements_Store :
  StoreLaws DB ∧ ∀ faults : Store DB, @StoreLaws DB (flaky faults postgres_store) postgres_view.
Proof. split; [exact postgres_laws|]. intros faults. apply flaky_laws, postgres_laws. Qed.
End laws.

(** ** The namespace hierarchy *)

(** The identifiers from a namespace up to its root. *)
Inductive up (t : gmap string NamespaceRow) : string → list string → Prop :=
  | up_root id row :
     t !! id = Some row → nr_parent_namespace_id row = None → up t id [id]
  | up_step id row p l :
     t !! id = Some row → nr_parent_namespace_id row = Some p → up t p l → up t id (id :: l).

(** Every namespace reaches a root. *)
Definition acyclic (t : gmap string NamespaceRow) : Prop :=
  ∀ id, is_Some (t !! id) → ∃ l, up t id l.

Lemma cte_up t n id l : up t id l → length l ≤ n → cte_ancestors t n (Some id) = l.
Proof.
  intros Hl. revert n. induction Hl as [id row Hr Hp|id row p l Hr Hp Hl IH]; intros [|n];
    cbn; try lia; intros Hn; rewrite Hr, Hp.
  - by destruct n.
  - by rewrite IH by lia.
Qed.

Lemma up_keep t t' ns id l :
  up t id l → (∀ k, k ≠ ns → t' !! k = t !! k) → ns ∉ l → up t' id l.
Proof.
  intros Hl Ht. induction Hl as [id row Hr Hp|id row p l Hr Hp Hl IH].
  - rewrite list_elem_of_singleton. intros Hne. apply (up_root _ _ row); [|done].
    by rewrite Ht by congruence.
  - rewrite not_elem_of_cons. intros [Hne Hnl]. apply (up_step _ _ row p); [|done|auto].
    by rewrite Ht by congruence.
Qed.

(** Hanging [ns] below a namespace whose path avoids it keeps every path finite. *)
Lemma acyclic_reparent t t' ns row p lp :
  acyclic t → up t p lp → ns ∉ lp →
  (∀ k, k ≠ ns → t' !! k = t !! k) → t' !! ns = Some row →
  nr_parent_namespace_id row = Some p → acyclic t'.
Proof.
  intros Ha Hp Hn Ht Hrow Hpar.
  assert (Hns : up t' ns (ns :: lp)) by (econstructor; eauto using up_keep).
  assert (Hup : ∀ id l, up t id l → ∃ l', up t' id l').
  { intros id l Hl. induction Hl as [id r Hr Hpr|id r q l Hr Hq Hl [l' IH]];
      (destruct (decide (id = ns)) as [->|Hne]; [eauto|]).
    - exists [id]. apply (up_root _ _ r); [by rewrite Ht|done].
    - exists (id :: l'). apply (up_step _ _ r q); [by rewrite Ht|done|done]. }
  intros id Hid. destruct (decide (id = ns)) as [->|Hne]; [eauto|].
  rewrite Ht in Hid by done. destruct (Ha id Hid) as [l Hl]. eauto.
Qed.

Lemma acyclic_clear t t' ns row :
  acyclic t → (∀ k, k ≠ ns → t' !! k = t !! k) → t' !! ns = Some row →
  nr_parent_namespace_id row = None → acyclic t'.
Proof.
  intros Ha Ht Hrow Hpar. assert (Hns : up t' ns [ns]) by by econstructor.
  assert (Hup : ∀ id l, up t id l → ∃ l', up t' id l').
  { intros id l Hl. induction Hl as [id r Hr Hpr|id r q l Hr Hq Hl [l' IH]];
      (destruct (decide (id = ns)) as [->|Hne]; [eauto|]).
    - exists [id]. apply (up_root _ _ r); [by rewrite Ht|done].
    - exists (id :: l'). apply (up_step _ _ r q); [by rewrite Ht|done|done]. }
  intros id Hid. destruct (decide (id = ns)) as [->|Hne]; [eauto|].
  rewrite Ht in Hid by done. destruct (Ha id Hid) as [l Hl]. eauto.
Qed.

(** The statements of a successful re-parenting. *)
Lemma SetNamespaceParent_inv ns p actor d d' :
  SetNamespaceParent ns p actor d = (Ok tt, d') →
  ∃ row, t_namespaces d !! ns = Some row ∧
    match p with
    | None => True
    | Some q => is_Some (t_namespaces d !! q) ∧ ns ≠ q ∧
        ns ∉ cte_ancestors (t_namespaces d) 64 (Some q)
    end ∧
    t_namespaces d' = alter (set_parent p) ns (t_namespaces d) ∧
    t_parent_events d' = (t_parent_events d ++
      [{| er_id := next_event_id d; er_namespace_id := ns;
          er_previous_parent_id := nr_parent_namespace_id row; er_new_parent_id := p;
          er_actor_id := actor; er_occurred_at := db_now d |}])%list.
Proof.
  unfold SetNamespaceParent. intros (row & d1 & Hg & Hrest)%tx_Ok%M_bind_Ok.
  unfold orNotFound, q_GetNamespace, one in Hg.
  destruct (t_namespaces d !! ns) as [row'|] eqn:Hns; [|done]. injection Hg as <- <-.
  exists row'. split; [done|].
  apply M_bind_Ok in Hrest as ([] & d2 & Hset & Hev).
  unfold wrapM, q_RecordNamespaceParentEvent in Hev.
  assert (Hd2 : d2 = with_namespaces d (alter (set_parent p) ns (t_namespaces d)) ∧
    match p with
    | None => True
    | Some q => is_Some (t_namespaces d !! q) ∧ ns ≠ q ∧
        ns ∉ cte_ancestors (t_namespaces d) 64 (Some q)
    end).
  { destruct p as [q|]; [|by injection Hset as <-].
    apply M_bind_Ok in Hset as (rq & d3 & Hq & Hset).
    unfold orNotFound, q_GetNamespace, one in Hq.
    destruct (t_namespaces d !! q) as [rq'|] eqn:Eq; [|done]. injection Hq as -> <-.
    apply M_bind_Ok in Hset as (n & d4 & Hu & Hn). unfold wrapM, q_SetNamespaceParent in Hu.
    match type of Hu with context [decide ?P] => destruct (decide P) as [Hc|Hc] end;
      injection Hu as <- <-; [|by rewrite decide_True in Hn].
    rewrite decide_False in Hn by done. injection Hn as <-. naive_solver. }
  destruct Hd2 as [-> Hp]. split; [done|]. cbn in Hev.
  rewrite lookup_alter_eq, Hns in Hev. cbn in Hev. by injection Hev as <-.
Qed.

(** C36. Re-parenting keeps the hierarchy acyclic when the new parent is at most 64 levels
    deep, and appends one audit entry with the old and the new parent; when it fails
    (unknown namespace, cycle) it changes nothing. *)
Theorem SetNamespaceParent_acyclic ns p actor d x d' :
  SetNamespaceParent ns p actor d = (x, d') → acyclic (t_namespaces d) →
  (∀ q l, p = Some q → up (t_namespaces d) q l → length l ≤ 64) →
  match x with
  | Err _ => d' = d
  | Ok _ => acyclic (t_namespaces d') ∧
     ∃ row, t_namespaces d !! ns = Some row ∧
       t_parent_events d' = (t_parent_events d ++
         [{| er_id := next_event_id d; er_namespace_id := ns;
             er_previous_parent_id := nr_parent_namespace_id row; er_new_parent_id := p;
             er_actor_id := actor; er_occurred_at := db_now d |}])%list
  end.
Proof.
  intros Hs Ha Hdepth. destruct x as [[]|e]; [|by apply tx_Err in Hs].
  apply SetNamespaceParent_inv in Hs as (row & Hns & Hp & Et & Ee). split; [|eauto].
  assert (Hk : ∀ k, k ≠ ns → t_namespaces d' !! k = t_namespaces d !! k).
  { intros k Hne. rewrite Et. by apply lookup_alter_ne. }
  assert (Hr : t_namespaces d' !! ns = Some (set_parent p row)).
  { by rewrite Et, lookup_alter_eq, Hns. }
  destruct p as [q|].
  - destruct Hp as (Hq & Hne & Hcte). destruct (Ha q Hq) as [lq Hlq].
    rewrite (cte_up _ _ _ _ Hlq) in Hcte by eauto.
    by eapply acyclic_reparent.
  - by eapply acyclic_clear.
Qed.

(** *** Beyond the depth of the check *)

Fixpoint climb (t : gmap string NamespaceRow) (n : nat) (id : string) : option string :=
  match n with
  | 0%nat => Some id
  | S n => match t !! id with
           | Some row => nr_parent_namespace_id row ≫= climb t n
           | None => None
           end
  end.

Lemma climb_add t n m id : climb t (n + m) id = climb t n id ≫= climb t m.
Proof.
  revert id. induction n as [|n IH]; intros id; [done|]. cbn.
  destruct (t !! id) as [row|]; [|done]. destruct (nr_parent_namespace_id row); [|done].
  cbn. apply IH.
Qed.

Lemma climb_up t id l : up t id l → climb t (length l) id = None.
Proof.
  induction 1 as [id row Hr Hp|id row p l Hr Hp Hl IH]; cbn; rewrite Hr, Hp; done.
Qed.

Lemma climb_cycle t n id m : climb t n id = Some id → climb t (m * n) id = Some id.
Proof.
  intros Hn. induction m as [|m IH]; [done|]. cbn. rewrite climb_add, Hn. exact IH.
Qed.

Lemma cycle_not_acyclic t n id : climb t (S n) id = Some id → ¬ acyclic t.
Proof.
  intros Hc Ha. destruct (Ha id) as [l Hl].
  { cbn in Hc. destruct (t !! id); [by eexists|done]. }
  pose proof (climb_cycle t (S n) id (length l) Hc) as Hm.
  pose proof (climb_up t id l Hl) as Hu.
  replace (length l * S n) with (length l + length l * n) in Hm by lia.
  by rewrite climb_add, Hu in Hm.
Qed.

Fixpoint path_of (t : gmap string NamespaceRow) (n : nat) (id : string) : option (list string) :=
  match n with
  | 0%nat => None
  | S n => match t !! id with
           | None => None
           | Some row =>
              match nr_parent_namespace_id row with
              | None => Some [id]
              | Some p => cons id <$> path_of t n p
              end
           end
  end.

Lemma path_of_up t n id l : path_of t n id = Some l → up t id l.
Proof.
  revert id l. induction n as [|n IH]; intros id l; cbn; [done|].
  destruct (t !! id) as [row|] eqn:E; [|done].
  destruct (nr_parent_namespace_id row) as [p|] eqn:Ep.
  - destruct (path_of t n p) as [l'|] eqn:El; [|done]. intros [= <-]. econstructor; eauto.
  - intros [= <-]. by econstructor.
Qed.

(** A chain of 65 namespaces, each the parent of the next. *)
Definition deep_name (i : nat) : string := "n" +:+ pretty i.
Definition deep_row (i : nat) : NamespaceRow := {|
  nr_created_at := 0; nr_deleted_at := None; nr_metadata := JObj [];
  nr_parent_namespace_id := match i with 0 => None | S j => Some (deep_name j) end |}.
Definition deep_db : DB := with_namespaces (empty_db 0)
  (list_to_map ((λ i, (deep_name i, deep_row i)) <$> seq 0 65)).

Lemma deep_acyclic : acyclic (t_namespaces deep_db).
Proof.
  assert (Hb : bool_decide (map_Forall (λ id _, is_Some (path_of (t_namespaces deep_db) 65 id))
    (t_namespaces deep_db)) = true) by (vm_compute; reflexivity).
  apply bool_decide_eq_true in Hb. intros id [row Hrow].
  destruct (Hb id row Hrow) as [l Hl]. exists l. by eapply path_of_up.
Qed.

(** The cycle check has a depth limit: the top of an acyclic hierarchy of 65 levels can
    be made a child of its deepest namespace, which closes a cycle. *)
Theorem SetNamespaceParent_misses_deep_cycle :
  ∃ d d' ns p actor, acyclic (t_namespaces d) ∧
    SetNamespaceParent ns (Some p) actor d = (Ok tt, d') ∧ ¬ acyclic (t_namespaces d').
Proof.
  exists deep_db, (SetNamespaceParent "n0" (Some "n64") "root" deep_db).2, "n0", "n64", "root".
  split; [apply deep_acyclic|]. split.
  - assert (Hok : is_ok (SetNamespaceParent "n0" (Some "n64") "root" deep_db).1 = true)
      by (vm_compute; reflexivity).
    by destruct (SetNamespaceParent "n0" (Some "n64") "root" deep_db) as [[[]|] ?].
  - apply (cycle_not_acyclic _ 64 "n0"). vm_compute. reflexivity.
Qed.
