(* ===== verification/PostgresRead.v ===== *)
(** * Reading back from the PostgreSQL store

    A stored version is read back with its files and dependencies; the recovery queries
    group rows into one entry per schema; pages of a listing are consecutive pieces of the
    whole listing. *)

From S2P Require Import Prelude Store GoStrings GoPath GoJSON Postgres PostgresThms.
From stdpp Require Import prelude gmap strings list sorting.

Open Scope string_scope.
Open Scope nat_scope.

(** ** Version files *)

Definition file_key (f : VersionFile) : string * string * Z * string :=
  (vf_NamespaceID f, vf_SchemaID f, versionToDB (vf_Version f), vf_Filename f).

(** The foreign key from file rows to version rows. *)
Definition files_fk (d : DB) : Prop :=
  ∀ ns sc v f h, t_schema_version_files d !! (ns, sc, v, f) = Some h →
    is_Some (t_schema_versions d !! (ns, sc, v)).

Lemma InsertVersionFile_inv ns sc v f h d d' :
  q_InsertVersionFile ns sc v f h d = (Ok tt, d') →
  t_schema_version_files d !! (ns, sc, v, f) = None ∧
  d' = with_files d (<[(ns, sc, v, f) := h]> (t_schema_version_files d)).
Proof.
  unfold q_InsertVersionFile. destruct (t_schema_version_files d !! (ns, sc, v, f)); [done|].
  case_decide; [|done]. by intros [= <-].
Qed.

Lemma insert_files_spec fs d d' :
  forM_ fs (λ f, wrapM ("inserting version file " +:+ vf_Filename f)
    (q_InsertVersionFile (vf_NamespaceID f) (vf_SchemaID f)
       (versionToDB (vf_Version f)) (vf_Filename f) (vf_BlobSHA256 f))) d = (Ok tt, d') →
  ∀ k h, t_schema_version_files d' !! k = Some h ↔
    t_schema_version_files d !! k = Some h ∨
    ∃ f, f ∈ fs ∧ k = file_key f ∧ h = vf_BlobSHA256 f.
Proof.
  revert d. induction fs as [|f fs IH]; intros d; cbn.
  - intros [= <-] k h. set_solver.
  - intros (u & d1 & Hi & Hr)%M_bind_Ok k h. unfold wrapM in Hi.
    destruct (q_InsertVersionFile _ _ _ _ _ d) as [[[]|] dx] eqn:E; [|done].
    injection Hi as _ <-. apply InsertVersionFile_inv in E as [Hn ->].
    rewrite (IH _ Hr). cbn. rewrite lookup_insert_Some. fold (file_key f).
    setoid_rewrite elem_of_cons. split.
    + intros [[[<- <-]|[_ ?]]|(g & ? & -> & ->)]; eauto 6.
    + intros [Hk|(g & [->|Hg] & -> & ->)]; [|by left; left|by right; eauto].
      left. right. split; [|done]. intros <-. unfold file_key in Hk. congruence.
Qed.

(** The dependency inserts leave the file table alone, and the other way round. *)
Lemma insert_deps_files ds c :
  preserves (λ d, t_schema_version_files d = c)
    (forM_ ds (λ d, wrapM "inserting version dep"
       (q_InsertVersionDep (vd_NamespaceID d) (vd_SchemaID d) (versionToDB (vd_Version d))
          (vd_DepNamespaceID d) (vd_DepSchemaID d) (vd_DepFilename d)
          (versionToDB (vd_DepVersion d))))).
Proof.
  apply preserves_forM_. intros x. apply preserves_wrapM, preserves_step.
  intros d r d' Hd. unfold q_InsertVersionDep. repeat case_match; intros [= <- <-]; exact Hd.
Qed.

Section read.
Context `{Collation}.

Lemma elem_of_GetVersionFiles ns sc v d vf :
  ∃ l, GetVersionFiles ns sc v d = (Ok l, d) ∧
    (vf ∈ l ↔ ∃ f h, t_schema_version_files d !! (ns, sc, versionToDB v, f) = Some h ∧
       vf = {| vf_NamespaceID := ns; vf_SchemaID := sc;
               vf_Version := versionFromDB (versionToDB v);
               vf_Filename := f; vf_BlobSHA256 := h |}).
Proof.
  eexists. split; [reflexivity|]. rewrite list_elem_of_fmap.
  setoid_rewrite merge_sort_Permutation. setoid_rewrite list_elem_of_omap. split.
  - intros ([f h] & -> & [[[[ns' sc'] v'] f'] h'] & Hin & E). case_decide as Hc; [|done].
    injection E as -> ->. destruct Hc as (-> & -> & ->). apply elem_of_map_to_list in Hin. eauto.
  - intros (f & h & Hl & ->). exists (f, h). split; [done|].
    exists (ns, sc, versionToDB v, f, h). rewrite elem_of_map_to_list. split; [done|].
    by rewrite decide_True.
Qed.

(** What a metadata column gives back of a map of valid texts, a nil one as the empty one. *)
Lemma metadata_roundtrip m v :
  jsonb_in (marshalJSONOrEmpty m) = Ok v → utf8_map (default ∅ m) →
  nul_free (default ∅ m) ∧ unmarshalJSONMap (Some v) = Some (default ∅ m).
Proof.
  intros Hv Hm. destruct m as [m|]; cbn in *.
  - pose proof (jsonb_roundtrip m Hm) as Hr. by rewrite Hv in Hr.
  - injection Hv as <-. split; [apply map_Forall_empty|reflexivity].
Qed.

(** C35. When the version and its files carry the same identifiers and a number of the BIGINT
    range, and every stored file belongs to a stored version, what [PutVersion] stores is what
    is read back: the compiled bytes, compiler version and author under the version number,
    exactly the given files, and the metadata, a nil map as the empty one, provided that its
    names and values are valid UTF-8 (other bytes come back as U+FFFD); valid metadata that
    holds a NUL is never stored. A call that fails, at whichever statement, leaves the database
    as it was. *)
Theorem PutVersion_roundtrip ver fs ds d x d' :
  files_fk d → (0 <= sv_Version ver <= maxInt64)%Z →
  (∀ f, f ∈ fs → vf_NamespaceID f = sv_NamespaceID ver ∧ vf_SchemaID f = sv_SchemaID ver ∧
     vf_Version f = sv_Version ver) →
  PutVersion ver fs ds d = (x, d') →
  match x with
  | Err _ => d' = d
  | Ok _ =>
     (∃ ver', GetVersion (sv_NamespaceID ver) (sv_SchemaID ver) (sv_Version ver) d'
        = (Ok ver', d') ∧
        sv_Version ver' = sv_Version ver ∧ sv_Compiled ver' = sv_Compiled ver ∧
        sv_CompilerVersion ver' = sv_CompilerVersion ver ∧
        sv_CreatedBy ver' = sv_CreatedBy ver ∧ sv_DeletedAt ver' = None ∧
        (utf8_map (default ∅ (sv_Metadata ver)) →
         nul_free (default ∅ (sv_Metadata ver)) ∧
         sv_Metadata ver' = Some (default ∅ (sv_Metadata ver)))) ∧
     ∀ vf, ∃ l,
       GetVersionFiles (sv_NamespaceID ver) (sv_SchemaID ver) (sv_Version ver) d' = (Ok l, d') ∧
       (vf ∈ l ↔ vf ∈ fs)
  end.
Proof.
  intros Hfk Hv Hfs Hput. destruct x as [[]|e]; [|by apply tx_Err in Hput]. split.
  - apply PutVersion_core in Hput as (_ & _ & _ & row & E1 & E2 & E3 & E4 & E5 & E6).
    unfold GetVersion, q_GetVersion, one, wrapM, mbind, M_bind. rewrite E6.
    fold (version_key ver). rewrite lookup_insert_eq. cbn. eexists. split; [reflexivity|].
    cbn. rewrite versionToDB_id, versionFromDB_id by lia. split_and!; try done. by apply metadata_roundtrip.
  - intros vf.
    destruct (elem_of_GetVersionFiles (sv_NamespaceID ver) (sv_SchemaID ver) (sv_Version ver) d' vf)
      as (l & Hl & Hin). exists l. split; [done|]. rewrite Hin. clear Hin Hl l.
    pose proof (PutVersion_core _ _ _ _ _ Hput) as (Hfresh & _).
    unfold PutVersion in Hput. apply tx_Ok in Hput.
    apply M_bind_Ok in Hput as (u & d1 & Hi & Hrest). unfold wrapM in Hi.
    destruct (q_InsertVersion _ _ _ _ d) as [[[]|] dx] eqn:E; [|done]. injection Hi as _ <-.
    apply InsertVersion_inv in E as (_ & _ & md & _ & E).
    apply M_bind_Ok in Hrest as ([] & d2 & Hf & Hd).
    pose proof (insert_deps_files ds _ d2 eq_refl) as Hp. rewrite Hd in Hp. cbn in Hp.
    rewrite Hp. setoid_rewrite (insert_files_spec _ _ _ Hf). rewrite E. cbn.
    rewrite versionToDB_id, versionFromDB_id by lia. split.
    + intros (f & h & [Hold|(g & Hg & Hk & ->)] & ->).
      * apply Hfk in Hold as [row Hrow]. unfold version_key in Hfresh.
        rewrite versionToDB_id in Hfresh by lia. congruence.
      * destruct (Hfs g Hg) as (E1 & E2 & E3). unfold file_key in Hk.
        injection Hk as _ _ _ ->. destruct g; cbn in *; subst. done.
    + intros Hvf. destruct (Hfs vf Hvf) as (E1 & E2 & E3).
      exists (vf_Filename vf), (vf_BlobSHA256 vf). split.
      * right. exists vf. unfold file_key. rewrite E1, E2, E3, versionToDB_id by lia. done.
      * destruct vf; cbn in *; subst. done.
Qed.

(** ** Grouping the recovery rows *)

Definition row_key (r : LoadRow) : string * string := (lr_namespace_id r, lr_schema_id r).
Definition cs_key (c : CurrentSchema) : string * string := (cs_NamespaceID c, cs_SchemaID c).

Lemma row_key_eq row c :
  row_key row = cs_key c ↔
  cs_NamespaceID c = lr_namespace_id row ∧ cs_SchemaID c = lr_schema_id row.
Proof.
  unfold row_key, cs_key. split; [by intros [= -> ->]|]. by intros [<- <-].
Qed.

(** The entry of a schema made from its rows. *)
Definition entry_of (rows : list LoadRow) (c : CurrentSchema) : Prop :=
  ∃ r rs, filter (λ r, row_key r = cs_key c) rows = r :: rs ∧
    cs_Version c = versionFromDB (lr_version r) ∧ cs_Compiled c = lr_compiled r ∧
    cs_CompilerVersion c = lr_compiler_version r ∧ cs_Files c = fileOf <$> (r :: rs).

Lemma entry_of_other rows row c :
  entry_of rows c → row_key row ≠ cs_key c → entry_of (rows ++ [row])%list c.
Proof.
  intros (r & rs & E & Hc) Hne. exists r, rs. split; [|done].
  rewrite filter_app, E, filter_cons_False, filter_nil by done. by rewrite app_nil_r.
Qed.

Record grouped (rows : list LoadRow) (result : list CurrentSchema) : Prop := {
  gr_nodup : NoDup (cs_key <$> result);
  gr_entry c : c ∈ result → entry_of rows c;
  gr_all r : r ∈ rows → row_key r ∈ (cs_key <$> result) }.

Lemma addRow_keys row result :
  cs_key <$> addRow row result =
    if decide (row_key row ∈ (cs_key <$> result)) then cs_key <$> result
    else ((cs_key <$> result) ++ [row_key row])%list.
Proof.
  induction result as [|c result IH]; cbn [addRow].
  - by rewrite decide_False by (rewrite elem_of_nil; tauto).
  - rewrite (fmap_cons _ c result).
    destruct (decide (cs_NamespaceID c = lr_namespace_id row ∧ cs_SchemaID c = lr_schema_id row))
      as [Hc|Hc].
    + rewrite decide_True; [done|]. unfold row_key. destruct Hc as [<- <-]. left.
    + rewrite fmap_cons, IH. assert (row_key row ≠ cs_key c) by by rewrite row_key_eq.
      destruct (decide (row_key row ∈ (cs_key <$> result))).
      * rewrite decide_True; [done|]. by right.
      * rewrite decide_False; [done|]. by rewrite not_elem_of_cons.
Qed.

Lemma addRow_entries rows row result c :
  NoDup (cs_key <$> result) → (∀ c, c ∈ result → entry_of rows c) →
  (∀ r, r ∈ rows → row_key r ∈ (cs_key <$> result)) →
  c ∈ addRow row result → entry_of (rows ++ [row])%list c.
Proof.
  intros Hnd He Hall.
  assert (Hnew : row_key row ∉ (cs_key <$> result) →
    filter (λ r, row_key r = row_key row) (rows ++ [row])%list = [row]).
  { intros Hn. rewrite filter_app, filter_cons_True by done.
    assert (filter (λ r, row_key r = row_key row) rows = []) as ->; [|done].
    apply filter_none. intros r Hr E. apply Hn. rewrite <-E. auto. }
  clear Hall. induction result as [|c0 result IH]; cbn [addRow].
  - intros ->%list_elem_of_singleton. exists row, []. split; [|done].
    apply Hnew. apply not_elem_of_nil.
  - rewrite fmap_cons, NoDup_cons in Hnd. destruct Hnd as [Hc0 Hnd]. case_decide as Hk.
    + assert (Hkey : row_key row = cs_key c0) by by apply row_key_eq.
      intros [->|Hin]%elem_of_cons.
      * destruct (He c0) as (r & rs & E & E1 & E2 & E3 & E4); [left|].
        exists r, (rs ++ [row])%list. cbn. split_and!; [|done..|].
        -- change (cs_key {| cs_NamespaceID := cs_NamespaceID c0; cs_SchemaID := cs_SchemaID c0;
             cs_Version := _; cs_Compiled := _; cs_CompilerVersion := _; cs_Files := _ |})
             with (cs_key c0).
           rewrite filter_app, E, filter_cons_True, filter_nil by done. done.
        -- rewrite E4, fmap_app. done.
      * apply entry_of_other; [apply He; by right|]. rewrite Hkey. intros E.
        apply Hc0. rewrite E. by apply list_elem_of_fmap_2.
    + intros [->|Hin]%elem_of_cons.
      * apply entry_of_other; [apply He; left|]. by rewrite row_key_eq.
      * apply IH; [done| | |done].
        -- intros c1 Hc1. apply He. by right.
        -- intros Hn. apply Hnew. rewrite fmap_cons, not_elem_of_cons. split; [|done].
           by rewrite row_key_eq.
Qed.

Lemma addRow_grouped rows row result :
  grouped rows result → grouped (rows ++ [row])%list (addRow row result).
Proof.
  intros [Hnd He Hall]. split.
  - rewrite addRow_keys. case_decide as Hin; [done|].
    apply NoDup_app. split_and!; [done| |apply NoDup_singleton].
    by intros k Hk ->%list_elem_of_singleton.
  - intros c. by apply addRow_entries.
  - intros r. rewrite elem_of_app, list_elem_of_singleton, addRow_keys.
    intros [Hr|Hr]; case_decide as Hin.
    + auto.
    + rewrite elem_of_app. auto.
    + by rewrite Hr.
    + rewrite elem_of_app, list_elem_of_singleton, Hr. by right.
Qed.

Lemma groupRows_grouped rows :
  grouped rows (fold_left (λ result row, addRow row result) rows []).
Proof.
  induction rows as [|row rows IH] using rev_ind.
  - split; [constructor|..]; intros ? ?%elem_of_nil; done.
  - rewrite fold_left_app. by apply addRow_grouped.
Qed.

(** Recovery reads one entry per schema: the rows of [LoadAllCurrent] and of its two
    namespace variants are grouped into entries with distinct schemas, every row's schema
    has its entry, and an entry lists all files of its schema in row order, whether or not
    the rows of a schema are adjacent. *)
Theorem load_groups_by_schema rows :
  grouped rows (groupAllCurrentRows rows) ∧ grouped rows (groupNSCurrentRows rows) ∧
  grouped rows (groupNSProposedRows rows).
Proof. split_and!; apply groupRows_grouped. Qed.

End read.
