(* ===== verification/Base64.v ===== *)
(** * Go's [base64.RawURLEncoding]

    The URL alphabet without padding. The decoder skips carriage returns and newlines and
    does not look at the unused bits of the last character; the offset in its error is
    left out. *)

From S2P Require Import Prelude GoStrings.
From stdpp Require Import prelude strings list.

Open Scope string_scope.

Definition code_of (c : Ascii.ascii) : Z := Z.of_N (Ascii.N_of_ascii c).
Definition char_of (z : Z) : Ascii.ascii := Ascii.ascii_of_N (Z.to_N z).

(** The character of a six-bit value, and back. *)
Definition enc6 (n : Z) : Ascii.ascii :=
  char_of (if decide (n < 26)%Z then 65 + n
           else if decide (n < 52)%Z then 71 + n
           else if decide (n < 62)%Z then n - 4
           else if decide (n = 62)%Z then 45 else 95).

Definition dec6 (c : Ascii.ascii) : option Z :=
  let z := code_of c in
  if decide (65 <= z <= 90)%Z then Some (z - 65)%Z
  else if decide (97 <= z <= 122)%Z then Some (z - 71)%Z
  else if decide (48 <= z <= 57)%Z then Some (z + 4)%Z
  else if decide (z = 45)%Z then Some 62%Z
  else if decide (z = 95)%Z then Some 63%Z
  else None.

(** The [i]-th six-bit group, from the top, of a 24-bit value. *)
Definition sextet (v i : Z) : Ascii.ascii := enc6 (Z.land (Z.shiftr v (18 - 6 * i)) 63).

Fixpoint EncodeToString (s : string) : string :=
  match s with
  | String a (String b (String c rest)) =>
     let v := (code_of a * 2 ^ 16 + code_of b * 2 ^ 8 + code_of c)%Z in
     String (sextet v 0) (String (sextet v 1) (String (sextet v 2) (String (sextet v 3)
       (EncodeToString rest))))
  | String a (String b EmptyString) =>
     let v := (code_of a * 2 ^ 16 + code_of b * 2 ^ 8)%Z in
     String (sextet v 0) (String (sextet v 1) (String (sextet v 2) ""))
  | String a EmptyString =>
     let v := (code_of a * 2 ^ 16)%Z in
     String (sextet v 0) (String (sextet v 1) "")
  | EmptyString => ""
  end.

Definition byte_at (v k : Z) : Ascii.ascii := char_of (Z.land (Z.shiftr v k) 255).

Definition corrupt {A} : res A := Err (ErrNew "illegal base64 data").

(** The decoding of a text without line breaks. *)
Fixpoint decodeChars (s : string) : res string :=
  match s with
  | EmptyString => Ok ""
  | String a (String b (String c (String d rest))) =>
     match dec6 a, dec6 b, dec6 c, dec6 d with
     | Some a, Some b, Some c, Some d =>
        let v := (a * 2 ^ 18 + b * 2 ^ 12 + c * 2 ^ 6 + d)%Z in
        match decodeChars rest with
        | Ok t => Ok (String (byte_at v 16) (String (byte_at v 8) (String (byte_at v 0) t)))
        | Err e => Err e
        end
     | _, _, _, _ => corrupt
     end
  | String a (String b (String c EmptyString)) =>
     match dec6 a, dec6 b, dec6 c with
     | Some a, Some b, Some c =>
        let v := (a * 2 ^ 18 + b * 2 ^ 12 + c * 2 ^ 6)%Z in
        Ok (String (byte_at v 16) (String (byte_at v 8) ""))
     | _, _, _ => corrupt
     end
  | String a (String b EmptyString) =>
     match dec6 a, dec6 b with
     | Some a, Some b => Ok (String (byte_at (a * 2 ^ 18 + b * 2 ^ 12) 16) "")
     | _, _ => corrupt
     end
  | String _ EmptyString => corrupt
  end.

Fixpoint dropBreaks (s : string) : string :=
  match s with
  | EmptyString => ""
  | String c rest =>
     if decide (code_of c = 10 ∨ code_of c = 13)%Z then dropBreaks rest
     else String c (dropBreaks rest)
  end.

Definition DecodeString (s : string) : res string := decodeChars (dropBreaks s).

(** ** Round trip *)

Lemma code_of_range c : (0 <= code_of c < 256)%Z.
Proof. unfold code_of. pose proof (Ascii.N_ascii_bounded c). lia. Qed.

Lemma code_of_char z : (0 <= z < 256)%Z → code_of (char_of z) = z.
Proof. intros Hz. unfold code_of, char_of. rewrite Ascii.N_ascii_embedding; lia. Qed.

Lemma char_of_code c : char_of (code_of c) = c.
Proof. unfold code_of, char_of. by rewrite N2Z.id, Ascii.ascii_N_embedding. Qed.

Lemma code_of_enc6 n : (0 <= n < 64)%Z →
  code_of (enc6 n) = if decide (n < 26)%Z then (65 + n)%Z
    else if decide (n < 52)%Z then (71 + n)%Z
    else if decide (n < 62)%Z then (n - 4)%Z
    else if decide (n = 62)%Z then 45%Z else 95%Z.
Proof. intros Hn. unfold enc6. apply code_of_char. repeat case_decide; lia. Qed.

Lemma dec6_enc6 n : (0 <= n < 64)%Z → dec6 (enc6 n) = Some n.
Proof.
  intros Hn. unfold dec6. rewrite code_of_enc6 by done.
  repeat case_decide; try lia; f_equal; lia.
Qed.

Lemma enc6_not_break n : (0 <= n < 64)%Z →
  ¬ (code_of (enc6 n) = 10 ∨ code_of (enc6 n) = 13)%Z.
Proof. intros Hn. rewrite code_of_enc6 by done. repeat case_decide; lia. Qed.

Lemma land_63 v : Z.land v 63 = (v mod 64)%Z.
Proof. exact (Z.land_ones v 6 ltac:(lia)). Qed.
Lemma land_255 v : Z.land v 255 = (v mod 256)%Z.
Proof. exact (Z.land_ones v 8 ltac:(lia)). Qed.

Definition six (v k : Z) : Z := ((v / 2 ^ k) mod 64)%Z.

Lemma sextet_six v i : (i <= 3)%Z → sextet v i = enc6 (six v (18 - 6 * i)).
Proof. intros Hi. unfold sextet, six. by rewrite Z.shiftr_div_pow2, land_63 by lia. Qed.

Lemma six_range v k : (0 <= six v k < 64)%Z.
Proof. apply Z.mod_pos_bound. lia. Qed.

Lemma byte_at_div v k : (0 <= k)%Z → byte_at v k = char_of ((v / 2 ^ k) mod 256).
Proof. intros Hk. unfold byte_at. by rewrite Z.shiftr_div_pow2, land_255 by lia. Qed.

#[local] Ltac Zify.zify_post_hook ::= Z.to_euclidean_division_equations.

Lemma six_sum v : (0 <= v < 2 ^ 24)%Z →
  (six v 18 * 2 ^ 18 + six v 12 * 2 ^ 12 + six v 6 * 2 ^ 6 + six v 0 = v)%Z.
Proof. intros Hv. unfold six. lia. Qed.

Lemma byte_at_join a b c k (z : Ascii.ascii) :
  (0 <= a < 256 → 0 <= b < 256 → 0 <= c < 256 → 0 <= k →
   ((a * 2 ^ 16 + b * 2 ^ 8 + c) / 2 ^ k) mod 256 = code_of z)%Z →
  (0 <= a < 256)%Z → (0 <= b < 256)%Z → (0 <= c < 256)%Z → (0 <= k)%Z →
  byte_at (a * 2 ^ 16 + b * 2 ^ 8 + c) k = z.
Proof. intros Hz Ha Hb Hc Hk. rewrite byte_at_div, Hz by done. apply char_of_code. Qed.

Lemma bytes_of_three a b c (A B C : Ascii.ascii) :
  code_of A = a → code_of B = b → code_of C = c →
  let v := (a * 2 ^ 16 + b * 2 ^ 8 + c)%Z in
  (0 <= v < 2 ^ 24)%Z ∧ byte_at v 16 = A ∧ byte_at v 8 = B ∧ byte_at v 0 = C.
Proof.
  intros <- <- <- v. pose proof (code_of_range A). pose proof (code_of_range B).
  pose proof (code_of_range C). subst v.
  split; [lia|]. split_and!; apply byte_at_join; lia.
Qed.

Lemma dropBreaks_enc6 n s :
  (0 <= n < 64)%Z → dropBreaks (String (enc6 n) s) = String (enc6 n) (dropBreaks s).
Proof. intros Hn. cbn [dropBreaks]. rewrite decide_False; [done|]. by apply enc6_not_break. Qed.

Lemma string_ind3 (P : string → Prop) :
  P "" → (∀ a, P (String a "")) → (∀ a b, P (String a (String b ""))) →
  (∀ a b c s, P s → P (String a (String b (String c s)))) → ∀ s, P s.
Proof.
  intros H0 H1 H2 H3. fix IH 1. intros [|a [|b [|c s]]]; [done|apply H1|apply H2|].
  apply H3, IH.
Qed.

(** The decoder reads back the value the encoder split. *)
Lemma decoded_value v w :
  (0 <= v < 2 ^ 24)%Z → (w = six v 18 * 2 ^ 18 + six v 12 * 2 ^ 12 + six v 6 * 2 ^ 6 + six v 0)%Z →
  w = v.
Proof. intros Hv ->. by apply six_sum. Qed.

(** Decoding an encoded text gives the text back. *)
Lemma DecodeString_EncodeToString s : DecodeString (EncodeToString s) = Ok s.
Proof.
  assert (H0 : code_of (char_of 0) = 0%Z) by (apply code_of_char; lia).
  unfold DecodeString. induction s as [|a|a b|a b c s IH] using string_ind3; [done|..];
    cbn [EncodeToString]; cbv zeta; rewrite !sextet_six by lia;
    repeat rewrite dropBreaks_enc6 by apply six_range; cbn [dropBreaks decodeChars];
    rewrite !dec6_enc6 by apply six_range; cbv zeta.
  - destruct (bytes_of_three _ _ _ a (char_of 0) (char_of 0) eq_refl H0 H0) as (Hv & Ha & _).
    replace (code_of a * 2 ^ 16 + 0 * 2 ^ 8 + 0)%Z with (code_of a * 2 ^ 16)%Z in * by lia.
    rewrite (decoded_value _ _ Hv); [by rewrite Ha|]. unfold six. lia.
  - destruct (bytes_of_three _ _ _ a b (char_of 0) eq_refl eq_refl H0) as (Hv & Ha & Hb & _).
    rewrite Z.add_0_r in *.
    rewrite (decoded_value _ _ Hv); [by rewrite Ha, Hb|]. unfold six. lia.
  - destruct (bytes_of_three _ _ _ a b c eq_refl eq_refl eq_refl) as (Hv & Ha & Hb & Hc).
    rewrite six_sum, IH by done. by rewrite Ha, Hb, Hc.
Qed.
