(* ===== verification/Auth.v ===== *)
(** * Authentication of the gRPC server

    Models [src/server/auth.go]: identities, bearer-token authentication and the token
    file parser. The incoming metadata of a call is the only part of its context an
    authenticator reads. *)

From S2P Require Import Prelude GoStrings GoPath.
From stdpp Require Import prelude gmap strings list pretty.

Open Scope string_scope.

Record Identity := { Subject : string; Admin : bool }.
#[global] Instance Identity_eq_dec : EqDecision Identity.
Proof. solve_decision. Defined.

Definition AnonymousIdentity : Identity := {| Subject := "anonymous"; Admin := false |}.

(** [metadata.FromIncomingContext]: absent, or lists of values by lower-case key. *)
Definition Metadata : Type := option (gmap string (list string)).

(** [Authenticator]: from the metadata and the method name. *)
Definition Authenticator : Type := Metadata → string → res Identity.

Definition NoAuth : Authenticator := λ _ _, Ok AnonymousIdentity.

Definition unauthenticated {A} (msg : string) : res A := Err (ErrStatus Unauthenticated msg).

(** [TokenAuth.Authenticate] over its token table. *)
Definition TokenAuth (tokens : gmap string Identity) : Authenticator := λ md _,
  match md with
  | None => unauthenticated "missing metadata"
  | Some md =>
     match default [] (md !! "authorization") with
     | [] => unauthenticated "missing authorization header"
     | authz :: _ =>
        let prefix := "Bearer " in
        if negb (HasPrefix authz prefix) then
          unauthenticated "authorization must use Bearer scheme"
        else
          match tokens !! TrimPrefix authz prefix with
          | None => unauthenticated "unknown token"
          | Some id => Ok id
          end
     end
  end.

(** The longest line a [bufio.Scanner] accepts, plus one. *)
Definition MaxScanTokenSize : Z := 65536.

(** [bufio.ScanLines] drops one trailing carriage return; the white space is trimmed
    afterwards in any case. *)
Definition carriage : Ascii.ascii := Ascii.ascii_of_nat 13.
Definition dropCR (line : string) : string :=
  if HasSuffix line (String carriage "") then str_take (String.length line - 1) line else line.

(** One line of the token file. *)
Definition parseTokenLine (lineNum : nat) (text : string) (tokens : gmap string Identity)
    : res (gmap string Identity) :=
  let line := TrimSpace text in
  let at_line msg := Err (ErrNew ("line " +:+ pretty lineNum +:+ ": " +:+ msg)) in
  if decide (line = "") then Ok tokens
  else if HasPrefix line "#" then Ok tokens
  else
    match Fields line with
    | token :: subject :: rest =>
       let role := match rest with r :: _ => r | [] => "user" end in
       if decide (role = "user" ∨ role = "admin") then
         match tokens !! token with
         | Some _ => at_line "duplicate token"
         | None => Ok (<[token := {| Subject := subject; Admin := bool_decide (role = "admin") |}]> tokens)
         end
       else at_line ("role must be 'user' or 'admin', got " +:+ quote role)
    | _ => at_line "expected at least <token> <subject>"
    end.

(** The scanner loop over the lines of the file. *)
Fixpoint parseTokenLines (lineNum : nat) (lines : list string) (tokens : gmap string Identity)
    : res (gmap string Identity) :=
  match lines with
  | [] => Ok tokens
  | line :: lines =>
     if decide (MaxScanTokenSize <= Z.of_nat (String.length line))%Z then
       Err (ErrWrap "reading token file" (ErrNew "bufio.Scanner: token too long"))
     else
       match parseTokenLine (S lineNum) (dropCR line) tokens with
       | Err e => Err e
       | Ok tokens => parseTokenLines (S lineNum) lines tokens
       end
  end.

(** [ParseTokenFile] on the contents of the file. *)
Definition ParseTokenFile (content : string) : res (gmap string Identity) :=
  parseTokenLines 0 (Split content newline) ∅.

(** [UnaryAuthInterceptor]: the handler runs with the identity, or not at all. *)
Definition UnaryAuthInterceptor {S A} (a : Authenticator) (md : Metadata) (method : string)
    (handler : Identity → M S A) : M S A :=
  id ← of_res (a md method); handler id.

(** ** Who is authenticated

    A caller gets exactly the identity the token file lists for its bearer token. *)

(** A line of the token file that grants [t] the identity [id]: not a comment, the token
    and the subject are its first two fields, and the administrator role is its third. *)
Definition grants (line t : string) (id : Identity) : Prop :=
  ∃ rest, let text := TrimSpace (dropCR line) in
    HasPrefix text "#" = false ∧ Fields text = t :: Subject id :: rest ∧
    Admin id = bool_decide (head rest = Some "admin").

Lemma parseTokenLine_spec n line tokens tokens' t id :
  parseTokenLine n (dropCR line) tokens = Ok tokens' →
  tokens' !! t = Some id ↔ tokens !! t = Some id ∨ grants line t id.
Proof.
  unfold parseTokenLine, grants. cbv zeta. set (text := TrimSpace (dropCR line)).
  case_decide as Hempty.
  { intros [= <-]. split; [by left|]. intros [?|(rest & _ & HF & _)]; [done|].
    rewrite Hempty in HF. done. }
  destruct (HasPrefix text "#") eqn:Hc.
  { intros [= <-]. split; [by left|]. intros [?|(rest & ? & _)]; done. }
  destruct (Fields text) as [|token [|subject rest]] eqn:HF; [done..|].
  case_decide as Hr; [|done]. destruct (tokens !! token) eqn:Hd; [done|].
  intros [= <-]. rewrite lookup_insert_Some.
  assert (Hb : bool_decide (match rest with r :: _ => r | [] => "user" end = "admin") =
    bool_decide (head rest = Some "admin")).
  { apply bool_decide_ext. destruct rest; cbn; [done|]. split; [by intros ->|congruence]. }
  rewrite Hb. split.
  - intros [[<- <-]|[_ ?]]; [right; by exists rest|by left].
  - intros [Ht|(rest' & _ & [= <- Hs <-] & Ha)]; [right; split; congruence|left].
    split; [done|]. destruct id; cbn in *. by subst.
Qed.

Lemma parseTokenLines_spec n lines tokens tokens' t id :
  parseTokenLines n lines tokens = Ok tokens' →
  tokens' !! t = Some id ↔ tokens !! t = Some id ∨ ∃ line, line ∈ lines ∧ grants line t id.
Proof.
  revert n tokens. induction lines as [|line lines IH]; intros n tokens; cbn.
  - intros [= <-]. set_solver.
  - case_decide; [done|]. destruct (parseTokenLine _ _ _) as [tokens1|] eqn:E; [|done].
    intros ->%IH. rewrite (parseTokenLine_spec _ _ _ _ t id E).
    setoid_rewrite elem_of_cons. naive_solver.
Qed.

Lemma TokenAuth_Ok tokens md m id :
  TokenAuth tokens md m = Ok id ↔
  ∃ headers t rest, md = Some headers ∧
    headers !! "authorization" = Some (("Bearer " +:+ t) :: rest) ∧ tokens !! t = Some id.
Proof.
  unfold TokenAuth, unauthenticated. cbv zeta. split.
  - destruct md as [headers|]; [|done].
    destruct (headers !! "authorization") as [[|authz rest]|] eqn:Eh; [done| |done]. cbn [from_option Datatypes.id].
    destruct (HasPrefix authz "Bearer ") eqn:Ep; cbn [negb]; [|done].
    apply HasPrefix_spec in Ep as [t ->]. unfold TrimPrefix. rewrite HasPrefix_app, str_drop_app.
    destruct (tokens !! t) as [id'|] eqn:Et; [|done]. intros [= ->]. eauto 8.
  - intros (headers & t & rest & -> & -> & Ht). cbn [from_option Datatypes.id].
    change (negb (HasPrefix _ _)) with (negb (HasPrefix ("Bearer " +:+ t) "Bearer ")).
    rewrite HasPrefix_app. cbn [negb]. unfold TrimPrefix. rewrite HasPrefix_app, str_drop_app.
    by rewrite Ht.
Qed.

(** With a token file that parses, a call is authenticated exactly when its first
    authorization header is [Bearer t] for a token [t] that some line of the file grants,
    and it gets the identity of that line: it is an administrator exactly when the third
    field of the line says so. *)
Lemma token_file_authenticates content tokens md m id :
  ParseTokenFile content = Ok tokens →
  TokenAuth tokens md m = Ok id ↔
  ∃ headers t rest line, md = Some headers ∧
    headers !! "authorization" = Some (("Bearer " +:+ t) :: rest) ∧
    line ∈ Split content newline ∧ grants line t id.
Proof.
  intros Hp. rewrite TokenAuth_Ok. setoid_rewrite (parseTokenLines_spec _ _ _ _ _ _ Hp).
  setoid_rewrite lookup_empty. naive_solver.
Qed.
