(* ===== verification/Validate.v ===== *)
(** * Request limits and validation

    Models [src/server/limits.go] and [src/server/validate.go], and proves which
    identifiers, file names and source sets pass. *)

From S2P Require Import Prelude GoStrings GoPath.
From stdpp Require Import prelude gmap strings list pretty.

Open Scope string_scope.

Record Limits := {
  MaxIDLength : Z; MaxFilenameLength : Z; MaxSourcesPerRequest : Z;
  MaxTotalSourceBytes : Z; MaxFileSourceBytes : Z;
  DefaultListPageSize : Z; MaxListPageSize : Z }.

Definition DefaultLimits : Limits := {|
  MaxIDLength := 256; MaxFilenameLength := 512; MaxSourcesPerRequest := 1000;
  MaxTotalSourceBytes := 32 * 1024 * 1024; MaxFileSourceBytes := 8 * 1024 * 1024;
  DefaultListPageSize := 100; MaxListPageSize := 1000 |}.

Definition resolvePageSize (l : Limits) (requested : Z) : Z :=
  if decide (requested = 0)%Z then DefaultListPageSize l
  else if decide (MaxListPageSize l < requested)%Z then MaxListPageSize l
  else requested.

Definition invalid (msg : string) : res unit := Err (ErrStatus InvalidArgument msg).

Definition strlen (s : string) : Z := Z.of_nat (String.length s).

(** The character classes of [idPattern]. *)
Definition alnum (c : Ascii.ascii) : bool :=
  let n := Ascii.nat_of_ascii c in
  bool_decide (65 ≤ n ≤ 90 ∨ 97 ≤ n ≤ 122 ∨ 48 ≤ n ≤ 57)%nat.
Definition id_char (c : Ascii.ascii) : bool :=
  let n := Ascii.nat_of_ascii c in
  alnum c || bool_decide (n = 95 ∨ n = 46 ∨ n = 45)%nat.

Fixpoint all_chars (p : Ascii.ascii → bool) (s : string) : bool :=
  match s with EmptyString => true | String c s => p c && all_chars p s end.

Definition idPattern_String : string := "^[A-Za-z0-9][A-Za-z0-9_.-]*$".
Definition idPattern_MatchString (s : string) : bool :=
  match s with EmptyString => false | String c s => alnum c && all_chars id_char s end.

Definition validateID (value fieldName : string) (maxLen : Z) : res unit :=
  if decide (value = "") then invalid (fieldName +:+ " is required")
  else if decide (maxLen < strlen value)%Z then
    invalid (fieldName +:+ " exceeds " +:+ pretty maxLen +:+ " byte limit")
  else if negb (idPattern_MatchString value) then
    invalid (fieldName +:+ " must match " +:+ idPattern_String)
  else Ok tt.

Definition nul : Ascii.ascii := Ascii.ascii_of_nat 0.

Definition validateFilename (name : string) (maxLen : Z) : res unit :=
  if decide (name = "") then invalid "source filename must not be empty"
  else if decide (maxLen < strlen name)%Z then
    invalid ("source filename exceeds " +:+ pretty maxLen +:+ " byte limit")
  else if decide (IndexByte nul name ≠ None) then
    invalid "source filename contains NUL byte"
  else if HasPrefix name "/" then invalid "source filename must be relative"
  else if decide (Clean name ≠ name) then
    invalid ("source filename " +:+ quote name +:+ " is not in canonical form")
  else if decide (".." ∈ Split name slash) then
    invalid ("source filename " +:+ quote name +:+ " contains parent traversal")
  else Ok tt.

Section validate.
Context `{GoRange}.

(** The loop over the sources; the sum of the sizes of strings in memory is below 2^63. *)
Fixpoint validateEach (l : Limits) (sources : list (string * string)) (total : Z) : res Z :=
  match sources with
  | [] => Ok total
  | (filename, src) :: sources =>
     match validateFilename filename (MaxFilenameLength l) with
     | Err e => Err e
     | Ok _ =>
        let size := strlen src in
        if decide (MaxFileSourceBytes l < size)%Z then
          Err (ErrStatus InvalidArgument ("source " +:+ quote filename +:+ " exceeds " +:+
            pretty (MaxFileSourceBytes l) +:+ " byte limit (" +:+ pretty size +:+ " bytes)"))
        else validateEach l sources (total + size)
     end
  end.

Definition validateSources (sources : gmap string string) (l : Limits) : res unit :=
  if decide (size sources = 0%nat) then invalid "sources must not be empty"
  else if decide (MaxSourcesPerRequest l < Z.of_nat (size sources))%Z then
    invalid ("too many sources (" +:+ pretty (size sources) +:+ " > " +:+
             pretty (MaxSourcesPerRequest l) +:+ ")")
  else
    match validateEach l (go_range sources) 0 with
    | Err e => Err e
    | Ok total =>
       if decide (MaxTotalSourceBytes l < total)%Z then
         invalid ("total source size " +:+ pretty total +:+ " exceeds " +:+
                  pretty (MaxTotalSourceBytes l) +:+ " byte limit")
       else Ok tt
    end.

(** ** What passes *)

(** A name that stays below the directory it is joined to: relative, without empty,
    current-directory or parent elements; the bare [.] passes as well. *)
Definition safe_filename (maxLen : Z) (name : string) : Prop :=
  (strlen name <= maxLen)%Z ∧ IndexByte nul name = None ∧
  (name = "." ∨ Forall plain_seg (Split name slash)).

Lemma rooted_not_plain name :
  HasPrefix name "/" = true → name ≠ "." ∧ ¬ Forall plain_seg (Split name slash).
Proof.
  intros [t ->]%HasPrefix_spec. split; [done|].
  change ("/" +:+ t) with (String slash t). cbn. by intros [[? _] _]%Forall_cons.
Qed.

Lemma validateFilename_spec name maxLen :
  validateFilename name maxLen = Ok tt ↔ name ≠ "" ∧ safe_filename maxLen name.
Proof.
  unfold validateFilename, safe_filename, invalid.
  case_decide as Hne; [naive_solver|]. case_decide as Hlen; [naive_solver lia|].
  case_decide as Hnul; [naive_solver|].
  destruct (HasPrefix name "/") eqn:Hp.
  { apply rooted_not_plain in Hp. naive_solver. }
  destruct (decide (".." ∈ Split name slash)) as [Hdd|Hdd].
  - case_decide; (split; [done|]).
    all: intros (_ & _ & _ & [->|Hall]); [by apply elem_of_cons in Hdd as [?|?%elem_of_nil]|].
    all: rewrite Forall_forall in Hall; destruct (Hall _ Hdd); naive_solver.
  - pose proof (Clean_fixed name Hne Hp Hdd) as Hfix.
    case_decide as Hc; [split; [done|]; naive_solver|].
    split; [|done]. intros _.
    split_and!; [done|lia|done|]. by apply Hfix.
Qed.

Fixpoint total_size (sources : list (string * string)) : Z :=
  match sources with [] => 0 | (_, s) :: l => strlen s + total_size l end%Z.

Lemma validateEach_spec l sources t t' :
  validateEach l sources t = Ok t' ↔
  Forall (λ kv, (kv.1 ≠ "" ∧ safe_filename (MaxFilenameLength l) kv.1) ∧
                (strlen kv.2 <= MaxFileSourceBytes l)%Z) sources ∧
  t' = (t + total_size sources)%Z.
Proof.
  revert t. induction sources as [|[f s] sources IH]; intros t; cbn.
  - rewrite Z.add_0_r. split; [by intros [= ->]|by intros [_ ->]].
  - rewrite Forall_cons. cbn. rewrite <-validateFilename_spec.
    destruct (validateFilename f _) as [[]|e] eqn:E; [|split; [done|naive_solver]].
    case_decide as Hs; [split; [done|intros [[[_ ?] _] _]; lia]|].
    rewrite IH, Z.add_assoc. split; [|by intros [[_ ?] ?]].
    intros [? ?]. split_and!; [done|lia|done|done].
Qed.

(** C30. A publish request passes validation exactly when it has at least one and at most
    the allowed number of sources, every file name is a non-empty safe relative name
    within its length limit, no file is larger than its limit, and neither is their sum;
    so no accepted name leads outside the tree it is placed in. *)
Theorem validateSources_accepts_exactly sources l :
  validateSources sources l = Ok tt ↔
  sources ≠ ∅ ∧ (Z.of_nat (size sources) <= MaxSourcesPerRequest l)%Z ∧
  (∀ f s, sources !! f = Some s →
     f ≠ "" ∧ safe_filename (MaxFilenameLength l) f ∧ (strlen s <= MaxFileSourceBytes l)%Z) ∧
  (total_size (go_range sources) <= MaxTotalSourceBytes l)%Z.
Proof.
  unfold validateSources, invalid. rewrite <-map_size_non_empty_iff.
  case_decide as He; [naive_solver|]. case_decide as Hn; [naive_solver lia|].
  assert (Hall : Forall (λ kv, (kv.1 ≠ "" ∧ safe_filename (MaxFilenameLength l) kv.1) ∧
      (strlen kv.2 <= MaxFileSourceBytes l)%Z) (go_range sources) ↔
    ∀ f s, sources !! f = Some s →
      f ≠ "" ∧ safe_filename (MaxFilenameLength l) f ∧ (strlen s <= MaxFileSourceBytes l)%Z).
  { rewrite Forall_forall. split.
    - intros Hx f s Hs%elem_of_go_range. specialize (Hx _ Hs). cbn in Hx. naive_solver.
    - intros Hx [f s] Hin%elem_of_go_range. specialize (Hx f s Hin). cbn. naive_solver. }
  destruct (validateEach l (go_range sources) 0) as [t|e] eqn:E.
  - apply validateEach_spec in E as [Hf ->]. rewrite Hall in Hf. rewrite Z.add_0_l.
    case_decide; [naive_solver lia|]. split; [|done]. intros _. split_and!; [done|lia|done|lia].
  - split; [done|]. intros (_ & _ & Hf & _). rewrite <-Hall in Hf.
    by rewrite (proj2 (validateEach_spec l (go_range sources) 0 _) (conj Hf eq_refl)) in E.
Qed.
End validate.
