(* ===== verification/Server.v ===== *)
(** * The gRPC server

    Models [src/server/server.go]: the options, the guards, the error translation and all
    handlers over the registry, with the log lines they write. A handler runs with the
    identity the interceptor attached. A run-time panic of a handler is the error
    [index_panic]. *)

From S2P Require Import Prelude GoStrings Descriptor Protobuf Snapshot Compat Conflict.
From S2P Require Import Compiler Namespace Store Registry Base64 Validate Auth.
From stdpp Require Import prelude gmap strings list pretty.

Open Scope string_scope.

(** The texts of the errors of the database driver and the protobuf runtime. *)
Class DriverText := driver_text : sentinel → string.

Inductive LogLine :=
  | AuditLine (op subject : string) (fields : list (string * string))
  | WarnLine (msg subject : string) (fields : list (string * string))
  | ErrorLine (op subject : string) (err : error).

Record Options := {
  o_Limits : Limits; o_Auth : Authenticator; o_AllowAnonymousWrites : bool }.

Definition DefaultOptions : Options :=
  {| o_Limits := DefaultLimits; o_Auth := NoAuth; o_AllowAnonymousWrites := true |}.

Definition ServerOption : Type := Options → Options.
Definition WithLimits (l : Limits) : ServerOption := λ o,
  {| o_Limits := l; o_Auth := o_Auth o; o_AllowAnonymousWrites := o_AllowAnonymousWrites o |}.
Definition WithAuth (a : Authenticator) : ServerOption := λ o,
  {| o_Limits := o_Limits o; o_Auth := a; o_AllowAnonymousWrites := o_AllowAnonymousWrites o |}.
Definition WithAllowAnonymousWrites (allow : bool) : ServerOption := λ o,
  {| o_Limits := o_Limits o; o_Auth := o_Auth o; o_AllowAnonymousWrites := allow |}.

(** The configuration of a [Server]; the registry and the store are the state. *)
Record Server := { s_registry : RegistryConfig; s_opts : Options }.
Definition NewServer (registry : RegistryConfig) (opts : list ServerOption) : Server :=
  {| s_registry := registry; s_opts := fold_left (λ o opt, opt o) opts DefaultOptions |}.

Record PublishResponse := {
  pres_Version : Z; pres_Fingerprint : string; pres_NoChange : bool }.
Record PromotedInfo := { pi_SchemaId : string; pi_CurrentVersion : Z }.
Record NamespaceInfo := {
  ni_Id : string; ni_CreatedAt : Z; ni_Metadata : option (gmap string string) }.
Record SchemaInfo := {
  si_NamespaceId : string; si_SchemaId : string; si_CreatedAt : Z;
  si_Metadata : option (gmap string string); si_Versions : list Z;
  si_CurrentVersion : option Z; si_StagedVersion : option Z }.

(** The fields of a publish request. *)
Record PublishRPC := {
  preq_NamespaceId : string; preq_SchemaId : string; preq_Sources : gmap string string;
  preq_CreatedBy : string; preq_Metadata : option (gmap string string); preq_Force : bool }.

Definition status_error {S A} (c : code) (msg : string) : M S A := fail (ErrStatus c msg).

(** [s[len(s)-1]] on an empty slice. *)
Definition index_panic : error := ErrNew "runtime error: index out of range [-1]".

Definition requireWriter (s : Server) (id : Identity) : res unit :=
  if decide (Subject id = "" ∨ id = AnonymousIdentity) then
    if negb (o_AllowAnonymousWrites (s_opts s)) then
      Err (ErrStatus PermissionDenied "write operations require authentication")
    else Ok tt
  else Ok tt.

Definition requireAdmin (id : Identity) (op : string) : res unit :=
  if Admin id then Ok tt else Err (ErrStatus PermissionDenied (op +:+ " requires admin")).

(** [status.FromError(err)]: is the error a gRPC status, or does it wrap one? *)
Fixpoint is_status (e : error) : bool :=
  match e with
  | ErrStatus _ _ => true
  | ErrWrap _ e => is_status e
  | _ => false
  end.

Definition encodePageToken (cursor : string) : string := EncodeToString cursor.
Definition decodePageToken (token : string) : res string :=
  if decide (token = "") then Ok "" else DecodeString token.

Definition validateNamespaceID (s : Server) (namespaceID : string) : res unit :=
  if decide (namespaceID = BuiltinsNamespace) then Ok tt
  else validateID namespaceID "namespace_id" (MaxIDLength (o_Limits (s_opts s))).

Definition namespaceToProto (ns : StoreNamespace) : NamespaceInfo := {|
  ni_Id := sn_ID ns; ni_CreatedAt := sn_CreatedAt ns; ni_Metadata := sn_Metadata ns |}.

Definition schemaToProto (schema : Schema) (versions : list Z) : SchemaInfo := {|
  si_NamespaceId := sc_NamespaceID schema; si_SchemaId := sc_SchemaID schema;
  si_CreatedAt := sc_CreatedAt schema; si_Metadata := sc_Metadata schema;
  si_Versions := versions; si_CurrentVersion := sc_CurrentVersion schema;
  si_StagedVersion := sc_StagedVersion schema |}.

(** ** Error texts *)

Definition code_String (c : code) : string :=
  match c with
  | InvalidArgument => "InvalidArgument" | NotFoundCode => "NotFound"
  | PermissionDenied => "PermissionDenied" | Unauthenticated => "Unauthenticated"
  | FailedPrecondition => "FailedPrecondition" | Internal => "Internal"
  | Unimplemented => "Unimplemented"
  end.

Section Server.
Context `{Toolchain, ProtoTypes, ProtoNames, GoRange, CompilerVersion, DriverText} {S : Type}
  `{Store S}.
#[local] Notation RS := (RState (S := S)).

Definition sentinel_Error (s : sentinel) : string :=
  match s with
  | ErrParentCycle => "setting parent would create a cycle"
  | ErrNamespaceNotFound => "namespace not found"
  | ErrPermissionDenied => "permission denied"
  | ErrNotExist => "file does not exist"
  | _ => driver_text s
  end.

(** [err.Error()]; the registry never builds a conflict error without conflicts. *)
Fixpoint error_Error (e : error) : string :=
  match e with
  | ErrNew msg => msg
  | ErrWrap ctx e => ctx +:+ ": " +:+ error_Error e
  | ErrSentinel s => sentinel_Error s
  | ErrFQNConflict ns cs =>
     match FQNConflictError_Error ns cs with Returns s => s | Panics => "" end
  | ErrStatus c msg => "rpc error: code = " +:+ code_String c +:+ " desc = " +:+ msg
  end.

Definition isCompatError (e : error) : bool :=
  Contains (error_Error e) "compatibility check failed".

(** ** State and helpers *)

(** The registry and the log. *)
Record SState := { ss_reg : RS; ss_log : list LogLine }.

Definition reg {A} (m : M RS A) : M SState A := λ st,
  let '(x, r') := m (ss_reg st) in (x, {| ss_reg := r'; ss_log := ss_log st |}).
Definition log (l : LogLine) : M SState unit :=
  modify (λ st, {| ss_reg := ss_reg st; ss_log := (ss_log st ++ [l])%list |}).
Definition audit (id : Identity) (op : string) (fields : list (string * string))
    : M SState unit := log (AuditLine op (Subject id) fields).

Definition internalError {A} (id : Identity) (op : string) (e : error) : M SState A :=
  if is_status e then fail e
  else log (ErrorLine op (Subject id) e) ;; status_error Internal (op +:+ " failed").

Definition translateHierarchyError {A} (id : Identity) (op : string) (e : error)
    : M SState A :=
  if errors_Is e ErrParentCycle then
    status_error FailedPrecondition "setting parent would create a cycle"
  else if errors_Is e ErrNamespaceNotFound then
    status_error NotFoundCode "namespace or parent not found"
  else if errors_Is e ErrPermissionDenied then
    status_error PermissionDenied (error_Error e)
  else internalError id op e.

(** A call whose error is handled by [onErr]. *)
Definition call {A} (m : M RS A) (onErr : error → M SState A) : M SState A :=
  x ← attempt (reg m);
  match x with Ok a => mret a | Err e => onErr e end.

(** ** Handlers *)

Definition Server_Publish (s : Server) (id : Identity) (req : PublishRPC)
    : M SState PublishResponse :=
  of_res (requireWriter s id) ;;
  of_res (validateNamespaceID s (preq_NamespaceId req)) ;;
  of_res (validateID (preq_SchemaId req) "schema_id" (MaxIDLength (o_Limits (s_opts s)))) ;;
  of_res (validateSources (preq_Sources req) (o_Limits (s_opts s))) ;;
  (if decide (preq_NamespaceId req = BuiltinsNamespace) then
     of_res (requireAdmin id "writing to __builtins__")
   else mret tt) ;;
  (if preq_Force req then
     of_res (requireAdmin id "force=true") ;;
     log (WarnLine "force publish" (Subject id)
            [("namespace", preq_NamespaceId req); ("schema", preq_SchemaId req)])
   else mret tt) ;;
  result ← call (Publish (s_registry s)
    {| pr_NamespaceID := preq_NamespaceId req; pr_SchemaID := preq_SchemaId req;
       pr_Sources := preq_Sources req; pr_CreatedBy := preq_CreatedBy req;
       pr_Metadata := preq_Metadata req; pr_Force := preq_Force req |})
    (internalError id "publish");
  audit id "publish"
    [("namespace", preq_NamespaceId req); ("schema", preq_SchemaId req);
     ("version", pretty (pub_Version result));
     ("no_change", if pub_NoChange result then "true" else "false");
     ("force", if preq_Force req then "true" else "false");
     ("files", pretty (size (preq_Sources req)))] ;;
  mret {| pres_Version := pub_Version result; pres_Fingerprint := pub_Fingerprint result;
          pres_NoChange := pub_NoChange result |}.

Definition Server_Promote (s : Server) (id : Identity) (namespaceId : string)
    : M SState (list PromotedInfo) :=
  of_res (requireWriter s id) ;;
  of_res (validateNamespaceID s namespaceId) ;;
  promoted ← call (Promote (s_registry s) namespaceId) (λ e,
    if isCompatError e then status_error FailedPrecondition (error_Error e)
    else internalError id "promote" e);
  audit id "promote"
    [("namespace", namespaceId); ("promoted_count", pretty (length promoted))] ;;
  mret ((λ p, {| pi_SchemaId := ps_SchemaID p; pi_CurrentVersion := ps_CurrentVersion p |})
          <$> promoted).

Definition Server_DiscardStaging (s : Server) (id : Identity) (namespaceId : string)
    : M SState unit :=
  of_res (requireWriter s id) ;;
  of_res (validateNamespaceID s namespaceId) ;;
  call (DiscardStaging namespaceId) (internalError id "discard_staging") ;;
  audit id "discard_staging" [("namespace", namespaceId)].

Definition Server_Rollback (s : Server) (id : Identity) (namespaceId schemaId : string)
    (version : Z) (force : bool) : M SState unit :=
  of_res (requireWriter s id) ;;
  of_res (validateNamespaceID s namespaceId) ;;
  of_res (validateID schemaId "schema_id" (MaxIDLength (o_Limits (s_opts s)))) ;;
  (if decide (version = 0%Z) then status_error InvalidArgument "version is required"
   else mret tt) ;;
  (if force then
     of_res (requireAdmin id "force=true") ;;
     log (WarnLine "force rollback" (Subject id)
            [("namespace", namespaceId); ("schema", schemaId); ("version", pretty version)])
   else mret tt) ;;
  call (Rollback namespaceId schemaId version force) (λ e,
    if Contains (error_Error e) "would break consumers" then
      status_error FailedPrecondition (error_Error e)
    else internalError id "rollback" e) ;;
  audit id "rollback"
    [("namespace", namespaceId); ("schema", schemaId); ("version", pretty version);
     ("force", if force then "true" else "false")].

Definition Server_GetSchema (s : Server) (id : Identity) (namespaceId schemaId : string)
    : M SState SchemaInfo :=
  of_res (validateNamespaceID s namespaceId) ;;
  of_res (validateID schemaId "schema_id" (MaxIDLength (o_Limits (s_opts s)))) ;;
  schema ← call (db (store_GetSchema namespaceId schemaId)) (λ _,
    status_error NotFoundCode
      ("schema " +:+ namespaceId +:+ "/" +:+ schemaId +:+ " not found"));
  versions ← call (db (store_ListVersions namespaceId schemaId))
               (internalError id "get_schema_versions");
  mret (schemaToProto schema versions).

(** The cursor of a page token, checked. *)
Definition pageCursor (s : Server) (pageToken : string) : M SState string :=
  match decodePageToken pageToken with
  | Err _ => status_error InvalidArgument "invalid page_token"
  | Ok after =>
     if decide (MaxIDLength (o_Limits (s_opts s)) < strlen after)%Z then
       status_error InvalidArgument "page_token cursor exceeds id length limit"
     else mret after
  end.

(** The page to return of the rows fetched (one more than the page), and the token of the
    next page: the key of the last row returned. *)
Definition cutPage {A} (key : A → string) (pageSize : Z) (rows : list A)
    : M SState (list A * string) :=
  if decide (pageSize < Z.of_nat (length rows))%Z then
    let rows := take (Z.to_nat pageSize) rows in
    match last rows with
    | Some r => mret (rows, encodePageToken (key r))
    | None => fail index_panic
    end
  else mret (rows, "").

Definition Server_ListSchemas (s : Server) (id : Identity) (namespaceId : string)
    (reqPageSize : Z) (pageToken : string) : M SState (list SchemaInfo * string) :=
  of_res (validateNamespaceID s namespaceId) ;;
  let pageSize := resolvePageSize (o_Limits (s_opts s)) reqPageSize in
  after ← pageCursor s pageToken;
  schemas ← call (db (store_ListSchemasPage namespaceId after (pageSize + 1)))
              (internalError id "list_schemas");
  page ← cutPage sc_SchemaID pageSize schemas;
  mret ((λ schema, schemaToProto schema []) <$> page.1, page.2).

(** The version asked for, or the current one. *)
Definition versionOrCurrent (namespaceId schemaId : string) (version : Z) : M SState Z :=
  if decide (version = 0%Z) then
    snap ← reg (Registry_Current namespaceId schemaId);
    match snap with
    | None => status_error NotFoundCode "no current version"
    | Some snap => mret (snap_version snap)
    end
  else mret version.

Definition Server_GetDescriptor (s : Server) (id : Identity) (namespaceId schemaId : string)
    (reqVersion : Z) : M SState (Z * list FileDescriptorProto) :=
  of_res (validateNamespaceID s namespaceId) ;;
  of_res (validateID schemaId "schema_id" (MaxIDLength (o_Limits (s_opts s)))) ;;
  version ← versionOrCurrent namespaceId schemaId reqVersion;
  ver ← call (db (store_GetVersion namespaceId schemaId version)) (λ _,
    status_error NotFoundCode ("version " +:+ pretty version +:+ " not found"));
  match Unmarshal (sv_Compiled ver) with
  | Err e => internalError id "get_descriptor_unmarshal" e
  | Ok fds => mret (version, fds)
  end.

Definition Server_GetSource (s : Server) (id : Identity) (namespaceId schemaId : string)
    (reqVersion : Z) : M SState (Z * gmap string string) :=
  of_res (validateNamespaceID s namespaceId) ;;
  of_res (validateID schemaId "schema_id" (MaxIDLength (o_Limits (s_opts s)))) ;;
  version ← versionOrCurrent namespaceId schemaId reqVersion;
  files ← call (db (store_GetVersionFiles namespaceId schemaId version))
            (internalError id "get_source_files");
  l ← mapM (λ f,
    blob ← call (db (store_GetBlob namespaceId (vf_BlobSHA256 f)))
             (internalError id "get_source_blob");
    mret (vf_Filename f, pb_OriginalSource blob)) files;
  mret (version, fold_left (λ m kv, <[kv.1 := kv.2]> m) l ∅).

Definition Server_ListNamespaces (s : Server) (id : Identity) (reqPageSize : Z)
    (pageToken : string) : M SState (list NamespaceInfo * string) :=
  let pageSize := resolvePageSize (o_Limits (s_opts s)) reqPageSize in
  after ← pageCursor s pageToken;
  namespaces ← call (db (store_ListNamespacesPage after (pageSize + 1)))
                 (internalError id "list_namespaces");
  page ← cutPage sn_ID pageSize namespaces;
  mret (namespaceToProto <$> page.1, page.2).

(** The check of an optional parent identifier. *)
Definition checkParent (s : Server) (parent : option string) : M SState unit :=
  match parent with
  | None => mret tt
  | Some p =>
     if decide (p = BuiltinsNamespace) then
       status_error InvalidArgument
         "parent_namespace_id cannot be __builtins__; it is the implicit root"
     else of_res (validateID p "parent_namespace_id" (MaxIDLength (o_Limits (s_opts s))))
  end.

Definition Server_CreateNamespace (s : Server) (id : Identity) (reqId : string)
    (parent : option string) (metadata : option (gmap string string)) : M SState unit :=
  of_res (requireWriter s id) ;;
  (if decide (reqId = BuiltinsNamespace) then of_res (requireAdmin id "creating __builtins__")
   else of_res (validateID reqId "id" (MaxIDLength (o_Limits (s_opts s))))) ;;
  checkParent s parent ;;
  call (CreateNamespace (s_registry s)
    {| cn_NamespaceID := reqId; cn_ParentID := parent; cn_Metadata := metadata;
       cn_ActorID := Subject id |}) (translateHierarchyError id "create_namespace") ;;
  audit id "create_namespace" [("namespace", reqId)].

Definition Server_SetNamespaceParent (s : Server) (id : Identity) (namespaceId : string)
    (parent : option string) : M SState unit :=
  of_res (requireWriter s id) ;;
  of_res (validateID namespaceId "namespace_id" (MaxIDLength (o_Limits (s_opts s)))) ;;
  checkParent s parent ;;
  call (SetNamespaceParent (s_registry s)
    {| sp_NamespaceID := namespaceId; sp_ParentID := parent; sp_ActorID := Subject id |})
    (translateHierarchyError id "set_namespace_parent") ;;
  audit id "set_namespace_parent" [("namespace", namespaceId)].

Definition Server_GetNamespaceChain (s : Server) (namespaceId : string)
    : M SState (list string) :=
  of_res (validateID namespaceId "namespace_id" (MaxIDLength (o_Limits (s_opts s)))) ;;
  call (GetNamespaceChain namespaceId) (λ e, status_error NotFoundCode (error_Error e)).

Definition Server_GetRebaseStatus (s : Server) (id : Identity) (namespaceId schemaId : string)
    : M SState RebaseStatus :=
  of_res (validateID namespaceId "namespace_id" (MaxIDLength (o_Limits (s_opts s)))) ;;
  of_res (validateID schemaId "schema_id" (MaxIDLength (o_Limits (s_opts s)))) ;;
  call (GetRebaseStatus namespaceId schemaId) (internalError id "get_rebase_status").

Definition Server_Rebase (s : Server) (id : Identity) (namespaceId schemaId : string)
    : M SState PublishResponse :=
  of_res (requireWriter s id) ;;
  of_res (validateID namespaceId "namespace_id" (MaxIDLength (o_Limits (s_opts s)))) ;;
  of_res (validateID schemaId "schema_id" (MaxIDLength (o_Limits (s_opts s)))) ;;
  result ← call (Rebase (s_registry s)
    {| rb_NamespaceID := namespaceId; rb_SchemaID := schemaId; rb_ActorID := Subject id |})
    (translateHierarchyError id "rebase");
  audit id "rebase" [("schema", namespaceId +:+ "/" +:+ schemaId)] ;;
  mret {| pres_Version := pub_Version result; pres_Fingerprint := pub_Fingerprint result;
          pres_NoChange := pub_NoChange result |}.
End Server.
