(* ===== verification/ServerThms.v ===== *)
(** * What the server lets through

    Write calls are audited exactly when they succeed, take effect only for callers with
    the rights the guards ask for, and every error of a handler is a gRPC status. *)

From S2P Require Import Prelude GoStrings Descriptor Protobuf Snapshot Compat Conflict.
From S2P Require Import Compiler Namespace Store Registry Base64 Validate Auth Server.
From stdpp Require Import prelude gmap strings list.

Open Scope string_scope.

(** The write calls of the service. *)
Inductive WriteRPC :=
  | RPC_Publish (req : PublishRPC)
  | RPC_Promote (namespaceId : string)
  | RPC_DiscardStaging (namespaceId : string)
  | RPC_Rollback (namespaceId schemaId : string) (version : Z) (force : bool)
  | RPC_CreateNamespace (reqId : string) (parent : option string)
      (metadata : option (gmap string string))
  | RPC_SetNamespaceParent (namespaceId : string) (parent : option string)
  | RPC_Rebase (namespaceId schemaId : string).

Definition op_of (rpc : WriteRPC) : string :=
  match rpc with
  | RPC_Publish _ => "publish"
  | RPC_Promote _ => "promote"
  | RPC_DiscardStaging _ => "discard_staging"
  | RPC_Rollback _ _ _ _ => "rollback"
  | RPC_CreateNamespace _ _ _ => "create_namespace"
  | RPC_SetNamespaceParent _ _ => "set_namespace_parent"
  | RPC_Rebase _ _ => "rebase"
  end.

Definition target_of (rpc : WriteRPC) : string :=
  match rpc with
  | RPC_Publish req => preq_NamespaceId req
  | RPC_Promote ns | RPC_DiscardStaging ns | RPC_Rollback ns _ _ _
  | RPC_CreateNamespace ns _ _ | RPC_SetNamespaceParent ns _ | RPC_Rebase ns _ => ns
  end.

(** The calls reserved to administrators. *)
Definition privileged (rpc : WriteRPC) : Prop :=
  match rpc with
  | RPC_Publish req => preq_NamespaceId req = BuiltinsNamespace ∨ preq_Force req = true
  | RPC_Rollback _ _ _ force => force = true
  | RPC_CreateNamespace ns _ _ => ns = BuiltinsNamespace
  | _ => False
  end.

Definition audits (l : list LogLine) : list (string * string) :=
  omap (λ x, match x with AuditLine op subject _ => Some (op, subject) | _ => None end) l.

Section ServerThms.
Context `{Toolchain, ProtoTypes, ProtoNames, GoRange, CompilerVersion, DriverText} {S : Type}
  `{Store S}.
#[local] Notation SS := (SState (S := S)).

(** The response is left out. *)
Definition ignore {A} (m : M SS A) : M SS unit := m ;; mret tt.

Definition write_rpc (s : Server) (id : Identity) (rpc : WriteRPC) : M SS unit :=
  match rpc with
  | RPC_Publish req => ignore (Server_Publish s id req)
  | RPC_Promote ns => ignore (Server_Promote s id ns)
  | RPC_DiscardStaging ns => Server_DiscardStaging s id ns
  | RPC_Rollback ns sc v force => Server_Rollback s id ns sc v force
  | RPC_CreateNamespace ns p md => Server_CreateNamespace s id ns p md
  | RPC_SetNamespaceParent ns p => Server_SetNamespaceParent s id ns p
  | RPC_Rebase ns sc => ignore (Server_Rebase s id ns sc)
  end.

(** ** Guards *)

(** A handler is a sequence of checks that read nothing, then the work. *)
Lemma guard_step {A B} (r : res A) (f : A → M SS B) (st : SS) :
  (of_res r ≫= f) st = match r with Ok a => f a st | Err e => (Err e, st) end.
Proof. unfold mbind, M_bind, of_res. by destruct r. Qed.

Lemma ignore_run {A} (m : M SS A) st :
  ignore m st = match m st with (Ok _, st') => (Ok tt, st') | (Err e, st') => (Err e, st') end.
Proof. unfold ignore, mbind, M_bind, mret, M_ret. by destruct (m st) as [[]]. Qed.

(** ** Auditing *)

(** Nothing is audited. *)
Definition silent (h0 : list (string * string)) (st : SS) : Prop := audits (ss_log st) = h0.

Lemma audits_snoc l x :
  audits (l ++ [x])%list = (audits l ++ audits [x])%list.
Proof. unfold audits. by rewrite omap_app. Qed.

Lemma silent_reg {A} h0 (m : M (RState (S := S)) A) : preserves (silent h0) (reg m).
Proof. intros st Hst. unfold reg. by destruct (m (ss_reg st)). Qed.

Lemma silent_log h0 x : audits [x] = [] → preserves (silent h0) (log x).
Proof.
  intros Hx. apply preserves_modify. intros st Hst. unfold silent. cbn.
  by rewrite audits_snoc, Hx, app_nil_r.
Qed.

Lemma silent_internalError {A} h0 id op e :
  preserves (silent h0) (internalError (A := A) id op e).
Proof.
  unfold internalError. destruct (is_status e); [apply preserves_fail|].
  apply preserves_bind; [by apply silent_log|]. intros ?. apply preserves_fail.
Qed.

Lemma silent_translate {A} h0 id op e :
  preserves (silent h0) (translateHierarchyError (A := A) id op e).
Proof.
  unfold translateHierarchyError.
  repeat case_match; first [apply preserves_fail|apply silent_internalError].
Qed.

Lemma silent_call {A} h0 (m : M (RState (S := S)) A) f :
  (∀ e, preserves (silent h0) (f e)) → preserves (silent h0) (call m f).
Proof.
  intros Hf. unfold call. apply preserves_bind; [apply preserves_attempt, silent_reg|].
  intros [a|e]; [apply preserves_ret|apply Hf].
Qed.

Lemma silent_checkParent h0 s p : preserves (silent h0) (checkParent s p).
Proof.
  unfold checkParent. destruct p; [|apply preserves_ret].
  case_decide; [apply preserves_fail|apply preserves_of_res].
Qed.

(** The audit line of a call that succeeded. *)
Definition audited (h0 : list (string * string)) (op : string) (id : Identity) (st : SS) : Prop :=
  audits (ss_log st) = (h0 ++ [(op, Subject id)])%list.

Lemma audit_hoare h0 id op fields :
  hoare (silent h0) (audit id op fields) (λ _, audited h0 op id) (silent h0).
Proof.
  apply hoare_modify. intros st Hst. unfold audited. cbn. by rewrite audits_snoc, Hst.
Qed.

Lemma audited_ret {A} h0 op id (a : A) :
  hoare (audited h0 op id) (mret a) (λ _, audited h0 op id) (silent h0).
Proof. by intros st Hst. Qed.

(** The handlers, step by step: every step before the audit line is silent. *)
Ltac handler_step := first
  [ apply hoare_keep;
    [ first [ apply preserves_of_res | apply silent_checkParent
            | apply silent_call; intros ?; first
                [ apply silent_internalError | apply silent_translate
                | case_match; [apply preserves_fail|apply silent_internalError] ]
            | repeat case_match; repeat (apply preserves_bind; [|intros ?]); first
                [ apply preserves_of_res | apply preserves_ret | apply preserves_fail
                | by apply silent_log ] ]
    | intros ? ]
  | eapply hoare_bind; [apply audit_hoare|intros ?; apply audited_ret]
  | apply audit_hoare ].

Lemma ignore_hoare {A} (m : M SS A) P Q E :
  hoare P m (λ _, Q) E → hoare P (ignore m) (λ _, Q) E.
Proof. intros Hm st Hst. specialize (Hm st Hst). rewrite ignore_run. by destruct (m st) as [[]]. Qed.

Lemma write_rpc_audits s id rpc h0 :
  hoare (silent h0) (write_rpc s id rpc) (λ _, audited h0 (op_of rpc) id) (silent h0).
Proof.
  destruct rpc; cbn [write_rpc op_of]; try apply ignore_hoare;
    unfold Server_Publish, Server_Promote, Server_DiscardStaging, Server_Rollback,
      Server_CreateNamespace, Server_SetNamespaceParent, Server_Rebase;
    repeat handler_step.
Qed.

(** The audit trail records exactly the writes that succeeded: a write call that
    succeeds appends one audit line with its operation and the subject of the caller, and
    one that fails, at a guard, in the registry or in the store, appends none. *)
Theorem write_rpcs_are_audited s id rpc st x st' :
  write_rpc s id rpc st = (x, st') →
  audits (ss_log st') =
    (audits (ss_log st) ++ if is_ok x then [(op_of rpc, Subject id)] else [])%list.
Proof.
  intros Hw. pose proof (write_rpc_audits s id rpc _ st eq_refl) as Hh. rewrite Hw in Hh.
  destruct x as [[]|e]; [done|]. cbn. by rewrite app_nil_r.
Qed.

(** ** Rights *)

Definition writer (s : Server) (id : Identity) : Prop :=
  o_AllowAnonymousWrites (s_opts s) = true ∨ (Subject id ≠ "" ∧ id ≠ AnonymousIdentity).

Definition valid_id (s : Server) (ns : string) : Prop :=
  idPattern_MatchString ns = true ∧ (strlen ns <= MaxIDLength (o_Limits (s_opts s)))%Z.

Definition rights (s : Server) (id : Identity) (rpc : WriteRPC) : Prop :=
  writer s id ∧ (privileged rpc → Admin id = true) ∧
  (target_of rpc = BuiltinsNamespace ∨ valid_id s (target_of rpc)).

Lemma requireWriter_Ok s id : requireWriter s id = Ok tt → writer s id.
Proof.
  unfold requireWriter, writer. case_decide as E; [|right; tauto].
  destruct (o_AllowAnonymousWrites _); [by left|done].
Qed.

Lemma requireAdmin_Ok id op : requireAdmin id op = Ok tt → Admin id = true.
Proof. unfold requireAdmin. by destruct (Admin id). Qed.

Lemma validateID_Ok s v field :
  validateID v field (MaxIDLength (o_Limits (s_opts s))) = Ok tt → valid_id s v.
Proof.
  unfold validateID, invalid, valid_id. case_decide; [done|]. case_decide; [done|].
  destruct (idPattern_MatchString v); [|done]. intros _. split; [done|lia].
Qed.

Lemma validateNamespaceID_Ok s ns :
  validateNamespaceID s ns = Ok tt → ns = BuiltinsNamespace ∨ valid_id s ns.
Proof. unfold validateNamespaceID. case_decide; [by left|]. intros ?%validateID_Ok. by right. Qed.

(** Unchanged registry, unless the call had the rights. *)
Definition untouched (R : Prop) (r0 : RState (S := S)) (st : SS) : Prop := ss_reg st = r0 ∨ R.

Lemma untouched_guard {B} R r0 (r : res unit) (f : unit → M SS B) :
  (r = Ok tt → preserves (untouched R r0) (f tt)) →
  preserves (untouched R r0) (of_res r ≫= f).
Proof.
  intros Hf st Hst. rewrite guard_step. destruct r as [[]|e]; [|done]. by apply Hf.
Qed.

Lemma untouched_seq {B} R r0 (m : M SS unit) (f : unit → M SS B) (φ : Prop) :
  preserves (untouched R r0) m → (∀ st st', m st = (Ok tt, st') → φ) →
  (φ → preserves (untouched R r0) (f tt)) → preserves (untouched R r0) (m ≫= f).
Proof.
  intros Hm Hφ Hf st Hst. specialize (Hm st Hst). unfold mbind, M_bind.
  destruct (m st) as [[[]|e] st1] eqn:E; [|done]. apply Hf; [by eapply Hφ|done].
Qed.

Lemma untouched_any {A} R r0 (m : M SS A) : R → preserves (untouched R r0) m.
Proof. intros HR st _. by right. Qed.

Lemma untouched_log R r0 x : preserves (untouched R r0) (log x).
Proof. apply preserves_modify. by intros st [<-|?]; [left|right]. Qed.

Lemma write_rpc_rights s id rpc r0 :
  preserves (untouched (rights s id rpc) r0) (write_rpc s id rpc).
Proof.
  set (R := rights s id rpc).
  assert (Hig : ∀ A (m : M SS A), preserves (untouched R r0) m → preserves (untouched R r0) (ignore m)).
  { intros A m Hm. apply preserves_bind; [done|]. intros ?. apply preserves_ret. }
  assert (HR : rights s id rpc → R) by done.
  destruct rpc; cbn [write_rpc]; try apply Hig;
    (apply untouched_guard; intros Hw%requireWriter_Ok).
  - apply untouched_guard; intros Hns%validateNamespaceID_Ok.
    do 2 (apply untouched_guard; intros _).
    eapply (untouched_seq _ _ _ _ (preq_NamespaceId req = BuiltinsNamespace → Admin id = true)).
    { case_decide; [apply preserves_of_res|apply preserves_ret]. }
    { intros st st'. case_decide; [|done]. intros [= E%requireAdmin_Ok _]. done. }
    intros Hb. eapply (untouched_seq _ _ _ _ (preq_Force req = true → Admin id = true)).
    { destruct (preq_Force req); [|apply preserves_ret].
      apply preserves_bind; [apply preserves_of_res|intros ?; apply untouched_log]. }
    { intros st st'. destruct (preq_Force req); [|done]. rewrite guard_step.
      destruct (requireAdmin id _) as [[]|] eqn:E; [|done]. intros _ _. by eapply requireAdmin_Ok. }
    intros Hf. apply untouched_any, HR. split_and!; [done| |done]. cbn. tauto.
  - apply untouched_guard; intros Hns%validateNamespaceID_Ok.
    apply untouched_any, HR. by split_and!.
  - apply untouched_guard; intros Hns%validateNamespaceID_Ok.
    apply untouched_any, HR. by split_and!.
  - apply untouched_guard; intros Hns%validateNamespaceID_Ok.
    apply untouched_guard; intros _.
    apply preserves_bind; [case_decide; [apply preserves_fail|apply preserves_ret]|intros _].
    eapply (untouched_seq _ _ _ _ (force = true → Admin id = true)).
    { destruct force; [|apply preserves_ret].
      apply preserves_bind; [apply preserves_of_res|intros ?; apply untouched_log]. }
    { intros st st'. destruct force; [|done]. rewrite guard_step.
      destruct (requireAdmin id _) as [[]|] eqn:E; [|done]. intros _ _. by eapply requireAdmin_Ok. }
    intros Hf. apply untouched_any, HR. by split_and!.
  - eapply (untouched_seq _ _ _ _ ((reqId = BuiltinsNamespace → Admin id = true) ∧
      (reqId = BuiltinsNamespace ∨ valid_id s reqId))).
    { case_decide; apply preserves_of_res. }
    { intros st st'. case_decide; intros [= E _]; [apply requireAdmin_Ok in E|apply validateID_Ok in E];
        tauto. }
    intros [Ha Hv]. apply untouched_any, HR. by split_and!.
  - apply untouched_guard; intros Hns%validateID_Ok.
    apply untouched_any, HR. split_and!; [done|done|by right].
  - apply untouched_guard; intros Hns%validateID_Ok.
    apply untouched_any, HR. split_and!; [done|done|by right].
Qed.

(** C15. A write call takes effect only with the rights for it: whenever it changes the
    database or the memory, anonymous writes are allowed or the caller is authenticated,
    the caller is an administrator if the call publishes to or creates the built-in
    namespace or forces its way past a check, and the target namespace is the built-in one
    or has a valid identifier. *)
Theorem write_effects_need_rights s id rpc st x st' :
  write_rpc s id rpc st = (x, st') → ss_reg st' ≠ ss_reg st → rights s id rpc.
Proof.
  intros Hw Hne. pose proof (write_rpc_rights s id rpc (ss_reg st) st) as Hp.
  rewrite Hw in Hp. destruct Hp as [?|HR]; [by left|done|done].
Qed.

(** ** Writes to the built-in namespace without the administrator role *)

Lemma call_run {A} (m : M (RState (S := S)) A) f st :
  call m f st =
    let st' := {| ss_reg := (m (ss_reg st)).2; ss_log := ss_log st |} in
    match (m (ss_reg st)).1 with Ok a => (Ok a, st') | Err e => f e st' end.
Proof.
  unfold call, attempt, reg, mbind, M_bind. destruct (m (ss_reg st)) as [[a|e] r']; done.
Qed.

Definition keeps_reg {A} (m : M SS A) : Prop := ∀ st, ss_reg (m st).2 = ss_reg st.

Lemma keeps_reg_bind {A B} (m : M SS A) (f : A → M SS B) :
  keeps_reg m → (∀ a, keeps_reg (f a)) → keeps_reg (m ≫= f).
Proof.
  intros Hm Hf st. specialize (Hm st). unfold mbind, M_bind.
  destruct (m st) as [[a|e] st1]; [|done]. by rewrite Hf.
Qed.

Lemma keeps_reg_internalError {A} id op e : keeps_reg (internalError (A := A) id op e).
Proof. unfold internalError. by destruct (is_status e). Qed.

Lemma call_effect {A B} (m : M (RState (S := S)) A) f (k : A → M SS B) st :
  (∀ e, keeps_reg (f e)) → (∀ a, keeps_reg (k a)) →
  ss_reg ((call m f ≫= k) st).2 = (m (ss_reg st)).2.
Proof.
  intros Hf Hk. unfold mbind, M_bind. rewrite call_run. cbv zeta.
  destruct (m (ss_reg st)) as [[a|e] r']; cbn [fst snd]; [by rewrite Hk|].
  specialize (Hf e {| ss_reg := r'; ss_log := ss_log st |}).
  destruct (f e _) as [[]]; [by rewrite Hk|done].
Qed.

(** Promoting and discarding in the built-in namespace is open to every writer: the
    handlers run the registry operation on it for a caller without the administrator
    role, although writes to that namespace are documented as reserved to administrators. *)
Theorem builtins_promotion_not_reserved s id st :
  requireWriter s id = Ok tt →
  ss_reg (Server_Promote s id BuiltinsNamespace st).2 =
    (Promote (s_registry s) BuiltinsNamespace (ss_reg st)).2 ∧
  ss_reg (Server_DiscardStaging s id BuiltinsNamespace st).2 =
    (DiscardStaging BuiltinsNamespace (ss_reg st)).2.
Proof.
  intros Hw. unfold Server_Promote, Server_DiscardStaging. rewrite Hw, !guard_step. split.
  - apply call_effect; [|done]. intros e. destruct (isCompatError e); [done|].
    apply keeps_reg_internalError.
  - apply call_effect; [|done]. intros e. apply keeps_reg_internalError.
Qed.

(** ** Errors *)

(** The registry operation of a write call, its result left out. *)
Definition drop {A} (m : M (RState (S := S)) A) : M (RState (S := S)) unit := m ;; mret tt.
Definition registry_op (s : Server) (id : Identity) (rpc : WriteRPC)
    : M (RState (S := S)) unit :=
  match rpc with
  | RPC_Publish req => drop (Publish (s_registry s)
      {| pr_NamespaceID := preq_NamespaceId req; pr_SchemaID := preq_SchemaId req;
         pr_Sources := preq_Sources req; pr_CreatedBy := preq_CreatedBy req;
         pr_Metadata := preq_Metadata req; pr_Force := preq_Force req |})
  | RPC_Promote ns => drop (Promote (s_registry s) ns)
  | RPC_DiscardStaging ns => DiscardStaging ns
  | RPC_Rollback ns sc v force => Rollback ns sc v force
  | RPC_CreateNamespace ns p md => CreateNamespace (s_registry s)
      {| cn_NamespaceID := ns; cn_ParentID := p; cn_Metadata := md; cn_ActorID := Subject id |}
  | RPC_SetNamespaceParent ns p => SetNamespaceParent (s_registry s)
      {| sp_NamespaceID := ns; sp_ParentID := p; sp_ActorID := Subject id |}
  | RPC_Rebase ns sc => drop (Rebase (s_registry s)
      {| rb_NamespaceID := ns; rb_SchemaID := sc; rb_ActorID := Subject id |})
  end.

(** A status that says nothing of an internal failure but the operation. *)
Definition sanitized (op : string) (e : error) : Prop :=
  ∃ c msg, e = ErrStatus c msg ∧ (c = Internal → msg = op +:+ " failed").

(** From a state with [P], an error satisfies [Q], and a normal return leads to [P']. *)
Definition errs {A} (Q : error → Prop) (P : SS → Prop) (m : M SS A) (P' : SS → Prop) : Prop :=
  ∀ st, P st → match m st with (Ok _, st') => P' st' | (Err e, _) => Q e end.

Lemma errs_bind {A B} Q P P1 P2 (m : M SS A) (f : A → M SS B) :
  errs Q P m P1 → (∀ a, errs Q P1 (f a) P2) → errs Q P (m ≫= f) P2.
Proof.
  intros Hm Hf st Hst. specialize (Hm st Hst). unfold mbind, M_bind.
  destruct (m st) as [[a|e] st1]; [by apply Hf|done].
Qed.

Lemma errs_of_res {A} Q P (r : res A) : (∀ e, r = Err e → Q e) → errs Q P (of_res r) P.
Proof. intros Hr st Hst. unfold of_res. destruct r; auto. Qed.

Lemma errs_ret {A} Q P (a : A) : errs Q P (mret a) P.
Proof. by intros st Hst. Qed.

Lemma errs_fail {A} (Q : error → Prop) P P' e : Q e → errs Q P (fail e : M SS A) P'.
Proof. by intros HQ st Hst. Qed.

Lemma errs_ignore {A} Q P (m : M SS A) P' : errs Q P m P' → errs Q P (ignore m) P'.
Proof. intros Hm. eapply errs_bind; [exact Hm|]. intros a. apply errs_ret. Qed.

(** The guards answer with statuses that are not internal. *)
Definition refusal (e : error) : Prop := ∃ c msg, e = ErrStatus c msg ∧ c ≠ Internal.

Lemma refusal_sanitized op e : refusal e → sanitized op e.
Proof. intros (c & msg & -> & Hc). exists c, msg. by split. Qed.

Lemma validateID_refuses v f n e : validateID v f n = Err e → refusal e.
Proof.
  unfold validateID, invalid, refusal. repeat case_match; intros [= <-]; eauto.
Qed.
Lemma validateNamespaceID_refuses s ns e : validateNamespaceID s ns = Err e → refusal e.
Proof. unfold validateNamespaceID. case_decide; [done|]. apply validateID_refuses. Qed.
Lemma validateFilename_refuses f n e : validateFilename f n = Err e → refusal e.
Proof. unfold validateFilename, invalid, refusal. repeat case_match; intros [= <-]; eauto. Qed.
Lemma validateEach_refuses l srcs t e : validateEach l srcs t = Err e → refusal e.
Proof.
  revert t. induction srcs as [|[f src] srcs IH]; intros t; cbn; [done|].
  destruct (validateFilename f _) eqn:E; [|intros [= <-]; by eapply validateFilename_refuses].
  case_decide; [intros [= <-]; unfold refusal; eauto|apply IH].
Qed.
Lemma validateSources_refuses srcs l e : validateSources srcs l = Err e → refusal e.
Proof.
  unfold validateSources, invalid. case_decide; [intros [= <-]; unfold refusal; eauto|].
  case_decide; [intros [= <-]; unfold refusal; eauto|].
  destruct (validateEach _ _ _) eqn:E; [|intros [= <-]; by eapply validateEach_refuses].
  case_decide; intros [= <-]; unfold refusal; eauto.
Qed.
Lemma requireWriter_refuses s id e : requireWriter s id = Err e → refusal e.
Proof. unfold requireWriter, refusal. repeat case_match; intros [= <-]; eauto. Qed.
Lemma requireAdmin_refuses id op e : requireAdmin id op = Err e → refusal e.
Proof. unfold requireAdmin, refusal. case_match; intros [= <-]; eauto. Qed.

#[local] Hint Resolve validateID_refuses validateNamespaceID_refuses validateSources_refuses
  requireWriter_refuses requireAdmin_refuses : refuses.

Lemma errs_guard {A} (Q : error → Prop) P (r : res A) :
  (∀ e, refusal e → Q e) → (∀ e, r = Err e → refusal e) → errs Q P (of_res r) P.
Proof. intros HQ Hr. apply errs_of_res. eauto. Qed.

(** What an operation of the registry may answer through a handler. *)
Definition answer {A} (op : string) (m : M (RState (S := S)) A) r0 (e : error) : Prop :=
  sanitized op e ∨ (is_status e = true ∧ (m r0).1 = Err e).

Lemma answer_refusal {A} op (m : M (RState (S := S)) A) r0 e : refusal e → answer op m r0 e.
Proof. intros He. left. by apply refusal_sanitized. Qed.

Lemma internalError_answers {A B} id op (m : M (RState (S := S)) B) r0 e0 P P' :
  (m r0).1 = Err e0 → errs (answer op m r0) P (internalError (A := A) id op e0) P'.
Proof.
  intros He st _. unfold internalError. destruct (is_status e0) eqn:Es; cbn; [by right|].
  left. exists Internal, (op +:+ " failed"). done.
Qed.

Lemma translate_answers {A B} id op (m : M (RState (S := S)) B) r0 e0 P P' :
  (m r0).1 = Err e0 → errs (answer op m r0) P (translateHierarchyError (A := A) id op e0) P'.
Proof.
  intros He. unfold translateHierarchyError, status_error. repeat case_match;
    [apply errs_fail, answer_refusal; unfold refusal; eauto..|by apply internalError_answers].
Qed.

(** An error the handler shows as a failed precondition, or passes on. *)
Lemma precondition_answers {A B} (b : bool) id op (m : M (RState (S := S)) B) r0 e0 P P' :
  (m r0).1 = Err e0 →
  errs (answer op m r0) P
    (if b then status_error FailedPrecondition (error_Error e0)
     else internalError (A := A) id op e0) P'.
Proof.
  intros He. destruct b; [|by apply internalError_answers].
  apply errs_fail, answer_refusal. unfold refusal. eauto.
Qed.

Definition at_reg (r0 : RState (S := S)) (st : SS) : Prop := ss_reg st = r0.

Lemma errs_call {A} Q r0 (m : M (RState (S := S)) A) f :
  (∀ e0, (m r0).1 = Err e0 → errs Q (λ _, True) (f e0) (λ _, True)) →
  errs Q (at_reg r0) (call m f) (λ _, True).
Proof.
  intros Hf st <-. rewrite call_run. cbv zeta.
  destruct (m (ss_reg st)) as [[a|e] r'] eqn:E; cbn [fst snd]; [done|].
  apply Hf; [|done]. by rewrite ?E.
Qed.

Lemma errs_log Q r0 x : errs Q (at_reg r0) (log x) (at_reg r0).
Proof. by intros st Hst. Qed.

Lemma drop_answer {A} op (m : M (RState (S := S)) A) r0 e :
  answer op m r0 e → answer op (drop m) r0 e.
Proof.
  intros [?|[? He]]; [by left|]. right. split; [done|]. unfold drop, mbind, M_bind.
  destruct (m r0) as [[]]; cbn in *; congruence.
Qed.

Lemma errs_weaken {A} (Q Q' : error → Prop) P (m : M SS A) P' :
  (∀ e, Q e → Q' e) → errs Q P m P' → errs Q' P m P'.
Proof. intros HQ Hm st Hst. specialize (Hm st Hst). destruct (m st) as [[]]; auto. Qed.

Lemma checkParent_errs (Q : error → Prop) P s p :
  (∀ e, refusal e → Q e) → errs Q P (checkParent s p) P.
Proof.
  intros HQ. unfold checkParent, status_error. destruct p as [p|]; [|apply errs_ret].
  case_decide; [|apply errs_guard; eauto with refuses].
  apply errs_fail, HQ. unfold refusal. eauto.
Qed.

(** The end of a write handler: the registry operation, the audit line, the response. *)
Lemma errs_call_audit {A B} op r0 (m : M (RState (S := S)) A) f (k : A → M SS B) :
  (∀ e0, (m r0).1 = Err e0 → errs (answer op m r0) (λ _, True) (f e0) (λ _, True)) →
  (∀ a, errs (answer op m r0) (λ _, True) (k a) (λ _, True)) →
  errs (answer op m r0) (at_reg r0) (call m f ≫= k) (λ _, True).
Proof. intros Hf Hk. eapply errs_bind; [by apply errs_call|exact Hk]. Qed.

Ltac errs_step := first
  [ apply errs_call_audit;
    [ intros ? ?; first [ by apply internalError_answers | by apply translate_answers
                        | by apply precondition_answers ]
    | by intros ? ? ? ]
  | eapply errs_bind;
    [ first [ apply errs_guard; [apply answer_refusal|eauto with refuses]
            | apply checkParent_errs, answer_refusal ]
    | intros ? ]
  | eapply errs_bind with (P1 := at_reg _);
    [ repeat case_match; first
      [ apply errs_ret
      | apply errs_fail, answer_refusal; unfold refusal; eauto
      | apply errs_guard; [apply answer_refusal|eauto with refuses]
      | eapply errs_bind; [apply errs_guard; [apply answer_refusal|eauto with refuses]
                          |intros ?; apply errs_log] ]
    | intros ? ] ].

Lemma write_rpc_errs s id rpc r0 :
  errs (answer (op_of rpc) (registry_op s id rpc) r0) (at_reg r0) (write_rpc s id rpc)
    (λ _, True).
Proof.
  destruct rpc; cbn [write_rpc registry_op op_of];
    try (apply errs_ignore; eapply errs_weaken; [apply drop_answer|]);
    unfold Server_Publish, Server_Promote, Server_DiscardStaging, Server_Rollback,
      Server_CreateNamespace, Server_SetNamespaceParent, Server_Rebase;
    repeat errs_step.
Qed.

(** C29. Errors of write calls are sanitized: the error a caller sees is a gRPC status, and
    an internal one carries only the name of the operation, not the backend's text; the
    one exception is a status the registry itself returned (an authorizer's), which is
    passed on unchanged. *)
Theorem write_errors_are_sanitized s id rpc st e st' :
  write_rpc s id rpc st = (Err e, st') →
  sanitized (op_of rpc) e ∨
  (is_status e = true ∧ (registry_op s id rpc (ss_reg st)).1 = Err e).
Proof.
  intros Hw. pose proof (write_rpc_errs s id rpc (ss_reg st) st eq_refl) as He.
  by rewrite Hw in He.
Qed.
End ServerThms.
