(* ===== verification/Paging.v ===== *)
(** * Listing in pages

    A client that follows the page tokens of a listing sees every row once, in order.
    [PagedStore] is what the handlers rely on: a page is a prefix of the rows after the
    cursor, in a strict order in which the empty cursor comes first. *)

From S2P Require Import Prelude GoStrings Descriptor Protobuf Snapshot Compat Conflict.
From S2P Require Import Compiler Namespace Store Registry Base64 Validate Auth Server.
From S2P Require Import Postgres.
From stdpp Require Import prelude gmap strings list sorting.

Open Scope string_scope.

Section PagedStore.
Context {S : Type} `{Store S}.

(** The rows [L] of a listing and the pages of it. *)
Definition pages {A} (gt : string → string → Prop) `{RelDecision _ _ gt} (key : A → string)
    (all : M S (list A)) (page : string → Z → M S (list A)) : Prop :=
  ∀ s, ∃ L, all s = (Ok L, s) ∧ StronglySorted (λ a b, gt (key b) (key a)) L ∧
    ∀ after limit, (0 <= limit <= maxInt32)%Z →
      page after limit s = (Ok (take (Z.to_nat limit) (filter (λ a, gt (key a) after) L)), s).

Class PagedStore := {
  after_key : string → string → Prop;
  after_key_dec :: RelDecision after_key;
  after_key_irrefl x : ¬ after_key x x;
  after_key_trans x y z : after_key x y → after_key y z → after_key x z;
  after_key_first x : x ≠ "" → after_key x "";
  namespace_pages : pages after_key sn_ID store_ListNamespaces store_ListNamespacesPage;
  schema_pages ns : pages after_key sc_SchemaID (store_ListSchemas ns) (store_ListSchemasPage ns) }.
End PagedStore.
Arguments PagedStore S {_}.

(** ** Following the tokens *)

Lemma decode_encode k : k ≠ "" → decodePageToken (encodePageToken k) = Ok k.
Proof.
  intros Hk. unfold decodePageToken, encodePageToken. case_decide as E.
  - pose proof (DecodeString_EncodeToString k) as Hd. rewrite E in Hd. by injection Hd as <-.
  - apply DecodeString_EncodeToString.
Qed.

Lemma encode_nonempty k : k ≠ "" → encodePageToken k ≠ "".
Proof.
  intros Hk E. pose proof (decode_encode k Hk) as Hd. rewrite E in Hd. injection Hd. congruence.
Qed.

Section walk.
Context {SS A B : Type}.

(** Fetch pages until there is no next token. *)
Fixpoint walk (fuel : nat) (fetch : string → M SS (list B * string)) (token : string)
    : M SS (list B) :=
  match fuel with
  | O => fail (ErrNew "out of fuel")
  | S fuel =>
     page ← fetch token;
     if decide (page.2 = "") then mret page.1
     else rest ← walk fuel fetch page.2; mret (page.1 ++ rest)%list
  end.

Context (gt : string → string → Prop) `{RelDecision _ _ gt}.
Context (gt_irrefl : ∀ x, ¬ gt x x) (gt_trans : ∀ x y z, gt x y → gt y z → gt x z).
Context (gt_first : ∀ x, x ≠ "" → gt x "").
Context (key : A → string) (L : list A).
Context (L_sorted : StronglySorted (λ a b, gt (key b) (key a)) L).
Context (L_keys : ∀ a, a ∈ L → key a ≠ "").

(** The rows after the cursor, at a cut of the listing. *)
Definition cut_at (pre : list A) (after : string) : Prop :=
  match last pre with Some a => after = key a | None => after = "" end.

Lemma sorted_cut pre post a b :
  L = (pre ++ post)%list → a ∈ pre → b ∈ post → gt (key b) (key a).
Proof.
  intros ->. revert L_sorted. clear. induction pre as [|x pre IH]; [by intros _ ?%elem_of_nil|].
  cbn. intros [Hs Hx]%StronglySorted_inv [->|Ha]%elem_of_cons Hb; [|by apply IH].
  rewrite Forall_forall in Hx. apply Hx, elem_of_app. by right.
Qed.

Lemma last_cut pre a b : L = (pre ++ [b])%list ∨ (∃ post, L = (pre ++ b :: post)%list) →
  a ∈ (pre ++ [b])%list → a = b ∨ gt (key b) (key a).
Proof.
  intros HL [Ha| ->%list_elem_of_singleton]%elem_of_app; [right|by left].
  destruct HL as [HL|[post HL]]; (eapply sorted_cut; [exact HL|done|left]).
Qed.

Lemma filter_cut pre post after :
  L = (pre ++ post)%list → cut_at pre after → filter (λ a, gt (key a) after) L = post.
Proof.
  intros HL Hc. assert (Hpost : ∀ b, b ∈ post → gt (key b) after).
  { intros b Hb. unfold cut_at in Hc. destruct (last pre) as [a|] eqn:El.
    - subst after. eapply sorted_cut; [exact HL| |done]. by apply last_Some_elem_of.
    - subst after. apply gt_first, L_keys. rewrite HL. apply elem_of_app. by right. }
  assert (Hpre : ∀ a, a ∈ pre → ¬ gt (key a) after).
  { intros a Ha Hgt. unfold cut_at in Hc. destruct (last pre) as [b|] eqn:El.
    - subst after. apply last_Some in El as [pre' ->].
      assert (a = b ∨ gt (key b) (key a)) as [->|Hb].
      { apply (last_cut pre'); [|done]. right. exists post. by rewrite HL, <-app_assoc. }
      + by apply gt_irrefl in Hgt.
      + by eapply gt_irrefl, gt_trans.
    - apply last_None in El. subst pre. by apply elem_of_nil in Ha. }
  rewrite HL, filter_app. rewrite (filter_none _ pre), (filter_all _ post); done.
Qed.

Context (f : A → B) (n : nat) (n_pos : 0 < n) (fetch : string → M SS (list B * string)) (st : SS).
Context (fetch_page : ∀ token after, decodePageToken token = Ok after →
  after = "" ∨ after ∈ (key <$> L) →
  fetch token st =
    let rows := take (S n) (filter (λ a, gt (key a) after) L) in
    (match last (take n rows) with
     | Some r => if decide (n < length rows) then Ok (f <$> take n rows, encodePageToken (key r))
                 else Ok (f <$> rows, "")
     | None => Ok (f <$> rows, "")
     end, st)).

Lemma walk_suffix fuel pre post token after :
  L = (pre ++ post)%list → cut_at pre after → decodePageToken token = Ok after →
  length post < fuel → walk fuel fetch token st = (Ok (f <$> post), st).
Proof.
  revert pre post token after.
  induction fuel as [|fuel IH]; intros pre post token after HL Hc Ht Hf; [lia|].
  cbn [walk]. unfold mbind, M_bind. rewrite (fetch_page token after Ht).
  2: { unfold cut_at in Hc. destruct (last pre) as [a|] eqn:El; [right|by left]. subst after.
       apply list_elem_of_fmap_2. rewrite HL. apply elem_of_app. left. by apply last_Some_elem_of. }
  rewrite (filter_cut pre post after HL Hc). cbv zeta. rewrite take_take, Nat.min_l by lia.
  destruct (decide (n < length post)) as [Hlt|Hge].
  - destruct (last (take n post)) as [r|] eqn:El.
    2: { apply last_None in El. apply (f_equal length) in El. rewrite length_take in El. cbn in El. lia. }
    rewrite length_take, decide_True by lia. cbn [fst snd].
    assert (Hr : r ∈ L).
    { rewrite HL. apply elem_of_app. right. apply last_Some_elem_of in El.
      rewrite <-(take_drop n post). apply elem_of_app. by left. }
    rewrite decide_False by apply encode_nonempty, L_keys, Hr.
    rewrite (IH (pre ++ take n post)%list (drop n post) _ (key r)).
    + cbn. by rewrite <-fmap_app, take_drop.
    + by rewrite <-app_assoc, take_drop.
    + unfold cut_at. by rewrite last_app, El.
    + apply decode_encode, L_keys, Hr.
    + rewrite length_drop. lia.
  - rewrite (take_ge post (S n)) by lia.
    destruct (last (take n post)); [rewrite decide_False by lia|]; done.
Qed.

Lemma walk_all fuel : length L < fuel → walk fuel fetch "" st = (Ok (f <$> L), st).
Proof. intros Hf. by apply (walk_suffix fuel [] L "" ""). Qed.
End walk.

(** ** The handlers *)

Section handlers.
Context `{Toolchain, ProtoTypes, ProtoNames, GoRange, CompilerVersion, DriverText} {S : Type}
  `{PagedStore S}.
#[local] Notation SS := (SState (S := S)).

(** A page of a listing, cut by a handler, from the rows of a [PagedStore]. *)
Lemma cutPage_run {A B} (key : A → string) (g : A → B) (n : nat) rows (st : SS) :
  0 < n →
  (page ← cutPage key (Z.of_nat n) (take (Datatypes.S n) rows); mret (g <$> page.1, page.2)) st =
    (match last (take n (take (Datatypes.S n) rows)) with
     | Some r =>
        if decide (n < length (take (Datatypes.S n) rows))
        then Ok (g <$> take n (take (Datatypes.S n) rows), encodePageToken (key r))
        else Ok (g <$> take (Datatypes.S n) rows, "")
     | None => Ok (g <$> take (Datatypes.S n) rows, "")
     end, st).
Proof.
  intros Hn. set (l := take _ rows). unfold cutPage, mbind, M_bind.
  rewrite Nat2Z.id. destruct (decide (n < length l)) as [Hlt|Hge].
  - rewrite decide_True by lia. destruct (last (take n l)) as [r|] eqn:El; [done|].
    apply last_None in El. apply (f_equal length) in El. rewrite length_take in El. cbn in El. lia.
  - rewrite decide_False by lia. by destruct (last (take n l)).
Qed.

(** The rows a listing returns. *)
Definition rows_of {A} (m : M S (list A)) (st : SS) : list A :=
  from_ok [] (m (rs_store (ss_reg st))).1.

(** The identifiers are usable as cursors. *)
Definition cursor_keys {A} (s : Server) (key : A → string) (l : list A) : Prop :=
  ∀ a, a ∈ l → key a ≠ "" ∧ (strlen (key a) <= MaxIDLength (o_Limits (s_opts s)))%Z.

(** A page size the database can be asked for. *)
Definition page_size_ok (s : Server) (size : Z) : Prop :=
  (0 < resolvePageSize (o_Limits (s_opts s)) size < maxInt32)%Z ∧
  (0 <= MaxIDLength (o_Limits (s_opts s)))%Z.

Lemma pageCursor_run s token after (st : SS) :
  decodePageToken token = Ok after →
  (strlen after <= MaxIDLength (o_Limits (s_opts s)))%Z →
  pageCursor s token st = (Ok after, st).
Proof. intros Hd Hl. unfold pageCursor. rewrite Hd. by rewrite decide_False by lia. Qed.

Lemma fetch_run {A B} (s : Server) size key (g : A → B) (all : M S (list A)) page onErr
    (L : list A) (st : SS) token after :
  pages after_key key all page → all (rs_store (ss_reg st)) = (Ok L, rs_store (ss_reg st)) →
  cursor_keys s key L → page_size_ok s size →
  decodePageToken token = Ok after → after = "" ∨ after ∈ (key <$> L) →
  let n := Z.to_nat (resolvePageSize (o_Limits (s_opts s)) size) in
  (after ← pageCursor s token;
   rows ← call (db (page after (resolvePageSize (o_Limits (s_opts s)) size + 1)%Z)) onErr;
   p ← cutPage key (resolvePageSize (o_Limits (s_opts s)) size) rows;
   mret (g <$> p.1, p.2)) st =
    let rows := take (Datatypes.S n) (filter (λ a, after_key (key a) after) L) in
    (match last (take n rows) with
     | Some r => if decide (n < length rows)
                 then Ok (g <$> take n rows, encodePageToken (key r))
                 else Ok (g <$> rows, "")
     | None => Ok (g <$> rows, "")
     end, st).
Proof.
  intros Hp Hall Hkeys [Hsize Hmax] Hd Hafter n.
  assert (Hlen : (strlen after <= MaxIDLength (o_Limits (s_opts s)))%Z).
  { destruct Hafter as [->|(a & -> & Ha)%list_elem_of_fmap]; [done|]. by apply Hkeys. }
  destruct (Hp (rs_store (ss_reg st))) as (L' & Hall' & _ & Hpage).
  rewrite Hall in Hall'. injection Hall' as <-.
  unfold mbind at 1, M_bind at 1. rewrite (pageCursor_run s token after st Hd Hlen).
  unfold mbind at 1, M_bind at 1. unfold call, attempt, reg, db.
  unfold mbind at 1, M_bind at 1. rewrite Hpage by lia.
  assert (Hn : resolvePageSize (o_Limits (s_opts s)) size = Z.of_nat n) by (subst n; lia).
  rewrite Hn. replace (Z.to_nat (Z.of_nat n + 1)) with (Datatypes.S n) by lia.
  unfold mret at 1, M_ret at 1. cbv zeta. rewrite <-cutPage_run by lia.
  by destruct st as [[] ?].
Qed.

(** Following the tokens of the schema listing gives every row. *)
Lemma schemas_walk s id size ns (st : SS) fuel :
  page_size_ok s size → validateNamespaceID s ns = Ok tt →
  cursor_keys s sc_SchemaID (rows_of (store_ListSchemas ns) st) →
  length (rows_of (store_ListSchemas ns) st) < fuel →
  walk fuel (Server_ListSchemas s id ns size) "" st =
    (Ok ((λ sc, schemaToProto sc []) <$> rows_of (store_ListSchemas ns) st), st).
Proof.
  intros Hsize Hv Hk Hf. destruct (schema_pages ns (rs_store (ss_reg st))) as (L & E & Hs & _).
  unfold rows_of in *. rewrite E in *. cbn [fst from_ok] in *.
  assert (0 < Z.to_nat (resolvePageSize (o_Limits (s_opts s)) size)).
  { destruct Hsize as [Hsize _]. lia. }
  eapply (walk_all after_key after_key_irrefl after_key_trans after_key_first); eauto.
  - intros a Ha. by apply Hk.
  - intros token after Hd Ha. unfold Server_ListSchemas, mbind at 1, M_bind at 1.
    rewrite Hv. unfold of_res. by eapply fetch_run; [apply schema_pages|..].
Qed.

(** C18. A client that follows the page tokens of a listing, with any page size, sees the
    whole listing: the namespaces, and the schemas of a namespace, each once and in order;
    the number of pages is at most the number of rows plus one. *)
Theorem listing_is_complete s id size ns (st : SS) fuel :
  page_size_ok s size →
  validateNamespaceID s ns = Ok tt →
  cursor_keys s sn_ID (rows_of store_ListNamespaces st) →
  cursor_keys s sc_SchemaID (rows_of (store_ListSchemas ns) st) →
  length (rows_of store_ListNamespaces st) < fuel →
  length (rows_of (store_ListSchemas ns) st) < fuel →
  walk fuel (Server_ListNamespaces s id size) "" st =
    (Ok (namespaceToProto <$> rows_of store_ListNamespaces st), st) ∧
  walk fuel (Server_ListSchemas s id ns size) "" st =
    (Ok ((λ sc, schemaToProto sc []) <$> rows_of (store_ListSchemas ns) st), st).
Proof.
  intros Hsize Hv Hk1 Hk2 Hf1 Hf2. split; [|by apply schemas_walk].
  destruct (namespace_pages (rs_store (ss_reg st))) as (L1 & E1 & Hs1 & _).
  unfold rows_of in *. rewrite E1 in *. cbn [fst from_ok] in *.
  assert (0 < Z.to_nat (resolvePageSize (o_Limits (s_opts s)) size)).
  { destruct Hsize as [Hsize _]. lia. }
  eapply (walk_all after_key after_key_irrefl after_key_trans after_key_first); eauto.
  - intros a Ha. by apply Hk1.
  - intros token after Hd Ha. by eapply fetch_run; [apply namespace_pages|..].
Qed.
End handlers.
