(* ===== verification/PostgresPaging.v ===== *)
(** * The PostgreSQL store serves pages

    The page queries return consecutive pieces of the full listing, so the store is a
    [PagedStore], in a collation that puts the empty string first. *)

From S2P Require Import Prelude GoStrings Descriptor Protobuf Snapshot Store Postgres.
From S2P Require Import PostgresThms Paging.
From stdpp Require Import prelude gmap strings list sorting.

Open Scope string_scope.

Lemma StronglySorted_filter {A} (R : A → A → Prop) (P : A → Prop) `{∀ x, Decision (P x)} l :
  StronglySorted R l → StronglySorted R (filter P l).
Proof.
  induction 1 as [|x l Hs IH Hx]; [constructor|]. destruct (decide (P x)).
  - rewrite filter_cons_True by done. constructor; [done|].
    rewrite Forall_forall in *. intros y [_ Hy]%list_elem_of_filter. auto.
  - by rewrite filter_cons_False by done.
Qed.

Lemma filter_fmap_list {A B} (f : A → B) (P : B → Prop) `{∀ x, Decision (P x)} (l : list A) :
  filter P (f <$> l) = f <$> filter (λ a, P (f a)) l.
Proof.
  induction l as [|x l IH]; [done|]. rewrite fmap_cons. destruct (decide (P (f x))).
  - by rewrite !filter_cons_True, fmap_cons, IH by done.
  - by rewrite !filter_cons_False, IH by done.
Qed.

Section pages.
Context `{Collation}.

#[local] Instance text_le_total {A} (key : A → string) : Total (text_le key).
Proof. intros x y. apply (coll_le_total (key x) (key y)). Qed.
#[local] Instance text_le_trans {A} (key : A → string) : Transitive (text_le key).
Proof. intros x y z. apply (coll_le_trans (key x) (key y) (key z)). Qed.

#[global] Instance text_gt_dec : RelDecision text_gt.
Proof. intros a b. unfold text_gt. apply _. Defined.

Section rows.
Context {A : Type} (key : A → string) (rows : list A).
Context (rows_nodup : NoDup rows).
Context (rows_inj : ∀ x y, x ∈ rows → y ∈ rows → key x = key y → x = y).

Lemma sorted_rows_strict :
  StronglySorted (λ a b, text_gt (key b) (key a)) (merge_sort (text_le key) rows).
Proof.
  pose proof (StronglySorted_merge_sort (text_le key) rows) as Hs.
  pose proof (merge_sort_Permutation (text_le key) rows) as Hp.
  assert (Hnd : NoDup (merge_sort (text_le key) rows)) by (by rewrite Hp).
  assert (Hin : ∀ x, x ∈ merge_sort (text_le key) rows → x ∈ rows) by (intros x; by rewrite Hp).
  clear Hp. revert Hnd Hin. induction Hs as [|x l Hs IH Hx]; intros Hnd Hin; [constructor|].
  apply NoDup_cons in Hnd as [Hnx Hnd]. constructor.
  - apply IH; [done|]. intros y Hy. apply Hin. by right.
  - rewrite Forall_forall in *. intros y Hy. split; [by apply Hx|].
    intros E. destruct Hnx. rewrite (rows_inj x y); [done|apply Hin..|done]; [left|by right].
Qed.

Lemma filter_sorted_rows (Q : A → Prop) `{∀ x, Decision (Q x)} :
  merge_sort (text_le key) (filter Q rows) = filter Q (merge_sort (text_le key) rows).
Proof.
  apply (StronglySorted_unique_strong (text_le key)).
  - intros x y Hx Hy Hxy Hyx. rewrite merge_sort_Permutation in Hx.
    apply list_elem_of_filter in Hx as [_ Hx], Hy as [_ Hy]. rewrite merge_sort_Permutation in Hy.
    apply rows_inj; [done..|]. by apply (anti_symm coll_le).
  - apply StronglySorted_merge_sort; apply _.
  - apply StronglySorted_filter, StronglySorted_merge_sort; apply _.
  - by rewrite !merge_sort_Permutation.
Qed.
End rows.

(** A listing query and its page query, over the rows of a table. *)
Lemma listing_pages {R V} (key : R → string) (conv : R → V) (vkey : V → string)
    (table : DB → list R) (keep : R → Prop) `{∀ r, Decision (keep r)}
    (all : M DB (list V)) (page : string → Z → M DB (list V)) :
  (∀ d, NoDup (table d)) →
  (∀ d x y, x ∈ table d → y ∈ table d → keep x → keep y → key x = key y → x = y) →
  (∀ r, vkey (conv r) = key r) →
  (∀ d, all d = (Ok (conv <$> merge_sort (text_le key) (filter keep (table d))), d)) →
  (∀ after limit d, page after limit d =
     (Ok (conv <$> take (Z.to_nat (intToInt32Clamp limit)) (merge_sort (text_le key)
        (filter (λ r, keep r ∧ text_gt (key r) after) (table d)))), d)) →
  pages text_gt vkey all page.
Proof.
  intros Hnd Hinj Hk Hall Hpage d. set (rows := filter keep (table d)).
  assert (Hrnd : NoDup rows) by (by apply NoDup_filter).
  assert (Hrinj : ∀ x y, x ∈ rows → y ∈ rows → key x = key y → x = y).
  { intros x y [Hx ?]%list_elem_of_filter [Hy ?]%list_elem_of_filter. eauto. }
  exists (conv <$> merge_sort (text_le key) rows). split_and!; [apply Hall| |].
  - eapply StronglySorted_fmap; [|by apply sorted_rows_strict]. intros x y. by rewrite !Hk.
  - intros after limit Hl. rewrite Hpage. f_equal. f_equal. rewrite fmap_take.
    assert (intToInt32Clamp limit = limit) as ->.
    { unfold intToInt32Clamp. repeat case_decide; lia. }
    f_equal. rewrite filter_fmap_list. f_equal.
    rewrite <-filter_sorted_rows by done. f_equal. unfold rows. rewrite list_filter_filter.
    apply list_filter_iff. intros r. rewrite Hk. tauto.
Qed.

Lemma postgres_namespace_pages : pages text_gt sn_ID ListNamespaces ListNamespacesPage.
Proof.
  eapply (listing_pages fst namespaceOf sn_ID (λ d, map_to_list (t_namespaces d))
    (λ kv, nr_deleted_at kv.2 = None)); try done.
  - intros d. apply NoDup_map_to_list.
  - intros d [i x] [j y] Hx%elem_of_map_to_list Hy%elem_of_map_to_list _ _ E. cbn in *.
    subst j. congruence.
Qed.

Lemma postgres_schema_pages ns : pages text_gt sc_SchemaID (ListSchemas ns) (ListSchemasPage ns).
Proof.
  eapply (listing_pages (λ r, r.1.2) schemaModelToStore sc_SchemaID
    (λ d, map_to_list (t_schemas d)) (λ r, r.1.1 = ns ∧ sr_deleted_at r.2 = None)); try done.
  - intros d. apply NoDup_map_to_list.
  - intros d [[n i] x] [[m j] y] Hx%elem_of_map_to_list Hy%elem_of_map_to_list [E1 _] [E2 _] E.
    cbn in *. subst. congruence.
  - intros after limit d. rewrite (list_filter_iff _ (λ r, r.1.1 = ns ∧
      sr_deleted_at r.2 = None ∧ text_gt r.1.2 after)); [reflexivity|]. intros r. tauto.
Qed.

Definition postgres_paged (empty_first : ∀ x, coll_le "" x) : PagedStore DB.
Proof.
  refine {| after_key := text_gt; namespace_pages := postgres_namespace_pages;
            schema_pages := postgres_schema_pages |}.
  - by intros x [_ ?].
  - intros x y z [Hyx Hne] [Hzy Hne']. split; [by transitivity y|].
    intros <-. apply Hne. by apply (anti_symm coll_le).
  - intros x Hx. split; [apply empty_first|done].
Defined.
End pages.
