(* ===== verification/PostgresQueries.v ===== *)
(** * The statements outside the store methods

    The queries of [src/store/postgres/sqlc] that no method of the store calls: soft
    deletion, dependents, blobs by hash, direct writes of the current version, and the
    keyset pages of the re-parenting history. A soft-deleted row leaves the listings, the
    dependents of a file are the inverse of the recorded dependencies, and following the
    pages of the history returns all of it. *)

From S2P Require Import Prelude GoStrings Descriptor Protobuf Snapshot Store Postgres PostgresThms.
From S2P Require Import Paging PostgresPaging.
From stdpp Require Import prelude gmap strings list sorting.

Open Scope string_scope.
Open Scope list_scope.

(** ** The statements *)

Definition delete_ns (now : Z) (r : NamespaceRow) : NamespaceRow :=
  if decide (nr_deleted_at r = None) then
    {| nr_created_at := nr_created_at r; nr_deleted_at := Some now;
       nr_metadata := nr_metadata r; nr_parent_namespace_id := nr_parent_namespace_id r |}
  else r.
Definition q_SoftDeleteNamespace (id : string) : M DB unit :=
  modify (λ d, with_namespaces d (alter (delete_ns (db_now d)) id (t_namespaces d))).

Definition delete_schema (now : Z) (r : SchemaRow) : SchemaRow :=
  if decide (sr_deleted_at r = None) then
    {| sr_current_version := sr_current_version r; sr_staged_version := sr_staged_version r;
       sr_created_at := sr_created_at r; sr_deleted_at := Some now;
       sr_metadata := sr_metadata r |}
  else r.
Definition q_SoftDeleteSchema (ns sc : string) : M DB unit :=
  modify (λ d, with_schemas d (alter (delete_schema (db_now d)) (ns, sc) (t_schemas d))).

(** The time of an earlier deletion is overwritten. *)
Definition delete_version (now : Z) (r : VersionRow) : VersionRow :=
  {| vr_compiled := vr_compiled r; vr_compiler_version := vr_compiler_version r;
     vr_created_at := vr_created_at r; vr_created_by := vr_created_by r;
     vr_deleted_at := Some now; vr_metadata := vr_metadata r |}.
Definition q_SoftDeleteVersion (ns sc : string) (v : Z) : M DB unit :=
  modify (λ d, with_versions d (alter (delete_version (db_now d)) (ns, sc, v) (t_schema_versions d))).

(** Rows in the order of the scan. *)
Definition q_GetBlobsByHashes (ns : string) (hashes : list string)
    : M DB (list (string * string * BlobRow)) :=
  gets (λ d, filter (λ r, r.1.1 = ns ∧ r.1.2 ∈ hashes) (map_to_list (t_proto_blobs d))).

(** [FOR UPDATE] locks the row, which one call at a time does not observe. *)
Definition q_GetSchemaForUpdate (ns sc : string) : M DB SchemaRow :=
  one (λ d, t_schemas d !! (ns, sc)).

Definition set_current (v : option Z) (r : SchemaRow) : SchemaRow := {|
  sr_current_version := v; sr_staged_version := sr_staged_version r;
  sr_created_at := sr_created_at r; sr_deleted_at := sr_deleted_at r;
  sr_metadata := sr_metadata r |}.
Definition q_SetCurrentVersion (ns sc : string) (v : option Z) : M DB unit :=
  modify (λ d, with_schemas d (alter (set_current v) (ns, sc) (t_schemas d))).

(** [SELECT DISTINCT]. *)
Definition q_GetDependents (ns depSchema : string) : M DB (list (string * Z)) :=
  gets (λ d, remove_dups (omap (λ kv : string * string * Z * string * string * string * Z,
    let '(ns', sc, v, dns, dsc, _, _) := kv in
    if decide (ns' = ns ∧ dns = ns ∧ dsc = depSchema) then Some (sc, v) else None)
    (map_to_list (t_schema_version_deps d)))).

Definition q_GetCrossNamespaceDependents (depNs depSchema depFile : string) (depVersion : Z)
    : M DB (list (string * string * Z)) :=
  gets (λ d, remove_dups (omap (λ kv : string * string * Z * string * string * string * Z,
    let '(ns, sc, v, dns, dsc, df, dv) := kv in
    if decide (dns = depNs ∧ dsc = depSchema ∧ df = depFile ∧ dv = depVersion)
    then Some (ns, sc, v) else None) (map_to_list (t_schema_version_deps d)))).

Definition id_ge (a b : EventRow) : Prop := (er_id b <= er_id a)%Z.
#[global] Instance id_ge_dec : RelDecision id_ge.
Proof. intros a b. unfold id_ge. apply _. Defined.

Definition q_ListNamespaceParentEventsPage (ns : string) (after limit : Z) : M DB (list EventRow) :=
  gets (λ d, take (Z.to_nat limit) (merge_sort id_ge
    (filter (λ e, er_namespace_id e = ns ∧ (after = 0 ∨ er_id e < after)%Z) (t_parent_events d)))).

(** ** Soft deletion *)

Lemma listed_after_delete {K A} `{Countable K} (key : K) (f : A → A) (P : K * A → Prop)
    `{∀ x, Decision (P x)} (m : gmap K A) :
  (∀ a, ¬ P (key, f a)) →
  ∀ x, x ∈ filter P (map_to_list (alter f key m)) ↔ x ∈ filter P (map_to_list m) ∧ x.1 ≠ key.
Proof.
  intros Hf [k a]. rewrite !list_elem_of_filter, !elem_of_map_to_list. cbn.
  destruct (decide (k = key)) as [->|Hk].
  - rewrite lookup_alter_eq. split; [|naive_solver].
    intros [HP (b & _ & ->)%fmap_Some]. by destruct (Hf b).
  - rewrite lookup_alter_ne by done. naive_solver.
Qed.

(** A soft-deleted namespace or schema leaves its listing, and nothing else does. *)
Theorem soft_delete_unlists `{Collation} ns sc d :
  (∀ x, x ∈ (from_ok [] (q_ListNamespaces (q_SoftDeleteNamespace ns d).2).1) ↔
        x ∈ from_ok [] (q_ListNamespaces d).1 ∧ x.1 ≠ ns) ∧
  (∀ x, x ∈ (from_ok [] (q_ListSchemas ns (q_SoftDeleteSchema ns sc d).2).1) ↔
        x ∈ from_ok [] (q_ListSchemas ns d).1 ∧ x.1 ≠ (ns, sc)).
Proof.
  split; intros x; cbn; rewrite !merge_sort_Permutation; apply listed_after_delete; intros a; cbn.
  - unfold delete_ns. case_decide; [done|]. by cbn.
  - unfold delete_schema. case_decide; naive_solver.
Qed.

(** ** Dependents *)

(** The versions that depend on a file are those whose recorded dependencies hold it, each
    listed once. *)
Theorem dependents_invert_deps dns dsc df dv d :
  NoDup (from_ok [] (q_GetCrossNamespaceDependents dns dsc df dv d).1) ∧
  ∀ ns sc v, (ns, sc, v) ∈ from_ok [] (q_GetCrossNamespaceDependents dns dsc df dv d).1 ↔
             (dns, dsc, df, dv) ∈ from_ok [] (q_GetVersionDeps ns sc v d).1.
Proof.
  split; [apply NoDup_remove_dups|]. intros ns sc v. cbn. rewrite elem_of_remove_dups.
  rewrite !list_elem_of_omap. split.
  - intros ([[[[[[ns' sc'] v'] dns'] dsc'] df'] dv'] & Hin & E). case_decide; [|done].
    destruct_and!; simplify_eq. eexists. split; [exact Hin|]. cbn. by rewrite decide_True.
  - intros ([[[[[[ns' sc'] v'] dns'] dsc'] df'] dv'] & Hin & E). case_decide; [|done].
    destruct_and!; simplify_eq. eexists. split; [exact Hin|]. cbn. by rewrite decide_True.
Qed.

(** ** The history in pages *)

#[local] Instance id_ge_total : Total id_ge.
Proof. intros a b. unfold id_ge. lia. Qed.
#[local] Instance id_ge_trans : Transitive id_ge.
Proof. intros a b c. unfold id_ge. lia. Qed.

(** A reader that passes the last identifier of a page on. *)
Fixpoint eventPages (fuel : nat) (ns : string) (after limit : Z) (d : DB) : list EventRow :=
  match fuel with
  | O => []
  | S fuel =>
     let page := from_ok [] (q_ListNamespaceParentEventsPage ns after limit d).1 in
     match last page with
     | None => []
     | Some e => page ++ eventPages fuel ns (er_id e) limit d
     end
  end.

Section history.
Context (ns : string) (d : DB).
Context (Hids : NoDup (er_id <$> t_parent_events d)).
Context (Hpos : Forall (λ e, 0 < er_id e)%Z (t_parent_events d)).

(** The whole history of the namespace, newest first. *)
Definition history : list EventRow :=
  merge_sort id_ge (filter (λ e, er_namespace_id e = ns) (t_parent_events d)).

Lemma history_elem e : e ∈ history ↔ er_namespace_id e = ns ∧ e ∈ t_parent_events d.
Proof. unfold history. by rewrite merge_sort_Permutation, list_elem_of_filter. Qed.

Lemma event_inj (x y : EventRow) :
  x ∈ t_parent_events d → y ∈ t_parent_events d → er_id x = er_id y → x = y.
Proof. intros Hx Hy. by apply (NoDup_fmap_same er_id (t_parent_events d)). Qed.

(** The page query selects from the history. *)
Lemma page_of_history after limit :
  q_ListNamespaceParentEventsPage ns after limit d =
    (Ok (take (Z.to_nat limit) (filter (λ e, after = 0 ∨ er_id e < after)%Z history)), d).
Proof.
  unfold q_ListNamespaceParentEventsPage, gets, history. repeat f_equal.
  apply (StronglySorted_unique_strong id_ge).
  - intros x y Hx Hy Hxy Hyx. rewrite merge_sort_Permutation in Hx.
    apply list_elem_of_filter in Hx as [_ Hx], Hy as [_ Hy%history_elem].
    apply event_inj; [done|apply Hy|]. unfold id_ge in *. lia.
  - apply StronglySorted_merge_sort; apply _.
  - apply StronglySorted_filter, StronglySorted_merge_sort; apply _.
  - rewrite !merge_sort_Permutation, list_filter_filter. apply Permutation_refl', list_filter_iff.
    intros e. tauto.
Qed.

Lemma history_strict : StronglySorted (λ a b, er_id b < er_id a)%Z history.
Proof.
  assert (Hin : ∀ x, x ∈ history → x ∈ t_parent_events d) by (intros x; rewrite history_elem; naive_solver).
  assert (Hnd : NoDup history).
  { unfold history. rewrite merge_sort_Permutation. by apply NoDup_filter, (NoDup_fmap_1 er_id). }
  pose proof (StronglySorted_merge_sort id_ge (filter (λ e, er_namespace_id e = ns) (t_parent_events d))) as Hs.
  fold history in Hs. revert Hin Hnd. induction Hs as [|x l Hs IH Hx]; intros Hin Hnd; [constructor|].
  apply NoDup_cons in Hnd as [Hnx Hnd]. constructor; [apply IH; [set_solver|done]|].
  rewrite Forall_forall in *. intros y Hy. specialize (Hx y Hy). unfold id_ge in Hx.
  assert (er_id x ≠ er_id y); [|lia]. intros E. destruct Hnx.
  by rewrite (event_inj x y) by (done || apply Hin; set_solver).
Qed.

Lemma filter_after pre e post :
  history = pre ++ e :: post → filter (λ x, er_id e = 0 ∨ er_id x < er_id e)%Z history = post.
Proof.
  intros E. pose proof history_strict as Hs. rewrite E in Hs |- *.
  assert (He : (0 < er_id e)%Z).
  { rewrite Forall_forall in Hpos. apply Hpos, history_elem. rewrite E. set_solver. }
  apply StronglySorted_app in Hs as (Hpre & _ & [Hpost _]%StronglySorted_cons).
  rewrite filter_app, filter_cons_False by lia. rewrite filter_none, filter_all; [done|..].
  - intros x Hx. rewrite Forall_forall in Hpost. specialize (Hpost x Hx). lia.
  - intros x Hx. specialize (Hpre x e Hx). set_solver by lia.
Qed.

Lemma eventPages_rest fuel limit pre post after :
  (0 < limit)%Z → history = pre ++ post → (length post < fuel)%nat →
  (after = 0%Z ∧ pre = [] ∨ ∃ pre' e, pre = pre' ++ [e] ∧ after = er_id e) →
  eventPages fuel ns after limit d = post.
Proof.
  intros Hl. revert pre post after.
  induction fuel as [|fuel IH]; intros pre post after E Hf Ha; [lia|]. cbn [eventPages].
  rewrite page_of_history. cbn [fst from_ok].
  assert (Hfil : filter (λ e, after = 0 ∨ er_id e < after)%Z history = post).
  { destruct Ha as [[-> ->]|(pre' & e & -> & ->)].
    - rewrite filter_all; [exact E|]. auto.
    - apply (filter_after pre' e). by rewrite E, <-app_assoc. }
  rewrite Hfil. destruct (last (take (Z.to_nat limit) post)) as [e|] eqn:He.
  - rewrite (IH (pre ++ take (Z.to_nat limit) post) (drop (Z.to_nat limit) post)).
    + apply take_drop.
    + by rewrite <-app_assoc, take_drop.
    + rewrite length_drop. destruct post; [by rewrite take_nil in He|]. cbn in *. lia.
    + right. apply last_Some in He as [l' He]. exists (pre ++ l'), e. by rewrite He, app_assoc.
  - apply last_None in He. destruct post as [|x post]; [done|].
    destruct (Z.to_nat limit) eqn:En; [lia|done].
Qed.

(** Following the pages of the history, whatever the page size, returns every event of the
    namespace once, newest first, and ends. *)
Theorem eventPages_complete fuel limit :
  (0 < limit)%Z → (length history < fuel)%nat → eventPages fuel ns 0 limit d = history.
Proof. intros Hl Hf. by apply (eventPages_rest fuel limit [] history 0); auto. Qed.
End history.
