(* ===== verification/RegistryExamples.v ===== *)
(** * Runs of the registry on the PostgreSQL store

    Concrete runs of the registry over the modelled database and the reference
    toolchain, and at them the witnesses of the theorems on the registry and on the
    store. *)

From S2P Require Import Prelude GoStrings Descriptor Protobuf Snapshot Compat Conflict.
From S2P Require Import Compiler Namespace Store Postgres PostgresThms PostgresRead Registry RegistryThms.
From S2P Require Import RegistryCoherence RegistryRestore GoPath GoJSON.
From stdpp Require Import prelude gmap strings list.

Open Scope string_scope.

(** A computation that succeeds, as an equation, without evaluating its result. *)
Lemma run_ok {S A} (d : A) (m : M S A) (s : S) :
  is_ok (m s).1 = true → m s = (Ok (from_ok d (m s).1), (m s).2).
Proof. by destruct (m s) as [[a|e] s']. Qed.

Lemma run_unit {S} (m : M S unit) (s : S) : is_ok (m s).1 = true → m s = (Ok tt, (m s).2).
Proof. by destruct (m s) as [[[]|e] s']. Qed.

Definition err_of {A} (r : res A) : error :=
  match r with Ok _ => ErrNew "" | Err e => e end.

Lemma run_err {S A} (m : M S A) (s : S) :
  is_ok (m s).1 = false → m s = (Err (err_of (m s).1), (m s).2).
Proof. by destruct (m s) as [[a|e] s']. Qed.

(** The C collation: byte order. *)
Definition byte_order : Collation := {| coll_le := String.le |}.

(** ** The whole system over PostgreSQL *)

Section system.
Context `{Toolchain, ProtoTypes, ProtoNames, GoRange, CompilerVersion, Collation}.

(** A registry started on a freshly migrated database. *)
Definition fresh_state : RState (S := DB) := {| rs_store := empty_db 0; rs_mem := ∅ |}.

Lemma fresh_coherent : coherent fresh_state.
Proof.
  split.
  - apply db_ok_empty.
  - intros ns sc. split; reflexivity.
Qed.
End system.

Module Examples.
#[local] Existing Instance path_files.
#[local] Existing Instance name_types.
#[local] Existing Instance self_desc.
#[local] Existing Instance plain_toolchain.
#[local] Existing Instance range_default.
#[local] Existing Instance byte_order.

Definition names : ProtoNames :=
  {| Kind_String _ := "kind"; Cardinality_String _ := "cardinality" |}.
#[local] Existing Instance names.
Definition release : CompilerVersion := "v1".
#[local] Existing Instance release.

Definition reg : RegistryConfig := NewRegistry [].
Definition req (ns sc src : string) : PublishRequest :=
  {| pr_NamespaceID := ns; pr_SchemaID := sc; pr_Sources := {[ sc +:+ ".proto" := src ]};
     pr_CreatedBy := "ann"; pr_Metadata := None; pr_Force := false |}.

Definition users : M (RState (S := DB)) PublishResult := Publish reg (req "app" "users" "syntax").
Definition no_result : PublishResult :=
  {| pub_Version := 0; pub_Fingerprint := ""; pub_Snapshot := None; pub_NoChange := true |}.
Definition staged_state : RState (S := DB) := (users fresh_state).2.
Definition promote_app : M (RState (S := DB)) (list PromotedSchema) := Promote reg "app".
Definition promoted_state : RState (S := DB) := (promote_app staged_state).2.
Definition restore_app : M (RState (S := DB)) unit := Restore reg.
Definition restarted : RState (S := DB) :=
  (restore_app {| rs_store := rs_store promoted_state; rs_mem := ∅ |}).2.

Lemma Publish_stages_only_its_schema_witness :
  ∃ snap, stg_of (rs_mem staged_state) "app" "users" = Some snap.
Proof.
  destruct (Publish_stages_only_its_schema reg (req "app" "users" "syntax") fresh_state
    (from_ok no_result (users fresh_state).1) staged_state) as (snap & _ & _ & Hs & _).
  - apply run_ok. vm_compute. reflexivity.
  - vm_compute. reflexivity.
  - exists snap. exact Hs.
Defined.

Lemma failed_calls_keep_memory_witness :
  mem_same (rs_mem staged_state) (rs_mem (Promote reg "none" staged_state).2).
Proof.
  apply (failed_calls_keep_memory reg staged_state (err_of (Promote reg "none" staged_state).1)).
  right. left. exists "none". apply run_err. vm_compute. reflexivity.
Defined.

Lemma Promote_installs_checked_witness :
  ∃ n', rs_mem promoted_state !! "app" = Some n' ∧ ∀ sc, Staged n' sc = None.
Proof.
  destruct (Promote_installs_checked reg "app" staged_state
    (from_ok [] (promote_app staged_state).1) promoted_state)
    as (n & n' & _ & Hn & _ & _ & Hs & _).
  - apply run_ok. vm_compute. reflexivity.
  - exists n'. split; [exact Hn|exact Hs].
Defined.

Lemma Restore_rebuilds_witness :
  snap_version <$> cur_of (rs_mem restarted) "app" "users" = Some 1%Z.
Proof.
  destruct (Restore_rebuilds (H8 := postgres_laws) reg
    {| rs_store := rs_store promoted_state; rs_mem := ∅ |} restarted)
    as (rows & schemas & _ & Hs & _ & _ & Hc & _).
  - reflexivity.
  - apply (run_unit restore_app). vm_compute. reflexivity.
  - rewrite Hc.
    assert (Hv : restored_version (from_ok [] (LoadAllCurrent (rs_store promoted_state)).1)
      "app" "users" = Some 1%Z) by (vm_compute; reflexivity).
    change (LoadAllCurrent (rs_store promoted_state) = (Ok schemas, rs_store promoted_state)) in Hs.
    rewrite Hs in Hv. exact Hv.
Defined.

Definition deny : Authorizer := {|
  CanCreateNamespace _ _ := Err (ErrNew "denied");
  CanSetNamespaceParent _ _ := Err (ErrNew "denied");
  CanPublish _ _ := Err (ErrNew "denied");
  CanPromote _ := Err (ErrNew "denied");
  CanRebase _ _ := Err (ErrNew "denied") |}.

Lemma denied_calls_have_no_effect_witness :
  Promote (NewRegistry [WithAuthorizer deny]) "app" staged_state
    = (Err (ErrNew "denied"), staged_state).
Proof.
  destruct (denied_calls_have_no_effect (NewRegistry [WithAuthorizer deny]) staged_state
    (ErrNew "denied")) as (_ & Hp & _). apply Hp. reflexivity.
Defined.

Lemma registry_stays_coherent_witness :
  snap_version <$> cur_of (rs_mem promoted_state) "app" "users"
    = v_current (rs_store promoted_state) !! ("app", "users").
Proof.
  apply (registry_stays_coherent (H8 := postgres_laws) reg fresh_state promoted_state).
  - apply (rtc_l _ fresh_state staged_state); [apply step_Publish|].
    apply rtc_once. apply (step_Promote reg "app" staged_state).
  - exact fresh_coherent.
Defined.

(** ** A restart between a publish and its promotion *)

(** A version of app/users that drops users.proto, staged beside the current version 1. *)
Definition breaking : PublishRequest :=
  {| pr_NamespaceID := "app"; pr_SchemaID := "users"; pr_Sources := {[ "accounts.proto" := "syntax" ]};
     pr_CreatedBy := "bob"; pr_Metadata := None; pr_Force := false |}.
Definition publish_breaking : M (RState (S := DB)) PublishResult := Publish reg breaking.
Definition before_restart : RState (S := DB) := (publish_breaking promoted_state).2.
(** The process starts again on the same database. *)
Definition rebooted : RState (S := DB) := {| rs_store := rs_store before_restart; rs_mem := ∅ |}.
Definition after_restart : RState (S := DB) := (restore_app rebooted).2.

(** The check of the staged version of app/users against the current one. *)
Definition staged_compatible (st : RState (S := DB)) : bool :=
  match stg_of (rs_mem st) "app" "users" with
  | Some new => OK (Check (cur_of (rs_mem st) "app" "users") new)
  | None => true
  end.

(** C40. A restart lets an incompatible version through. Version 1 of a schema is current and
    a version that breaks it is staged, in the database and in memory: the promotion refuses
    it. The process is restarted and [Restore] succeeds, which brings back version 1 and
    stages nothing in memory. Now the same promotion succeeds: the breaking version, never
    checked, is current in the database, while the restarted registry goes on serving
    version 1. *)
Theorem restart_skips_check :
  coherent before_restart ∧ staged_compatible before_restart = false ∧
  is_ok (promote_app before_restart).1 = false ∧
  is_ok (restore_app rebooted).1 = true ∧
  snap_version <$> cur_of (rs_mem after_restart) "app" "users" = Some 1%Z ∧
  stg_of (rs_mem after_restart) "app" "users" = None ∧
  v_staged (rs_store after_restart) !! ("app", "users") = Some 2%Z ∧
  is_ok (promote_app after_restart).1 = true ∧
  v_current (rs_store (promote_app after_restart).2) !! ("app", "users") = Some 2%Z ∧
  snap_version <$> cur_of (rs_mem (promote_app after_restart).2) "app" "users" = Some 1%Z.
Proof.
  split; [|split_and!; vm_compute; reflexivity].
  apply (registry_step_coherent (H8 := postgres_laws) reg promoted_state); [apply step_Publish|].
  apply (registry_step_coherent (H8 := postgres_laws) reg staged_state);
    [apply (step_Promote reg "app" staged_state)|].
  apply (registry_step_coherent (H8 := postgres_laws) reg fresh_state); [apply step_Publish|].
  exact fresh_coherent.
Qed.

(** ** The store *)

Lemma version_column_roundtrip_witness : versionFromDB (versionToDB 7) = 7%Z.
Proof. apply (version_column_roundtrip 7 8); unfold maxInt64; lia. Defined.

Definition two_levels : DB := with_namespaces (empty_db 0)
  {[ "base" := {| nr_created_at := 0; nr_deleted_at := None; nr_metadata := JObj [];
                  nr_parent_namespace_id := None |};
     "app" := {| nr_created_at := 0; nr_deleted_at := None; nr_metadata := JObj [];
                 nr_parent_namespace_id := None |} ]}.

Lemma SetNamespaceParent_acyclic_witness :
  acyclic (t_namespaces (Postgres.SetNamespaceParent "app" (Some "base") "root" two_levels).2).
Proof.
  assert (Hroot : ∀ id row, t_namespaces two_levels !! id = Some row →
    nr_parent_namespace_id row = None).
  { apply (bool_decide_unpack (map_Forall (λ _ row, nr_parent_namespace_id row = None) _)).
    vm_compute. exact I. }
  destruct (Postgres.SetNamespaceParent "app" (Some "base") "root" two_levels)
    as [[[]|e] d'] eqn:E; cbn [snd].
  - refine (proj1 (SetNamespaceParent_acyclic "app" (Some "base") "root" two_levels (Ok tt) d'
      E _ _)).
    + intros id [row Hr]. exists [id]. by eapply up_root; [|eapply Hroot].
    + intros q l [= <-] Hl. destruct Hl as [? ? ?|? ? ? ? Hr Hp _]; [cbn; lia|].
      rewrite (Hroot _ _ Hr) in Hp. discriminate.
  - assert (Hok : is_ok (Postgres.SetNamespaceParent "app" (Some "base") "root" two_levels).1 = true)
      by (vm_compute; reflexivity). rewrite E in Hok. discriminate.
Defined.

Definition schema_db : DB := with_schemas (with_blobs two_levels
  {[ ("app", "h") := {| br_original_source := "src"; br_size_bytes := 3; br_created_at := 0 |} ]})
  {[ ("app", "users") := {| sr_current_version := None; sr_staged_version := None;
       sr_created_at := 0; sr_deleted_at := None; sr_metadata := JObj [] |} ]}.
Definition first_version : SchemaVersion :=
  {| sv_NamespaceID := "app"; sv_SchemaID := "users"; sv_Version := 1; sv_Compiled := "bytes";
     sv_CompilerVersion := "v1"; sv_CreatedAt := 0; sv_CreatedBy := "ann"; sv_DeletedAt := None;
     sv_Metadata := None |}.
Definition first_file : VersionFile :=
  {| vf_NamespaceID := "app"; vf_SchemaID := "users"; vf_Version := 1;
     vf_Filename := "users.proto"; vf_BlobSHA256 := "h" |}.
Definition put_first : M DB unit := PutVersion first_version [first_file] [].

Lemma PutVersion_roundtrip_witness :
  ∃ ver, GetVersion "app" "users" 1 (put_first schema_db).2 = (Ok ver, (put_first schema_db).2) ∧
    sv_Compiled ver = "bytes".
Proof.
  destruct (PutVersion_roundtrip first_version [first_file] [] schema_db (Ok tt) (put_first schema_db).2)
    as [(ver & Hg & _ & Hc & _) _].
  - intros ns sc v f h Hf. discriminate Hf.
  - unfold first_version, maxInt64. cbn. lia.
  - intros f ->%list_elem_of_singleton. repeat split.
  - apply (run_unit put_first). vm_compute. reflexivity.
  - exists ver. split; [exact Hg|exact Hc].
Defined.
End Examples.
