(* ===== verification/ServerExamples.v ===== *)
(** * Runs of the server

    Concrete calls of the server over the PostgreSQL store, and at them the witnesses of
    the theorems on the server. *)

From S2P Require Import Prelude GoStrings Descriptor Protobuf Snapshot Compat Conflict.
From S2P Require Import Compiler Namespace Store Postgres PostgresThms Registry.
From S2P Require Import Validate Auth Server ServerThms Paging PostgresPaging RegistryExamples.
From stdpp Require Import prelude gmap strings list.

Open Scope string_scope.

Module Examples.
#[local] Existing Instance path_files.
#[local] Existing Instance name_types.
#[local] Existing Instance self_desc.
#[local] Existing Instance plain_toolchain.
#[local] Existing Instance range_default.
#[local] Existing Instance byte_order.
#[local] Existing Instance RegistryExamples.Examples.names.
#[local] Existing Instance RegistryExamples.Examples.release.

Definition driver : DriverText := λ _, "driver error".
#[local] Existing Instance driver.

Definition server : Server := NewServer (NewRegistry []) [].
Definition ann : Identity := {| Subject := "ann"; Admin := false |}.
Definition start : SState (S := DB) := {| ss_reg := fresh_state; ss_log := [] |}.
Definition publish_users : WriteRPC := RPC_Publish
  {| preq_NamespaceId := "app"; preq_SchemaId := "users";
     preq_Sources := {[ "users.proto" := "syntax" ]}; preq_CreatedBy := "ann";
     preq_Metadata := None; preq_Force := false |}.
Definition publish : M (SState (S := DB)) unit := write_rpc server ann publish_users.

Lemma write_rpcs_are_audited_witness :
  audits (ss_log (publish start).2) = [("publish", "ann")].
Proof.
  rewrite (write_rpcs_are_audited server ann publish_users start (Ok tt) (publish start).2).
  - reflexivity.
  - apply (run_unit publish). vm_compute. reflexivity.
Defined.

Lemma write_effects_need_rights_witness : rights server ann publish_users.
Proof.
  apply (write_effects_need_rights server ann publish_users start (Ok tt) (publish start).2).
  - apply (run_unit publish). vm_compute. reflexivity.
  - intros E. apply (f_equal (λ r : RState (S := DB), size (t_namespaces (rs_store r)))) in E.
    vm_compute in E. discriminate E.
Defined.

Lemma builtins_promotion_not_reserved_witness :
  ss_reg (Server_Promote server ann BuiltinsNamespace start).2 =
    (Promote (NewRegistry []) BuiltinsNamespace fresh_state).2.
Proof. apply (builtins_promotion_not_reserved server ann start). reflexivity. Defined.

Definition promote_none : M (SState (S := DB)) unit := write_rpc server ann (RPC_Promote "none").

Lemma write_errors_are_sanitized_witness :
  sanitized "promote" (err_of (promote_none start).1).
Proof.
  destruct (write_errors_are_sanitized server ann (RPC_Promote "none") start
    (err_of (promote_none start).1) (promote_none start).2) as [Hs|[Hs He]].
  - apply run_err. vm_compute. reflexivity.
  - exact Hs.
  - exists Internal, "promote failed". split; [|reflexivity]. vm_compute. reflexivity.
Defined.

Definition two : SState (S := DB) :=
  {| ss_reg := {| rs_store := RegistryExamples.Examples.two_levels; rs_mem := ∅ |};
     ss_log := [] |}.
Lemma byte_order_empty (x : string) : coll_le "" x.
Proof. destruct x; exact I. Qed.
#[local] Instance paged : PagedStore DB := postgres_paged byte_order_empty.

Lemma listing_is_complete_witness :
  walk 3 (Server_ListNamespaces server ann 1) "" two =
    (Ok (namespaceToProto <$> rows_of store_ListNamespaces two), two).
Proof.
  apply (listing_is_complete server ann 1 "app" two 3).
  - vm_compute. repeat split; discriminate.
  - vm_compute. reflexivity.
  - refine (proj1 (Forall_forall (λ a, sn_ID a ≠ EmptyString ∧ (strlen (sn_ID a) <= 256)%Z) _) _).
    apply (bool_decide_unpack _). vm_compute. exact I.
  - refine (proj1 (Forall_forall (λ a, sc_SchemaID a ≠ EmptyString ∧
      (strlen (sc_SchemaID a) <= 256)%Z) _) _).
    apply (bool_decide_unpack _). vm_compute. exact I.
  - vm_compute. lia.
  - vm_compute. lia.
Defined.

(** The server accepts a file name that holds the line of another file. *)
Example line_break_in_name :
  validateFilename ("a.proto:00" +:+ String newline "b.proto") 255 = Ok tt.
Proof. vm_compute. reflexivity. Qed.
End Examples.
