(* ===== verification/GoProg.v ===== *)
(** * Programs that may panic

    The client library calls code that can panic (a failed type assertion, a method of a
    nil interface). [Prog] is the monad of such programs: a run either panics or returns a
    value or an error together with the state reached. A panic is not an error value: no
    error handling of the caller sees it. *)

From S2P Require Import Prelude.
From stdpp Require Import prelude strings list.

Definition Prog (S A : Type) : Type := S → outcome (res A * S).

#[global] Instance Prog_ret S : MRet (Prog S) := λ A a s, Returns (Ok a, s).
#[global] Instance Prog_bind S : MBind (Prog S) := λ A B f m s,
  match m s with
  | Returns (Ok a, s') => f a s'
  | Returns (Err e, s') => Returns (Err e, s')
  | Panics => Panics
  end.

Section ops.
Context {S : Type}.

Definition panicP {A} : Prog S A := λ _, Panics.
Definition failP {A} (e : error) : Prog S A := λ s, Returns (Err e, s).
Definition getsP {A} (f : S → A) : Prog S A := λ s, Returns (Ok (f s), s).
Definition modifyP (f : S → S) : Prog S unit := λ s, Returns (Ok tt, f s).
Definition of_resP {A} (r : res A) : Prog S A := λ s, Returns (r, s).
(** A call whose error is handed to the caller as a value. *)
Definition attemptP {A} (m : Prog S A) : Prog S (res A) := λ s,
  match m s with Returns (r, s') => Returns (Ok r, s') | Panics => Panics end.
(** [fmt.Errorf("ctx: %w", err)] around the error of a call. *)
Definition wrapP {A} (ctx : string) (m : Prog S A) : Prog S A := λ s,
  match m s with Returns (r, s') => Returns (wrap ctx r, s') | Panics => Panics end.
(** A call of code that cannot panic. *)
Definition liftM {A} (m : M S A) : Prog S A := λ s, Returns (m s).
(** A call on a part of the state; the part is written back whether the call fails or not. *)
Definition zoom {T A} (get : S → T) (put : T → S → S) (m : Prog T A) : Prog S A := λ s,
  match m (get s) with Returns (r, t) => Returns (r, put t s) | Panics => Panics end.

(** A loop that stops at the first error. *)
Fixpoint forP_ {A} (l : list A) (f : A → Prog S unit) : Prog S unit :=
  match l with
  | [] => mret tt
  | x :: l => f x ;; forP_ l f
  end.

(** A loop that threads a value. *)
Fixpoint foldP {A B} (f : B → A → Prog S B) (b : B) (l : list A) : Prog S B :=
  match l with
  | [] => mret b
  | x :: l => b' ← f b x; foldP f b' l
  end.
End ops.

(** ** Triples

    From a state with [P] the program does not panic, a normal return satisfies [Q] and a
    failure [E]. *)
Definition triple {S A} (P : S → Prop) (m : Prog S A) (Q : A → S → Prop)
    (E : error → S → Prop) : Prop :=
  ∀ s, P s →
    match m s with
    | Returns (Ok a, s') => Q a s'
    | Returns (Err e, s') => E e s'
    | Panics => False
    end.

Section triples.
Context {S : Type}.
Implicit Types (P I : S → Prop) (E : error → S → Prop).

Lemma triple_conseq {A} P P' (m : Prog S A) (Q Q' : A → S → Prop) E E' :
  triple P' m Q' E' → (∀ s, P s → P' s) → (∀ a s, Q' a s → Q a s) →
  (∀ e s, E' e s → E e s) → triple P m Q E.
Proof.
  intros Hm HP HQ HE s Hs. specialize (Hm s (HP s Hs)). destruct (m s) as [[[] ?]|]; auto.
Qed.

Lemma triple_bind {A B} P (m : Prog S A) R (f : A → Prog S B) Q E :
  triple P m R E → (∀ a, triple (R a) (f a) Q E) → triple P (m ≫= f) Q E.
Proof.
  intros Hm Hf s Hs. specialize (Hm s Hs). unfold mbind, Prog_bind.
  destruct (m s) as [[[a|e] s1]|]; [by apply Hf|done..].
Qed.

Lemma triple_ret {A} (a : A) (Q : A → S → Prop) E : triple (Q a) (mret a) Q E.
Proof. by intros s ?. Qed.

Lemma triple_fail {A} e (Q : A → S → Prop) E : triple (E e) (failP e) Q E.
Proof. by intros s ?. Qed.

Lemma triple_gets {A} P (f : S → A) (Q : A → S → Prop) E :
  (∀ s, P s → Q (f s) s) → triple P (getsP f) Q E.
Proof. intros HQ s Hs. by apply HQ. Qed.

Lemma triple_modify P f (Q : unit → S → Prop) E :
  (∀ s, P s → Q tt (f s)) → triple P (modifyP f) Q E.
Proof. intros HQ s Hs. by apply HQ. Qed.

Lemma triple_wrap {A} P c (m : Prog S A) Q E :
  triple P m Q (λ e, E (ErrWrap c e)) → triple P (wrapP c m) Q E.
Proof. intros Hm s Hs. specialize (Hm s Hs). unfold wrapP. by destruct (m s) as [[[] ?]|]. Qed.

(** A loop with an invariant on the elements done. *)
Lemma triple_forP_ {A} (J : list A → S → Prop) E (f : A → Prog S unit) l :
  (∀ xs x ys, l = (xs ++ x :: ys)%list → triple (J xs) (f x) (λ _, J (xs ++ [x])%list) E) →
  triple (J []) (forP_ l f) (λ _, J l) E.
Proof.
  intros Hf. enough (∀ pre post, l = (pre ++ post)%list →
    triple (J pre) (forP_ post f) (λ _, J l) E) as HH by by apply (HH []).
  intros pre post. revert pre. induction post as [|x post IH]; intros pre Hl; cbn [forP_].
  - subst l. rewrite app_nil_r. by intros st Hst.
  - eapply triple_bind; [by eapply Hf|]. intros []. apply IH. by rewrite <-app_assoc.
Qed.
End triples.

Lemma triple_zoom {S T A} (P : T → Prop) (get : S → T) (put : T → S → S) (m : Prog T A)
    (Q : A → T → Prop) (E : error → T → Prop) s :
  triple P m Q E → P (get s) →
  triple (λ s', s' = s) (zoom get put m) (λ a s', ∃ t, Q a t ∧ s' = put t s)
    (λ e s', ∃ t, E e t ∧ s' = put t s).
Proof.
  intros Hm Hs ? ->. specialize (Hm _ Hs). unfold zoom.
  destruct (m (get s)) as [[[] ?]|]; eauto.
Qed.

Lemma forP_app {S A} (f : A → Prog S unit) l k s :
  forP_ (l ++ k)%list f s = (forP_ l f ;; forP_ k f) s.
Proof.
  revert s. induction l as [|x l IH]; intros s; cbn; [done|].
  unfold mbind, Prog_bind. destruct (f x s) as [[[] ?]|]; [|done..].
  by rewrite IH.
Qed.

Lemma Prog_bind_Ok {S A B} (m : Prog S A) (f : A → Prog S B) s b s' :
  (m ≫= f) s = Returns (Ok b, s') ↔
  ∃ a s1, m s = Returns (Ok a, s1) ∧ f a s1 = Returns (Ok b, s').
Proof.
  unfold mbind, Prog_bind. destruct (m s) as [[[a|e] s1]|]; split.
  - eauto.
  - by intros (? & ? & [= -> ->] & ?).
  - done.
  - by intros (? & ? & ? & ?).
  - done.
  - by intros (? & ? & ? & ?).
Qed.

Lemma wrapP_Ok {S A} c (m : Prog S A) s a s' :
  wrapP c m s = Returns (Ok a, s') ↔ m s = Returns (Ok a, s').
Proof. unfold wrapP. destruct (m s) as [[[] ?]|]; naive_solver. Qed.

(** A loop that succeeds does not depend on the texts its errors would be wrapped in. *)
Lemma forP_unwrap {S A} (c : string) (f : A → Prog S unit) l s s' :
  forP_ l (λ x, wrapP c (f x)) s = Returns (Ok tt, s') → forP_ l f s = Returns (Ok tt, s').
Proof.
  revert s. induction l as [|x l IH]; intros s; cbn; [done|].
  unfold mbind, Prog_bind, wrapP at 1. destruct (f x s) as [[[] ?]|]; cbn; [apply IH|done..].
Qed.
