(* ===== verification/ClientSnapshot.v ===== *)
(** * The client's view of one schema and of one namespace

    Models the parts of [src/client/snapshot.go] that need no connection: the fingerprint
    of a schema, the walks over descriptors, the compilation of a descriptor set into a
    per-schema view, the namespace-wide aggregate with its incremental updates, and the
    name index over all schemas of a namespace. *)

From S2P Require Import Prelude GoProg GoStrings Descriptor Protobuf NsFiles NsTypes.
From stdpp Require Import prelude gmap strings list sorting pretty.

Open Scope string_scope.

(** [sort.Strings]. *)
Definition sort_Strings (l : list string) : list string := merge_sort String.le l.

(** [strings.TrimSuffix]. *)
Definition TrimSuffix (s suf : string) : string :=
  if HasSuffix s suf then str_take (String.length s - String.length suf) s else s.

(** ** Fingerprints *)

Record aggFingerprint := {
  fp_filePaths : list string; fp_messages : list string;
  fp_enums : list string; fp_extensions : list string }.

Definition fp_empty : aggFingerprint :=
  {| fp_filePaths := []; fp_messages := []; fp_enums := []; fp_extensions := [] |}.

Definition fp_add_path (fp : aggFingerprint) (p : string) : aggFingerprint :=
  {| fp_filePaths := (fp_filePaths fp ++ [p])%list; fp_messages := fp_messages fp;
     fp_enums := fp_enums fp; fp_extensions := fp_extensions fp |}.
Definition fp_add_message (fp : aggFingerprint) (n : string) : aggFingerprint :=
  {| fp_filePaths := fp_filePaths fp; fp_messages := (fp_messages fp ++ [n])%list;
     fp_enums := fp_enums fp; fp_extensions := fp_extensions fp |}.
Definition fp_add_enum (fp : aggFingerprint) (ed : EnumDescriptor) : aggFingerprint :=
  {| fp_filePaths := fp_filePaths fp; fp_messages := fp_messages fp;
     fp_enums := (fp_enums fp ++ [en_FullName ed])%list; fp_extensions := fp_extensions fp |}.
Definition fp_add_extension (fp : aggFingerprint) (xd : FieldDescriptor) : aggFingerprint :=
  {| fp_filePaths := fp_filePaths fp; fp_messages := fp_messages fp;
     fp_enums := fp_enums fp;
     fp_extensions := (fp_extensions fp ++ [fld_FullName xd])%list |}.

Fixpoint collectMessage (fp : aggFingerprint) (msg : MessageDescriptor) : aggFingerprint :=
  let fp := fp_add_message fp (msg_FullName msg) in
  let fp := fold_left collectMessage (msg_Messages msg) fp in
  let fp := fold_left fp_add_enum (msg_Enums msg) fp in
  fold_left fp_add_extension (msg_Extensions msg) fp.

Definition collect (fp : aggFingerprint) (fd : FileDescriptor) : aggFingerprint :=
  let fp := fp_add_path fp (file_Path fd) in
  let fp := fold_left collectMessage (file_Messages fd) fp in
  let fp := fold_left fp_add_enum (file_Enums fd) fp in
  fold_left fp_add_extension (file_Extensions fd) fp.

(** ** The names a file declares

    The callbacks [rangeFileDescriptors] makes, in order. *)

Fixpoint rangeMessageDescriptors (msg : MessageDescriptor) : list string :=
  msg_FullName msg ::
  (flat_map rangeMessageDescriptors (msg_Messages msg) ++
   (en_FullName <$> msg_Enums msg) ++ (fld_FullName <$> msg_Extensions msg)).

Definition rangeFileDescriptors (fd : FileDescriptor) : list string :=
  flat_map rangeMessageDescriptors (file_Messages fd) ++
  (en_FullName <$> file_Enums fd) ++
  (fld_FullName <$> file_Extensions fd) ++
  flat_map (λ svc, sv_FullName svc :: (mt_FullName <$> sv_Methods svc)) (file_Services fd).

Section ClientSnapshot.
Context `{Protoreflect, ProtoTypes, Protodesc, GoRange}.

(** ** Type registration *)

(** [registerMessageTypes] and [registerFileTypes]: a [dynamicpb] type per descriptor. *)
Fixpoint registerMessageTypes (msg : MessageDescriptor) : M NamespacedTypes unit :=
  (λ types, RegisterMessage types msg) ;;
  (fix nested ms := match ms with
                    | [] => mret tt
                    | m :: ms => registerMessageTypes m ;; nested ms
                    end) (msg_Messages msg) ;;
  forM_ (msg_Enums msg) (λ ed types, RegisterEnum types ed) ;;
  forM_ (msg_Extensions msg) (λ xd types, RegisterExtension types xd).

Definition registerFileTypes (fd : FileDescriptor) : M NamespacedTypes unit :=
  forM_ (file_Messages fd) registerMessageTypes ;;
  forM_ (file_Enums fd) (λ ed types, RegisterEnum types ed) ;;
  forM_ (file_Extensions fd) (λ xd types, RegisterExtension types xd).

(** Their [Update*] counterparts. *)
Fixpoint registerMessageTypesUpdate (msg : MessageDescriptor) : M NamespacedTypes unit :=
  (λ types, UpdateMessage types msg) ;;
  (fix nested ms := match ms with
                    | [] => mret tt
                    | m :: ms => registerMessageTypesUpdate m ;; nested ms
                    end) (msg_Messages msg) ;;
  forM_ (msg_Enums msg) (λ ed types, UpdateEnum types ed) ;;
  forM_ (msg_Extensions msg) (λ xd types, UpdateExtension types xd).

Definition registerFileTypesUpdate (fd : FileDescriptor) : M NamespacedTypes unit :=
  forM_ (file_Messages fd) registerMessageTypesUpdate ;;
  forM_ (file_Enums fd) (λ ed types, UpdateEnum types ed) ;;
  forM_ (file_Extensions fd) (λ xd types, UpdateExtension types xd).

(** ** The view of one schema *)

(** A schema's registries are children of the resolver's configured parents; their own
    entries are recorded here, and the parents are those of the resolver that owns the
    schema. *)
Record schemaSnapshot := {
  ss_schemaID : string; ss_version : Z;
  ss_files : NamespacedFiles; ss_types : NamespacedTypes;
  ss_aggFingerprint : aggFingerprint; ss_rawDescriptorSet : string }.

Record nsSnapshot := {
  sn_schemas : gmap string schemaSnapshot;
  sn_nameIndex : gmap string string }.

Definition newSnapshot : nsSnapshot := {| sn_schemas := ∅; sn_nameIndex := ∅ |}.

(** [snap.schemas[id] = ss]. *)
Definition put_schema (id : string) (ss : schemaSnapshot) (s : nsSnapshot) : nsSnapshot :=
  {| sn_schemas := <[id := ss]> (sn_schemas s); sn_nameIndex := sn_nameIndex s |}.

(** The pair of registries a walk writes to. *)
Record regPair := { rg_files : NamespacedFiles; rg_types : NamespacedTypes }.

Definition on_files {A} (m : Prog NamespacedFiles A) : Prog regPair A :=
  zoom rg_files (λ f p, {| rg_files := f; rg_types := rg_types p |}) m.
Definition on_types {A} (m : M NamespacedTypes A) : Prog regPair A :=
  zoom rg_types (λ t p, {| rg_files := rg_files p; rg_types := t |}) (liftM m).

(** The callback of [compileSchema]; the fingerprint is extended after both registrations. *)
Definition compileFile (fp : aggFingerprint) (fd : FileDescriptor)
    : Prog regPair aggFingerprint :=
  wrapP ("register file " +:+ file_Path fd) (on_files (λ r, RegisterFile r fd)) ;;
  wrapP ("register types in " +:+ file_Path fd) (on_types (registerFileTypes fd)) ;;
  mret (collect fp fd).

(** [compileSchema] of the resolver for namespace [ns]. The registries it fills are fresh,
    so it is a function of the descriptor set. *)
Definition compileSchema (ns schemaID : string) (version : Z)
    (fdset : list FileDescriptorProto) (raw : string) : outcome (res schemaSnapshot) :=
  let at_version := ns +:+ "/" +:+ schemaID +:+ "@" +:+ pretty version in
  match NewFiles fdset with
  | Err e => Returns (Err (ErrWrap ("compiling descriptors for " +:+ at_version) e))
  | Ok compiled =>
     match foldP compileFile fp_empty (Files_RangeFiles compiled)
             {| rg_files := NewNamespacedFiles; rg_types := NewNamespacedTypes |} with
     | Panics => Panics
     | Returns (Err e, _) =>
        Returns (Err (ErrWrap ("populating registries for " +:+ at_version) e))
     | Returns (Ok fp, p) =>
        Returns (Ok {| ss_schemaID := schemaID; ss_version := version;
                       ss_files := rg_files p; ss_types := rg_types p;
                       ss_aggFingerprint := fp; ss_rawDescriptorSet := raw |})
     end
  end.

(** ** The namespace-wide aggregate *)

(** The files [ss.files.RangeFiles] visits: the schema's own, in the order of the walk. *)
Definition schemaFiles (ss : schemaSnapshot) : list FileDescriptor := localFiles (ss_files ss).

Definition applyToAggregate (ss : schemaSnapshot) : Prog regPair unit :=
  forP_ (schemaFiles ss) (λ fd,
    wrapP ("aggregating file " +:+ file_Path fd +:+ " from schema " +:+ ss_schemaID ss)
      (on_files (λ r, UpdateFile r fd)) ;;
    wrapP ("aggregating types from " +:+ file_Path fd +:+ " in schema " +:+ ss_schemaID ss)
      (on_types (registerFileTypesUpdate fd))).

Definition removeFromAggregate (ss : schemaSnapshot) : Prog regPair unit :=
  let fp := ss_aggFingerprint ss in
  let of_schema := " (schema " +:+ ss_schemaID ss +:+ ")" in
  forP_ (fp_filePaths fp) (λ path,
    wrapP ("unregister file " +:+ path +:+ of_schema) (on_files (λ r, UnregisterFile r path))) ;;
  forP_ (fp_messages fp) (λ name,
    wrapP ("unregister message " +:+ name +:+ of_schema)
      (on_types (λ t, UnregisterMessage t name))) ;;
  forP_ (fp_enums fp) (λ name,
    wrapP ("unregister enum " +:+ name +:+ of_schema)
      (on_types (λ t, UnregisterEnum t name))) ;;
  forP_ (fp_extensions fp) (λ name,
    wrapP ("unregister extension " +:+ name +:+ of_schema)
      (on_types (λ t, UnregisterExtension t name))).

(** ** The name index *)

Definition schemaFor (s : nsSnapshot) (name : string) : option schemaSnapshot :=
  sn_nameIndex s !! name ≫= λ id, sn_schemas s !! id.

(** The sorted identifiers of the schemas. *)
Definition sortedIDs (s : nsSnapshot) : list string := sort_Strings (go_range (sn_schemas s)).*1.

(** The index and the conflicts found so far. *)
Record indexing := { ix_index : gmap string string; ix_conflicts : gmap string (list string) }.

(** The callback for a name of schema [id]. *)
Definition visitName (id : string) (ix : indexing) (name : string) : indexing :=
  match ix_index ix !! name with
  | Some existing =>
     if decide (existing = id) then ix
     else
       let ids := default [existing] (ix_conflicts ix !! name) in
       {| ix_index := ix_index ix;
          ix_conflicts := <[name := (ids ++ [id])%list]> (ix_conflicts ix) |}
  | None =>
     {| ix_index := <[name := id]> (ix_index ix); ix_conflicts := ix_conflicts ix |}
  end.

(** Every name a schema declares, in the order of the walk. *)
Definition schemaNames (ss : schemaSnapshot) : list string :=
  flat_map rangeFileDescriptors (schemaFiles ss).

Definition visitSchema (s : nsSnapshot) (ix : indexing) (id : string) : indexing :=
  match sn_schemas s !! id with
  | Some ss => fold_left (visitName id) (schemaNames ss) ix
  | None => ix
  end.

Definition collisionText (conflicts : gmap string (list string)) : string :=
  TrimSuffix
    (foldl (λ b n, b +:+ " " +:+ n +:+ " in [" +:+
                   strings_Join (default [] (conflicts !! n)) ", " +:+ "];")
       "protoregistry/client: name collisions across schemas:"
       (sort_Strings (go_range conflicts).*1))
    ";".

Definition buildNameIndex (s : nsSnapshot) : res unit * nsSnapshot :=
  let ix := fold_left (visitSchema s) (sortedIDs s)
              {| ix_index := sn_nameIndex s; ix_conflicts := ∅ |} in
  (if decide (ix_conflicts ix = ∅) then Ok tt
   else Err (ErrNew (collisionText (ix_conflicts ix))),
   {| sn_schemas := sn_schemas s; sn_nameIndex := ix_index ix |}).

End ClientSnapshot.
