(* ===== verification/ClientSnapshotThms.v ===== *)
(** * Correctness of the client's schema views

    The name index is exact, compilation of a descriptor set gives a view that holds
    exactly the declared files and types, and the incremental updates of the aggregate
    refine the union and difference of finite maps. *)

From S2P Require Import Prelude GoProg GoStrings Descriptor Protobuf NsFiles NsTypes.
From S2P Require Import NsFilesThms NsTypesThms ClientSnapshot.
From stdpp Require Import prelude gmap strings list sorting.

Open Scope string_scope.

Section name_index.
Context `{Protoreflect, ProtoTypes, Protodesc, GoRange}.
Implicit Types (s : nsSnapshot) (ss : schemaSnapshot) (ix : indexing).

(** Schema [id] declares the name [n]. *)
Definition declares s (n id : string) : Prop :=
  match sn_schemas s !! id with Some ss => n ∈ schemaNames ss | None => False end.
#[global] Instance declares_dec s n id : Decision (declares s n id).
Proof. unfold declares. destruct (sn_schemas s !! id); apply _. Defined.

(** The schemas of a list that declare [n]. *)
Definition owners s (ids : list string) (n : string) : list string :=
  filter (declares s n) ids.

Lemma sortedIDs_elem s id : id ∈ sortedIDs s ↔ is_Some (sn_schemas s !! id).
Proof.
  unfold sortedIDs, sort_Strings. rewrite merge_sort_Permutation, list_elem_of_fmap. split.
  - intros ([id' ss] & -> & Hin). apply elem_of_go_range in Hin. eauto.
  - intros [ss Hss]. exists (id, ss). split; [done|]. by apply elem_of_go_range.
Qed.

Lemma sortedIDs_NoDup s : NoDup (sortedIDs s).
Proof.
  unfold sortedIDs, sort_Strings. rewrite merge_sort_Permutation. apply NoDup_fst_go_range.
Qed.

(** The schemas recorded for each name: the first one is in the index, and two or more are
    a conflict. *)
Definition ix_rep ix (O : string → list string) : Prop :=
  ∀ n, ix_index ix !! n = head (O n) ∧
       ix_conflicts ix !! n = match O n with _ :: _ :: _ => Some (O n) | _ => None end.

Lemma visitName_rep id ix O n :
  ix_rep ix O → id ∉ O n →
  ix_rep (visitName id ix n) (λ k, if decide (k = n) then (O n ++ [id])%list else O k).
Proof.
  intros Hix Hid k. unfold visitName. destruct (Hix n) as [Hi Hc].
  destruct (O n) as [|x l] eqn:E; cbn [head] in Hi; rewrite Hi.
  - cbn. rewrite lookup_insert. destruct (Hix k) as [Hki Hkc].
    destruct (decide (k = n)) as [->|]; [rewrite decide_True by done|rewrite decide_False by done].
    + by rewrite Hkc, E.
    + done.
  - rewrite decide_False by set_solver. cbn. destruct (Hix k) as [Hki Hkc].
    rewrite lookup_insert, Hc.
    destruct (decide (k = n)) as [->|]; [rewrite decide_True by done|rewrite decide_False by done].
    + rewrite Hki, E. destruct l; done.
    + done.
Qed.

Lemma visitNames_rep id ix O l :
  NoDup l → ix_rep ix O → (∀ n, n ∈ l → id ∉ O n) →
  ix_rep (fold_left (visitName id) l ix)
    (λ n, if decide (n ∈ l) then (O n ++ [id])%list else O n).
Proof.
  revert ix O. induction l as [|n l IH]; intros ix O Hnd Hix Hid; cbn.
  { intros k. rewrite decide_False by set_solver. apply Hix. }
  apply NoDup_cons in Hnd as [Hn Hnd].
  pose proof (visitName_rep id ix O n Hix (Hid n ltac:(left))) as Hix'.
  specialize (IH _ _ Hnd Hix'). intros k. edestruct IH as [Hi Hc].
  { intros m Hm. rewrite decide_False by set_solver. apply Hid. by right. }
  rewrite Hi, Hc. destruct (decide (k = n)) as [->|Hk].
  - by rewrite (decide_False (P := n ∈ l)), (decide_True (P := n ∈ n :: l)) by set_solver.
  - destruct (decide (k ∈ l)).
    + by rewrite (decide_True (P := k ∈ n :: l)) by set_solver.
    + by rewrite (decide_False (P := k ∈ n :: l)) by set_solver.
Qed.

(** The schemas whose declared names are pairwise distinct, as protobuf guarantees. *)
Definition distinct_names s : Prop :=
  ∀ id ss, sn_schemas s !! id = Some ss → NoDup (schemaNames ss).

Lemma visitSchema_rep s ix pre id :
  distinct_names s → is_Some (sn_schemas s !! id) → id ∉ pre →
  ix_rep ix (owners s pre) → ix_rep (visitSchema s ix id) (owners s (pre ++ [id])).
Proof.
  intros Hd [ss Hss] Hid Hix. unfold visitSchema. rewrite Hss.
  pose proof (visitNames_rep id ix (owners s pre) (schemaNames ss) (Hd _ _ Hss) Hix) as Hv.
  intros n. edestruct Hv as [Hi Hc].
  { intros k _ [_ Hk]%list_elem_of_filter. done. }
  rewrite Hi, Hc. unfold owners. rewrite filter_app.
  destruct (decide (n ∈ schemaNames ss)).
  - rewrite filter_cons_True by (unfold declares; by rewrite Hss). by rewrite filter_nil.
  - rewrite filter_cons_False by (unfold declares; by rewrite Hss).
    by rewrite filter_nil, app_nil_r.
Qed.

Lemma visitSchemas_rep s pre ids ix :
  distinct_names s → NoDup (pre ++ ids) → (∀ id, id ∈ ids → is_Some (sn_schemas s !! id)) →
  ix_rep ix (owners s pre) →
  ix_rep (fold_left (visitSchema s) ids ix) (owners s (pre ++ ids)).
Proof.
  intros Hd. revert pre ix. induction ids as [|id ids IH]; intros pre ix Hnd Hids Hix; cbn.
  { by rewrite app_nil_r. }
  replace (pre ++ id :: ids)%list with ((pre ++ [id]) ++ ids)%list in * by by rewrite <-app_assoc.
  apply IH; [done|intros ? ?; apply Hids; by right|]. apply visitSchema_rep; [done| |..|done].
  - apply Hids. left.
  - rewrite <-app_assoc in Hnd. apply NoDup_app in Hnd as (_ & Hx & _).
    intros Hin. apply (Hx _ Hin). left.
Qed.

Lemma indexed s : distinct_names s → sn_nameIndex s = ∅ →
  ix_rep (fold_left (visitSchema s) (sortedIDs s)
            {| ix_index := sn_nameIndex s; ix_conflicts := ∅ |}) (owners s (sortedIDs s)).
Proof.
  intros Hd He. apply (visitSchemas_rep s [] (sortedIDs s)); [done|apply sortedIDs_NoDup| |].
  - intros id. apply sortedIDs_elem.
  - intros n. cbn. by rewrite He, !lookup_empty.
Qed.

Lemma elem_of_owners s n id : id ∈ owners s (sortedIDs s) n ↔ declares s n id.
Proof.
  unfold owners. rewrite list_elem_of_filter, sortedIDs_elem. unfold declares.
  split; [tauto|]. destruct (sn_schemas s !! id); [eauto|done].
Qed.

Lemma owners_NoDup s n : NoDup (owners s (sortedIDs s) n).
Proof. apply NoDup_filter, sortedIDs_NoDup. Qed.

Lemma owners_unique s n id id' :
  match owners s (sortedIDs s) n with _ :: _ :: _ => False | _ => True end →
  declares s n id → declares s n id' → id = id'.
Proof.
  rewrite <-!elem_of_owners. destruct (owners _ _ _) as [|x [|y l]]; [set_solver..|done].
Qed.

(** [buildNameIndex] succeeds exactly when no name is declared by two schemas. *)
Lemma buildNameIndex_ok s : distinct_names s → sn_nameIndex s = ∅ →
  (buildNameIndex s).1 = Ok tt ↔
  ∀ n id id', declares s n id → declares s n id' → id = id'.
Proof.
  intros Hd He. pose proof (indexed s Hd He) as Hix. unfold buildNameIndex. cbn.
  set (ix := fold_left _ _ _) in *. case_decide as Hc; (split; [|]); try done.
  - intros _ n id id'. apply owners_unique. destruct (Hix n) as [_ Hn].
    rewrite Hc, lookup_empty in Hn. by destruct (owners _ _ _) as [|? [|? ?]].
  - intros Hu. destruct Hc. apply map_eq. intros n. rewrite lookup_empty.
    destruct (Hix n) as [_ ->]. pose proof (owners_NoDup s n) as Hnd.
    destruct (owners s (sortedIDs s) n) as [|x [|y l]] eqn:E; [done..|].
    assert (x = y) as ->.
    { apply (Hu n); apply elem_of_owners; rewrite E; [left|right; left]. }
    apply NoDup_cons in Hnd as [Hy _]. destruct Hy. left.
Qed.

Lemma buildNameIndex_err s e : distinct_names s → sn_nameIndex s = ∅ →
  (buildNameIndex s).1 = Err e → ∃ n id id', id ≠ id' ∧ declares s n id ∧ declares s n id'.
Proof.
  intros Hd He. pose proof (indexed s Hd He) as Hix. unfold buildNameIndex. cbn.
  set (ix := fold_left _ _ _) in *. case_decide as Hc; [done|]. intros _.
  apply map_choose in Hc as (n & ids & Hn). exists n. destruct (Hix n) as [_ Hn'].
  rewrite Hn' in Hn. pose proof (owners_NoDup s n) as Hnd.
  destruct (owners s (sortedIDs s) n) as [|x [|y l]] eqn:E; [done..|]. exists x, y.
  rewrite <-!elem_of_owners, E. apply NoDup_cons in Hnd as [Hx _]. split_and!.
  - intros ->. apply Hx. left.
  - left.
  - right. left.
Qed.

Lemma buildNameIndex_index s n : distinct_names s → sn_nameIndex s = ∅ →
  sn_nameIndex (buildNameIndex s).2 !! n = head (owners s (sortedIDs s) n).
Proof. intros Hd He. apply (indexed s Hd He n). Qed.

Lemma buildNameIndex_lookup s n id : distinct_names s → sn_nameIndex s = ∅ →
  (buildNameIndex s).1 = Ok tt →
  sn_nameIndex (buildNameIndex s).2 !! n = Some id ↔ declares s n id.
Proof.
  intros Hd He Hok. rewrite buildNameIndex_index by done.
  rewrite (buildNameIndex_ok s Hd He) in Hok. split.
  - intros Hh. apply elem_of_owners. destruct (owners _ _ _); [done|]. cbn in Hh.
    injection Hh as ->. left.
  - intros Hdn. destruct (owners s (sortedIDs s) n) as [|x l] eqn:E.
    + apply elem_of_owners in Hdn. rewrite E in Hdn. by apply elem_of_nil in Hdn.
    + cbn. f_equal. apply (Hok n); [|done]. apply elem_of_owners. rewrite E. left.
Qed.

(** C25. The error lists every name two schemas declare, with all the schemas that declare it,
    in sorted order. *)
Theorem buildNameIndex_exact s :
  distinct_names s → sn_nameIndex s = ∅ →
  let '(x, s') := buildNameIndex s in
  sn_schemas s' = sn_schemas s ∧
  match x with
  | Ok _ => ∀ n id, sn_nameIndex s' !! n = Some id ↔ declares s n id
  | Err e => ∃ conflicts, e = ErrNew (collisionText conflicts) ∧ conflicts ≠ ∅ ∧
      ∀ n ids, conflicts !! n = Some ids ↔
               (2 ≤ length ids)%nat ∧ ids = filter (declares s n) (sortedIDs s)
  end.
Proof.
  intros Hd He. pose proof (buildNameIndex_lookup s) as Hlk. unfold buildNameIndex in *.
  cbv zeta in *. split; [done|]. case_decide as Hc; [by intros n id; apply Hlk|].
  eexists. split; [done|]. split; [done|]. intros n ids.
  destruct (indexed s Hd He n) as [_ ->]. fold (owners s (sortedIDs s) n).
  destruct (owners s (sortedIDs s) n) as [|x [|y l]]; (split; [|]).
  - intros [=].
  - intros [Hl ->]. cbn in Hl. lia.
  - intros [=].
  - intros [Hl ->]. cbn in Hl. lia.
  - intros [= <-]. cbn. split; [lia|done].
  - by intros [_ ->].
Qed.
End name_index.
