(* ===== verification/ClientAggregate.v ===== *)
(** * The aggregate registries of the client refine a set of files

    [agg_rep p L] says that the pair of registries [p] holds exactly the files [L] and the
    types they declare. Folding a schema into the aggregate adds its files to [L], taking
    it out by its fingerprint removes them. *)

From S2P Require Import Prelude GoProg GoStrings Descriptor Protobuf NsFiles NsTypes.
From S2P Require Import NsFilesThms NsTypesThms ClientSnapshot.
From stdpp Require Import prelude gmap strings list sorting.

Open Scope string_scope.
Open Scope list_scope.

(** ** The types a file declares *)

Fixpoint messageTypes (msg : MessageDescriptor) : list RtType :=
  TMessage msg ::
  (flat_map messageTypes (msg_Messages msg) ++
   (TEnum <$> msg_Enums msg) ++ (TExtension <$> msg_Extensions msg)).

Definition fileTypes (fd : FileDescriptor) : list RtType :=
  flat_map messageTypes (file_Messages fd) ++
  (TEnum <$> file_Enums fd) ++ (TExtension <$> file_Extensions fd).

(** The extended message and field number of an extension. *)
Definition ext_key (xd : FieldDescriptor) : string * Z :=
  (fld_ContainingMessage xd, fld_Number xd).
Definition type_ext_key (t : RtType) : option (string * Z) :=
  match t with TExtension xd => Some (ext_key xd) | _ => None end.

(** Names and extension numbers are used once. *)
Definition distinct_types (ts : list RtType) : Prop :=
  NoDup (rt_FullName <$> ts) ∧ NoDup (omap type_ext_key ts).

(** The names of the types of one kind. *)
Definition names_of (P : RtType → bool) (ts : list RtType) : list string :=
  omap (λ t, if P t then Some (rt_FullName t) else None) ts.

Lemma names_of_app P ts us : names_of P (ts ++ us) = names_of P ts ++ names_of P us.
Proof. apply omap_app. Qed.

Lemma M_bind_ext {S A B} (m m' : M S A) (f f' : A → M S B) s :
  (∀ s, m s = m' s) → (∀ a s, f a s = f' a s) → (m ≫= f) s = (m' ≫= f') s.
Proof.
  intros Hm Hf. unfold mbind, M_bind. rewrite Hm. destruct (m' s) as [[] ?]; [apply Hf|done].
Qed.

Lemma forM_app {S A} (f : A → M S unit) l k s :
  forM_ (l ++ k) f s = (forM_ l f ;; forM_ k f) s.
Proof.
  revert s. induction l as [|x l IH]; intros s; cbn; [done|].
  unfold mbind, M_bind. destruct (f x s) as [[] s1]; [|done]. by rewrite IH.
Qed.

Lemma forM_fmap {S A B} (f : B → M S unit) (g : A → B) l s :
  forM_ (g <$> l) f s = forM_ l (λ x, f (g x)) s.
Proof.
  revert s. induction l as [|x l IH]; intros s; cbn; [done|].
  unfold mbind, M_bind. destruct (f (g x) s) as [[] s1]; [apply IH|done].
Qed.

Lemma forM_flat_map {S A B} (f : B → M S unit) (g : A → list B) (h : A → M S unit) l s :
  (∀ x s, x ∈ l → h x s = forM_ (g x) f s) →
  forM_ (flat_map g l) f s = forM_ l h s.
Proof.
  revert s. induction l as [|x l IH]; intros s Hl; cbn; [done|].
  rewrite forM_app. unfold mbind, M_bind. rewrite (Hl x) by left.
  destruct (forM_ (g x) f s) as [[] s1]; [|done]. apply IH. intros y ? ?. apply Hl. by right.
Qed.

Section types.
Context `{ProtoTypes, GoRange}.
Implicit Types (r : NamespacedTypes) (t : RtType).

Definition regType (t : RtType) : M NamespacedTypes unit := λ r,
  match t with
  | TMessage md => RegisterMessage r md
  | TEnum ed => RegisterEnum r ed
  | TExtension xd => RegisterExtension r xd
  end.
Definition updType (t : RtType) : M NamespacedTypes unit := λ r,
  match t with
  | TMessage md => UpdateMessage r md
  | TEnum ed => UpdateEnum r ed
  | TExtension xd => UpdateExtension r xd
  end.
Definition unregType (t : RtType) : M NamespacedTypes unit := λ r,
  match t with
  | TMessage md => UnregisterMessage r (msg_FullName md)
  | TEnum ed => UnregisterEnum r (en_FullName ed)
  | TExtension xd => UnregisterExtension r (fld_FullName xd)
  end.

(** The walks of the client are loops over the list of types. *)
Lemma nested_forM {A S} (f : A → M S unit) l s :
  (fix nested ms := match ms with [] => mret tt | m :: ms => f m ;; nested ms end) l s
  = forM_ l f s.
Proof.
  revert s. induction l as [|x l IH]; intros s; cbn; [done|].
  unfold mbind, M_bind. destruct (f x s) as [[] ?]; [apply IH|done].
Qed.

Lemma walk_types (f : RtType → M NamespacedTypes unit) (walk : MessageDescriptor → M NamespacedTypes unit) :
  (∀ msg s, walk msg s =
     (f (TMessage msg) ;; forM_ (msg_Messages msg) walk ;;
      forM_ (msg_Enums msg) (λ ed, f (TEnum ed)) ;;
      forM_ (msg_Extensions msg) (λ xd, f (TExtension xd))) s) →
  ∀ msg s, walk msg s = forM_ (messageTypes msg) f s.
Proof.
  intros Hw msg. induction msg as [n fn fs os es ms xs IH] using message_ind. intros s.
  rewrite Hw. cbn. unfold mbind, M_bind. destruct (f _ s) as [[] s1]; [|done].
  rewrite forM_app. unfold mbind, M_bind. rewrite (forM_flat_map f messageTypes walk).
  2: { intros x s2 Hx. rewrite Forall_forall in IH. by apply IH. }
  destruct (forM_ ms walk s1) as [[] s2]; [|done].
  rewrite forM_app. unfold mbind, M_bind. rewrite forM_fmap.
  destruct (forM_ es _ s2) as [[] s3]; [|done]. by rewrite forM_fmap.
Qed.

Lemma walk_file (f : RtType → M NamespacedTypes unit) walk fd s :
  (∀ msg s, walk msg s = forM_ (messageTypes msg) f s) →
  (forM_ (file_Messages fd) walk ;; forM_ (file_Enums fd) (λ ed, f (TEnum ed)) ;;
   forM_ (file_Extensions fd) (λ xd, f (TExtension xd))) s = forM_ (fileTypes fd) f s.
Proof.
  intros Hw. unfold fileTypes. rewrite forM_app. unfold mbind, M_bind.
  rewrite (forM_flat_map f messageTypes walk) by done. destruct (forM_ _ walk s) as [[] s1]; [|done].
  rewrite forM_app. unfold mbind, M_bind. rewrite forM_fmap.
  destruct (forM_ _ _ s1) as [[] s2]; [|done]. by rewrite forM_fmap.
Qed.

Lemma registerFileTypes_all fd s : registerFileTypes fd s = forM_ (fileTypes fd) regType s.
Proof.
  apply (walk_file regType). intros msg. apply (walk_types regType). clear. intros msg s.
  destruct msg as [n fn fs os es ms xs]. cbn [registerMessageTypes].
  apply M_bind_ext; [done|intros _ s1]. apply M_bind_ext; [intros; apply nested_forM|done].
Qed.

Lemma registerFileTypesUpdate_all fd s :
  registerFileTypesUpdate fd s = forM_ (fileTypes fd) updType s.
Proof.
  apply (walk_file updType). intros msg. apply (walk_types updType). clear. intros msg s.
  destruct msg as [n fn fs os es ms xs]. cbn [registerMessageTypesUpdate].
  apply M_bind_ext; [done|intros _ s1]. apply M_bind_ext; [intros; apply nested_forM|done].
Qed.

(** ** A type registry holds exactly the types [L] *)
Record types_rep r (L : list RtType) : Prop := {
  tr_inv : types_inv r;
  tr_types n t : nt_typesByName r !! n = Some t ↔ t ∈ L ∧ rt_FullName t = n }.

#[global] Instance types_rep_perm r : Proper ((≡ₚ) ==> iff) (types_rep r).
Proof.
  intros L L' HL. split; intros [Hi Ht]; split; try done; intros n t; rewrite Ht;
    by rewrite HL.
Qed.

Lemma types_rep_new : types_rep NewNamespacedTypes [].
Proof. split; [apply types_inv_new|]. intros n t. cbn. rewrite lookup_empty. set_solver. Qed.

Lemma types_rep_fresh r L n :
  types_rep r L → n ∉ rt_FullName <$> L → nt_typesByName r !! n = None.
Proof.
  intros [_ Ht] Hn. destruct (nt_typesByName r !! n) as [t|] eqn:E; [|done].
  apply Ht in E as [HL <-]. destruct Hn. by apply list_elem_of_fmap_2.
Qed.

Lemma types_rep_insert r r' L t :
  types_rep r L → rt_FullName t ∉ rt_FullName <$> L → types_inv r' →
  nt_typesByName r' = <[rt_FullName t := t]> (nt_typesByName r) → types_rep r' (t :: L).
Proof.
  intros Hr Hf Hi E. split; [done|]. intros n u.
  rewrite E, lookup_insert_Some, (tr_types _ _ Hr), elem_of_cons. split.
  - intros [[<- <-]|[_ [? ?]]]; auto.
  - intros [[->|Hu] <-]; [by left|right]. split; [|done]. intros En. apply Hf. rewrite En.
    by apply list_elem_of_fmap_2.
Qed.

Lemma types_rep_free_ext r L xd :
  types_rep r L → ext_key xd ∉ omap type_ext_key L →
  extension_at r (fld_ContainingMessage xd) (fld_Number xd) = None.
Proof.
  intros [Hi Ht] Hx. destruct (extension_at r _ _) as [old|] eqn:E; [|done].
  apply (ti_index _ Hi) in E as (Ho & Hm & Hn). apply Ht in Ho as [HL _].
  destruct Hx. apply list_elem_of_omap. exists (TExtension old). split; [done|]. cbn.
  unfold ext_key. by rewrite Hm, Hn.
Qed.

Lemma updType_rep r L t :
  types_rep r L → distinct_types (t :: L) →
  ∃ r', updType t r = (Ok tt, r') ∧ types_rep r' (t :: L).
Proof.
  intros Hr [Hn Hx]. pose proof (tr_inv _ _ Hr) as Hi. pose proof (ti_local _ Hi) as Hg.
  cbn in Hn. apply NoDup_cons in Hn as [Hn _].
  pose proof (types_rep_fresh r L _ Hr Hn) as Hnone.
  destruct t as [md|ed|xd]; eexists; (split; [cbn; unfold UpdateMessage, UpdateEnum,
    UpdateExtension, isGlobalWrapperT; by rewrite Hg|]).
  - eapply types_rep_insert; [done..| |done].
    pose proof (update_message_inv r md) as Hu. unfold UpdateMessage, isGlobalWrapperT in Hu.
    rewrite Hg in Hu. cbn in *. rewrite Hnone in *. by apply Hu.
  - eapply types_rep_insert; [done..| |done].
    pose proof (update_enum_inv r ed) as Hu. unfold UpdateEnum, isGlobalWrapperT in Hu.
    rewrite Hg in Hu. cbn in *. rewrite Hnone in *. by apply Hu.
  - eapply types_rep_insert; [done..| |done].
    pose proof (update_extension_inv r xd) as Hu. unfold UpdateExtension, isGlobalWrapperT in Hu.
    rewrite Hg in Hu. cbn in *. rewrite Hnone in *. apply Hu; [|done].
    apply NoDup_cons in Hx as [Hx _]. by eapply types_rep_free_ext.
Qed.

Lemma updTypes_rep r L ts :
  types_rep r L → distinct_types (ts ++ L) →
  ∃ r', forM_ ts updType r = (Ok tt, r') ∧ types_rep r' (ts ++ L).
Proof.
  revert r L. induction ts as [|t ts IH]; intros r L Hr Hd; [by exists r|].
  assert (Hd' : distinct_types (ts ++ t :: L)).
  { destruct Hd as [Hn Hx]. split.
    - by rewrite <-Permutation_middle.
    - by rewrite <-Permutation_middle. }
  destruct (updType_rep r L t) as (r1 & E & Hr1); [done| |].
  { destruct Hd' as [Hn Hx]. rewrite fmap_app in Hn. rewrite omap_app in Hx.
    apply NoDup_app in Hn as (_ & _ & Hn). apply NoDup_app in Hx as (_ & _ & Hx). by split. }
  destruct (IH _ _ Hr1 Hd') as (r2 & E2 & Hr2). exists r2. cbn. unfold mbind, M_bind.
  rewrite E. split; [done|]. by rewrite Permutation_middle.
Qed.

(** Registration checks what [updTypes_rep] assumes. *)
Lemma regType_rep r L t r' :
  types_rep r L → regType t r = (Ok tt, r') → types_rep r' (t :: L).
Proof.
  intros Hr E. pose proof (tr_inv _ _ Hr) as Hi. pose proof (ti_local _ Hi) as Hg.
  assert (Hn : nt_typesByName r !! rt_FullName t = None ∧ types_inv r' ∧
    nt_typesByName r' = <[rt_FullName t := t]> (nt_typesByName r)).
  { destruct (step_register_inv r Hi) as (Hm & He & Hx).
    destruct t as [md|ed|xd]; cbn in *; [specialize (Hm md)|specialize (He ed)|specialize (Hx xd)];
      unfold RegisterMessage, RegisterEnum, RegisterExtension, isGlobalWrapperT in *;
      rewrite Hg in *; repeat case_match; simplify_eq/=; done. }
  destruct Hn as (Hn & Hi' & E'). eapply types_rep_insert; [done| |done|done].
  intros (u & Hu & Hin)%list_elem_of_fmap.
  assert (nt_typesByName r !! rt_FullName u = Some u) by (by apply (tr_types _ _ Hr)). congruence.
Qed.

Lemma regTypes_rep r L ts r' :
  types_rep r L → forM_ ts regType r = (Ok tt, r') → types_rep r' (ts ++ L).
Proof.
  revert r L. induction ts as [|t ts IH]; intros r L Hr E; cbn in *.
  { by injection E as <-. }
  apply M_bind_Ok in E as ([] & r1 & E1 & E2). eapply regType_rep in E1; [|done].
  eapply IH in E2; [|done]. by rewrite Permutation_middle.
Qed.

Lemma unregType_rep r L t K :
  types_rep r L → NoDup (rt_FullName <$> L) → L ≡ₚ t :: K →
  ∃ r', unregType t r = (Ok tt, r') ∧ types_rep r' K.
Proof.
  intros Hr Hnd HL. pose proof (tr_inv _ _ Hr) as Hi. pose proof (ti_local _ Hi) as Hg.
  assert (Ht : nt_typesByName r !! rt_FullName t = Some t).
  { apply (tr_types _ _ Hr). split; [|done]. rewrite HL. left. }
  assert (∃ r', unregType t r = (Ok tt, r') ∧ types_inv r' ∧
    nt_typesByName r' = delete (rt_FullName t) (nt_typesByName r)) as (r' & E & Hi' & Hdel).
  { destruct (step_unregister_inv r (rt_FullName t) Hi) as (Hm & He & Hx).
    destruct t as [md|ed|xd]; cbn in *;
      unfold UnregisterMessage, UnregisterEnum, UnregisterExtension, isGlobalWrapperT in *;
      rewrite Hg, Ht in *; eexists; (split; [done|]); done. }
  exists r'. split; [done|]. split; [done|]. intros n u.
  rewrite Hdel, lookup_delete_Some, (tr_types _ _ Hr), HL, elem_of_cons.
  rewrite HL in Hnd. apply NoDup_cons in Hnd as [Hnt _]. split.
  - intros (Hne & [->|?] & <-); [done|done].
  - intros [Hu <-]. split_and!; [|by right|done]. intros En. apply Hnt. rewrite En.
    by apply list_elem_of_fmap_2.
Qed.

Lemma unregTypes_rep r L ts K :
  types_rep r L → NoDup (rt_FullName <$> L) → L ≡ₚ (ts ++ K) →
  ∃ r', forM_ ts unregType r = (Ok tt, r') ∧ types_rep r' K.
Proof.
  revert r L. induction ts as [|t ts IH]; intros r L Hr Hnd HL.
  { exists r. split; [done|]. by rewrite HL in Hr. }
  destruct (unregType_rep r L t (ts ++ K)) as (r1 & E & Hr1); [done..|].
  destruct (IH r1 (ts ++ K) Hr1) as (r2 & E2 & Hr2); [|done|].
  { rewrite HL in Hnd. by apply NoDup_cons in Hnd as [_ ?]. }
  exists r2. cbn. unfold mbind, M_bind. by rewrite E.
Qed.
End types.

(** ** The pair of registries holds exactly the files [L] and their types *)

Definition filesMap (L : list FileDescriptor) : gmap string FileDescriptor :=
  list_to_map ((λ f, (file_Path f, f)) <$> L).

Lemma filesMap_fst L : ((λ f, (file_Path f, f)) <$> L).*1 = file_Path <$> L.
Proof. rewrite <-list_fmap_compose. by apply list_fmap_ext. Qed.

Lemma lookup_filesMap L p f :
  NoDup (file_Path <$> L) → filesMap L !! p = Some f ↔ f ∈ L ∧ file_Path f = p.
Proof.
  intros Hnd. unfold filesMap. rewrite <-elem_of_list_to_map by by rewrite filesMap_fst.
  rewrite list_elem_of_fmap. naive_solver.
Qed.

Lemma filesMap_perm L L' : NoDup (file_Path <$> L) → L ≡ₚ L' → filesMap L = filesMap L'.
Proof.
  intros Hnd HL. apply list_to_map_proper; [by rewrite filesMap_fst|by rewrite HL].
Qed.

Lemma filesMap_cons f L : filesMap (f :: L) = <[file_Path f := f]> (filesMap L).
Proof. done. Qed.

Lemma filesMap_delete f L :
  NoDup (file_Path <$> f :: L) → delete (file_Path f) (filesMap (f :: L)) = filesMap L.
Proof.
  intros Hnd. rewrite filesMap_cons. apply NoDup_cons in Hnd as [Hf _].
  rewrite delete_insert_id; [done|]. apply not_elem_of_list_to_map_1. by rewrite filesMap_fst.
Qed.

Section aggregate.
Context `{Protoreflect, ProtoTypes, Protodesc, GoRange}.
Implicit Types (p : regPair) (L K : list FileDescriptor) (ss : schemaSnapshot).

(** No top-level name of [f] is one of [g], or its package or an enclosing package. *)
Definition apart (f g : FileDescriptor) : Prop :=
  ∀ n, n ∈ topLevelNames f → n ∉ topLevelNames g ∧ n ∉ pkgChain (file_Package g).

(** Files that can live in one registry: one file per path, no two of them declare the
    same name or extension number, and no name is the package of another file. *)
Record coherent L : Prop := {
  co_paths : NoDup (file_Path <$> L);
  co_files f : f ∈ L → registrable f;
  co_types : distinct_types (flat_map fileTypes L);
  co_apart f g : f ∈ L → g ∈ L → file_Path f ≠ file_Path g → apart f g }.

#[global] Instance coherent_perm : Proper ((≡ₚ) ==> iff) coherent.
Proof.
  intros L L' HL. split; intros [Hp Hf [Hn Hx] Ha]; split.
  - by rewrite <-HL.
  - intros f. rewrite <-HL. apply Hf.
  - split; by rewrite <-HL.
  - intros f g. rewrite <-HL. apply Ha.
  - by rewrite HL.
  - intros f. rewrite HL. apply Hf.
  - split; by rewrite HL.
  - intros f g. rewrite HL. apply Ha.
Qed.

Lemma coherent_app_r L K : coherent (L ++ K) → coherent K.
Proof.
  intros [Hp Hf [Hn Hx] Ha]. rewrite flat_map_app in Hn, Hx. 
  rewrite fmap_app in Hp. rewrite fmap_app in Hn.
  rewrite omap_app in Hx. split.
  - by apply NoDup_app in Hp as (_ & _ & ?).
  - intros f Hin. apply Hf, elem_of_app. by right.
  - split; [by apply NoDup_app in Hn as (_ & _ & ?)|by apply NoDup_app in Hx as (_ & _ & ?)].
  - intros f g ? ?. apply Ha; apply elem_of_app; by right.
Qed.

Lemma coherent_app_l L K : coherent (L ++ K) → coherent L.
Proof. rewrite (Permutation_app_comm L K). apply coherent_app_r. Qed.

Record agg_rep p L : Prop := {
  ar_files : files_rep (rg_files p) (filesMap L);
  ar_types : types_rep (rg_types p) (flat_map fileTypes L) }.

Lemma agg_rep_perm p L L' :
  NoDup (file_Path <$> L) → L ≡ₚ L' → agg_rep p L → agg_rep p L'.
Proof.
  intros Hnd HL [Hf Ht]. split.
  - by rewrite <-(filesMap_perm L L').
  - by rewrite <-HL.
Qed.

Lemma agg_rep_new :
  agg_rep {| rg_files := NewNamespacedFiles; rg_types := NewNamespacedTypes |} [].
Proof. split; [apply files_rep_new|apply types_rep_new]. Qed.

Lemma coherent_upsertable f L : coherent (f :: L) → upsertable (filesMap L) f.
Proof.
  intros Hc q g Hg Hq. pose proof (co_paths _ Hc) as Hp. cbn in Hp.
  apply NoDup_cons in Hp as [Hf Hp]. apply lookup_filesMap in Hg as [Hg <-]; [|done].
  assert (Hfg : apart f g) by (apply (co_apart _ Hc); [left|by right|congruence]).
  assert (Hgf : apart g f) by (apply (co_apart _ Hc); [by right|left|done]).
  split.
  - intros n Hn. destruct (Hfg n Hn) as [? Hch]. split; [done|]. intros ->.
    apply Hch, pkgChain_self. intros E. rewrite E in Hn.
    by destruct (proj2 (co_files _ Hc f ltac:(left)) _ Hn).
  - intros Hn. destruct (Hgf _ Hn) as [_ Hch]. apply Hch, pkgChain_self. intros E. rewrite E in Hn.
    by destruct (proj2 (co_files _ Hc g ltac:(by right)) _ Hn).
Qed.

(** One file of a schema is folded in. *)
Lemma apply_file c1 c2 p f L :
  agg_rep p L → coherent (f :: L) →
  ∃ p', (wrapP c1 (on_files (λ r, UpdateFile r f)) ;;
         wrapP c2 (on_types (registerFileTypesUpdate f))) p = Returns (Ok tt, p') ∧
        agg_rep p' (f :: L).
Proof.
  intros [Hf Ht] Hc.
  destruct (UpdateFile_refines (rg_files p) (filesMap L) f) as (r' & Er & Hr');
    [done|apply (co_files _ Hc); left|by apply coherent_upsertable|].
  destruct (updTypes_rep (rg_types p) (flat_map fileTypes L) (fileTypes f)) as (t' & Et & Ht');
    [done|apply (co_types _ Hc)|].
  exists {| rg_files := r'; rg_types := t' |}. split; [|by split].
  unfold mbind, Prog_bind, wrapP, on_files, zoom. rewrite Er. cbn.
  unfold on_types, zoom, liftM. cbn. by rewrite registerFileTypesUpdate_all, Et.
Qed.

Lemma applyToAggregate_rep p ss L :
  agg_rep p L → coherent (schemaFiles ss ++ L) →
  ∃ p', applyToAggregate ss p = Returns (Ok tt, p') ∧ agg_rep p' (schemaFiles ss ++ L).
Proof.
  unfold applyToAggregate. revert p L. induction (schemaFiles ss) as [|f fs IH]; intros p L Hp Hc.
  { by exists p. }
  assert (Hc' : coherent (fs ++ f :: L)) by by rewrite <-Permutation_middle.
  destruct (apply_file
    ("aggregating file " +:+ file_Path f +:+ " from schema " +:+ ss_schemaID ss)
    ("aggregating types from " +:+ file_Path f +:+ " in schema " +:+ ss_schemaID ss) p f L)
    as (p1 & E1 & Hp1); [done|by apply coherent_app_r in Hc'|].
  destruct (IH p1 (f :: L)) as (p2 & E2 & Hp2); [done..|].
  exists p2. cbn [forP_]. unfold mbind at 1, Prog_bind at 1. rewrite E1. split; [done|].
  eapply agg_rep_perm; [apply (co_paths _ Hc')|symmetry; apply Permutation_middle|done].
Qed.

(** ** Removal by fingerprint *)

(** The fingerprint of the files [fs], visited in this order. *)
Definition fingerprint_of (fs : list FileDescriptor) : aggFingerprint :=
  fold_left collect fs fp_empty.

(** A fingerprint extended by the types [ts]. *)
Definition fp_extends (fp fp' : aggFingerprint) (ts : list RtType) : Prop :=
  fp_filePaths fp' = fp_filePaths fp ∧
  fp_messages fp' = fp_messages fp ++ names_of is_message ts ∧
  fp_enums fp' = fp_enums fp ++ names_of is_enum ts ∧
  fp_extensions fp' = fp_extensions fp ++ names_of is_extension ts.

Lemma fp_extends_trans fp1 fp2 fp3 ts us :
  fp_extends fp1 fp2 ts → fp_extends fp2 fp3 us → fp_extends fp1 fp3 (ts ++ us).
Proof.
  intros (E1 & E2 & E3 & E4) (F1 & F2 & F3 & F4). unfold fp_extends.
  rewrite F1, F2, F3, F4, E1, E2, E3, E4, !names_of_app, !app_assoc. done.
Qed.

Lemma fp_extends_fold {A} (add : aggFingerprint → A → aggFingerprint) (g : A → list RtType) l fp :
  (∀ fp x, x ∈ l → fp_extends fp (add fp x) (g x)) →
  fp_extends fp (fold_left add l fp) (flat_map g l).
Proof.
  revert fp. induction l as [|x l IH]; intros fp Hl; cbn.
  { unfold fp_extends, names_of. cbn. by rewrite !app_nil_r. }
  eapply fp_extends_trans; [apply Hl; left|]. apply IH. intros ? y ?. apply Hl. by right.
Qed.

Lemma fp_extends_singletons {A} (add : aggFingerprint → A → aggFingerprint) (g : A → RtType) l fp :
  (∀ fp x, fp_extends fp (add fp x) [g x]) → fp_extends fp (fold_left add l fp) (g <$> l).
Proof.
  intros Hl. replace (g <$> l) with (flat_map (λ x, [g x]) l).
  - by apply fp_extends_fold.
  - clear. induction l as [|x l IH]; cbn; [done|]. by rewrite IH.
Qed.

Ltac fp_one := intros; unfold fp_extends, names_of; cbn; by rewrite ?app_nil_r.

Lemma collectMessage_extends msg fp : fp_extends fp (collectMessage fp msg) (messageTypes msg).
Proof.
  revert fp. induction msg as [n fn fs os es ms xs IH] using message_ind. intros fp.
  cbn [collectMessage messageTypes].
  eapply (fp_extends_trans _ (fp_add_message fp fn) _ [TMessage (Message n fn fs os es ms xs)]);
    [fp_one|].
  eapply fp_extends_trans.
  { apply (fp_extends_fold collectMessage). intros fp' x Hx. rewrite Forall_forall in IH. by apply IH. }
  eapply fp_extends_trans; apply fp_extends_singletons; fp_one.
Qed.

Lemma collect_extends fp fd :
  fp_extends (fp_add_path fp (file_Path fd)) (collect fp fd) (fileTypes fd).
Proof.
  unfold collect, fileTypes.
  eapply fp_extends_trans.
  { apply (fp_extends_fold collectMessage). intros; apply collectMessage_extends. }
  eapply fp_extends_trans; apply fp_extends_singletons; fp_one.
Qed.

Lemma fingerprint_fold fs fp :
  fp_filePaths (fold_left collect fs fp) = fp_filePaths fp ++ (file_Path <$> fs) ∧
  fp_messages (fold_left collect fs fp) = fp_messages fp ++ names_of is_message (flat_map fileTypes fs) ∧
  fp_enums (fold_left collect fs fp) = fp_enums fp ++ names_of is_enum (flat_map fileTypes fs) ∧
  fp_extensions (fold_left collect fs fp)
    = fp_extensions fp ++ names_of is_extension (flat_map fileTypes fs).
Proof.
  revert fp. induction fs as [|f fs IH]; intros fp; cbn [fold_left flat_map].
  { unfold names_of. cbn. by rewrite !app_nil_r. }
  destruct (collect_extends fp f) as (E1 & E2 & E3 & E4).
  destruct (IH (collect fp f)) as (-> & -> & -> & ->).
  rewrite E1, E2, E3, E4, !names_of_app. cbn. by rewrite <-!app_assoc.
Qed.

Lemma fingerprint_of_spec fs :
  fp_filePaths (fingerprint_of fs) = file_Path <$> fs ∧
  fp_messages (fingerprint_of fs) = names_of is_message (flat_map fileTypes fs) ∧
  fp_enums (fingerprint_of fs) = names_of is_enum (flat_map fileTypes fs) ∧
  fp_extensions (fingerprint_of fs) = names_of is_extension (flat_map fileTypes fs).
Proof. apply (fingerprint_fold fs fp_empty). Qed.

(** A loop of calls on the type registry. *)
Lemma forP_types {A} (c : A → string) (f : A → M NamespacedTypes unit) l p t' :
  forM_ l f (rg_types p) = (Ok tt, t') →
  forP_ l (λ x, wrapP (c x) (on_types (f x))) p
    = Returns (Ok tt, {| rg_files := rg_files p; rg_types := t' |}).
Proof.
  destruct p as [r t]. cbn. revert t. induction l as [|x l IH]; intros t; cbn.
  { by intros [= ->]. }
  intros ([] & t1 & E1 & E2)%M_bind_Ok.
  unfold mbind, Prog_bind, wrapP, on_types, zoom, liftM. cbn. rewrite E1. by apply IH.
Qed.

Lemma unregister_files fs K p (c : string → string) :
  files_rep (rg_files p) (filesMap (fs ++ K)) → NoDup (file_Path <$> fs ++ K) →
  ∃ r', forP_ (file_Path <$> fs) (λ path, wrapP (c path) (on_files (λ r, UnregisterFile r path))) p
          = Returns (Ok tt, {| rg_files := r'; rg_types := rg_types p |}) ∧
        files_rep r' (filesMap K).
Proof.
  destruct p as [r t]. cbn [rg_files rg_types]. revert r.
  induction fs as [|f fs IH]; intros r Hr Hnd; [by exists r|].
  pose proof (UnregisterFile_refines r (filesMap (f :: fs ++ K)) (file_Path f) Hr) as Hu.
  rewrite (filesMap_cons f), lookup_insert_eq, <-filesMap_cons in Hu.
  destruct Hu as (r1 & E1 & Hr1). rewrite filesMap_delete in Hr1 by done.
  destruct (IH r1 Hr1) as (r2 & E2 & Hr2); [by apply NoDup_cons in Hnd as [_ ?]|].
  exists r2. split; [|done]. cbn [fmap list_fmap forP_]. unfold mbind at 1, Prog_bind at 1, wrapP at 1.
  unfold on_files at 1, zoom at 1. cbn. by rewrite E1.
Qed.

(** The names of one kind are unregistered. *)
Lemma forM_names_of (P : RtType → bool) (unreg : string → M NamespacedTypes unit) ts r :
  (∀ t s, P t = true → unreg (rt_FullName t) s = unregType t s) →
  forM_ (names_of P ts) unreg r = forM_ (filter (λ t, P t = true) ts) unregType r.
Proof.
  intros HP. revert r. induction ts as [|t ts IH]; intros r; [done|].
  unfold names_of in *. cbn. destruct (P t) eqn:E; cbn.
  - rewrite decide_True by done. cbn. unfold mbind, M_bind. rewrite HP by done.
    destruct (unregType t r) as [[] ?]; [apply IH|done].
  - rewrite decide_False by congruence. apply IH.
Qed.

Lemma kinds_perm (ts : list RtType) :
  ts ≡ₚ filter (λ t, is_message t = true) ts ++ filter (λ t, is_enum t = true) ts ++
         filter (λ t, is_extension t = true) ts.
Proof.
  induction ts as [|t ts IH]; [done|]. cbn. destruct t; cbn; rewrite IH at 1.
  - done.
  - by rewrite Permutation_middle.
  - by rewrite app_assoc, Permutation_middle, <-app_assoc.
Qed.

Lemma removeFromAggregate_rep p ss fs K :
  ss_aggFingerprint ss = fingerprint_of fs →
  agg_rep p (fs ++ K) → coherent (fs ++ K) →
  ∃ p', removeFromAggregate ss p = Returns (Ok tt, p') ∧ agg_rep p' K.
Proof.
  intros Hfp [Hf Ht] Hc. destruct (fingerprint_of_spec fs) as (E1 & E2 & E3 & E4).
  unfold removeFromAggregate. rewrite Hfp, E1, E2, E3, E4.
  destruct (unregister_files fs K p (λ path, "unregister file " +:+ path +:+
    (" (schema " +:+ ss_schemaID ss +:+ ")"))) as (r' & EF & Hr'); [done|apply (co_paths _ Hc)|].
  unfold mbind at 1, Prog_bind at 1. rewrite EF. clear EF.
  set (ts := flat_map fileTypes fs) in *. set (us := flat_map fileTypes K).
  set (ms := filter (λ t, is_message t = true) ts). set (es := filter (λ t, is_enum t = true) ts).
  set (xs := filter (λ t, is_extension t = true) ts).
  assert (HL : flat_map fileTypes (fs ++ K) ≡ₚ ms ++ es ++ xs ++ us).
  { rewrite flat_map_app. fold ts us. rewrite (kinds_perm ts) at 1. by rewrite <-!app_assoc. }
  pose proof (proj1 (co_types _ Hc)) as Hnd. rewrite HL in Ht, Hnd.
  destruct (unregTypes_rep (rg_types p) _ ms (es ++ xs ++ us) Ht Hnd) as (t1 & M1 & Ht1); [done|].
  rewrite fmap_app in Hnd. apply NoDup_app in Hnd as (_ & _ & Hnd).
  destruct (unregTypes_rep t1 _ es (xs ++ us) Ht1 Hnd) as (t2 & M2 & Ht2); [done|].
  rewrite fmap_app in Hnd. apply NoDup_app in Hnd as (_ & _ & Hnd).
  destruct (unregTypes_rep t2 _ xs us Ht2 Hnd) as (t3 & M3 & Ht3); [done|].
  exists {| rg_files := r'; rg_types := t3 |}. split; [|by split].
  unfold mbind, Prog_bind.
  rewrite (forP_types _ (λ name t, UnregisterMessage t name) (names_of is_message ts) _ t1).
  2: { by rewrite (forM_names_of is_message) by by intros []. }
  cbn [rg_files]. rewrite (forP_types _ (λ name t, UnregisterEnum t name) (names_of is_enum ts) _ t2).
  2: { by rewrite (forM_names_of is_enum) by by intros []. }
  cbn [rg_files].
  rewrite (forP_types _ (λ name t, UnregisterExtension t name) (names_of is_extension ts) _ t3).
  2: { by rewrite (forM_names_of is_extension) by by intros []. }
  done.
Qed.

(** ** Compiled schemas *)

(** What [protodesc.NewFiles] guarantees of the files it links: each is a valid file on
    its own. *)
Class ProtodescLaws : Prop := {
  NewFiles_registrable fds fs f :
    NewFiles fds = Ok fs → f ∈ Files_RangeFiles fs → registrable f;
  NewFiles_range_NoDup fs : NoDup (Files_RangeFiles fs) }.

(** A view holds exactly the files [fs], their types, and their fingerprint. *)
Record schema_rep ss (fs : list FileDescriptor) : Prop := {
  sr_agg : agg_rep {| rg_files := ss_files ss; rg_types := ss_types ss |} fs;
  sr_paths : NoDup (file_Path <$> fs);
  sr_fingerprint : ss_aggFingerprint ss = fingerprint_of fs }.

Lemma localFiles_rep r F : files_rep r F → localFiles r ≡ₚ (map_to_list F).*2.
Proof.
  intros Hr. unfold localFiles. rewrite go_range_perm, (fr_byPath _ _ Hr), map_to_list_fmap.
  rewrite <-list_fmap_compose. induction (map_to_list F) as [|[k f] l IH]; cbn; [done|].
  by rewrite IH.
Qed.

Lemma filesMap_to_list fs : NoDup (file_Path <$> fs) → (map_to_list (filesMap fs)).*2 ≡ₚ fs.
Proof.
  intros Hnd. unfold filesMap. rewrite map_to_list_to_map by by rewrite filesMap_fst.
  rewrite <-list_fmap_compose. by rewrite list_fmap_id.
Qed.

(** The walk over a compiled schema visits its files. *)
Lemma schemaFiles_rep ss fs : schema_rep ss fs → schemaFiles ss ≡ₚ fs.
Proof.
  intros [[Hf _] Hp _]. unfold schemaFiles. rewrite (localFiles_rep _ _ Hf).
  by apply filesMap_to_list.
Qed.

Lemma compileFile_rep f pre p fp fp' p' :
  agg_rep p pre → registrable f → compileFile fp f p = Returns (Ok fp', p') →
  fp' = collect fp f ∧ agg_rep p' (f :: pre).
Proof.
  intros [Hf Ht] Hreg (? & p1 & E1%wrapP_Ok & E2)%Prog_bind_Ok.
  apply Prog_bind_Ok in E2 as (? & p2 & E2%wrapP_Ok & E3). injection E3 as <- <-.
  split; [done|]. unfold on_files, on_types, zoom, liftM in *.
  destruct (RegisterFile_refines (rg_files p) (filesMap pre) f Hf Hreg) as (y & r' & Er & Hy).
  rewrite Er in E1. simplify_eq/=. destruct Hy as [_ Hr'].
  destruct (registerFileTypes f (rg_types p)) as [z t'] eqn:Et. simplify_eq/=.
  rewrite registerFileTypes_all in Et. destruct x0.
  split; [by rewrite filesMap_cons|]. by eapply regTypes_rep.
Qed.

Lemma compileFiles_rep fs pre p fp fp' p' :
  agg_rep p pre → NoDup (file_Path <$> fs ++ pre) → (∀ f, f ∈ fs → registrable f) →
  foldP compileFile fp fs p = Returns (Ok fp', p') →
  fp' = fold_left collect fs fp ∧ agg_rep p' (fs ++ pre).
Proof.
  revert pre p fp. induction fs as [|f fs IH]; intros pre p fp Hp Hnd Hreg E; cbn [foldP] in E.
  { by injection E as <- <-. }
  apply Prog_bind_Ok in E as (fp1 & p1 & E1 & E2).
  apply (compileFile_rep f pre) in E1 as [-> Hp1]; [|done|apply Hreg; left].
  apply (IH (f :: pre)) in E2 as [-> Hp'].
  - split; [done|]. eapply agg_rep_perm; [|symmetry; apply Permutation_middle|done].
    by rewrite <-Permutation_middle.
  - done.
  - by rewrite <-Permutation_middle.
  - intros g Hg. apply Hreg. by right.
Qed.

Lemma NoDup_paths fs `{!ProtoFilesLaws, !ProtodescLaws} :
  NoDup (file_Path <$> Files_RangeFiles fs).
Proof.
  apply NoDup_fmap_2_strong; [|apply NewFiles_range_NoDup].
  intros f g Hf%Files_find_range Hg%Files_find_range E. rewrite E in Hf. congruence.
Qed.

Lemma compileSchema_rep `{!ProtoFilesLaws, !ProtodescLaws} ns id v fds raw ss :
  compileSchema ns id v fds raw = Returns (Ok ss) →
  ∃ fs, NewFiles fds = Ok fs ∧ schema_rep ss (Files_RangeFiles fs) ∧
    ss_schemaID ss = id ∧ ss_version ss = v ∧ ss_rawDescriptorSet ss = raw.
Proof.
  unfold compileSchema. destruct (NewFiles fds) as [fs|] eqn:En; [|done].
  destruct (foldP _ _ _ _) as [[[fp|] p]|] eqn:E; [|done..]. intros [= <-].
  exists fs. split; [done|]. pose proof (NoDup_paths fs) as Hnd.
  eapply (compileFiles_rep _ [] _ fp_empty) in E as [-> Hp]; [|apply agg_rep_new| |].
  - rewrite app_nil_r in Hp. split; [|done]. split; [by destruct p|done|done].
  - by rewrite app_nil_r.
  - intros f Hf. by eapply NewFiles_registrable.
Qed.
End aggregate.
