(* ===== verification/GoFS.v ===== *)
(** * Paths and files

    The parts of [path/filepath] and [os] the client's disk cache uses, on a Unix file
    system: files are byte strings under their paths. A fault schedule says which calls
    fail: the head of the list decides the next call, and no entry means success. A failing
    write may have written a part of its data. *)

From S2P Require Import Prelude GoStrings GoPath.
From stdpp Require Import prelude gmap strings list pretty.

Open Scope string_scope.

(** ** Paths *)

Definition filepath_Join (elems : list string) : string :=
  match filter (λ e, e ≠ "") elems with
  | [] => ""
  | l => Clean (strings_Join l "/")
  end.

(** [filepath.Dir]: all but the last element, cleaned. *)
Definition filepath_Dir (p : string) : string :=
  match LastIndexByte slash p with
  | Some i => Clean (str_take (S i) p)
  | None => "."
  end.

(** A path without its trailing slashes. *)
Fixpoint trimSlashes (s : string) : string :=
  match s with
  | EmptyString => ""
  | String c s =>
     match trimSlashes s with
     | EmptyString => if decide (c = slash) then "" else String c ""
     | s' => String c s'
     end
  end.

(** [filepath.Base]: the last element. *)
Definition filepath_Base (p : string) : string :=
  if decide (p = "") then "."
  else
    let p := trimSlashes p in
    let base := match LastIndexByte slash p with Some i => str_drop (S i) p | None => p end in
    if decide (base = "") then "/" else base.

(** ** The file system *)

Inductive fault := NoFault | Fault (written : nat).

Record FileSystem := {
  fs_files : gmap string string; fs_dirs : gset string; fs_faults : list fault }.

(** The random part of the name of a temporary file: [os.CreateTemp] returns a file that
    did not exist. *)
Class TempNames := {
  temp_random : gmap string string → string → string → string;
  temp_fresh files pre suf : files !! (pre +:+ temp_random files pre suf +:+ suf) = None }.

Definition io_error (op path : string) : error := ErrNew (op +:+ " " +:+ path +:+ ": input/output error").

(** The next entry of the fault schedule. *)
Definition next_fault (s : FileSystem) : fault * FileSystem :=
  match fs_faults s with
  | [] => (NoFault, s)
  | f :: fs => (f, {| fs_files := fs_files s; fs_dirs := fs_dirs s; fs_faults := fs |})
  end.

(** A call that does nothing but fail when the schedule says so. *)
Definition syscall {A} (op path : string) (m : M FileSystem A) : M FileSystem A := λ s,
  match next_fault s with
  | (NoFault, s) => m s
  | (Fault _, s) => (Err (io_error op path), s)
  end.

Definition set_files (files : gmap string string) (s : FileSystem) : FileSystem :=
  {| fs_files := files; fs_dirs := fs_dirs s; fs_faults := fs_faults s |}.

(** A directory and the directories above it. *)
Fixpoint dirs_above (fuel : nat) (p : string) : list string :=
  match fuel with
  | O => []
  | S fuel => p :: if decide (filepath_Dir p = p) then [] else dirs_above fuel (filepath_Dir p)
  end.

Definition os_MkdirAll (p : string) : M FileSystem unit :=
  syscall "mkdir" p (λ s,
    (Ok tt, {| fs_files := fs_files s;
               fs_dirs := list_to_set (dirs_above (S (String.length p)) p) ∪ fs_dirs s;
               fs_faults := fs_faults s |})).

Definition os_ReadFile (p : string) : M FileSystem string :=
  syscall "open" p (λ s,
    match fs_files s !! p with
    | Some b => (Ok b, s)
    | None => (Err (ErrWrap ("open " +:+ p) (ErrSentinel ErrNotExist)), s)
    end).

(** [os.CreateTemp(dir, base+".*.tmp")]: the name of a new, empty file. *)
Definition os_CreateTemp `{TempNames} (dir base : string) : M FileSystem string :=
  syscall "createtemp" dir (λ s,
    if decide (dir ∈ fs_dirs s) then
      let pre := filepath_Join [dir; base +:+ "."] in
      let name := pre +:+ temp_random (fs_files s) pre ".tmp" +:+ ".tmp" in
      (Ok name, set_files (<[name := ""]> (fs_files s)) s)
    else (Err (ErrWrap ("open " +:+ dir) (ErrSentinel ErrNotExist)), s)).

(** [f.Write] of the file under [name]; a failing call may write a prefix of the data. *)
Definition file_Write (name data : string) : M FileSystem unit := λ s,
  let '(flt, s) := next_fault s in
  let old := default "" (fs_files s !! name) in
  match flt with
  | NoFault => (Ok tt, set_files (<[name := old +:+ data]> (fs_files s)) s)
  | Fault n => (Err (io_error "write" name),
                set_files (<[name := old +:+ str_take n data]> (fs_files s)) s)
  end.

Definition file_Sync (name : string) : M FileSystem unit := syscall "sync" name (mret tt).
Definition file_Close (name : string) : M FileSystem unit := syscall "close" name (mret tt).

Definition os_Rename (from to : string) : M FileSystem unit :=
  syscall "rename" from (λ s,
    match fs_files s !! from with
    | Some b => (Ok tt, set_files (<[to := b]> (delete from (fs_files s))) s)
    | None => (Err (ErrWrap ("rename " +:+ from) (ErrSentinel ErrNotExist)), s)
    end).

Definition os_Stat (p : string) : M FileSystem unit :=
  syscall "stat" p (λ s,
    match fs_files s !! p with
    | Some _ => (Ok tt, s)
    | None => (Err (ErrWrap ("stat " +:+ p) (ErrSentinel ErrNotExist)), s)
    end).

Definition os_Remove (p : string) : M FileSystem unit :=
  syscall "remove" p (λ s, (Ok tt, set_files (delete p (fs_files s)) s)).

(** ** Canonical paths *)

(** A path element stack as [Clean] leaves it: parent elements only at the bottom of a
    relative path. *)
Fixpoint normal (rooted : bool) (out : list string) : Prop :=
  match out with
  | [] => True
  | x :: rest =>
     (plain_seg x ∨ (x = ".." ∧ rooted = false ∧ Forall (λ y, y = "..") rest)) ∧
     no_byte slash x ∧ normal rooted rest
  end.

Lemma cleanStep_normal rooted out seg :
  normal rooted out → no_byte slash seg → normal rooted (cleanStep rooted out seg).
Proof.
  intros Hn Hs. unfold cleanStep. case_decide as E1; [done|]. case_decide as E2.
  - subst seg. destruct out as [|x rest].
    + destruct rooted; [done|]. cbn. split_and!; [by right|done|done].
    + case_decide as E3; [|by destruct Hn as (_ & _ & ?)]. subst x.
      destruct Hn as (Hx & Hb & Hr). split_and!; [right|done|by split_and!].
      destruct Hx as [(_ & _ & ?)|(_ & -> & Hall)]; [done|]. split_and!; [done..|].
      by constructor.
  - split_and!; [left|done|done]. unfold plain_seg. tauto.
Qed.

Lemma cleanSteps_normal rooted segs out :
  normal rooted out → Forall (no_byte slash) segs →
  normal rooted (fold_left (cleanStep rooted) segs out).
Proof.
  intros Hn Hs. revert out Hn. induction Hs as [|x segs Hx Hs IH]; intros out Hn; cbn; [done|].
  by apply IH, cleanStep_normal.
Qed.

Lemma cleanSteps_reverse rooted out :
  normal rooted out → fold_left (cleanStep rooted) (reverse out) [] = out.
Proof.
  induction out as [|x rest IH]; [done|]. intros (Hx & _ & Hr).
  rewrite reverse_cons, fold_left_app. cbn. rewrite IH by done. unfold cleanStep.
  destruct Hx as [(? & ? & ?)|(-> & -> & Hall)].
  - rewrite decide_False by tauto. by rewrite decide_False.
  - rewrite decide_False by (intros [|]; done). rewrite decide_True by done.
    destruct rest as [|y rest]; [done|]. apply Forall_cons in Hall as [-> _].
    by rewrite decide_True.
Qed.

Lemma normal_no_byte rooted out : normal rooted out → Forall (no_byte slash) out.
Proof.
  induction out as [|x rest IH]; [by constructor|]. intros (_ & ? & ?). constructor; auto.
Qed.

(** The elements of a path, the last one first, after cleaning. *)
Definition canon (p : string) : bool * list string :=
  let rooted := HasPrefix p "/" in
  (rooted, fold_left (cleanStep rooted) (Split p slash) []).

Definition render (c : bool * list string) : string :=
  let '(rooted, out) := c in
  if rooted : bool then "/" +:+ strings_Join (reverse out) "/"
  else match out with [] => "." | _ => strings_Join (reverse out) "/" end.

Lemma Clean_render p : p ≠ "" → Clean p = render (canon p).
Proof. intros Hp. unfold Clean. by rewrite decide_False. Qed.

Lemma canon_normal p : normal (canon p).1 (canon p).2.
Proof. apply cleanSteps_normal; [done|apply Split_no_byte]. Qed.

Lemma HasPrefix_no_slash x : no_byte slash x → HasPrefix x "/" = false.
Proof.
  destruct x as [|c x]; [done|]. unfold no_byte. cbn. case_decide as E; [done|].
  intros _. by rewrite decide_False by (intros E'; apply E; by rewrite <-E').
Qed.

Lemma Join_nonempty l : l ≠ [] → Forall (λ x, x ≠ "") l → strings_Join l "/" ≠ "".
Proof.
  intros Hl Hx. destruct l as [|x [|y l]]; [done| |]; apply Forall_cons in Hx as [Hx _].
  - done.
  - rewrite strings_Join_cons by done. destruct x; [done|]. by rewrite str_app_cons.
Qed.

Lemma HasPrefix_app_l x y : x ≠ "" → HasPrefix (x +:+ y) "/" = HasPrefix x "/".
Proof.
  destruct x as [|c x]; [done|]. rewrite str_app_cons. intros _. cbn. case_decide; [|done].
  by destruct x, y.
Qed.

Lemma normal_nonempty rooted out : normal rooted out → Forall (λ x, x ≠ "") out.
Proof.
  induction out as [|x rest IH]; [by constructor|]. intros (Hx & _ & ?). constructor; [|auto].
  by destruct Hx as [(? & _)|(-> & _)].
Qed.

Lemma canon_render c : normal c.1 c.2 → canon (render c) = c.
Proof.
  destruct c as [rooted out]. cbn. intros Hn.
  pose proof (normal_no_byte _ _ Hn) as Hb. pose proof (normal_nonempty _ _ Hn) as Hne.
  apply Forall_reverse in Hb, Hne. destruct rooted.
  - cbn [render]. change ("/" +:+ ?s) with (String slash s). unfold canon.
    assert (HasPrefix (String slash (strings_Join (reverse out) "/")) "/" = true) as ->.
    { cbn. rewrite decide_True by done. by destruct (strings_Join (reverse out) "/"). }
    cbn [Split]. rewrite decide_True by done. cbn [fold_left].
    unfold cleanStep at 2. rewrite decide_True by auto. f_equal.
    destruct out as [|x rest]; [done|].
    rewrite Split_Join; [by apply cleanSteps_reverse| |done].
    rewrite reverse_cons. by destruct (reverse rest).
  - destruct out as [|x rest]; [done|]. set (l := reverse (x :: rest)) in *.
    assert (l ≠ []) by (unfold l; rewrite reverse_cons; by destruct (reverse rest)).
    assert (Hp : HasPrefix (strings_Join l "/") "/" = false).
    { destruct l as [|y l]; [done|]. apply Forall_cons in Hb as [Hb _].
      apply Forall_cons in Hne as [Hne _]. destruct l.
      - by apply HasPrefix_no_slash.
      - rewrite strings_Join_cons, HasPrefix_app_l by done. by apply HasPrefix_no_slash. }
    unfold canon. rewrite Hp. f_equal. rewrite Split_Join by done. by apply cleanSteps_reverse.
Qed.

Lemma canon_Clean p : p ≠ "" → canon (Clean p) = canon p.
Proof. intros Hp. rewrite Clean_render by done. apply canon_render, canon_normal. Qed.

Lemma Split_app_sep s t : Split (s +:+ String slash t) slash = (Split s slash ++ Split t slash)%list.
Proof.
  induction s as [|c s IH].
  - rewrite str_app_nil_l. cbn. by rewrite decide_True.
  - rewrite str_app_cons. cbn [Split]. case_decide; [by rewrite IH|]. rewrite IH.
    destruct (Split s slash) as [|x l] eqn:E; [by apply Split_nonempty in E|done].
Qed.

(** A name below a directory. *)
Lemma canon_child d x : d ≠ "" → plain_seg x → no_byte slash x →
  canon (d +:+ "/" +:+ x) = ((canon d).1, x :: (canon d).2).
Proof.
  intros Hd (? & ? & ?) Hb. unfold canon. rewrite HasPrefix_app_l by done. cbn [fst snd].
  f_equal. change ("/" +:+ x) with (String slash x). rewrite Split_app_sep, fold_left_app.
  rewrite (Split_single x) by done. cbn. unfold cleanStep at 1.
  rewrite decide_False by tauto. by rewrite decide_False.
Qed.

Lemma render_nonempty c : normal c.1 c.2 → render c ≠ "".
Proof.
  destruct c as [rooted out]. cbn. intros Hn. destruct rooted; [done|].
  destruct out as [|x rest]; [done|]. apply Join_nonempty.
  - rewrite reverse_cons. by destruct (reverse rest).
  - apply Forall_reverse. by eapply normal_nonempty.
Qed.

Lemma Clean_nonempty p : Clean p ≠ "".
Proof.
  destruct (decide (p = "")) as [->|]; [done|]. rewrite Clean_render by done.
  apply render_nonempty, canon_normal.
Qed.

Lemma Join2 d x : d ≠ "" → x ≠ "" → filepath_Join [d; x] = Clean (d +:+ "/" +:+ x).
Proof.
  intros. unfold filepath_Join. rewrite filter_cons_True by done.
  by rewrite filter_cons_True by done.
Qed.

Lemma app_slash_nonempty d x : d +:+ "/" +:+ x ≠ "".
Proof. destruct d; cbn; [done|]. by rewrite str_app_cons. Qed.

Lemma canon_Join2 d x : d ≠ "" → plain_seg x → no_byte slash x →
  canon (filepath_Join [d; x]) = ((canon d).1, x :: (canon d).2).
Proof.
  intros Hd Hx Hb. pose proof Hx as (? & _). rewrite Join2 by done.
  rewrite canon_Clean by apply app_slash_nonempty. by apply canon_child.
Qed.

Lemma Join2_nonempty d x : d ≠ "" → x ≠ "" → filepath_Join [d; x] ≠ "".
Proof. intros. rewrite Join2 by done. apply Clean_nonempty. Qed.

Lemma Join2_inj d d' x x' : d ≠ "" → d' ≠ "" → plain_seg x → plain_seg x' →
  no_byte slash x → no_byte slash x' →
  filepath_Join [d; x] = filepath_Join [d'; x'] → x = x' ∧ canon d = canon d'.
Proof.
  intros. assert (E : canon (filepath_Join [d; x]) = canon (filepath_Join [d'; x'])) by congruence.
  rewrite !canon_Join2 in E by done. injection E as E1 E2 E3.
  split; [done|]. unfold canon. by rewrite E3, E1.
Qed.

(** Joining three elements at once or in two steps is the same. *)
Lemma Join3 d x y : d ≠ "" → plain_seg x → plain_seg y → no_byte slash x → no_byte slash y →
  filepath_Join [d; x; y] = filepath_Join [filepath_Join [d; x]; y].
Proof.
  intros Hd Hx Hy Hbx Hby. pose proof Hx as (? & _). pose proof Hy as (? & _).
  assert (E : filepath_Join [d; x; y] = Clean ((d +:+ "/" +:+ x) +:+ "/" +:+ y)).
  { unfold filepath_Join. do 3 rewrite filter_cons_True by done. cbn [strings_Join].
    by rewrite !str_app_assoc. }
  rewrite E, (Join2 (filepath_Join [d; x])), Join2 by (done || by apply Join2_nonempty).
  rewrite !(Clean_render (_ +:+ "/" +:+ y)) by apply app_slash_nonempty. f_equal.
  rewrite !canon_child by (done || apply Clean_nonempty || apply app_slash_nonempty).
  rewrite canon_Clean by apply app_slash_nonempty. by rewrite canon_child.
Qed.

(** ** Properties of paths and of the file system

    The directory and the base of a joined path, and the names of temporary files. *)

Lemma str_take_app s t : str_take (String.length s) (s +:+ t) = s.
Proof. induction s as [|c s IH]; cbn; [by destruct t|]. by rewrite str_app_cons; cbn; rewrite IH. Qed.

Lemma LastIndexByte_none c s : no_byte c s → LastIndexByte c s = None.
Proof.
  unfold no_byte. induction s as [|a s IH]; cbn; [done|]. case_decide; [done|].
  destruct (IndexByte c s); [done|]. intros _. by rewrite IH.
Qed.

Lemma LastIndexByte_app c s t :
  no_byte c t → LastIndexByte c (s +:+ String c t) = Some (String.length s).
Proof.
  intros Ht. induction s as [|a s IH].
  - rewrite str_app_nil_l. cbn. rewrite LastIndexByte_none by done. by rewrite decide_True.
  - rewrite str_app_cons. cbn. by rewrite IH.
Qed.

Lemma trimSlashes_fixed s x : x ≠ "" → no_byte slash x → trimSlashes (s +:+ x) = s +:+ x.
Proof.
  intros Hx Hb. assert (Hf : trimSlashes x = x).
  { clear s. unfold no_byte in Hb. induction x as [|c x IH]; [done|]. cbn in *.
    case_decide as E; [done|]. destruct x as [|d x]; [done|].
    destruct (IndexByte slash (String d x)); [done|]. by rewrite IH. }
  induction s as [|c s IH]; [by rewrite str_app_nil_l|]. rewrite str_app_cons. cbn.
  rewrite IH. destruct s; [rewrite str_app_nil_l|by rewrite str_app_cons]. by destruct x.
Qed.

(** The path of a child: a prefix that ends in a slash (or nothing), and the name. *)
Definition above (c : bool * list string) : string :=
  match c.2 with
  | [] => if c.1 then "/" else ""
  | _ => render c +:+ "/"
  end.

Lemma Join_snoc l x : l ≠ [] → strings_Join (l ++ [x])%list "/" = strings_Join l "/" +:+ "/" +:+ x.
Proof.
  induction l as [|y l IH]; [done|]. intros _. destruct l as [|z l]; [done|].
  rewrite <-app_comm_cons, !strings_Join_cons by by destruct l.
  rewrite IH by done. by rewrite !str_app_assoc.
Qed.

Lemma render_child b x out : render (b, x :: out) = above (b, out) +:+ x.
Proof.
  unfold above. cbn [fst snd]. unfold render at 1. rewrite reverse_cons.
  destruct out as [|y out]; [by destruct b|]. set (l := reverse (y :: out)).
  assert (Hl : l ≠ []) by (unfold l; rewrite reverse_cons; by destruct (reverse out)).
  unfold render. fold l. rewrite Join_snoc by done. destruct b; by rewrite !str_app_assoc.
Qed.

Lemma Join2_above d x : d ≠ "" → plain_seg x → no_byte slash x →
  filepath_Join [d; x] = above (canon d) +:+ x.
Proof.
  intros Hd Hx Hb. pose proof Hx as (? & _). rewrite Join2 by done.
  rewrite Clean_render by apply app_slash_nonempty. rewrite canon_child by done.
  by rewrite render_child; destruct (canon d).
Qed.

Lemma above_slash c : normal c.1 c.2 →
  above c = "" ∧ c = (false, []) ∨ ∃ q, above c = q +:+ "/" ∧ Clean (q +:+ "/") = render c.
Proof.
  destruct c as [b out]. cbn. intros Hn. unfold above. cbn [fst snd]. destruct out as [|y out].
  - destruct b; [right; by exists ""|by left].
  - right. exists (render (b, y :: out)). split; [done|].
    assert (Hr : render (b, y :: out) ≠ "") by by apply render_nonempty.
    rewrite Clean_render by (intros E; apply Hr; destruct (render _); [done|by rewrite str_app_cons in E]).
    enough (E : canon (render (b, y :: out) +:+ "/") = canon (render (b, y :: out))).
    { by rewrite E, canon_render. }
    unfold canon. rewrite HasPrefix_app_l by done. f_equal.
    change (render (b, y :: out) +:+ "/") with (render (b, y :: out) +:+ String slash ""). rewrite Split_app_sep, fold_left_app. cbn.
    unfold cleanStep at 1. by rewrite decide_True by auto.
Qed.

Lemma Dir_Join2 d x : d ≠ "" → plain_seg x → no_byte slash x →
  filepath_Dir (filepath_Join [d; x]) = Clean d.
Proof.
  intros Hd Hx Hb. rewrite Join2_above, (Clean_render d) by done.
  destruct (above_slash (canon d) (canon_normal d)) as [[-> ->]|(q & -> & Hq)].
  - rewrite str_app_nil_l. unfold filepath_Dir. by rewrite LastIndexByte_none.
  - unfold filepath_Dir. rewrite str_app_assoc. change ("/" +:+ x) with (String slash x).
    rewrite LastIndexByte_app by done.
    replace (S (String.length q)) with (String.length (q +:+ "/")) by (rewrite length_str_app; cbn; lia).
    change (String slash x) with ("/" +:+ x). by rewrite <-str_app_assoc, str_take_app.
Qed.

Lemma Base_Join2 d x : d ≠ "" → plain_seg x → no_byte slash x →
  filepath_Base (filepath_Join [d; x]) = x.
Proof.
  intros Hd Hx Hb. pose proof Hx as (Hx' & _). rewrite Join2_above by done. unfold filepath_Base.
  rewrite decide_False by (destruct (above _); [done|by rewrite str_app_cons]).
  rewrite trimSlashes_fixed by done.
  destruct (above_slash (canon d) (canon_normal d)) as [[-> _]|(q & -> & _)].
  - rewrite str_app_nil_l, LastIndexByte_none by done. by rewrite decide_False.
  - rewrite str_app_assoc. change ("/" +:+ x) with (String slash x).
    rewrite LastIndexByte_app by done.
    replace (S (String.length q)) with (String.length (q +:+ "/")) by (rewrite length_str_app; cbn; lia).
    change (String slash x) with ("/" +:+ x). rewrite <-str_app_assoc, str_drop_app.
    by rewrite decide_False.
Qed.

(** ** Decimal texts *)

Lemma pretty_N_go_no_byte c x s :
  (∀ n, pretty_N_char n ≠ c) → no_byte c s → no_byte c (pretty_N_go x s).
Proof.
  intros Hc. revert s. induction (N.lt_wf_0 x) as [x _ IH]. intros s Hs.
  destruct (decide (x = 0%N)) as [->|Hx]; [by rewrite pretty_N_go_0|].
  rewrite pretty_N_go_step by lia. apply IH; [apply N.div_lt; lia|].
  unfold no_byte in *. cbn. rewrite decide_False by apply Hc. by rewrite Hs.
Qed.

Lemma pretty_Z_no_byte c (z : Z) :
  (∀ n, pretty_N_char n ≠ c) → c ≠ Ascii.ascii_of_nat 45 → no_byte c (pretty z).
Proof.
  intros Hc Hm. assert (HN : ∀ n : N, no_byte c (pretty n)).
  { intros n. unfold pretty, pretty_N. case_decide.
    - unfold no_byte. cbn. rewrite decide_False; [done|]. apply (Hc 0%N).
    - by apply pretty_N_go_no_byte. }
  destruct z; cbn; [apply (HN 0%N)|apply HN|].
  apply no_byte_app. split; [|apply (HN (N.pos p))].
  unfold no_byte. cbn. rewrite decide_False; [done|]. intros E. by apply Hm.
Qed.

Lemma above_child b x out : above (b, x :: out) = above (b, out) +:+ x +:+ "/".
Proof.
  change (above (b, x :: out)) with (render (b, x :: out) +:+ "/").
  by rewrite render_child, str_app_assoc.
Qed.

Lemma Clean_idem p : Clean (Clean p) = Clean p.
Proof.
  destruct (decide (p = "")) as [->|Hp]; [done|].
  rewrite (Clean_render (Clean p)), canon_Clean by (done || apply Clean_nonempty).
  by rewrite Clean_render.
Qed.

Lemma Clean_Join2 d x : d ≠ "" → x ≠ "" → Clean (filepath_Join [d; x]) = filepath_Join [d; x].
Proof. intros. rewrite Join2 by done. apply Clean_idem. Qed.

Lemma Base_plain x : x ≠ "" → no_byte slash x → filepath_Base x = x.
Proof.
  intros Hx Hb. unfold filepath_Base. rewrite decide_False by done.
  pose proof (trimSlashes_fixed "" x Hx Hb) as E. rewrite str_app_nil_l in E. rewrite E.
  rewrite LastIndexByte_none by done. by rewrite decide_False.
Qed.
