(* ===== verification/GoJSONThms.v ===== *)
(** * Reading back printed JSON *)

From Stdlib Require Import Ascii.
From S2P Require Import Prelude GoStrings GoPath GoFS GoJSON.
From stdpp Require Import prelude strings list pretty.

Open Scope string_scope.
Open Scope list_scope.

(** ** Strings *)

(** ASCII text. *)
Fixpoint ascii_text (s : string) : Prop :=
  match s with EmptyString => True | String c s => (byte_of c < 128)%nat ∧ ascii_text s end.

(** What the printed form of a byte is: the byte, a short escape or a hexadecimal one. *)
Definition quotedOk (c : ascii) : bool :=
  match quoteByte c with
  | String x EmptyString =>
     bool_decide (x = c ∧ x ≠ dq ∧ x ≠ backslash ∧ ¬ (byte_of x < 32)%nat)
  | String x (String e EmptyString) =>
     bool_decide (x = backslash ∧ e ≠ "u"%char ∧ unescape e = Some c)
  | String x (String e (String a (String b (String h (String l EmptyString))))) =>
     bool_decide (x = backslash ∧ e = "u"%char ∧ hex4 a b h l = Some (Z.of_nat (byte_of c)) ∧
       utf8 (Z.of_nat (byte_of c)) = one c)
  | _ => false
  end.

Lemma quotedOk_table : forallb (λ n, quotedOk (ascii_of_nat n)) (seq 0 128) = true.
Proof. vm_compute. reflexivity. Qed.

Lemma quotedOk_all c : (byte_of c < 128)%nat → quotedOk c = true.
Proof.
  intros Hc. pose proof quotedOk_table as Ht. rewrite forallb_forall in Ht.
  specialize (Ht (byte_of c)). unfold byte_of in *. rewrite ascii_nat_embedding in Ht.
  apply Ht, in_seq. lia.
Qed.

(** A hexadecimal escape that is not a surrogate stands for its code point. *)
Lemma unquote_hex a b c d n s :
  hex4 a b c d = Some n → (n < 55296)%Z →
  unquoteJSON (String backslash (String "u" (String a (String b (String c (String d s))))))
    = prepend (utf8 n) (unquoteJSON s).
Proof.
  intros Hh Hn. cbn [unquoteJSON]. rewrite decide_False by done. rewrite decide_True by done.
  rewrite decide_True by done. rewrite Hh.
  do 6 (destruct s as [|? s]; [done|]). rewrite decide_False; [done|]. intros (_ & _ & ?). lia.
Qed.

Lemma unquote_byte c s t rest :
  (byte_of c < 128)%nat → unquoteJSON s = Some (t, rest) →
  unquoteJSON (quoteByte c +:+ s) = Some (String c t, rest).
Proof.
  intros Hc Hs. pose proof (quotedOk_all c Hc) as Hq. unfold quotedOk in Hq.
  destruct (quoteByte c) as [|x [|e q]]; [done| |].
  - apply bool_decide_eq_true in Hq as (-> & ? & ? & ?). rewrite str_app_cons, str_app_nil_l.
    cbn [unquoteJSON]. rewrite decide_False by done. rewrite decide_False by done.
    rewrite decide_False by done. by rewrite Hs.
  - destruct q as [|a q].
    { apply bool_decide_eq_true in Hq as (-> & He & Hu). rewrite !str_app_cons, str_app_nil_l.
      cbn [unquoteJSON]. rewrite decide_False by done. rewrite decide_True by done.
      rewrite decide_False by done. by rewrite Hu, Hs. }
    destruct q as [|b [|h [|l [|]]]]; try done.
    apply bool_decide_eq_true in Hq as (-> & -> & Hh & Hu). rewrite !str_app_cons, str_app_nil_l.
    rewrite (unquote_hex _ _ _ _ _ _ Hh) by lia. by rewrite Hs, Hu.
Qed.

Lemma unquote_quoteBytes s rest :
  ascii_text s → unquoteJSON (quoteBytes s +:+ String dq rest) = Some (s, rest).
Proof.
  induction s as [|c s IH]; cbn [quoteBytes].
  - intros _. rewrite str_app_nil_l. cbn. by rewrite decide_True.
  - intros [Hc Hs]. rewrite str_app_assoc. by apply unquote_byte, IH.
Qed.

Lemma quoteJSON_app s t : quoteJSON s +:+ t = String dq (quoteBytes s +:+ String dq t).
Proof. unfold quoteJSON. rewrite str_app_cons, str_app_assoc. done. Qed.

(** ** Numbers *)

Lemma digit_char n : (n < 10)%N → digit (pretty_N_char n) = Some (Z.of_N n).
Proof.
  intros Hn. assert (n = 0 ∨ n = 1 ∨ n = 2 ∨ n = 3 ∨ n = 4 ∨ n = 5 ∨ n = 6 ∨ n = 7 ∨ n = 8 ∨ n = 9)%N
    as Hx by lia. by repeat destruct Hx as [->|Hx]; try subst.
Qed.

Lemma digits_go x acc s : acc = 0%Z → digits acc (pretty_N_go x s) = digits (Z.of_N x) s.
Proof.
  intros ->. revert s. induction (N.lt_wf_0 x) as [x _ IH]. intros s.
  destruct (decide (x = 0%N)) as [->|Hx]; [by rewrite pretty_N_go_0|].
  rewrite pretty_N_go_step by lia. rewrite IH by (apply N.div_lt; lia).
  cbn [digits]. rewrite digit_char by (apply N.mod_lt; lia). cbn. f_equal.
  rewrite <-(N2Z.inj_mul _ 10), <-N2Z.inj_add. f_equal. symmetry. rewrite N.mul_comm.
  apply N.div_mod. lia.
Qed.

Lemma digits_pretty (n : N) : digits 0 (pretty n) = Some (Z.of_N n).
Proof.
  unfold pretty, pretty_N. case_decide as E; [by subst|]. by rewrite digits_go.
Qed.

(** Every byte of a printed number belongs to a number. *)
Fixpoint all_num (s : string) : Prop :=
  match s with EmptyString => True | String c s => numChar c = true ∧ all_num s end.

Lemma all_num_go x s : all_num s → all_num (pretty_N_go x s).
Proof.
  revert s. induction (N.lt_wf_0 x) as [x _ IH]. intros s Hs.
  destruct (decide (x = 0%N)) as [->|Hx]; [by rewrite pretty_N_go_0|].
  rewrite pretty_N_go_step by lia. apply IH; [apply N.div_lt; lia|]. split; [|done].
  unfold numChar. rewrite digit_char by (apply N.mod_lt; lia). done.
Qed.

Lemma all_num_pretty (z : Z) : all_num (pretty z) ∧ pretty z ≠ "".
Proof.
  assert (HN : ∀ n : N, all_num (pretty n) ∧ pretty n ≠ "").
  { intros n. unfold pretty, pretty_N. case_decide; [done|]. split; [by apply all_num_go|].
    rewrite pretty_N_go_step by lia.
    assert (Hg : ∀ x s, s ≠ "" → pretty_N_go x s ≠ ""); [|by apply Hg].
    clear. intros x. induction (N.lt_wf_0 x) as [x _ IH]. intros s Hs.
    destruct (decide (x = 0%N)) as [->|Hx]; [by rewrite pretty_N_go_0|].
    rewrite pretty_N_go_step by lia. by apply IH; [apply N.div_lt; lia|]. }
  destruct z as [|p|p]; [done|apply (HN (N.pos p))|].
  destruct (HN (N.pos p)) as [? ?]. split; [|done]. split; done.
Qed.

Lemma intLit_pretty (z : Z) : intLit (pretty z) = Some z.
Proof.
  unfold intLit.
  assert (Hv : match pretty z with
    | String c s' => if decide (c = "-"%char) then Z.opp <$> digits 0 s' else digits 0 (pretty z)
    | EmptyString => None end = Some z).
  { destruct z as [|p|p]; [done| |].
    - change (pretty (Z.pos p)) with (pretty (N.pos p)).
      pose proof (digits_pretty (N.pos p)) as Hd.
      destruct (pretty (N.pos p)) as [|c s]; [done|]. case_decide; [|done]. subst c. done.
    - change (pretty (Z.neg p)) with (String "-" (pretty (N.pos p))).
      cbv beta iota. rewrite decide_True by done. by rewrite digits_pretty. }
  destruct (pretty z) eqn:E; [done|]. rewrite Hv. cbn. rewrite decide_True; [done|]. left. by rewrite E.
Qed.

(** A text that cannot continue a number. *)
Definition delim (s : string) : Prop :=
  match s with EmptyString => True | String c _ => numChar c = false end.

Lemma span_number s rest : all_num s → delim rest → spanNumber (s +:+ rest) = (s, rest).
Proof.
  induction s as [|c s IH].
  - rewrite str_app_nil_l. destruct rest as [|c rest]; [done|]. cbn. intros _ ->. done.
  - rewrite str_app_cons. cbn. intros [-> Hs] Hd. by rewrite IH.
Qed.

(** ** Values *)

Section induction.
Context (P : json → Prop) (Hnull : P JNull) (Hbool : ∀ b, P (JBool b)).
Context (Hnum : ∀ s, P (JNum s)) (Hstr : ∀ s, P (JStr s)).
Context (Harr : ∀ l, Forall P l → P (JArr l)).
Context (Hobj : ∀ l, Forall (λ kv, P kv.2) l → P (JObj l)).
Fixpoint json_ind' (v : json) : P v :=
  match v with
  | JNull => Hnull
  | JBool b => Hbool b
  | JNum s => Hnum s
  | JStr s => Hstr s
  | JArr l => Harr l ((fix go l : Forall P l :=
                         match l with
                         | [] => Forall_nil_2 _
                         | v :: l => Forall_cons_2 _ v l (json_ind' v) (go l)
                         end) l)
  | JObj l => Hobj l ((fix go l : Forall (λ kv, P kv.2) l :=
                         match l with
                         | [] => Forall_nil_2 _
                         | (k, v) :: l => Forall_cons_2 _ (k, v) l (json_ind' v) (go l)
                         end) l)
  end.
End induction.

(** The values that are printed: ASCII strings and integers. *)
Fixpoint printable (v : json) : Prop :=
  match v with
  | JNull | JBool _ => True
  | JNum lit => ∃ z : Z, lit = pretty z
  | JStr s => ascii_text s
  | JArr l => (fix go l := match l with [] => True | v :: l => printable v ∧ go l end) l
  | JObj l => (fix go l := match l with
                           | [] => True
                           | (k, v) :: l => ascii_text k ∧ printable v ∧ go l
                           end) l
  end.

Lemma printable_arr l : printable (JArr l) ↔ Forall printable l.
Proof. induction l as [|v l IH]; cbn; [by rewrite Forall_nil|]. rewrite Forall_cons. by rewrite <-IH. Qed.
Lemma printable_obj l : printable (JObj l) ↔ Forall (λ kv, ascii_text kv.1 ∧ printable kv.2) l.
Proof.
  induction l as [|[k v] l IH]; cbn; [by rewrite Forall_nil|]. rewrite Forall_cons. cbn.
  rewrite <-IH. cbn. tauto.
Qed.

(** The calls of the parser that a value needs. *)
Fixpoint jsize (v : json) : nat :=
  match v with
  | JArr l => S ((fix go l := match l with [] => 0 | v :: l => S (jsize v) + go l end) l)
  | JObj l => S ((fix go l := match l with [] => 0 | (_, v) :: l => S (jsize v) + go l end) l)
  | _ => 1
  end%nat.
Definition elemsSize (l : list json) : nat := sum_list_with (λ v, S (jsize v)) l.
Definition membersSize (l : list (string * json)) : nat := sum_list_with (λ kv, S (jsize kv.2)) l.
Lemma jsize_arr l : jsize (JArr l) = S (elemsSize l).
Proof. done. Qed.
Lemma jsize_obj l : jsize (JObj l) = S (membersSize l).
Proof. unfold membersSize. cbn. f_equal. by induction l as [|[k v] l IH]; cbn; [|rewrite IH]. Qed.

(** The elements and the members after the first one. *)
Fixpoint elemsText (depth : nat) (l : list json) : string :=
  match l with
  | [] => ""
  | v :: l => "," +:+ newLine (S depth) +:+ printJSON (S depth) v +:+ elemsText depth l
  end.
Fixpoint membersText (depth : nat) (l : list (string * json)) : string :=
  match l with
  | [] => ""
  | (k, v) :: l => "," +:+ newLine (S depth) +:+ quoteJSON k +:+ ": " +:+
                   printJSON (S depth) v +:+ membersText depth l
  end.

Lemma print_arr depth v l : printJSON depth (JArr (v :: l)) =
  "[" +:+ newLine (S depth) +:+ printJSON (S depth) v +:+ elemsText depth l +:+ newLine depth +:+ "]".
Proof.
  cbn [printJSON]. do 4 f_equal. induction l as [|x l IH]; cbn [elemsText]; [done|]. by rewrite IH.
Qed.
Lemma print_obj depth k v l : printJSON depth (JObj ((k, v) :: l)) =
  "{" +:+ newLine (S depth) +:+ quoteJSON k +:+ ": " +:+ printJSON (S depth) v +:+
  membersText depth l +:+ newLine depth +:+ "}".
Proof.
  cbn [printJSON]. do 6 f_equal. induction l as [|[k' x] l IH]; cbn [membersText]; [done|]. by rewrite IH.
Qed.

(** ** White space *)

Lemma skipSpace_blanks n s : skipSpace (blanks n +:+ s) = skipSpace s.
Proof. induction n as [|n IH]; [by rewrite str_app_nil_l|]. cbn [blanks]. by rewrite str_app_cons. Qed.
Lemma skipSpace_newLine d s : skipSpace (newLine d +:+ s) = skipSpace s.
Proof. unfold newLine. rewrite str_app_cons. cbn [skipSpace]. apply skipSpace_blanks. Qed.

Lemma parseValue_space fuel s s' : skipSpace s = skipSpace s' → parseValue fuel s = parseValue fuel s'.
Proof. intros E. destruct fuel as [|fuel]; [done|]. cbn [parseValue]. by rewrite E. Qed.

(** A printed value starts with a visible character that does not end an array. *)
Lemma print_head depth v rest : printable v →
  ∃ c t, printJSON depth v +:+ rest = String c t ∧ skipSpace (String c t) = String c t ∧ c ≠ "]"%char.
Proof.
  destruct v as [|[]|lit|s|[|v l]|[|[k v] l]]; intros Hp; try (by eexists _, _).
  destruct Hp as [z ->]. destruct (all_num_pretty z) as [Hn Hne]. cbn [printJSON].
  destruct (pretty z) as [|c t]; [done|]. destruct Hn as [Hc _]. rewrite str_app_cons.
  eexists _, _. split; [done|]. cbn [skipSpace].
  assert (Hs : isSpaceJSON c = false ∧ c ≠ "]"%char).
  { split; [|by intros ->]. apply not_true_is_false. unfold isSpaceJSON. rewrite bool_decide_eq_true.
    intros Hsp. assert (Hcs : c ∈ [" "%char; ascii_of_nat 9; ascii_of_nat 10; ascii_of_nat 13]).
    { rewrite !elem_of_cons. destruct Hsp as [?|[Hb|[Hb|Hb]]]; [by left| | |];
        unfold byte_of in Hb; rewrite <-(ascii_nat_embedding c), Hb; auto. }
    rewrite !elem_of_cons in Hcs. by destruct Hcs as [->|[->|[->|[->|Hx%elem_of_nil]]]]. }
  destruct Hs as [-> ?]. done.
Qed.

Lemma delim_newLine d s : delim (newLine d +:+ s).
Proof. done. Qed.
Lemma delim_elems d l s : delim (elemsText d l +:+ newLine d +:+ s).
Proof. destruct l; [by rewrite str_app_nil_l|done]. Qed.
Lemma delim_members d l s : delim (membersText d l +:+ newLine d +:+ s).
Proof. destruct l as [|[]]; [by rewrite str_app_nil_l|done]. Qed.

(** ** Reading back *)

(** The parser reads a value back from its printed form, whatever follows it. *)
Definition reads (v : json) : Prop := ∀ depth fuel rest,
  (jsize v ≤ fuel)%nat → printable v → delim rest →
  parseValue fuel (printJSON depth v +:+ rest) = Some (v, rest).

Lemma reads_elems v l depth fuel rest :
  Forall reads (v :: l) → Forall printable (v :: l) → (elemsSize (v :: l) ≤ fuel)%nat →
  parseElems fuel (newLine (S depth) +:+ printJSON (S depth) v +:+ elemsText depth l +:+
    newLine depth +:+ String "]" rest) = Some (v :: l, rest).
Proof.
  revert v fuel. induction l as [|v' l IH]; intros v fuel Hr Hp Hf;
    apply Forall_cons in Hr as [Hv Hr]; apply Forall_cons in Hp as [Hpv Hp];
    cbn in Hf; (destruct fuel as [|fuel]; [lia|]); cbn [parseElems];
    rewrite (parseValue_space _ _ _ (skipSpace_newLine _ _)).
  - rewrite str_app_nil_l, (Hv (S depth) fuel) by (done || lia). cbn [mbind option_bind].
    rewrite skipSpace_newLine. done.
  - rewrite (Hv (S depth) fuel) by (done || lia || apply delim_elems).
    cbn [mbind option_bind elemsText]. rewrite !str_app_assoc. rewrite str_app_cons, str_app_nil_l.
    cbn [skipSpace]. change (isSpaceJSON ",") with false. cbn beta iota.
    rewrite decide_True by done. rewrite IH; [done|done|done|]. cbn. unfold elemsSize in Hf. lia.
Qed.

Lemma reads_members k v l depth fuel rest :
  Forall (λ kv, reads kv.2) ((k, v) :: l) →
  Forall (λ kv, ascii_text kv.1 ∧ printable kv.2) ((k, v) :: l) →
  (membersSize ((k, v) :: l) ≤ fuel)%nat →
  parseMembers fuel (newLine (S depth) +:+ quoteJSON k +:+ ": " +:+ printJSON (S depth) v +:+
    membersText depth l +:+ newLine depth +:+ String "}" rest) = Some ((k, v) :: l, rest).
Proof.
  revert k v fuel. induction l as [|[k' v'] l IH]; intros k v fuel Hr Hp Hf;
    apply Forall_cons in Hr as [Hv Hr]; apply Forall_cons in Hp as [[Hk Hpv] Hp]; cbn in Hv, Hk, Hpv;
    cbn in Hf; (destruct fuel as [|fuel]; [lia|]); cbn [parseMembers];
    rewrite skipSpace_newLine, quoteJSON_app; cbn [skipSpace];
    change (isSpaceJSON dq) with false; cbn beta iota; rewrite decide_True by done;
    rewrite unquote_quoteBytes by done; cbn [mbind option_bind];
    rewrite (str_app_cons ":"), (str_app_cons " "), str_app_nil_l; cbn [skipSpace];
    change (isSpaceJSON ":") with false; cbn beta iota; rewrite decide_True by done.
  - rewrite (parseValue_space _ _ (printJSON (S depth) v +:+ newLine depth +:+ String "}" rest)) by done.
    rewrite (Hv (S depth) fuel) by (done || lia). cbn [mbind option_bind].
    rewrite skipSpace_newLine. done.
  - rewrite (parseValue_space _ _ (printJSON (S depth) v +:+ membersText depth ((k', v') :: l) +:+
      newLine depth +:+ String "}" rest)) by done.
    rewrite (Hv (S depth) fuel) by (done || lia || apply delim_members).
    cbn [mbind option_bind membersText]. rewrite !str_app_assoc. rewrite str_app_cons, str_app_nil_l.
    cbn [skipSpace]. change (isSpaceJSON ",") with false. cbn beta iota.
    rewrite decide_True by done. rewrite IH; [done|done|done|]. cbn. unfold membersSize in Hf. lia.
Qed.

Lemma reads_num lit : reads (JNum lit).
Proof.
  intros depth fuel rest Hf [z ->] Hd. destruct fuel as [|fuel]; [cbn in Hf; lia|].
  destruct (print_head depth (JNum (pretty z)) rest) as (c & t & E & Hs & _); [by exists z|].
  cbn [printJSON] in *. destruct (all_num_pretty z) as [Hn Hne].
  cbn [parseValue]. rewrite E, Hs.
  assert (Hc : numChar c = true).
  { destruct (pretty z) as [|c' t']; [done|]. rewrite str_app_cons in E. injection E as -> _. by destruct Hn. }
  rewrite !decide_False by (intros ->; done). rewrite Hc, <-E, span_number by done.
  unfold validNumber. by rewrite intLit_pretty.
Qed.

Lemma reads_all v : reads v.
Proof.
  induction v as [|b|lit|s|l IH|l IH] using json_ind'.
  - intros depth fuel rest Hf _ _. destruct fuel as [|fuel]; [cbn in Hf; lia|]. by destruct rest.
  - intros depth fuel rest Hf _ _. destruct fuel as [|fuel]; [cbn in Hf; lia|]. by destruct b, rest.
  - apply reads_num.
  - intros depth fuel rest Hf Hp _. destruct fuel as [|fuel]; [cbn in Hf; lia|].
    cbn [printJSON]. rewrite quoteJSON_app. cbn [parseValue skipSpace].
    change (isSpaceJSON dq) with false. cbn beta iota. rewrite !decide_False by done.
    rewrite decide_True by done. by rewrite unquote_quoteBytes.
  - intros depth fuel rest Hf Hp Hd. rewrite jsize_arr in Hf. apply printable_arr in Hp.
    destruct fuel as [|fuel]; [lia|]. destruct l as [|v l]; [done|].
    rewrite print_arr, !str_app_assoc, (str_app_cons "["), (str_app_cons "]"), !str_app_nil_l.
    cbn [parseValue skipSpace]. change (isSpaceJSON "[") with false. cbn beta iota.
    rewrite decide_True by done. rewrite skipSpace_newLine.
    apply Forall_cons in Hp as [Hv Hp].
    destruct (print_head (S depth) v (elemsText depth l +:+ newLine depth +:+ String "]" rest) Hv)
      as (c & t & E & Hs & Hc).
    rewrite E, Hs, decide_False, <-E by done. rewrite reads_elems; [done|done|by constructor|lia].
  - intros depth fuel rest Hf Hp Hd. rewrite jsize_obj in Hf. apply printable_obj in Hp.
    destruct fuel as [|fuel]; [lia|]. destruct l as [|[k v] l]; [done|].
    rewrite print_obj, !str_app_assoc, (str_app_cons "{"), (str_app_cons "}"), !str_app_nil_l.
    cbn [parseValue skipSpace]. change (isSpaceJSON "{") with false. cbn beta iota.
    rewrite decide_False by done. rewrite decide_True by done. rewrite skipSpace_newLine.
    rewrite quoteJSON_app. cbn [skipSpace]. change (isSpaceJSON dq) with false. cbn beta iota.
    rewrite decide_False by done. rewrite <-quoteJSON_app. rewrite reads_members; [done|done|done|lia].
Qed.

(** The printed form is at least as long as the calls it needs. *)
Lemma jsize_length depth v : printable v → (jsize v ≤ String.length (printJSON depth v))%nat.
Proof.
  revert depth. induction v as [|b|lit|s|l IH|l IH] using json_ind'; intros depth Hp.
  - cbn. lia.
  - destruct b; cbn; lia.
  - destruct Hp as [z ->]. destruct (all_num_pretty z) as [_ Hne]. cbn. destruct (pretty z); [done|]. cbn. lia.
  - cbn. lia.
  - rewrite jsize_arr. apply printable_arr in Hp. destruct l as [|v l]; [cbn; lia|].
    rewrite print_arr. rewrite !length_str_app.
    assert (Hl : (elemsSize l ≤ String.length (elemsText depth l))%nat).
    { apply Forall_cons in IH as [_ IH], Hp as [_ Hp]. clear v. induction l as [|v l IHl]; [done|].
      apply Forall_cons in IH as [Hv IH], Hp as [Hpv Hp]. cbn. rewrite !length_str_app.
      specialize (Hv (S depth) Hpv). specialize (IHl IH Hp). unfold elemsSize in *. cbn in *. lia. }
    apply Forall_cons in IH as [Hv _], Hp as [Hpv _]. specialize (Hv (S depth) Hpv).
    unfold elemsSize in *. cbn in *. lia.
  - rewrite jsize_obj. apply printable_obj in Hp. destruct l as [|[k v] l]; [cbn; lia|].
    rewrite print_obj. rewrite !length_str_app.
    assert (Hl : (membersSize l ≤ String.length (membersText depth l))%nat).
    { apply Forall_cons in IH as [_ IH], Hp as [_ Hp]. clear v. induction l as [|[k' v] l IHl]; [done|].
      apply Forall_cons in IH as [Hv IH], Hp as [[_ Hpv] Hp]. cbn. rewrite !length_str_app.
      specialize (Hv (S depth) Hpv). specialize (IHl IH Hp). unfold membersSize in *. cbn in *. lia. }
    apply Forall_cons in IH as [Hv _], Hp as [[_ Hpv] _]. specialize (Hv (S depth) Hpv).
    unfold membersSize in *. cbn in *. lia.
Qed.

(** Parsing inverts printing. *)
Lemma json_roundtrip v : printable v → parseJSON (printJSON 0 v) = Some v.
Proof.
  intros Hp. unfold parseJSON. pose proof (jsize_length 0 v Hp) as Hl.
  rewrite <-(str_app_nil_r (printJSON 0 v)) at 2. rewrite reads_all; [done|lia|done|done].
Qed.
