(* ===== verification/Client.v ===== *)
(** * The client library: state, options, lookups, population

    Models [src/client/client.go] (types, options, lookups), the fetching half of
    [src/client/snapshot.go] and [listAllSchemas] of [src/client/refresh.go].

    Resolvers are objects on a heap: a [*Resolver] is an index into [w_heap], and a parent
    registry is a reference to the resolver that owns it, so that a child sees what its
    parent holds at the time of the lookup, refreshes of the parent included. Registries
    handed in by the caller ([WithFallback], [WithGlobalFallback]) are values: the resolver
    never writes to them. The connection to the server, its failures included, is the
    class [RegistryConn]. *)

From S2P Require Import Prelude GoProg GoStrings Descriptor Protobuf NsFiles NsTypes.
From S2P Require Import NsNamespace ClientSnapshot Server GoFS.
From stdpp Require Import prelude gmap strings list sorting pretty.

Open Scope string_scope.

(** [grpc.ClientConn] and [registrypb.RegistryServiceClient]: [R] is the state of the
    network and the server behind it; a connection is a number. *)
Class RegistryConn (R : Type) `{Protodesc} := {
  grpc_NewClient : string → option string → option string → M R nat;
  conn_Close : nat → M R unit;
  rpc_ListSchemas : nat → string → string → M R (list SchemaInfo * string);
  rpc_GetDescriptor : nat → string → string → Z → M R (Z * list FileDescriptorProto);
  rpc_GetSource : nat → string → string → Z → M R (Z * gmap string string);
  rpc_GetNamespaceChain : nat → string → M R (list string) }.

(** The default refresh interval, in nanoseconds. *)
Definition DefaultRefreshInterval : Z := 30 * 1000000000.

Section types.
Context `{Protoreflect, ProtoTypes, Protodesc, GoRange}.

(** A parent registry: that of another resolver, or one of the caller's. *)
Inductive filesRef := FilesOf (r : nat) | FilesAt (chain : list NamespacedFiles).
Inductive typesRef := TypesOf (r : nat) | TypesAt (chain : list NamespacedTypes).

Record config := {
  cfg_refresh : Z; cfg_schemas : list string; cfg_token : string;
  cfg_transportCreds : option string; cfg_useServerChain : bool;
  cfg_parentFiles : option filesRef; cfg_parentTypes : option typesRef;
  cfg_cacheDir : string }.

Definition defaultConfig : config := {|
  cfg_refresh := DefaultRefreshInterval; cfg_schemas := []; cfg_token := "";
  cfg_transportCreds := None; cfg_useServerChain := false;
  cfg_parentFiles := None; cfg_parentTypes := None; cfg_cacheDir := "" |}.

Definition ClientOption : Type := config → config.

Definition set_refresh (d : Z) (c : config) : config := {|
  cfg_refresh := d; cfg_schemas := cfg_schemas c; cfg_token := cfg_token c;
  cfg_transportCreds := cfg_transportCreds c; cfg_useServerChain := cfg_useServerChain c;
  cfg_parentFiles := cfg_parentFiles c; cfg_parentTypes := cfg_parentTypes c;
  cfg_cacheDir := cfg_cacheDir c |}.
Definition set_schemas (ids : list string) (c : config) : config := {|
  cfg_refresh := cfg_refresh c; cfg_schemas := ids; cfg_token := cfg_token c;
  cfg_transportCreds := cfg_transportCreds c; cfg_useServerChain := cfg_useServerChain c;
  cfg_parentFiles := cfg_parentFiles c; cfg_parentTypes := cfg_parentTypes c;
  cfg_cacheDir := cfg_cacheDir c |}.
Definition set_token (token : string) (c : config) : config := {|
  cfg_refresh := cfg_refresh c; cfg_schemas := cfg_schemas c; cfg_token := token;
  cfg_transportCreds := cfg_transportCreds c; cfg_useServerChain := cfg_useServerChain c;
  cfg_parentFiles := cfg_parentFiles c; cfg_parentTypes := cfg_parentTypes c;
  cfg_cacheDir := cfg_cacheDir c |}.
Definition set_creds (creds : option string) (c : config) : config := {|
  cfg_refresh := cfg_refresh c; cfg_schemas := cfg_schemas c; cfg_token := cfg_token c;
  cfg_transportCreds := creds; cfg_useServerChain := cfg_useServerChain c;
  cfg_parentFiles := cfg_parentFiles c; cfg_parentTypes := cfg_parentTypes c;
  cfg_cacheDir := cfg_cacheDir c |}.
Definition set_chain (use : bool) (c : config) : config := {|
  cfg_refresh := cfg_refresh c; cfg_schemas := cfg_schemas c; cfg_token := cfg_token c;
  cfg_transportCreds := cfg_transportCreds c; cfg_useServerChain := use;
  cfg_parentFiles := cfg_parentFiles c; cfg_parentTypes := cfg_parentTypes c;
  cfg_cacheDir := cfg_cacheDir c |}.
Definition set_parents (files : option filesRef) (types : option typesRef) (c : config)
    : config := {|
  cfg_refresh := cfg_refresh c; cfg_schemas := cfg_schemas c; cfg_token := cfg_token c;
  cfg_transportCreds := cfg_transportCreds c; cfg_useServerChain := cfg_useServerChain c;
  cfg_parentFiles := files; cfg_parentTypes := types; cfg_cacheDir := cfg_cacheDir c |}.
Definition set_cacheDir (path : string) (c : config) : config := {|
  cfg_refresh := cfg_refresh c; cfg_schemas := cfg_schemas c; cfg_token := cfg_token c;
  cfg_transportCreds := cfg_transportCreds c; cfg_useServerChain := cfg_useServerChain c;
  cfg_parentFiles := cfg_parentFiles c; cfg_parentTypes := cfg_parentTypes c;
  cfg_cacheDir := path |}.

Definition WithRefreshInterval (d : Z) : ClientOption := set_refresh d.
Definition WithSchemas (ids : list string) : ClientOption := set_schemas ids.
Definition WithToken (token : string) : ClientOption := set_token token.
Definition WithTransportCredentials (creds : option string) : ClientOption := set_creds creds.
Definition WithServerChain : ClientOption := set_chain true.
Definition WithDiskCache (path : string) : ClientOption := set_cacheDir path.
(** [nil] registries are [None]. *)
Definition WithFallback (files : option (list NamespacedFiles))
    (types : option (list NamespacedTypes)) : ClientOption :=
  set_parents (FilesAt <$> files) (TypesAt <$> types).
Definition WithParent (parent : option nat) : ClientOption := λ c,
  match parent with
  | None => c
  | Some p => set_parents (Some (FilesOf p)) (Some (TypesOf p)) c
  end.
Definition WithGlobalFallback (GlobalFiles : Files) (GlobalTypes : Types) : ClientOption :=
  let ns := NewNamespaceOverGlobal GlobalFiles GlobalTypes in
  set_parents (Some (FilesAt (rp_Files ns))) (Some (TypesAt (rp_Types ns))).

Definition apply_options (opts : list ClientOption) : config :=
  fold_left (λ c o, o c) opts defaultConfig.

(** A resolver. [r_agg] is the pair [nsFiles], [nsTypes]; [r_running] says that the refresh
    goroutine runs ([cancel] is set and was not called). *)
Record Resolver := {
  r_conn : option nat; r_ownsConn : bool; r_rpc : option nat; r_ns : string;
  r_cfg : config; r_snapshot : option nsSnapshot; r_agg : regPair;
  r_running : bool; r_ancestors : list nat; r_fromCache : bool }.

Definition set_agg (p : regPair) (r : Resolver) : Resolver := {|
  r_conn := r_conn r; r_ownsConn := r_ownsConn r; r_rpc := r_rpc r; r_ns := r_ns r;
  r_cfg := r_cfg r; r_snapshot := r_snapshot r; r_agg := p; r_running := r_running r;
  r_ancestors := r_ancestors r; r_fromCache := r_fromCache r |}.
Definition set_snapshot (s : nsSnapshot) (r : Resolver) : Resolver := {|
  r_conn := r_conn r; r_ownsConn := r_ownsConn r; r_rpc := r_rpc r; r_ns := r_ns r;
  r_cfg := r_cfg r; r_snapshot := Some s; r_agg := r_agg r; r_running := r_running r;
  r_ancestors := r_ancestors r; r_fromCache := r_fromCache r |}.
Definition set_running (b : bool) (r : Resolver) : Resolver := {|
  r_conn := r_conn r; r_ownsConn := r_ownsConn r; r_rpc := r_rpc r; r_ns := r_ns r;
  r_cfg := r_cfg r; r_snapshot := r_snapshot r; r_agg := r_agg r; r_running := b;
  r_ancestors := r_ancestors r; r_fromCache := r_fromCache r |}.
Definition set_ancestors (l : list nat) (r : Resolver) : Resolver := {|
  r_conn := r_conn r; r_ownsConn := r_ownsConn r; r_rpc := r_rpc r; r_ns := r_ns r;
  r_cfg := r_cfg r; r_snapshot := r_snapshot r; r_agg := r_agg r; r_running := r_running r;
  r_ancestors := l; r_fromCache := r_fromCache r |}.
Definition set_ownsConn (b : bool) (r : Resolver) : Resolver := {|
  r_conn := r_conn r; r_ownsConn := b; r_rpc := r_rpc r; r_ns := r_ns r;
  r_cfg := r_cfg r; r_snapshot := r_snapshot r; r_agg := r_agg r; r_running := r_running r;
  r_ancestors := r_ancestors r; r_fromCache := r_fromCache r |}.

Definition newAgg : regPair :=
  {| rg_files := NewNamespacedFiles; rg_types := NewNamespacedTypes |}.

(** ** Lookups

    A lookup reads the resolver and, through the parent references, the heap. *)

Fixpoint files_chain (fuel : nat) (h : list Resolver) (ref : option filesRef)
    : list NamespacedFiles :=
  match ref with
  | None => []
  | Some (FilesAt chain) => chain
  | Some (FilesOf i) =>
     match fuel, h !! i with
     | S fuel, Some p => rg_files (r_agg p) :: files_chain fuel h (cfg_parentFiles (r_cfg p))
     | _, _ => []
     end
  end.

Fixpoint types_chain (fuel : nat) (h : list Resolver) (ref : option typesRef)
    : list NamespacedTypes :=
  match ref with
  | None => []
  | Some (TypesAt chain) => chain
  | Some (TypesOf i) =>
     match fuel, h !! i with
     | S fuel, Some p => rg_types (r_agg p) :: types_chain fuel h (cfg_parentTypes (r_cfg p))
     | _, _ => []
     end
  end.

(** The parents of a resolver's registries; a parent is older than its children, so the
    chain is at most as long as the heap. *)
Definition parentFiles (h : list Resolver) (r : Resolver) : list NamespacedFiles :=
  files_chain (length h) h (cfg_parentFiles (r_cfg r)).
Definition parentTypes (h : list Resolver) (r : Resolver) : list NamespacedTypes :=
  types_chain (length h) h (cfg_parentTypes (r_cfg r)).

(** [r.nsFiles] and [r.nsTypes] with their parents. *)
Definition nsFiles (h : list Resolver) (r : Resolver) : list NamespacedFiles :=
  rg_files (r_agg r) :: parentFiles h r.
Definition nsTypes (h : list Resolver) (r : Resolver) : list NamespacedTypes :=
  rg_types (r_agg r) :: parentTypes h r.

Definition tracksSchema (r : Resolver) (id : string) : bool :=
  match cfg_schemas (r_cfg r) with
  | [] => true
  | l => bool_decide (id ∈ l)
  end.

Definition Resolver_FindMessageByName (h : list Resolver) (r : Resolver) (name : string)
    : res MessageDescriptor :=
  match r_snapshot r ≫= λ snap, schemaFor snap name with
  | Some ss => FindMessageByName (ss_types ss :: parentTypes h r) name
  | None => FindMessageByName (nsTypes h r) name
  end.

Definition Resolver_FindMessageByURL (h : list Resolver) (r : Resolver) (url : string)
    : res MessageDescriptor :=
  let name := match LastIndexByte slash url with
              | Some i => str_drop (S i) url
              | None => url
              end in
  Resolver_FindMessageByName h r name.

Definition Resolver_FindExtensionByName (h : list Resolver) (r : Resolver) (name : string)
    : res FieldDescriptor :=
  match r_snapshot r ≫= λ snap, schemaFor snap name with
  | Some ss => FindExtensionByName (ss_types ss :: parentTypes h r) name
  | None => FindExtensionByName (nsTypes h r) name
  end.

Definition Resolver_FindExtensionByNumber (h : list Resolver) (r : option Resolver)
    (message : string) (field : Z) : res FieldDescriptor :=
  match r with
  | None => Err (ErrSentinel NotFound)
  | Some r => FindExtensionByNumber (nsTypes h r) message field
  end.

Definition Resolver_FindFileByPath (h : list Resolver) (r : option Resolver) (path : string)
    : res FileDescriptor :=
  match r with
  | None => Err (ErrSentinel NotFound)
  | Some r => FindFileByPath (nsFiles h r) path
  end.

Definition Resolver_FindDescriptorByName (h : list Resolver) (r : Resolver) (name : string)
    : res Descriptor :=
  match r_snapshot r ≫= λ snap, schemaFor snap name with
  | Some ss => FindDescriptorByName (ss_files ss :: parentFiles h r) name
  | None => FindDescriptorByName (nsFiles h r) name
  end.

(** The dynamic message is determined by its descriptor. *)
Definition Resolver_NewMessage (h : list Resolver) (r : Resolver) (name : string)
    : res MessageDescriptor := Resolver_FindMessageByName h r name.

(** The ancestor objects. *)
Definition ancestorsOf (h : list Resolver) (r : Resolver) : list Resolver :=
  omap (λ a, h !! a) (r_ancestors r).

(** [RangeMessages]: the tiers are walked while the callback asks for more. *)
Definition walkTier {S} (f : MessageDescriptor → S → bool * S) (acc : bool * S)
    (types : list NamespacedTypes) : bool * S :=
  let '(cont, s) := acc in
  match types with
  | [] => acc
  | _ =>
     if cont : bool then
       RangeMessages types (λ mt '(_, s), let '(c, s) := f mt s in (c, (c, s))) (true, s)
     else acc
  end.

Definition Resolver_RangeMessages {S} (h : list Resolver) (r : option Resolver)
    (f : MessageDescriptor → S → bool * S) (s : S) : S :=
  match r with
  | None => s
  | Some r =>
     let acc := walkTier f (true, s) (nsTypes h r) in
     let acc := fold_left (walkTier f) (nsTypes h <$> ancestorsOf h r) acc in
     let acc := match r_ancestors r with
                | [] => walkTier f acc (parentTypes h r)
                | _ => acc
                end in
     acc.2
  end.

Definition findLocalMessage (t : list NamespacedTypes) (name : string)
    : option MessageDescriptor :=
  RangeMessages t (λ mt found, if decide (msg_FullName mt = name) then (false, Some mt)
                               else (true, found)) None.

Definition findLocalFile (f : list NamespacedFiles) (path : string) : option FileDescriptor :=
  RangeFiles f (λ fd found, if decide (file_Path fd = path) then (false, Some fd)
                            else (true, found)) None.

(** The first ancestor that has the message (the file) itself. *)
Fixpoint findInAncestors (h : list Resolver) (ancestors : list Resolver) (name : string)
    : option (MessageDescriptor * string) :=
  match ancestors with
  | [] => None
  | a :: ancestors =>
     match findLocalMessage (nsTypes h a) name with
     | Some mt => Some (mt, r_ns a)
     | None => findInAncestors h ancestors name
     end
  end.

Fixpoint findFileInAncestors (h : list Resolver) (ancestors : list Resolver) (path : string)
    : option (FileDescriptor * string) :=
  match ancestors with
  | [] => None
  | a :: ancestors =>
     match findLocalFile (nsFiles h a) path with
     | Some fd => Some (fd, r_ns a)
     | None => findFileInAncestors h ancestors path
     end
  end.

Definition Resolver_FindMessageByNameWithOrigin (h : list Resolver) (r : option Resolver)
    (name : string) : res (MessageDescriptor * string) :=
  match r with
  | None => Err (ErrSentinel NotFound)
  | Some r =>
     match findLocalMessage (nsTypes h r) name with
     | Some mt => Ok (mt, r_ns r)
     | None =>
        match findInAncestors h (ancestorsOf h r) name with
        | Some x => Ok x
        | None =>
           match r_ancestors r, cfg_parentTypes (r_cfg r) with
           | [], Some _ =>
              match FindMessageByName (parentTypes h r) name with
              | Ok mt => Ok (mt, "")
              | Err _ => Err (ErrSentinel NotFound)
              end
           | _, _ => Err (ErrSentinel NotFound)
           end
        end
     end
  end.

Definition Resolver_FindFileByPathWithOrigin (h : list Resolver) (r : option Resolver)
    (path : string) : res (FileDescriptor * string) :=
  match r with
  | None => Err (ErrSentinel NotFound)
  | Some r =>
     match findLocalFile (nsFiles h r) path with
     | Some fd => Ok (fd, r_ns r)
     | None =>
        match findFileInAncestors h (ancestorsOf h r) path with
        | Some x => Ok x
        | None =>
           match r_ancestors r, cfg_parentFiles (r_cfg r) with
           | [], Some _ =>
              match FindFileByPath (parentFiles h r) path with
              | Ok fd => Ok (fd, "")
              | Err _ => Err (ErrSentinel NotFound)
              end
           | _, _ => Err (ErrSentinel NotFound)
           end
        end
     end
  end.

Definition Resolver_Namespace (r : option Resolver) : string :=
  match r with None => "" | Some r => r_ns r end.

(** A [SchemaResolver] is its parent and a schema identifier. *)
Definition SchemaResolver_FindMessageByName (h : list Resolver) (s : option (option Resolver * string))
    (name : string) : res MessageDescriptor :=
  match s with
  | None | Some (None, _) => Err (ErrSentinel NotFound)
  | Some (Some parent, schemaID) =>
     match r_snapshot parent with
     | None => Err (ErrSentinel NotFound)
     | Some snap =>
        match sn_schemas snap !! schemaID with
        | None =>
           Err (ErrWrap ("schema " +:+ schemaID +:+ " not present in namespace " +:+
                         r_ns parent) (ErrSentinel NotFound))
        | Some ss => FindMessageByName (ss_types ss :: parentTypes h parent) name
        end
     end
  end.

Definition SchemaResolver_SchemaID (s : option (option Resolver * string)) : string :=
  match s with None => "" | Some (_, id) => id end.

Definition Resolver_Schema (r : option Resolver) (schemaID : string)
    : option (option Resolver * string) := Some (r, schemaID).
Definition SchemaResolver_NewMessage (h : list Resolver) (s : option (option Resolver * string))
    (name : string) : res MessageDescriptor := SchemaResolver_FindMessageByName h s name.

(** The header [bearerCreds] attaches to every call. *)
Definition bearerCreds_GetRequestMetadata (token : string) : gmap string string :=
  {[ "authorization" := "Bearer " +:+ token ]}.

End types.

(** ** Programs of the client *)

Inductive ClientLog :=
  | ClientWarn (msg ns : string) (err : error)
  | ClientDebug (msg ns : string) (schemas added replaced removed : nat).

Section Client.
Context `{Protoreflect, ProtoTypes, GoRange} {R : Type} `{RegistryConn R}.

Record World := {
  w_srv : R; w_heap : list Resolver; w_fs : FileSystem; w_log : list ClientLog }.

Definition set_heap (h : list Resolver) (w : World) : World :=
  {| w_srv := w_srv w; w_heap := h; w_fs := w_fs w; w_log := w_log w |}.

Definition clientLog (l : ClientLog) : Prog World unit :=
  modifyP (λ w, {| w_srv := w_srv w; w_heap := w_heap w; w_fs := w_fs w;
                   w_log := (w_log w ++ [l])%list |}).

Definition on_srv {A} (m : M R A) : Prog World A :=
  zoom w_srv (λ s w, {| w_srv := s; w_heap := w_heap w; w_fs := w_fs w; w_log := w_log w |})
    (liftM m).
Definition on_fs {A} (m : M FileSystem A) : Prog World A :=
  zoom w_fs (λ f w, {| w_srv := w_srv w; w_heap := w_heap w; w_fs := f; w_log := w_log w |})
    (liftM m).

(** A dereference of a pointer; the nil pointer panics. *)
Definition deref (i : nat) : Prog World Resolver := λ w,
  match w_heap w !! i with Some r => Returns (Ok r, w) | None => Panics end.
Definition update (i : nat) (f : Resolver → Resolver) : Prog World unit :=
  modifyP (λ w, set_heap (alter f i (w_heap w)) w).
(** [&Resolver{...}]. *)
Definition alloc (r : Resolver) : Prog World nat := λ w,
  Returns (Ok (length (w_heap w)), set_heap (w_heap w ++ [r])%list w).
(** A mutation of the aggregate of resolver [i]; what was written before an error stays. *)
Definition on_agg {A} (i : nat) (m : Prog regPair A) : Prog World A := λ w,
  match w_heap w !! i with
  | None => Panics
  | Some r =>
     match m (r_agg r) with
     | Returns (x, p) => Returns (x, set_heap (alter (set_agg p) i (w_heap w)) w)
     | Panics => Panics
     end
  end.

(** A call of [r.rpc]; calling a method of the nil interface panics. *)
Definition callRPC {A} (r : Resolver) (f : nat → M R A) : Prog World A :=
  match r_rpc r with None => panicP | Some c => on_srv (f c) end.

Definition out_of_fuel : error := ErrNew "out of fuel".

(** [listAllSchemas]; [fuel] bounds the number of pages. *)
Fixpoint listPages (fuel : nat) (r : Resolver) (page : string) (all : list SchemaInfo)
    : Prog World (list SchemaInfo) :=
  match fuel with
  | O => failP out_of_fuel
  | S fuel =>
     resp ← callRPC r (λ c, rpc_ListSchemas c (r_ns r) page);
     let all := (all ++ filter (λ s, tracksSchema r (si_SchemaId s) = true) resp.1)%list in
     if decide (resp.2 = "") then mret all else listPages fuel r resp.2 all
  end.

Definition listAllSchemas (fuel : nat) (r : Resolver) : Prog World (list SchemaInfo) :=
  listPages fuel r "" [].

Definition of_outcome {A} (x : outcome (res A)) : Prog World A := λ w,
  match x with Returns r => Returns (r, w) | Panics => Panics end.

Definition fetchSchema (r : Resolver) (schemaID : string) (version : Z)
    : Prog World schemaSnapshot :=
  let at_version := r_ns r +:+ "/" +:+ schemaID +:+ "@" +:+ pretty version in
  resp ← wrapP ("get_descriptor " +:+ at_version)
           (callRPC r (λ c, rpc_GetDescriptor c (r_ns r) schemaID version));
  raw ← wrapP ("remarshal FileDescriptorSet for " +:+ at_version) (of_resP (Marshal resp.2));
  of_outcome (compileSchema (r_ns r) schemaID resp.1 resp.2 raw).

(** Build the index of a snapshot, in place. *)
Definition indexSnapshot (snap : nsSnapshot) : Prog World nsSnapshot :=
  let '(x, snap) := buildNameIndex snap in of_resP x ;; mret snap.

(** Fold every schema of a snapshot into the aggregate of resolver [i], by identifier. *)
Definition applyAll (i : nat) (snap : nsSnapshot) : Prog World unit :=
  forP_ (sortedIDs snap) (λ id,
    match sn_schemas snap !! id with
    | Some ss => on_agg i (applyToAggregate ss)
    | None => mret tt
    end).

Definition populate (fuel : nat) (i : nat) : Prog World unit :=
  r ← deref i;
  infos ← wrapP ("populating namespace " +:+ quote (r_ns r)) (listAllSchemas fuel r);
  snap ← foldP (λ snap info,
    match si_CurrentVersion info with
    | None => mret snap
    | Some version =>
       ss ← fetchSchema r (si_SchemaId info) version;
       mret (put_schema (si_SchemaId info) ss snap)
    end) newSnapshot infos;
  snap ← indexSnapshot snap;
  applyAll i snap ;;
  update i (set_snapshot snap).

Definition newSingleNamespace (fuel : nat) (conn : nat) (namespace : string) (cfg : config)
    (parent : option nat) : Prog World nat :=
  let cfg := match parent with
             | Some p => set_parents (Some (FilesOf p)) (Some (TypesOf p)) cfg
             | None => cfg
             end in
  i ← alloc {| r_conn := Some conn; r_ownsConn := false; r_rpc := Some conn;
               r_ns := namespace; r_cfg := cfg; r_snapshot := None; r_agg := newAgg;
               r_running := false; r_ancestors := []; r_fromCache := false |};
  populate fuel i ;;
  (if decide (0 < cfg_refresh cfg)%Z then update i (set_running true) else mret tt) ;;
  mret i.

(** [Close]: the goroutines stop, ancestors included, and an owned connection is closed.
    Ancestors are older objects, so the heap bounds the recursion. *)
Fixpoint closeFrom (fuel : nat) (i : nat) : Prog World unit :=
  match fuel with
  | O => failP out_of_fuel
  | S fuel =>
     r ← deref i;
     (if r_running r then update i (set_running false) else mret tt) ;;
     forP_ (r_ancestors r) (λ a, attemptP (closeFrom fuel a) ;; mret tt) ;;
     match r_ownsConn r, r_conn r with
     | true, Some c => on_srv (conn_Close c)
     | _, _ => mret tt
     end
  end.

Definition Close (r : option nat) : Prog World unit :=
  match r with
  | None => mret tt
  | Some i => λ w, closeFrom (S (length (w_heap w))) i w
  end.

Definition closeAll (l : list nat) : Prog World unit :=
  forP_ l (λ a, attemptP (Close (Some a)) ;; mret tt).

(** The resolver [Pin] allocates: same connection, no refresh, no ancestors. *)
Definition pinnedResolver (r : Resolver) : Resolver :=
  {| r_conn := r_conn r; r_ownsConn := false; r_rpc := r_rpc r; r_ns := r_ns r;
     r_cfg := set_refresh 0 (r_cfg r); r_snapshot := None; r_agg := newAgg;
     r_running := false; r_ancestors := []; r_fromCache := false |}.

(** The body of the loop of [Pin]. *)
Definition pinSchema (pinned : Resolver) (snap : nsSnapshot) (kv : string * Z)
    : Prog World nsSnapshot :=
  let '(schemaID, version) := kv in
  ss ← wrapP ("pinning " +:+ r_ns pinned +:+ "/" +:+ schemaID +:+ "@" +:+ pretty version)
         (fetchSchema pinned schemaID version);
  mret (put_schema schemaID ss snap).

Definition Pin (i : nat) (versions : gmap string Z) : Prog World nat :=
  if decide (versions = ∅) then failP (ErrNew "protoregistry/client: empty pin map") else
  r ← deref i;
  let pinned := pinnedResolver r in
  j ← alloc pinned;
  snap ← foldP (pinSchema pinned) newSnapshot (go_range versions);
  snap ← indexSnapshot snap;
  applyAll j snap ;;
  update j (set_snapshot snap) ;;
  mret j.

(** ** Sources *)

(** The first schema of the map walk that has the file. *)
Fixpoint ownerOf (l : list (string * schemaSnapshot)) (filePath : string)
    : option schemaSnapshot :=
  match l with
  | [] => None
  | (_, ss) :: l =>
     if decide (filePath ∈ fp_filePaths (ss_aggFingerprint ss)) then Some ss
     else ownerOf l filePath
  end.

(** [None] is [(nil, false, nil)]. *)
Definition fetchOwnSource (r : Resolver) (filePath : string) : Prog World (option string) :=
  match r_snapshot r with
  | None => mret None
  | Some snap =>
     match ownerOf (go_range (sn_schemas snap)) filePath with
     | None => mret None
     | Some owner =>
        let at_version := r_ns r +:+ "/" +:+ ss_schemaID owner +:+ "@" +:+
                          pretty (ss_version owner) in
        resp ← wrapP ("get_source " +:+ at_version)
          (callRPC r (λ c, rpc_GetSource c (r_ns r) (ss_schemaID owner) (ss_version owner)));
        match resp.2 !! filePath with
        | Some content => mret (Some content)
        | None =>
           failP (ErrWrap ("server returned schema " +:+ at_version +:+ " sources without " +:+
                           quote filePath) (ErrSentinel NotFound))
        end
     end
  end.

Fixpoint sourceFrom (tiers : list nat) (filePath : string) : Prog World string :=
  match tiers with
  | [] => failP (ErrSentinel NotFound)
  | i :: tiers =>
     r ← deref i;
     content ← fetchOwnSource r filePath;
     match content with
     | Some c => mret c
     | None => sourceFrom tiers filePath
     end
  end.

Definition GetSource (r : option nat) (filePath : string) : Prog World string :=
  match r with
  | None => failP (ErrSentinel NotFound)
  | Some i => x ← deref i; sourceFrom (i :: r_ancestors x) filePath
  end.

End Client.
Arguments World {_} R {_}.
