(* ===== verification/ClientManifest.v ===== *)
(** * The manifest of the disk cache

    The manifest of [src/client/cache.go] and its JSON text: what [json.MarshalIndent]
    writes and [json.Unmarshal] reads, by the tags of the struct. *)

From S2P Require Import Prelude GoStrings GoPath GoJSON GoJSONThms.
From stdpp Require Import prelude strings list pretty.

Open Scope string_scope.
Open Scope list_scope.

Definition cacheManifestVersion : Z := 1.

Record cacheSchemaManifest := { csm_SchemaID : string; csm_Version : Z; csm_File : string }.

(** [SavedAt] is the RFC 3339 text of the time. *)
Record cacheManifest := {
  man_Version : Z; man_Namespace : string; man_SavedAt : string;
  man_Schemas : list cacheSchemaManifest; man_ServerChain : list string }.

(** The texts [time.Time] accepts as JSON (RFC 3339). *)
Class TimeText := time_valid : string → bool.

(** ** Writing *)

Definition schemaJSON (e : cacheSchemaManifest) : json :=
  JObj [("schema_id", JStr (csm_SchemaID e)); ("version", JNum (pretty (csm_Version e)));
        ("file", JStr (csm_File e))].

Definition manifestJSON (man : cacheManifest) : json :=
  JObj ([("version", JNum (pretty (man_Version man))); ("namespace", JStr (man_Namespace man));
         ("saved_at", JStr (man_SavedAt man)); ("schemas", JArr (schemaJSON <$> man_Schemas man))] ++
        match man_ServerChain man with
        | [] => []
        | l => [("server_chain", JArr (JStr <$> l))]
        end).

Definition manifest_MarshalIndent (man : cacheManifest) : res string :=
  Ok (printJSON 0 (manifestJSON man)).

(** ** Reading *)

Definition type_error (v : json) (what : string) : error :=
  ErrNew ("json: cannot unmarshal into Go value of type " +:+ what).

(** The conversions of a value; [null] leaves the old value. *)
Definition asString (old : string) (v : json) : res string :=
  match v with JNull => Ok old | JStr s => Ok s | _ => Err (type_error v "string") end.
Definition asInt (lo hi old : Z) (v : json) : res Z :=
  match v with
  | JNull => Ok old
  | JNum lit =>
     match intLit lit with
     | Some z => if decide (lo <= z < hi)%Z then Ok z else Err (type_error v "int")
     | None => Err (type_error v "int")
     end
  | _ => Err (type_error v "int")
  end.
Definition asList {A} (zero : A) (conv : A → json → res A) (old : list A) (v : json) : res (list A) :=
  match v with
  | JNull => Ok []
  | JArr l => foldM (λ acc x, match conv zero x with Ok a => Ok (acc ++ [a]) | Err e => Err e end) [] l
  | _ => Err (type_error v "slice")
  end.

(** The name of a member matches a field whatever its case. *)
Definition eqFold (a b : string) : bool := bool_decide (ToLower a = ToLower b).

Definition zeroSchema : cacheSchemaManifest :=
  {| csm_SchemaID := ""; csm_Version := 0; csm_File := "" |}.

Definition assignSchema (e : cacheSchemaManifest) (kv : string * json) : res cacheSchemaManifest :=
  let '(k, v) := kv in
  if eqFold k "schema_id" then
    id ← asString (csm_SchemaID e) v;
    Ok {| csm_SchemaID := id; csm_Version := csm_Version e; csm_File := csm_File e |}
  else if eqFold k "version" then
    n ← asInt 0 (2 ^ 64) (csm_Version e) v;
    Ok {| csm_SchemaID := csm_SchemaID e; csm_Version := n; csm_File := csm_File e |}
  else if eqFold k "file" then
    f ← asString (csm_File e) v;
    Ok {| csm_SchemaID := csm_SchemaID e; csm_Version := csm_Version e; csm_File := f |}
  else Ok e.

Definition asSchema (old : cacheSchemaManifest) (v : json) : res cacheSchemaManifest :=
  match v with
  | JNull => Ok old
  | JObj l => foldM assignSchema old l
  | _ => Err (type_error v "cacheSchemaManifest")
  end.

Section reading.
Context `{TimeText}.

Definition asTime (old : string) (v : json) : res string :=
  match v with
  | JNull => Ok old
  | JStr s => if time_valid s then Ok s else Err (ErrNew ("parsing time " +:+ quote s))
  | _ => Err (type_error v "time.Time")
  end.

Definition assignManifest (man : cacheManifest) (kv : string * json) : res cacheManifest :=
  let '(k, v) := kv in
  if eqFold k "version" then
    n ← asInt (- 2 ^ 63) (2 ^ 63) (man_Version man) v;
    Ok {| man_Version := n; man_Namespace := man_Namespace man; man_SavedAt := man_SavedAt man;
          man_Schemas := man_Schemas man; man_ServerChain := man_ServerChain man |}
  else if eqFold k "namespace" then
    n ← asString (man_Namespace man) v;
    Ok {| man_Version := man_Version man; man_Namespace := n; man_SavedAt := man_SavedAt man;
          man_Schemas := man_Schemas man; man_ServerChain := man_ServerChain man |}
  else if eqFold k "saved_at" then
    t ← asTime (man_SavedAt man) v;
    Ok {| man_Version := man_Version man; man_Namespace := man_Namespace man; man_SavedAt := t;
          man_Schemas := man_Schemas man; man_ServerChain := man_ServerChain man |}
  else if eqFold k "schemas" then
    l ← asList zeroSchema asSchema (man_Schemas man) v;
    Ok {| man_Version := man_Version man; man_Namespace := man_Namespace man;
          man_SavedAt := man_SavedAt man; man_Schemas := l;
          man_ServerChain := man_ServerChain man |}
  else if eqFold k "server_chain" then
    l ← asList "" asString (man_ServerChain man) v;
    Ok {| man_Version := man_Version man; man_Namespace := man_Namespace man;
          man_SavedAt := man_SavedAt man; man_Schemas := man_Schemas man; man_ServerChain := l |}
  else Ok man.

(** The zero time is the first instant of year 1. *)
Definition zeroManifest : cacheManifest :=
  {| man_Version := 0; man_Namespace := ""; man_SavedAt := "0001-01-01T00:00:00Z";
     man_Schemas := []; man_ServerChain := [] |}.

Definition manifest_Unmarshal (b : string) : res cacheManifest :=
  match parseJSON b with
  | None => Err (ErrNew "invalid character in JSON text")
  | Some JNull => Ok zeroManifest
  | Some (JObj l) => foldM assignManifest zeroManifest l
  | Some v => Err (type_error v "cacheManifest")
  end.

(** ** Reading back what was written *)

(** A manifest whose strings are ASCII text, whose versions fit their types and whose time
    is a time. *)
Record manifest_text (man : cacheManifest) : Prop := {
  mt_version : (- 2 ^ 63 <= man_Version man < 2 ^ 63)%Z;
  mt_namespace : ascii_text (man_Namespace man);
  mt_saved : ascii_text (man_SavedAt man) ∧ time_valid (man_SavedAt man) = true;
  mt_schemas : Forall (λ e, ascii_text (csm_SchemaID e) ∧ ascii_text (csm_File e) ∧
                            (0 <= csm_Version e < 2 ^ 64)%Z) (man_Schemas man);
  mt_chain : Forall ascii_text (man_ServerChain man) }.

Lemma asInt_pretty lo hi old z : (lo <= z < hi)%Z → asInt lo hi old (JNum (pretty z)) = Ok z.
Proof. intros Hz. unfold asInt. by rewrite intLit_pretty, decide_True. Qed.

Lemma asList_map {A} (zero : A) conv (f : A → json) l :
  Forall (λ a, conv zero (f a) = Ok a) l → asList zero conv [] (JArr (f <$> l)) = Ok l.
Proof.
  intros Hl. unfold asList.
  assert (Hg : ∀ acc, foldM (λ acc x, match conv zero x with Ok a => Ok (acc ++ [a]) | Err e => Err e end)
    acc (f <$> l) = Ok (acc ++ l)); [|by apply (Hg [])].
  induction Hl as [|a l Ha Hl IH]; intros acc; cbn; [by rewrite app_nil_r|].
  rewrite Ha, IH. by rewrite <-app_assoc.
Qed.

Lemma asSchema_schemaJSON e :
  (0 <= csm_Version e < 2 ^ 64)%Z → asSchema zeroSchema (schemaJSON e) = Ok e.
Proof.
  intros Hv. destruct e as [id v f]. cbn in Hv. cbn. by rewrite intLit_pretty, decide_True.
Qed.

(** A literal is ASCII text. *)
Local Ltac literal := vm_compute; repeat split; lia.

Lemma manifestJSON_printable man : manifest_text man → printable (manifestJSON man).
Proof.
  intros [_ Hn [Hs _] He Hc]. apply printable_obj, Forall_app. split.
  - repeat (apply Forall_cons; split; [cbn [fst snd]; (split; [literal|])|]); try done.
    + by exists (man_Version man).
    + apply printable_arr, Forall_fmap. eapply Forall_impl; [exact He|].
      intros e (? & ? & _). apply printable_obj.
      repeat (apply Forall_cons; split; [cbn [fst snd]; (split; [literal|])|]); try done.
      by exists (csm_Version e).
  - destruct (man_ServerChain man) as [|x l] eqn:E; [constructor|].
    constructor; [|constructor]. split; [literal|]. by apply printable_arr, Forall_fmap.
Qed.

Lemma foldM_cons {A B} (f : B → A → res B) b x l :
  foldM f b (x :: l) = match f b x with Ok b => foldM f b l | Err e => Err e end.
Proof. done. Qed.

(** Decoding a manifest inverts encoding it. *)
Lemma manifest_roundtrip man :
  manifest_text man → ∃ b, manifest_MarshalIndent man = Ok b ∧ manifest_Unmarshal b = Ok man.
Proof.
  intros Hm. eexists. split; [done|]. unfold manifest_Unmarshal.
  rewrite json_roundtrip by by apply manifestJSON_printable.
  destruct Hm as [Hv _ [_ Ht] He _]. destruct man as [v ns t es chain]. cbn in Hv, Ht, He.
  assert (Hes : asList zeroSchema asSchema [] (JArr (schemaJSON <$> es)) = Ok es).
  { apply asList_map. eapply Forall_impl; [exact He|]. intros e (_ & _ & ?). by apply asSchema_schemaJSON. }
  assert (Hch : asList "" asString [] (JArr (JStr <$> chain)) = Ok chain).
  { apply asList_map. by apply Forall_true. }
  pose proof (asInt_pretty _ _ 0 _ Hv) as Hvv.
  pose (m v ns t es chain := {| man_Version := v; man_Namespace := ns; man_SavedAt := t;
    man_Schemas := es; man_ServerChain := chain |}).
  assert (A1 : assignManifest zeroManifest ("version", JNum (pretty v))
    = Ok (m v "" (man_SavedAt zeroManifest) [] [])).
  { change (assignManifest _ _) with (n ← asInt (- 2 ^ 63) (2 ^ 63) 0 (JNum (pretty v));
      Ok (m n "" (man_SavedAt zeroManifest) [] [])). by rewrite Hvv. }
  assert (A3 : ∀ old, assignManifest (m v ns old [] []) ("saved_at", JStr t) = Ok (m v ns t [] [])).
  { intros old. change (assignManifest _ _) with (t ← asTime old (JStr t); Ok (m v ns t [] [])).
    unfold asTime. by rewrite Ht. }
  assert (A4 : assignManifest (m v ns t [] []) ("schemas", JArr (schemaJSON <$> es)) = Ok (m v ns t es [])).
  { change (assignManifest _ _) with (l ← asList zeroSchema asSchema [] (JArr (schemaJSON <$> es));
      Ok (m v ns t l [])). by rewrite Hes. }
  assert (A5 : assignManifest (m v ns t es []) ("server_chain", JArr (JStr <$> chain)) = Ok (m v ns t es chain)).
  { change (assignManifest _ _) with (l ← asList "" asString [] (JArr (JStr <$> chain));
      Ok (m v ns t es l)). by rewrite Hch. }
  unfold manifestJSON. cbn [man_Version man_Namespace man_SavedAt man_Schemas man_ServerChain].
  cbn [app]. rewrite foldM_cons, A1, foldM_cons.
  change (assignManifest _ ("namespace", JStr ns)) with (Ok (m v ns (man_SavedAt zeroManifest) [] [])).
  cbn beta iota. rewrite foldM_cons, A3, foldM_cons, A4. destruct chain as [|x l]; [done|].
  by rewrite foldM_cons, A5.
Qed.
End reading.
