(* ===== verification/ClientCache.v ===== *)
(** * The client's disk cache

    Models [src/client/cache.go]: the manifest, atomic writes, persisting a resolver and
    its ancestors, and loading a stale resolver back. *)

From S2P Require Import Prelude GoProg GoStrings Descriptor Protobuf NsFiles NsTypes.
From S2P Require Import ClientSnapshot Server GoPath GoFS Client ClientManifest.
From stdpp Require Import prelude gmap strings list sorting pretty.

Open Scope string_scope.

(** The clock is a part of the outside world. *)
Class Clock (R : Type) := time_Now : R → string * R.

Definition cacheNamespaceDir (cacheRoot namespace : string) : string :=
  filepath_Join [cacheRoot; namespace].

(** The body of [atomicWrite] after the temporary file is created. *)
Definition writeTemp (tmpName path data : string) : M FileSystem unit :=
  w ← attempt (file_Write tmpName data);
  match w with
  | Err e => attempt (file_Close tmpName) ;; fail e
  | Ok _ =>
     y ← attempt (file_Sync tmpName);
     match y with
     | Err e => attempt (file_Close tmpName) ;; fail e
     | Ok _ => file_Close tmpName ;; os_Rename tmpName path
     end
  end.

(** Its deferred function: remove the temporary file if it still exists. *)
Definition cleanupTemp (tmpName : string) : M FileSystem unit :=
  st ← attempt (os_Stat tmpName);
  if is_ok st then attempt (os_Remove tmpName) ;; mret tt else mret tt.

Definition atomicWrite `{TempNames} (path data : string) : M FileSystem unit :=
  tmpName ← os_CreateTemp (filepath_Dir path) (filepath_Base path);
  x ← attempt (writeTemp tmpName path data);
  cleanupTemp tmpName ;;
  of_res x.

(** [readManifest]. *)
Definition readManifest `{TimeText} (cacheDir namespace : string)
    : M FileSystem cacheManifest :=
  let manPath := filepath_Join [cacheNamespaceDir cacheDir namespace; "manifest.json"] in
  manBytes ← wrapM ("read manifest " +:+ manPath) (os_ReadFile manPath);
  man ← wrapM ("unmarshal manifest " +:+ manPath) (of_res (manifest_Unmarshal manBytes));
  if decide (man_Version man ≠ cacheManifestVersion) then
    fail (ErrNew ("manifest " +:+ manPath +:+ " has version " +:+ pretty (man_Version man) +:+
                  "; want " +:+ pretty cacheManifestVersion))
  else if decide (man_Namespace man ≠ namespace) then
    fail (ErrNew ("manifest " +:+ manPath +:+ " namespace mismatch: got " +:+
                  quote (man_Namespace man) +:+ " want " +:+ quote namespace))
  else mret man.

(** The name of the file of a schema version. *)
Definition cacheFileName (id : string) (version : Z) : string :=
  id +:+ "@" +:+ pretty version +:+ ".pb".

Definition ErrStaleResolver : error :=
  ErrNew "protoregistry/client: resolver loaded from disk cache; refresh not possible".

Section ClientCache.
Context `{Protoreflect, ProtoTypes, GoRange} {R : Type} `{RegistryConn R}.
Context `{TempNames, TimeText, !Clock R}.

(** Write the file of one schema; a view without its bytes is skipped. *)
Definition persistSchema (schemasDir : string) (snap : nsSnapshot)
    (acc : list cacheSchemaManifest) (id : string) : Prog (World R) (list cacheSchemaManifest) :=
  match sn_schemas snap !! id with
  | None => mret acc
  | Some ss =>
     if decide (ss_rawDescriptorSet ss = "") then mret acc
     else
       let fname := cacheFileName id (ss_version ss) in
       let dst := filepath_Join [schemasDir; fname] in
       wrapP ("write schema cache " +:+ dst) (on_fs (atomicWrite dst (ss_rawDescriptorSet ss))) ;;
       mret (acc ++ [{| csm_SchemaID := id; csm_Version := ss_version ss; csm_File := fname |}])%list
  end.

(** The manifest of a namespace; the chain starts with the namespace itself. *)
Definition newManifest (namespace : string) (ancestorIDs : list string) (now : string)
    (schemas : list cacheSchemaManifest) : cacheManifest :=
  {| man_Version := cacheManifestVersion; man_Namespace := namespace;
     man_SavedAt := now; man_Schemas := schemas;
     man_ServerChain := match ancestorIDs with
                        | [] => []
                        | _ => namespace :: ancestorIDs
                        end |}.

(** Write one namespace: the schema files, then the manifest. *)
Definition persistOwn (r : Resolver) (ancestorIDs : list string) (snap : nsSnapshot)
    : Prog (World R) unit :=
  let nsDir := cacheNamespaceDir (cfg_cacheDir (r_cfg r)) (r_ns r) in
  let schemasDir := filepath_Join [nsDir; "schemas"] in
  wrapP ("creating cache dir " +:+ schemasDir) (on_fs (os_MkdirAll schemasDir)) ;;
  now ← on_srv (λ srv, let '(now, srv) := time_Now srv in (Ok now, srv));
  schemas ← foldP (persistSchema schemasDir snap) [] (sortedIDs snap);
  manBytes ← wrapP "marshal manifest"
    (of_resP (manifest_MarshalIndent (newManifest (r_ns r) ancestorIDs now schemas)));
  let manPath := filepath_Join [nsDir; "manifest.json"] in
  wrapP ("write manifest " +:+ manPath) (on_fs (atomicWrite manPath manBytes)).

(** [persist]; ancestors are older objects, so the heap bounds the recursion. *)
Fixpoint persistFrom (fuel : nat) (i : nat) : Prog (World R) unit :=
  match fuel with
  | O => failP out_of_fuel
  | S fuel =>
     r ← deref i;
     if decide (cfg_cacheDir (r_cfg r) = "") then mret tt else
     match r_snapshot r with
     | None => mret tt
     | Some snap =>
        if decide (sn_schemas snap = ∅) then mret tt
        else
          ancestors ← getsP (λ w, ancestorsOf (w_heap w) r);
          persistOwn r (r_ns <$> ancestors) snap ;;
          forP_ (r_ancestors r) (λ a,
            ra ← deref a;
            wrapP ("persist ancestor " +:+ r_ns ra) (persistFrom fuel a))
     end
  end.

Definition persist (r : option nat) : Prog (World R) unit :=
  match r with
  | None => mret tt
  | Some i => λ w, persistFrom (S (length (w_heap w))) i w
  end.

(** Read and compile the file of one manifest entry. *)
Definition loadSchema (r : Resolver) (nsDir : string) (snap : nsSnapshot)
    (sm : cacheSchemaManifest) : Prog (World R) nsSnapshot :=
  if negb (tracksSchema r (csm_SchemaID sm)) then mret snap
  else if decide (csm_File sm ≠ filepath_Base (csm_File sm)) then
    failP (ErrNew ("cached schema file name " +:+ quote (csm_File sm) +:+
                   " contains path separators"))
  else
    let path := filepath_Join [nsDir; "schemas"; csm_File sm] in
    raw ← wrapP ("read cached schema " +:+ path) (on_fs (os_ReadFile path));
    fdset ← wrapP ("unmarshal cached schema " +:+ path) (of_resP (Unmarshal raw));
    ss ← wrapP ("compile cached schema " +:+ path)
           (of_outcome (compileSchema (r_ns r) (csm_SchemaID sm) (csm_Version sm) fdset raw));
    mret (put_schema (csm_SchemaID sm) ss snap).

(** The resolver that is loaded: no connection, no refresh. *)
Definition cachedResolver (namespace : string) (cfg : config) (parent : option nat) : Resolver :=
  let cfg := match parent with
             | Some p => set_parents (Some (FilesOf p)) (Some (TypesOf p)) cfg
             | None => cfg
             end in
  {| r_conn := None; r_ownsConn := false; r_rpc := None; r_ns := namespace;
     r_cfg := set_refresh 0 cfg; r_snapshot := None; r_agg := newAgg;
     r_running := false; r_ancestors := []; r_fromCache := true |}.

Definition loadSingleNamespaceFromCache (cacheDir namespace : string) (cfg : config)
    (parent : option nat) : Prog (World R) nat :=
  man ← on_fs (readManifest cacheDir namespace);
  let r := cachedResolver namespace cfg parent in
  i ← alloc r;
  let nsDir := cacheNamespaceDir cacheDir namespace in
  snap ← foldP (loadSchema r nsDir) newSnapshot (man_Schemas man);
  snap ← indexSnapshot snap;
  applyAll i snap ;;
  update i (set_snapshot snap) ;;
  mret i.

(** Load the ancestors of a chain, the last one first; the most recent is the parent. *)
Definition loadAncestor (cacheDir : string) (cfg : config) (acc : list nat * option nat)
    (namespace : string) : Prog (World R) (list nat * option nat) :=
  let '(ancestors, parent) := acc in
  a ← attemptP (loadSingleNamespaceFromCache cacheDir namespace cfg parent);
  match a with
  | Err e =>
     closeAll ancestors ;;
     failP (ErrWrap ("loading cached ancestor " +:+ namespace) e)
  | Ok a => mret ((ancestors ++ [a])%list, Some a)
  end.

Definition loadFromCache (cacheDir namespace : string) (cfg : config) : Prog (World R) nat :=
  if decide (cacheDir = "") then failP (ErrNew "loadFromCache: empty cacheDir") else
  mainMan ← on_fs (readManifest cacheDir namespace);
  let chain := man_ServerChain mainMan in
  if decide (cfg_useServerChain cfg = false ∨ (length chain ≤ 1)%nat) then
    loadSingleNamespaceFromCache cacheDir namespace cfg None
  else
    let ancestorCfg := set_chain false (set_schemas [] cfg) in
    acc ← foldP (loadAncestor cacheDir ancestorCfg) ([], None) (reverse (tail chain));
    let '(ancestors, parent) := acc in
    main ← attemptP (loadSingleNamespaceFromCache cacheDir namespace cfg parent);
    match main with
    | Err e => closeAll ancestors ;; failP e
    | Ok main => update main (set_ancestors ancestors) ;; mret main
    end.

Definition IsStale (r : option Resolver) : bool :=
  match r with None => false | Some r => r_fromCache r end.

End ClientCache.
