(* ===== verification/ClientRefresh.v ===== *)
(** * Construction and refresh of client resolvers

    Models [New], [Dial] of [src/client/client.go], [dialOnline] of [src/client/cache.go]
    and [src/client/refresh.go]. *)

From S2P Require Import Prelude GoProg GoStrings Descriptor Protobuf NsFiles NsTypes.
From S2P Require Import ClientSnapshot Server GoFS Client ClientManifest ClientCache.
From stdpp Require Import prelude gmap strings list sorting pretty.

Open Scope string_scope.

Section order.
Context `{ProtoTypes, ProtoFiles}.
(** The order [sort.Slice] is given. *)
Definition schema_le (a b : schemaSnapshot) : Prop := String.le (ss_schemaID a) (ss_schemaID b).
#[global] Instance schema_le_dec : RelDecision schema_le :=
  λ a b, String.le_dec (ss_schemaID a) (ss_schemaID b).
End order.

Section ClientRefresh.
Context `{Protoreflect, ProtoTypes, GoRange} {R : Type} `{RegistryConn R}.
Context `{TempNames, TimeText, !Clock R}.

(** ** Refresh *)

(** What the scan of the listing has found: the next snapshot, the new views, and the
    replaced views with their replacements. *)
Record scan := {
  sc_next : nsSnapshot; sc_added : list schemaSnapshot;
  sc_replaced : list (schemaSnapshot * schemaSnapshot) }.

Definition scan_empty : scan := {| sc_next := newSnapshot; sc_added := []; sc_replaced := [] |}.

(** The body of the loop over the listing. *)
Definition scanInfo (r : Resolver) (cur : option nsSnapshot) (sc : scan) (info : SchemaInfo)
    : Prog (World R) scan :=
  match si_CurrentVersion info with
  | None => mret sc
  | Some version =>
     let id := si_SchemaId info in
     let fetch := wrapP ("refresh fetch " +:+ id +:+ "@" +:+ pretty version)
                    (fetchSchema r id version) in
     match cur ≫= λ cur, sn_schemas cur !! id with
     | Some existing =>
        if decide (ss_version existing = version) then
          mret {| sc_next := put_schema id existing (sc_next sc);
                  sc_added := sc_added sc; sc_replaced := sc_replaced sc |}
        else
          fresh ← fetch;
          mret {| sc_next := put_schema id fresh (sc_next sc); sc_added := sc_added sc;
                  sc_replaced := (sc_replaced sc ++ [(existing, fresh)])%list |}
     | None =>
        fresh ← fetch;
        mret {| sc_next := put_schema id fresh (sc_next sc);
                sc_added := (sc_added sc ++ [fresh])%list; sc_replaced := sc_replaced sc |}
     end
  end.

(** The views of [cur] that are not in [next]. *)
Definition removedViews (cur : option nsSnapshot) (next : nsSnapshot) : list schemaSnapshot :=
  match cur with
  | None => []
  | Some cur =>
     (filter (λ kv, sn_schemas next !! kv.1 = None) (go_range (sn_schemas cur))).*2
  end.

(** Apply the difference to the aggregate: removals first, then the new views in the order
    of their identifiers. *)
Definition applyDiff (i : nat) (removed : list schemaSnapshot) (sc : scan)
    : Prog (World R) unit :=
  forP_ removed (λ ss,
    wrapP "refresh aggregate remove" (on_agg i (removeFromAggregate ss))) ;;
  forP_ (sc_replaced sc) (λ rep,
    wrapP "refresh aggregate replace (remove old)" (on_agg i (removeFromAggregate rep.1))) ;;
  forP_ (merge_sort schema_le (sc_added sc ++ (sc_replaced sc).*2)%list) (λ ss,
    wrapP "refresh aggregate apply" (on_agg i (applyToAggregate ss))).

(** The end of a refresh that found a difference: index the next snapshot, apply the
    difference, store the snapshot, log, and save the cache. *)
Definition installNext (i : nat) (r : Resolver) (removed : list schemaSnapshot) (sc : scan)
    : Prog (World R) unit :=
  next ← indexSnapshot (sc_next sc);
  applyDiff i removed sc ;;
  update i (set_snapshot next) ;;
  clientLog (ClientDebug "snapshot refreshed" (r_ns r) (size (sn_schemas next))
               (length (sc_added sc)) (length (sc_replaced sc)) (length removed)) ;;
  (if decide (cfg_cacheDir (r_cfg r) = "") then mret tt
   else
     perr ← attemptP (persist (Some i));
     match perr with
     | Ok _ => mret tt
     | Err e =>
        clientLog (ClientWarn "cache persist failed; in-memory snapshot still authoritative"
                     (r_ns r) e)
     end).

Definition Refresh (fuel : nat) (i : nat) : Prog (World R) unit :=
  r ← deref i;
  if r_fromCache r then failP ErrStaleResolver else
  infos ← wrapP "refresh list_schemas" (listAllSchemas fuel r);
  let cur := r_snapshot r in
  sc ← foldP (scanInfo r cur) scan_empty infos;
  let removed := removedViews cur (sc_next sc) in
  match sc_added sc, sc_replaced sc, removed, cur with
  | [], [], [], Some _ => mret tt
  | _, _, _, _ => installNext i r removed sc
  end.

(** One tick of [refreshLoop] of resolver [i], while its goroutine runs. *)
Definition refreshTick (fuel : nat) (i : nat) : Prog (World R) unit :=
  r ← deref i;
  if r_running r then
    x ← attemptP (Refresh fuel i);
    match x with
    | Ok _ => mret tt
    | Err e => clientLog (ClientWarn "refresh failed; serving stale snapshot" (r_ns r) e)
    end
  else mret tt.

(** ** Construction *)

(** Persist a new resolver; a failure is logged. *)
Definition initialPersist (cfg : config) (namespace : string) (i : nat) : Prog (World R) unit :=
  if decide (cfg_cacheDir cfg = "") then mret tt
  else
    perr ← attemptP (persist (Some i));
    match perr with
    | Ok _ => mret tt
    | Err e => clientLog (ClientWarn "initial cache persist failed" namespace e)
    end.

(** Build the resolvers of the ancestors, the root first; each is the parent of the next. *)
Definition newAncestor (fuel conn : nat) (cfg : config) (acc : list nat * option nat)
    (namespace : string) : Prog (World R) (list nat * option nat) :=
  let '(ancestors, parent) := acc in
  a ← attemptP (newSingleNamespace fuel conn namespace cfg parent);
  match a with
  | Err e =>
     closeAll ancestors ;;
     failP (ErrWrap ("protoregistry/client: loading ancestor " +:+ namespace) e)
  | Ok a => mret ((ancestors ++ [a])%list, Some a)
  end.

Definition New (fuel : nat) (conn : option nat) (namespace : string) (opts : list ClientOption)
    : Prog (World R) nat :=
  match conn with
  | None => failP (ErrNew "protoregistry/client: nil grpc.ClientConn")
  | Some conn =>
  if decide (namespace = "") then failP (ErrNew "protoregistry/client: empty namespace") else
  let cfg := apply_options opts in
  if negb (cfg_useServerChain cfg) then
    i ← newSingleNamespace fuel conn namespace cfg None;
    initialPersist cfg namespace i ;;
    mret i
  else
    chain ← wrapP ("protoregistry/client: fetching namespace chain for " +:+ namespace)
              (on_srv (rpc_GetNamespaceChain conn namespace));
    if decide (head chain ≠ Some namespace) then
      failP (ErrNew ("protoregistry/client: malformed chain for " +:+ namespace +:+ ": [" +:+
                     strings_Join chain " " +:+ "]"))
    else
      let ancestorCfg := set_chain false (set_schemas [] cfg) in
      acc ← foldP (newAncestor fuel conn ancestorCfg) ([], None) (reverse (tail chain));
      let '(ancestors, parent) := acc in
      main ← attemptP (newSingleNamespace fuel conn namespace cfg parent);
      match main with
      | Err e => closeAll ancestors ;; failP e
      | Ok main =>
         update main (set_ancestors ancestors) ;;
         initialPersist cfg namespace main ;;
         mret main
      end
  end.

Definition dialOnline (fuel : nat) (addr namespace : string) (cfg : config)
    (opts : list ClientOption) : Prog (World R) nat :=
  conn ← wrapP ("protoregistry/client: dialing " +:+ addr)
    (on_srv (grpc_NewClient addr (cfg_transportCreds cfg)
               (if decide (cfg_token cfg = "") then None else Some (cfg_token cfg))));
  r ← attemptP (New fuel (Some conn) namespace opts);
  match r with
  | Err e => attemptP (on_srv (conn_Close conn)) ;; failP e
  | Ok r => update r (set_ownsConn true) ;; mret r
  end.

Definition Dial `{DriverText} (fuel : nat) (addr namespace : string) (opts : list ClientOption)
    : Prog (World R) nat :=
  let cfg := apply_options opts in
  r ← attemptP (dialOnline fuel addr namespace cfg opts);
  match r with
  | Ok r => mret r
  | Err onlineErr =>
     if decide (cfg_cacheDir cfg = "") then failP onlineErr
     else
       cached ← attemptP (loadFromCache (cfg_cacheDir cfg) namespace cfg);
       match cached with
       | Err cacheErr =>
          failP (ErrNew ("registry unreachable (" +:+ error_Error onlineErr +:+
                         ") and cache load failed (" +:+ error_Error cacheErr +:+ ")"))
       | Ok cached =>
          clientLog (ClientWarn "registry unreachable; serving from disk cache" namespace onlineErr) ;;
          mret cached
       end
  end.

End ClientRefresh.
