(* ===== verification/ClientRefreshThms.v ===== *)
(** * Refresh keeps the client's views and aggregate in step with the server

    [resolver_rep p s] says that the aggregate [p] of a resolver holds exactly the files
    of the schemas of its snapshot [s], and that the name index of [s] is exact. A refresh
    applies a difference; it is shown to end in the state a rebuild from the server's
    listing would reach, or to leave the resolver as it was. *)

From S2P Require Import Prelude GoProg GoStrings Descriptor Protobuf NsFiles NsTypes.
From S2P Require Import NsFilesThms NsTypesThms ClientSnapshot ClientSnapshotThms.
From S2P Require Import ClientAggregate Server GoFS Client ClientManifest ClientCache ClientRefresh.
From stdpp Require Import prelude gmap strings list sorting.

Open Scope string_scope.
Open Scope list_scope.

(** ** Programs that leave the client's own state alone *)

Section frame.
Context `{Protoreflect, ProtoTypes, GoRange} {R : Type} `{RegistryConn R}.
Implicit Types (w : World R).

Definition same_client w w' : Prop :=
  w_heap w' = w_heap w ∧ w_fs w' = w_fs w ∧ w_log w' = w_log w.

Definition remote_only {A} (m : Prog (World R) A) : Prop :=
  ∀ w, match m w with Returns (_, w') => same_client w w' | Panics => True end.

Lemma same_client_refl w : same_client w w.
Proof. done. Qed.

Lemma same_client_trans w w' w'' : same_client w w' → same_client w' w'' → same_client w w''.
Proof. intros (? & ? & ?) (? & ? & ?). split_and!; congruence. Qed.

Lemma remote_ret {A} (a : A) : remote_only (mret a).
Proof. by intros w. Qed.
Lemma remote_fail {A} e : remote_only (failP (A := A) e).
Proof. by intros w. Qed.
Lemma remote_of_res {A} (r : res A) : remote_only (of_resP r).
Proof. by intros w. Qed.
Lemma remote_of_outcome {A} (x : outcome (res A)) : remote_only (of_outcome x).
Proof. intros w. by destruct x. Qed.
Lemma remote_on_srv {A} (m : M R A) : remote_only (on_srv m).
Proof. intros w. unfold on_srv, zoom, liftM. by destruct (m (w_srv w)). Qed.
Lemma remote_callRPC {A} r (f : nat → M R A) : remote_only (callRPC r f).
Proof. unfold callRPC. destruct (r_rpc r); [apply remote_on_srv|by intros w]. Qed.
Lemma remote_bind {A B} (m : Prog (World R) A) (f : A → Prog (World R) B) :
  remote_only m → (∀ a, remote_only (f a)) → remote_only (m ≫= f).
Proof.
  intros Hm Hf w. specialize (Hm w). unfold mbind, Prog_bind.
  destruct (m w) as [[[a|e] w1]|]; [|done..]. specialize (Hf a w1).
  destruct (f a w1) as [[? w2]|]; [|done]. by eapply same_client_trans.
Qed.
Lemma remote_wrap {A} c (m : Prog (World R) A) : remote_only m → remote_only (wrapP c m).
Proof. intros Hm w. specialize (Hm w). unfold wrapP. by destruct (m w) as [[]|]. Qed.
Lemma remote_foldP {A B} (f : B → A → Prog (World R) B) b l :
  (∀ b x, remote_only (f b x)) → remote_only (foldP f b l).
Proof.
  intros Hf. revert b. induction l as [|x l IH]; intros b; cbn; [apply remote_ret|].
  apply remote_bind; [apply Hf|apply IH].
Qed.

Lemma remote_listPages fuel r page all : remote_only (listPages fuel r page all).
Proof.
  revert page all. induction fuel as [|fuel IH]; intros page all; cbn; [apply remote_fail|].
  apply remote_bind; [apply remote_callRPC|]. intros resp.
  case_decide; [apply remote_ret|apply IH].
Qed.

Lemma remote_fetchSchema r id v : remote_only (fetchSchema r id v).
Proof.
  unfold fetchSchema. apply remote_bind; [apply remote_wrap, remote_callRPC|]. intros resp.
  apply remote_bind; [apply remote_wrap, remote_of_res|]. intros raw. apply remote_of_outcome.
Qed.

Lemma remote_indexSnapshot s : remote_only (indexSnapshot s).
Proof.
  unfold indexSnapshot. destruct (buildNameIndex s).
  apply remote_bind; [apply remote_of_res|]. intros. apply remote_ret.
Qed.
End frame.

Create HintDb remote discriminated.
#[export] Hint Resolve remote_ret remote_fail remote_of_res remote_of_outcome remote_on_srv
  remote_callRPC remote_bind remote_wrap remote_foldP remote_listPages remote_fetchSchema
  remote_indexSnapshot : remote.

(** ** Snapshots and aggregates *)

Section rep.
Context `{Protoreflect, ProtoTypes, GoRange} {R : Type} `{RegistryConn R}.
Implicit Types (w : World R) (s : nsSnapshot) (ss : schemaSnapshot) (p : regPair).

(** The files of a list of views. *)
Definition viewFiles (l : list schemaSnapshot) : list FileDescriptor := flat_map schemaFiles l.

(** The files of all schemas of a snapshot. *)
Definition snapFiles s : list FileDescriptor := viewFiles (go_range (sn_schemas s)).*2.

Definition compiled ss : Prop := ∃ fs, schema_rep ss fs.

Record resolver_rep p s : Prop := {
  rr_compiled id ss : sn_schemas s !! id = Some ss → compiled ss;
  rr_coherent : coherent (snapFiles s);
  rr_agg : agg_rep p (snapFiles s);
  rr_index n id : sn_nameIndex s !! n = Some id ↔ declares s n id }.

Lemma viewFiles_app l k : viewFiles (l ++ k) = viewFiles l ++ viewFiles k.
Proof. apply flat_map_app. Qed.

#[global] Instance viewFiles_perm : Proper ((≡ₚ) ==> (≡ₚ)) viewFiles.
Proof. intros l l' Hl. unfold viewFiles. by rewrite Hl. Qed.

(** ** The loops over the aggregate *)

Lemma remove_view p ss K :
  compiled ss → agg_rep p (schemaFiles ss ++ K) → coherent (schemaFiles ss ++ K) →
  ∃ p', removeFromAggregate ss p = Returns (Ok tt, p') ∧ agg_rep p' K.
Proof.
  intros [fs Hss] Hp Hc. pose proof (schemaFiles_rep _ _ Hss) as Hfs.
  eapply (removeFromAggregate_rep p ss fs K); [apply Hss| |].
  - eapply agg_rep_perm; [apply (co_paths _ Hc)|by rewrite Hfs|done].
  - by rewrite <-Hfs.
Qed.

Lemma remove_views p l K (c : string) :
  (∀ ss, ss ∈ l → compiled ss) → agg_rep p (viewFiles l ++ K) → coherent (viewFiles l ++ K) →
  ∃ p', forP_ l (λ ss, wrapP c (removeFromAggregate ss)) p = Returns (Ok tt, p') ∧ agg_rep p' K.
Proof.
  revert p. induction l as [|ss l IH]; intros p Hl Hp Hc; [by exists p|].
  cbn [viewFiles flat_map] in *. rewrite <-app_assoc in *.
  destruct (remove_view p ss (viewFiles l ++ K)) as (p1 & E1 & Hp1); [apply Hl; left|done..|].
  destruct (IH p1) as (p2 & E2 & Hp2); [intros; apply Hl; by right|done|by eapply coherent_app_r|].
  exists p2. split; [|done]. cbn [forP_]. unfold mbind, Prog_bind, wrapP at 1. rewrite E1. done.
Qed.

Lemma apply_views p l K (c : string) :
  agg_rep p K → coherent (viewFiles l ++ K) →
  ∃ p', forP_ l (λ ss, wrapP c (applyToAggregate ss)) p = Returns (Ok tt, p') ∧
        agg_rep p' (viewFiles l ++ K).
Proof.
  revert p K. induction l as [|ss l IH]; intros p K Hp Hc; [by exists p|].
  cbn [viewFiles flat_map] in *. fold (viewFiles l) in *.
  assert (Hc' : coherent (viewFiles l ++ schemaFiles ss ++ K)).
  { by rewrite Permutation_app_swap_app, app_assoc. }
  destruct (applyToAggregate_rep p ss K) as (p1 & E1 & Hp1); [done|by eapply coherent_app_r|].
  destruct (IH p1 _ Hp1 Hc') as (p2 & E2 & Hp2).
  exists p2. split.
  - cbn [forP_]. unfold mbind, Prog_bind, wrapP at 1. rewrite E1. done.
  - eapply agg_rep_perm; [apply (co_paths _ Hc')| |done].
    by rewrite Permutation_app_swap_app, app_assoc.
Qed.

(** A loop of aggregate mutations is a mutation. *)
Lemma alter_set_agg (h : list Resolver) i p q :
  alter (set_agg q) i (alter (set_agg p) i h) = alter (set_agg q) i h.
Proof.
  apply list_eq. intros j. destruct (decide (i = j)) as [<-|].
  - rewrite !list_lookup_alter_eq. by destruct (h !! i).
  - by rewrite !list_lookup_alter_ne.
Qed.

Lemma set_agg_id (h : list Resolver) i r : h !! i = Some r → alter (set_agg (r_agg r)) i h = h.
Proof.
  intros Hr. apply list_eq. intros j. destruct (decide (i = j)) as [<-|].
  - rewrite list_lookup_alter_eq, Hr. by destruct r.
  - by rewrite list_lookup_alter_ne.
Qed.

Lemma set_heap_heap w h h' : set_heap h (set_heap h' w) = set_heap h w.
Proof. done. Qed.

Lemma forP_on_agg {A} i (l : list A) (c : string) (f : A → Prog regPair unit) w r p' :
  w_heap w !! i = Some r →
  forP_ l (λ x, wrapP c (f x)) (r_agg r) = Returns (Ok tt, p') →
  forP_ l (λ x, wrapP c (on_agg i (f x))) w
    = Returns (Ok tt, set_heap (alter (set_agg p') i (w_heap w)) w).
Proof.
  revert w r. induction l as [|x l IH]; intros w r Hr E; cbn [forP_] in *.
  { injection E as <-. rewrite set_agg_id by done. by destruct w. }
  apply Prog_bind_Ok in E as ([] & p1 & E1%wrapP_Ok & E2).
  unfold mbind, Prog_bind, wrapP at 1, on_agg at 1. rewrite Hr, E1. cbn.
  rewrite (IH _ (set_agg p1 r)); [|by cbn; rewrite list_lookup_alter_eq, Hr|done].
  cbn. by rewrite alter_set_agg.
Qed.

(** ** The scan of the listing *)

(** The view is what the resolver should hold for schema [id] at version [v]: the view it
    has of that version, or a freshly fetched one. *)
Definition current_view (r : Resolver) s0 (id : string) (v : Z) ss : Prop :=
  (sn_schemas s0 !! id = Some ss ∧ ss_version ss = v) ∨
  ∃ w w', fetchSchema r id v w = Returns (Ok ss, w').

(** A snapshot holds exactly the current versions of a listing. *)
Definition matches_listing (r : Resolver) s0 (infos : list SchemaInfo) s : Prop :=
  (∀ info v, info ∈ infos → si_CurrentVersion info = Some v →
     ∃ ss, sn_schemas s !! si_SchemaId info = Some ss ∧
           current_view r s0 (si_SchemaId info) v ss) ∧
  (∀ id, is_Some (sn_schemas s !! id) →
     ∃ info, info ∈ infos ∧ si_SchemaId info = id ∧ is_Some (si_CurrentVersion info)).

(** The scan splits the next snapshot into added, fresh and kept views, and the current one
    into old, kept and (later) removed views. *)
Record scan_inv (r : Resolver) s0 (infos : list SchemaInfo) (sc : scan)
    (La Lf Lk Lo : list (string * schemaSnapshot)) : Prop := {
  sv_next : map_to_list (sn_schemas (sc_next sc)) ≡ₚ La ++ Lf ++ Lk;
  sv_index : sn_nameIndex (sc_next sc) = ∅;
  sv_added : sc_added sc = La.*2;
  sv_old : (sc_replaced sc).*1 = Lo.*2;
  sv_fresh : (sc_replaced sc).*2 = Lf.*2;
  sv_ids : Lo.*1 = Lf.*1;
  sv_cur id ss : (id, ss) ∈ Lo ++ Lk → sn_schemas s0 !! id = Some ss;
  sv_new id : id ∈ La.*1 → sn_schemas s0 !! id = None;
  sv_compiled x : x ∈ La ++ Lf → compiled x.2;
  sv_listing : matches_listing r s0 infos (sc_next sc) }.

Lemma scan_inv_empty r s0 : scan_inv r s0 [] scan_empty [] [] [] [].
Proof.
  split; cbn; [done..|set_solver|set_solver|set_solver|].
  split; [set_solver|]. intros id [ss Hss]. cbn in Hss. by rewrite lookup_empty in Hss.
Qed.

Context `{!ProtoFilesLaws, !ProtodescLaws}.

Lemma fetchSchema_compiled r id v w ss w' :
  fetchSchema r id v w = Returns (Ok ss, w') → compiled ss.
Proof.
  intros (resp & w1 & _ & E)%Prog_bind_Ok. apply Prog_bind_Ok in E as (raw & w2 & _ & E).
  unfold of_outcome in E. destruct (compileSchema _ _ _ _ _) as [x|] eqn:Ec; [|done].
  injection E as -> <-. apply compileSchema_rep in Ec as (fs & _ & Hss & _). by exists (Files_RangeFiles fs).
Qed.

(** One more entry of the listing that has a current version. *)
Lemma matches_listing_put r s0 infos s info v ss :
  matches_listing r s0 infos s → si_SchemaId info ∉ si_SchemaId <$> infos →
  si_CurrentVersion info = Some v → current_view r s0 (si_SchemaId info) v ss →
  matches_listing r s0 (infos ++ [info]) (put_schema (si_SchemaId info) ss s).
Proof.
  intros [Hl1 Hl2] Hid Hv Hss. split.
  - intros info' v' [Hin| ->%list_elem_of_singleton]%elem_of_app Hv'; cbn.
    + rewrite lookup_insert_ne; [by apply Hl1|]. intros E. apply Hid. rewrite E.
      by apply list_elem_of_fmap_2.
    + rewrite lookup_insert_eq. exists ss. split; [done|]. congruence.
  - intros id. cbn. rewrite lookup_insert_is_Some. intros [<-|[_ Hx]].
    + exists info. split; [apply elem_of_app; right; left|]. split; [done|by rewrite Hv].
    + destruct (Hl2 _ Hx) as (i & ? & ? & ?). exists i. split; [apply elem_of_app; by left|done].
Qed.

Lemma matches_listing_skip r s0 infos s info :
  matches_listing r s0 infos s → si_CurrentVersion info = None →
  matches_listing r s0 (infos ++ [info]) s.
Proof.
  intros [Hl1 Hl2] Hv. split.
  - intros i v [Hin| ->%list_elem_of_singleton]%elem_of_app Hv'; [by apply Hl1|congruence].
  - intros id Hx. destruct (Hl2 _ Hx) as (i & ? & ? & ?). exists i.
    split; [apply elem_of_app; by left|done].
Qed.

Lemma matches_listing_fresh r s0 infos s id :
  matches_listing r s0 infos s → id ∉ si_SchemaId <$> infos → sn_schemas s !! id = None.
Proof.
  intros [_ Hl2] Hid. apply eq_None_not_Some. intros Hx. destruct (Hl2 _ Hx) as (i & Hi & <- & _).
  apply Hid. by apply list_elem_of_fmap_2.
Qed.

Lemma scanInfo_inv r s0 infos sc La Lf Lk Lo info w sc' w' :
  scan_inv r s0 infos sc La Lf Lk Lo → si_SchemaId info ∉ si_SchemaId <$> infos →
  scanInfo r (Some s0) sc info w = Returns (Ok sc', w') →
  ∃ La Lf Lk Lo, scan_inv r s0 (infos ++ [info]) sc' La Lf Lk Lo.
Proof.
  intros [Hn Hi Ha Ho Hf Hids Hc Hnew Hcomp Hl] Hid E. unfold scanInfo in E.
  pose proof (matches_listing_fresh _ _ _ _ _ Hl Hid) as Hnone.
  destruct (si_CurrentVersion info) as [v|] eqn:Ev.
  2: { injection E as <- _. exists La, Lf, Lk, Lo. split; try done. by apply matches_listing_skip. }
  cbn in E. destruct (sn_schemas s0 !! si_SchemaId info) as [old|] eqn:Eo.
  - case_decide as Hv.
    + injection E as <- _. exists La, Lf, ((si_SchemaId info, old) :: Lk), Lo. split; cbn; try done.
      * rewrite map_to_list_insert, Hn by done. rewrite !app_assoc. apply Permutation_middle.
      * intros id ss [?|[[= -> ->]|?]%elem_of_cons]%elem_of_app;
          [apply Hc, elem_of_app; by left|done|apply Hc, elem_of_app; by right].
      * apply (matches_listing_put _ _ _ _ _ v); [done..|]. by left.
    + apply Prog_bind_Ok in E as (fresh & w1 & E1%wrapP_Ok & E). injection E as <- _.
      exists La, (Lf ++ [(si_SchemaId info, fresh)]), Lk, (Lo ++ [(si_SchemaId info, old)]).
      split; cbn; try done.
      * rewrite map_to_list_insert, Hn by done. rewrite <-app_assoc, !app_assoc.
        rewrite <-(app_assoc _ [_]). apply Permutation_middle.
      * by rewrite !fmap_app, Ho.
      * by rewrite !fmap_app, Hf.
      * by rewrite !fmap_app, Hids.
      * intros id ss. rewrite !elem_of_app, list_elem_of_singleton. intros [[?|[= -> ->]]|?];
          [apply Hc, elem_of_app; by left|done|apply Hc, elem_of_app; by right].
      * intros x. rewrite app_assoc, elem_of_app, list_elem_of_singleton.
        intros [?| ->]; [by apply Hcomp|]. by eapply fetchSchema_compiled.
      * apply (matches_listing_put _ _ _ _ _ v); [done..|]. right. eauto.
  - apply Prog_bind_Ok in E as (fresh & w1 & E1%wrapP_Ok & E). injection E as <- _.
    exists (La ++ [(si_SchemaId info, fresh)]), Lf, Lk, Lo. split; cbn; try done.
    + rewrite map_to_list_insert, Hn by done. rewrite <-app_assoc. apply Permutation_middle.
    + by rewrite fmap_app, Ha.
    + intros id. rewrite fmap_app, elem_of_app. cbn. rewrite list_elem_of_singleton.
      intros [?| ->]; [by apply Hnew|done].
    + intros x. rewrite <-app_assoc. intros [?|[->|?]%elem_of_cons]%elem_of_app;
        [apply Hcomp, elem_of_app; by left|by eapply fetchSchema_compiled|].
      apply Hcomp, elem_of_app. by right.
    + apply (matches_listing_put _ _ _ _ _ v); [done..|]. right. eauto.
Qed.

Lemma scan_inv_all r s0 infos pre sc La Lf Lk Lo w sc' w' :
  scan_inv r s0 pre sc La Lf Lk Lo → NoDup (si_SchemaId <$> pre ++ infos) →
  foldP (scanInfo r (Some s0)) sc infos w = Returns (Ok sc', w') →
  ∃ La Lf Lk Lo, scan_inv r s0 (pre ++ infos) sc' La Lf Lk Lo.
Proof.
  revert pre sc La Lf Lk Lo w.
  induction infos as [|info infos IH]; intros pre sc La Lf Lk Lo w Hinv Hnd E; cbn [foldP] in E.
  { injection E as <- _. rewrite app_nil_r. eauto. }
  apply Prog_bind_Ok in E as (sc1 & w1 & E1 & E2).
  assert (Hid : si_SchemaId info ∉ si_SchemaId <$> pre).
  { rewrite fmap_app in Hnd. apply NoDup_app in Hnd as (_ & Hx & _). intros Hin.
    apply (Hx _ Hin). left. }
  edestruct (scanInfo_inv _ _ _ _ _ _ _ _ _ _ _ _ Hinv Hid E1) as (? & ? & ? & ? & Hinv1).
  replace (pre ++ info :: infos) with ((pre ++ [info]) ++ infos) in * by by rewrite <-app_assoc.
  eauto.
Qed.

(** The current snapshot is the removed, the old and the kept views. *)
Lemma removed_split r s0 infos sc La Lf Lk Lo :
  scan_inv r s0 infos sc La Lf Lk Lo →
  snapFiles s0 ≡ₚ viewFiles (removedViews (Some s0) (sc_next sc)) ++ viewFiles Lo.*2 ++ viewFiles Lk.*2.
Proof.
  intros [Hn _ _ _ _ Hids Hc Hnew _ _]. rewrite <-viewFiles_app, <-fmap_app, <-viewFiles_app.
  unfold snapFiles, removedViews. rewrite <-fmap_app. apply viewFiles_perm, fmap_Permutation.
  set (P := λ kv : string * schemaSnapshot, sn_schemas (sc_next sc) !! kv.1 = None).
  rewrite <-(filter_app_complement P (go_range (sn_schemas s0))) at 1.
  apply Permutation_app_head.
  assert (Hnd : NoDup (La ++ Lf ++ Lk).*1).
  { rewrite <-Hn. apply NoDup_fst_map_to_list. }
  apply NoDup_Permutation.
  - apply NoDup_filter, NoDup_go_range.
  - apply (NoDup_fmap_1 fst). rewrite fmap_app, Hids, <-fmap_app.
    rewrite fmap_app in Hnd. by apply NoDup_app in Hnd as (_ & _ & ?).
  - intros [id ss]. rewrite list_elem_of_filter, elem_of_go_range. unfold P. cbn. split.
    + intros [Hne Hs0]. destruct (sn_schemas (sc_next sc) !! id) as [ss'|] eqn:E; [|done].
      apply elem_of_map_to_list in E. rewrite Hn, !elem_of_app in E.
      destruct E as [E|[E|E]].
      * apply (list_elem_of_fmap_2 fst) in E. rewrite Hnew in Hs0; done.
      * apply (list_elem_of_fmap_2 fst) in E. rewrite <-Hids in E. cbn in E.
        apply list_elem_of_fmap in E as ([id' ss''] & -> & E). cbn in *.
        assert (sn_schemas s0 !! id' = Some ss'') by (apply Hc, elem_of_app; by left).
        apply elem_of_app. left. congruence.
      * assert (sn_schemas s0 !! id = Some ss') by (apply Hc, elem_of_app; by right).
        apply elem_of_app. right. congruence.
    + intros Hin. split; [|by apply Hc]. intros Hx.
      assert (Hk : id ∈ (La ++ Lf ++ Lk).*1).
      { rewrite !fmap_app, <-Hids, <-fmap_app, elem_of_app. right.
        by apply (list_elem_of_fmap_2 fst) in Hin. }
      rewrite <-Hn in Hk. apply list_elem_of_fmap in Hk as ([id' ss'] & -> & Hk).
      apply elem_of_map_to_list in Hk. cbn in *. congruence.
Qed.

Lemma next_split r s0 infos sc La Lf Lk Lo :
  scan_inv r s0 infos sc La Lf Lk Lo →
  snapFiles (sc_next sc) ≡ₚ viewFiles (La.*2 ++ Lf.*2) ++ viewFiles Lk.*2.
Proof.
  intros Hinv. unfold snapFiles. rewrite <-viewFiles_app, <-!fmap_app, <-app_assoc.
  apply viewFiles_perm. by rewrite go_range_perm, (sv_next _ _ _ _ _ _ _ _ Hinv).
Qed.
End rep.

(** ** Programs that return and leave the heap alone *)

Section quiet.
Context `{Protoreflect, ProtoTypes, GoRange} {R : Type} `{RegistryConn R}.
Context `{TempNames, TimeText, !Clock R}.
Implicit Types (h : list Resolver) (w : World R).

Definition quiet h {A} (m : Prog (World R) A) : Prop :=
  ∀ w, w_heap w = h → ∃ x w', m w = Returns (x, w') ∧ w_heap w' = h.

Lemma quiet_ret h {A} (a : A) : quiet h (mret a).
Proof. intros w Hw. by exists (Ok a), w. Qed.
Lemma quiet_fail h {A} e : quiet h (failP (A := A) e).
Proof. intros w Hw. by exists (Err e), w. Qed.
Lemma quiet_of_res h {A} (r : res A) : quiet h (of_resP r).
Proof. intros w Hw. by exists r, w. Qed.
Lemma quiet_gets h {A} (f : World R → A) : quiet h (getsP f).
Proof. intros w Hw. by exists (Ok (f w)), w. Qed.
Lemma quiet_deref h i : is_Some (h !! i) → quiet h (deref i).
Proof. intros [r Hr] w <-. unfold deref. rewrite Hr. by exists (Ok r), w. Qed.
Lemma quiet_log h l : quiet h (clientLog l).
Proof. intros w Hw. by eexists _, _. Qed.
Lemma quiet_on_fs h {A} (m : M FileSystem A) : quiet h (on_fs m).
Proof. intros w Hw. unfold on_fs, zoom, liftM. destruct (m (w_fs w)). by eexists _, _. Qed.
Lemma quiet_on_srv h {A} (m : M R A) : quiet h (on_srv m).
Proof. intros w Hw. unfold on_srv, zoom, liftM. destruct (m (w_srv w)). by eexists _, _. Qed.
Lemma quiet_bind h {A B} (m : Prog (World R) A) (f : A → Prog (World R) B) :
  quiet h m → (∀ a, quiet h (f a)) → quiet h (m ≫= f).
Proof.
  intros Hm Hf w Hw. destruct (Hm w Hw) as (x & w1 & E & Hw1). unfold mbind, Prog_bind.
  rewrite E. destruct x as [a|e]; [by apply Hf|]. by exists (Err e), w1.
Qed.
Lemma quiet_wrap h {A} c (m : Prog (World R) A) : quiet h m → quiet h (wrapP c m).
Proof.
  intros Hm w Hw. destruct (Hm w Hw) as (x & w1 & E & Hw1). unfold wrapP. rewrite E.
  by eexists _, _.
Qed.
Lemma quiet_attempt h {A} (m : Prog (World R) A) : quiet h m → quiet h (attemptP m).
Proof.
  intros Hm w Hw. destruct (Hm w Hw) as (x & w1 & E & Hw1). unfold attemptP. rewrite E.
  by eexists _, _.
Qed.
Lemma quiet_foldP h {A B} (f : B → A → Prog (World R) B) b l :
  (∀ b x, quiet h (f b x)) → quiet h (foldP f b l).
Proof.
  intros Hf. revert b. induction l as [|x l IH]; intros b; cbn; [apply quiet_ret|].
  apply quiet_bind; auto.
Qed.
Lemma quiet_forP h {A} (f : A → Prog (World R) unit) l :
  (∀ x, x ∈ l → quiet h (f x)) → quiet h (forP_ l f).
Proof.
  induction l as [|x l IH]; intros Hf; cbn; [apply quiet_ret|].
  apply quiet_bind; [apply Hf; left|]. intros []. apply IH. intros y Hy. apply Hf. by right.
Qed.

(** Ancestors are objects created before. *)
Definition heap_ok h : Prop :=
  ∀ i r a, h !! i = Some r → a ∈ r_ancestors r → (a < i)%nat.

Lemma quiet_persistFrom h fuel i :
  heap_ok h → is_Some (h !! i) → (i < fuel)%nat → quiet h (persistFrom fuel i).
Proof.
  intros Hh. revert i. induction fuel as [|fuel IH]; intros i Hi Hf; [lia|].
  intros w Hw. cbn [persistFrom]. unfold mbind at 1, Prog_bind at 1.
  destruct Hi as [r Hr]. unfold deref at 1. rewrite Hw, Hr.
  assert (Hq : quiet h (if decide (cfg_cacheDir (r_cfg r) = "") then mret tt else
    match r_snapshot r with
    | None => mret tt
    | Some snap =>
       if decide (sn_schemas snap = ∅) then mret tt
       else ancestors ← getsP (λ w, ancestorsOf (w_heap w) r);
            persistOwn r (r_ns <$> ancestors) snap ;;
            forP_ (r_ancestors r) (λ a, ra ← deref a;
              wrapP ("persist ancestor " +:+ r_ns ra)%string (persistFrom fuel a))
    end)).
  { case_decide; [apply quiet_ret|]. case_match; [|apply quiet_ret].
    case_decide; [apply quiet_ret|]. apply quiet_bind; [apply quiet_gets|]. intros l.
    apply quiet_bind.
    - unfold persistOwn. apply quiet_bind; [apply quiet_wrap, quiet_on_fs|]. intros _.
      apply quiet_bind; [apply quiet_on_srv|]. intros now. apply quiet_bind.
      + apply quiet_foldP. intros acc id. unfold persistSchema. case_match; [|apply quiet_ret].
        case_decide; [apply quiet_ret|]. apply quiet_bind; [apply quiet_wrap, quiet_on_fs|].
        intros _. apply quiet_ret.
      + intros schemas. apply quiet_bind; [apply quiet_wrap, quiet_of_res|]. intros b.
        apply quiet_wrap, quiet_on_fs.
    - intros _. apply quiet_forP. intros a Ha. pose proof (Hh _ _ _ Hr Ha) as Hlt.
      assert (is_Some (h !! a)).
      { apply lookup_lt_is_Some. apply lookup_lt_Some in Hr. lia. }
      apply quiet_bind; [by apply quiet_deref|]. intros ra. apply quiet_wrap, IH; [done|lia]. }
  by apply Hq.
Qed.

Lemma quiet_persist h i : heap_ok h → is_Some (h !! i) → quiet h (persist (Some i)).
Proof.
  intros Hh Hi w Hw. unfold persist. rewrite Hw. apply quiet_persistFrom; [done..| |done].
  apply lookup_lt_is_Some in Hi. lia.
Qed.
End quiet.

Section refresh.
Context `{Protoreflect, ProtoTypes, GoRange} {R : Type} `{RegistryConn R}.
Context `{TempNames, TimeText, !Clock R} `{!ProtoFilesLaws, !ProtodescLaws}.
Implicit Types (w : World R) (s : nsSnapshot) (r : Resolver).
#[local] Arguments persist : simpl never.

(** What a refresh fetches: the listing and the views to hold. *)
Definition fetchTarget (fuel : nat) r (cur : option nsSnapshot)
    : Prog (World R) (list SchemaInfo * scan) :=
  infos ← wrapP "refresh list_schemas" (listAllSchemas fuel r);
  sc ← foldP (scanInfo r cur) scan_empty infos;
  mret (infos, sc).

Lemma remote_fetchTarget fuel r cur : remote_only (fetchTarget fuel r cur).
Proof.
  unfold fetchTarget, listAllSchemas. apply remote_bind; [auto with remote|]. intros infos.
  apply remote_bind; [|intros; apply remote_ret]. apply remote_foldP. intros sc info.
  unfold scanInfo. repeat case_match; eauto with remote.
Qed.

Lemma applyDiff_run i w r s0 infos sc La Lf Lk Lo :
  w_heap w !! i = Some r → resolver_rep (r_agg r) s0 →
  scan_inv r s0 infos sc La Lf Lk Lo → coherent (snapFiles (sc_next sc)) →
  ∃ p', applyDiff i (removedViews (Some s0) (sc_next sc)) sc w
          = Returns (Ok tt, set_heap (alter (set_agg p') i (w_heap w)) w) ∧
        agg_rep p' (snapFiles (sc_next sc)).
Proof.
  intros Hr [Hcomp Hcoh Hagg _] Hinv Hnext.
  pose proof (removed_split _ _ _ _ _ _ _ _ Hinv) as Hcur.
  pose proof (next_split _ _ _ _ _ _ _ _ Hinv) as Hnew.
  set (rm := removedViews (Some s0) (sc_next sc)) in *.
  assert (Hagg0 : agg_rep (r_agg r) (viewFiles rm ++ viewFiles Lo.*2 ++ viewFiles Lk.*2)).
  { eapply agg_rep_perm; [apply (co_paths _ Hcoh)|done|done]. }
  rewrite Hcur in Hcoh.
  destruct (remove_views (r_agg r) rm (viewFiles Lo.*2 ++ viewFiles Lk.*2)
    "refresh aggregate remove") as (p1 & E1 & Hp1); [|done|done|].
  { unfold rm, removedViews. intros ss ([id ss'] & -> & [_ Hin]%list_elem_of_filter)%list_elem_of_fmap.
    apply elem_of_go_range in Hin. by eapply Hcomp. }
  apply coherent_app_r in Hcoh.
  destruct (remove_views p1 Lo.*2 (viewFiles Lk.*2)
    "refresh aggregate replace (remove old)") as (p2 & E2 & Hp2); [|done|done|].
  { intros ss ([id ss'] & -> & Hin)%list_elem_of_fmap. eapply (Hcomp id).
    apply (sv_cur _ _ _ _ _ _ _ _ Hinv), elem_of_app. by left. }
  set (ap := merge_sort schema_le (sc_added sc ++ (sc_replaced sc).*2)).
  assert (Hap : ap ≡ₚ La.*2 ++ Lf.*2).
  { unfold ap. rewrite merge_sort_Permutation.
    by rewrite (sv_added _ _ _ _ _ _ _ _ Hinv), (sv_fresh _ _ _ _ _ _ _ _ Hinv). }
  assert (Hnew' : coherent (viewFiles ap ++ viewFiles Lk.*2)) by by rewrite Hap, <-Hnew.
  destruct (apply_views p2 ap (viewFiles Lk.*2) "refresh aggregate apply") as (p3 & E3 & Hp3);
    [done..|].
  exists p3. split.
  2: { eapply agg_rep_perm; [apply (co_paths _ Hnew')|by rewrite Hap, <-Hnew|done]. }
  unfold applyDiff. fold ap. unfold mbind, Prog_bind. fold rm.
  rewrite (forP_on_agg i rm _ _ w r p1) by done.
  erewrite (forP_on_agg i (sc_replaced sc) _ (λ rep, removeFromAggregate rep.1) _ (set_agg p1 r) p2);
    [|by cbn; rewrite list_lookup_alter_eq, Hr|].
  2: { rewrite <-E2, <-(sv_old _ _ _ _ _ _ _ _ Hinv). clear.
       generalize p1. induction (sc_replaced sc) as [|x l IH]; intros q; cbn; [done|].
       unfold mbind, Prog_bind. destruct (wrapP _ _ q) as [[[] ?]|]; [apply IH|done..]. }
  cbn. rewrite alter_set_agg.
  erewrite (forP_on_agg i ap _ _ _ (set_agg p2 r) p3);
    [|by cbn; rewrite list_lookup_alter_eq, Hr|done].
  cbn. by rewrite alter_set_agg.
Qed.

(** Nothing added, replaced or removed: the snapshot already matches. *)
Lemma unchanged_scan r s0 infos sc La Lf Lk Lo :
  scan_inv r s0 infos sc La Lf Lk Lo → sc_added sc = [] → sc_replaced sc = [] →
  removedViews (Some s0) (sc_next sc) = [] → sn_schemas (sc_next sc) = sn_schemas s0.
Proof.
  intros [Hn _ Ha Ho Hf Hids Hc _ _ _] E1 E2 Hrm. rewrite E1 in Ha. rewrite E2 in Ho, Hf.
  destruct La; [|done]. destruct Lf; [|done]. destruct Lo; [|done]. cbn in *.
  apply map_eq. intros id. destruct (sn_schemas s0 !! id) as [ss|] eqn:E.
  - destruct (sn_schemas (sc_next sc) !! id) as [ss'|] eqn:E'.
    + apply elem_of_map_to_list in E'. rewrite Hn in E'. apply Hc in E'. congruence.
    + assert (Hin : (id, ss) ∈ filter (λ kv, sn_schemas (sc_next sc) !! kv.1 = None)
        (go_range (sn_schemas s0))) by (apply list_elem_of_filter; by rewrite elem_of_go_range).
      apply (list_elem_of_fmap_2 snd) in Hin. rewrite Hrm in Hin. by apply elem_of_nil in Hin.
  - destruct (sn_schemas (sc_next sc) !! id) as [ss'|] eqn:E'; [|done].
    apply elem_of_map_to_list in E'. rewrite Hn in E'. apply Hc in E'. congruence.
Qed.

Lemma matches_listing_schemas r s0 infos s s' :
  sn_schemas s = sn_schemas s' → matches_listing r s0 infos s → matches_listing r s0 infos s'.
Proof. intros E. unfold matches_listing. by rewrite E. Qed.

Lemma declares_schemas s s' n id : sn_schemas s = sn_schemas s' → declares s n id ↔ declares s' n id.
Proof. intros E. unfold declares. by rewrite E. Qed.

Lemma set_id r s0 : r_snapshot r = Some s0 → r = set_snapshot s0 (set_agg (r_agg r) r).
Proof. destruct r. cbn. by intros ->. Qed.

Lemma heap_ok_stored h i r p next :
  h !! i = Some r → heap_ok h → heap_ok (<[i := set_snapshot next (set_agg p r)]> h).
Proof.
  intros Hr Hh j r' a Hj Ha. destruct (decide (i = j)) as [<-|].
  - rewrite list_lookup_insert_eq in Hj by by eapply lookup_lt_Some.
    injection Hj as <-. by apply (Hh i r).
  - rewrite list_lookup_insert_ne in Hj by done. by apply (Hh j r').
Qed.

(** After the diff is applied: the snapshot is stored, the log written, the cache saved. *)
Lemma store_next i w r p next (l : ClientLog) (warn : error → ClientLog) :
  w_heap w !! i = Some r → heap_ok (w_heap w) →
  ∃ x w', (update i (set_snapshot next) ;; clientLog l ;;
     (if decide (cfg_cacheDir (r_cfg r) = "") then mret tt
      else perr ← attemptP (persist (Some i));
           match perr with Ok _ => mret tt | Err e => clientLog (warn e) end))
     (set_heap (alter (set_agg p) i (w_heap w)) w) = Returns (x, w') ∧
   w_heap w' = <[i := set_snapshot next (set_agg p r)]> (w_heap w) ∧ x = Ok tt.
Proof.
  intros Hr Hh. set (h := <[i := set_snapshot next (set_agg p r)]> (w_heap w)).
  assert (Hset : alter (set_snapshot next) i (alter (set_agg p) i (w_heap w)) = h).
  { apply list_eq. intros j. unfold h. destruct (decide (i = j)) as [<-|].
    - rewrite !list_lookup_alter_eq, Hr, list_lookup_insert_eq; [done|]. by eapply lookup_lt_Some.
    - by rewrite !list_lookup_alter_ne, list_lookup_insert_ne. }
  assert (Hh' : heap_ok h) by by apply heap_ok_stored.
  unfold mbind at 1, Prog_bind at 1, update, modifyP at 1. cbn. rewrite Hset.
  unfold mbind at 1, Prog_bind at 1, clientLog at 1, modifyP at 1. cbn.
  case_decide.
  - by eexists _, _.
  - assert (Hq : quiet h (persist (Some i))).
    { apply quiet_persist; [done|]. unfold h.
      rewrite list_lookup_insert_eq; [by eexists|]. by eapply lookup_lt_Some. }
    unfold mbind, Prog_bind, attemptP.
    match goal with |- context [persist (Some i) ?W] =>
      destruct (Hq W eq_refl) as (x & w2 & E & Hw2) end.
    rewrite E. destruct x; by eexists _, _.
Qed.

(** No name is declared by two schemas: the index has no collision to report. *)
Definition unambiguous s : Prop :=
  ∀ n id id', declares s n id → declares s n id' → id = id'.

(** When the index finds no collision, nothing it does not look at clashes either: the files
    of the schemas have different paths, extension numbers and package names. *)
Definition mergeable s : Prop := unambiguous s → coherent (snapFiles s).

Lemma resolver_rep_unambiguous p s : resolver_rep p s → unambiguous s.
Proof. intros Hrep n id id' Hd Hd'. apply (rr_index _ _ Hrep) in Hd, Hd'. congruence. Qed.

Lemma unambiguous_schemas s s' : sn_schemas s = sn_schemas s' → unambiguous s → unambiguous s'.
Proof. intros E Hs n id id'. rewrite <-!(declares_schemas s s') by done. apply Hs. Qed.

(** The outcome of a refresh whose target was fetched. *)
Definition refreshed (h : list Resolver) i r s0 infos next (x : res unit) (h' : list Resolver) : Prop :=
  match x with
  | Err _ => h' = h ∧ ∃ n id id', id ≠ id' ∧ declares next n id ∧ declares next n id'
  | Ok _ => unambiguous next ∧ ∃ p' s', h' = <[i := set_snapshot s' (set_agg p' r)]> h ∧
      resolver_rep p' s' ∧ matches_listing r s0 infos s'
  end.

Lemma installNext_run i w r s0 infos sc La Lf Lk Lo :
  w_heap w !! i = Some r → heap_ok (w_heap w) → resolver_rep (r_agg r) s0 →
  scan_inv r s0 infos sc La Lf Lk Lo → mergeable (sc_next sc) → distinct_names (sc_next sc) →
  ∃ x w', installNext i r (removedViews (Some s0) (sc_next sc)) sc w = Returns (x, w') ∧
    refreshed (w_heap w) i r s0 infos (sc_next sc) x (w_heap w').
Proof.
  intros Hr Hh Hrep Hinv Hmerge Hdn. pose proof (sv_index _ _ _ _ _ _ _ _ Hinv) as He.
  pose proof (buildNameIndex_ok (sc_next sc) Hdn He) as Hok.
  pose proof (λ n id, buildNameIndex_lookup (sc_next sc) n id Hdn He) as Hlk.
  pose proof (λ e, buildNameIndex_err (sc_next sc) e Hdn He) as Herr.
  assert (Hsch : sn_schemas (buildNameIndex (sc_next sc)).2 = sn_schemas (sc_next sc)) by done.
  unfold installNext, indexSnapshot. destruct (buildNameIndex (sc_next sc)) as [x next].
  cbn [fst snd] in *. destruct x as [[]|e].
  2: { exists (Err e), w. split; [done|]. split; [done|].
       by apply (Herr e). }
  assert (Hun : unambiguous (sc_next sc)) by exact (proj1 Hok eq_refl).
  pose proof (Hmerge Hun) as Hcoh.
  destruct (applyDiff_run i w r s0 infos sc La Lf Lk Lo) as (p' & Ed & Hp'); [done..|].
  unfold mbind at 1, Prog_bind at 1, mbind at 1, Prog_bind at 1, of_resP at 1.
  unfold mret at 1, Prog_ret at 1. unfold mbind at 1, Prog_bind at 1. rewrite Ed.
  edestruct (store_next i w r p' next) as (x & w' & E & Hw' & ->); [done..|].
  rewrite E. eexists _, _. split; [done|]. split; [done|]. exists p', next. split; [done|].
  assert (Hfiles : snapFiles next = snapFiles (sc_next sc)) by (unfold snapFiles; by rewrite Hsch).
  split; [|by eapply matches_listing_schemas; [symmetry|apply (sv_listing _ _ _ _ _ _ _ _ Hinv)]].
  split.
  - intros id ss Hss. rewrite Hsch in Hss. apply elem_of_map_to_list in Hss.
    rewrite (sv_next _ _ _ _ _ _ _ _ Hinv), app_assoc in Hss. apply elem_of_app in Hss as [Hss|Hss].
    + by apply (sv_compiled _ _ _ _ _ _ _ _ Hinv) in Hss.
    + apply (rr_compiled _ _ Hrep id). apply (sv_cur _ _ _ _ _ _ _ _ Hinv), elem_of_app. by right.
  - by rewrite Hfiles.
  - by rewrite Hfiles.
  - intros n id. rewrite Hlk by done. by apply declares_schemas.
Qed.

Lemma fetchTarget_inv fuel r s0 w infos sc w' :
  fetchTarget fuel r (Some s0) w = Returns (Ok (infos, sc), w') →
  NoDup (si_SchemaId <$> infos) → ∃ La Lf Lk Lo, scan_inv r s0 infos sc La Lf Lk Lo.
Proof.
  intros (infos' & w1 & _ & E)%Prog_bind_Ok Hnd.
  apply Prog_bind_Ok in E as (sc' & w2 & E & [= -> -> ->]).
  by eapply (scan_inv_all r s0 infos []); [apply scan_inv_empty|..].
Qed.

(** A refresh is the fetch followed by the installation. *)
Lemma Refresh_fetch fuel i w r s0 :
  w_heap w !! i = Some r → r_fromCache r = false → r_snapshot r = Some s0 →
  Refresh fuel i w =
  (t ← fetchTarget fuel r (Some s0);
   let removed := removedViews (Some s0) (sc_next t.2) in
   match sc_added t.2, sc_replaced t.2, removed with
   | [], [], [] => mret tt
   | _, _, _ => installNext i r removed t.2
   end) w.
Proof.
  intros Hr Hc Hs. unfold Refresh, fetchTarget, deref, mbind, Prog_bind. rewrite Hr, Hc, Hs.
  destruct (wrapP _ _ w) as [[[infos|] w1]|]; [|done..].
  destruct (foldP _ _ _ _) as [[[sc|] w2]|]; [|done..]. cbn.
  by repeat case_match.
Qed.

(** A refresh from a resolver that holds its snapshot. *)
Lemma Refresh_run fuel i w r s0 :
  w_heap w !! i = Some r → r_fromCache r = false → r_snapshot r = Some s0 →
  heap_ok (w_heap w) → resolver_rep (r_agg r) s0 →
  match fetchTarget fuel r (Some s0) w with
  | Panics => Refresh fuel i w = Panics
  | Returns (Err e, w1) => Refresh fuel i w = Returns (Err e, w1) ∧ same_client w w1
  | Returns (Ok (infos, sc), w1) =>
     NoDup (si_SchemaId <$> infos) → mergeable (sc_next sc) → distinct_names (sc_next sc) →
     ∃ x w', Refresh fuel i w = Returns (x, w') ∧
       refreshed (w_heap w) i r s0 infos (sc_next sc) x (w_heap w')
  end.
Proof.
  intros Hr Hc Hs Hh Hrep. pose proof (remote_fetchTarget fuel r (Some s0) w) as Hrem.
  rewrite (Refresh_fetch _ _ _ _ _ Hr Hc Hs). unfold mbind, Prog_bind.
  destruct (fetchTarget fuel r (Some s0) w) as [[[[infos sc]|e] w1]|] eqn:Et; [|done..].
  intros Hnd Hcoh Hdn. destruct Hrem as [Hheap _]. rewrite <-Hheap in Hr, Hh |- *.
  apply fetchTarget_inv in Et as (La & Lf & Lk & Lo & Hinv); [|done]. cbn [snd].
  destruct (sc_added sc) eqn:Ea; [|by eapply installNext_run].
  destruct (sc_replaced sc) eqn:Er; [|by eapply installNext_run].
  destruct (removedViews _ _) eqn:Em; [|rewrite <-Em; by eapply installNext_run].
  exists (Ok tt), w1. split; [done|]. split.
  { eapply unambiguous_schemas; [symmetry; by eapply unchanged_scan|by eapply resolver_rep_unambiguous]. }
  exists (r_agg r), s0. split.
  { rewrite <-set_id by done. by rewrite list_insert_id. }
  split; [done|]. eapply matches_listing_schemas; [by eapply unchanged_scan|].
  apply (sv_listing _ _ _ _ _ _ _ _ Hinv).
Qed.
(** C11. For a resolver that is not from the cache and holds its snapshot with its aggregate and
    index: a refresh fetches the listing and the views it asks for. If that fails, it reports the
    error and no object of the client changes. Otherwise it reports an error exactly when two
    of the schemas declare the same name, and again no object changes; when no name is
    declared twice it succeeds, the resolver then holds exactly the current versions of the
    listing (unchanged views are kept), and the incrementally updated aggregate and the name
    index are those of the new snapshot. This is for a listing that names each schema once,
    schemas that declare their own names once, and, when no name is declared by two of them,
    that clash in nothing else: they share no path, no extension number and no package name,
    for which the code lets the last one win. *)
Theorem Refresh_refines fuel i w r s0 :
  w_heap w !! i = Some r → r_fromCache r = false → r_snapshot r = Some s0 →
  heap_ok (w_heap w) → resolver_rep (r_agg r) s0 →
  match fetchTarget fuel r (Some s0) w with
  | Panics => Refresh fuel i w = Panics
  | Returns (Err e, w1) => Refresh fuel i w = Returns (Err e, w1) ∧ same_client w w1
  | Returns (Ok (infos, sc), w1) =>
     NoDup (si_SchemaId <$> infos) → mergeable (sc_next sc) → distinct_names (sc_next sc) →
     ∃ x w', Refresh fuel i w = Returns (x, w') ∧
       refreshed (w_heap w) i r s0 infos (sc_next sc) x (w_heap w')
  end.
Proof. apply Refresh_run. Qed.
End refresh.
