(* ===== verification/ClientLookupThms.v ===== *)
(** * Correctness of the client's lookups

    A resolver holds each file and type twice: in the view of the schema that declares it
    and in the aggregate of the namespace. Lookups by name go through the name index to a
    view, the others to the aggregate. All of them answer what a search of the list of the
    files of the snapshot answers, and otherwise ask the parents. *)

From S2P Require Import Prelude GoProg GoStrings GoPath Descriptor Protobuf NsFiles NsTypes.
From S2P Require Import NsFilesThms NsTypesThms ClientSnapshot ClientSnapshotThms.
From S2P Require Import ClientAggregate Server GoFS Client ClientRefreshThms.
From stdpp Require Import prelude gmap strings list.

Open Scope string_scope.
Open Scope list_scope.

Section names.
Context `{ProtoTypes}.
(** Every type of a file is declared by the file. *)
Lemma messageTypes_names msg t : t ∈ messageTypes msg → rt_FullName t ∈ rangeMessageDescriptors msg.
Proof.
  revert t. induction msg as [n fn fs os es ms xs IH] using message_ind. intros t.
  cbn [messageTypes rangeMessageDescriptors msg_Messages msg_Enums msg_Extensions].
  rewrite !elem_of_cons, !elem_of_app, !list_elem_of_fmap, !list_elem_of_In, !in_flat_map.
  setoid_rewrite <-list_elem_of_In.
  intros [->|[(m & Hm & Ht)|[(e & -> & He)|(x & -> & Hx)]]]; [by left|right..].
  - left. exists m. split; [done|]. rewrite Forall_forall in IH. by apply IH.
  - right. left. by exists e.
  - right. right. by exists x.
Qed.

Lemma fileTypes_names fd t : t ∈ fileTypes fd → rt_FullName t ∈ rangeFileDescriptors fd.
Proof.
  unfold fileTypes, rangeFileDescriptors.
  rewrite !elem_of_app, !list_elem_of_fmap, !list_elem_of_In, !in_flat_map.
  setoid_rewrite <-list_elem_of_In.
  intros [(m & Hm & Ht)|[(e & -> & He)|(x & -> & Hx)]].
  - left. exists m. split; [done|]. by apply messageTypes_names.
  - right. left. by exists e.
  - right. right. left. by exists x.
Qed.

(** The reference searches. *)
Definition typeNamed (ts : list RtType) (n : string) : option RtType :=
  snd <$> list_find (λ t, rt_FullName t = n) ts.

Definition extensionNumbered (ts : list RtType) (message : string) (field : Z)
    : option FieldDescriptor :=
  head (omap (λ t, match t with
                   | TExtension x => if decide (ext_key x = (message, field)) then Some x else None
                   | _ => None
                   end) ts).

Definition fileNamed (fs : list FileDescriptor) (path : string) : option FileDescriptor :=
  snd <$> list_find (λ f, file_Path f = path) fs.

Lemma typeNamed_rep r L n : types_rep r L → nt_typesByName r !! n = typeNamed L n.
Proof.
  intros [_ Ht]. unfold typeNamed. destruct (list_find _ L) as [[k t]|] eqn:E; cbn.
  - apply list_find_Some in E as (Hk & Hn & _). apply Ht. split; [|done].
    by eapply list_elem_of_lookup_2.
  - apply list_find_None in E. rewrite Forall_forall in E. apply eq_None_not_Some.
    intros [t [HL Hn]%Ht]. by eapply E.
Qed.

Lemma extensionNumbered_rep r L message field :
  types_rep r L → extension_at r message field = extensionNumbered L message field.
Proof.
  intros [Hi Ht]. unfold extensionNumbered.
  assert (Hx : ∀ x, extension_at r message field = Some x ↔ TExtension x ∈ L ∧ ext_key x = (message, field)).
  { intros x. unfold ext_key. etrans; [apply (ti_index _ Hi)|]. rewrite Ht. naive_solver. }
  destruct (omap _ L) as [|x l] eqn:E; cbn.
  - apply eq_None_not_Some. intros [x [HL Hk]%Hx].
    assert (Hin : x ∈ @nil FieldDescriptor); [|by apply elem_of_nil in Hin].
    rewrite <-E. apply list_elem_of_omap. exists (TExtension x). split; [done|].
    by rewrite decide_True.
  - apply Hx. assert (Hin : x ∈ x :: l) by left. rewrite <-E in Hin.
    apply list_elem_of_omap in Hin as ([]& HL & Hk); [done..|]. case_decide; by simplify_eq.
Qed.

Lemma fileNamed_rep L path : NoDup (file_Path <$> L) → filesMap L !! path = fileNamed L path.
Proof.
  intros Hnd. unfold fileNamed. destruct (list_find _ L) as [[k f]|] eqn:E; cbn.
  - apply list_find_Some in E as (Hk & Hn & _). apply lookup_filesMap; [done|].
    split; [by eapply list_elem_of_lookup_2|done].
  - apply list_find_None in E. rewrite Forall_forall in E. apply eq_None_not_Some.
    intros [f [HL Hn]%lookup_filesMap]; [by eapply E|done].
Qed.
End names.

Section lookups.
Context `{Protoreflect, ProtoTypes, GoRange} {R : Type} `{RegistryConn R}.
Implicit Types (s : nsSnapshot) (ss : schemaSnapshot) (r : Resolver) (h : list Resolver).

(** The types of all schemas of a snapshot. *)
Definition snapTypes s : list RtType := flat_map fileTypes (snapFiles s).

Lemma elem_of_snapTypes s t :
  t ∈ snapTypes s ↔ ∃ id ss f, sn_schemas s !! id = Some ss ∧ f ∈ schemaFiles ss ∧ t ∈ fileTypes f.
Proof.
  unfold snapTypes, snapFiles, viewFiles. rewrite list_elem_of_In, in_flat_map.
  setoid_rewrite in_flat_map. setoid_rewrite <-list_elem_of_In. setoid_rewrite list_elem_of_fmap.
  split.
  - intros (f & (ss & ([id ss'] & -> & Hin) & Hf) & Ht). apply elem_of_go_range in Hin. eauto 7.
  - intros (id & ss & f & Hss & Hf & Ht). exists f. split; [|done]. exists ss. split; [|done].
    exists (id, ss). split; [done|]. by apply elem_of_go_range.
Qed.

(** The index leads to the view that declares the name. *)
Lemma snapTypes_declared s id ss f t :
  sn_schemas s !! id = Some ss → f ∈ schemaFiles ss → t ∈ fileTypes f → declares s (rt_FullName t) id.
Proof.
  intros Hss Hf Ht. unfold declares. rewrite Hss. unfold schemaNames.
  apply list_elem_of_In, in_flat_map. exists f.
  split; apply list_elem_of_In; [done|]. by apply fileTypes_names.
Qed.

(** The view the index names holds the same type under a name as the aggregate. *)
Lemma view_lookup p s n ss :
  resolver_rep p s → schemaFor s n = Some ss →
  nt_typesByName (ss_types ss) !! n = nt_typesByName (rg_types p) !! n ∧ nt_global (ss_types ss) = None.
Proof.
  intros [Hcomp _ [_ Hagg] Hidx] Hfor.
  apply bind_Some in Hfor as (id & Hid & Hss).
  destruct (Hcomp _ _ Hss) as [fs Hrep]. pose proof (schemaFiles_rep _ _ Hrep) as Hfs.
  destruct Hrep as [[_ Ht] _ _]. cbn in Ht. split; [|apply (ti_local _ (tr_inv _ _ Ht))].
  apply option_eq. intros t. rewrite (tr_types _ _ Ht), (tr_types _ _ Hagg). fold (snapTypes s).
  rewrite elem_of_snapTypes, list_elem_of_In, in_flat_map. setoid_rewrite <-list_elem_of_In.
  split; [intros [(f & Hf & Hin) Hn]|intros [(id' & ss' & f & Hss' & Hf & Hin) Hn]]; (split; [|done]).
  - exists id, ss, f. split; [done|]. by rewrite Hfs.
  - pose proof (snapTypes_declared _ _ _ _ _ Hss' Hf Hin) as Hd. rewrite Hn in Hd.
    apply Hidx in Hd. simplify_eq. exists f. by rewrite <-Hfs.
Qed.

(** The name in a URL is what follows its last slash. *)
Lemma FindMessageByURL_last h r url n :
  (url = n ∨ ∃ host, url = host +:+ "/" +:+ n) → no_byte slash n →
  Resolver_FindMessageByURL h r url = Resolver_FindMessageByName h r n.
Proof.
  intros Hurl Hb. unfold Resolver_FindMessageByURL. destruct Hurl as [->|[host ->]].
  - by rewrite LastIndexByte_none.
  - change (host +:+ "/" +:+ n) with (host +:+ String slash n). rewrite LastIndexByte_app by done.
    by rewrite str_drop_past.
Qed.

(** C24. Lookups of an up-to-date resolver search the files of its snapshot, each reached
    through its own path: messages and extensions by name through the index and the
    schema's view, extensions by number and files by path through the aggregate. A lookup by
    URL is the lookup of the name after the last slash, whatever comes before it. What is
    not found in the snapshot is asked of the parents. *)
Theorem Resolver_lookups h r s n message field path :
  r_snapshot r = Some s → resolver_rep (r_agg r) s →
  (∀ url, (url = n ∨ ∃ host, url = host +:+ "/" +:+ n) → no_byte slash n →
   Resolver_FindMessageByURL h r url =
     match typeNamed (snapTypes s) n with
     | Some (TMessage md) => Ok md
     | Some t => Err (wrong_type t "message")
     | None => FindMessageByName (parentTypes h r) n
     end) ∧
  Resolver_FindMessageByName h r n =
    match typeNamed (snapTypes s) n with
    | Some (TMessage md) => Ok md
    | Some t => Err (wrong_type t "message")
    | None => FindMessageByName (parentTypes h r) n
    end ∧
  Resolver_FindExtensionByName h r n =
    match typeNamed (snapTypes s) n with
    | Some (TExtension xd) => Ok xd
    | Some t => Err (wrong_type t "extension")
    | None => FindExtensionByName (parentTypes h r) n
    end ∧
  Resolver_FindExtensionByNumber h (Some r) message field =
    match extensionNumbered (snapTypes s) message field with
    | Some xd => Ok xd
    | None => FindExtensionByNumber (parentTypes h r) message field
    end ∧
  Resolver_FindFileByPath h (Some r) path =
    match fileNamed (snapFiles s) path with
    | Some fd => Ok fd
    | None => FindFileByPath (parentFiles h r) path
    end.
Proof.
  intros Hs Hrep. pose proof (rr_agg _ _ Hrep) as [Hf Ht]. fold (snapTypes s) in Ht.
  pose proof (typeNamed_rep _ _ n Ht) as Hn. pose proof (ti_local _ (tr_inv _ _ Ht)) as Hg.
  assert (Hmsg : Resolver_FindMessageByName h r n =
    match typeNamed (snapTypes s) n with
    | Some (TMessage md) => Ok md
    | Some t => Err (wrong_type t "message")
    | None => FindMessageByName (parentTypes h r) n
    end).
  { unfold Resolver_FindMessageByName. rewrite Hs, <-Hn. cbn.
    destruct (schemaFor s n) as [ss|] eqn:E; cbn; [|by rewrite Hg].
    destruct (view_lookup _ _ _ _ Hrep E) as [-> ->]. done. }
  split_and!; [|done|..].
  - intros url Hurl Hb. by rewrite (FindMessageByURL_last h r url n).
  - unfold Resolver_FindExtensionByName. rewrite Hs, <-Hn. cbn.
    destruct (schemaFor s n) as [ss|] eqn:E; cbn; [|by rewrite Hg].
    destruct (view_lookup _ _ _ _ Hrep E) as [-> ->]. done.
  - cbn. by rewrite Hg, (extensionNumbered_rep _ _ _ _ Ht).
  - cbn. rewrite (fr_local _ _ Hf), (fr_byPath _ _ Hf), lookup_fmap.
    rewrite (fileNamed_rep _ _ (co_paths _ (rr_coherent _ _ Hrep))).
    by destruct (fileNamed _ _).
Qed.
End lookups.
