(* ===== verification/ClientPopulateThms.v ===== *)
(** * Correctness of the construction of a client resolver

    [populate] and [Pin] build a resolver whose aggregate and index are those of the
    fetched views; resolvers loaded from the disk cache are installed the same way. *)

From S2P Require Import Prelude GoProg GoStrings Descriptor Protobuf NsFiles NsTypes.
From S2P Require Import ClientSnapshot ClientSnapshotThms ClientAggregate Server GoFS.
From S2P Require Import Client ClientManifest ClientCache ClientRefresh ClientRefreshThms.
From stdpp Require Import prelude gmap strings list sorting pretty.

Open Scope string_scope.
Open Scope list_scope.

Section install.
Context `{Protoreflect, ProtoTypes, GoRange} {R : Type} `{RegistryConn R}.
Context `{!ProtoFilesLaws, !ProtodescLaws}.
Implicit Types (w : World R) (s : nsSnapshot) (r : Resolver).

(** The end of every construction: index the snapshot, fold it into the aggregate, store it. *)
Definition installSnapshot (i : nat) (snap : nsSnapshot) : Prog (World R) unit :=
  snap ← indexSnapshot snap; applyAll i snap ;; update i (set_snapshot snap).

(** A snapshot under construction. *)
Record building s : Prop := {
  bd_index : sn_nameIndex s = ∅;
  bd_compiled id ss : sn_schemas s !! id = Some ss → compiled ss }.

Lemma building_new : building newSnapshot.
Proof. split; [done|]. intros id ss. cbn. by rewrite lookup_empty. Qed.

Lemma building_put s id ss : building s → compiled ss → building (put_schema id ss s).
Proof.
  intros [Hi Hc] Hss. split; [done|]. intros id' ss'. cbn.
  rewrite lookup_insert_Some. intros [[<- <-]|[_ ?]]; eauto.
Qed.

(** The loop over the sorted identifiers applies every view of the snapshot. *)
Lemma applyAll_views i s w :
  applyAll i s w =
  forP_ (omap (λ id, sn_schemas s !! id) (sortedIDs s)) (λ ss, on_agg i (applyToAggregate ss)) w.
Proof.
  unfold applyAll. revert w. induction (sortedIDs s) as [|id l IH]; intros w; cbn; [done|].
  destruct (sn_schemas s !! id) as [ss|]; cbn.
  - unfold mbind, Prog_bind. destruct (on_agg _ _ w) as [[[] ?]|]; [apply IH|done..].
  - unfold mbind at 1, Prog_bind at 1. cbn. apply IH.
Qed.

Lemma sorted_views s :
  omap (λ id, sn_schemas s !! id) (sortedIDs s) ≡ₚ (go_range (sn_schemas s)).*2.
Proof.
  unfold sortedIDs, sort_Strings. rewrite merge_sort_Permutation.
  assert (Hall : ∀ l, (∀ x, x ∈ l → sn_schemas s !! x.1 = Some x.2) →
    omap (λ id, sn_schemas s !! id) l.*1 = l.*2).
  { clear. induction l as [|[id ss] l IH]; intros Hl; cbn; [done|].
    pose proof (Hl (id, ss) ltac:(left)) as E. cbn in E. rewrite E. f_equal. apply IH. intros x Hx. apply Hl. by right. }
  rewrite Hall; [done|]. intros [id ss] Hin. by apply elem_of_go_range in Hin.
Qed.

(** The outcome of an installation over the empty aggregate: an error leaves the resolver
    as it was and comes with two schemas that declare one name; otherwise the resolver
    holds the snapshot. *)
Definition installed (h : list Resolver) i r s (x : res unit) (h' : list Resolver) : Prop :=
  match x with
  | Err _ => h' = h ∧ ∃ n id id', id ≠ id' ∧ declares s n id ∧ declares s n id'
  | Ok _ => ∃ p' s', h' = <[i := set_snapshot s' (set_agg p' r)]> h ∧
      resolver_rep p' s' ∧ sn_schemas s' = sn_schemas s
  end.

Lemma applyAll_run i s w r :
  w_heap w !! i = Some r → r_agg r = newAgg → coherent (snapFiles s) →
  ∃ p', applyAll i s w = Returns (Ok tt, set_heap (alter (set_agg p') i (w_heap w)) w) ∧
        agg_rep p' (snapFiles s).
Proof.
  intros Hr Hagg Hc. pose proof (sorted_views s) as Hv.
  set (l := omap (λ id, sn_schemas s !! id) (sortedIDs s)) in *.
  assert (Hl : viewFiles l ≡ₚ snapFiles s) by by (unfold snapFiles; rewrite <-Hv).
  destruct (apply_views newAgg l [] "") as (p' & E & Hp').
  - apply agg_rep_new.
  - by rewrite app_nil_r, Hl.
  - exists p'. rewrite app_nil_r in Hp'. split.
    + rewrite applyAll_views. fold l. apply (forP_unwrap "").
      apply (forP_on_agg _ _ _ _ _ r); [done|]. by rewrite Hagg.
    + eapply agg_rep_perm; [|done|done]. rewrite Hl. apply (co_paths _ Hc).
Qed.

Lemma installSnapshot_run i w r s :
  w_heap w !! i = Some r → r_agg r = newAgg → building s →
  coherent (snapFiles s) → distinct_names s →
  ∃ x w', installSnapshot i s w = Returns (x, w') ∧ installed (w_heap w) i r s x (w_heap w').
Proof.
  intros Hr Hagg [He Hcomp] Hcoh Hdn.
  pose proof (λ n id, buildNameIndex_lookup s n id Hdn He) as Hlk.
  pose proof (λ e, buildNameIndex_err s e Hdn He) as Herr.
  assert (Hsch : sn_schemas (buildNameIndex s).2 = sn_schemas s) by done.
  unfold installSnapshot, indexSnapshot. destruct (buildNameIndex s) as [x s']. cbn [fst snd] in *.
  destruct x as [[]|e].
  2: { exists (Err e), w. split; [done|]. split; [done|]. by apply (Herr e). }
  assert (Hfiles : snapFiles s' = snapFiles s) by (unfold snapFiles; by rewrite Hsch).
  destruct (applyAll_run i s' w r Hr Hagg) as (p' & E & Hp'); [by rewrite Hfiles|].
  eexists (Ok tt), _. split.
  { unfold mbind, Prog_bind. cbn. rewrite E. done. }
  exists p', s'. split.
  { cbn. apply list_eq. intros j. destruct (decide (i = j)) as [<-|].
    - rewrite !list_lookup_alter_eq, Hr, list_lookup_insert_eq; [done|]. by eapply lookup_lt_Some.
    - by rewrite !list_lookup_alter_ne, list_lookup_insert_ne. }
  split; [|done]. split; [|by rewrite Hfiles|done|].
  - intros id ss. rewrite Hsch. apply Hcomp.
  - intros n id. rewrite Hlk by done. by apply declares_schemas.
Qed.
End install.

Section population.
Context `{Protoreflect, ProtoTypes, GoRange} {R : Type} `{RegistryConn R}.
Context `{!ProtoFilesLaws, !ProtodescLaws}.
Implicit Types (w : World R) (s : nsSnapshot) (r : Resolver).

(** The body of the loop of [populate]. *)
Definition fetchInfo (r : Resolver) (snap : nsSnapshot) (info : SchemaInfo)
    : Prog (World R) nsSnapshot :=
  match si_CurrentVersion info with
  | None => mret snap
  | Some version =>
     ss ← fetchSchema r (si_SchemaId info) version;
     mret (put_schema (si_SchemaId info) ss snap)
  end.

(** What a construction fetches: the listing and the views to hold. *)
Definition fetchAll (fuel : nat) r : Prog (World R) (list SchemaInfo * nsSnapshot) :=
  infos ← wrapP ("populating namespace " +:+ quote (r_ns r)) (listAllSchemas fuel r);
  snap ← foldP (fetchInfo r) newSnapshot infos;
  mret (infos, snap).

Lemma remote_fetchAll fuel r : remote_only (fetchAll fuel r).
Proof.
  unfold fetchAll, listAllSchemas. apply remote_bind; [auto with remote|]. intros infos.
  apply remote_bind; [|intros; apply remote_ret]. apply remote_foldP. intros s info.
  unfold fetchInfo. case_match; eauto with remote.
Qed.

Lemma populate_fetch fuel i w r :
  w_heap w !! i = Some r →
  Client.populate fuel i w = (t ← fetchAll fuel r; installSnapshot i t.2) w.
Proof.
  intros Hr. unfold Client.populate, fetchAll, deref, mbind, Prog_bind. rewrite Hr.
  destruct (wrapP _ _ w) as [[[infos|] w1]|]; [|done..].
  change (λ (snap : nsSnapshot) (info : SchemaInfo), _) with (fetchInfo r).
  destruct (foldP _ _ _ _) as [[[s|] w2]|]; [|done..]. cbn.
  unfold installSnapshot, mbind, Prog_bind.
  destruct (indexSnapshot s w2) as [[[s'|] w3]|]; done.
Qed.

(** Every fetched view is compiled, and the views are those of the listing. *)
Lemma fetchInfos_inv r infos pre s w s' w' :
  building s → matches_listing r newSnapshot pre s → NoDup (si_SchemaId <$> pre ++ infos) →
  foldP (fetchInfo r) s infos w = Returns (Ok s', w') →
  building s' ∧ matches_listing r newSnapshot (pre ++ infos) s'.
Proof.
  revert pre s w. induction infos as [|info infos IH]; intros pre s w Hb Hm Hnd E; cbn [foldP] in E.
  { injection E as <- _. by rewrite app_nil_r. }
  apply Prog_bind_Ok in E as (s1 & w1 & E1 & E2).
  assert (Hid : si_SchemaId info ∉ si_SchemaId <$> pre).
  { rewrite fmap_app in Hnd. apply NoDup_app in Hnd as (_ & Hx & _). intros Hin.
    apply (Hx _ Hin). left. }
  replace (pre ++ info :: infos) with ((pre ++ [info]) ++ infos) in * by by rewrite <-app_assoc.
  unfold fetchInfo in E1. destruct (si_CurrentVersion info) as [v|] eqn:Ev.
  - apply Prog_bind_Ok in E1 as (ss & w2 & Ef & [= <- <-]). eapply IH; [| |done|done].
    + apply building_put; [done|]. by eapply fetchSchema_compiled.
    + eapply matches_listing_put; [done..|]. right. eauto.
  - injection E1 as <- <-. eapply IH; [done| |done|done]. by apply matches_listing_skip.
Qed.

Lemma matches_listing_new r : matches_listing r newSnapshot [] newSnapshot.
Proof. split; [set_solver|]. intros id [ss Hss]. cbn in Hss. by rewrite lookup_empty in Hss. Qed.

Lemma fetchAll_inv fuel r w infos s w' :
  fetchAll fuel r w = Returns (Ok (infos, s), w') → NoDup (si_SchemaId <$> infos) →
  building s ∧ matches_listing r newSnapshot infos s.
Proof.
  intros (infos' & w2 & _ & E)%Prog_bind_Ok Hnd. apply Prog_bind_Ok in E as (s' & w3 & E & [= -> -> ->]).
  by eapply (fetchInfos_inv r infos [] newSnapshot w2 s w');
    [apply building_new|apply matches_listing_new|..].
Qed.

(** The construction of a resolver: nothing is kept when the listing or a view cannot be
    fetched, or when two schemas declare one name. Otherwise, when the files of the schemas
    can live in one registry, the resolver holds the current version of every schema of the
    listing, and its aggregate and name index are exactly those of the views. *)
Theorem populate_exact fuel i w r :
  w_heap w !! i = Some r → r_agg r = newAgg →
  match fetchAll fuel r w with
  | Panics => Client.populate fuel i w = Panics
  | Returns (Err e, w1) => Client.populate fuel i w = Returns (Err e, w1) ∧ same_client w w1
  | Returns (Ok (infos, snap), w1) =>
     NoDup (si_SchemaId <$> infos) → coherent (snapFiles snap) → distinct_names snap →
     matches_listing r newSnapshot infos snap ∧
     ∃ x w', Client.populate fuel i w = Returns (x, w') ∧
       installed (w_heap w) i r snap x (w_heap w')
  end.
Proof.
  intros Hr Hagg. pose proof (remote_fetchAll fuel r w) as Hrem.
  rewrite (populate_fetch _ _ _ _ Hr). unfold mbind, Prog_bind.
  destruct (fetchAll fuel r w) as [[[[infos s]|e] w1]|] eqn:Et; [|done..].
  intros Hnd Hcoh Hdn. destruct Hrem as [Hheap _]. rewrite <-Hheap in Hr |- *.
  destruct (fetchAll_inv _ _ _ _ _ _ Et Hnd) as [Hb Hm].
  split; [done|]. by apply installSnapshot_run.
Qed.
End population.

Section pin.
Context `{Protoreflect, ProtoTypes, GoRange} {R : Type} `{RegistryConn R}.
Context `{!ProtoFilesLaws, !ProtodescLaws}.
Implicit Types (w : World R) (s : nsSnapshot) (r : Resolver).

(** A snapshot holds exactly the requested versions, as the server serves them. *)
Definition holds_versions r (versions : gmap string Z) s : Prop :=
  ∀ id, match versions !! id, sn_schemas s !! id with
        | Some v, Some ss => ∃ w w', fetchSchema r id v w = Returns (Ok ss, w')
        | None, None => True
        | _, _ => False
        end.

(** A resolver object is added; the others stay. *)
Definition with_object w r : World R := set_heap (w_heap w ++ [r]) w.

Lemma remote_pinSchema r s kv : remote_only (pinSchema (R := R) r s kv).
Proof. destruct kv. unfold pinSchema. eauto with remote. Qed.

Lemma holds_versions_put r versions s id v ss w w' :
  holds_versions r versions s → fetchSchema r id v w = Returns (Ok ss, w') →
  holds_versions r (<[id := v]> versions) (put_schema id ss s).
Proof.
  intros Hs Ef id'. cbn. destruct (decide (id = id')) as [<-|].
  - rewrite !lookup_insert_eq. eauto.
  - rewrite !lookup_insert_ne by done. apply Hs.
Qed.

Lemma pinSchemas_inv r l pre s w s' w' :
  building s → holds_versions r (list_to_map pre) s →
  foldP (pinSchema r) s l w = Returns (Ok s', w') →
  building s' ∧ holds_versions r (list_to_map (reverse l ++ pre)) s'.
Proof.
  revert pre s w. induction l as [|[id v] l IH]; intros pre s w Hb Hs E; cbn [foldP] in E.
  { by injection E as <- _. }
  apply Prog_bind_Ok in E as (s1 & w1 & E1 & E2).
  apply Prog_bind_Ok in E1 as (ss & w2 & Ef%wrapP_Ok & [= <- <-]).
  rewrite reverse_cons, <-app_assoc. eapply IH; [| |done].
  - apply building_put; [done|]. by eapply fetchSchema_compiled.
  - by eapply holds_versions_put.
Qed.

Lemma list_to_map_range (m : gmap string Z) : list_to_map (reverse (go_range m)) = m.
Proof.
  transitivity (list_to_map (go_range m) : gmap string Z).
  - apply list_to_map_proper; [|apply reverse_Permutation].
    rewrite reverse_Permutation. apply NoDup_fst_go_range.
  - etrans; [|apply list_to_map_to_list].
    apply list_to_map_proper; [apply NoDup_fst_go_range|apply go_range_perm].
Qed.

Lemma Pin_fetch i w r versions :
  w_heap w !! i = Some r → versions ≠ ∅ →
  Pin i versions w =
  (snap ← foldP (pinSchema (pinnedResolver r)) newSnapshot (go_range versions);
   installSnapshot (length (w_heap w)) snap ;;
   mret (length (w_heap w))) (with_object w (pinnedResolver r)).
Proof.
  intros Hr Hv. unfold Pin. rewrite decide_False by done.
  unfold deref, alloc, installSnapshot, mbind, Prog_bind. rewrite Hr.
  destruct (foldP _ _ _ _) as [[[snap|] w1]|]; [|done..].
  destruct (indexSnapshot snap w1) as [[[s1|] w2]|]; [|done..].
  destruct (applyAll _ s1 w2) as [[[] w3]|]; done.
Qed.

(** Pinning: an empty request fails, and a failing fetch or a name declared twice leaves
    the existing resolvers as they were. Otherwise the new resolver, the last object of
    the client, holds exactly the requested versions, never refreshes, and answers from
    them alone; the resolver it was made from does not change. *)
Theorem Pin_exact i w r versions :
  w_heap w !! i = Some r → versions ≠ ∅ →
  let pinned := pinnedResolver r in
  match foldP (pinSchema pinned) newSnapshot (go_range versions) (with_object w pinned) with
  | Panics => Pin i versions w = Panics
  | Returns (Err e, w1) =>
     Pin i versions w = Returns (Err e, w1) ∧ w_heap w1 = w_heap w ++ [pinned]
  | Returns (Ok snap, w1) =>
     holds_versions pinned versions snap ∧
     (coherent (snapFiles snap) → distinct_names snap →
      ∃ x w', Pin i versions w = Returns (x, w') ∧
      match x with
      | Err _ => w_heap w' = w_heap w ++ [pinned] ∧
          ∃ n id id', id ≠ id' ∧ declares snap n id ∧ declares snap n id'
      | Ok j => j = length (w_heap w) ∧ ∃ p' s',
          w_heap w' = w_heap w ++ [set_snapshot s' (set_agg p' pinned)] ∧
          resolver_rep p' s' ∧ sn_schemas s' = sn_schemas snap
      end)
  end.
Proof.
  intros Hr Hv pinned. rewrite (Pin_fetch _ _ _ _ Hr Hv). fold pinned. unfold mbind, Prog_bind.
  assert (Hrem : remote_only (R := R) (foldP (pinSchema pinned) newSnapshot (go_range versions))).
  { apply remote_foldP. intros. apply remote_pinSchema. }
  specialize (Hrem (with_object w pinned)).
  destruct (foldP _ _ _ _) as [[[snap|e] w1]|] eqn:E; [| |done].
  2: { split; [done|]. destruct Hrem as [Hh _]. by rewrite Hh. }
  apply (pinSchemas_inv _ _ []) in E as [Hb Hs]; [|apply building_new|by intros id; cbn; rewrite !lookup_empty].
  rewrite app_nil_r, list_to_map_range in Hs. split; [done|]. intros Hc Hd.
  destruct Hrem as [Hh _]. cbn in Hh.
  destruct (installSnapshot_run (length (w_heap w)) w1 pinned snap) as (x & w' & E & Hx); [|done..|].
  { rewrite Hh, lookup_app_r, Nat.sub_diag; done. }
  rewrite E. destruct x; eexists _, _; (split; [done|]); cbn in Hx.
  - split; [done|]. destruct Hx as (p' & s' & -> & Hx). exists p', s'. split; [|done].
    rewrite Hh, insert_app_r_alt, Nat.sub_diag by done. done.
  - destruct Hx as [-> Hx]. by rewrite Hh.
Qed.
End pin.
