(* ===== verification/ClientCacheThms.v ===== *)
(** * Correctness of the client's disk cache

    A write to the cache is atomic whatever calls fail, and a resolver that was persisted
    is loaded back with the same views. *)

From S2P Require Import Prelude GoProg GoStrings Descriptor Protobuf NsFiles NsTypes.
From S2P Require Import ClientSnapshot ClientSnapshotThms ClientAggregate Server GoPath GoFS.
From S2P Require Import Client ClientManifest ClientCache ClientRefresh ClientRefreshThms ClientPopulateThms.
From stdpp Require Import prelude gmap strings list sorting pretty.

Open Scope string_scope.
Open Scope list_scope.

(** ** Atomic writes *)

Section atomic.
Context `{TempNames}.
Implicit Types (s : FileSystem) (F : gmap string string).

(** The temporary file [atomicWrite] creates. *)
Definition tempName F (path : string) : string :=
  let pre := filepath_Join [filepath_Dir path; filepath_Base path +:+ "."] in
  pre +:+ temp_random F pre ".tmp" +:+ ".tmp".

Lemma plain_dot x : plain_seg x → plain_seg (x +:+ ".").
Proof.
  intros (? & ? & ?). destruct x as [|c [|d x]]; [done| |].
  - split_and!; [done..|]. intros [= ->]. done.
  - split_and!; [done..|]. rewrite !str_app_cons. intros [= _ _ E]. by destruct x.
Qed.

Lemma no_byte_dot x : no_byte slash x → no_byte slash (x +:+ ".").
Proof.
  unfold no_byte. induction x as [|c x IH]; cbn; [done|]. rewrite str_app_cons. cbn.
  case_decide; [done|]. destruct (IndexByte slash x); [done|]. intros _. by rewrite IH.
Qed.

Lemma tempName_ne F d x : d ≠ "" → plain_seg x → no_byte slash x →
  tempName F (filepath_Join [d; x]) ≠ filepath_Join [d; x].
Proof.
  intros Hd Hx Hb. unfold tempName. rewrite Dir_Join2, Base_Join2 by done.
  rewrite (Join2_above (Clean d)) by (apply Clean_nonempty || by apply plain_dot || by apply no_byte_dot).
  rewrite canon_Clean, Join2_above by done. intros E%(f_equal String.length).
  rewrite !length_str_app in E. cbn in E. lia.
Qed.

(** The files are those of [F], but for the temporary file [t]. *)
Definition but_temp t F s : Prop := delete t (fs_files s) = F.

Lemma next_fault_files s : fs_files (next_fault s).2 = fs_files s.
Proof. unfold next_fault. by destruct (fs_faults s). Qed.

Lemma syscall_files {A} op p (m : M FileSystem A) s :
  (∀ s, fs_files (m s).2 = fs_files s) → fs_files (syscall op p m s).2 = fs_files s.
Proof.
  intros Hm. unfold syscall. pose proof (next_fault_files s) as Hs.
  destruct (next_fault s) as [[|n] s1]; cbn in *; [by rewrite Hm|done].
Qed.

Lemma file_Write_temp t F data s :
  but_temp t F s → let '(x, s') := file_Write t data s in
  but_temp t F s' ∧ (x = Ok tt → fs_files s' !! t = Some (default "" (fs_files s !! t) +:+ data)).
Proof.
  unfold file_Write, but_temp. pose proof (next_fault_files s) as Hs.
  destruct (next_fault s) as [[|n] s1]; cbn in *; rewrite delete_insert_eq, Hs; intros HF.
  - split; [done|]. intros _. by rewrite lookup_insert_eq.
  - by split.
Qed.

Lemma os_Rename_temp t F path s :
  but_temp t F s → let '(x, s') := os_Rename t path s in
  match x with
  | Ok _ => ∃ b, fs_files s !! t = Some b ∧ fs_files s' = <[path := b]> F
  | Err _ => fs_files s' = fs_files s
  end.
Proof.
  unfold os_Rename, syscall, but_temp. pose proof (next_fault_files s) as Hs.
  destruct (next_fault s) as [[|n] s1]; cbn in *; [|done]. rewrite <-Hs. intros HF.
  destruct (fs_files s1 !! t) as [b|]; cbn; [|done]. exists b. by rewrite HF.
Qed.

Lemma writeTemp_spec t F path data s :
  but_temp t F s → fs_files s !! t = Some "" →
  let '(x, s') := writeTemp t path data s in
  match x with
  | Ok _ => fs_files s' = <[path := data]> F
  | Err _ => but_temp t F s'
  end.
Proof.
  intros HF Ht. unfold writeTemp, mbind, M_bind, attempt.
  pose proof (file_Write_temp t F data s HF) as Hw. destruct (file_Write t data s) as [[[]|e] s1].
  2: { destruct Hw as [Hw _]. pose proof (syscall_files "close" t (mret tt) s1 (λ _, eq_refl)) as Hc.
       unfold file_Close. destruct (syscall _ _ _ s1) as [? s2]. cbn in *.
       unfold but_temp. by rewrite Hc. }
  destruct Hw as [Hw Hd]. specialize (Hd eq_refl). rewrite Ht in Hd. cbn in Hd.
  rewrite str_app_nil_l in Hd.
  pose proof (syscall_files "sync" t (mret tt) s1 (λ _, eq_refl)) as Hy.
  unfold file_Sync. destruct (syscall "sync" t _ s1) as [[[]|e] s2]; cbn in Hy;
    pose proof (syscall_files "close" t (mret tt) s2 (λ _, eq_refl)) as Hc;
    unfold file_Close; destruct (syscall "close" t _ s2) as [[[]|e'] s3]; cbn in *;
    try (unfold but_temp; by rewrite Hc, Hy).
  pose proof (os_Rename_temp t F path s3) as Hr. destruct (os_Rename t path s3) as [[[]|e] s4].
  - destruct Hr as (b & Hb & ->); [unfold but_temp; by rewrite Hc, Hy|]. congruence.
  - unfold but_temp. rewrite Hr, Hc, Hy; [done|]. unfold but_temp. by rewrite Hc, Hy.
Qed.

Lemma os_CreateTemp_spec path s :
  let '(x, s') := os_CreateTemp (filepath_Dir path) (filepath_Base path) s in
  match x with
  | Ok t => t = tempName (fs_files s) path ∧ but_temp t (fs_files s) s' ∧ fs_files s' !! t = Some ""
  | Err _ => fs_files s' = fs_files s
  end.
Proof.
  unfold os_CreateTemp, syscall. pose proof (next_fault_files s) as Hs.
  destruct (next_fault s) as [[|n] s1]; cbn in *; [|done]. case_decide; [|done].
  rewrite Hs. fold (tempName (fs_files s) path). split; [done|]. unfold but_temp. cbn.
  rewrite delete_insert_id, lookup_insert_eq by apply temp_fresh. done.
Qed.

Lemma cleanupTemp_but t F s :
  but_temp t F s → let '(x, s') := cleanupTemp t s in x = Ok tt ∧ but_temp t F s'.
Proof.
  intros HF. unfold cleanupTemp, mbind, M_bind, attempt, os_Stat, os_Remove, syscall, but_temp in *.
  pose proof (next_fault_files s) as Hs. destruct (next_fault s) as [[|n] s1]; cbn in *.
  2: { by rewrite Hs. }
  destruct (fs_files s1 !! t); cbn; [|by rewrite Hs].
  pose proof (next_fault_files s1) as Hs1. destruct (next_fault s1) as [[|n] s2]; cbn in *.
  - rewrite delete_delete_eq. by rewrite Hs1, Hs.
  - by rewrite Hs1, Hs.
Qed.

Lemma cleanupTemp_none t s :
  fs_files s !! t = None →
  let '(x, s') := cleanupTemp t s in x = Ok tt ∧ fs_files s' = fs_files s.
Proof.
  intros Ht. unfold cleanupTemp, mbind, M_bind, attempt, os_Stat, syscall.
  pose proof (next_fault_files s) as Hs. destruct (next_fault s) as [[|n] s1]; cbn in *; [|done].
  by rewrite Hs, Ht.
Qed.

Lemma atomicWrite_spec d x data s :
  d ≠ "" → plain_seg x → no_byte slash x →
  let path := filepath_Join [d; x] in
  let '(res, s') := atomicWrite path data s in
  match res with
  | Ok _ => fs_files s' = <[path := data]> (fs_files s)
  | Err _ => delete (tempName (fs_files s) path) (fs_files s') = fs_files s
  end.
Proof.
  intros Hd Hx Hb path. pose proof (tempName_ne (fs_files s) d x Hd Hx Hb) as Hne. fold path in Hne.
  unfold atomicWrite, mbind, M_bind, attempt.
  pose proof (os_CreateTemp_spec path s) as Hc.
  destruct (os_CreateTemp _ _ s) as [[t|e] s1]; [|rewrite Hc; apply delete_id, temp_fresh].
  destruct Hc as (-> & Hbut & Ht). set (t := tempName (fs_files s) path) in *.
  pose proof (writeTemp_spec t (fs_files s) path data s1 Hbut Ht) as Hw.
  destruct (writeTemp t path data s1) as [[[]|e] s2].
  - pose proof (cleanupTemp_none t s2) as Hn. destruct (cleanupTemp t s2) as [y s3].
    destruct Hn as [-> Hn]; [by rewrite Hw, lookup_insert_ne by done; apply temp_fresh|].
    cbn. by rewrite Hn.
  - pose proof (cleanupTemp_but t (fs_files s) s2 Hw) as Hn. destruct (cleanupTemp t s2) as [y s3].
    by destruct Hn as [-> Hn].
Qed.

(** Without faults a write to an existing directory succeeds. *)
Lemma atomicWrite_run d x data s :
  d ≠ "" → plain_seg x → no_byte slash x → fs_faults s = [] → Clean d ∈ fs_dirs s →
  atomicWrite (filepath_Join [d; x]) data s
    = (Ok tt, set_files (<[filepath_Join [d; x] := data]> (fs_files s)) s).
Proof.
  intros Hd Hx Hb Hf Hdir. set (path := filepath_Join [d; x]).
  pose proof (tempName_ne (fs_files s) d x Hd Hx Hb) as Hne. fold path in Hne.
  assert (Hnone : fs_files s !! tempName (fs_files s) path = None) by apply temp_fresh.
  unfold atomicWrite, mbind, M_bind, attempt, os_CreateTemp, syscall, next_fault.
  rewrite Hf, decide_True by by (unfold path; rewrite Dir_Join2).
  fold (tempName (fs_files s) path). set (t := tempName (fs_files s) path) in *.
  unfold writeTemp, cleanupTemp, mbind, M_bind, attempt, file_Write, file_Sync, file_Close,
    os_Rename, os_Stat, syscall, next_fault. cbn. rewrite Hf. cbn.
  rewrite !lookup_insert_eq. cbn. rewrite Hf. cbn. rewrite Hf. cbn. rewrite Hf. cbn.
  rewrite lookup_insert_eq. cbn. rewrite Hf. cbn.
  rewrite insert_insert_eq, delete_insert_id, lookup_insert_ne, Hnone by done. done.
Qed.

(** A cache file is replaced atomically, whatever calls of the operating system fail and
    however much a failing write has written: when [atomicWrite] succeeds the file has the
    new content and every other file is as it was; when it fails the file has its old
    content (or still does not exist), and at most a temporary file is left behind. When
    nothing fails and the directory exists, it succeeds. *)
Theorem atomicWrite_atomic d x data s :
  d ≠ "" → plain_seg x → no_byte slash x →
  let path := filepath_Join [d; x] in
  let '(res, s') := atomicWrite path data s in
  match res with
  | Ok _ => fs_files s' = <[path := data]> (fs_files s)
  | Err _ => fs_files s' !! path = fs_files s !! path ∧
      ∀ p b, fs_files s !! p = Some b → fs_files s' !! p = Some b
  end ∧
  (fs_faults s = [] → Clean d ∈ fs_dirs s → res = Ok tt).
Proof.
  intros Hd Hx Hb path. pose proof (atomicWrite_spec d x data s Hd Hx Hb) as Hs.
  pose proof (atomicWrite_run d x data s Hd Hx Hb) as Hr.
  pose proof (tempName_ne (fs_files s) d x Hd Hx Hb) as Hne. cbn in Hs. fold path in Hs, Hr, Hne.
  assert (Hnone : fs_files s !! tempName (fs_files s) path = None) by apply temp_fresh.
  destruct (atomicWrite path data s) as [[[]|e] s']; (split; [|intros Hf Hdir; specialize (Hr Hf Hdir); congruence]); [done|].
  rewrite <-Hs at 1. rewrite lookup_delete_ne by done. split; [done|].
  intros p b Hp. rewrite <-Hp, <-Hs, lookup_delete_ne; [done|]. congruence.
Qed.
End atomic.

(** ** The layout of the cache *)

Definition at_sign : Ascii.ascii := Ascii.ascii_of_nat 64.

Definition schemaPath (nsDir id : string) (version : Z) : string :=
  filepath_Join [filepath_Join [nsDir; "schemas"]; cacheFileName id version].
Definition manifestPath (nsDir : string) : string := filepath_Join [nsDir; "manifest.json"].

Lemma digit_not c : c = at_sign ∨ c = slash → ∀ n, pretty_N_char n ≠ c.
Proof. intros [-> | ->] n; unfold pretty_N_char; by repeat case_match. Qed.

Lemma cacheFileName_plain id v : plain_seg (cacheFileName id v).
Proof.
  unfold cacheFileName.
  assert (Hl : (3 < String.length (id +:+ "@" +:+ pretty v +:+ ".pb"))%nat).
  { rewrite !length_str_app. cbn. lia. }
  split_and!; intros E; rewrite E in Hl; cbn in Hl; lia.
Qed.

Lemma cacheFileName_no_slash id v : no_byte slash id → no_byte slash (cacheFileName id v).
Proof.
  intros Hid. unfold cacheFileName. rewrite !no_byte_app. split_and!; [done|done| |done].
  apply pretty_Z_no_byte; [by apply digit_not; right|done].
Qed.

Lemma cacheFileName_inj id id' v v' : cacheFileName id v = cacheFileName id' v' → id = id'.
Proof.
  unfold cacheFileName. intros E.
  assert (Hi : ∀ i (z : Z), LastIndexByte at_sign (i +:+ "@" +:+ pretty z +:+ ".pb") = Some (String.length i)).
  { intros i z. change ("@" +:+ ?s) with (String at_sign s). apply LastIndexByte_app.
    apply no_byte_app. split; [|done]. apply pretty_Z_no_byte; [by apply digit_not; left|done]. }
  pose proof (Hi id v) as H1. rewrite E, Hi in H1. injection H1 as H1.
  by apply str_app_inj_r in E as [? _].
Qed.

Section layout.
Context (nsDir : string) (Hns : nsDir ≠ "").
Local Lemma schemas_plain : plain_seg "schemas" ∧ no_byte slash "schemas".
Proof. by split_and!. Qed.
Local Lemma manifest_plain : plain_seg "manifest.json" ∧ no_byte slash "manifest.json".
Proof. by split_and!. Qed.

Lemma schemasDir_nonempty : filepath_Join [nsDir; "schemas"] ≠ "".
Proof. by apply Join2_nonempty. Qed.

Lemma manifestPath_text : manifestPath nsDir = above (canon nsDir) +:+ "manifest.json".
Proof. destruct manifest_plain. by apply Join2_above. Qed.

Lemma schemasDir_above :
  above (canon (filepath_Join [nsDir; "schemas"])) = above (canon nsDir) +:+ "schemas/".
Proof.
  destruct schemas_plain. rewrite canon_Join2, above_child by done. by destruct (canon nsDir).
Qed.

Lemma schemaPath_text id v : no_byte slash id →
  schemaPath nsDir id v = above (canon nsDir) +:+ "schemas/" +:+ cacheFileName id v.
Proof.
  intros Hid. unfold schemaPath. rewrite Join2_above.
  - by rewrite schemasDir_above, str_app_assoc.
  - apply schemasDir_nonempty.
  - apply cacheFileName_plain.
  - by apply cacheFileName_no_slash.
Qed.

Lemma schemaPath_inj id id' v v' : no_byte slash id → no_byte slash id' →
  schemaPath nsDir id v = schemaPath nsDir id' v' → id = id'.
Proof.
  intros. eapply (cacheFileName_inj _ _ v v').
  rewrite !schemaPath_text, <-!str_app_assoc in * by done.
  by apply str_app_inj_r in H1 as [_ ?].
Qed.

Lemma schemas_not_manifest x : above (canon nsDir) +:+ "schemas/" +:+ x ≠ manifestPath nsDir.
Proof. rewrite manifestPath_text. intros [_ E]%str_app_inj_r; done. Qed.
End layout.

Lemma tempName_schemas `{TempNames} nsDir F id v : nsDir ≠ "" → no_byte slash id →
  ∃ t, tempName F (schemaPath nsDir id v) = above (canon nsDir) +:+ "schemas/" +:+ t.
Proof.
  intros Hns Hid. unfold tempName, schemaPath.
  pose proof (cacheFileName_plain id v) as Hp. pose proof (cacheFileName_no_slash id v Hid) as Hb.
  pose proof (schemasDir_nonempty nsDir Hns) as Hsd.
  rewrite Dir_Join2, Base_Join2, Clean_Join2 by done.
  rewrite Join2_above by (done || by apply plain_dot || by apply no_byte_dot).
  rewrite schemasDir_above, !str_app_assoc by done. by eexists.
Qed.

(** ** Persisting *)

Section persist.
Context `{Protoreflect, ProtoTypes, GoRange} {R : Type} `{RegistryConn R}.
Context `{TempNames, TimeText, !Clock R}.
Implicit Types (w : World R) (s : nsSnapshot) (F : gmap string string).

(** The identifiers of the schemas are names of one path element. *)
Definition plain_ids s : Prop := ∀ id, is_Some (sn_schemas s !! id) → no_byte slash id.

(** The files and the manifest entries of the schemas [ids]. *)
Definition cached s (id : string) : option schemaSnapshot :=
  ss ← sn_schemas s !! id; if decide (ss_rawDescriptorSet ss = "") then None else Some ss.
Definition entry (id : string) (ss : schemaSnapshot) : cacheSchemaManifest :=
  {| csm_SchemaID := id; csm_Version := ss_version ss; csm_File := cacheFileName id (ss_version ss) |}.
Definition entries s (ids : list string) : list cacheSchemaManifest :=
  omap (λ id, entry id <$> cached s id) ids.
Definition written nsDir s (ids : list string) F : gmap string string :=
  fold_left (λ F id, match cached s id with
                     | Some ss => <[schemaPath nsDir id (ss_version ss) := ss_rawDescriptorSet ss]> F
                     | None => F
                     end) ids F.

(** Only the file system of a world changed. *)
Definition with_fs (f : FileSystem) w : World R :=
  {| w_srv := w_srv w; w_heap := w_heap w; w_fs := f; w_log := w_log w |}.

Lemma on_fs_run {A} (m : M FileSystem A) w : on_fs m w = Returns ((m (w_fs w)).1, with_fs (m (w_fs w)).2 w).
Proof. unfold on_fs, zoom, liftM. by destruct (m (w_fs w)). Qed.

Definition quietFS (f : FileSystem) (dir : string) : Prop := fs_faults f = [] ∧ dir ∈ fs_dirs f.

Lemma cached_plain s id ss : plain_ids s → cached s id = Some ss → no_byte slash id.
Proof.
  intros Hids Hc. apply Hids. unfold cached in Hc. destruct (sn_schemas s !! id); [by eexists|done].
Qed.

(** One schema: a view without its bytes is skipped, the file of another is replaced. *)
Lemma persistSchema_run nsDir s acc id w :
  persistSchema (filepath_Join [nsDir; "schemas"]) s acc id w =
    match cached s id with
    | None => Returns (Ok acc, w)
    | Some ss =>
       let dst := schemaPath nsDir id (ss_version ss) in
       let '(x, f) := atomicWrite dst (ss_rawDescriptorSet ss) (w_fs w) in
       match wrap ("write schema cache " +:+ dst) x with
       | Ok _ => Returns (Ok (acc ++ [entry id ss]), with_fs f w)
       | Err e => Returns (Err e, with_fs f w)
       end
    end.
Proof.
  unfold persistSchema, cached. destruct (sn_schemas s !! id) as [ss|]; cbn; [|done].
  case_decide; [done|]. unfold mbind, Prog_bind, wrapP. rewrite on_fs_run.
  fold (schemaPath nsDir id (ss_version ss)).
  destruct (atomicWrite _ _ _) as [[[]|e] f]; done.
Qed.

(** The loop over the schemas writes their files one after the other; when a write fails
    the files before it are written, and a temporary file may be left. *)
Lemma persistSchemas_run nsDir s ids acc w :
  nsDir ≠ "" → plain_ids s →
  let sd := filepath_Join [nsDir; "schemas"] in
  ∃ x f', foldP (persistSchema sd s) acc ids w = Returns (x, with_fs f' w) ∧
    (quietFS (w_fs w) sd → is_ok x = true ∧ quietFS f' sd ∧ fs_dirs f' = fs_dirs (w_fs w)) ∧
    match x with
    | Ok acc' => acc' = acc ++ entries s ids ∧ fs_files f' = written nsDir s ids (fs_files (w_fs w))
    | Err _ => ∃ t pre, pre `prefix_of` ids ∧
        delete (above (canon nsDir) +:+ "schemas/" +:+ t) (fs_files f')
          = written nsDir s pre (fs_files (w_fs w))
    end.
Proof.
  intros Hns Hids sd. revert acc w. induction ids as [|id ids IH]; intros acc w; cbn [foldP].
  { exists (Ok acc), (w_fs w). split; [by destruct w|]. by rewrite app_nil_r. }
  unfold mbind at 1, Prog_bind at 1. rewrite (persistSchema_run nsDir).
  destruct (cached s id) as [ss|] eqn:Ess; cbn.
  2: { destruct (IH acc w) as (x & f' & E & Hq & Hx). exists x, f'. split; [done|]. split; [done|].
       unfold entries, written. cbn. rewrite Ess. cbn. destruct x; [done|].
       destruct Hx as (t & pre & Hpre & Hx). exists t, (id :: pre).
       split; [by apply prefix_cons|]. cbn. by rewrite Ess. }
  pose proof (cached_plain s id ss Hids Ess) as Hid.
  pose proof (cacheFileName_plain id (ss_version ss)) as Hp.
  pose proof (cacheFileName_no_slash id (ss_version ss) Hid) as Hb.
  pose proof (schemasDir_nonempty nsDir Hns) as Hsd.
  pose proof (atomicWrite_spec sd (cacheFileName id (ss_version ss)) (ss_rawDescriptorSet ss)
    (w_fs w) Hsd Hp Hb) as Ha. cbn in Ha. fold (schemaPath nsDir id (ss_version ss)) in Ha.
  assert (Hrun : quietFS (w_fs w) sd → atomicWrite (schemaPath nsDir id (ss_version ss))
    (ss_rawDescriptorSet ss) (w_fs w) = (Ok tt, set_files (<[schemaPath nsDir id (ss_version ss)
      := ss_rawDescriptorSet ss]> (fs_files (w_fs w))) (w_fs w))).
  { intros [Hf Hd]. apply atomicWrite_run; [done..|]. unfold sd. by rewrite Clean_Join2. }
  destruct (atomicWrite _ _ _) as [[[]|e] f1]; cbn.
  - destruct (IH (acc ++ [entry id ss]) (with_fs f1 w)) as (x & f' & E & Hq & Hx).
    exists x, f'. rewrite E. split; [done|]. split.
    { intros Hquiet. specialize (Hrun Hquiet). injection Hrun as ->. by apply Hq. }
    cbn in Hx. rewrite Ha in Hx. unfold entries, written. cbn. rewrite Ess. cbn.
    destruct x; [by rewrite <-app_assoc in Hx|]. destruct Hx as (t & pre & Hpre & Hx).
    exists t, (id :: pre). split; [by apply prefix_cons|]. cbn. by rewrite Ess.
  - eexists (Err _), f1. split; [done|]. split; [intros Hquiet; by specialize (Hrun Hquiet)|].
    destruct (tempName_schemas nsDir (fs_files (w_fs w)) id (ss_version ss) Hns Hid) as [t Ht].
    exists t, []. split; [apply prefix_nil|]. by rewrite <-Ht.
Qed.

(** The loop does not touch the manifest. *)
Lemma written_manifest nsDir s ids F :
  nsDir ≠ "" → plain_ids s → written nsDir s ids F !! manifestPath nsDir = F !! manifestPath nsDir.
Proof.
  intros Hns Hids. unfold written. revert F. induction ids as [|id ids IH]; intros F; cbn; [done|].
  rewrite IH. destruct (cached s id) as [ss|] eqn:E; [|done].
  rewrite lookup_insert_ne; [done|].
  rewrite schemaPath_text by (done || by eapply cached_plain). by apply schemas_not_manifest.
Qed.

Lemma manifest_kept nsDir s ids F F' t :
  nsDir ≠ "" → plain_ids s → delete t F' = written nsDir s ids F → t ≠ manifestPath nsDir →
  F' !! manifestPath nsDir = F !! manifestPath nsDir.
Proof.
  intros Hns Hids E Ht. by rewrite <-(written_manifest nsDir s ids F), <-E, lookup_delete_ne.
Qed.

(** The file of every schema of the list has its bytes. *)
Lemma written_lookup nsDir s ids F id ss :
  nsDir ≠ "" → plain_ids s → NoDup ids → id ∈ ids → cached s id = Some ss →
  written nsDir s ids F !! schemaPath nsDir id (ss_version ss) = Some (ss_rawDescriptorSet ss).
Proof.
  intros Hns Hids. unfold written. revert F. induction ids as [|id' ids IH]; intros F Hnd Hin Hc.
  { by apply elem_of_nil in Hin. }
  apply NoDup_cons in Hnd as [Hid' Hnd]. cbn. apply elem_of_cons in Hin as [<-|Hin]; [|by apply IH].
  rewrite Hc. clear IH Hnd. revert F. induction ids as [|id' ids IH] using rev_ind; intros F; cbn.
  { by rewrite lookup_insert_eq. }
  rewrite fold_left_app. cbn. apply not_elem_of_app in Hid' as [Hid1 Hid2].
  destruct (cached s id') as [ss'|] eqn:E; [|by apply IH].
  rewrite lookup_insert_ne; [by apply IH|]. intros Heq.
  apply schemaPath_inj in Heq; [|done|by eapply cached_plain..]. subst. apply Hid2. left.
Qed.

Lemma os_MkdirAll_run p f :
  let '(x, f') := os_MkdirAll p f in
  fs_files f' = fs_files f ∧
  (fs_faults f = [] → x = Ok tt ∧ fs_faults f' = [] ∧ p ∈ fs_dirs f' ∧
     (filepath_Dir p ≠ p → p ≠ "" → filepath_Dir p ∈ fs_dirs f')).
Proof.
  unfold os_MkdirAll, syscall. pose proof (next_fault_files f) as Hf. unfold next_fault in *.
  destruct (fs_faults f) as [|[|n] l] eqn:E; cbn in *; split; try done. intros _.
  split_and!; [done|done|set_solver|]. intros Hd Hp. rewrite decide_False by done.
  destruct p as [|c p]; [done|]. cbn. set_solver.
Qed.

Lemma sortedIDs_cached s id ss : cached s id = Some ss → id ∈ sortedIDs s.
Proof.
  intros Hc. apply sortedIDs_elem. unfold cached in Hc. destruct (sn_schemas s !! id); [by eexists|done].
Qed.

(** The cache of a snapshot: every schema file is there under the new manifest. *)
Lemma cache_files nsDir s F b id ss :
  nsDir ≠ "" → plain_ids s → cached s id = Some ss →
  (<[manifestPath nsDir := b]> (written nsDir s (sortedIDs s) F) : gmap string string)
    !! schemaPath nsDir id (ss_version ss) = Some (ss_rawDescriptorSet ss).
Proof.
  intros Hns Hids Hc. rewrite lookup_insert_ne.
  - apply written_lookup; [done|done|apply sortedIDs_NoDup|by eapply sortedIDs_cached|done].
  - rewrite schemaPath_text by (done || by eapply cached_plain). intros E. by eapply schemas_not_manifest.
Qed.

(** The manifest written for a snapshot. *)
Definition manifestOf (r : Resolver) (ancestorIDs : list string) s (now : string) : cacheManifest :=
  newManifest (r_ns r) ancestorIDs now (entries s (sortedIDs s)).

Definition nsDirOf (r : Resolver) : string := cacheNamespaceDir (cfg_cacheDir (r_cfg r)) (r_ns r).

Lemma nsDir_clean r : cfg_cacheDir (r_cfg r) ≠ "" → r_ns r ≠ "" →
  nsDirOf r ≠ "" ∧ Clean (nsDirOf r) = nsDirOf r ∧
  filepath_Dir (filepath_Join [nsDirOf r; "schemas"]) = nsDirOf r ∧
  filepath_Join [nsDirOf r; "schemas"] ≠ nsDirOf r.
Proof.
  intros Hc Hn. assert (Hd : nsDirOf r ≠ "") by by apply Join2_nonempty.
  assert (Hcl : Clean (nsDirOf r) = nsDirOf r) by by apply Clean_Join2.
  destruct schemas_plain as [Hp Hb]. split_and!; [done|done|by rewrite Dir_Join2|].
  intros E%(f_equal (λ p, (canon p).2)). rewrite canon_Join2 in E by done. cbn in E.
  by apply (f_equal length) in E; cbn in E; lia.
Qed.

Lemma writeManifest_run nsDir s ids F b f :
  nsDir ≠ "" → Clean nsDir = nsDir → plain_ids s → fs_files f = written nsDir s ids F →
  let '(x, f') := atomicWrite (manifestPath nsDir) b f in
  (fs_faults f = [] → nsDir ∈ fs_dirs f → x = Ok tt ∧ fs_faults f' = []) ∧
  match x with
  | Ok _ => fs_files f' = <[manifestPath nsDir := b]> (written nsDir s ids F)
  | Err _ => fs_files f' !! manifestPath nsDir = F !! manifestPath nsDir
  end.
Proof.
  intros Hns Hcl Hids Hf. destruct manifest_plain as [Hmp Hmb].
  pose proof (atomicWrite_spec nsDir "manifest.json" b f Hns Hmp Hmb) as Ha.
  pose proof (atomicWrite_run nsDir "manifest.json" b f Hns Hmp Hmb) as Hr.
  pose proof (tempName_ne (fs_files f) nsDir "manifest.json" Hns Hmp Hmb) as Htn.
  cbn zeta in Ha. fold (manifestPath nsDir) in Ha, Hr, Htn. rewrite Hcl in Hr.
  destruct (atomicWrite (manifestPath nsDir) b f) as [[[]|e] f']; split.
  - intros H7 H8. specialize (Hr H7 H8). by injection Hr as ->.
  - by rewrite Ha, Hf.
  - intros H7 H8. by specialize (Hr H7 H8).
  - eapply (manifest_kept nsDir s ids F _ (tempName (fs_files f) (manifestPath nsDir)));
      [done|done|by rewrite Ha|done].
Qed.

Lemma persistOwn_run r ancestorIDs s w :
  cfg_cacheDir (r_cfg r) ≠ "" → r_ns r ≠ "" → plain_ids s →
  let nsDir := nsDirOf r in
  let man := manifestOf r ancestorIDs s (time_Now (w_srv w)).1 in
  ∃ x w', persistOwn r ancestorIDs s w = Returns (x, w') ∧ w_heap w' = w_heap w ∧
    (fs_faults (w_fs w) = [] → is_ok (manifest_MarshalIndent man) = true →
       x = Ok tt ∧ fs_faults (w_fs w') = []) ∧
    match x with
    | Ok _ => ∃ b, manifest_MarshalIndent man = Ok b ∧
        fs_files (w_fs w') =
          <[manifestPath nsDir := b]> (written nsDir s (sortedIDs s) (fs_files (w_fs w)))
    | Err _ =>
        fs_files (w_fs w') !! manifestPath nsDir = fs_files (w_fs w) !! manifestPath nsDir
    end.
Proof.
  intros Hc Hn Hids nsDir man.
  destruct (nsDir_clean r Hc Hn) as (Hns & Hcl & Hdir & Hne). fold nsDir in Hns, Hcl, Hdir, Hne.
  unfold persistOwn. fold (nsDirOf r). fold nsDir. unfold mbind at 1, Prog_bind at 1, wrapP at 1.
  rewrite on_fs_run. set (sd := filepath_Join [nsDir; "schemas"]) in *.
  pose proof (os_MkdirAll_run sd (w_fs w)) as Hm.
  destruct (os_MkdirAll sd (w_fs w)) as [[[]|e] f1]; cbn [fst snd].
  2: { eexists (Err _), _. split; [done|]. split; [done|]. destruct Hm as [Hf Hq]. cbn.
       split; [|by rewrite Hf]. intros Hf0. by destruct (Hq Hf0). }
  destruct Hm as [Hf1 Hq1]. cbn [wrap]. unfold mbind at 1, Prog_bind at 1.
  unfold on_srv, zoom, liftM. cbn [w_srv with_fs]. destruct (time_Now (w_srv w)) as [now srv'] eqn:Et.
  set (w1 := {| w_srv := srv'; w_heap := w_heap w; w_fs := f1; w_log := w_log w |}).
  cbn [w_heap w_fs w_log with_fs]. fold w1.
  unfold mbind at 1, Prog_bind at 1.
  destruct (persistSchemas_run nsDir s (sortedIDs s) [] w1 Hns Hids) as (x & f2 & E & Hq2 & Hx).
  fold sd in E, Hq2. rewrite E. cbn [fst] in man.
  assert (Hquiet : fs_faults (w_fs w) = [] → quietFS f1 sd ∧ nsDir ∈ fs_dirs f1).
  { intros Hf0. destruct (Hq1 Hf0) as (_ & ? & ? & Hd). rewrite Hdir in Hd. split; [by split|].
    apply Hd; [congruence|]. by apply Join2_nonempty. }
  change (w_fs w1) with f1 in Hq2, Hx.
  destruct x as [acc|e].
  2: { eexists (Err e), _. split; [done|]. split; [done|]. cbn [w_fs with_fs]. split.
       - intros Hf0. destruct (Hquiet Hf0) as [Hf1' _]. by destruct (Hq2 Hf1').
       - destruct Hx as (t & pre & _ & Ht). rewrite <-Hf1.
         eapply manifest_kept; [done..|]. by apply schemas_not_manifest. }
  destruct Hx as [-> Hw2]. cbn [app]. rewrite Hf1 in Hw2. fold (manifestOf r ancestorIDs s now). fold man.
  unfold mbind at 1, Prog_bind at 1, wrapP at 1, of_resP.
  destruct (manifest_MarshalIndent man) as [b|e] eqn:Em; cbn [wrap].
  2: { eexists (Err _), _. split; [done|]. split; [done|]. cbn [w_fs with_fs is_ok].
       split; [done|]. by rewrite Hw2, written_manifest. }
  fold (manifestPath nsDir). unfold wrapP. rewrite on_fs_run. cbn [w_fs with_fs].
  pose proof (writeManifest_run nsDir s (sortedIDs s) (fs_files (w_fs w)) b f2 Hns Hcl Hids Hw2) as Ha.
  destruct (atomicWrite (manifestPath nsDir) b f2) as [[[]|e] f3]; cbn [fst snd wrap];
    destruct Ha as [Hok Ha]; eexists _, _; (split; [done|]); (split; [done|]); cbn [w_fs with_fs];
    (split; [|by eauto]); intros Hf0 _; destruct (Hquiet Hf0) as [Hf1' Hd1];
    destruct (Hq2 Hf1') as (_ & [Hf2 _] & Hd2); rewrite <-Hd2 in Hd1.
  - by destruct (Hok Hf2 Hd1).
  - by destruct (Hok Hf2 Hd1).
Qed.

(** C20. The manifest is written last: whatever calls fail while a namespace is persisted, the
    cache has the old manifest, or the new one together with the bytes of every schema it
    lists. A success means the latter, and without faults persisting succeeds. *)
Theorem persist_manifest_last r ancestorIDs s w :
  cfg_cacheDir (r_cfg r) ≠ "" → r_ns r ≠ "" → plain_ids s →
  let nsDir := nsDirOf r in
  let man := manifestOf r ancestorIDs s (time_Now (w_srv w)).1 in
  ∃ x w', persistOwn r ancestorIDs s w = Returns (x, w') ∧
    (fs_faults (w_fs w) = [] → is_ok (manifest_MarshalIndent man) = true → x = Ok tt) ∧
    match x with
    | Err _ =>
        fs_files (w_fs w') !! manifestPath nsDir = fs_files (w_fs w) !! manifestPath nsDir
    | Ok _ => ∃ b, manifest_MarshalIndent man = Ok b ∧
        fs_files (w_fs w') !! manifestPath nsDir = Some b ∧
        ∀ id ss, cached s id = Some ss →
          fs_files (w_fs w') !! schemaPath nsDir id (ss_version ss) = Some (ss_rawDescriptorSet ss)
    end.
Proof.
  intros Hc Hn Hids nsDir man. destruct (nsDir_clean r Hc Hn) as (Hns & _).
  destruct (persistOwn_run r ancestorIDs s w Hc Hn Hids) as (x & w' & E & _ & Hq & Hx).
  exists x, w'. split; [done|]. split; [intros H7 H8; by destruct (Hq H7 H8)|].
  destruct x; [|done]. destruct Hx as (b & Hb & Hf). exists b. split; [done|].
  rewrite Hf. split; [by rewrite lookup_insert_eq|]. intros id ss Hss.
  by apply cache_files.
Qed.
End persist.

(** ** Loading *)

Section load.
Context `{Protoreflect, ProtoTypes, GoRange} {R : Type} `{RegistryConn R}.
Context `{TempNames, TimeText, !Clock R} `{!ProtoFilesLaws, !ProtodescLaws}.
Implicit Types (w : World R) (s : nsSnapshot) (r : Resolver).

(** The bytes kept with a view compile to that view. *)
Definition recompiles (ns : string) s : Prop :=
  ∀ id ss, sn_schemas s !! id = Some ss → ss_rawDescriptorSet ss ≠ "" ∧
    ∃ fds, Unmarshal (ss_rawDescriptorSet ss) = Ok fds ∧
      compileSchema ns id (ss_version ss) fds (ss_rawDescriptorSet ss) = Returns (Ok ss).

(** It does for every view that was fetched, when decoding inverts encoding. *)
Lemma fetched_recompiles r id v w ss w' :
  (∀ fds b, Marshal fds = Ok b → Unmarshal b = Ok fds) →
  fetchSchema r id v w = Returns (Ok ss, w') →
  ∃ fds, Unmarshal (ss_rawDescriptorSet ss) = Ok fds ∧
    compileSchema (r_ns r) id (ss_version ss) fds (ss_rawDescriptorSet ss) = Returns (Ok ss).
Proof.
  intros Hm (resp & w1 & _ & E)%Prog_bind_Ok. apply Prog_bind_Ok in E as (raw & w2 & Er%wrapP_Ok & E).
  unfold of_outcome in E. destruct (compileSchema _ _ _ _ _) as [x|] eqn:Ec; [|done].
  injection E as -> <-. pose proof Ec as (fs & _ & _ & _ & Hv & Hr)%compileSchema_rep.
  unfold of_resP in Er. injection Er as Er _. exists resp.2. by rewrite Hr, Hv, (Hm _ _ Er).
Qed.

(** The snapshot the entries of [ids] load to. *)
Definition loaded s (ids : list string) (snap : nsSnapshot) : nsSnapshot :=
  fold_left (λ snap id, match cached s id with
                        | Some ss => put_schema id ss snap
                        | None => snap
                        end) ids snap.

Lemma entries_cons s id ids :
  entries s (id :: ids) =
  match cached s id with Some ss => entry id ss :: entries s ids | None => entries s ids end.
Proof. unfold entries. cbn. by destruct (cached s id). Qed.

Lemma loaded_cons s id ids snap :
  loaded s (id :: ids) snap =
  loaded s ids match cached s id with Some ss => put_schema id ss snap | None => snap end.
Proof. done. Qed.

Lemma lookup_loaded s ids snap id :
  NoDup ids → sn_schemas (loaded s ids snap) !! id =
    if decide (id ∈ ids ∧ is_Some (cached s id)) then cached s id else sn_schemas snap !! id.
Proof.
  revert snap. induction ids as [|id' ids IH]; intros snap Hnd.
  { rewrite decide_False; [done|]. by intros [?%elem_of_nil _]. }
  apply NoDup_cons in Hnd as [Hid' Hnd]. rewrite loaded_cons, IH by done.
  destruct (decide (id = id')) as [->|Hne].
  - rewrite decide_False by tauto. destruct (cached s id') as [ss|] eqn:E; cbn.
    + rewrite decide_True by (split; [left|by eexists]). by rewrite lookup_insert_eq.
    + rewrite decide_False by (intros [_ []]; done). done.
  - assert (Hs : sn_schemas match cached s id' with Some ss => put_schema id' ss snap | None => snap end
      !! id = sn_schemas snap !! id).
    { destruct (cached s id'); [|done]. cbn. by rewrite lookup_insert_ne. }
    rewrite Hs. apply decide_ext. set_solver.
Qed.

Lemma loaded_index s ids snap : sn_nameIndex (loaded s ids snap) = sn_nameIndex snap.
Proof.
  revert snap. induction ids as [|id ids IH]; intros snap; [done|].
  rewrite loaded_cons, IH. by destruct (cached s id).
Qed.

Lemma cached_all ns s id : recompiles ns s → cached s id = sn_schemas s !! id.
Proof.
  intros Hr. unfold cached. destruct (sn_schemas s !! id) as [ss|] eqn:E; cbn; [|done].
  destruct (Hr _ _ E) as [Hraw _]. by rewrite decide_False.
Qed.

Lemma loaded_all ns s : recompiles ns s → sn_schemas (loaded s (sortedIDs s) newSnapshot) = sn_schemas s.
Proof.
  intros Hr. apply map_eq. intros id. rewrite lookup_loaded by apply sortedIDs_NoDup.
  rewrite (cached_all ns) by done. case_decide as Hd; [done|]. cbn. rewrite lookup_empty.
  symmetry. apply eq_None_not_Some. intros Hx. apply Hd. split; [by apply sortedIDs_elem|done].
Qed.

Lemma os_ReadFile_run p f b :
  fs_faults f = [] → fs_files f !! p = Some b → os_ReadFile p f = (Ok b, f).
Proof. intros Hf Hp. unfold os_ReadFile, syscall, next_fault. by rewrite Hf, Hp. Qed.

Lemma with_fs_id w : with_fs (w_fs w) w = w.
Proof. by destruct w. Qed.

Lemma loadSchema_run r nsDir s id ss snap w :
  nsDir ≠ "" → recompiles (r_ns r) s → no_byte slash id → cached s id = Some ss →
  tracksSchema r id = true → fs_faults (w_fs w) = [] →
  fs_files (w_fs w) !! schemaPath nsDir id (ss_version ss) = Some (ss_rawDescriptorSet ss) →
  loadSchema r nsDir snap (entry id ss) w = Returns (Ok (put_schema id ss snap), w).
Proof.
  intros Hns Hr Hid Hc Ht Hf Hfile. rewrite (cached_all (r_ns r)) in Hc by done.
  destruct (Hr _ _ Hc) as (_ & fds & Hu & Hcomp). unfold loadSchema. cbn [entry csm_SchemaID csm_File csm_Version].
  pose proof (cacheFileName_plain id (ss_version ss)) as Hp. destruct Hp as (Hne & Hp).
  pose proof (cacheFileName_no_slash id (ss_version ss) Hid) as Hb. rewrite Ht. cbn [negb].
  rewrite decide_False by (rewrite Base_plain by done; tauto).
  destruct schemas_plain as [Hsp Hsb]. rewrite Join3 by (done || by split). fold (schemaPath nsDir id (ss_version ss)).
  unfold mbind, Prog_bind, wrapP. rewrite on_fs_run, (os_ReadFile_run _ _ _ Hf Hfile).
  cbn [fst snd wrap]. rewrite with_fs_id. unfold of_resP. rewrite Hu. cbn [wrap].
  unfold of_outcome. by rewrite Hcomp.
Qed.

(** A directory holds the cache of a snapshot under a manifest. *)
Record cache_holds (f : FileSystem) (nsDir : string) s (man : cacheManifest) : Prop := {
  ch_faults : fs_faults f = [];
  ch_manifest : ∃ b, fs_files f !! manifestPath nsDir = Some b ∧ manifest_Unmarshal b = Ok man;
  ch_entries : man_Schemas man = entries s (sortedIDs s);
  ch_version : man_Version man = cacheManifestVersion;
  ch_files id ss : cached s id = Some ss →
    fs_files f !! schemaPath nsDir id (ss_version ss) = Some (ss_rawDescriptorSet ss) }.

Lemma loadSchemas_run r nsDir s man ids snap w :
  nsDir ≠ "" → recompiles (r_ns r) s → plain_ids s → cache_holds (w_fs w) nsDir s man →
  (∀ id, is_Some (sn_schemas s !! id) → tracksSchema r id = true) →
  foldP (loadSchema r nsDir) snap (entries s ids) w = Returns (Ok (loaded s ids snap), w).
Proof.
  intros Hns Hr Hids Hch Ht. revert snap. induction ids as [|id ids IH]; intros snap; [done|].
  rewrite entries_cons, loaded_cons. destruct (cached s id) as [ss|] eqn:E; cbn [foldP].
  - unfold mbind, Prog_bind. rewrite (loadSchema_run r nsDir s id ss); try done.
    + by eapply cached_plain.
    + apply Ht. rewrite <-(cached_all (r_ns r)), E by done. by eexists.
    + apply Hch.
    + by apply (ch_files _ _ _ _ Hch).
  - apply IH.
Qed.

Lemma readManifest_run cacheDir ns s man f :
  cache_holds f (cacheNamespaceDir cacheDir ns) s man → man_Namespace man = ns →
  readManifest cacheDir ns f = (Ok man, f).
Proof.
  intros Hch Hn. destruct (ch_manifest _ _ _ _ Hch) as (b & Hb & Hu).
  unfold readManifest, mbind, M_bind, wrapM. fold (manifestPath (cacheNamespaceDir cacheDir ns)).
  rewrite (os_ReadFile_run _ _ _ (ch_faults _ _ _ _ Hch) Hb). cbn. unfold of_res. rewrite Hu. cbn.
  rewrite (ch_version _ _ _ _ Hch), decide_False by tauto. by rewrite Hn, decide_False by tauto.
Qed.

(** Loading the cache of a coherent snapshot gives a stale resolver with its views. *)
Lemma loadSingle_run cacheDir ns cfg parent s man p w :
  cacheDir ≠ "" → ns ≠ "" →
  resolver_rep p s → distinct_names s → recompiles ns s → plain_ids s →
  cache_holds (w_fs w) (cacheNamespaceDir cacheDir ns) s man → man_Namespace man = ns →
  (∀ id, is_Some (sn_schemas s !! id) → tracksSchema (cachedResolver ns cfg parent) id = true) →
  ∃ w' p' s', loadSingleNamespaceFromCache cacheDir ns cfg parent w
      = Returns (Ok (length (w_heap w)), w') ∧
    w_heap w' = w_heap w ++ [set_snapshot s' (set_agg p' (cachedResolver ns cfg parent))] ∧
    resolver_rep p' s' ∧ sn_schemas s' = sn_schemas s.
Proof.
  intros Hcd Hn Hrep Hdn Hr Hids Hch Hname Ht. set (r := cachedResolver ns cfg parent) in *.
  assert (Hns : cacheNamespaceDir cacheDir ns ≠ "") by by apply Join2_nonempty.
  unfold loadSingleNamespaceFromCache. fold r. unfold mbind at 1, Prog_bind at 1.
  rewrite on_fs_run, (readManifest_run _ _ _ _ _ Hch Hname). cbn [fst snd]. rewrite with_fs_id.
  unfold mbind at 1, Prog_bind at 1, alloc.
  set (w1 := set_heap (w_heap w ++ [r]) w). unfold mbind at 1, Prog_bind at 1.
  rewrite (ch_entries _ _ _ _ Hch). rewrite (loadSchemas_run r _ s man _ _ w1) by done.
  set (snap := loaded s (sortedIDs s) newSnapshot).
  assert (Hsch : sn_schemas snap = sn_schemas s) by by eapply loaded_all.
  assert (Hfiles : snapFiles snap = snapFiles s) by (unfold snapFiles; by rewrite Hsch).
  destruct (installSnapshot_run (length (w_heap w)) w1 r snap) as (x & w' & E & Hx).
  - cbn. by rewrite lookup_app_r, Nat.sub_diag.
  - done.
  - split; [by unfold snap; rewrite loaded_index|]. intros id ss. rewrite Hsch. apply (rr_compiled _ _ Hrep).
  - rewrite Hfiles. apply (rr_coherent _ _ Hrep).
  - intros id ss. rewrite Hsch. apply Hdn.
  - destruct x as [[]|e].
    2: { destruct Hx as (_ & n & id & id' & Hne & Hd & Hd'). exfalso. apply Hne.
         rewrite (declares_schemas snap s) in Hd, Hd' by done.
         apply (rr_index _ _ Hrep) in Hd, Hd'. congruence. }
    destruct Hx as (p' & s' & Hh & Hrep' & Hs'). exists w', p', s'. split; [|split; [|split]].
    + revert E. unfold installSnapshot, mbind, Prog_bind.
      destruct (indexSnapshot snap w1) as [[[s1|] w2]|]; [|done..].
      destruct (applyAll _ s1 w2) as [[[] w3]|]; [|done..]. by intros [= <-].
    + rewrite Hh. cbn. rewrite insert_app_r_alt, Nat.sub_diag by done. done.
    + done.
    + by rewrite Hs', Hsch.
Qed.

(** C19. A persisted resolver without ancestors survives a restart. It has a cache directory, a
    namespace and at least one schema, and its aggregate and index are those of its snapshot,
    whose schemas declare their names once. On a file system that works,
    persisting it succeeds and leaves the resolver alone, and the manifest on disk decodes to
    the manifest of the resolver. A client that then loads the namespace from that file system,
    and is configured to track all of its schemas, gets a stale resolver that holds the same
    views, with an aggregate and a name index to match. The views are such that decoding and
    compiling their stored bytes gives them back, which fetched views are; the texts of the
    manifest are ASCII, and schema identifiers have no slash. (A chain of ancestors does not
    survive: it is loaded in reverse.) *)
Theorem cache_roundtrip i w r s :
  w_heap w !! i = Some r → r_snapshot r = Some s → r_ancestors r = [] →
  cfg_cacheDir (r_cfg r) ≠ "" → r_ns r ≠ "" → sn_schemas s ≠ ∅ → fs_faults (w_fs w) = [] →
  resolver_rep (r_agg r) s → distinct_names s → recompiles (r_ns r) s → plain_ids s →
  manifest_text (manifestOf r [] s (time_Now (w_srv w)).1) →
  ∃ w', persist (Some i) w = Returns (Ok tt, w') ∧ w_heap w' = w_heap w ∧
  (∃ b, fs_files (w_fs w') !! manifestPath (nsDirOf r) = Some b ∧
     manifest_Unmarshal b = Ok (manifestOf r [] s (time_Now (w_srv w)).1)) ∧
  ∀ w2 cfg, w_fs w2 = w_fs w' →
    (∀ id, is_Some (sn_schemas s !! id) → tracksSchema (cachedResolver (r_ns r) cfg None) id = true) →
    ∃ w3 p' s', loadFromCache (cfg_cacheDir (r_cfg r)) (r_ns r) cfg w2
        = Returns (Ok (length (w_heap w2)), w3) ∧
      w_heap w3 = w_heap w2 ++ [set_snapshot s' (set_agg p' (cachedResolver (r_ns r) cfg None))] ∧
      resolver_rep p' s' ∧ sn_schemas s' = sn_schemas s.
Proof.
  intros Hr Hs Han Hcd Hn Hne Hf Hrep Hdn Hrec Hids Htext.
  destruct (manifest_roundtrip _ Htext) as (b & Hm & Hu).
  destruct (nsDir_clean r Hcd Hn) as (Hns & _).
  destruct (persistOwn_run r [] s w Hcd Hn Hids) as (x & w' & E & Hh & Hok & Hx).
  destruct Hok as [-> Hf']; [done|by rewrite Hm|]. destruct Hx as (b' & Hb' & Hfiles).
  rewrite Hm in Hb'. injection Hb' as <-. exists w'. split; [|split; [done|split]].
  { unfold persist. cbn [persistFrom]. unfold mbind at 1, Prog_bind at 1, deref. rewrite Hr, Hs.
    rewrite decide_False by done. rewrite decide_False by done.
    unfold mbind, Prog_bind, getsP, ancestorsOf. rewrite Han. cbn. by rewrite E. }
  { exists b. split; [|done]. by rewrite Hfiles, lookup_insert_eq. }
  intros w2 cfg Hw2 Ht. set (man := manifestOf r [] s (time_Now (w_srv w)).1) in *.
  assert (Hch : cache_holds (w_fs w2) (nsDirOf r) s man).
  { rewrite Hw2. split; [done| |done|done|].
    - exists b. split; [|done]. by rewrite Hfiles, lookup_insert_eq.
    - intros id ss Hc. rewrite Hfiles. by apply cache_files. }
  destruct (loadSingle_run (cfg_cacheDir (r_cfg r)) (r_ns r) cfg None s man (r_agg r) w2)
    as (w3 & p' & s' & El & Hw3 & Hres); [done..|].
  exists w3, p', s'. split; [|done]. unfold loadFromCache. rewrite decide_False by done.
  unfold mbind at 1, Prog_bind at 1.
  rewrite on_fs_run, (readManifest_run _ _ _ _ _ Hch) by done. cbn [fst snd]. rewrite with_fs_id.
  rewrite decide_True; [done|]. right. cbn. lia.
Qed.
End load.
