(* ===== verification/ClientServer.v ===== *)
(** * The client on the registry server

    The connection of a client to the modelled server: every call of the client is a call
    of a handler, made by one identity. *)

From S2P Require Import Prelude GoProg GoStrings Descriptor Protobuf NsFiles NsTypes Compat Compiler.
From S2P Require Import Store Registry Auth Validate Server Paging.
From S2P Require Import ClientSnapshot GoFS Client.
From stdpp Require Import prelude gmap strings list.

Open Scope string_scope.
Open Scope list_scope.

Section server_conn.
Context `{Toolchain, ProtoTypes, ProtoNames, GoRange, CompilerVersion, DriverText} {S : Type}
  `{PagedStore S}.
#[local] Notation SS := (SState (S := S)).

(** The requests the client builds: no page size, and the version of the schema. *)
Definition server_conn (s : Server) (id : Identity) : RegistryConn SS := {|
  grpc_NewClient _ _ _ := mret 0%nat;
  conn_Close _ := mret tt;
  rpc_ListSchemas _ ns page := Server_ListSchemas s id ns 0 page;
  rpc_GetDescriptor _ ns schemaID version := Server_GetDescriptor s id ns schemaID version;
  rpc_GetSource _ ns schemaID version := Server_GetSource s id ns schemaID version;
  rpc_GetNamespaceChain _ ns := Server_GetNamespaceChain s ns |}.

Section listing.
Context `{Protoreflect} (s : Server) (id : Identity).
#[local] Existing Instance server_conn.
#[local] Instance conn : RegistryConn SS := server_conn s id.
Implicit Types (w : World SS) (r : Resolver).

Definition set_srv (st : SS) w : World SS :=
  {| w_srv := st; w_heap := w_heap w; w_fs := w_fs w; w_log := w_log w |}.

(** The client's loop over the pages follows the tokens. *)
Lemma listPages_walk fuel r c page all L w st' :
  r_rpc r = Some c →
  walk fuel (Server_ListSchemas s id (r_ns r) 0) page (w_srv w) = (Ok L, st') →
  listPages fuel r page all w =
    Returns (Ok (all ++ filter (λ i, tracksSchema r (si_SchemaId i) = true) L), set_srv st' w).
Proof.
  intros Hc. revert page all L w. induction fuel as [|fuel IH]; intros page all L w E; [done|].
  cbn [walk listPages] in *. apply M_bind_Ok in E as (resp & st & E1 & E2).
  unfold mbind, Prog_bind, callRPC. rewrite Hc. unfold on_srv, zoom, liftM. cbn. rewrite E1.
  case_decide.
  - by injection E2 as <- <-.
  - apply M_bind_Ok in E2 as (rest & st2 & E2 & [= <- ->]).
    rewrite (IH _ _ rest); [|done]. by rewrite filter_app, app_assoc.
Qed.

(** C27. A client connected to the registry lists every schema of its namespace that it
    tracks, each once, in as many calls as there are pages; neither the server nor the
    client changes. *)
Theorem listAllSchemas_complete fuel r c w :
  r_rpc r = Some c → page_size_ok s 0 → validateNamespaceID s (r_ns r) = Ok tt →
  cursor_keys s sc_SchemaID (rows_of (store_ListSchemas (r_ns r)) (w_srv w)) →
  (length (rows_of (store_ListSchemas (r_ns r)) (w_srv w)) < fuel)%nat →
  listAllSchemas fuel r w =
    Returns (Ok (filter (λ i, tracksSchema r (si_SchemaId i) = true)
                   ((λ sc, schemaToProto sc []) <$> rows_of (store_ListSchemas (r_ns r)) (w_srv w))), w).
Proof.
  intros Hc Hsize Hv Hk Hf. unfold listAllSchemas.
  rewrite (listPages_walk _ _ c _ _ _ _ _ Hc (schemas_walk s id 0 (r_ns r) (w_srv w) fuel Hsize Hv Hk Hf)).
  by destruct w.
Qed.
End listing.
End server_conn.
