(* ===== verification/GoDir.v ===== *)
(** * Directory walks

    [filepath.WalkDir] over a tree of files, and the loaders built on it: [LoadBuiltIns]
    of [src/compiler/builtins.go], [resolveProtoSources] of [src/internal/ctl/push.go] and
    [scanProtos] of [src/internal/ctl/load.go]. *)

From S2P Require Import Prelude GoStrings GoPath GoFS Compiler.
From stdpp Require Import prelude gmap strings list.

Open Scope string_scope.
Open Scope list_scope.

(** A file with what reading it gives, or a directory with the entries [os.ReadDir] lists,
    in its order (by name); a directory that cannot be read has its error. *)
Inductive FsNode :=
  | FileNode (content : res string)
  | DirNode (listing : res unit) (entries : list (string * FsNode)).

(** [filepath.WalkDir] with a callback that ignores directories and returns the errors it
    is given. The callback gets the names below the root. *)
Fixpoint WalkDir {A} (fn : list string → res string → A → res A) (segs : list string)
    (n : FsNode) (a : A) : res A :=
  match n with
  | FileNode c => fn segs c a
  | DirNode (Err e) _ => Err e
  | DirNode (Ok _) entries =>
     (fix children es a := match es with
                           | [] => Ok a
                           | (name, n) :: es =>
                              match WalkDir fn (segs ++ [name]) n a with
                              | Ok a => children es a
                              | Err e => Err e
                              end
                           end) entries a
  end.

(** The path the callback sees, and that path relative to the root. *)
Definition walkPath (root : string) (segs : list string) : string :=
  match segs with [] => root | _ => filepath_Join (root :: segs) end.
Definition walkRel (segs : list string) : string :=
  match segs with [] => "." | _ => strings_Join segs "/" end.

(** ** The loaders *)

(** What the three callbacks share: files that are not [.proto] files are skipped, the
    others are read. *)
Definition onProto {A} (root : string) (segs : list string) (content : res string)
    (f : string → string → A → res A) (a : A) : res A :=
  if HasSuffix (walkPath root segs) ".proto" then
    match content with
    | Err e => Err (ErrWrap ("reading " +:+ walkPath root segs) e)
    | Ok c => f (walkRel segs) c a
    end
  else Ok a.

Definition LoadBuiltIns (dir : string) (tree : res FsNode) : res (list DepSource) :=
  wrap ("walking builtins directory " +:+ dir)
    match tree with
    | Err e => Err e
    | Ok n =>
       WalkDir (λ segs c sources, onProto dir segs c (λ rel content sources,
         Ok (sources ++ [{| ds_Namespace := ""; ds_SchemaID := ""; ds_Version := 0;
                            ds_Filename := rel; ds_Source := content |}])) sources) [] n []
    end.

(** One argument of [push]: a file is keyed by its base name, the files of a directory by
    their relative paths. *)
Definition resolveProtoPath (p : string) (tree : res FsNode) (sources : gmap string string)
    : res (gmap string string) :=
  match tree with
  | Err e => Err (ErrWrap ("stat " +:+ p) e)
  | Ok (FileNode c) =>
     if negb (HasSuffix p ".proto") then Err (ErrNew (p +:+ " is not a .proto file"))
     else match c with
          | Err e => Err (ErrWrap ("reading " +:+ p) e)
          | Ok content => Ok (<[filepath_Base p := content]> sources)
          end
  | Ok n =>
     WalkDir (λ segs c sources, onProto p segs c (λ rel content sources,
       match sources !! rel with
       | Some _ => Err (ErrNew ("duplicate proto file key " +:+ quote rel +:+ " from " +:+
                                walkPath p segs))
       | None => Ok (<[rel := content]> sources)
       end) sources) [] n sources
  end.

Fixpoint resolveProtoPaths (disk : string → res FsNode) (paths : list string)
    (sources : gmap string string) : res (gmap string string) :=
  match paths with
  | [] => Ok sources
  | p :: paths =>
     match resolveProtoPath p (disk p) sources with
     | Ok sources => resolveProtoPaths disk paths sources
     | Err e => Err e
     end
  end.

Definition resolveProtoSources (disk : string → res FsNode) (paths : list string)
    : res (gmap string string) := resolveProtoPaths disk paths ∅.

(** The parser of protocompile: its diagnostics (with [true] for those of level error or
    worse) and the imports (with [true] for [import option]). *)
Class ImportParser :=
  parser_Parse : string → string → list (bool * string) * list (bool * string).

Definition extractImports `{ImportParser} (filename content : string) : res (list string) :=
  let '(diags, imports) := parser_Parse filename content in
  match filter (λ d, d.1 = true) diags with
  | d :: _ => Err (ErrNew d.2)
  | [] => Ok ((λ i, TrimSpace i.2) <$> filter (λ i, i.1 = false) imports)
  end.

Record protoFile := { pf_filename : string; pf_content : string; pf_imports : list string }.

(** A file with its imports. *)
Definition readProto `{ImportParser} (filename content : string) : res protoFile :=
  match extractImports filename content with
  | Err e => Err (ErrWrap ("parsing imports from " +:+ filename) e)
  | Ok imports =>
     Ok {| pf_filename := filename; pf_content := content; pf_imports := imports |}
  end.

Definition scanProtos `{ImportParser} (disk : string → res FsNode) (dir : string)
    : res (list protoFile) :=
  let dir := Clean dir in
  wrap ("walking " +:+ dir)
    match disk dir with
    | Err e => Err e
    | Ok n =>
       WalkDir (λ segs c protos, onProto dir segs c (λ filename content protos,
         match readProto filename content with
         | Ok p => Ok (protos ++ [p])
         | Err e => Err e
         end) protos) [] n []
    end.

(** ** Correctness of the directory loaders

    A walk visits every file of the tree once; the loaders return exactly the [.proto]
    files, under distinct names. *)

Section induction.
Context (P : FsNode → Prop) (Hfile : ∀ c, P (FileNode c)).
Context (Hdir : ∀ l es, Forall (λ e, P e.2) es → P (DirNode l es)).
Fixpoint FsNode_ind' (n : FsNode) : P n :=
  match n with
  | FileNode c => Hfile c
  | DirNode l es =>
     Hdir l es ((fix go es : Forall (λ e, P e.2) es :=
                   match es with
                   | [] => Forall_nil_2 _
                   | (x, n) :: es => Forall_cons_2 _ (x, n) es (FsNode_ind' n) (go es)
                   end) es)
  end.
End induction.

(** The files of a tree, each with the names on its path. *)
Fixpoint treeFiles (segs : list string) (n : FsNode) : list (list string * res string) :=
  match n with
  | FileNode c => [(segs, c)]
  | DirNode _ es => flat_map (λ e, treeFiles (segs ++ [e.1]) e.2) es
  end.

(** Every directory can be read, and its entries have distinct names of one element. *)
Inductive tree_ok : FsNode → Prop :=
  | file_ok c : tree_ok (FileNode c)
  | dir_ok es : NoDup es.*1 → Forall (λ e, plain_seg e.1 ∧ no_byte slash e.1) es →
      Forall (λ e, tree_ok e.2) es → tree_ok (DirNode (Ok tt) es).

Lemma foldM_app {A B} (f : B → A → res B) b l k :
  foldM f b (l ++ k) = match foldM f b l with Ok b => foldM f b k | Err e => Err e end.
Proof. revert b. induction l as [|x l IH]; intros b; cbn; [done|]. by destruct (f b x). Qed.

(** A walk is a loop over the files. *)
Lemma WalkDir_fold {A} (fn : list string → res string → A → res A) n segs a :
  tree_ok n → WalkDir fn segs n a = foldM (λ a x, fn x.1 x.2 a) a (treeFiles segs n).
Proof.
  revert segs a. induction n as [c|l es IH] using FsNode_ind'; intros segs a Hok; cbn.
  { by destruct (fn segs c a). }
  inversion Hok as [|? _ _ Hes]; subst. revert a.
  induction es as [|[x n] es IHes]; intros a; cbn; [done|].
  apply Forall_cons in IH as [IHn IH]. apply Forall_cons in Hes as [Hn Hes]. cbn in *.
  rewrite foldM_app, IHn by done. destruct (foldM _ a _); [|done].
  apply IHes; [done|by inversion Hok as [|? Hnd Hp ?]; subst; constructor;
    [by apply NoDup_cons in Hnd as [_ ?]|by apply Forall_cons in Hp as [_ ?]|]|done].
Qed.

Lemma treeFiles_prefix segs n x : x ∈ treeFiles segs n → segs `prefix_of` x.1.
Proof.
  revert segs. induction n as [c|l es IH] using FsNode_ind'; intros segs; cbn.
  { by intros ->%list_elem_of_singleton. }
  intros (e & He & Hx)%list_elem_of_In%in_flat_map. apply list_elem_of_In in He, Hx.
  rewrite Forall_forall in IH. apply (IH _ He) in Hx. etrans; [|done]. by apply prefix_app_r.
Qed.

Lemma treeFiles_NoDup segs n : tree_ok n → NoDup (treeFiles segs n).*1.
Proof.
  revert segs. induction n as [c|l es IH] using FsNode_ind'; intros segs Hok; cbn; [apply NoDup_singleton|].
  inversion Hok as [|? Hnd _ Hes]; subst. clear Hok.
  induction es as [|[x n] es IHes]; cbn; [apply NoDup_nil_2|].
  apply Forall_cons in IH as [IHn IH]. apply Forall_cons in Hes as [Hn Hes]. cbn in *.
  apply NoDup_cons in Hnd as [Hx Hnd]. rewrite fmap_app. apply NoDup_app. split_and!; [by apply IHn| |by apply IHes].
  intros p (f & -> & Hf)%list_elem_of_fmap (g & E & Hg)%list_elem_of_fmap.
  apply list_elem_of_In, in_flat_map in Hg as (e & He & Hg). apply list_elem_of_In in He, Hg.
  apply treeFiles_prefix in Hf, Hg. rewrite E in Hf.
  assert (Ex : x = e.1).
  { destruct Hf as [k1 Ef], Hg as [k2 Eg]. rewrite Ef in Eg. rewrite <-!app_assoc in Eg.
    apply app_inv_head in Eg. by injection Eg. }
  apply Hx. rewrite Ex. by apply list_elem_of_fmap_2.
Qed.

Lemma treeFiles_plain segs n x :
  tree_ok n → x ∈ treeFiles segs n → Forall (λ y, plain_seg y ∧ no_byte slash y) segs →
  Forall (λ y, plain_seg y ∧ no_byte slash y) x.1.
Proof.
  revert segs. induction n as [c|l es IH] using FsNode_ind'; intros segs Hok; cbn.
  { by intros ->%list_elem_of_singleton. }
  inversion Hok as [|? _ Hp Hes]; subst.
  intros (e & He & Hx)%list_elem_of_In%in_flat_map Hs. apply list_elem_of_In in He, Hx.
  rewrite Forall_forall in IH, Hp, Hes. apply (IH _ He) in Hx; [done|by apply Hes|].
  apply Forall_app. split; [done|]. apply Forall_singleton. by apply Hp.
Qed.

(** The relative path determines the names. *)
Lemma walkRel_inj segs segs' :
  Forall (λ y, plain_seg y ∧ no_byte slash y) segs → Forall (λ y, plain_seg y ∧ no_byte slash y) segs' →
  walkRel segs = walkRel segs' → segs = segs'.
Proof.
  assert (Hs : ∀ l, l ≠ [] → Forall (λ y, plain_seg y ∧ no_byte slash y) l → Split (walkRel l) slash = l).
  { intros l Hl Hp. destruct l; [done|]. apply Split_Join; [done|].
    eapply Forall_impl; [exact Hp|]. by intros y []. }
  assert (Hdot : ∀ l, l ≠ [] → Forall (λ y, plain_seg y ∧ no_byte slash y) l → walkRel l ≠ ".").
  { intros l Hl Hp E. pose proof (Hs l Hl Hp) as Hsp. rewrite E in Hsp. cbn in Hsp. subst l.
    by apply Forall_cons in Hp as [[(_ & ? & _) _] _]. }
  intros Hp Hp' E. destruct (decide (segs = [])) as [->|Hn], (decide (segs' = [])) as [->|Hn']; [done| | |].
  - by destruct (Hdot segs').
  - by destruct (Hdot segs).
  - by rewrite <-(Hs segs), <-(Hs segs'), E.
Qed.

(** ** The [.proto] files *)

(** The readable [.proto] files of a tree, with their relative paths. *)
Definition asProto (root : string) (x : list string * res string) : option (string * string) :=
  if HasSuffix (walkPath root x.1) ".proto" then
    match x.2 with Ok c => Some (walkRel x.1, c) | Err _ => None end
  else None.
Definition protoFilesOf (root : string) (n : FsNode) : list (string * string) :=
  omap (asProto root) (treeFiles [] n).

Lemma asProto_rel root x p : asProto root x = Some p → p.1 = walkRel x.1.
Proof. unfold asProto. case_match; [|done]. destruct x.2; [|done]. by intros [= <-]. Qed.

Definition protos_readable (root : string) (n : FsNode) : Prop :=
  ∀ x, x ∈ treeFiles [] n → HasSuffix (walkPath root x.1) ".proto" = true → is_ok x.2 = true.

Lemma protoFilesOf_NoDup root n : tree_ok n → NoDup (protoFilesOf root n).*1.
Proof.
  intros Hok. pose proof (treeFiles_NoDup [] n Hok) as Hnd.
  assert (Hpl : ∀ x, x ∈ treeFiles [] n → Forall (λ y, plain_seg y ∧ no_byte slash y) x.1).
  { intros x Hx. eapply treeFiles_plain; [done|done|]. by constructor. }
  unfold protoFilesOf. induction (treeFiles [] n) as [|x l IH]; cbn; [apply NoDup_nil_2|].
  cbn in Hnd. apply NoDup_cons in Hnd as [Hx Hnd]. specialize (IH Hnd).
  assert (Hl : ∀ y, y ∈ l → Forall (λ y, plain_seg y ∧ no_byte slash y) y.1)
    by (intros; apply Hpl; by right).
  destruct (asProto root x) as [p|] eqn:Ep; [|by apply IH]. cbn. apply NoDup_cons. split; [|by apply IH].
  intros (q & E & (y & Hy & Ey)%list_elem_of_omap)%list_elem_of_fmap.
  apply asProto_rel in Ep, Ey. rewrite Ep, Ey in E.
  apply walkRel_inj in E; [|apply Hpl; left|by apply Hl]. apply Hx. rewrite E. by apply list_elem_of_fmap_2.
Qed.

(** A loader that appends what it makes of each [.proto] file. *)
Lemma walk_append {B} root n (mk : string → string → res B) acc :
  tree_ok n → protos_readable root n →
  WalkDir (λ segs c l, onProto root segs c (λ rel content l,
    match mk rel content with Ok b => Ok (l ++ [b]) | Err e => Err e end) l) [] n acc =
  foldM (λ l x, match mk x.1 x.2 with Ok b => Ok (l ++ [b]) | Err e => Err e end) acc (protoFilesOf root n).
Proof.
  intros Hok Hr. rewrite WalkDir_fold by done. unfold protos_readable, protoFilesOf in *.
  revert acc. induction (treeFiles [] n) as [|x l IH]; intros acc; cbn; [done|].
  assert (Hx := Hr x ltac:(left)). assert (Hl : ∀ y, y ∈ l → HasSuffix (walkPath root y.1) ".proto" = true → is_ok y.2 = true)
    by (intros; apply Hr; [by right|done]).
  unfold onProto at 1, asProto at 1. destruct (HasSuffix _ _) eqn:Es; [|by apply IH].
  destruct x.2 as [c|e]; [|by specialize (Hx eq_refl)]. cbn.
  destruct (mk _ c) as [b|e]; [by apply IH|done].
Qed.

Lemma foldM_append {A B} (mk : A → res B) l acc l' :
  foldM (λ l x, match mk x with Ok b => Ok (l ++ [b]) | Err e => Err e end) acc l = Ok l' →
  ∃ k, l' = acc ++ k ∧ Forall2 (λ x b, mk x = Ok b) l k.
Proof.
  revert acc. induction l as [|x l IH]; intros acc; cbn.
  { intros [= <-]. exists []. by rewrite app_nil_r. }
  destruct (mk x) as [b|] eqn:E; [|done]. intros (k & -> & Hk)%IH. exists (b :: k).
  split; [by rewrite <-app_assoc|by constructor].
Qed.

Definition builtIn (p : string * string) : DepSource :=
  {| ds_Namespace := ""; ds_SchemaID := ""; ds_Version := 0; ds_Filename := p.1; ds_Source := p.2 |}.

(** Loading the built-ins of a directory whose files can be read succeeds and returns every
    [.proto] file below it once, under its relative path, and nothing else. *)
Theorem LoadBuiltIns_exact dir n :
  tree_ok n → protos_readable dir n →
  LoadBuiltIns dir (Ok n) = Ok (builtIn <$> protoFilesOf dir n) ∧
  NoDup (ds_Filename <$> (builtIn <$> protoFilesOf dir n)).
Proof.
  intros Hok Hr. split.
  - unfold LoadBuiltIns. etrans; [apply f_equal, (walk_append dir n (λ rel c, Ok (builtIn (rel, c))) []); done|].
    assert (Hf : ∀ l acc, foldM (λ l x, Ok (l ++ [builtIn (x.1, x.2)])) acc l = Ok (acc ++ (builtIn <$> l))).
    { clear. induction l as [|[r c] l IH]; intros acc; cbn; [by rewrite app_nil_r|].
      by rewrite IH, <-app_assoc. }
    by rewrite Hf.
  - rewrite <-list_fmap_compose. by apply protoFilesOf_NoDup.
Qed.

(** The files [load] works on are the [.proto] files of the directory, with their imports. *)
Lemma scanProtos_files `{ImportParser} disk dir n protos :
  disk (Clean dir) = Ok n → tree_ok n → protos_readable (Clean dir) n →
  scanProtos disk dir = Ok protos →
  Forall2 (λ x p, x = (pf_filename p, pf_content p) ∧
                  extractImports x.1 x.2 = Ok (pf_imports p)) (protoFilesOf (Clean dir) n) protos ∧
  NoDup (pf_filename <$> protos).
Proof.
  intros Hd Hok Hr Hs. unfold scanProtos in Hs. rewrite Hd in Hs.
  rewrite (walk_append (Clean dir) n readProto []) in Hs by done.
  destruct (foldM _ _ _) as [l|] eqn:E; [|done]. injection Hs as ->.
  apply (foldM_append (λ x, readProto x.1 x.2)) in E as (k & -> & Hk). rewrite app_nil_l.
  assert (H2 : Forall2 (λ x p, x = (pf_filename p, pf_content p) ∧
    extractImports x.1 x.2 = Ok (pf_imports p)) (protoFilesOf (Clean dir) n) k).
  { eapply Forall2_impl; [exact Hk|]. intros [rel c] p. unfold readProto. cbn.
    destruct (extractImports rel c); [|done]. by intros [= <-]. }
  split; [done|]. enough (Hn : (protoFilesOf (Clean dir) n).*1 = pf_filename <$> k).
  { rewrite <-Hn. by apply protoFilesOf_NoDup. }
  clear Hk. induction H2 as [|x p l k [-> _] _ IH]; cbn; [done|]. by f_equal.
Qed.
