(* ===== verification/Ctl.v ===== *)
(** * The command line client

    Models the state and the helpers of [src/internal/ctl]: [CLI] and [resolveNamespace]
    ([root.go]), [nsAndFile] ([pxf.go]), [parseMetadata] ([namespace.go]), [confirm]
    ([confirm.go]), [clientConnConfig] ([clientconn.go]). What the commands print is
    recorded as data. *)

From S2P Require Import Prelude GoStrings GoPath Descriptor Protobuf Server.
From stdpp Require Import prelude gmap strings list.

Open Scope string_scope.
Open Scope list_scope.

(** ** The registry service, as the commands call it *)

Class RegistryClient (R : Type) `{Protodesc} := {
  client_Publish : PublishRPC → M R PublishResponse;
  client_Promote : string → M R (list PromotedInfo);
  client_DiscardStaging : string → M R unit;
  client_Rollback : string → string → Z → bool → M R unit;
  client_ListNamespaces : Z → string → M R (list NamespaceInfo * string);
  client_CreateNamespace : string → option (gmap string string) → M R unit;
  client_ListSchemas : string → Z → string → M R (list SchemaInfo * string);
  client_GetSchema : string → string → M R SchemaInfo;
  client_GetSource : string → string → Z → M R (Z * gmap string string);
  client_GetDescriptor : string → string → Z → M R (Z * list FileDescriptorProto) }.

(** A line of output; [OutText] is a fixed line. *)
Inductive Output :=
  | OutText (line : string)
  | OutFound (files : nat) (dir : string)
  | OutLoaded (filename : string) (version : option Z)
  | OutFailed (reasons : gmap string error)
  | OutPromoted (l : list PromotedInfo)
  | OutLoadDone (files : nat) (ns : string)
  | OutPublished (schemaID : string) (version : Z) (fingerprint : string)
  | OutRolledBack (schemaID : string) (version : Z)
  | OutDiscarded (ns : string)
  | OutNamespaces (l : list NamespaceInfo)
  | OutNamespaceCreated (id : string)
  | OutSchemas (l : list SchemaInfo)
  | OutSchema (s : SchemaInfo)
  | OutSources (version : Z) (sources : gmap string string)
  | OutDescriptor (version : Z) (files : list string)
  | OutWrote (version : Z) (file : string)
  | OutBytes (data : string)
  | OutPrompt (text : string)
  | OutJSON (o : Output).

(** The server behind the connection, the output, the standard input (its lines, and
    whether it is a terminal) and the files the commands write. *)
Record CtlState (R : Type) := {
  ct_srv : R; ct_out : list Output; ct_stdin : res string; ct_tty : bool;
  ct_files : gmap string string }.
Arguments ct_srv {_}. Arguments ct_out {_}. Arguments ct_stdin {_}. Arguments ct_tty {_}.
Arguments ct_files {_}.

Section state.
Context {R : Type}.

Definition set_ct_srv (s : R) (st : CtlState R) : CtlState R :=
  {| ct_srv := s; ct_out := ct_out st; ct_stdin := ct_stdin st; ct_tty := ct_tty st;
     ct_files := ct_files st |}.
Definition out (o : Output) : M (CtlState R) unit :=
  modify (λ st, {| ct_srv := ct_srv st; ct_out := ct_out st ++ [o]; ct_stdin := ct_stdin st;
                   ct_tty := ct_tty st; ct_files := ct_files st |}).
Definition put_file (name data : string) : M (CtlState R) unit :=
  modify (λ st, {| ct_srv := ct_srv st; ct_out := ct_out st; ct_stdin := ct_stdin st;
                   ct_tty := ct_tty st; ct_files := <[name := data]> (ct_files st) |}).
(** A call of the service. *)
Definition rpc {A} (m : M R A) : M (CtlState R) A := λ st,
  let '(x, s) := m (ct_srv st) in (x, set_ct_srv s st).

(** ** Helpers *)

(** [defaultNS] is the value of [--namespace]. *)
Definition resolveNamespace (args : list string) (idx : nat) (defaultNS : option string)
    : res string :=
  match args !! idx with
  | Some ns => Ok ns
  | None =>
     match defaultNS with
     | Some ns => if decide (ns = "") then
                    Err (ErrNew "namespace is required (pass as argument or use --namespace)")
                  else Ok ns
     | None => Err (ErrNew "namespace is required (pass as argument or use --namespace)")
     end
  end.

(** The namespace and the remaining arguments of a command that takes [n] arguments and an
    optional namespace before them. *)
Definition nsAndArgs (n : nat) (args : list string) (defaultNS : option string)
    : res (string * list string) :=
  if decide (length args = S n) then
    match args with ns :: rest => Ok (ns, rest) | [] => Ok ("", []) end
  else
    match resolveNamespace [] 0 defaultNS with
    | Ok ns => Ok (ns, args)
    | Err _ => Err (ErrNew "namespace is required as first argument or via --namespace")
    end.

Definition nsAndFile (args : list string) (defaultNS : option string) : res (string * string) :=
  match args with
  | [ns; file] => Ok (ns, file)
  | _ =>
     match defaultNS, args with
     | Some ns, file :: _ =>
        if decide (ns = "") then
          Err (ErrNew "namespace required: pass as first arg or use --namespace")
        else Ok (ns, file)
     | _, _ => Err (ErrNew "namespace required: pass as first arg or use --namespace")
     end
  end.

(** [strings.Cut(s, "=")]. *)
Definition cutEquals (s : string) : string * string :=
  match IndexByte (Ascii.ascii_of_nat 61) s with
  | Some i => (str_take i s, str_drop (S i) s)
  | None => (s, "")
  end.

Definition parseMetadata (pairs : list string) : option (gmap string string) :=
  match pairs with
  | [] => None
  | _ => Some (fold_left (λ md p, <[(cutEquals p).1 := (cutEquals p).2]> md) pairs ∅)
  end.

(** The first line of the input; [io.EOF] is not an error. *)
Definition firstLine (s : string) : string :=
  match IndexByte newline s with Some i => str_take (S i) s | None => s end.

Definition confirm (yes : bool) (prompt : string) : M (CtlState R) bool :=
  if yes then mret true
  else
    st ← gets id;
    if negb (ct_tty st) then
      fail (ErrNew "non-interactive shell: pass --yes to skip the confirmation prompt")
    else
      out (OutPrompt (prompt +:+ " [y/N] ")) ;;
      line ← of_res (ct_stdin st);
      let answer := ToLower (TrimSpace (firstLine line)) in
      mret (bool_decide (answer = "y" ∨ answer = "yes")).
End state.

(** ** The connection *)

Record clientConnConfig := {
  cc_serverAddr : string; cc_tls : bool; cc_tlsCA : string; cc_tlsCert : string;
  cc_tlsKey : string; cc_tlsServerName : string; cc_tlsSkipVerify : bool; cc_token : string }.

Definition tlsEnabled (c : clientConnConfig) : bool :=
  cc_tls c || bool_decide (cc_tlsCA c ≠ "") || bool_decide (cc_tlsCert c ≠ "") ||
  bool_decide (cc_tlsKey c ≠ "") || bool_decide (cc_tlsServerName c ≠ "") || cc_tlsSkipVerify c.

(** [crypto/tls] and [crypto/x509]: reading a key pair, reading a file, and parsing the
    certificates of a PEM text. *)
Class TLSFiles := {
  Certificate : Type; CertPool : Type;
  tls_LoadX509KeyPair : string → string → res Certificate;
  read_PEM : string → res string;
  AppendCertsFromPEM : string → option CertPool }.

Section conn.
Context `{TLSFiles}.

Definition loadX509KeyPair (certFile keyFile : string) : res Certificate :=
  wrap "loading TLS keypair" (tls_LoadX509KeyPair certFile keyFile).

Definition loadCAPool (path : string) : res CertPool :=
  match read_PEM path with
  | Err e => Err (ErrWrap "reading CA file" e)
  | Ok pem =>
     match AppendCertsFromPEM pem with
     | Some pool => Ok pool
     | None => Err (ErrNew "CA file did not contain any valid PEM certificates")
     end
  end.

Record tlsConfig := {
  tc_ServerName : string; tc_InsecureSkipVerify : bool;
  tc_RootCAs : option CertPool; tc_Certificates : list Certificate;
  tc_ClientCAs : option CertPool; tc_RequireClientCert : bool }.

Definition buildClientTLSConfig (c : clientConnConfig) : res tlsConfig :=
  match (if decide (cc_tlsCA c = "") then Ok None
         else wrap "loading server CA" (Some <$> loadCAPool (cc_tlsCA c))) with
  | Err e => Err e
  | Ok pool =>
     let cfg certs := {| tc_ServerName := cc_tlsServerName c;
                         tc_InsecureSkipVerify := cc_tlsSkipVerify c; tc_RootCAs := pool;
                         tc_Certificates := certs; tc_ClientCAs := None;
                         tc_RequireClientCert := false |} in
     if decide (cc_tlsCert c = "" ∧ cc_tlsKey c = "") then Ok (cfg [])
     else if decide (cc_tlsCert c = "" ∨ cc_tlsKey c = "") then
       Err (ErrNew "--tls-cert and --tls-key must be specified together")
     else
       match wrap "loading client cert" (loadX509KeyPair (cc_tlsCert c) (cc_tlsKey c)) with
       | Err e => Err e
       | Ok cert => Ok (cfg [cert])
       end
  end.

(** What [dialServer] passes to [grpc.NewClient]: transport credentials ([None] is
    plaintext) and the bearer token. *)
Definition dialOptions (c : clientConnConfig) : res (option tlsConfig * option string) :=
  let token := if decide (cc_token c = "") then None else Some (cc_token c) in
  if tlsEnabled c then
    match buildClientTLSConfig c with
    | Err e => Err (ErrWrap "building TLS config" e)
    | Ok t => Ok (Some t, token)
    end
  else Ok (None, token).

(** The defaults [PersistentPreRunE] fills in from the environment, and whether it warns
    that the token is sent in plaintext. *)
Definition withEnvironment (env : string → string) (c : clientConnConfig)
    : clientConnConfig * bool :=
  let addr := if decide (cc_serverAddr c = "") then env "PROTOREGISTRY_SERVER"
              else cc_serverAddr c in
  let addr := if decide (addr = "") then "localhost:50051" else addr in
  let token := if decide (cc_token c = "") then env "PROTOREGISTRY_TOKEN" else cc_token c in
  let c := {| cc_serverAddr := addr; cc_tls := cc_tls c; cc_tlsCA := cc_tlsCA c;
              cc_tlsCert := cc_tlsCert c; cc_tlsKey := cc_tlsKey c;
              cc_tlsServerName := cc_tlsServerName c; cc_tlsSkipVerify := cc_tlsSkipVerify c;
              cc_token := token |} in
  (c, bool_decide (token ≠ "") && negb (tlsEnabled c)).
End conn.
