(* ===== verification/CtlLoad.v ===== *)
(** * Loading a directory in dependency order

    Models [runLoad] of [src/internal/ctl/load.go]: rounds over the files, each of which
    is published once its imports are, until a round makes no progress. *)

From S2P Require Import Prelude GoStrings Protobuf Server GoDir Ctl.
From stdpp Require Import prelude gmap strings list pretty.

Open Scope string_scope.
Open Scope list_scope.

(** The files published and the files that failed so far. *)
Record loading := { ld_loaded : gset string; ld_failed : gmap string error }.

Definition loading_start : loading := {| ld_loaded := ∅; ld_failed := ∅ |}.
Definition add_loaded (f : string) (ld : loading) : loading :=
  {| ld_loaded := {[f]} ∪ ld_loaded ld; ld_failed := ld_failed ld |}.
Definition add_failed (f : string) (e : error) (ld : loading) : loading :=
  {| ld_loaded := ld_loaded ld; ld_failed := <[f := e]> (ld_failed ld) |}.

(** What the loop over the imports of a file finds. *)
Inductive readiness := Ready | Waiting | DepFailed (imp : string) (e : error).

Fixpoint checkImports (fileSet : gset string) (ld : loading) (imports : list string)
    : readiness :=
  match imports with
  | [] => Ready
  | imp :: imports =>
     if decide (imp ∈ ld_loaded ld) then checkImports fileSet ld imports
     else if decide (imp ∈ fileSet) then
       match ld_failed ld !! imp with
       | Some e => DepFailed imp e
       | None => Waiting
       end
     else checkImports fileSet ld imports
  end.

Section load.
Context {R : Type} `{RegistryClient R}.

(** The request that publishes one file as a schema of its own. *)
Definition loadRequest (ns createdBy : string) (force : bool) (p : protoFile) : PublishRPC :=
  {| preq_NamespaceId := ns; preq_SchemaId := pf_filename p;
     preq_Sources := {[ pf_filename p := pf_content p ]}; preq_CreatedBy := createdBy;
     preq_Metadata := None; preq_Force := force |}.

(** The body of the inner loop; the flag says that a file was published in this round. *)
Definition loadFile (ns createdBy : string) (force : bool) (fileSet : gset string)
    (acc : loading * bool) (p : protoFile) : M (CtlState R) (loading * bool) :=
  let '(ld, progress) := acc in
  if decide (pf_filename p ∈ ld_loaded ld ∨ is_Some (ld_failed ld !! pf_filename p)) then
    mret (ld, progress)
  else
    match checkImports fileSet ld (pf_imports p) with
    | DepFailed imp e =>
       mret (add_failed (pf_filename p)
               (ErrWrap ("dependency " +:+ imp +:+ " failed") e) ld, progress)
    | Waiting => mret (ld, progress)
    | Ready =>
       resp ← attempt (rpc (client_Publish (loadRequest ns createdBy force p)));
       match resp with
       | Err e => mret (add_failed (pf_filename p) e ld, progress)
       | Ok resp =>
          out (OutLoaded (pf_filename p)
                 (if pres_NoChange resp then None else Some (pres_Version resp))) ;;
          mret (add_loaded (pf_filename p) ld, true)
       end
    end.

(** A loop over a list that threads a value. *)
Fixpoint loadRound (step : loading * bool → protoFile → M (CtlState R) (loading * bool))
    (acc : loading * bool) (protos : list protoFile) : M (CtlState R) (loading * bool) :=
  match protos with
  | [] => mret acc
  | p :: protos => acc ← step acc p; loadRound step acc protos
  end.

(** The outer loop: rounds until one makes no progress. [fuel] bounds their number. *)
Fixpoint loadLoop (fuel : nat) (ns createdBy : string) (force : bool) (fileSet : gset string)
    (protos : list protoFile) (ld : loading) : M (CtlState R) loading :=
  match fuel with
  | O => fail (ErrNew "out of fuel")
  | S fuel =>
     acc ← loadRound (loadFile ns createdBy force fileSet) (ld, false) protos;
     if acc.2 : bool then loadLoop fuel ns createdBy force fileSet protos acc.1
     else mret acc.1
  end.

(** Report the failures. *)
Definition reportFailed (ld : loading) : M (CtlState R) unit :=
  if decide (ld_failed ld = ∅) then mret tt else out (OutFailed (ld_failed ld)).

Definition promoteLoaded (promote : bool) (ns : string) (ld : loading) : M (CtlState R) unit :=
  if promote && bool_decide (ld_loaded ld ≠ ∅) then
    resp ← wrapM "promote failed" (rpc (client_Promote ns));
    out (OutPromoted resp)
  else mret tt.

Definition runLoad `{ImportParser} (disk : string → res FsNode) (ns dir createdBy : string)
    (promote force : bool) : M (CtlState R) unit :=
  protos ← of_res (scanProtos disk dir);
  if decide (protos = []) then
    fail (ErrNew ("no .proto files found in " +:+ dir))
  else
    out (OutFound (length protos) dir) ;;
    let fileSet : gset string := list_to_set (pf_filename <$> protos) in
    ld ← loadLoop (S (length protos)) ns createdBy force fileSet protos loading_start;
    reportFailed ld ;;
    promoteLoaded promote ns ld ;;
    if decide (ld_failed ld = ∅) then out (OutLoadDone (size (ld_loaded ld)) ns)
    else fail (ErrNew (pretty (size (ld_failed ld)) +:+ " file(s) failed to load")).

End load.
