(* ===== verification/CtlLoadThms.v ===== *)
(** * Correctness of loading a directory

    The loop of [runLoad] ends after at most one round per file and one more; every file
    is published at most once and after its imports; and when the imports have no cycle, a
    run that reports success has published every file. *)

From S2P Require Import Prelude GoStrings GoPath Protobuf Server GoDir Ctl CtlLoad.
From stdpp Require Import prelude gmap strings list pretty.

Open Scope string_scope.
Open Scope list_scope.

(** ** The imports of a file *)

Lemma checkImports_Ready fileSet ld imports :
  checkImports fileSet ld imports = Ready ↔
  ∀ imp, imp ∈ imports → imp ∈ fileSet → imp ∈ ld_loaded ld.
Proof.
  induction imports as [|imp imports IH]; cbn; [split; [by intros _ ? ?%elem_of_nil|done]|].
  setoid_rewrite elem_of_cons. case_decide; [rewrite IH; naive_solver|].
  case_decide; [|rewrite IH; naive_solver]. split; [by destruct (ld_failed ld !! imp)|].
  intros Hall. exfalso. naive_solver.
Qed.

Lemma checkImports_Waiting fileSet ld imports :
  checkImports fileSet ld imports = Waiting →
  ∃ imp, imp ∈ imports ∧ imp ∈ fileSet ∧ imp ∉ ld_loaded ld.
Proof.
  induction imports as [|imp imports IH]; cbn; [done|]. setoid_rewrite elem_of_cons.
  repeat case_decide; [naive_solver| |naive_solver]. case_match; [done|]. naive_solver.
Qed.

Section load.
Context {R : Type} `{RegistryClient R} (ns createdBy : string) (force : bool).
Context (protos : list protoFile) (Hnames : NoDup (pf_filename <$> protos)).
Implicit Types (st : CtlState R) (ld : loading) (L : list string).

#[local] Notation fileSet := (list_to_set (pf_filename <$> protos) : gset string).
#[local] Notation step := (loadFile ns createdBy force fileSet).

(** The files published so far, in order. *)
Definition published st : list string :=
  omap (λ o, match o with OutLoaded f _ => Some f | _ => None end) (ct_out st).

(** A list of file names in which the imports of a file come before it. *)
Definition ordered L : Prop :=
  ∀ pre p post, p ∈ protos → L = pre ++ pf_filename p :: post →
    ∀ imp, imp ∈ pf_imports p → imp ∈ fileSet → imp ∈ pre.

(** The progress of the loop: what was published since the state [st0]. *)
Record load_inv (st0 : CtlState R) ld st L : Prop := {
  li_published : published st = published st0 ++ L;
  li_NoDup : NoDup L;
  li_loaded f : f ∈ ld_loaded ld ↔ f ∈ L;
  li_known f : f ∈ L → f ∈ pf_filename <$> protos;
  li_ordered : ordered L;
  li_apart f : f ∈ L → ld_failed ld !! f = None }.

Lemma published_out st o : published (out o st).2 =
  published st ++ match o with OutLoaded f _ => [f] | _ => [] end.
Proof.
  unfold published. cbn. rewrite omap_app. f_equal. by destruct o.
Qed.

Lemma published_rpc {A} (m : M R A) st : published (rpc m st).2 = published st.
Proof. unfold rpc. by destruct (m (ct_srv st)). Qed.

Lemma ordered_snoc L p :
  ordered L → p ∈ protos → pf_filename p ∉ L →
  (∀ imp, imp ∈ pf_imports p → imp ∈ fileSet → imp ∈ L) → ordered (L ++ [pf_filename p]).
Proof.
  intros HL Hp Hn Hi pre q post Hq E imp Himp Hset.
  destruct (decide (post = [])) as [->|Hpost].
  - apply app_inj_tail in E as [-> E].
    assert (q = p) as ->; [|by apply Hi].
    apply list_elem_of_lookup in Hp as [i Hi'], Hq as [j Hj'].
    assert (i = j) as ->; [|congruence].
    eapply (NoDup_lookup _ _ _ (pf_filename p) Hnames); rewrite list_lookup_fmap;
      [by rewrite Hi'|rewrite Hj'; cbn; by f_equal].
  - destruct (exists_last Hpost) as (post' & x & ->).
    rewrite app_comm_cons, app_assoc in E. apply app_inj_tail in E as [-> _].
    by eapply HL.
Qed.

(** One file: nothing happens, or it fails, or it is published. *)
Lemma loadFile_inv st0 ld b st L p :
  p ∈ protos → load_inv st0 ld st L →
  ∃ ld' b' st' L', step (ld, b) p st = (Ok (ld', b'), st') ∧ load_inv st0 ld' st' L' ∧
    L `prefix_of` L' ∧ (b' = false → b = false ∧ L' = L) ∧ (b' = true → b = true ∨ length L < length L')%nat ∧
    dom (ld_failed ld) ⊆ dom (ld_failed ld') ∧
    (pf_filename p ∈ L' ∨ is_Some (ld_failed ld' !! pf_filename p) ∨
     ∃ imp, imp ∈ pf_imports p ∧ imp ∈ fileSet ∧ imp ∉ L').
Proof.
  intros Hp Hinv. pose proof Hinv as [Hpub Hnd Hld Hk Ho Ha]. unfold loadFile.
  case_decide as Hskip.
  { exists ld, b, st, L. split_and!; try done; [naive_solver|]. rewrite Hld in Hskip. tauto. }
  assert (Hnl : pf_filename p ∉ L) by (rewrite <-Hld; tauto).
  assert (Hnf : ld_failed ld !! pf_filename p = None) by (apply eq_None_not_Some; tauto).
  assert (Hfail : ∀ e, load_inv st0 (add_failed (pf_filename p) e ld) st L).
  { intros e. split; try done. intros f Hf. cbn. rewrite lookup_insert_ne; [by apply Ha|]. naive_solver. }
  destruct (checkImports _ _ _) as [| |imp e] eqn:Ec.
  - rewrite checkImports_Ready in Ec. setoid_rewrite Hld in Ec.
    unfold mbind, M_bind, attempt.
    pose proof (published_rpc (client_Publish (loadRequest ns createdBy force p)) st) as Hr.
    destruct (rpc _ st) as [[resp|e] st1]; cbn [snd] in Hr.
    + set (o := OutLoaded _ _). eexists _, true, (out o st1).2, (L ++ [pf_filename p]). split; [done|].
      split_and!; try done; [|by apply prefix_app_r|rewrite length_app; cbn; right; lia|left; set_solver].
      split.
      * by rewrite published_out, Hr, Hpub, app_assoc.
      * apply NoDup_app. split_and!; [done|set_solver|apply NoDup_singleton].
      * intros f. cbn. rewrite elem_of_union, elem_of_singleton, Hld. set_solver.
      * intros f [Hf| ->%list_elem_of_singleton]%elem_of_app; [by apply Hk|by apply list_elem_of_fmap_2].
      * by apply ordered_snoc.
      * intros f [Hf| ->%list_elem_of_singleton]%elem_of_app; [by apply Ha|done].
    + eexists _, b, st1, L. split; [done|]. split_and!; try done; [|naive_solver| |].
      * destruct (Hfail e) as [? ? ? ? ? ?]. split; try done. by rewrite Hr.
      * cbn. rewrite dom_insert. set_solver.
      * right. left. cbn. rewrite lookup_insert_eq. eauto.
  - exists ld, b, st, L. split_and!; try done; [naive_solver|]. right. right.
    apply checkImports_Waiting in Ec as (imp & ? & ? & Hn). rewrite Hld in Hn. eauto.
  - eexists _, b, st, L. split; [done|]. split_and!; try done; [naive_solver| |].
    + cbn. rewrite dom_insert. set_solver.
    + right. left. cbn. rewrite lookup_insert_eq. eauto.
Qed.

(** The file was published, it failed, or one of its imports was not published. *)
Definition settled ld L (p : protoFile) : Prop :=
  pf_filename p ∈ L ∨ is_Some (ld_failed ld !! pf_filename p) ∨
  ∃ imp, imp ∈ pf_imports p ∧ imp ∈ fileSet ∧ imp ∉ L.

Lemma loadRound_inv st0 ld b st L ps :
  (∀ p, p ∈ ps → p ∈ protos) → load_inv st0 ld st L →
  ∃ ld' b' st' L', loadRound step (ld, b) ps st = (Ok (ld', b'), st') ∧ load_inv st0 ld' st' L' ∧
    (b' = false → b = false ∧ L' = L) ∧ (b' = true → b = true ∨ length L < length L')%nat ∧
    (length L ≤ length L')%nat ∧ dom (ld_failed ld) ⊆ dom (ld_failed ld') ∧
    (b' = false → ∀ p, p ∈ ps → settled ld' L' p).
Proof.
  revert ld b st L. induction ps as [|p ps IH]; intros ld b st L Hps Hinv.
  { exists ld, b, st, L. split_and!; try done; [naive_solver|]. by intros _ p ?%elem_of_nil. }
  destruct (loadFile_inv st0 ld b st L p) as (ld1 & b1 & st1 & L1 & E1 & Hinv1 & Hpre & Hf1 & Ht1 & Hd1 & Hs1);
    [apply Hps; left|done|].
  destruct (IH ld1 b1 st1 L1) as (ld2 & b2 & st2 & L2 & E2 & Hinv2 & Hf2 & Ht2 & Hl2 & Hd2 & Hs2);
    [intros; apply Hps; by right|done|].
  apply prefix_length in Hpre. exists ld2, b2, st2, L2. split.
  { cbn [loadRound]. unfold mbind, M_bind. by rewrite E1. }
  split_and!; [done|naive_solver| |lia|set_solver|].
  - intros ->. destruct (Ht2 eq_refl) as [->|]; [|right; lia].
    destruct (Ht1 eq_refl) as [->|]; [by left|right; lia].
  - intros ->. destruct (Hf2 eq_refl) as [-> ->]. intros q [->|Hq]%elem_of_cons; [|by apply Hs2].
    destruct Hs1 as [|[Hx|]]; [by left| |by right; right].
    right. left. apply elem_of_dom. apply Hd2. by apply elem_of_dom.
Qed.

Lemma load_inv_length st0 ld st L : load_inv st0 ld st L → (length L ≤ length protos)%nat.
Proof.
  intros Hinv. rewrite <-(length_fmap pf_filename protos).
  apply submseteq_length, NoDup_submseteq; [apply Hinv|]. apply (li_known _ _ _ _ Hinv).
Qed.

(** The number of rounds is at most the number of files plus one. *)
Lemma loadLoop_inv fuel st0 ld st L :
  load_inv st0 ld st L → (length protos < fuel + length L)%nat →
  ∃ ld' st' L', loadLoop fuel ns createdBy force fileSet protos ld st = (Ok ld', st') ∧
    load_inv st0 ld' st' L' ∧ ∀ p, p ∈ protos → settled ld' L' p.
Proof.
  revert ld st L. induction fuel as [|fuel IH]; intros ld st L Hinv Hf.
  { apply load_inv_length in Hinv. lia. }
  destruct (loadRound_inv st0 ld false st L protos) as (ld1 & b1 & st1 & L1 & E & Hinv1 & Hf1 & Ht1 & _ & _ & Hs1);
    [done|done|].
  cbn [loadLoop]. unfold mbind, M_bind. rewrite E. cbn [fst snd]. destruct b1.
  - apply IH with (L := L1); [done|]. destruct (Ht1 eq_refl); [done|]. lia.
  - exists ld1, st1, L1. split_and!; [done|done|]. by apply Hs1.
Qed.

Lemma load_inv_start st : load_inv st loading_start st [].
Proof.
  split; try set_solver.
  - by rewrite app_nil_r.
  - apply NoDup_nil_2.
  - by intros [] ? ?.
Qed.
End load.

(** The imports among the files have no cycle: they go down in some order. *)
Definition acyclic (protos : list protoFile) : Prop :=
  ∃ rank : string → nat, ∀ p imp, p ∈ protos → imp ∈ pf_imports p →
    imp ∈ pf_filename <$> protos → (rank imp < rank (pf_filename p))%nat.

(** Without cycles and failures nothing is left waiting. *)
Lemma acyclic_all protos ld L :
  acyclic protos → ld_failed ld = ∅ → (∀ p, p ∈ protos → settled protos ld L p) →
  ∀ p, p ∈ protos → pf_filename p ∈ L.
Proof.
  intros [rank Hrank] Hf Hs.
  assert (Hn : ∀ n p, (rank (pf_filename p) < n)%nat → p ∈ protos → pf_filename p ∈ L);
    [|intros p; by apply (Hn (S (rank (pf_filename p)))); lia].
  induction n as [|n IH]; intros p Hlt Hp; [lia|].
  destruct (Hs p Hp) as [Hin|[[e He]|(imp & Himp & Hset & Hnot)]]; [done|by rewrite Hf, lookup_empty in He|].
  exfalso. apply Hnot. apply elem_of_list_to_set in Hset. pose proof Hset as Hset'.
  apply list_elem_of_fmap in Hset as (q & -> & Hq). apply IH; [|done].
  specialize (Hrank p _ Hp Himp Hset'). lia.
Qed.

Section run.
Context {R : Type} `{RegistryClient R, ImportParser} (disk : string → res FsNode).
Context (ns dir createdBy : string) (promote force : bool).
Implicit Types (st : CtlState R).

(** A step that publishes nothing. *)
Definition silent {A} (m : M (CtlState R) A) : Prop := ∀ st, published (m st).2 = published st.

Lemma silent_out o : match o with OutLoaded _ _ => False | _ => True end → silent (out o).
Proof. intros Ho st. rewrite published_out. destruct o; by rewrite ?app_nil_r. Qed.

Lemma silent_report ld : silent (reportFailed ld).
Proof. unfold reportFailed. case_decide; [done|]. by apply silent_out. Qed.

Lemma silent_promote ld : silent (promoteLoaded promote ns ld).
Proof.
  intros st. unfold promoteLoaded. case_match; [|done]. unfold mbind, M_bind, wrapM.
  pose proof (published_rpc (client_Promote ns) st) as Hr.
  destruct (rpc _ st) as [[l|e] st1]; cbn in *; [|done]. by rewrite <-Hr, <-(silent_out (OutPromoted l) I).
Qed.

(** The end of a run reports, promotes, and succeeds only when nothing failed. *)
Lemma loadEnd_run ld st :
  ∃ x st', (reportFailed ld ;; promoteLoaded promote ns ld ;;
    if decide (ld_failed ld = ∅) then out (OutLoadDone (size (ld_loaded ld)) ns)
    else fail (ErrNew (pretty (size (ld_failed ld)) +:+ " file(s) failed to load"))) st = (x, st') ∧
  x ≠ Err (ErrNew "out of fuel") ∧ published st' = published st ∧ (x = Ok tt → ld_failed ld = ∅).
Proof.
  unfold mbind, M_bind. pose proof (silent_report ld st) as Hr.
  assert (Er : (reportFailed (R := R) ld st).1 = Ok tt) by (unfold reportFailed; by case_decide).
  destruct (reportFailed ld st) as [y st1]. cbn in Er, Hr. subst y.
  pose proof (silent_promote ld st1) as Hp.
  assert (Ep : ∀ e, (promoteLoaded promote ns ld st1).1 = Err e → e ≠ ErrNew "out of fuel").
  { unfold promoteLoaded. case_match; [|done]. unfold mbind, M_bind, wrapM.
    destruct (rpc _ st1) as [[l|e] st2]; cbn; [done|]. by intros e' [= <-]. }
  destruct (promoteLoaded promote ns ld st1) as [[[]|e] st2]; cbn in Hp, Ep.
  - case_decide; [by eexists _, _; split_and!; [done|done|rewrite <-Hr, <-Hp; by apply silent_out|]|].
    eexists _, _. split_and!; [done| |by rewrite Hp|done].
    intros [= E%(f_equal String.length)]. rewrite length_str_app in E. cbn in E. lia.
  - eexists _, _. split_and!; [done|naive_solver|by rewrite Hp|done].
Qed.

(** A run, by the lines it prints. *)
Lemma runLoad_lines st n protos :
  disk (Clean dir) = Ok n → tree_ok n → protos_readable (Clean dir) n →
  scanProtos disk dir = Ok protos → protos ≠ [] →
  ∃ x st' L, runLoad disk ns dir createdBy promote force st = (x, st') ∧
    x ≠ Err (ErrNew "out of fuel") ∧
    published st' = published st ++ L ∧ NoDup L ∧ L ⊆ pf_filename <$> protos ∧
    ordered protos L ∧
    (x = Ok tt → acyclic protos → L ≡ₚ pf_filename <$> protos).
Proof.
  intros Hdisk Htree Hread Hscan Hne.
  destruct (scanProtos_files disk dir n protos Hdisk Htree Hread Hscan) as [_ Hnd]. unfold runLoad. unfold mbind at 1, M_bind at 1, of_res. rewrite Hscan.
  rewrite decide_False by done. unfold mbind at 1, M_bind at 1.
  set (st1 := (out (OutFound (length protos) dir) st).2).
  assert (Hst1 : published st1 = published st) by by apply silent_out.
  change (out (OutFound (length protos) dir) st) with (Ok tt, st1). cbn beta iota zeta.
  destruct (loadLoop_inv ns createdBy force protos Hnd (S (length protos)) st1 loading_start st1 [])
    as (ld & st2 & L & E & Hinv & Hs); [by apply load_inv_start|cbn; lia|].
  unfold mbind at 1, M_bind at 1. rewrite E. pose proof Hinv as [Hpub HndL Hld Hk Ho _].
  rewrite Hst1 in Hpub.
  assert (Hall : ld_failed ld = ∅ → acyclic protos → L ≡ₚ pf_filename <$> protos).
  { intros Hf Hacy. apply NoDup_Permutation; [done|done|]. intros f. split; [by apply Hk|].
    intros (p & -> & Hp)%list_elem_of_fmap. by eapply acyclic_all. }
  destruct (loadEnd_run ld st2) as (x & st3 & Ex & Hx & Hp3 & Hok). rewrite Ex.
  exists x, st3, L. rewrite Hp3, Hpub. split_and!; try done. intros. by apply Hall; [apply Hok|].
Qed.
End run.

(** ** The requests a run makes *)

(** Any client of a registry, with the accepted publications recorded. *)
Definition unrecorded {R A} (m : M R A) : M (R * list PublishRPC) A := λ s,
  let '(x, r) := m s.1 in (x, (r, s.2)).
Definition recording {R} `{RegistryClient R} : RegistryClient (R * list PublishRPC) := {|
  client_Publish req := λ s,
    let '(x, r) := client_Publish req s.1 in
    (x, (r, match x with Ok _ => s.2 ++ [req] | Err _ => s.2 end));
  client_Promote ns := unrecorded (client_Promote ns);
  client_DiscardStaging ns := unrecorded (client_DiscardStaging ns);
  client_Rollback ns id v force := unrecorded (client_Rollback ns id v force);
  client_ListNamespaces size token := unrecorded (client_ListNamespaces size token);
  client_CreateNamespace ns metadata := unrecorded (client_CreateNamespace ns metadata);
  client_ListSchemas ns size token := unrecorded (client_ListSchemas ns size token);
  client_GetSchema ns id := unrecorded (client_GetSchema ns id);
  client_GetSource ns id v := unrecorded (client_GetSource ns id v);
  client_GetDescriptor ns id v := unrecorded (client_GetDescriptor ns id v) |}.

Section requests.
Context {R : Type} `{RegistryClient R, ImportParser} (disk : string → res FsNode).
Context (ns dir createdBy : string) (promote force : bool) (protos : list protoFile).
#[local] Instance rec : RegistryClient (R * list PublishRPC) := recording.
Implicit Types (st : CtlState (R * list PublishRPC)).

Definition accepted st : list PublishRPC := (ct_srv st).2.

(** Every line that says a file was loaded follows the accepted publication of it. *)
Definition tracked {A} (m : M (CtlState (R * list PublishRPC)) A) : Prop := ∀ st,
  ∃ ps, ps ⊆ protos ∧ published (m st).2 = published st ++ (pf_filename <$> ps) ∧
    accepted (m st).2 = accepted st ++ (loadRequest ns createdBy force <$> ps).

Lemma tracked_quiet {A} (m : M (CtlState (R * list PublishRPC)) A) :
  (∀ st, published (m st).2 = published st ∧ accepted (m st).2 = accepted st) → tracked m.
Proof. intros Hm st. destruct (Hm st) as [-> ->]. exists []. cbn. rewrite !app_nil_r. set_solver. Qed.

Lemma tracked_bind {A B} (m : M (CtlState (R * list PublishRPC)) A) (k : A → M _ B) :
  tracked m → (∀ a, tracked (k a)) → tracked (m ≫= k).
Proof.
  intros Hm Hk st. unfold mbind, M_bind. destruct (Hm st) as (ps & Hs & Hp & Ha).
  destruct (m st) as [[a|e] st1]; cbn in *; [|by exists ps].
  destruct (Hk a st1) as (qs & Hs' & -> & ->). exists (ps ++ qs).
  rewrite Hp, Ha, !fmap_app, !app_assoc. set_solver.
Qed.

Lemma tracked_out o : match o with OutLoaded _ _ => False | _ => True end → tracked (out o).
Proof. intros Ho. apply tracked_quiet. intros st. split; [by apply silent_out|done]. Qed.

Lemma tracked_loadFile fileSet acc p :
  p ∈ protos → tracked (loadFile ns createdBy force fileSet acc p).
Proof.
  intros Hp. destruct acc as [ld progress]. unfold loadFile.
  case_decide; [by apply tracked_quiet|]. destruct (checkImports _ _ _); [|by apply tracked_quiet..].
  intros st. unfold mbind, M_bind, attempt, rpc. cbn.
  destruct (client_Publish _ (ct_srv st).1) as [[resp|e] r]; cbn.
  - exists [p]. split; [set_solver|]. unfold published. cbn. by rewrite omap_app.
  - exists []. cbn. rewrite !app_nil_r. set_solver.
Qed.

Lemma tracked_loadRound fileSet acc ps :
  ps ⊆ protos → tracked (loadRound (loadFile ns createdBy force fileSet) acc ps).
Proof.
  revert acc. induction ps as [|p ps IH]; intros acc Hps; cbn; [by apply tracked_quiet|].
  apply tracked_bind; [apply tracked_loadFile; set_solver|]. intros acc'. apply IH. set_solver.
Qed.

Lemma tracked_loadLoop fuel fileSet ld : tracked (loadLoop fuel ns createdBy force fileSet protos ld).
Proof.
  revert ld. induction fuel as [|fuel IH]; intros ld; cbn; [by apply tracked_quiet|].
  apply tracked_bind; [by apply tracked_loadRound|]. intros [ld' []]; [apply IH|by apply tracked_quiet].
Qed.

Lemma tracked_end ld : tracked (reportFailed ld ;; promoteLoaded promote ns ld ;;
    if decide (ld_failed ld = ∅) then out (OutLoadDone (size (ld_loaded ld)) ns)
    else fail (ErrNew (pretty (size (ld_failed ld)) +:+ " file(s) failed to load"))).
Proof.
  apply tracked_bind; [unfold reportFailed; case_decide; [by apply tracked_quiet|by apply tracked_out]|].
  intros _. apply tracked_bind; [|intros _; case_decide; [by apply tracked_out|by apply tracked_quiet]].
  apply tracked_quiet. intros st. split; [by apply silent_promote|].
  unfold promoteLoaded. case_match; [|done]. unfold mbind, M_bind, wrapM, rpc, accepted. cbn.
  unfold unrecorded. by destruct (client_Promote ns (ct_srv st).1) as [[l|e] r].
Qed.

Lemma tracked_of_res {A B} (m : res A) (k : A → M _ B) :
  (∀ a, m = Ok a → tracked (k a)) → tracked (of_res m ≫= k).
Proof.
  intros Hk. destruct m as [a|e]; [exact (Hk a eq_refl)|]. by apply tracked_quiet.
Qed.

Lemma tracked_runLoad : scanProtos disk dir = Ok protos →
  tracked (runLoad disk ns dir createdBy promote force).
Proof.
  intros Hscan. unfold runLoad. apply tracked_of_res. rewrite Hscan. intros ? [= <-].
  case_decide; [by apply tracked_quiet|]. apply tracked_bind; [by apply tracked_out|]. intros _.
  apply tracked_bind; [apply tracked_loadLoop|]. intros ld. apply tracked_end.
Qed.

(** C26. A run of [load] ends: the loop makes at most one round per file and one more, whatever
    the server answers. The publications the server accepted during the run are those of
    files of the directory, each at most once, and each after those of its imports that
    are in the directory. If the run reports success and the imports have no cycle, every
    file of the directory was published. *)
Theorem runLoad_in_order st n :
  disk (Clean dir) = Ok n → tree_ok n → protos_readable (Clean dir) n →
  scanProtos disk dir = Ok protos → protos ≠ [] →
  ∃ x st' ps, runLoad disk ns dir createdBy promote force st = (x, st') ∧
    x ≠ Err (ErrNew "out of fuel") ∧
    accepted st' = accepted st ++ (loadRequest ns createdBy force <$> ps) ∧
    NoDup (pf_filename <$> ps) ∧ ps ⊆ protos ∧ ordered protos (pf_filename <$> ps) ∧
    (x = Ok tt → acyclic protos → ps ≡ₚ protos).
Proof.
  intros Hdisk Htree Hread Hscan Hne.
  destruct (scanProtos_files disk dir n protos Hdisk Htree Hread Hscan) as [_ Hnd].
  destruct (runLoad_lines disk ns dir createdBy promote force st n protos)
    as (x & st' & L & E & Hx & Hp & HL & _ & Ho & Hall); [done..|].
  destruct (tracked_runLoad Hscan st) as (ps & Hps & Hp' & Ha). rewrite E in Hp', Ha. cbn in Hp', Ha.
  rewrite Hp in Hp'. apply app_inv_head in Hp' as ->.
  exists x, st', ps. split_and!; try done. intros Hok Hacy. specialize (Hall Hok Hacy).
  apply NoDup_Permutation; [by eapply NoDup_fmap_1|by eapply NoDup_fmap_1|]. intros p. split; [by apply Hps|].
  intros Hin. assert (Hf : pf_filename p ∈ pf_filename <$> ps) by (rewrite Hall; by apply list_elem_of_fmap_2).
  apply list_elem_of_fmap in Hf as (q & Hq & Hq'). by rewrite (NoDup_fmap_same pf_filename protos p q Hnd Hin (Hps _ Hq') Hq).
Qed.
End requests.
