(* ===== verification/CtlCommands.v ===== *)
(** * The commands

    Models the commands of [src/internal/ctl]: [push.go], [promote.go], [namespace.go],
    [schema.go], [pxf.go] and the entry of [load.go]. A command is its arguments, its
    flags and the state; the argument counts are those declared to cobra. *)

From S2P Require Import Prelude GoStrings GoPath Descriptor Protobuf Server GoDir Ctl CtlLoad.
From stdpp Require Import prelude gmap strings list pretty.

Open Scope string_scope.
Open Scope list_scope.

(** The error cobra reports for a wrong number of arguments. *)
Class Cobra := args_error : list string → error.

(** The operating system: what reading and writing the file of a path gives. *)
Class CtlOS := { os_read : string → res string; os_write : string → res unit }.

(** The pxf and protobuf codecs, on dynamic messages. *)
Class PXF := {
  DynMessage : Type;
  pxf_UnmarshalDescriptor : string → MessageDescriptor → res DynMessage;
  pxf_Marshal : string → DynMessage → res string;
  proto_Marshal : DynMessage → res string;
  proto_Unmarshal : string → MessageDescriptor → res DynMessage }.

(** [fmt.Sscanf(s, "%d", &version)] into a [uint64]: leading blanks, then digits; what
    follows the digits is not read. *)
Fixpoint scanDigits (acc : Z) (s : string) : Z :=
  match s with
  | EmptyString => acc
  | String c s => match digit c with Some d => scanDigits (acc * 10 + d) s | None => acc end
  end.
Definition scanUint (s : string) : res Z :=
  let rest := trim_left 0 s in
  let lead := str_take (String.length s - String.length rest) s in
  if decide (IndexByte newline lead ≠ None) then Err (ErrNew "unexpected newline")
  else
    match rest with
    | EmptyString => Err (ErrNew "unexpected EOF")
    | String c _ =>
       match digit c with
       | None => Err (ErrNew "expected integer")
       | Some _ =>
          let v := scanDigits 0 rest in
          if decide (v < 2 ^ 64)%Z then Ok v else Err (ErrNew "unsigned integer overflow")
       end
    end.

Section commands.
Context `{Cobra, CtlOS, PXF} {R : Type} `{RegistryClient R} `{ImportParser}.
Context (json : bool) (defaultNS : option string).
Implicit Types (args : list string).

(** The number of arguments is between [lo] and [hi]. *)
Definition rangeArgs (lo : nat) (hi : option nat) args : M (CtlState R) unit :=
  if (lo <=? length args)%nat && match hi with Some hi => (length args <=? hi)%nat | None => true end
  then mret tt else fail (args_error args).

(** Print a response, as JSON if asked to. *)
Definition show (o : Output) : M (CtlState R) unit := out (if json then OutJSON o else o).

(** ** Publishing *)

(** With [--namespace] the first argument is the schema, otherwise it is the namespace. *)
Definition pushArgs args : res (string * string * list string) :=
  match default "" defaultNS, args with
  | EmptyString, ns :: schemaID :: path :: paths => Ok (ns, schemaID, path :: paths)
  | EmptyString, _ =>
     Err (ErrNew "usage: push <namespace> <schema> <path...> (or set --namespace)")
  | ns, schemaID :: paths => Ok (ns, schemaID, paths)
  | _, [] => Err (args_error args)
  end.

Definition pushCmd (disk : string → res FsNode) (createdBy : string) (metadata : list string)
    (promote force : bool) args : M (CtlState R) unit :=
  rangeArgs 2 None args ;;
  parsed ← of_res (pushArgs args);
  let '(ns, schemaID, paths) := parsed in
  sources ← of_res (resolveProtoSources disk paths);
  if decide (sources = ∅) then
    fail (ErrNew ("no .proto files found in [" +:+ strings_Join paths " " +:+ "]"))
  else
    resp ← wrapM "publish failed" (rpc (client_Publish
      {| preq_NamespaceId := ns; preq_SchemaId := schemaID; preq_Sources := sources;
         preq_CreatedBy := createdBy; preq_Metadata := parseMetadata metadata;
         preq_Force := force |}));
    if pres_NoChange resp then out (OutText "No changes detected.")
    else
      out (OutPublished schemaID (pres_Version resp) (pres_Fingerprint resp)) ;;
      if promote then
        l ← wrapM "promote failed" (rpc (client_Promote ns));
        out (OutPromoted l)
      else mret tt.

Definition loadCmd (disk : string → res FsNode) (createdBy : string) (promote force : bool)
    args : M (CtlState R) unit :=
  rangeArgs 1 (Some 2%nat) args ;;
  parsed ← of_res (nsAndArgs 1 args defaultNS);
  match parsed with
  | (ns, dir :: _) => runLoad disk ns dir createdBy promote force
  | (_, []) => fail (args_error args)
  end.

(** ** Staging *)

Definition promoteCmd args : M (CtlState R) unit :=
  rangeArgs 0 (Some 1%nat) args ;;
  ns ← of_res (resolveNamespace args 0 defaultNS);
  l ← wrapM "promote failed" (rpc (client_Promote ns));
  if decide (l = []) then out (OutText "Nothing to promote.") else out (OutPromoted l).

Definition discardCmd (yes : bool) args : M (CtlState R) unit :=
  rangeArgs 0 (Some 1%nat) args ;;
  ns ← of_res (resolveNamespace args 0 defaultNS);
  ok ← confirm yes ("Discard ALL staged changes in namespace " +:+ quote ns +:+ "?");
  if ok : bool then
    wrapM "discard failed" (rpc (client_DiscardStaging ns)) ;;
    out (OutDiscarded ns)
  else out (OutText "Aborted.").

Definition rollbackCmd (promote yes force : bool) args : M (CtlState R) unit :=
  rangeArgs 2 (Some 3%nat) args ;;
  parsed ← of_res (nsAndArgs 2 args defaultNS);
  match parsed with
  | (ns, schemaID :: versionStr :: _) =>
     version ← of_res match scanUint versionStr with
                      | Ok v => Ok v
                      | Err _ => Err (ErrNew ("invalid version " +:+ quote versionStr +:+
                                              ": must be a positive integer"))
                      end;
     ok ← confirm yes ("Roll back " +:+ ns +:+ "/" +:+ schemaID +:+ " to v" +:+
                       pretty version +:+ "?");
     if ok : bool then
       wrapM "rollback failed" (rpc (client_Rollback ns schemaID version force)) ;;
       out (OutRolledBack schemaID version) ;;
       if promote then
         l ← wrapM "promote failed" (rpc (client_Promote ns));
         out (OutPromoted l)
       else out (OutText ("Run 'protoregistry promote " +:+ ns +:+ "' to apply."))
     else out (OutText "Aborted.")
  | _ => fail (args_error args)
  end.

(** ** Namespaces *)

Definition namespaceListCmd args : M (CtlState R) unit :=
  rangeArgs 0 (Some 0%nat) args ;;
  resp ← wrapM "listing namespaces" (rpc (client_ListNamespaces 0 ""));
  show (OutNamespaces resp.1).

Definition namespaceCreateCmd (metadata : list string) args : M (CtlState R) unit :=
  rangeArgs 1 (Some 1%nat) args ;;
  match args with
  | [] => fail (args_error args)
  | id :: _ =>
     wrapM "creating namespace" (rpc (client_CreateNamespace id (parseMetadata metadata))) ;;
     out (OutNamespaceCreated id)
  end.

(** ** Schemas *)

Definition schemaListCmd args : M (CtlState R) unit :=
  rangeArgs 0 (Some 1%nat) args ;;
  ns ← of_res (resolveNamespace args 0 defaultNS);
  resp ← wrapM "listing schemas" (rpc (client_ListSchemas ns 0 ""));
  show (OutSchemas resp.1).

(** The commands on one schema. *)
Definition onSchema args (f : string → string → M (CtlState R) unit) : M (CtlState R) unit :=
  rangeArgs 1 (Some 2%nat) args ;;
  parsed ← of_res (nsAndArgs 1 args defaultNS);
  match parsed with
  | (ns, schemaID :: _) => f ns schemaID
  | (_, []) => fail (args_error args)
  end.

Definition schemaInfoCmd args : M (CtlState R) unit :=
  onSchema args (λ ns schemaID,
    s ← wrapM "getting schema" (rpc (client_GetSchema ns schemaID));
    show (OutSchema s)).

Definition schemaSourceCmd (version : Z) args : M (CtlState R) unit :=
  onSchema args (λ ns schemaID,
    resp ← wrapM "getting source" (rpc (client_GetSource ns schemaID version));
    show (OutSources resp.1 resp.2)).

Definition schemaDescriptorCmd (version : Z) (outFile : string) args : M (CtlState R) unit :=
  onSchema args (λ ns schemaID,
    resp ← wrapM "getting descriptor" (rpc (client_GetDescriptor ns schemaID version));
    if decide (outFile = "") then out (OutDescriptor resp.1 (fdp_Name <$> resp.2))
    else
      data ← wrapM "marshaling descriptor set" (of_res (Marshal resp.2));
      wrapM "writing file" (of_res (os_write outFile)) ;;
      put_file outFile data ;;
      out (OutWrote resp.1 outFile)).

(** ** PXF *)

Definition resolveRegistryDescriptor (ns schema msgName : string)
    : M (CtlState R) MessageDescriptor :=
  resp ← wrapM "GetDescriptor" (rpc (client_GetDescriptor ns schema 0));
  files ← wrapM "build descriptors" (of_res (NewFiles resp.2));
  match Files_FindDescriptorByName files msgName with
  | Err _ => fail (ErrNew ("message " +:+ quote msgName +:+ " not found in descriptor"))
  | Ok (DMessage md) => mret md
  | Ok _ => fail (ErrNew (quote msgName +:+ " is not a message type"))
  end.

(** What the four commands share: the descriptor and the file. *)
Definition onMessage (schema msgName : string) args
    (f : MessageDescriptor → string → M (CtlState R) unit) : M (CtlState R) unit :=
  rangeArgs 1 (Some 2%nat) args ;;
  parsed ← of_res (nsAndFile args defaultNS);
  desc ← resolveRegistryDescriptor parsed.1 schema msgName;
  data ← of_res (os_read parsed.2);
  f desc data.

Definition pxfEncodeCmd (schema msgName : string) args : M (CtlState R) unit :=
  onMessage schema msgName args (λ desc data,
    msg ← of_res (pxf_UnmarshalDescriptor data desc);
    bytes ← of_res (proto_Marshal msg);
    out (OutBytes bytes)).

Definition pxfDecodeCmd (schema msgName : string) args : M (CtlState R) unit :=
  onMessage schema msgName args (λ desc data,
    msg ← of_res (proto_Unmarshal data desc);
    text ← of_res (pxf_Marshal "" msg);
    out (OutBytes text)).

Definition pxfValidateCmd (schema msgName : string) args : M (CtlState R) unit :=
  onMessage schema msgName args (λ desc data,
    of_res (pxf_UnmarshalDescriptor data desc) ;;
    out (OutText "valid")).

Definition pxfFmtCmd (schema msgName : string) args : M (CtlState R) unit :=
  onMessage schema msgName args (λ desc data,
    msg ← of_res (pxf_UnmarshalDescriptor data desc);
    text ← of_res (pxf_Marshal msgName msg);
    out (OutBytes text)).

End commands.
