(* ===== verification/CtlCommandsThms.v ===== *)
(** * Correctness of the commands

    The destructive commands act only with consent, and what the commands do when they
    talk to the modelled server. *)

From S2P Require Import Prelude GoStrings GoPath Descriptor Protobuf Compat Compiler Store Registry Auth.
From S2P Require Import Validate Server Paging GoDir Ctl CtlLoad CtlCommands.
From stdpp Require Import prelude gmap strings list.

Open Scope string_scope.
Open Scope list_scope.

Section consent.
Context `{Cobra, CtlOS, PXF} {R : Type} `{RegistryClient R}.
Context (defaultNS : option string).
Implicit Types (st : CtlState R).

(** The operator agreed: by the flag, or by typing yes at a terminal. *)
Definition consented (yes : bool) st : Prop :=
  yes = true ∨
  (ct_tty st = true ∧ ∃ input, ct_stdin st = Ok input ∧
     (ToLower (TrimSpace (firstLine input)) = "y" ∨ ToLower (TrimSpace (firstLine input)) = "yes")).

(** A program that leaves the server alone. *)
Definition offline {A} (m : M (CtlState R) A) : Prop := ∀ st, ct_srv (m st).2 = ct_srv st.


Lemma rangeArgs_run lo hi args st :
  rangeArgs lo hi args st = (Ok tt, st) ∨ rangeArgs lo hi args st = (Err (args_error args), st).
Proof. unfold rangeArgs. destruct (_ && _); [by left|by right]. Qed.

(** Confirming talks to the operator only, and says yes only with consent. *)
Lemma confirm_spec yes prompt st :
  let '(x, st') := confirm yes prompt st in
  ct_srv st' = ct_srv st ∧ (x = Ok true → consented yes st).
Proof.
  unfold confirm. destruct yes; [split; [done|by left]|]. unfold mbind, M_bind, gets. cbn.
  destruct (ct_tty st) eqn:Et; cbn; [|done].
  destruct (ct_stdin st) as [line|e] eqn:Ei; cbn; [|done].
  split; [done|]. intros [= Hb%bool_decide_eq_true]. right. eauto.
Qed.

Lemma ask_spec {A} yes prompt (f : bool → M (CtlState R) A) st :
  offline (f false) → ¬ consented yes st → ct_srv ((confirm yes prompt ≫= f) st).2 = ct_srv st.
Proof.
  intros Hf Hn. pose proof (confirm_spec yes prompt st) as Hc. unfold mbind, M_bind.
  destruct (confirm yes prompt st) as [[[]|e] st1]; destruct Hc as [Hs Hc]; cbn.
  - by destruct (Hn (Hc eq_refl)).
  - by rewrite Hf.
  - done.
Qed.

(** The commands that destroy staged work ask first: unless the operator passed [--yes] or
    answered yes at a terminal, [discard] and [rollback] do not touch the server, whatever
    their arguments are. *)
Theorem destructive_commands_ask yes promote force args st :
  ¬ consented yes st →
  ct_srv (discardCmd defaultNS yes args st).2 = ct_srv st ∧
  ct_srv (rollbackCmd defaultNS promote yes force args st).2 = ct_srv st.
Proof.
  intros Hn. split.
  - unfold discardCmd. unfold mbind at 1, M_bind at 1.
    destruct (rangeArgs_run 0 (Some 1%nat) args st) as [-> | ->]; [|done].
    unfold mbind at 1, M_bind at 1, of_res.
    destruct (resolveNamespace _ _ _) as [ns|e]; [|done]. by apply ask_spec.
  - unfold rollbackCmd. unfold mbind at 1, M_bind at 1.
    destruct (rangeArgs_run 2 (Some 3%nat) args st) as [-> | ->]; [|done].
    unfold mbind at 1, M_bind at 1, of_res.
    destruct (nsAndArgs _ _ _) as [[ns [|schemaID [|v l]]]|e]; [done|done| |done].
    unfold mbind at 1, M_bind at 1. destruct (scanUint v); [|done]. by apply ask_spec.
Qed.
End consent.

(** ** Commands on the modelled server *)

Section server_client.
Context `{Toolchain, ProtoTypes, ProtoNames, GoRange, CompilerVersion, DriverText} {S : Type}
  `{PagedStore S}.
#[local] Notation SS := (SState (S := S)).

(** The connection of the command line client to the server, as one identity. *)
Definition server_client (s : Server) (id : Identity) : RegistryClient SS := {|
  client_Publish req := Server_Publish s id req;
  client_Promote ns := Server_Promote s id ns;
  client_DiscardStaging ns := Server_DiscardStaging s id ns;
  client_Rollback ns schemaID version force := Server_Rollback s id ns schemaID version force;
  client_ListNamespaces size token := Server_ListNamespaces s id size token;
  client_CreateNamespace ns metadata := Server_CreateNamespace s id ns None metadata;
  client_ListSchemas ns size token := Server_ListSchemas s id ns size token;
  client_GetSchema ns schemaID := Server_GetSchema s id ns schemaID;
  client_GetSource ns schemaID version := Server_GetSource s id ns schemaID version;
  client_GetDescriptor ns schemaID version := Server_GetDescriptor s id ns schemaID version |}.

(** An identifier with a slash does not match the pattern of identifiers. *)
Lemma slash_not_id v field maxLen : IndexByte slash v ≠ None → validateID v field maxLen ≠ Ok tt.
Proof.
  intros Hs. unfold validateID. case_decide; [done|]. case_decide; [done|].
  enough (idPattern_MatchString v = false) as -> by done.
  assert (Hall : ∀ s, IndexByte slash s ≠ None → all_chars id_char s = false).
  { induction s as [|c s IH]; cbn; [done|]. case_decide as Ec; [subst; done|].
    intros Hi. rewrite IH; [by rewrite andb_false_r|]. by destruct (IndexByte slash s). }
  destruct v as [|c v]; [done|]. cbn in *. case_decide as Ec; [by subst|].
  rewrite Hall; [by rewrite andb_false_r|]. by destruct (IndexByte slash v).
Qed.

(** [load] publishes a file under its relative path, and the server rejects every schema
    identifier with a slash: a file of a subdirectory is never loaded. *)
Theorem nested_files_are_rejected (s : Server) id ns createdBy force p (st : SS) :
  IndexByte slash (pf_filename p) ≠ None →
  ∃ e st', @client_Publish SS _ _ (server_client s id) (loadRequest ns createdBy force p) st = (Err e, st') ∧
    st' = st.
Proof.
  intros Hs. cbn. unfold Server_Publish, mbind, M_bind, of_res. cbn.
  destruct (requireWriter s id) as [[]|e]; [|by eexists _, _].
  destruct (validateNamespaceID s ns) as [[]|e]; [|by eexists _, _].
  pose proof (slash_not_id (pf_filename p) "schema_id" (MaxIDLength (o_Limits (s_opts s))) Hs) as Hv.
  destruct (validateID _ _ _) as [[]|e]; [done|by eexists _, _].
Qed.
End server_client.
