(* ===== verification/CtlServe.v ===== *)
(** * Starting the server

    Models [runServe] of [src/internal/ctl/serve.go] up to the point where the server
    accepts calls: the flags, the migrations and the connection, the bootstrap of the
    built-ins, the restoration of the registry, and the construction of the authenticator
    and of the transport credentials; and what its end reports. *)

From S2P Require Import Prelude GoStrings Descriptor Protobuf Compat Compiler Store Registry Auth.
From S2P Require Import Validate Server GoDir Ctl.
From S2P Require Import ServerThms.
From stdpp Require Import prelude gmap strings list.

Open Scope string_scope.
Open Scope list_scope.

Record serveConfig := {
  sv_dbURL : string; sv_listenAddr : string; sv_builtInsDir : string; sv_migrate : bool;
  sv_tlsCert : string; sv_tlsKey : string; sv_tlsClientCA : string;
  sv_authTokensFile : string; sv_allowAnonymousWrites : bool;
  sv_maxRecvMsgSize : Z; sv_maxSendMsgSize : Z }.

(** The environment of the process: variables, files, and what opening the database,
    migrating it and listening on an address give. *)
Class ServeEnv := {
  env_var : string → string;
  env_tree : string → res FsNode;
  env_file : string → res string;
  env_sqlOpen : string → res unit;
  env_setDialect : string → res unit;
  env_gooseUp : string → res unit;
  env_newPool : string → res unit;
  env_ping : string → res unit;
  env_listen : string → res unit }.

(** The authenticator of the flags. *)
Definition buildAuthenticator `{ServeEnv} (cfg : serveConfig) : res Authenticator :=
  if decide (sv_authTokensFile cfg = "") then Ok NoAuth
  else
    match env_file (sv_authTokensFile cfg) with
    | Err e => Err (ErrWrap "opening auth tokens file" e)
    | Ok content =>
       match ParseTokenFile content with
       | Err e => Err (ErrWrap "parsing auth tokens file" e)
       | Ok tokens =>
          if decide (tokens = ∅) then Err (ErrNew "auth tokens file is empty")
          else Ok (TokenAuth tokens)
       end
    end.

(** [newTLSConfig] and [buildTLSCredentials]. *)
Definition buildTLSCredentials `{TLSFiles} (cfg : serveConfig) : res tlsConfig :=
  match loadX509KeyPair (sv_tlsCert cfg) (sv_tlsKey cfg) with
  | Err e => Err e
  | Ok cert =>
     let tls pool := {| tc_ServerName := ""; tc_InsecureSkipVerify := false; tc_RootCAs := None;
                        tc_Certificates := [cert]; tc_ClientCAs := pool;
                        tc_RequireClientCert := match pool with Some _ => true | None => false end |} in
     if decide (sv_tlsClientCA cfg = "") then Ok (tls None)
     else
       match loadCAPool (sv_tlsClientCA cfg) with
       | Err e => Err (ErrWrap "loading client CA" e)
       | Ok pool => Ok (tls (Some pool))
       end
  end.

(** The methods of the registered services: those of the registry service have one request and
    one response, the one of server reflection, in its two versions, is a stream. *)
Definition registryMethods : list string :=
  (λ m, "/protoregistry.v1.RegistryService/" +:+ m) <$>
  ["Publish"; "Promote"; "DiscardStaging"; "Rollback"; "GetSchema"; "ListSchemas"; "GetDescriptor";
   "GetSource"; "ListNamespaces"; "CreateNamespace"; "SetNamespaceParent"; "GetRebaseStatus";
   "Rebase"; "GetNamespaceChain"].
Definition reflectionMethods : list string :=
  ["/grpc.reflection.v1.ServerReflection/ServerReflectionInfo";
   "/grpc.reflection.v1alpha.ServerReflection/ServerReflectionInfo"].

(** A server that accepts calls: the gRPC server with its interceptor for unary calls, its
    methods, and the server of the registry service. *)
Record Serving `{TLSFiles} := {
  srv_server : Server; srv_auth : Authenticator; srv_tls : option tlsConfig;
  srv_maxRecv : Z; srv_maxSend : Z; srv_unary : list string; srv_streams : list string }.

Section Serve.
Context `{Toolchain, ProtoTypes, ProtoNames, GoRange, CompilerVersion} {S : Type} `{Store S}.
Context `{ServeEnv, TLSFiles}.
#[local] Notation RS := (RState (S := S)).

(** Publish the built-in files, one by one, and promote them. *)
Definition bootstrapBuiltIns (reg : RegistryConfig) (builtins : list DepSource) : M RS unit :=
  forM_ builtins (λ b,
    wrapM ("publishing built-in " +:+ ds_Filename b)
      (Publish reg {| pr_NamespaceID := BuiltinsNamespace; pr_SchemaID := "builtins";
                      pr_Sources := {[ ds_Filename b := ds_Source b ]};
                      pr_CreatedBy := "bootstrap"; pr_Metadata := None; pr_Force := false |}) ;;
    mret tt) ;;
  wrapM "promoting built-ins" (Promote reg BuiltinsNamespace) ;;
  mret tt.

Definition runServe (cfg : serveConfig) : M RS Serving :=
  let dbURL := if decide (sv_dbURL cfg = "") then env_var "DATABASE_URL" else sv_dbURL cfg in
  if decide (dbURL = "") then fail (ErrNew "--db flag or DATABASE_URL env var is required")
  else if decide ((sv_tlsCert cfg ≠ "" ∧ sv_tlsKey cfg = "") ∨ (sv_tlsCert cfg = "" ∧ sv_tlsKey cfg ≠ ""))
  then fail (ErrNew "--tls-cert and --tls-key must be specified together")
  else
    (if sv_migrate cfg then
       wrapM "opening sql connection for migrations" (of_res (env_sqlOpen dbURL)) ;;
       wrapM "setting goose dialect" (of_res (env_setDialect "postgres")) ;;
       wrapM "running migrations" (of_res (env_gooseUp dbURL))
     else mret tt) ;;
    wrapM "creating connection pool" (of_res (env_newPool dbURL)) ;;
    wrapM "pinging database" (of_res (env_ping dbURL)) ;;
    let reg := NewRegistry [] in
    (if decide (sv_builtInsDir cfg = "") then mret tt
     else
       builtins ← wrapM ("loading built-ins from " +:+ sv_builtInsDir cfg)
         (of_res (LoadBuiltIns (sv_builtInsDir cfg) (env_tree (sv_builtInsDir cfg))));
       bootstrapBuiltIns reg builtins) ;;
    wrapM "restoring registry" (Restore reg) ;;
    auth ← wrapM "building authenticator" (of_res (buildAuthenticator cfg));
    tls ← (if decide (sv_tlsCert cfg = "") then mret None
           else
             t ← wrapM "building TLS credentials" (of_res (buildTLSCredentials cfg));
             mret (Some t));
    let server := NewServer reg [WithAuth auth;
                                 WithAllowAnonymousWrites (sv_allowAnonymousWrites cfg)] in
    wrapM ("listening on " +:+ sv_listenAddr cfg) (of_res (env_listen (sv_listenAddr cfg))) ;;
    mret {| srv_server := server; srv_auth := auth; srv_tls := tls;
            srv_maxRecv := sv_maxRecvMsgSize cfg; srv_maxSend := sv_maxSendMsgSize cfg;
            srv_unary := registryMethods; srv_streams := reflectionMethods |}.

(** What ends a server that accepts calls: a signal, after which the calls in progress are
    finished and the process ends normally, or the return of [grpcServer.Serve]. *)
Inductive serveEvent := Interrupted | ServeReturned (err : option error).

Definition awaitServe (ev : serveEvent) : res unit :=
  match ev with
  | Interrupted => Ok tt
  | ServeReturned (Some e) => Err (ErrWrap "gRPC server error" e)
  | ServeReturned None => Err (ErrNew "gRPC server error: %!w(<nil>)")
  end.

(** A call of a method: a unary call passes the interceptor, which hands the identity to the
    handler; a stream goes to its handler directly, since no interceptor for streams is
    installed; a method of no registered service is refused. The handler of the streams
    belongs to the reflection package. *)
Definition serveCall {T A} (sv : Serving) (md : Metadata) (method : string)
    (handler : Server → Identity → M T A) (stream : M T A) : M T A :=
  if decide (method ∈ srv_unary sv) then
    UnaryAuthInterceptor (srv_auth sv) md method (handler (srv_server sv))
  else if decide (method ∈ srv_streams sv) then stream
  else fail (ErrStatus Unimplemented ("unknown method " +:+ method)).
End Serve.

(** ** Correctness of the start of the server

    The server a successful start gives enforces the flags it was started with. *)

(** The token file gives the identity to the bearer of these headers. *)
Definition granted (content : string) (md : Metadata) (id : Identity) : Prop :=
  ∃ headers t rest line, md = Some headers ∧
    headers !! "authorization" = Some (("Bearer " +:+ t) :: rest) ∧
    line ∈ Split content newline ∧ grants line t id.

Section serve.
Context `{Toolchain, ProtoTypes, ProtoNames, GoRange, CompilerVersion, DriverText} {S : Type} `{Store S}.
Context `{ServeEnv, TLSFiles}.
#[local] Notation RS := (RState (S := S)).

Lemma wrapM_Ok {T A} (c : string) (m : M T A) s a s' : wrapM c m s = (Ok a, s') → m s = (Ok a, s').
Proof. unfold wrapM. destruct (m s) as [[] ?]; cbn; congruence. Qed.

(** What a successful start built. *)
Lemma runServe_built cfg (st : RS) sv st' :
  runServe cfg st = (Ok sv, st') →
  buildAuthenticator cfg = Ok (srv_auth sv) ∧
  srv_server sv = NewServer (NewRegistry [])
    [WithAuth (srv_auth sv); WithAllowAnonymousWrites (sv_allowAnonymousWrites cfg)] ∧
  (is_Some (srv_tls sv) ↔ sv_tlsCert cfg ≠ "") ∧
  srv_unary sv = registryMethods ∧ srv_streams sv = reflectionMethods.
Proof.
  unfold runServe. cbv zeta. generalize (if decide (sv_dbURL cfg = "") then env_var "DATABASE_URL" else sv_dbURL cfg) as db.
  intros db. case_decide; [done|]. case_decide; [done|]. intros E.
  do 5 apply M_bind_Ok in E as (? & ? & _ & E).
  apply M_bind_Ok in E as (auth & ? & Ea%wrapM_Ok & E). injection Ea as Ea <-.
  apply M_bind_Ok in E as (tls & ? & Et & E). apply M_bind_Ok in E as (? & ? & _ & [= <- _]). cbn.
  split_and!; [done|done| |done|done]. case_decide.
  - injection Et as <- _. split; [by intros []|done].
  - apply M_bind_Ok in Et as (t & ? & _ & [= <- _]). split; [done|by eexists].
Qed.

(** No method is both. *)
Lemma stream_not_unary m : m ∈ reflectionMethods → m ∉ registryMethods.
Proof.
  intros Hm Hu. assert (Hd : forallb (λ m, bool_decide (m ∉ registryMethods)) reflectionMethods = true)
    by (vm_compute; reflexivity).
  rewrite forallb_forall in Hd. by apply (bool_decide_eq_true_1 _ (Hd m (proj1 (list_elem_of_In _ _) Hm))).
Qed.

(** C16. A server started with a token file runs the handler of a method of the registry
    service exactly when the call carries a token of the file, and as the identity the file
    gives that token; every other such call is refused as unauthenticated without reaching
    the handler. The streams of server reflection are outside of this: they are answered
    whatever the call carries, because only unary calls are intercepted. A method of no
    registered service is refused. *)
Theorem serve_authenticates cfg (st : RS) sv st' content {T A}
    (handler : Server → Identity → M T A) (stream : M T A) md m (t : T) :
  runServe cfg st = (Ok sv, st') → sv_authTokensFile cfg ≠ "" →
  env_file (sv_authTokensFile cfg) = Ok content →
  (m ∈ registryMethods →
    (∀ id, granted content md id ↔ srv_auth sv md m = Ok id) ∧
    match srv_auth sv md m with
    | Ok id => serveCall sv md m handler stream t = handler (srv_server sv) id t
    | Err e => serveCall sv md m handler stream t = (Err e, t) ∧ ∃ msg, e = ErrStatus Unauthenticated msg
    end) ∧
  (m ∈ reflectionMethods → serveCall sv md m handler stream t = stream t) ∧
  (m ∉ registryMethods → m ∉ reflectionMethods →
    ∃ msg, serveCall sv md m handler stream t = (Err (ErrStatus Unimplemented msg), t)).
Proof.
  intros (Ha & _ & _ & Hu & Hst)%runServe_built Hf Hc. unfold buildAuthenticator in Ha.
  rewrite decide_False, Hc in Ha by done.
  destruct (ParseTokenFile content) as [tokens|] eqn:Ep; [|done]. case_decide; [done|].
  injection Ha as Ha. unfold serveCall. rewrite Hu, Hst. split_and!.
  - intros Hm. rewrite decide_True by done. unfold UnaryAuthInterceptor. rewrite <-Ha. split.
    + intros id. rewrite (token_file_authenticates content tokens) by done. done.
    + unfold mbind, M_bind, of_res.
      destruct (TokenAuth tokens md m) as [id|e] eqn:Et; [done|]. split; [done|].
      unfold TokenAuth, unauthenticated in Et. repeat case_match; simplify_eq; by eexists.
  - intros Hm. rewrite decide_False by by apply stream_not_unary. by rewrite decide_True.
  - intros Hn Hr. rewrite !decide_False by done. by eexists.
Qed.

(** A server started without a token file and with anonymous writes switched off refuses
    every call that writes. *)
Theorem serve_readonly cfg (st : RS) sv st' md m rpc stream (t : SState (S := S)) :
  runServe cfg st = (Ok sv, st') → sv_authTokensFile cfg = "" →
  sv_allowAnonymousWrites cfg = false → m ∈ registryMethods →
  serveCall sv md m (λ s id, write_rpc s id rpc) stream t
    = (Err (ErrStatus PermissionDenied "write operations require authentication"), t).
Proof.
  intros (Ha & Hs & _ & Hu & _)%runServe_built Hf Hw Hm. unfold buildAuthenticator in Ha.
  rewrite decide_True in Ha by done. injection Ha as Ha. unfold serveCall, UnaryAuthInterceptor.
  rewrite Hu, decide_True, Hs, <-Ha, Hw by done. unfold mbind at 1, M_bind at 1, of_res, NoAuth.
  destruct rpc; done.
Qed.
End serve.
