(* ===== verification/ClientExamples.v ===== *)
(** * Runs of the client

    A reference descriptor library, a small registry to connect to, a clock and temporary
    names, and at them the witnesses of the theorems on the client. *)

From S2P Require Import Prelude GoProg GoStrings Descriptor Protobuf NsFiles NsTypes NsFilesThms.
From S2P Require Import ClientSnapshot ClientSnapshotThms ClientAggregate Server GoPath GoFS.
From S2P Require Import GoJSONThms Client ClientManifest ClientCache ClientRefresh ClientRefreshThms.
From S2P Require Import ClientLookupThms ClientPopulateThms ClientCacheThms.
From stdpp Require Import prelude gmap strings list pretty.

Open Scope string_scope.
Open Scope list_scope.

(** ** Evaluating programs *)

Definition okP {S A} (x : outcome (res A * S)) : bool :=
  match x with Returns (Ok _, _) => true | _ => false end.
Definition valueP {S A} (d : A) (x : outcome (res A * S)) : A :=
  match x with Returns (Ok a, _) => a | _ => d end.
Definition stateP {S A} (s : S) (x : outcome (res A * S)) : S :=
  match x with Returns (_, s) => s | _ => s end.
Definition panicsP {S A} (x : outcome (res A * S)) : bool :=
  match x with Panics => true | _ => false end.

(** A program that succeeds, as an equation, without evaluating its result. *)
Lemma run_okP {S A} (d : A) (m : Prog S A) (s : S) :
  okP (m s) = true → m s = Returns (Ok (valueP d (m s)), stateP s (m s)).
Proof. by destruct (m s) as [[[] ?]|]. Qed.

(** ** Deciding the conditions on files *)

Section decide.
Context `{Protoreflect, ProtoTypes, GoRange, Protodesc}.

(** The conditions of [coherent], as bounded quantifications. *)
Definition coherent_cond (L : list FileDescriptor) : Prop :=
  NoDup (file_Path <$> L) ∧
  Forall (λ f, NoDup (topLevelNames f) ∧
    Forall (λ n, n ≠ "" ∧ n ∉ pkgChain (file_Package f)) (topLevelNames f)) L ∧
  distinct_types (flat_map fileTypes L) ∧
  Forall (λ f, Forall (λ g, file_Path f = file_Path g ∨
    Forall (λ n, n ∉ topLevelNames g ∧ n ∉ pkgChain (file_Package g)) (topLevelNames f)) L) L.
#[global] Instance coherent_cond_dec L : Decision (coherent_cond L).
Proof. unfold coherent_cond, distinct_types. apply _. Defined.

Lemma coherent_check L : bool_decide (coherent_cond L) = true → coherent L.
Proof.
  intros (Hp & Hf & Ht & Ha)%bool_decide_eq_true. rewrite Forall_forall in Hf, Ha. split; [done| |done|].
  - intros f Hin. destruct (Hf f Hin) as [Hn Hx]. rewrite Forall_forall in Hx. by split.
  - intros f g Hif Hig Hne. specialize (Ha f Hif). rewrite Forall_forall in Ha.
    destruct (Ha g Hig) as [|Hx]; [done|]. by rewrite Forall_forall in Hx.
Qed.

Lemma distinct_check s :
  bool_decide (map_Forall (λ _ ss, NoDup (schemaNames ss)) (sn_schemas s)) = true → distinct_names s.
Proof. intros Hm%bool_decide_eq_true. exact Hm. Qed.

(** The empty resolver. *)
Lemma resolver_rep_new : resolver_rep newAgg newSnapshot.
Proof.
  split.
  - intros id ss. cbn. by rewrite lookup_empty.
  - unfold snapFiles. cbn. assert (Hr : go_range (∅ : gmap string schemaSnapshot) = []).
    { apply Permutation_nil_r. by rewrite go_range_perm, map_to_list_empty. }
    rewrite Hr. split; cbn; try apply NoDup_nil_2; try set_solver. split; apply NoDup_nil_2.
  - unfold snapFiles. cbn. assert (Hr : go_range (∅ : gmap string schemaSnapshot) = []).
    { apply Permutation_nil_r. by rewrite go_range_perm, map_to_list_empty. }
    rewrite Hr. apply agg_rep_new.
  - intros n id. unfold declares. cbn. by rewrite !lookup_empty.
Qed.
End decide.

(** ** The reference library

    A descriptor in serialised form is the name of a file; the file declares one message
    of that name. *)

Definition named_file (name : string) : FileDescriptor :=
  File name "" [] [Message name name [] [] [] [] []] [] [] [].

#[local] Existing Instance path_files.

Definition named_NewFiles (l : list string) : res (gmap string FileDescriptor) :=
  foldM (λ fs name, if decide (name = "") then Err (ErrNew "empty name")
                    else @Files_RegisterFile path_files fs (named_file name)) ∅ l.

(** A list of names as a text, each name ended by a new line. *)
Definition names_text (l : list string) : string :=
  foldr (λ n b, n +:+ String newline b) "" l.
Fixpoint text_names (cur s : string) : list string :=
  match s with
  | EmptyString => []
  | String c s => if decide (c = newline) then cur :: text_names "" s
                  else text_names (cur +:+ String c "") s
  end.

Lemma text_names_text l : Forall (no_byte newline) l → text_names "" (names_text l) = l.
Proof.
  assert (Hn : ∀ n cur rest, no_byte newline n →
    text_names cur (n +:+ String newline rest) = (cur +:+ n) :: text_names "" rest).
  { induction n as [|c n IH]; intros cur rest Hb.
    - rewrite str_app_nil_l, str_app_nil_r. cbn. by rewrite decide_True.
    - rewrite str_app_cons. cbn. unfold no_byte in Hb. cbn in Hb. case_decide; [done|].
      rewrite IH; [|unfold no_byte; by destruct (IndexByte newline n)].
      by rewrite str_app_assoc. }
  induction 1 as [|n l Hb Hl IH]; [done|].
  change (names_text (n :: l)) with (n +:+ String newline (names_text l)).
  by rewrite Hn, IH, str_app_nil_l.
Qed.

Definition named_desc : @Protodesc path_files := {|
  FileDescriptorProto := string;
  ToFileDescriptorProto fd := file_Path fd;
  fdp_Name n := n;
  NewFiles := named_NewFiles;
  Marshal l := if decide (Forall (no_byte newline) l) then Ok (names_text l)
               else Err (ErrNew "new line in a name");
  Unmarshal b := Ok (text_names "" b) |}.

Lemma named_NewFiles_files l fs p f :
  named_NewFiles l = Ok fs → fs !! p = Some f → ∃ name, name ≠ "" ∧ f = named_file name.
Proof.
  unfold named_NewFiles. intros E. revert p f.
  enough (Hg : ∀ l (acc : gmap string FileDescriptor),
    (∀ p f, acc !! p = Some f → ∃ name, name ≠ "" ∧ f = named_file name) →
    foldM (λ fs name, if decide (name = "") then Err (ErrNew "empty name")
      else @Files_RegisterFile path_files fs (named_file name)) acc l = Ok fs →
    ∀ p f, fs !! p = Some f → ∃ name, name ≠ "" ∧ f = named_file name).
  { apply (Hg l ∅); [|done]. intros p f. by rewrite lookup_empty. }
  clear. induction l as [|x l IH]; intros acc Hacc; cbn; [by intros [= <-]|].
  case_decide; [done|]. cbn. destruct (acc !! x); [done|]. apply IH. intros p f.
  rewrite lookup_insert_Some. intros [[<- <-]|[_ ?]]; eauto.
Qed.

#[local] Existing Instance dotted.
#[local] Existing Instance name_types.
#[local] Existing Instance named_desc.
#[local] Existing Instance range_default.

Lemma named_laws : ProtodescLaws.
Proof.
  split.
  - intros fds fs f E Hf. apply path_files_range in Hf.
    destruct (named_NewFiles_files _ _ _ _ E Hf) as (name & Hn & ->). split.
    + apply NoDup_singleton.
    + intros n ->%list_elem_of_singleton. split; [done|]. by intros ?%elem_of_nil.
  - intros fs. apply (NoDup_fmap_1 file_Path). cbn.
    assert (Hm : ∀ l : list (string * FileDescriptor), NoDup l.*1 →
      NoDup (file_Path <$> (filter (λ kv, file_Path kv.2 = kv.1) l).*2)).
    { induction l as [|[k v] l IH]; intros Hnd; [apply NoDup_nil_2|].
      cbn in Hnd. apply NoDup_cons in Hnd as [Hk Hnd]. rewrite filter_cons. case_decide as Hv; [|by apply IH].
      cbn. apply NoDup_cons. split; [|by apply IH]. cbn in Hv. rewrite Hv.
      intros (x & -> & (y & -> & [Hy Hin]%list_elem_of_filter)%list_elem_of_fmap)%list_elem_of_fmap.
      apply Hk. rewrite Hy. by apply list_elem_of_fmap_2. }
    apply Hm, NoDup_fst_map_to_list.
Qed.

#[local] Existing Instance path_files_laws.
#[local] Existing Instance named_laws.

(** ** The outside world *)

(** A registry: for each namespace the schemas, with their current version and their files,
    and the chain of namespaces. It answers in one page. *)
Record Tiny := {
  ty_schemas : gmap string (list (string * Z * list string));
  ty_chains : gmap string (list string) }.

Definition tiny_info (ns : string) (x : string * Z * list string) : SchemaInfo :=
  {| si_NamespaceId := ns; si_SchemaId := x.1.1; si_CreatedAt := 0; si_Metadata := None;
     si_Versions := []; si_CurrentVersion := Some x.1.2; si_StagedVersion := None |}.

Definition tiny_conn : RegistryConn Tiny := {|
  grpc_NewClient _ _ _ := mret 0%nat;
  conn_Close _ := mret tt;
  rpc_ListSchemas _ ns _ := λ t, (Ok (tiny_info ns <$> default [] (ty_schemas t !! ns), ""), t);
  rpc_GetDescriptor _ ns id v := λ t,
    (match list_find (λ x, x.1.1 = id) (default [] (ty_schemas t !! ns)) with
     | Some (_, x) => Ok (x.1.2, x.2)
     | None => Err (ErrSentinel NotFound)
     end, t);
  rpc_GetSource _ ns id v := λ t,
    (match list_find (λ x, x.1.1 = id) (default [] (ty_schemas t !! ns)) with
     | Some (_, x) => Ok (x.1.2, list_to_map ((λ f, (f, "source of " +:+ f)) <$> x.2))
     | None => Err (ErrSentinel NotFound)
     end, t);
  rpc_GetNamespaceChain _ ns := λ t,
    (match ty_chains t !! ns with Some c => Ok c | None => Err (ErrSentinel NotFound) end, t) |}.
#[local] Existing Instance tiny_conn.

#[local] Instance fixed_clock : Clock Tiny := λ t, ("2026-01-02T03:04:05Z", t).
#[local] Instance any_time : TimeText := λ s, bool_decide (String.length s = 20%nat).

(** A temporary name longer than every name there is. *)
Definition longest (files : gmap string string) : nat :=
  max_list (String.length <$> (map_to_list files).*1).
Fixpoint zeros (n : nat) : string :=
  match n with O => "0" | S n => String (Ascii.ascii_of_nat 48) (zeros n) end.

Lemma longest_le (files : gmap string string) k b : files !! k = Some b → (String.length k ≤ longest files)%nat.
Proof.
  intros Hk. apply max_list_elem_of_le, list_elem_of_fmap_2, list_elem_of_fmap.
  exists (k, b). split; [done|]. by apply elem_of_map_to_list.
Qed.

Lemma length_zeros n : String.length (zeros n) = S n.
Proof. induction n as [|n IH]; cbn; [done|]. by rewrite IH. Qed.

#[local] Instance long_names : TempNames.
Proof.
  refine {| temp_random files _ _ := zeros (longest files) |}.
  intros files pre suf. apply eq_None_not_Some. intros [b Hb%longest_le].
  rewrite !length_str_app, length_zeros in Hb. lia.
Defined.

(** A client of namespace [app] that has not fetched anything. *)
Definition cfg0 : config := apply_options [WithDiskCache "/cache"].
Definition r0 : Resolver := {|
  r_conn := Some 0%nat; r_ownsConn := false; r_rpc := Some 0%nat; r_ns := "app";
  r_cfg := cfg0; r_snapshot := Some newSnapshot; r_agg := newAgg; r_running := false;
  r_ancestors := []; r_fromCache := false |}.
Definition tiny : Tiny := {|
  ty_schemas := {[ "app" := [("users", 3%Z, ["user"; "group"]); ("orders", 1%Z, ["order"])];
                   "mid" := [("users", 1%Z, ["account"; "badge"])]; "root" := [("users", 2%Z, ["account"])] ]};
  ty_chains := {[ "app" := ["app"; "mid"; "root"] ]} |}.
Definition disk0 : FileSystem := {| fs_files := ∅; fs_dirs := ∅; fs_faults := [] |}.
Definition w0 : World Tiny := {| w_srv := tiny; w_heap := [r0]; w_fs := disk0; w_log := [] |}.

Lemma heap_ok_w0 : heap_ok (w_heap w0).
Proof. intros i r a Hr Ha. destruct i as [|i]; cbn in Hr; [|by destruct i]. injection Hr as <-. by apply elem_of_nil in Ha. Qed.

Example refresh_runs : okP (Refresh 2 0 w0) = true.
Proof. vm_compute. reflexivity. Qed.

Definition fetch0 : Prog (World Tiny) (list SchemaInfo * scan) := fetchTarget 2 r0 (Some newSnapshot).
Definition target0 : list SchemaInfo * scan := valueP ([], scan_empty) (fetch0 w0).

(** Two schemas that declare the message of their common import. *)
Definition clashing : Tiny := {|
  ty_schemas := {[ "app" := [("orders", 1%Z, ["common"; "order"]); ("users", 1%Z, ["common"; "user"])] ]};
  ty_chains := ∅ |}.
Definition w0c : World Tiny := {| w_srv := clashing; w_heap := [r0]; w_fs := disk0; w_log := [] |}.
Definition target0c : list SchemaInfo * scan := valueP ([], scan_empty) (fetch0 w0c).

(** The refresh of the empty resolver succeeds and holds the two schemas; at a registry whose
    schemas clash it fails and changes nothing. *)
Lemma Refresh_refines_witness :
  (∃ x w', Refresh 2 0 w0 = Returns (x, w') ∧
    refreshed (w_heap w0) 0 r0 newSnapshot target0.1 (sc_next target0.2) x (w_heap w')) ∧
  ∃ e w', Refresh 2 0 w0c = Returns (Err e, w') ∧ w_heap w' = w_heap w0c.
Proof.
  split.
  - pose proof (Refresh_refines 2 0 w0 r0 newSnapshot eq_refl eq_refl eq_refl heap_ok_w0 resolver_rep_new) as H.
    change (fetchTarget 2 r0 (Some newSnapshot)) with fetch0 in H.
    rewrite (run_okP ([], scan_empty) fetch0 w0) in H by (vm_compute; reflexivity).
    fold target0 in H. destruct target0 as [infos sc] eqn:E. apply H.
    + assert (Hd : bool_decide (NoDup (si_SchemaId <$> target0.1)) = true) by (vm_compute; reflexivity).
      rewrite E in Hd. exact (bool_decide_eq_true_1 _ Hd).
    + intros _. assert (Hd : bool_decide (coherent_cond (snapFiles (sc_next target0.2))) = true)
        by (vm_compute; reflexivity).
      rewrite E in Hd. exact (coherent_check _ Hd).
    + assert (Hd : bool_decide (map_Forall (λ _ ss, NoDup (schemaNames ss))
        (sn_schemas (sc_next target0.2))) = true) by (vm_compute; reflexivity).
      rewrite E in Hd. exact (distinct_check _ Hd).
  - pose proof (Refresh_refines 2 0 w0c r0 newSnapshot eq_refl eq_refl eq_refl heap_ok_w0 resolver_rep_new) as H.
    change (fetchTarget 2 r0 (Some newSnapshot)) with fetch0 in H.
    rewrite (run_okP ([], scan_empty) fetch0 w0c) in H by (vm_compute; reflexivity).
    fold target0c in H.
    assert (Hclash : ¬ unambiguous (sc_next target0c.2)).
    { assert (H1 : bool_decide (declares (sc_next target0c.2) "common" "orders") = true)
        by (vm_compute; reflexivity).
      assert (H2 : bool_decide (declares (sc_next target0c.2) "common" "users") = true)
        by (vm_compute; reflexivity).
      intros Hun. specialize (Hun "common" "orders" "users" (bool_decide_eq_true_1 _ H1)
        (bool_decide_eq_true_1 _ H2)). discriminate Hun. }
    destruct target0c as [infos sc] eqn:E. destruct H as (x & w' & Er & Hx).
    + assert (Hd : bool_decide (NoDup (si_SchemaId <$> target0c.1)) = true) by (vm_compute; reflexivity).
      rewrite E in Hd. exact (bool_decide_eq_true_1 _ Hd).
    + intros Hun. destruct (Hclash Hun).
    + assert (Hd : bool_decide (map_Forall (λ _ ss, NoDup (schemaNames ss))
        (sn_schemas (sc_next target0c.2))) = true) by (vm_compute; reflexivity).
      rewrite E in Hd. exact (distinct_check _ Hd).
    + destruct x as [[]|e]; [destruct Hx as [Hun _]; destruct (Hclash Hun)|].
      exists e, w'. split; [exact Er|exact (proj1 Hx)].
Defined.

(** ** A populated resolver *)

Definition rN : Resolver := {|
  r_conn := Some 0%nat; r_ownsConn := false; r_rpc := Some 0%nat; r_ns := "app";
  r_cfg := cfg0; r_snapshot := None; r_agg := newAgg; r_running := false;
  r_ancestors := []; r_fromCache := false |}.
Definition wN : World Tiny := {| w_srv := tiny; w_heap := [rN]; w_fs := disk0; w_log := [] |}.

Definition fetchN : Prog (World Tiny) (list SchemaInfo * nsSnapshot) := fetchAll 2 rN.
Definition listN : list SchemaInfo := (valueP ([], newSnapshot) (fetchN wN)).1.
Definition snapN : nsSnapshot := (valueP ([], newSnapshot) (fetchN wN)).2.

Lemma fetchN_run : fetchN wN = Returns (Ok (listN, snapN), stateP wN (fetchN wN)).
Proof.
  unfold listN, snapN. rewrite <-surjective_pairing. apply run_okP. vm_compute. reflexivity.
Qed.

Lemma listN_NoDup : NoDup (si_SchemaId <$> listN).
Proof. refine (bool_decide_eq_true_1 _ _). vm_compute. reflexivity. Qed.
Lemma snapN_coherent : coherent (snapFiles snapN).
Proof. apply coherent_check. vm_compute. reflexivity. Qed.
Lemma snapN_distinct : distinct_names snapN.
Proof. apply distinct_check. vm_compute. reflexivity. Qed.
Lemma snapN_building : building snapN.
Proof. exact (proj1 (fetchAll_inv 2 rN wN listN snapN _ fetchN_run listN_NoDup)). Qed.

(** The resolver after its construction. *)
Lemma populated : ∃ p s, resolver_rep p s ∧ sn_schemas s = sn_schemas snapN.
Proof.
  pose proof (installSnapshot_run 0 wN rN snapN eq_refl eq_refl snapN_building) as H.
  destruct (H snapN_coherent snapN_distinct) as (x & w' & E & Hx).
  assert (Hok : okP (installSnapshot (R := Tiny) 0 snapN wN) = true) by (vm_compute; reflexivity).
  rewrite E in Hok. destruct x as [u|e]; [|discriminate Hok]. destruct Hx as (p & s & _ & Hrep & Hs). exact (ex_intro _ p (ex_intro _ s (conj Hrep Hs))).
Qed.

Lemma populate_exact_witness :
  matches_listing rN newSnapshot listN snapN ∧
  ∃ x w', Client.populate 2 0 wN = Returns (x, w') ∧ installed (w_heap wN) 0 rN snapN x (w_heap w').
Proof.
  pose proof (populate_exact 2 0 wN rN eq_refl eq_refl) as H.
  change (fetchAll 2 rN) with fetchN in H. rewrite fetchN_run in H.
  exact (H listN_NoDup snapN_coherent snapN_distinct).
Defined.

Definition pins : gmap string Z := {[ "users" := 3%Z ]}.
Definition pinN : Prog (World Tiny) nsSnapshot :=
  foldP (pinSchema (pinnedResolver rN)) newSnapshot (go_range pins).
Definition snapP : nsSnapshot := valueP newSnapshot (pinN (with_object wN (pinnedResolver rN))).

Lemma Pin_exact_witness :
  holds_versions (R := Tiny) (pinnedResolver rN) pins snapP ∧
  ∃ j w', Pin 0 pins wN = Returns (Ok j, w') ∧ j = 1%nat.
Proof.
  assert (Hv : pins ≠ ∅) by discriminate.
  pose proof (Pin_exact 0 wN rN pins eq_refl Hv) as H. cbv zeta in H.
  change (foldP (pinSchema (pinnedResolver rN)) newSnapshot (go_range pins)) with pinN in H.
  rewrite (run_okP newSnapshot pinN (with_object wN (pinnedResolver rN))) in H by (vm_compute; reflexivity).
  destruct H as [Hh Hp]. fold snapP in Hh, Hp. split; [exact Hh|].
  destruct Hp as (x & w' & E & Hx).
  - apply coherent_check. vm_compute. reflexivity.
  - apply distinct_check. vm_compute. reflexivity.
  - assert (Hok : okP (Pin 0 pins wN) = true) by (vm_compute; reflexivity).
    rewrite E in Hok. destruct x as [j|e]; [|discriminate Hok]. exists j, w'. split; [exact E|apply Hx].
Defined.

Lemma Resolver_lookups_witness :
  ∃ p s, resolver_rep p s ∧
    Resolver_FindMessageByURL [] (set_snapshot s (set_agg p rN)) "type.googleapis.com/order"
      = Ok (Message "order" "order" [] [] [] [] []).
Proof.
  destruct populated as (p & s & Hrep & Hs). exists p, s. split; [exact Hrep|].
  destruct (Resolver_lookups [] (set_snapshot s (set_agg p rN)) s "order" "" 0 "" eq_refl Hrep)
    as (Hm & _). rewrite (Hm "type.googleapis.com/order" (or_intror (ex_intro _ "type.googleapis.com" eq_refl)) eq_refl).
  unfold snapTypes, snapFiles. rewrite Hs.
  assert (E : typeNamed (snapTypes snapN) "order" = Some (TMessage (Message "order" "order" [] [] [] [] [])))
    by (vm_compute; reflexivity).
  unfold snapTypes, snapFiles in E. rewrite E. reflexivity.
Defined.

(** ** The disk cache *)

Lemma atomicWrite_atomic_witness :
  (atomicWrite (filepath_Join ["/cache"; "f"]) "data"
     {| fs_files := ∅; fs_dirs := {[ "/cache" ]}; fs_faults := [] |}).1 = Ok tt.
Proof.
  pose proof (atomicWrite_atomic "/cache" "f" "data"
    {| fs_files := ∅; fs_dirs := {[ "/cache" ]}; fs_faults := [] |}) as H. cbv zeta in H.
  assert (H1 : "/cache" ≠ "") by discriminate.
  assert (H2 : plain_seg "f") by (repeat split; discriminate).
  specialize (H H1 H2 eq_refl). destruct (atomicWrite _ _ _) as [x s']. destruct H as [_ H].
  apply H; [reflexivity|]. refine (bool_decide_eq_true_1 _ _). vm_compute. reflexivity.
Defined.

Definition plain_idsb (s : nsSnapshot) : bool :=
  bool_decide (map_Forall (λ id _, IndexByte slash id = None) (sn_schemas s)).
Lemma plain_check s : plain_idsb s = true → plain_ids s.
Proof. intros Hm%bool_decide_eq_true id [ss Hss]. exact (Hm id ss Hss). Qed.

Lemma snapN_plain : plain_ids snapN.
Proof. apply plain_check. vm_compute. reflexivity. Qed.

Lemma persist_manifest_last_witness :
  ∃ w' b, persistOwn rN [] snapN wN = Returns (Ok tt, w') ∧
    fs_files (w_fs w') !! manifestPath "/cache/app" = Some b.
Proof.
  assert (H1 : cfg_cacheDir (r_cfg rN) ≠ "") by discriminate.
  assert (H2 : r_ns rN ≠ "") by discriminate.
  destruct (persist_manifest_last rN [] snapN wN H1 H2 snapN_plain) as (x & w' & E & Hok & Hx).
  specialize (Hok eq_refl eq_refl). subst x. destruct Hx as (b & _ & Hb & _).
  exists w', b. split; [exact E|]. exact Hb.
Defined.

(** The views of the snapshot recompile. *)
Lemma named_decode fds b : Marshal fds = Ok b → Unmarshal b = Ok fds.
Proof. cbn. case_decide; [|done]. intros [= <-]. by rewrite text_names_text. Qed.

Lemma snapN_recompiles : recompiles "app" snapN.
Proof.
  assert (Hr : map_Forall (λ _ ss, ss_rawDescriptorSet ss ≠ "") (sn_schemas snapN)).
  { refine (bool_decide_eq_true_1 _ _). vm_compute. reflexivity. }
  destruct (fetchAll_inv 2 rN wN listN snapN _ fetchN_run listN_NoDup) as [_ [Hl Hd]].
  intros id ss Hss. split; [exact (Hr id ss Hss)|].
  destruct (Hd id (ex_intro _ ss Hss)) as (info & Hi & Hid & v & Hv).
  destruct (Hl info v Hi Hv) as (ss' & Hss' & Hcur). rewrite Hid, Hss in Hss'. injection Hss' as <-.
  destruct Hcur as [[Hx _]|(w & w' & E)]; [discriminate Hx|]. rewrite Hid in E.
  exact (fetched_recompiles rN id v w ss w' named_decode E).
Qed.

(** The resolver persisted and loaded back. *)
Definition rP (p : regPair) (s : nsSnapshot) : Resolver := set_snapshot s (set_agg p rN).
Definition wP (p : regPair) (s : nsSnapshot) : World Tiny :=
  {| w_srv := tiny; w_heap := [rP p s]; w_fs := disk0; w_log := [] |}.

Lemma same_schemas s : sn_schemas s = sn_schemas snapN →
  distinct_names s ∧ recompiles "app" s ∧ plain_ids s ∧ sn_schemas s ≠ ∅ ∧
  entries s (sortedIDs s) = entries snapN (sortedIDs snapN).
Proof.
  intros Hs. unfold distinct_names, recompiles, plain_ids, entries, cached, sortedIDs. rewrite Hs.
  refine (conj snapN_distinct (conj snapN_recompiles (conj snapN_plain (conj _ eq_refl)))).
  assert (Hne : bool_decide (sn_schemas snapN !! "users" = None) = false) by (vm_compute; reflexivity).
  intros He. rewrite He in Hne. discriminate Hne.
Qed.

Lemma snapN_entries : entries snapN (sortedIDs snapN) =
  [{| csm_SchemaID := "orders"; csm_Version := 1; csm_File := "orders@1.pb" |};
   {| csm_SchemaID := "users"; csm_Version := 3; csm_File := "users@3.pb" |}].
Proof. vm_compute. reflexivity. Qed.

Lemma snapN_text : manifest_text (manifestOf rN [] snapN "2026-01-02T03:04:05Z").
Proof.
  unfold manifestOf. rewrite snapN_entries. split; cbn [newManifest man_Version man_Namespace man_SavedAt man_Schemas man_ServerChain].
  - unfold cacheManifestVersion. lia.
  - vm_compute. lia.
  - split; [vm_compute; lia|vm_compute; reflexivity].
  - repeat constructor; try (vm_compute; lia); cbn; lia.
  - constructor.
Qed.

(** What the client held is what a restarted client loads. *)
Lemma cache_roundtrip_witness :
  ∃ p s w', persist (Some 0%nat) (wP p s) = Returns (Ok tt, w') ∧
    ∃ w3 s', loadFromCache "/cache" "app" cfg0 w' = Returns (Ok 1%nat, w3) ∧
      sn_schemas s' = sn_schemas snapN.
Proof.
  destruct populated as (p & s & Hrep & Hs).
  destruct (same_schemas s Hs) as (Hd & Hrec & Hpl & Hne & Hent).
  assert (H1 : cfg_cacheDir (r_cfg (rP p s)) ≠ "") by discriminate.
  assert (H2 : r_ns (rP p s) ≠ "") by discriminate.
  assert (Ht : manifest_text (manifestOf (rP p s) [] s (time_Now (w_srv (wP p s))).1)).
  { unfold manifestOf. rewrite Hent. exact snapN_text. }
  destruct (cache_roundtrip 0 (wP p s) (rP p s) s eq_refl eq_refl eq_refl H1 H2 Hne eq_refl
    Hrep Hd Hrec Hpl Ht) as (w' & E & Hh & _ & Hload).
  exists p, s, w'. split; [exact E|].
  destruct (Hload w' cfg0 eq_refl (λ id _, eq_refl)) as (w3 & p' & s' & E3 & _ & _ & Hs').
  rewrite Hh in E3. exists w3, s'. split; [exact E3|]. exact (eq_trans Hs' Hs).
Defined.

(** ** Chains of namespaces *)

Definition wC : World Tiny := {| w_srv := tiny; w_heap := []; w_fs := disk0; w_log := [] |}.
Definition chainN : outcome (res nat * World Tiny) :=
  New 2 (Some 0%nat) "app" [WithServerChain; WithDiskCache "/cache"] wC.
Definition chainH : list Resolver := w_heap (stateP wC chainN).
Definition mainN : option Resolver := chainH !! valueP 0%nat chainN.

(** With the chain [app], [mid], [root], the ancestors are kept with the root first, so a
    message that [mid] and [root] both declare is attributed to [root], while the lookup
    itself asks [mid] first; the manifest on disk records the chain in that order too. *)
Example ancestors_are_root_first :
  okP chainN = true ∧
  (r_ns <$> (from_option (ancestorsOf chainH) [] mainN)) = ["root"; "mid"] ∧
  (sort_Strings ∘ elements ∘ dom ∘ nf_filesByPath <$> from_option (nsFiles chainH) [] mainN)
    = [["group"; "order"; "user"]; ["account"; "badge"]; ["account"]] ∧
  match Resolver_FindMessageByNameWithOrigin chainH mainN "account" with
  | Ok (_, ns) => ns = "root"
  | Err _ => False
  end ∧
  match (readManifest "/cache" "app" (w_fs (stateP wC chainN))).1 with
  | Ok man => man_ServerChain man = ["app"; "root"; "mid"]
  | Err _ => False
  end.
Proof. vm_compute. repeat split; reflexivity. Qed.

(** Loaded back from that manifest, the chain is reversed: [root] is asked before [mid]. *)
Definition reloadN : outcome (res nat * World Tiny) :=
  loadFromCache "/cache" "app" (apply_options [WithServerChain; WithDiskCache "/cache"])
    (set_heap [] (stateP wC chainN)).
Definition reloadH : list Resolver := w_heap (stateP wC reloadN).
Definition stale : nat := valueP 0%nat reloadN.

Example reloaded_chain_is_reversed :
  okP reloadN = true ∧
  (sort_Strings ∘ elements ∘ dom ∘ nf_filesByPath <$>
     from_option (nsFiles reloadH) [] (reloadH !! stale))
    = [["group"; "order"; "user"]; ["account"]; ["account"; "badge"]].
Proof. vm_compute. split; reflexivity. Qed.

(** A resolver loaded from the cache has no connection: asking it for a source or for a
    pinned version is a nil dereference. *)
Example stale_resolver_panics :
  IsStale (reloadH !! stale) = true ∧
  panicsP (GetSource (Some stale) "user" (stateP wC reloadN)) = true ∧
  panicsP (Pin stale {[ "users" := 3%Z ]} (stateP wC reloadN)) = true.
Proof. vm_compute. repeat split; reflexivity. Qed.

(** ** Schemas that share an import *)

(** The descriptor set of a schema holds its imports. *)
Definition sharing (v : Z) (users : list string) : Tiny := {|
  ty_schemas := {[ "app" := [("orders", 1%Z, ["common"; "order"]); ("users", v, users)] ]};
  ty_chains := ∅ |}.
Definition on_sharing (v : Z) (users : list string) (w : World Tiny) : World Tiny :=
  {| w_srv := sharing v users; w_heap := w_heap w; w_fs := w_fs w; w_log := w_log w |}.

(** Two schemas that import the same file declare the same names: the client cannot be
    created. *)
Example shared_imports_collide :
  match New 2 (Some 0%nat) "app" [] (on_sharing 1 ["common"; "user"] wC) with
  | Returns (Err _, _) => True
  | _ => False
  end ∧
  okP (New 2 (Some 0%nat) "app" [] (on_sharing 1 ["user"] wC)) = true.
Proof. vm_compute. split; [exact I|reflexivity]. Qed.

Definition snapS : nsSnapshot :=
  (valueP ([], newSnapshot) (fetchN (on_sharing 1 ["common"; "user"] wN))).2.

(** The error names the shared message and both schemas, and nothing else. *)
Lemma buildNameIndex_exact_witness :
  ∃ conflicts, (buildNameIndex snapS).1 = Err (ErrNew (collisionText conflicts)) ∧
    conflicts !! "common" = Some ["orders"; "users"] ∧ conflicts !! "user" = None.
Proof.
  pose proof (buildNameIndex_exact snapS) as H.
  assert (Hd : distinct_names snapS) by (apply distinct_check; vm_compute; reflexivity).
  assert (He : sn_nameIndex snapS = ∅) by (refine (bool_decide_eq_true_1 _ _); vm_compute; reflexivity).
  specialize (H Hd He).
  assert (Hx : match (buildNameIndex snapS).1 with Err _ => True | Ok _ => False end)
    by (vm_compute; exact I).
  destruct (buildNameIndex snapS) as [[[]|e] s']; [destruct Hx|].
  destruct H as (_ & conflicts & -> & _ & Hc). exists conflicts. split; [reflexivity|]. split.
  - apply Hc. split; [cbn; lia|]. refine (bool_decide_eq_true_1 _ _). vm_compute. reflexivity.
  - apply eq_None_not_Some. intros [ids [Hl ->]%Hc].
    assert (Hn : length (filter (declares snapS "user") (sortedIDs snapS)) = 1%nat)
      by (vm_compute; reflexivity).
    rewrite Hn in Hl. lia.
Defined.
