(* ===== verification/ClientReaders.v ===== *)
(** * Lookups beside a running refresh

    [Refresh] of [src/client/refresh.go] edits the aggregate of the namespace in place, one
    locked call of the registries at a time ([removeFromAggregate] and [applyToAggregate] of
    [src/client/snapshot.go]), and swaps the snapshot at the end. Lookups take no lock of the
    resolver, so one can fall between any two of these calls. This file lists the calls,
    shows that they are what the refresh does, and describes what every lookup answers at
    every point between them. *)

From S2P Require Import Prelude GoProg GoStrings Descriptor Protobuf NsFiles NsTypes.
From S2P Require Import NsFilesThms NsTypesThms ClientSnapshot ClientSnapshotThms.
From S2P Require Import ClientAggregate Server GoFS Client ClientManifest ClientCache.
From S2P Require Import ClientRefresh ClientRefreshThms ClientLookupThms.
From stdpp Require Import prelude gmap strings list sorting.

Open Scope string_scope.
Open Scope list_scope.

(** ** Programs equal up to the text of their errors *)

Definition same_end {S} (x y : outcome (res unit * S)) : Prop :=
  match x, y with
  | Returns (Ok _, s), Returns (Ok _, s') => s = s'
  | Returns (Err _, s), Returns (Err _, s') => s = s'
  | Panics, Panics => True
  | _, _ => False
  end.

Definition prog_eqv {S} (m n : Prog S unit) : Prop := ∀ s, same_end (m s) (n s).
Infix "≃" := prog_eqv (at level 70).

#[global] Instance same_end_equivalence S : Equivalence (@same_end S).
Proof.
  split; [intros [[[] ?]|]|intros [[[] ?]|] [[[] ?]|]|intros [[[] ?]|] [[[] ?]|] [[[] ?]|]];
    cbn; congruence || done.
Qed.

#[global] Instance prog_eqv_equivalence S : Equivalence (@prog_eqv S).
Proof.
  split; [by intros m s|intros m n E s; by symmetry|].
  intros m n o E F s. by transitivity (n s).
Qed.

Section eqv.
Context {S : Type}.

#[global] Instance bind_proper :
  Proper (pointwise_relation unit prog_eqv ==> prog_eqv ==> prog_eqv)
    (mbind (M := Prog S) (A := unit) (B := unit)).
Proof.
  intros f f' Hf m m' Hm s. specialize (Hm s). unfold mbind, Prog_bind.
  destruct (m s) as [[[[]|] ?]|], (m' s) as [[[[]|] ?]|]; cbn in *; try done. subst. apply Hf.
Qed.

Lemma seq_eqv (m m' n n' : Prog S unit) : m ≃ m' → n ≃ n' → (m ;; n) ≃ (m' ;; n').
Proof. intros Hm Hn. by apply bind_proper; [intros _|]. Qed.

Lemma wrapP_eqv c (m : Prog S unit) : wrapP c m ≃ m.
Proof. intros s. unfold wrapP. by destruct (m s) as [[[] ?]|]. Qed.

Lemma forP_eqv {A} (l : list A) (f g : A → Prog S unit) :
  (∀ x, f x ≃ g x) → forP_ l f ≃ forP_ l g.
Proof. intros Hfg. induction l as [|x l IH]; [done|]. cbn [forP_]. by apply seq_eqv. Qed.

Lemma forP_app_eqv {A} (f : A → Prog S unit) l k : forP_ (l ++ k) f ≃ (forP_ l f ;; forP_ k f).
Proof. intros s. by rewrite forP_app. Qed.

Lemma forP_fmap_eqv {A B} (f : B → Prog S unit) (g : A → B) l :
  forP_ (g <$> l) f ≃ forP_ l (λ x, f (g x)).
Proof. induction l as [|x l IH]; [done|]. cbn. by apply seq_eqv. Qed.

Lemma forP_flat_map_eqv {A B} (f : B → Prog S unit) (g : A → list B) l :
  forP_ (flat_map g l) f ≃ forP_ l (λ x, forP_ (g x) f).
Proof.
  induction l as [|x l IH]; [done|]. cbn [flat_map forP_]. rewrite forP_app_eqv.
  by apply seq_eqv.
Qed.
End eqv.

(** ** The accesses of a refresh *)

Section accesses.
Context `{Protoreflect, ProtoTypes, Protodesc, GoRange}.
Implicit Types (p : regPair) (ss : schemaSnapshot).

(** One locked call on the aggregate's registries. *)
Inductive access :=
| UnregisterFileAt (path : string)
| UnregisterMessageAt (name : string)
| UnregisterEnumAt (name : string)
| UnregisterExtensionAt (name : string)
| UpdateFileAt (fd : FileDescriptor)
| UpdateTypeAt (t : RtType).

Definition runAccess (a : access) : Prog regPair unit :=
  match a with
  | UnregisterFileAt path => on_files (λ r, UnregisterFile r path)
  | UnregisterMessageAt name => on_types (λ t, UnregisterMessage t name)
  | UnregisterEnumAt name => on_types (λ t, UnregisterEnum t name)
  | UnregisterExtensionAt name => on_types (λ t, UnregisterExtension t name)
  | UpdateFileAt fd => on_files (λ r, UpdateFile r fd)
  | UpdateTypeAt t => on_types (updType t)
  end.

Definition removeAccesses ss : list access :=
  let fp := ss_aggFingerprint ss in
  (UnregisterFileAt <$> fp_filePaths fp) ++ (UnregisterMessageAt <$> fp_messages fp) ++
  (UnregisterEnumAt <$> fp_enums fp) ++ (UnregisterExtensionAt <$> fp_extensions fp).

Definition applyAccesses ss : list access :=
  flat_map (λ fd, UpdateFileAt fd :: (UpdateTypeAt <$> fileTypes fd)) (schemaFiles ss).

(** The views to unregister, and those to fold in, in the order of the refresh. *)
Definition droppedViews (removed : list schemaSnapshot) (sc : scan) : list schemaSnapshot :=
  removed ++ (sc_replaced sc).*1.
Definition appliedViews (sc : scan) : list schemaSnapshot :=
  merge_sort schema_le (sc_added sc ++ (sc_replaced sc).*2).

Definition diffAccesses (removed : list schemaSnapshot) (sc : scan) : list access :=
  flat_map removeAccesses (droppedViews removed sc) ++ flat_map applyAccesses (appliedViews sc).

Lemma on_types_forM {A} (f : A → M NamespacedTypes unit) l :
  on_types (forM_ l f) ≃ forP_ l (λ x, on_types (f x)).
Proof.
  induction l as [|x l IH]; intros [r t]; cbn; [done|].
  unfold on_types at 1, zoom, liftM, mbind, M_bind. cbn.
  unfold Prog_bind, on_types at 1, zoom, liftM. cbn.
  destruct (f x t) as [[[]|e] t1]; [|done]. specialize (IH {| rg_files := r; rg_types := t1 |}).
  unfold on_types at 1, zoom, liftM in IH. cbn in IH. done.
Qed.

Lemma removeFromAggregate_accesses ss :
  removeFromAggregate ss ≃ forP_ (removeAccesses ss) runAccess.
Proof.
  assert (Hloop : ∀ (l : list string) (c : string → string) (f : string → access),
    forP_ l (λ x, wrapP (c x) (runAccess (f x))) ≃ forP_ (f <$> l) runAccess).
  { intros l c f. rewrite forP_fmap_eqv. apply forP_eqv. intros x. apply wrapP_eqv. }
  unfold removeFromAggregate, removeAccesses.
  do 3 (rewrite forP_app_eqv; apply seq_eqv;
    [apply (Hloop _ _ UnregisterFileAt) || apply (Hloop _ _ UnregisterMessageAt) ||
     apply (Hloop _ _ UnregisterEnumAt)|]).
  apply (Hloop _ _ UnregisterExtensionAt).
Qed.

Lemma applyToAggregate_accesses ss :
  applyToAggregate ss ≃ forP_ (applyAccesses ss) runAccess.
Proof.
  unfold applyToAggregate, applyAccesses. rewrite forP_flat_map_eqv. apply forP_eqv. intros fd.
  cbn [forP_]. apply seq_eqv; [apply wrapP_eqv|]. rewrite wrapP_eqv, forP_fmap_eqv.
  rewrite <-(on_types_forM updType). intros p. unfold on_types, zoom, liftM.
  by rewrite registerFileTypesUpdate_all.
Qed.
End accesses.

Section lift.
Context `{Protoreflect, ProtoTypes, GoRange} {R : Type} `{RegistryConn R}.
Context `{TempNames, TimeText, !Clock R}.
Implicit Types (w : World R).

#[local] Lemma on_agg_eqv i m n : m ≃ n → on_agg (R := R) i m ≃ on_agg i n.
Proof.
  intros E w. unfold on_agg. destruct (w_heap w !! i) as [r|]; [|done]. specialize (E (r_agg r)).
  destruct (m (r_agg r)) as [[[] ?]|], (n (r_agg r)) as [[[] ?]|]; cbn in *; congruence || done.
Qed.

(** Two edits of the aggregate are one. *)
Lemma on_agg_seq i (m n : Prog regPair unit) w :
  (on_agg i m ;; on_agg i n) w = on_agg (R := R) i (m ;; n) w.
Proof.
  unfold mbind, Prog_bind, on_agg. destruct (w_heap w !! i) as [r|] eqn:Hr; [|done].
  destruct (m (r_agg r)) as [[[] p]|]; [|done..]. cbn.
  rewrite list_lookup_alter_eq, Hr. cbn. destruct (n p) as [[x q]|]; [|done].
  by rewrite set_heap_heap, alter_set_agg.
Qed.

Lemma forP_on_agg_eqv {A} i (l : list A) (c : string) (f : A → Prog regPair unit) w :
  is_Some (w_heap w !! i) →
  same_end (forP_ l (λ x, wrapP c (on_agg i (f x))) w) (on_agg (R := R) i (forP_ l f) w).
Proof.
  revert w. induction l as [|x l IH]; intros w [r Hr]; cbn [forP_].
  { unfold on_agg. rewrite Hr. cbn. rewrite set_agg_id by done. by destruct w. }
  rewrite <-on_agg_seq. unfold mbind, Prog_bind, wrapP, on_agg at 1 3. rewrite Hr.
  destruct (f x (r_agg r)) as [[[] p]|]; cbn; [|done..]. apply IH. cbn.
  rewrite list_lookup_alter_eq, Hr. by eexists.
Qed.

Lemma seq_end_on_agg i (m n : Prog (World R) unit) (m' n' : Prog regPair unit) w :
  (∀ w, is_Some (w_heap w !! i) → same_end (m w) (on_agg i m' w)) →
  (∀ w, is_Some (w_heap w !! i) → same_end (n w) (on_agg i n' w)) →
  is_Some (w_heap w !! i) → same_end ((m ;; n) w) (on_agg i (m' ;; n') w).
Proof.
  intros Hm Hn Hw. rewrite <-on_agg_seq. specialize (Hm w Hw). unfold mbind, Prog_bind.
  destruct Hw as [r Hr]. unfold on_agg at 1. unfold on_agg in Hm. rewrite Hr in Hm |- *.
  destruct (m w) as [[[] ?]|], (m' (r_agg r)) as [[[] p]|]; cbn in *; try done. subst.
  apply Hn. cbn. rewrite list_lookup_alter_eq, Hr. by eexists.
Qed.

(** What a refresh does to the aggregate is the sequence of its accesses, one call of the
    registries each: the two runs end in the same client, both normally, both with an error
    (whose text is not compared) or both with a panic. *)
Theorem applyDiff_accesses i removed sc w :
  is_Some (w_heap w !! i) →
  same_end (applyDiff i removed sc w)
    (on_agg (R := R) i (forP_ (diffAccesses removed sc) runAccess) w).
Proof.
  intros Hw. set (rm := forP_ removed removeFromAggregate).
  set (rp := forP_ (sc_replaced sc) (λ rep, removeFromAggregate rep.1)).
  set (ap := forP_ (appliedViews sc) applyToAggregate).
  transitivity (on_agg (R := R) i (rm ;; rp ;; ap) w).
  - unfold applyDiff. apply seq_end_on_agg; [intros; by apply forP_on_agg_eqv| |done].
    intros w1 Hw1. by apply seq_end_on_agg; [intros; by apply forP_on_agg_eqv..|].
  - apply on_agg_eqv. unfold diffAccesses, droppedViews.
    rewrite flat_map_app, <-app_assoc, forP_app_eqv. apply seq_eqv.
    { rewrite forP_flat_map_eqv. apply forP_eqv, removeFromAggregate_accesses. }
    rewrite forP_app_eqv. apply seq_eqv.
    + rewrite forP_flat_map_eqv, forP_fmap_eqv. apply forP_eqv.
      intros rep. apply removeFromAggregate_accesses.
    + rewrite forP_flat_map_eqv. apply forP_eqv, applyToAggregate_accesses.
Qed.
End lift.

(** ** The entries of the aggregate

    Between two accesses the file registry and the type registry need not hold the same
    files, so the content of the aggregate is a list of single entries. *)

Inductive entry := EFile (f : FileDescriptor) | EType (t : RtType).

Definition entry_file (e : entry) : option FileDescriptor :=
  match e with EFile f => Some f | EType _ => None end.
Definition entry_type (e : entry) : option RtType :=
  match e with EFile _ => None | EType t => Some t end.
Definition filesOf (X : list entry) : list FileDescriptor := omap entry_file X.
Definition typesOf (X : list entry) : list RtType := omap entry_type X.

(** The entries of whole files. *)
Definition entriesOf (L : list FileDescriptor) : list entry :=
  flat_map (λ f, EFile f :: (EType <$> fileTypes f)) L.

#[global] Instance filesOf_perm : Proper ((≡ₚ) ==> (≡ₚ)) filesOf.
Proof. intros X Y E. unfold filesOf. by rewrite E. Qed.
#[global] Instance typesOf_perm : Proper ((≡ₚ) ==> (≡ₚ)) typesOf.
Proof. intros X Y E. unfold typesOf. by rewrite E. Qed.
#[global] Instance entriesOf_perm : Proper ((≡ₚ) ==> (≡ₚ)) entriesOf.
Proof. intros X Y E. unfold entriesOf. by rewrite E. Qed.

Lemma filesOf_types ts : filesOf (EType <$> ts) = [].
Proof. induction ts as [|t ts IH]; [done|]. apply IH. Qed.
Lemma typesOf_types ts : typesOf (EType <$> ts) = ts.
Proof. induction ts as [|t ts IH]; [done|]. cbn. f_equal. apply IH. Qed.

Lemma filesOf_app X Y : filesOf (X ++ Y) = filesOf X ++ filesOf Y.
Proof. apply omap_app. Qed.
Lemma typesOf_app X Y : typesOf (X ++ Y) = typesOf X ++ typesOf Y.
Proof. apply omap_app. Qed.
Lemma entriesOf_cons f L :
  entriesOf (f :: L) = EFile f :: (EType <$> fileTypes f) ++ entriesOf L.
Proof. done. Qed.

Lemma filesOf_entriesOf L : filesOf (entriesOf L) = L.
Proof.
  induction L as [|f L IH]; [done|]. rewrite entriesOf_cons.
  change (f :: filesOf ((EType <$> fileTypes f) ++ entriesOf L) = f :: L).
  by rewrite filesOf_app, filesOf_types, IH.
Qed.

Lemma typesOf_entriesOf L : typesOf (entriesOf L) = flat_map fileTypes L.
Proof.
  induction L as [|f L IH]; [done|]. rewrite entriesOf_cons.
  change (typesOf ((EType <$> fileTypes f) ++ entriesOf L) = fileTypes f ++ flat_map fileTypes L).
  by rewrite typesOf_app, typesOf_types, IH.
Qed.

Lemma entriesOf_app L K : entriesOf (L ++ K) = entriesOf L ++ entriesOf K.
Proof. apply flat_map_app. Qed.

(** All files, then all types of each kind, are the same entries. *)
Lemma entriesOf_kinds L :
  entriesOf L ≡ₚ (EFile <$> L) ++ (EType <$> flat_map fileTypes L).
Proof.
  induction L as [|f L IH]; [done|]. cbn. rewrite IH, fmap_app. constructor.
  by rewrite Permutation_app_swap_app.
Qed.

Section entries.
Context `{Protoreflect, ProtoTypes, Protodesc, GoRange}.
Implicit Types (p : regPair) (X K : list entry).

Record entries_rep p X : Prop := {
  er_files : files_rep (rg_files p) (filesMap (filesOf X));
  er_types : types_rep (rg_types p) (typesOf X) }.

Record entries_ok X : Prop := {
  eo_files : coherent (filesOf X);
  eo_types : distinct_types (typesOf X) }.

Lemma entries_rep_perm p X Y :
  entries_ok X → X ≡ₚ Y → entries_rep p X → entries_rep p Y.
Proof.
  intros [Hc _] E [Hf Ht]. split; [|by rewrite <-E].
  by rewrite <-(filesMap_perm (filesOf X)); [|apply (co_paths _ Hc)|by rewrite E].
Qed.

#[global] Instance entries_ok_perm : Proper ((≡ₚ) ==> iff) entries_ok.
Proof.
  assert (Hp : ∀ X Y, X ≡ₚ Y → entries_ok X → entries_ok Y).
  { intros X Y E [Hf [Hn Hx]]. split; [by rewrite <-E|]. split; by rewrite <-E. }
  intros X Y E. split; by apply Hp.
Qed.

Lemma entries_ok_app X K : entries_ok (X ++ K) → entries_ok K.
Proof.
  intros [Hf [Hn Hx]]. rewrite filesOf_app in Hf. rewrite typesOf_app in Hn, Hx.
  rewrite fmap_app in Hn. rewrite omap_app in Hx. split; [by eapply coherent_app_r|].
  split; [by apply NoDup_app in Hn as (_ & _ & ?)|by apply NoDup_app in Hx as (_ & _ & ?)].
Qed.

Lemma entries_ok_sub X Y : entries_ok X → Y ⊆+ X → entries_ok Y.
Proof.
  intros Hok [K HK]%submseteq_Permutation. rewrite HK, Permutation_app_comm in Hok.
  by eapply entries_ok_app.
Qed.

Lemma entries_ok_of L : coherent L → entries_ok (entriesOf L).
Proof.
  intros Hc. split; [by rewrite filesOf_entriesOf|]. rewrite typesOf_entriesOf. apply Hc.
Qed.

Lemma agg_entries p L : agg_rep p L → entries_rep p (entriesOf L).
Proof.
  intros [Hf Ht]. split; [by rewrite filesOf_entriesOf|by rewrite typesOf_entriesOf].
Qed.

(** ** What an access does to the entries *)

Inductive removes : access → entry → Prop :=
| removes_file f : removes (UnregisterFileAt (file_Path f)) (EFile f)
| removes_message md : removes (UnregisterMessageAt (rt_FullName (TMessage md))) (EType (TMessage md))
| removes_enum ed : removes (UnregisterEnumAt (rt_FullName (TEnum ed))) (EType (TEnum ed))
| removes_extension xd :
    removes (UnregisterExtensionAt (rt_FullName (TExtension xd))) (EType (TExtension xd)).

Inductive puts : access → entry → Prop :=
| puts_file f : puts (UpdateFileAt f) (EFile f)
| puts_type t : puts (UpdateTypeAt t) (EType t).

Lemma on_types_run (m : M NamespacedTypes unit) p t' :
  m (rg_types p) = (Ok tt, t') →
  on_types m p = Returns (Ok tt, {| rg_files := rg_files p; rg_types := t' |}).
Proof. intros E. unfold on_types, zoom, liftM. by rewrite E. Qed.

Lemma remove_entry a x K p :
  removes a x → entries_rep p (x :: K) → entries_ok (x :: K) →
  ∃ p', runAccess a p = Returns (Ok tt, p') ∧ entries_rep p' K.
Proof.
  intros Ha [Hf Ht] [Hc [Hn _]].
  assert (Htype : ∀ t m, x = EType t → (∀ r, m r = unregType t r) →
    ∃ p', on_types m p = Returns (Ok tt, p') ∧ entries_rep p' K).
  { intros t m -> Hm. destruct (unregType_rep (rg_types p) _ t (typesOf K) Ht Hn) as (t' & E & Ht');
      [done|]. eexists. split; [apply on_types_run; by rewrite Hm|by split]. }
  destruct Ha as [f|md|ed|xd]; try (by eapply Htype).
  cbn [filesOf omap list_omap entry_file] in Hf, Hc. fold (filesOf K) in Hf, Hc.
  pose proof (UnregisterFile_refines _ _ (file_Path f) Hf) as Hu.
  rewrite (filesMap_cons f), lookup_insert_eq, <-filesMap_cons in Hu.
  destruct Hu as (r' & E & Hr'). rewrite filesMap_delete in Hr' by apply (co_paths _ Hc).
  exists {| rg_files := r'; rg_types := rg_types p |}. split; [|by split].
  cbn. unfold on_files, zoom. by rewrite E.
Qed.

Lemma put_entry a x K p :
  puts a x → entries_rep p K → entries_ok (x :: K) →
  ∃ p', runAccess a p = Returns (Ok tt, p') ∧ entries_rep p' (x :: K).
Proof.
  intros Ha [Hf Ht] [Hc Hd]. destruct Ha as [f|t].
  - destruct (UpdateFile_refines (rg_files p) (filesMap (filesOf K)) f) as (r' & E & Hr');
      [done|apply (co_files _ Hc); left|by apply coherent_upsertable|].
    exists {| rg_files := r'; rg_types := rg_types p |}. split; [|by split].
    cbn. unfold on_files, zoom. by rewrite E.
  - destruct (updType_rep (rg_types p) (typesOf K) t Ht Hd) as (t' & E & Ht').
    eexists. split; [by apply on_types_run|by split].
Qed.

Lemma remove_entries accs xs K p :
  Forall2 removes accs xs → entries_rep p (xs ++ K) → entries_ok (xs ++ K) →
  ∃ p', forP_ accs runAccess p = Returns (Ok tt, p') ∧ entries_rep p' K.
Proof.
  intros Hall. revert p. induction Hall as [|a x accs xs Ha _ IH]; intros p Hp Hok; [by exists p|].
  destruct (remove_entry a x (xs ++ K) p) as (p1 & E1 & Hp1); [done..|].
  destruct (IH p1) as (p2 & E2 & Hp2); [done|by apply (entries_ok_app [x])|].
  exists p2. split; [|done]. cbn [forP_]. unfold mbind, Prog_bind. by rewrite E1.
Qed.

Lemma put_entries accs xs K p :
  Forall2 puts accs xs → entries_rep p K → entries_ok (xs ++ K) →
  ∃ p', forP_ accs runAccess p = Returns (Ok tt, p') ∧ entries_rep p' (xs ++ K).
Proof.
  intros Hall. revert p K. induction Hall as [|a x accs xs Ha _ IH]; intros p K Hp Hok;
    [by exists p|].
  assert (Hok' : entries_ok (xs ++ x :: K)) by by rewrite <-Permutation_middle.
  destruct (put_entry a x K p) as (p1 & E1 & Hp1); [done..|by eapply entries_ok_app|].
  destruct (IH p1 (x :: K)) as (p2 & E2 & Hp2); [done..|].
  exists p2. split; [cbn [forP_]; unfold mbind, Prog_bind; by rewrite E1|].
  eapply entries_rep_perm; [done|by rewrite <-Permutation_middle|done].
Qed.
End entries.

(** ** The entries of the accesses of a view *)

Section views.
Context `{Protoreflect, ProtoTypes, Protodesc, GoRange}.
Implicit Types (ss : schemaSnapshot) (l : list schemaSnapshot).

Lemma removes_names (P : RtType → bool) (f : string → access) ts :
  (∀ t, P t = true → removes (f (rt_FullName t)) (EType t)) →
  Forall2 removes (f <$> names_of P ts) (EType <$> filter (λ t, P t = true) ts).
Proof.
  intros HP. unfold names_of. induction ts as [|t ts IH]; [constructor|].
  rewrite filter_cons. cbn [omap list_omap]. destruct (P t) eqn:E.
  - rewrite decide_True by done. cbn. constructor; [by apply HP|done].
  - by rewrite decide_False.
Qed.

Lemma removeAccesses_entries ss :
  compiled ss → ∃ xs, Forall2 removes (removeAccesses ss) xs ∧ xs ≡ₚ entriesOf (schemaFiles ss).
Proof.
  intros [fs Hss]. pose proof (schemaFiles_rep _ _ Hss) as Hfs.
  destruct (fingerprint_of_spec fs) as (E1 & E2 & E3 & E4).
  unfold removeAccesses. rewrite (sr_fingerprint _ _ Hss), E1, E2, E3, E4.
  set (ts := flat_map fileTypes fs).
  exists ((EFile <$> fs) ++ (EType <$> filter (λ t, is_message t = true) ts) ++
    (EType <$> filter (λ t, is_enum t = true) ts) ++
    (EType <$> filter (λ t, is_extension t = true) ts)). split.
  - repeat apply Forall2_app; [|apply removes_names; intros []; cbn; done || constructor..].
    clear. induction fs; cbn; constructor; done || constructor.
  - rewrite Hfs, (entriesOf_kinds fs), <-!fmap_app. fold ts. by rewrite <-(kinds_perm ts).
Qed.

Lemma applyAccesses_entries ss : Forall2 puts (applyAccesses ss) (entriesOf (schemaFiles ss)).
Proof.
  unfold applyAccesses, entriesOf. induction (schemaFiles ss) as [|f fs IH]; [constructor|].
  cbn. constructor; [constructor|]. apply Forall2_app; [|done].
  clear. induction (fileTypes f); cbn; constructor; done || constructor.
Qed.

Lemma removeViews_entries l :
  (∀ ss, ss ∈ l → compiled ss) →
  ∃ xs, Forall2 removes (flat_map removeAccesses l) xs ∧ xs ≡ₚ entriesOf (viewFiles l).
Proof.
  induction l as [|ss l IH]; intros Hl; [by exists []|].
  destruct (removeAccesses_entries ss) as (xs & Hx & Ex); [apply Hl; left|].
  destruct IH as (ys & Hy & Ey); [intros; apply Hl; by right|].
  exists (xs ++ ys). split; [by apply Forall2_app|]. cbn. by rewrite entriesOf_app, Ex, Ey.
Qed.

Lemma applyViews_entries l : Forall2 puts (flat_map applyAccesses l) (entriesOf (viewFiles l)).
Proof.
  induction l as [|ss l IH]; [constructor|]. cbn. rewrite entriesOf_app.
  apply Forall2_app; [apply applyAccesses_entries|done].
Qed.
End views.

(** ** A refresh point by point *)

Section points.
Context `{Protoreflect, ProtoTypes, GoRange} {R : Type} `{RegistryConn R}.
Context `{TempNames, TimeText, !Clock R} `{!ProtoFilesLaws, !ProtodescLaws}.
Implicit Types (w : World R) (s : nsSnapshot) (r : Resolver).

(** The difference splits both snapshots: what is dropped or applied, and what stays. *)
Lemma diff_split p r s0 infos sc La Lf Lk Lo :
  resolver_rep p s0 → scan_inv r s0 infos sc La Lf Lk Lo →
  let dropped := droppedViews (removedViews (Some s0) (sc_next sc)) sc in
  (∀ ss, ss ∈ dropped → compiled ss) ∧
  snapFiles s0 ≡ₚ viewFiles dropped ++ viewFiles Lk.*2 ∧
  snapFiles (sc_next sc) ≡ₚ viewFiles (appliedViews sc) ++ viewFiles Lk.*2.
Proof.
  intros Hrep Hinv dropped.
  assert (Hold : (sc_replaced sc).*1 = Lo.*2) by apply (sv_old _ _ _ _ _ _ _ _ Hinv).
  split_and!.
  - unfold dropped, droppedViews. rewrite Hold. intros ss [Hin|Hin]%elem_of_app.
    + apply list_elem_of_fmap in Hin as ([id ss'] & -> & [_ Hin]%list_elem_of_filter).
      apply elem_of_go_range in Hin. by eapply rr_compiled.
    + apply list_elem_of_fmap in Hin as ([id ss'] & -> & Hin). eapply (rr_compiled _ _ Hrep id).
      apply (sv_cur _ _ _ _ _ _ _ _ Hinv), elem_of_app. by left.
  - unfold dropped, droppedViews. rewrite Hold, viewFiles_app, <-app_assoc.
    by eapply removed_split.
  - unfold appliedViews. rewrite merge_sort_Permutation, (sv_added _ _ _ _ _ _ _ _ Hinv),
      (sv_fresh _ _ _ _ _ _ _ _ Hinv). by eapply next_split.
Qed.

(** Every prefix of the accesses runs, and leaves entries that are all of the old snapshot or
    all of the new one, among them all those of the views that stay. *)
Lemma accesses_prefix p s0 dropped applied K L' pre post :
  agg_rep p (snapFiles s0) → coherent (snapFiles s0) → coherent L' →
  (∀ ss, ss ∈ dropped → compiled ss) →
  snapFiles s0 ≡ₚ viewFiles dropped ++ K → L' ≡ₚ viewFiles applied ++ K →
  flat_map removeAccesses dropped ++ flat_map applyAccesses applied = pre ++ post →
  ∃ p' X, forP_ pre runAccess p = Returns (Ok tt, p') ∧ entries_rep p' X ∧ entriesOf K ⊆+ X ∧
    (X ⊆+ entriesOf (snapFiles s0) ∨ X ⊆+ entriesOf L').
Proof.
  intros Hp Hc Hc' Hcomp Eold Enew Epre.
  destruct (removeViews_entries dropped Hcomp) as (xs & Hxs & Ex).
  pose proof (applyViews_entries applied) as Hys. set (ys := entriesOf (viewFiles applied)) in *.
  assert (Eo : entriesOf (snapFiles s0) ≡ₚ xs ++ entriesOf K) by by rewrite Eold, entriesOf_app, Ex.
  assert (En : entriesOf L' ≡ₚ ys ++ entriesOf K) by by rewrite Enew, entriesOf_app.
  pose proof (entries_ok_of _ Hc) as Ho. pose proof (entries_ok_of _ Hc') as Hn.
  apply agg_entries in Hp. eapply entries_rep_perm in Hp; [|done|done]. rewrite Eo in Ho.
  rewrite En in Hn. setoid_rewrite Eo. setoid_rewrite En. clear Eo En Eold Enew Ex.
  apply app_eq_inv in Epre as [(k & Er & ->)|(k & -> & Ea)].
  - rewrite Er in Hxs. apply Forall2_app_inv_l in Hxs as (x1 & x2 & Hx1 & _ & ->).
    rewrite <-app_assoc in *. destruct (remove_entries pre x1 (x2 ++ entriesOf K) p) as (p' & E & Hp');
      [done..|]. exists p', (x2 ++ entriesOf K). split_and!; [done..| |left].
    + by apply submseteq_inserts_l.
    + by apply submseteq_inserts_l.
  - destruct (remove_entries (flat_map removeAccesses dropped) xs (entriesOf K) p)
      as (p1 & E1 & Hp1); [done..|].
    rewrite Ea in Hys. apply Forall2_app_inv_l in Hys as (y1 & y2 & Hy1 & _ & Ey). rewrite Ey in *.
    assert (Hy : entries_ok (y1 ++ entriesOf K)).
    { apply (entries_ok_app y2). by rewrite app_assoc, (Permutation_app_comm y2). }
    destruct (put_entries k y1 (entriesOf K) p1) as (p' & E & Hp'); [done..|].
    exists p', (y1 ++ entriesOf K). split_and!; [|done|by apply submseteq_inserts_l|right].
    + rewrite forP_app. unfold mbind, Prog_bind. by rewrite E1.
    + apply submseteq_skips_r. by apply submseteq_inserts_r.
Qed.
(** Answers of the registries when they hold the entries [X]. *)
Lemma entries_lookups h r p X message field path :
  entries_rep p X → entries_ok X →
  Resolver_FindFileByPath h (Some (set_agg p r)) path =
    match fileNamed (filesOf X) path with
    | Some fd => Ok fd
    | None => FindFileByPath (parentFiles h r) path
    end ∧
  Resolver_FindExtensionByNumber h (Some (set_agg p r)) message field =
    match extensionNumbered (typesOf X) message field with
    | Some xd => Ok xd
    | None => FindExtensionByNumber (parentTypes h r) message field
    end.
Proof.
  intros [Hf Ht] [Hc _]. pose proof (ti_local _ (tr_inv _ _ Ht)) as Hg. split.
  - cbn. rewrite (fr_local _ _ Hf), (fr_byPath _ _ Hf), lookup_fmap.
    rewrite (fileNamed_rep _ _ (co_paths _ Hc)). by destruct (fileNamed _ _).
  - cbn. by rewrite Hg, (extensionNumbered_rep _ _ _ _ Ht).
Qed.

(** A message the old index knows is found in the view of its schema, whatever the aggregate
    holds. *)
Lemma message_beside h r s0 p X n :
  r_snapshot r = Some s0 → resolver_rep (r_agg r) s0 → entries_rep p X →
  Resolver_FindMessageByName h (set_agg p r) n =
    match typeNamed (if schemaFor s0 n then snapTypes s0 else typesOf X) n with
    | Some (TMessage md) => Ok md
    | Some t => Err (wrong_type t "message")
    | None => FindMessageByName (parentTypes h r) n
    end.
Proof.
  intros Hs Hrep [_ Ht]. pose proof (rr_agg _ _ Hrep) as [_ Ht0]. fold (snapTypes s0) in Ht0.
  unfold Resolver_FindMessageByName. cbn [r_snapshot set_agg]. rewrite Hs. cbn.
  destruct (schemaFor s0 n) as [ss|] eqn:E; cbn.
  - rewrite <-(typeNamed_rep _ _ n Ht0). by destruct (view_lookup _ _ _ _ Hrep E) as [-> ->].
  - by rewrite (ti_local _ (tr_inv _ _ Ht)), (typeNamed_rep _ _ n Ht).
Qed.

(** C13. Lookups beside a refresh, for a resolver that holds its snapshot, a listing that names
    each schema once, and new schemas that together use every name, path and extension number
    once and no package for a declared name. The accesses [pre] of the refresh have happened,
    the others have not, and a lookup runs with the snapshot it loaded before the swap. No
    access fails. What the aggregate then holds is part of the old snapshot or part of the new one, never a mixture
    of both, and it holds every file and type of the views the refresh does not drop. Files by
    path and extensions by number are answered from it, and otherwise by the parents; a
    message whose name the old snapshot knows is answered from the old snapshot. *)
Theorem lookups_beside_refresh fuel w r s0 infos sc w1 pre post :
  r_snapshot r = Some s0 → resolver_rep (r_agg r) s0 →
  fetchTarget fuel r (Some s0) w = Returns (Ok (infos, sc), w1) →
  NoDup (si_SchemaId <$> infos) → coherent (snapFiles (sc_next sc)) →
  let removed := removedViews (Some s0) (sc_next sc) in
  diffAccesses removed sc = pre ++ post →
  ∃ p X, forP_ pre runAccess (r_agg r) = Returns (Ok tt, p) ∧
    (X ⊆+ entriesOf (snapFiles s0) ∨ X ⊆+ entriesOf (snapFiles (sc_next sc))) ∧
    (∀ e, e ∈ entriesOf (snapFiles s0) →
       e ∉ entriesOf (viewFiles (droppedViews removed sc)) → e ∈ X) ∧
    ∀ h n message field path,
      Resolver_FindMessageByName h (set_agg p r) n =
        match typeNamed (if schemaFor s0 n then snapTypes s0 else typesOf X) n with
        | Some (TMessage md) => Ok md
        | Some t => Err (wrong_type t "message")
        | None => FindMessageByName (parentTypes h r) n
        end ∧
      Resolver_FindFileByPath h (Some (set_agg p r)) path =
        match fileNamed (filesOf X) path with
        | Some fd => Ok fd
        | None => FindFileByPath (parentFiles h r) path
        end ∧
      Resolver_FindExtensionByNumber h (Some (set_agg p r)) message field =
        match extensionNumbered (typesOf X) message field with
        | Some xd => Ok xd
        | None => FindExtensionByNumber (parentTypes h r) message field
        end.
Proof.
  intros Hs Hrep Hfetch Hnd Hcoh removed Epre.
  apply fetchTarget_inv in Hfetch as (La & Lf & Lk & Lo & Hinv); [|done].
  destruct (diff_split _ _ _ _ _ _ _ _ _ Hrep Hinv) as (Hcomp & Eold & Enew).
  edestruct (accesses_prefix (r_agg r) s0) as (p & X & Erun & HX & Hkept & Hsub);
    [apply Hrep|apply Hrep|exact Hcoh|exact Hcomp|exact Eold|exact Enew|exact Epre|].
  exists p, X. split_and!; [done..| |].
  - intros e He Hne. rewrite Eold, entriesOf_app in He. apply elem_of_app in He as [|He]; [done|].
    by eapply elem_of_submseteq.
  - intros h n message field path. split; [by apply message_beside|]. apply entries_lookups; [done|].
    destruct Hsub as [Hsub|Hsub]; (eapply entries_ok_sub; [|done]); apply entries_ok_of;
      [apply Hrep|done].
Qed.

(** The gap of a refresh. After the removals and before the first update, every file of a
    view the refresh removes or replaces is unknown to the resolver, also when the new view
    has a file of the same path: a lookup by its path is answered by the parents, which may
    know an older file of that path. *)
Theorem refresh_gap fuel w r s0 infos sc w1 f :
  r_snapshot r = Some s0 → resolver_rep (r_agg r) s0 →
  fetchTarget fuel r (Some s0) w = Returns (Ok (infos, sc), w1) →
  NoDup (si_SchemaId <$> infos) → coherent (snapFiles (sc_next sc)) →
  let dropped := droppedViews (removedViews (Some s0) (sc_next sc)) sc in
  f ∈ viewFiles dropped →
  ∃ p, forP_ (flat_map removeAccesses dropped) runAccess (r_agg r) = Returns (Ok tt, p) ∧
    ∀ h, Resolver_FindFileByPath h (Some (set_agg p r)) (file_Path f) =
           FindFileByPath (parentFiles h r) (file_Path f).
Proof.
  intros Hs Hrep Hfetch Hnd Hcoh dropped Hf.
  apply fetchTarget_inv in Hfetch as (La & Lf & Lk & Lo & Hinv); [|done].
  destruct (diff_split _ _ _ _ _ _ _ _ _ Hrep Hinv) as (Hcomp & Eold & _). fold dropped in Hcomp, Eold.
  destruct (removeViews_entries dropped Hcomp) as (xs & Hxs & Ex).
  pose proof (rr_coherent _ _ Hrep) as Hc. set (K := viewFiles Lk.*2) in *.
  assert (Eo : entriesOf (snapFiles s0) ≡ₚ xs ++ entriesOf K) by by rewrite Eold, entriesOf_app, Ex.
  pose proof (entries_ok_of _ Hc) as Hok.
  destruct (remove_entries (flat_map removeAccesses dropped) xs (entriesOf K) (r_agg r))
    as (p & E & Hp); [done| |by rewrite <-Eo|].
  { eapply entries_rep_perm; [done|done|apply agg_entries, Hrep]. }
  exists p. split; [done|]. intros h. rewrite Eo in Hok. apply entries_ok_app in Hok.
  destruct (entries_lookups h r p (entriesOf K) "" 0 (file_Path f) Hp Hok) as [-> _].
  rewrite filesOf_entriesOf. destruct (fileNamed K (file_Path f)) as [g|] eqn:Eg; [|done].
  exfalso. rewrite Eold in Hc. pose proof (co_paths _ Hc) as Hpaths. rewrite fmap_app in Hpaths.
  apply NoDup_app in Hpaths as (_ & Hdis & HndK). rewrite <-fileNamed_rep in Eg by done.
  apply lookup_filesMap in Eg as [Hg Hpath]; [|done]. apply (Hdis (file_Path f)).
  - by apply list_elem_of_fmap_2.
  - rewrite <-Hpath. by apply list_elem_of_fmap_2.
Qed.
End points.
