(* ===== verification/ClientLoop.v ===== *)
(** * The background refresh of a client

    Models [refreshLoop] of [src/client/refresh.go]: the loop selects between the end of the
    context and the ticker. Between two ticks the registry changes on its own, so an event
    carries the state of the registry it meets. The loop survives every failed refresh, and
    the resolver always holds a snapshot with its aggregate and its index. *)

From S2P Require Import Prelude GoProg GoStrings Descriptor Protobuf NsFiles NsTypes.
From S2P Require Import NsFilesThms NsTypesThms ClientSnapshot ClientSnapshotThms.
From S2P Require Import ClientAggregate Server GoFS Client ClientManifest ClientCache.
From S2P Require Import ClientRefresh ClientRefreshThms.
From stdpp Require Import prelude gmap strings list.

Open Scope string_scope.
Open Scope list_scope.

Section loop.
Context `{Protoreflect, ProtoTypes, GoRange} {R : Type} `{RegistryConn R}.
Context `{TempNames, TimeText, !Clock R} `{!ProtoFilesLaws, !ProtodescLaws}.
Implicit Types (w : World R) (s : nsSnapshot) (r : Resolver).

(** What [select] receives: a tick, or the end of the context. *)
Inductive loopEvent := Tick (srv : R) | Done.

Definition with_server (srv : R) w : World R :=
  {| w_srv := srv; w_heap := w_heap w; w_fs := w_fs w; w_log := w_log w |}.

(** The body of the loop at a tick. *)
Definition loopTick (fuel i : nat) : Prog (World R) unit :=
  r ← deref i;
  x ← attemptP (Refresh fuel i);
  match x with
  | Ok _ => mret tt
  | Err e => clientLog (ClientWarn "refresh failed; serving stale snapshot" (r_ns r) e)
  end.

Fixpoint refreshLoop (fuel i : nat) (events : list loopEvent) : Prog (World R) unit :=
  match events with
  | [] | Done :: _ => mret tt
  | Tick srv :: events => modifyP (with_server srv) ;; loopTick fuel i ;; refreshLoop fuel i events
  end.

(** ** Consistency *)

(** Resolver [i] is connected, and its aggregate and index are those of its snapshot. *)
Definition serving (i : nat) w : Prop :=
  heap_ok (w_heap w) ∧
  ∃ r s, w_heap w !! i = Some r ∧ r_snapshot r = Some s ∧ r_fromCache r = false ∧
    resolver_rep (r_agg r) s.

(** The schemas the registry offers at a tick: each is listed once and declares its names
    once, and if no name is declared by two of them, they clash in nothing else. *)
Definition good_tick (fuel i : nat) w : Prop :=
  ∀ r s infos sc w1, w_heap w !! i = Some r → r_snapshot r = Some s →
    fetchTarget fuel r (Some s) w = Returns (Ok (infos, sc), w1) →
    NoDup (si_SchemaId <$> infos) ∧ mergeable (sc_next sc) ∧ distinct_names (sc_next sc).

Fixpoint good_ticks (fuel i : nat) (events : list loopEvent) w : Prop :=
  match events with
  | [] | Done :: _ => True
  | Tick srv :: events =>
     good_tick fuel i (with_server srv w) ∧
     ∀ w', loopTick fuel i (with_server srv w) = Returns (Ok tt, w') → good_ticks fuel i events w'
  end.

(** The other objects of the client are not touched. *)
Definition only_resolver (i : nat) w w' : Prop := ∀ j, j ≠ i → w_heap w' !! j = w_heap w !! j.

Lemma Refresh_serving fuel i w :
  serving i w → good_tick fuel i w →
  match Refresh fuel i w with
  | Panics => True
  | Returns (_, w') => serving i w' ∧ only_resolver i w w'
  end.
Proof.
  intros (Hh & r & s & Hr & Hs & Hc & Hrep) Hgood.
  pose proof (Refresh_run fuel i w r s Hr Hc Hs Hh Hrep) as Hrun.
  specialize (Hgood r s). destruct (fetchTarget fuel r (Some s) w) as [[[[infos sc]|e] w1]|].
  - destruct (Hgood infos sc w1 Hr Hs eq_refl) as (Hnd & Hco & Hdn).
    destruct (Hrun Hnd Hco Hdn) as (x & w' & -> & Hx).
    destruct x as [[]|e]; [destruct Hx as (_ & p & s' & Hheap & Hrep' & _)|destruct Hx as [Hheap _]].
    + split; [split|]; rewrite ?Hheap.
      * by apply heap_ok_stored.
      * exists (set_snapshot s' (set_agg p r)), s'. rewrite list_lookup_insert_eq by by eapply lookup_lt_Some.
        by split_and!.
      * intros j Hj. by rewrite Hheap, list_lookup_insert_ne.
    + split; [split; rewrite Hheap; [done|by exists r, s]|]. intros j _. by rewrite Hheap.
  - destruct Hrun as [-> [Hheap _]]. split; [split; rewrite Hheap; [done|by exists r, s]|].
    intros j _. by rewrite Hheap.
  - by rewrite Hrun.
Qed.

Lemma loopTick_serving fuel i w :
  serving i w → good_tick fuel i w →
  match loopTick fuel i w with
  | Panics => Refresh fuel i w = Panics
  | Returns (x, w') => x = Ok tt ∧ serving i w' ∧ only_resolver i w w'
  end.
Proof.
  intros Hs Hg. pose proof (Refresh_serving fuel i w Hs Hg) as Hr.
  destruct Hs as (_ & r & s & Hr0 & _). unfold loopTick, deref, mbind, Prog_bind, attemptP.
  rewrite Hr0. destruct (Refresh fuel i w) as [[[[]|e] w']|]; [done| |done].
  destruct Hr as [Hs' Ho]. by split_and!.
Qed.

(** C14. The background loop serves stale but consistent snapshots. At each tick the registry
    offers any set of schemas, each listed once and declaring its names once, in which two
    may declare one name; if no two do, they share no path, extension number or package
    name either. Then a loop that does not panic never stops
    with an error: a refresh that fails is logged and the next tick goes on; the resolver keeps
    a snapshot with exactly its aggregate and its index, and no other object of the client
    changes. A loop that panics does so in a refresh from such a state. *)
Theorem refreshLoop_consistent fuel i events w :
  serving i w → good_ticks fuel i events w →
  match refreshLoop fuel i events w with
  | Panics => ∃ w1, serving i w1 ∧ Refresh fuel i w1 = Panics
  | Returns (x, w') => x = Ok tt ∧ serving i w' ∧ only_resolver i w w'
  end.
Proof.
  revert w. induction events as [|[srv|] events IH]; intros w Hs Hg; [by split_and!| |by split_and!].
  destruct Hg as [Hg Hnext]. cbn [refreshLoop].
  assert (Hs0 : serving i (with_server srv w)) by done.
  pose proof (loopTick_serving fuel i (with_server srv w) Hs0 Hg) as Ht.
  unfold mbind at 1, Prog_bind at 1, modifyP. unfold mbind at 1, Prog_bind at 1.
  destruct (loopTick fuel i (with_server srv w)) as [[x w1]|]; [|by exists (with_server srv w)].
  destruct Ht as (-> & Hs1 & Ho1). specialize (IH w1 Hs1 (Hnext w1 eq_refl)).
  destruct (refreshLoop fuel i events w1) as [[x w2]|]; [|done].
  destruct IH as (-> & Hs2 & Ho2). split_and!; [done|done|]. intros j Hj. rewrite Ho2 by done.
  by apply (Ho1 j).
Qed.
End loop.
