(* ===== verification/ClientReadersExamples.v ===== *)
(** * A refresh and the lookups beside it, on a concrete client

    A client of namespace [app] whose parent also has a file [user]; the registry then
    publishes a new version of the schema that has [user]. *)

From S2P Require Import Prelude GoProg GoStrings Descriptor Protobuf NsFiles NsTypes NsFilesThms.
From S2P Require Import ClientSnapshot ClientSnapshotThms ClientAggregate Server GoPath GoFS.
From S2P Require Import Client ClientManifest ClientCache ClientRefresh ClientRefreshThms.
From S2P Require Import ClientLookupThms ClientPopulateThms ClientReaders ClientLoop ClientExamples.
From stdpp Require Import prelude gmap strings list pretty.

Open Scope string_scope.
Open Scope list_scope.

#[local] Existing Instance path_files.
#[local] Existing Instance dotted.
#[local] Existing Instance name_types.
#[local] Existing Instance named_desc.
#[local] Existing Instance range_default.
#[local] Existing Instance path_files_laws.
#[local] Existing Instance named_laws.
#[local] Existing Instance tiny_conn.
#[local] Existing Instance fixed_clock.
#[local] Existing Instance any_time.
#[local] Existing Instance long_names.

(** ** The client before the refresh *)

Definition rI : Resolver := default rN (w_heap (stateP wN (installSnapshot (R := Tiny) 0 snapN wN)) !! 0%nat).
Definition aggI : regPair := r_agg rI.
Definition snapI : nsSnapshot := default newSnapshot (r_snapshot rI).

Lemma rI_rep : resolver_rep aggI snapI.
Proof.
  destruct (installSnapshot_run 0 wN rN snapN eq_refl eq_refl snapN_building snapN_coherent snapN_distinct)
    as (x & w' & E & Hx).
  assert (Hok : okP (installSnapshot (R := Tiny) 0 snapN wN) = true) by (vm_compute; reflexivity).
  unfold aggI, snapI, rI. rewrite E in Hok |- *. destruct x as [u|e]; [|discriminate Hok].
  destruct Hx as (p & s & Hh & Hrep & _). cbn [stateP]. rewrite Hh. exact Hrep.
Qed.

(** The parent has its own file [user], with another message. *)
Definition parent_user : FileDescriptor :=
  File "user" "" [] [Message "person" "person" [] [] [] [] []] [] [] [].
Definition parent_files : NamespacedFiles :=
  stateP NewNamespacedFiles (RegisterFile NewNamespacedFiles parent_user).

Definition rG : Resolver := {|
  r_conn := Some 0%nat; r_ownsConn := false; r_rpc := Some 0%nat; r_ns := "app";
  r_cfg := apply_options [WithFallback (Some [parent_files]) None];
  r_snapshot := Some snapI; r_agg := aggI; r_running := true;
  r_ancestors := []; r_fromCache := false |}.

(** The registry has a new version of [users]; it still has the file [user]. *)
Definition tinyG : Tiny := {|
  ty_schemas := {[ "app" := [("users", 4%Z, ["user"; "team"]); ("orders", 1%Z, ["order"])] ]};
  ty_chains := ∅ |}.
Definition wG : World Tiny := {| w_srv := tinyG; w_heap := [rG]; w_fs := disk0; w_log := [] |}.

Definition fetchG : Prog (World Tiny) (list SchemaInfo * scan) := fetchTarget 2 rG (Some snapI).
Definition infosG : list SchemaInfo := (valueP ([], scan_empty) (fetchG wG)).1.
Definition scanG : scan := (valueP ([], scan_empty) (fetchG wG)).2.
Definition removedG : list schemaSnapshot := removedViews (Some snapI) (sc_next scanG).

Lemma fetchG_run : fetchG wG = Returns (Ok (infosG, scanG), stateP wG (fetchG wG)).
Proof.
  unfold infosG, scanG. rewrite <-surjective_pairing. apply run_okP. vm_compute. reflexivity.
Qed.
Lemma infosG_NoDup : NoDup (si_SchemaId <$> infosG).
Proof. refine (bool_decide_eq_true_1 _ _). vm_compute. reflexivity. Qed.
Lemma scanG_coherent : coherent (snapFiles (sc_next scanG)).
Proof. apply coherent_check. vm_compute. reflexivity. Qed.

Lemma applyDiff_accesses_witness :
  same_end (applyDiff 0 removedG scanG wG)
    (on_agg (R := Tiny) 0 (forP_ (diffAccesses removedG scanG) runAccess) wG) ∧
  okP (applyDiff 0 removedG scanG wG) = true ∧ length (diffAccesses removedG scanG) = 8%nat.
Proof.
  split; [apply (applyDiff_accesses 0 removedG scanG wG); by exists rG|].
  split; vm_compute; reflexivity.
Defined.

(** ** What a reader sees *)

(** The message names of the file a lookup by path returns, at each point of the refresh. *)
Definition answer (x : res FileDescriptor) : list string :=
  match x with Ok fd => msg_FullName <$> file_Messages fd | Err _ => ["not found"] end.
Definition seen (path : string) (k : nat) : list string :=
  let agg := stateP aggI (forP_ (take k (diffAccesses removedG scanG)) runAccess aggI) in
  answer (Resolver_FindFileByPath [] (Some (set_agg agg rG)) path).

Lemma lookups_beside_refresh_witness :
  ∃ p X, forP_ (take 3 (diffAccesses removedG scanG)) runAccess aggI = Returns (Ok tt, p) ∧
    (X ⊆+ entriesOf (snapFiles snapI) ∨ X ⊆+ entriesOf (snapFiles (sc_next scanG))) ∧
    Resolver_FindFileByPath [] (Some (set_agg p rG)) "order" =
      match fileNamed (filesOf X) "order" with
      | Some fd => Ok fd
      | None => FindFileByPath (parentFiles [] rG) "order"
      end.
Proof.
  destruct (lookups_beside_refresh 2 wG rG snapI infosG scanG _ (take 3 (diffAccesses removedG scanG))
    (drop 3 (diffAccesses removedG scanG)) eq_refl rI_rep fetchG_run infosG_NoDup scanG_coherent
    (eq_sym (take_drop 3 _))) as (p & X & E & Hsub & _ & Hl).
  exists p, X. split; [exact E|]. split; [exact Hsub|].
  exact (proj1 (proj2 (Hl [] "" "" 0%Z "order"))).
Defined.

(** Old and new version have the file [user], and a reader in between gets the parent's; the
    file of the schema that does not change is always found. *)
Example replaced_file_flickers :
  seen "user" <$> seq 0 9 =
    [["user"]; ["user"]; ["person"]; ["person"]; ["person"]; ["user"]; ["user"]; ["user"]; ["user"]] ∧
  seen "order" <$> seq 0 9 = replicate 9 ["order"].
Proof. split; vm_compute; reflexivity. Qed.

Lemma refresh_gap_witness :
  ∃ p, forP_ (flat_map removeAccesses (droppedViews removedG scanG)) runAccess aggI = Returns (Ok tt, p) ∧
    Resolver_FindFileByPath [] (Some (set_agg p rG)) "user" = Ok parent_user.
Proof.
  assert (Hf : named_file "user" ∈ viewFiles (droppedViews removedG scanG)).
  { assert (El : viewFiles (droppedViews removedG scanG) = [named_file "group"; named_file "user"])
      by (vm_compute; reflexivity).
    rewrite El. right. left. }
  destruct (refresh_gap 2 wG rG snapI infosG scanG _ (named_file "user") eq_refl rI_rep fetchG_run
    infosG_NoDup scanG_coherent Hf) as (p & E & Hl).
  exists p. split; [exact E|].
  assert (Hu : FindFileByPath (parentFiles [] rG) "user" = Ok parent_user) by (vm_compute; reflexivity).
  exact (eq_trans (Hl []) Hu).
Defined.

(** ** A concrete loop *)

Lemma serving_w0 : serving 0 w0.
Proof.
  split; [exact heap_ok_w0|]. exists r0, newSnapshot. split_and!; [done..|]. exact resolver_rep_new.
Qed.

(** One tick at the registry of the examples, then the end of the context. *)
Lemma good_w0 : good_ticks 2 0 [Tick tiny; Done] w0.
Proof.
  split; [|done]. intros r s infos sc w1 Hr Hs Ef. injection Hr as <-. injection Hs as <-.
  assert (E : fetch0 w0 = Returns (Ok (infos, sc), w1)) by exact Ef.
  assert (Et : target0 = (infos, sc)) by (unfold target0; rewrite E; reflexivity).
  split_and!.
  - assert (Hd : bool_decide (NoDup (si_SchemaId <$> target0.1)) = true) by (vm_compute; reflexivity).
    rewrite Et in Hd. exact (bool_decide_eq_true_1 _ Hd).
  - intros _. assert (Hd : bool_decide (ClientExamples.coherent_cond (snapFiles (sc_next target0.2))) = true)
      by (vm_compute; reflexivity).
    rewrite Et in Hd. exact (coherent_check _ Hd).
  - assert (Hd : bool_decide (map_Forall (λ _ ss, NoDup (schemaNames ss))
      (sn_schemas (sc_next target0.2))) = true) by (vm_compute; reflexivity).
    rewrite Et in Hd. exact (distinct_check _ Hd).
Qed.

Lemma refreshLoop_consistent_witness :
  ∃ w', refreshLoop 2 0 [Tick tiny; Done] w0 = Returns (Ok tt, w') ∧ serving 0 w'.
Proof.
  pose proof (refreshLoop_consistent 2 0 [Tick tiny; Done] w0 serving_w0 good_w0) as H.
  assert (Hok : okP (refreshLoop 2 0 [Tick tiny; Done] w0) = true) by (vm_compute; reflexivity).
  destruct (refreshLoop 2 0 [Tick tiny; Done] w0) as [[x w']|]; [|discriminate Hok].
  destruct H as (-> & Hs & _). exists w'. split; [reflexivity|exact Hs].
Defined.

(** ** Schemas that share a path or an extension number *)

(** A view of one file. *)
Definition view_of (id : string) (fd : FileDescriptor) : schemaSnapshot := {|
  ss_schemaID := id; ss_version := 1;
  ss_files := match RegisterFile NewNamespacedFiles fd with
              | Returns (_, r) => r | Panics => NewNamespacedFiles end;
  ss_types := NewNamespacedTypes; ss_aggFingerprint := collect fp_empty fd;
  ss_rawDescriptorSet := "" |}.
Definition note (name : string) : FieldDescriptor :=
  Field name name 100 StringKind Optional "" "" "Config".
Definition file_with (path name : string) (exts : list FieldDescriptor) : FileDescriptor :=
  File path "" [] [Message name name [] [] [] [] []] [] exts [].

(** Two schemas with one path: the last one wins. Taking out the first also takes out the file
    of the other, which is still there, and the other can then not be taken out any more. *)
Example shared_path_is_lost :
  let a := view_of "a" (file_with "x.proto" "A" []) in
  let b := view_of "b" (file_with "x.proto" "B" []) in
  match (applyToAggregate a ;; applyToAggregate b ;; removeFromAggregate a) newAgg with
  | Returns (Ok _, p) =>
     FindFileByPath [rg_files p] "x.proto" = Err (ErrSentinel NotFound) ∧
     FindMessageByName [rg_types p] "B" = Ok (Message "B" "B" [] [] [] [] []) ∧
     okP (removeFromAggregate b p) = false
  | _ => False
  end.
Proof. vm_compute. repeat split. Qed.

(** Two schemas with one extension number: taking out the one that came last loses the
    extension of the other. *)
Example shared_number_is_lost :
  let a := view_of "a" (file_with "a.proto" "A" [note "na"]) in
  let b := view_of "b" (file_with "b.proto" "B" [note "nb"]) in
  match (applyToAggregate a ;; applyToAggregate b ;; removeFromAggregate b) newAgg with
  | Returns (Ok _, p) =>
     FindExtensionByName [rg_types p] "na" = Ok (note "na") ∧
     FindExtensionByNumber [rg_types p] "Config" 100 = Err (ErrSentinel NotFound)
  | _ => False
  end.
Proof. vm_compute. repeat split. Qed.
