(* ===== verification/ClientTest.v ===== *)
(** * The test server of the client library

    Models [src/client/internal/clienttest/clienttest.go]: a registry server over a fresh
    database, without authentication, and the calls the client's tests make on it. A failed
    [require] ends the test; it is the error of the program. The state is the database, the
    memory of the registry and its log; gRPC over the in-memory listener hands a call to its
    handler. *)

From S2P Require Import Prelude GoProg GoStrings Descriptor Protobuf NsFiles NsTypes Compat Compiler.
From S2P Require Import Store Registry Auth Validate Server Paging.
From S2P Require Import ClientSnapshot GoFS Client ClientServer.
From S2P Require Import Namespace Postgres PostgresThms.
From S2P Require Import PostgresPaging RegistryExamples ServerExamples.
From S2P Require Import ClientManifest ClientCache ClientRefresh ClientExamples.
From stdpp Require Import prelude gmap strings list.

Open Scope string_scope.
Open Scope list_scope.

Section clienttest.
Context `{Toolchain, ProtoTypes, ProtoNames, GoRange, CompilerVersion, DriverText} {S : Type}
  `{Store S}.
#[local] Notation SS := (SState (S := S)).
Implicit Types (s : Server) (namespace schemaID : string).

(** The identity a context carries, if an interceptor put one there. *)
Definition IdentityFromContext (ctx : option Identity) : Identity :=
  match ctx with Some id => id | None => AnonymousIdentity end.

(** No interceptor runs on this server. *)
Definition test_caller : Identity := IdentityFromContext None.

Definition Start : M SS Server :=
  Server.reg (Restore (NewRegistry [])) ;;
  mret (NewServer (NewRegistry []) []).

(** The error is logged by the test and dropped. *)
Definition test_CreateNamespace s namespace : M SS unit :=
  attempt (Server_CreateNamespace s test_caller namespace None None) ;; mret tt.

Definition test_Publish s namespace schemaID (sources : gmap string string) : M SS Z :=
  resp ← Server_Publish s test_caller
    {| preq_NamespaceId := namespace; preq_SchemaId := schemaID; preq_Sources := sources;
       preq_CreatedBy := "client/internal/clienttest"; preq_Metadata := None; preq_Force := false |};
  mret (pres_Version resp).

Definition test_Promote s namespace : M SS unit :=
  Server_Promote s test_caller namespace ;; mret tt.

Definition PublishAndPromote s namespace schemaID (sources : gmap string string) : M SS Z :=
  test_CreateNamespace s namespace ;;
  v ← test_Publish s namespace schemaID sources;
  test_Promote s namespace ;;
  mret v.

Definition test_SetNamespaceParent s namespace (parent : string) : M SS unit :=
  Server_SetNamespaceParent s test_caller namespace (Some parent).

(** No error of the call stops a test, not only that of a namespace that exists. *)
Lemma test_CreateNamespace_never_fails s namespace (st : SS) :
  (test_CreateNamespace s namespace st).1 = Ok tt.
Proof.
  unfold test_CreateNamespace, mbind, M_bind, attempt.
  by destruct (Server_CreateNamespace s test_caller namespace None None st).
Qed.
End clienttest.

(** ** A client test, end to end

    A registry over an empty database, a published and promoted schema, a client resolver
    that finds it, a second version, and the refresh that brings it. *)

#[local] Existing Instance path_files.
#[local] Existing Instance name_types.
#[local] Existing Instance named_desc.
#[local] Existing Instance range_default.
#[local] Existing Instance byte_order.
#[local] Existing Instance RegistryExamples.Examples.names.
#[local] Existing Instance RegistryExamples.Examples.release.
#[local] Existing Instance ServerExamples.Examples.driver.
#[local] Existing Instance dotted.
#[local] Existing Instance any_time.
#[local] Existing Instance long_names.

(** A compiler: the file of a name declares one message of that name. *)
#[local] Instance named_toolchain : Toolchain := {|
  SearchResult := string;
  SourceResult s := s;
  Parse f s := ([], [{| tok_IsSynthetic := false; tok_IsSkippable := false; tok_Text := s |}]);
  report_Error := 2;
  sha256Hex s := s;
  SourceAccessorFromMap m p :=
    match m !! p with Some s => Ok s | None => Err (ErrSentinel ErrNotExist) end;
  SourceResolver acc p :=
    match acc with Some acc => acc p | None => Err (ErrSentinel ErrNotExist) end;
  CompositeResolver := first_success;
  WithStandardImports r := r;
  protocompile_Compile _ _ names := Ok (named_file <$> names);
  protos_Open p := Ok "bundled";
  GlobalFiles := Files_empty |}.

#[local] Notation SS := (SState (S := DB)).
#[local] Instance paged : PagedStore DB := postgres_paged ServerExamples.Examples.byte_order_empty.
#[local] Instance noon : Clock SS := λ st, ("2026-01-02T03:04:05Z", st).

Definition test_server : Server := NewServer (NewRegistry []) [].
#[local] Instance test_conn : RegistryConn SS := server_conn test_server test_caller.

(** ** The test *)

Definition empty_registry : SS := {| ss_reg := {| rs_store := empty_db 0; rs_mem := ∅ |}; ss_log := [] |}.
Definition world (st : SS) : World SS :=
  {| w_srv := st; w_heap := []; w_fs := {| fs_files := ∅; fs_dirs := ∅; fs_faults := [] |};
     w_log := [] |}.

(** The first version, and the client. *)
Definition setup : res Z * SS :=
  (s ← Start; PublishAndPromote s "app" "users" {[ "user" := "syntax" ]}) empty_registry.
Definition client1 : outcome (res nat * World SS) := New 5 (Some 0%nat) "app" [] (world setup.2).

(** The second version, and the refresh. *)
Definition second : res Z * SS :=
  PublishAndPromote test_server "app" "users" {[ "user" := "syntax"; "team" := "syntax" ]}
    (w_srv (stateP (world setup.2) client1)).
Definition world2 : World SS :=
  {| w_srv := second.2; w_heap := w_heap (stateP (world setup.2) client1);
     w_fs := w_fs (world setup.2); w_log := [] |}.
Definition client2 : outcome (res unit * World SS) := Refresh 5 0 world2.

(** The message names a resolver of the world knows. *)
Definition knows (w : World SS) (name : string) : bool :=
  match w_heap w !! 0%nat with
  | Some r => match Resolver_FindMessageByName (w_heap w) r name with Ok _ => true | Err _ => false end
  | None => false
  end.

(** The client finds what was published before it was made, and after the next version and a
    refresh what that version adds. *)
Example published_then_found :
  setup.1 = Ok 1%Z ∧ okP client1 = true ∧ second.1 = Ok 2%Z ∧ okP client2 = true ∧
  (let w1 := stateP (world setup.2) client1 in
   let w2 := stateP world2 client2 in
   knows w1 "user" = true ∧ knows w1 "team" = false ∧ knows w2 "user" = true ∧ knows w2 "team" = true).
Proof. repeat split; vm_compute; reflexivity. Qed.
