(* ===== verification/GoURL.v ===== *)
(** * The part of Go's [net/url] package the server command uses

    [url.Parse] and [URL.String] on byte strings: the scheme, the query, the authority with
    its user information, and the escaping of user information are written out. How a host,
    a path and a fragment are checked and escaped does not matter to the callers; those
    functions of the package are the operations of a class. *)

From S2P Require Import Prelude GoStrings GoPath.
From stdpp Require Import prelude strings list.

Open Scope string_scope.

(** ** Bytes *)

Definition colon : Ascii.ascii := Ascii.ascii_of_nat 58.
Definition at_sign : Ascii.ascii := Ascii.ascii_of_nat 64.
Definition hash : Ascii.ascii := Ascii.ascii_of_nat 35.
Definition question : Ascii.ascii := Ascii.ascii_of_nat 63.
Definition percent : Ascii.ascii := Ascii.ascii_of_nat 37.

Definition between (a b : nat) (c : Ascii.ascii) : bool :=
  (a <=? byte_of c)%nat && (byte_of c <=? b)%nat.
Definition is_alpha (c : Ascii.ascii) : bool := between 97 122 c || between 65 90 c.
Definition is_digit (c : Ascii.ascii) : bool := between 48 57 c.
Definition one_of (s : string) (c : Ascii.ascii) : bool := bool_decide (is_Some (IndexByte c s)).

Fixpoint all_bytes (P : Ascii.ascii → bool) (s : string) : bool :=
  match s with EmptyString => true | String c s => P c && all_bytes P s end.

(** [stringContainsCTLByte] looks for these. *)
Definition is_ctl (c : Ascii.ascii) : bool := (byte_of c <? 32)%nat || (byte_of c =? 127)%nat.

(** ** Cutting *)

(** [strings.Cut] at a byte: before, after, found. *)
Fixpoint Cut (c : Ascii.ascii) (s : string) : string * string * bool :=
  match s with
  | EmptyString => ("", "", false)
  | String a s =>
     if decide (a = c) then ("", s, true)
     else let '(before, after, found) := Cut c s in (String a before, after, found)
  end.

(** The parts before and after the last occurrence of a byte. *)
Fixpoint CutLast (c : Ascii.ascii) (s : string) : option (string * string) :=
  match s with
  | EmptyString => None
  | String a s =>
     match CutLast c s with
     | Some (before, after) => Some (String a before, after)
     | None => if decide (a = c) then Some ("", s) else None
     end
  end.

(** ** Escaping of user information *)

Definition upperhex (n : nat) : Ascii.ascii :=
  Ascii.ascii_of_nat (if (n <? 10)%nat then 48 + n else 55 + n).

(** [shouldEscape] with [encodeUserPassword]. *)
Definition shouldEscapeUser (c : Ascii.ascii) : bool :=
  negb (is_alpha c || is_digit c || one_of "-_.~$&+,;=" c).

Fixpoint escapeUser (s : string) : string :=
  match s with
  | EmptyString => ""
  | String c s =>
     if shouldEscapeUser c then
       String percent (String (upperhex (byte_of c / 16)) (String (upperhex (byte_of c mod 16))
         (escapeUser s)))
     else String c (escapeUser s)
  end.

Definition unhex (c : Ascii.ascii) : option nat :=
  if is_digit c then Some (byte_of c - 48)
  else if between 97 102 c then Some (byte_of c - 87)
  else if between 65 70 c then Some (byte_of c - 55) else None.

(** [unescape] with [encodeUserPassword]. *)
Fixpoint unescapeUser (s : string) : res string :=
  match s with
  | EmptyString => Ok ""
  | String c rest =>
     if decide (c = percent) then
       match rest with
       | String a (String b rest') =>
          match unhex a, unhex b with
          | Some x, Some y => t ← unescapeUser rest'; Ok (String (Ascii.ascii_of_nat (16 * x + y)) t)
          | _, _ => Err (ErrNew ("invalid URL escape " +:+ quote (String c (String a (String b "")))))
          end
       | _ => Err (ErrNew ("invalid URL escape " +:+ quote s))
       end
     else t ← unescapeUser rest; Ok (String c t)
  end.

(** The characters [validUserinfo] accepts. *)
Definition userinfo_byte (c : Ascii.ascii) : bool :=
  is_alpha c || is_digit c || one_of "-._:~!$&'()*+,;=%@" c.

(** ** URLs *)

(** [*Userinfo]: the password is [None] when it is not set. *)
Record Userinfo := { ui_username : string; ui_password : option string }.

Record URL := {
  u_Scheme : string; u_Opaque : string; u_User : option Userinfo; u_Host : string;
  u_Path : string; u_RawPath : string; u_OmitHost : bool; u_ForceQuery : bool;
  u_RawQuery : string; u_Fragment : string; u_RawFragment : string }.

(** [parseHost], [escape] of a host, [setPath], [EscapedPath], [setFragment] and
    [EscapedFragment]; a path and a fragment are kept decoded and raw. *)
Class URLText := {
  parseHost : string → res string;
  escapeHost : string → string;
  setPath : string → res (string * string);
  EscapedPath : string → string → string;
  setFragment : string → res (string * string);
  EscapedFragment : string → string → string }.

Definition Userinfo_String (ui : Userinfo) : string :=
  escapeUser (ui_username ui) +:+
  match ui_password ui with Some p => String colon (escapeUser p) | None => "" end.

Fixpoint schemeFrom (first : bool) (s : string) : option (res (string * string)) :=
  match s with
  | EmptyString => None
  | String c s =>
     if is_alpha c then
       match schemeFrom false s with
       | Some (Ok (scheme, rest)) => Some (Ok (String c scheme, rest))
       | x => x
       end
     else if is_digit c || one_of "+-." c then
       if first then None
       else match schemeFrom false s with
            | Some (Ok (scheme, rest)) => Some (Ok (String c scheme, rest))
            | x => x
            end
     else if decide (c = colon) then
       if first then Some (Err (ErrNew "missing protocol scheme")) else Some (Ok ("", s))
     else None
  end.

(** [getScheme]: without a scheme the whole text is the rest. *)
Definition getScheme (rawURL : string) : res (string * string) :=
  match schemeFrom true rawURL with Some x => x | None => Ok ("", rawURL) end.

Section url.
Context `{URLText}.

Definition parseUserinfo (userinfo : string) : res Userinfo :=
  if negb (all_bytes userinfo_byte userinfo) then Err (ErrNew "net/url: invalid userinfo")
  else
    match Cut colon userinfo with
    | (username, password, true) =>
       username ← unescapeUser username;
       password ← unescapeUser password;
       Ok {| ui_username := username; ui_password := Some password |}
    | (_, _, false) =>
       username ← unescapeUser userinfo;
       Ok {| ui_username := username; ui_password := None |}
    end.

Definition parseAuthority (authority : string) : res (option Userinfo * string) :=
  match CutLast at_sign authority with
  | None => host ← parseHost authority; Ok (None, host)
  | Some (userinfo, hostport) =>
     host ← parseHost hostport;
     user ← parseUserinfo userinfo;
     Ok (Some user, host)
  end.

(** The part of [parse] after the scheme and the query. *)
Definition parseRest (scheme query : string) (force : bool) (rest : string) : res URL :=
  let url opaque user host path rawPath omit :=
    {| u_Scheme := scheme; u_Opaque := opaque; u_User := user; u_Host := host; u_Path := path;
       u_RawPath := rawPath; u_OmitHost := omit; u_ForceQuery := force; u_RawQuery := query;
       u_Fragment := ""; u_RawFragment := "" |} in
  if negb (HasPrefix rest "/") && bool_decide (scheme ≠ "") then
    Ok (url rest None "" "" "" false)
  else if negb (HasPrefix rest "/") && Contains (Cut slash rest).1.1 ":" then
    Err (ErrNew "first path segment in URL cannot contain colon")
  else if (bool_decide (scheme ≠ "") || negb (HasPrefix rest "///")) && HasPrefix rest "//" then
    let '(authority, after, slashed) := Cut slash (str_drop 2 rest) in
    uh ← parseAuthority authority;
    p ← setPath (if slashed : bool then String slash after else "");
    Ok (url "" uh.1 uh.2 p.1 p.2 false)
  else
    p ← setPath rest;
    Ok (url "" None "" p.1 p.2 (bool_decide (scheme ≠ "") && HasPrefix rest "/")).

Definition parse (rawURL : string) : res URL :=
  if negb (all_bytes (λ c, negb (is_ctl c)) rawURL) then
    Err (ErrNew "net/url: invalid control character in URL")
  else if decide (rawURL = "*") then
    Ok {| u_Scheme := ""; u_Opaque := ""; u_User := None; u_Host := ""; u_Path := "*";
          u_RawPath := ""; u_OmitHost := false; u_ForceQuery := false; u_RawQuery := "";
          u_Fragment := ""; u_RawFragment := "" |}
  else
    sr ← getScheme rawURL;
    let '(rest, query, found) := Cut question sr.2 in
    parseRest (ToLower sr.1) query (found && bool_decide (query = "")) rest.

(** [u.setFragment]. *)
Definition with_fragment (u : URL) (f : string * string) : URL :=
  {| u_Scheme := u_Scheme u; u_Opaque := u_Opaque u; u_User := u_User u; u_Host := u_Host u;
     u_Path := u_Path u; u_RawPath := u_RawPath u; u_OmitHost := u_OmitHost u;
     u_ForceQuery := u_ForceQuery u; u_RawQuery := u_RawQuery u;
     u_Fragment := f.1; u_RawFragment := f.2 |}.

Definition url_Parse (rawURL : string) : res URL :=
  let '(u, frag, _) := Cut hash rawURL in
  url ← wrap ("parse " +:+ quote u) (parse u);
  if decide (frag = "") then Ok url
  else f ← wrap ("parse " +:+ quote rawURL) (setFragment frag); Ok (with_fragment url f).

Definition URL_String (u : URL) : string :=
  let head := if decide (u_Scheme u = "") then "" else u_Scheme u +:+ ":" in
  let body :=
    if decide (u_Opaque u ≠ "") then head +:+ u_Opaque u
    else
      let authority :=
        if bool_decide (u_Scheme u ≠ "") || bool_decide (u_Host u ≠ "") || bool_decide (is_Some (u_User u)) then
          if u_OmitHost u && bool_decide (u_Host u = "") && negb (bool_decide (is_Some (u_User u))) then ""
          else
            (if bool_decide (u_Host u ≠ "") || bool_decide (u_Path u ≠ "") ||
                bool_decide (is_Some (u_User u)) then "//" else "") +:+
            match u_User u with Some ui => Userinfo_String ui +:+ "@" | None => "" end +:+
            escapeHost (u_Host u)
        else "" in
      let path := EscapedPath (u_Path u) (u_RawPath u) in
      let b := head +:+ authority in
      let b := if negb (HasPrefix path "/") && bool_decide (path ≠ "") && bool_decide (u_Host u ≠ "")
               then b +:+ "/" else b in
      let b := if bool_decide (b = "") && Contains (Cut slash path).1.1 ":" then "./" else b in
      b +:+ path in
  body +:+
  (if u_ForceQuery u || bool_decide (u_RawQuery u ≠ "") then "?" +:+ u_RawQuery u else "") +:+
  (if decide (u_Fragment u = "") then ""
   else "#" +:+ EscapedFragment (u_Fragment u) (u_RawFragment u)).
End url.

(** ** Lemmas *)

Lemma Cut_app c x t :
  no_byte c x → Cut c (x +:+ t) = (x +:+ (Cut c t).1.1, (Cut c t).1.2, (Cut c t).2).
Proof.
  induction x as [|a x IH]; intros Hx; autorewrite with str.
  { by destruct (Cut c t) as [[]]. }
  unfold no_byte in *. cbn in *. case_decide; [done|].
  rewrite IH by by destruct (IndexByte c x). by destruct (Cut c t) as [[]].
Qed.

Lemma Cut_none c x : no_byte c x → Cut c x = (x, "", false).
Proof. intros Hx. rewrite <-(str_app_nil_r x) at 1. rewrite Cut_app by done. cbn. by rewrite str_app_nil_r. Qed.

Lemma CutLast_app c x t before after :
  CutLast c t = Some (before, after) → CutLast c (x +:+ t) = Some (x +:+ before, after).
Proof. intros Ht. induction x as [|a x IH]; autorewrite with str; [done|]. cbn. by rewrite IH. Qed.

Lemma CutLast_none c x : no_byte c x → CutLast c x = None.
Proof.
  unfold no_byte. induction x as [|a x IH]; cbn; [done|]. case_decide; [done|]. intros Hx.
  by rewrite IH by by destruct (IndexByte c x).
Qed.

Lemma all_bytes_app P x t : all_bytes P (x +:+ t) = all_bytes P x && all_bytes P t.
Proof. induction x as [|a x IH]; autorewrite with str; cbn; [done|]. by rewrite IH, andb_assoc. Qed.

(** A text of bytes of one kind has no byte of another. *)
Lemma all_bytes_no_byte P c x : P c = false → all_bytes P x = true → no_byte c x.
Proof.
  unfold no_byte. intros Hc. induction x as [|a x IH]; cbn; [done|].
  intros [Ha Hx]%andb_prop. rewrite IH by done. case_decide; [congruence|done].
Qed.

Lemma all_bytes_impl (P Q : Ascii.ascii → bool) x :
  (∀ c, P c = true → Q c = true) → all_bytes P x = true → all_bytes Q x = true.
Proof.
  intros HPQ. induction x as [|a x IH]; cbn; [done|]. intros [Ha Hx]%andb_prop.
  by rewrite HPQ, IH.
Qed.

Lemma unescapeUser_app x y x' :
  unescapeUser x = Ok x' → unescapeUser (x +:+ y) = (y' ← unescapeUser y; Ok (x' +:+ y')).
Proof.
  remember (String.length x) as n eqn:Hn. revert x x' Hn.
  induction (lt_wf n) as [n _ IH]. intros [|c x] x' ->; autorewrite with str.
  { intros [= <-]. cbn. by destruct (unescapeUser y). }
  cbn [unescapeUser]. case_decide.
  - destruct x as [|a [|b x]]; [done..|]. autorewrite with str.
    destruct (unhex a), (unhex b); [|done..].
    destruct (unescapeUser x) as [t|] eqn:Et; cbn; [|done]. intros [= <-].
    rewrite (IH (String.length x)) with (x' := t); [|cbn; lia|done|done].
    by destruct (unescapeUser y).
  - destruct (unescapeUser x) as [t|] eqn:Et; cbn; [|done]. intros [= <-].
    rewrite (IH (String.length x)) with (x' := t); [|cbn; lia|done|done].
    by destruct (unescapeUser y).
Qed.

(** A scheme of letters ends at its colon. *)
Lemma getScheme_letters scheme rest :
  scheme ≠ "" → all_bytes is_alpha scheme = true →
  getScheme (scheme +:+ String colon rest) = Ok (scheme, rest).
Proof.
  intros Hne Ha. unfold getScheme.
  enough (Hs : ∀ first, (first = true → scheme ≠ "") →
    schemeFrom first (scheme +:+ String colon rest) = Some (Ok (scheme, rest))) by by rewrite Hs.
  clear Hne. induction scheme as [|c s IH]; intros first Hf; autorewrite with str.
  - cbn. destruct first; [by destruct Hf|done].
  - cbn in Ha. apply andb_prop in Ha as [Hc Ha]. cbn. rewrite Hc. by rewrite IH.
Qed.
