(* ===== verification/CtlRoot.v ===== *)
(** * The command tree and the process

    Models [src/internal/ctl/root.go], [dialServer] of [clientconn.go], the flag sets and
    argument counts the commands declare to cobra, and [src/cmd/protoregistry/main.go]. Cobra
    splits the command line; what comes of it is an [Invocation], the flags of the chosen
    command with their values, beside the positional arguments. *)

From S2P Require Import Prelude GoStrings Descriptor Protobuf Server GoDir Ctl CtlLoad CtlCommands.
From S2P Require Import CtlServe.
From stdpp Require Import prelude gmap strings list sorting.

Open Scope string_scope.
Open Scope list_scope.

(** ** Flags *)

(** The values of the persistent flags of the root command that are not given. *)
Definition connDefaults : clientConnConfig :=
  {| cc_serverAddr := ""; cc_tls := false; cc_tlsCA := ""; cc_tlsCert := ""; cc_tlsKey := "";
     cc_tlsServerName := ""; cc_tlsSkipVerify := false; cc_token := "" |}.

(** Those of [serve]. *)
Definition serveDefaults : serveConfig :=
  {| sv_dbURL := ""; sv_listenAddr := ":50051"; sv_builtInsDir := ""; sv_migrate := false;
     sv_tlsCert := ""; sv_tlsKey := ""; sv_tlsClientCA := ""; sv_authTokensFile := "";
     sv_allowAnonymousWrites := true; sv_maxRecvMsgSize := 64 * 1024 * 1024;
     sv_maxSendMsgSize := 64 * 1024 * 1024 |}.

(** A command with its flags; a flag marked as required is [None] when it is not given. A
    command line may also ask for help, as one does that names only the program or a group of
    commands, or be refused by cobra for a word or a flag it does not know. *)
Inductive Invocation :=
| Serve (cfg : serveConfig)
| HelpOf (path : list string)
| Refused (e : error)
| NamespaceList
| NamespaceCreate (metadata : list string)
| SchemaList
| SchemaInfoOf
| SchemaSource (version : Z)
| SchemaDescriptor (version : Z) (outFile : string)
| Push (createdBy : string) (metadata : list string) (promote force : bool)
| Load (createdBy : string) (promote force : bool)
| PromoteAll
| Discard (yes : bool)
| RollbackTo (promote yes force : bool)
| PxfEncode (schema message : option string)
| PxfDecode (schema message : option string)
| PxfValidate (schema message : option string)
| PxfFmt (schema message : option string).

(** ** The command tree *)

Inductive FlagValue := FString (s : string) | FBool (b : bool) | FInt (z : Z) | FUint (z : Z)
  | FStrings (l : list string).
(** A flag: its name, its one-letter form ([EmptyString] for none) and its default. *)
Record Flag := { fl_name : string; fl_short : string; fl_default : FlagValue }.
Definition flag (name : string) (v : FlagValue) : Flag :=
  {| fl_name := name; fl_short := ""; fl_default := v |}.
Definition flagP (name short : string) (v : FlagValue) : Flag :=
  {| fl_name := name; fl_short := short; fl_default := v |}.

(** A [cobra.Command]: its name (the first word of [Use]) and aliases, the number of arguments
    it takes, its own flags, those it hands to its subcommands, the required flags, and the
    subcommands. *)
Inductive Command := mkCommand (name : string) (aliases : list string) (args : nat * option nat)
  (flags persistent : list Flag) (required : list string) (sub : list Command).
Definition cmd_name (c : Command) : string := let '(mkCommand n _ _ _ _ _ _) := c in n.
Definition cmd_aliases (c : Command) : list string := let '(mkCommand _ a _ _ _ _ _) := c in a.
Definition cmd_args (c : Command) : nat * option nat := let '(mkCommand _ _ a _ _ _ _) := c in a.
Definition cmd_flags (c : Command) : list Flag := let '(mkCommand _ _ _ f _ _ _) := c in f.
Definition cmd_persistent (c : Command) : list Flag := let '(mkCommand _ _ _ _ f _ _) := c in f.
Definition cmd_required (c : Command) : list string := let '(mkCommand _ _ _ _ _ r _) := c in r.
Definition cmd_sub (c : Command) : list Command := let '(mkCommand _ _ _ _ _ _ s) := c in s.

Definition leaf (name : string) (lo : nat) (hi : option nat) (flags : list Flag)
    (required : list string) : Command := mkCommand name [] (lo, hi) flags [] required [].
Definition group (name : string) (aliases : list string) (sub : list Command) : Command :=
  mkCommand name aliases (0%nat, None) [] [] [] sub.

Definition newNamespaceListCmd : Command := leaf "list" 0 (Some 0%nat) [] [].
Definition newNamespaceCreateCmd : Command :=
  leaf "create" 1 (Some 1%nat) [flag "metadata" (FStrings [])] [].
Definition newNamespaceCmd : Command :=
  group "namespace" ["ns"] [newNamespaceListCmd; newNamespaceCreateCmd].

Definition newSchemaListCmd : Command := leaf "list" 0 (Some 1%nat) [] [].
Definition newSchemaInfoCmd : Command := leaf "info" 1 (Some 2%nat) [] [].
Definition newSchemaSourceCmd : Command :=
  leaf "source" 1 (Some 2%nat) [flag "version" (FUint 0)] [].
Definition newSchemaDescriptorCmd : Command :=
  leaf "descriptor" 1 (Some 2%nat) [flag "version" (FUint 0); flag "out" (FString "")] [].
Definition newSchemaCmd : Command :=
  group "schema" [] [newSchemaListCmd; newSchemaInfoCmd; newSchemaSourceCmd; newSchemaDescriptorCmd].

Definition newPromoteCmd : Command := leaf "promote" 0 (Some 1%nat) [] [].
Definition newDiscardCmd : Command := leaf "discard" 0 (Some 1%nat) [flag "yes" (FBool false)] [].
Definition newRollbackCmd : Command :=
  leaf "rollback" 2 (Some 3%nat)
    [flag "promote" (FBool false); flag "yes" (FBool false); flag "force" (FBool false)] [].

(** The four commands on a message declare the same flags. *)
Definition pxfFlags : list Flag := [flag "schema" (FString ""); flagP "message" "m" (FString "")].
Definition newPXFEncodeCmd : Command := leaf "encode" 1 (Some 2%nat) pxfFlags ["schema"; "message"].
Definition newPXFDecodeCmd : Command := leaf "decode" 1 (Some 2%nat) pxfFlags ["schema"; "message"].
Definition newPXFValidateCmd : Command := leaf "validate" 1 (Some 2%nat) pxfFlags ["schema"; "message"].
Definition newPXFFmtCmd : Command := leaf "fmt" 1 (Some 2%nat) pxfFlags ["schema"; "message"].
Definition newPXFCmd : Command :=
  group "pxf" [] [newPXFEncodeCmd; newPXFDecodeCmd; newPXFValidateCmd; newPXFFmtCmd].

(** [serve] takes any arguments and ignores them. *)
Definition newServeCmd : Command :=
  leaf "serve" 0 None
    [flag "db" (FString (sv_dbURL serveDefaults)); flag "listen" (FString (sv_listenAddr serveDefaults));
     flag "builtins" (FString (sv_builtInsDir serveDefaults)); flag "migrate" (FBool (sv_migrate serveDefaults));
     flag "tls-cert" (FString (sv_tlsCert serveDefaults)); flag "tls-key" (FString (sv_tlsKey serveDefaults));
     flag "tls-client-ca" (FString (sv_tlsClientCA serveDefaults));
     flag "auth-tokens-file" (FString (sv_authTokensFile serveDefaults));
     flag "insecure-allow-anonymous-writes" (FBool (sv_allowAnonymousWrites serveDefaults));
     flag "max-recv-msg-size" (FInt (sv_maxRecvMsgSize serveDefaults));
     flag "max-send-msg-size" (FInt (sv_maxSendMsgSize serveDefaults))] [].

Definition rootFlags : list Flag :=
  [flagP "server" "s" (FString (cc_serverAddr connDefaults)); flagP "namespace" "n" (FString "");
   flagP "output" "o" (FString "table"); flag "tls" (FBool (cc_tls connDefaults));
   flag "tls-ca" (FString (cc_tlsCA connDefaults)); flag "tls-cert" (FString (cc_tlsCert connDefaults));
   flag "tls-key" (FString (cc_tlsKey connDefaults));
   flag "tls-server-name" (FString (cc_tlsServerName connDefaults));
   flag "tls-skip-verify" (FBool (cc_tlsSkipVerify connDefaults));
   flag "token" (FString (cc_token connDefaults))].

Section tree.
(** The value of the environment variable [USER] when the tree is built. *)
Context (user : string).

Definition newPushCmd : Command :=
  leaf "push" 2 None
    [flag "created-by" (FString user); flag "metadata" (FStrings []); flag "promote" (FBool false);
     flag "force" (FBool false)] [].
Definition newLoadCmd : Command :=
  leaf "load" 1 (Some 2%nat)
    [flag "created-by" (FString user); flag "promote" (FBool false); flag "force" (FBool false)] [].

Definition NewRootCmd : Command :=
  mkCommand "protoregistry" [] (0%nat, None) [] rootFlags []
    [newServeCmd; newNamespaceCmd; newSchemaCmd; newPushCmd; newLoadCmd; newPromoteCmd;
     newDiscardCmd; newRollbackCmd; newPXFCmd].

(** The path and the node of the command of an invocation. *)
Definition commandPath (inv : Invocation) : list string :=
  match inv with
  | Serve _ => ["serve"]
  | HelpOf path => path
  | Refused _ => []
  | NamespaceList => ["namespace"; "list"]
  | NamespaceCreate _ => ["namespace"; "create"]
  | SchemaList => ["schema"; "list"]
  | SchemaInfoOf => ["schema"; "info"]
  | SchemaSource _ => ["schema"; "source"]
  | SchemaDescriptor _ _ => ["schema"; "descriptor"]
  | Push _ _ _ _ => ["push"]
  | Load _ _ _ => ["load"]
  | PromoteAll => ["promote"]
  | Discard _ => ["discard"]
  | RollbackTo _ _ _ => ["rollback"]
  | PxfEncode _ _ => ["pxf"; "encode"]
  | PxfDecode _ _ => ["pxf"; "decode"]
  | PxfValidate _ _ => ["pxf"; "validate"]
  | PxfFmt _ _ => ["pxf"; "fmt"]
  end.

(** The node a path leads to; a word is the name or an alias of a subcommand. *)
Fixpoint findCommand (path : list string) (c : Command) : option Command :=
  match path with
  | [] => Some c
  | w :: path =>
     x ← list_find (λ s, cmd_name s = w ∨ w ∈ cmd_aliases s) (cmd_sub c);
     findCommand path x.2
  end.
Definition commandOf (inv : Invocation) : Command :=
  default NewRootCmd (findCommand (commandPath inv) NewRootCmd).

(** The flags that are given, among those that can be required. *)
Definition givenFlags (inv : Invocation) : list string :=
  match inv with
  | PxfEncode schema message | PxfDecode schema message
  | PxfValidate schema message | PxfFmt schema message =>
     (if schema then ["schema"] else []) ++ (if message then ["message"] else [])
  | _ => []
  end.
Definition missingFlags (inv : Invocation) : list string :=
  merge_sort String.le (filter (λ f, f ∉ givenFlags inv) (cmd_required (commandOf inv))).

(** A flag set has one flag per name and per letter, the flags it inherits under other names
    included, and sibling commands have different names; the flag library panics otherwise. *)
Fixpoint well_formed (inherited : list Flag) (c : Command) : bool :=
  let own := cmd_flags c ++ cmd_persistent c in
  let visible := own ++ filter (λ f, fl_name f ∉ fl_name <$> own) inherited in
  bool_decide (NoDup (fl_name <$> own)) &&
  bool_decide (NoDup (filter (λ s, s ≠ "") (fl_short <$> visible))) &&
  bool_decide (Forall (λ r, r ∈ fl_name <$> own) (cmd_required c)) &&
  bool_decide (NoDup (flat_map (λ s, cmd_name s :: cmd_aliases s) (cmd_sub c))) &&
  (let '(mkCommand _ _ _ _ _ _ sub) := c in
   forallb (well_formed (cmd_persistent c ++ inherited)) sub).

Lemma NewRootCmd_well_formed : well_formed [] NewRootCmd = true.
Proof. vm_compute. reflexivity. Qed.

(** The commands that talk to a server. *)
Definition dials (inv : Invocation) : bool :=
  match inv with Serve _ | HelpOf _ | Refused _ => false | _ => true end.

(** Every one of them is a command of the tree. *)
Lemma commandOf_found inv :
  dials inv = true → findCommand (commandPath inv) NewRootCmd = Some (commandOf inv).
Proof. destruct inv; try discriminate; intros _; vm_compute; reflexivity. Qed.
End tree.

(** ** The process *)

(** gRPC's client constructor and connection, what cobra reports for missing flags, and what
    [runServe] returns when it ends (the server it starts is modelled in [CtlServe]). *)
Class CtlProcess `{TLSFiles} := {
  grpc_NewConn : string → option tlsConfig → option string → res unit;
  conn_CloseErr : res unit;
  required_error : list string → error;
  serve_result : serveConfig → res unit;
  env_value : string → string }.

Record connection `{TLSFiles} := {
  cn_addr : string; cn_tls : option tlsConfig; cn_token : option string; cn_open : bool }.

(** The state of a command, the connections the process opened, and its standard error. *)
Record Proc (R : Type) `{TLSFiles} := {
  pr_ctl : CtlState R; pr_conns : list connection; pr_stderr : list string }.
Arguments pr_ctl {_ _}. Arguments pr_conns {_ _}. Arguments pr_stderr {_ _}.

Section process.
Context `{Cobra, CtlOS, PXF} {R : Type} `{RegistryClient R} `{ImportParser} `{CtlProcess}.
Context `{DriverText}.
#[local] Notation PS := (Proc R).
#[local] Notation user := (env_value "USER").
Implicit Types (inv : Invocation) (args : list string) (st : PS).

Definition eprint (line : string) : M PS unit :=
  modify (λ st, {| pr_ctl := pr_ctl st; pr_conns := pr_conns st; pr_stderr := pr_stderr st ++ [line] |}).
Definition on_ctl {A} (m : M (CtlState R) A) : M PS A := λ st,
  let '(x, c) := m (pr_ctl st) in
  (x, {| pr_ctl := c; pr_conns := pr_conns st; pr_stderr := pr_stderr st |}).

Definition plaintextWarning : string :=
  "warning: --token is set without TLS; the bearer token will be sent over a plaintext connection. Pass --tls (or one of --tls-ca/--tls-cert/--tls-server-name) to encrypt.".

Definition dialServer (c : clientConnConfig) : M PS unit :=
  opts ← of_res (dialOptions c);
  wrapM ("connecting to " +:+ cc_serverAddr c) (of_res (grpc_NewConn (cc_serverAddr c) opts.1 opts.2)) ;;
  modify (λ st, {| pr_ctl := pr_ctl st;
                   pr_conns := pr_conns st ++ [{| cn_addr := cc_serverAddr c; cn_tls := opts.1;
                                                  cn_token := opts.2; cn_open := true |}];
                   pr_stderr := pr_stderr st |}).

Definition PersistentPreRunE (connCfg : clientConnConfig) (name : string) : M PS unit :=
  if decide (name = "serve" ∨ name = "protoregistry") then mret tt
  else
    let '(c, warn) := withEnvironment env_value connCfg in
    (if warn : bool then eprint plaintextWarning else mret tt) ;;
    dialServer c.

(** The last connection is the one of the command. *)
Definition close_conn (c : connection) : connection :=
  {| cn_addr := cn_addr c; cn_tls := cn_tls c; cn_token := cn_token c; cn_open := false |}.
Definition PersistentPostRunE : M PS unit := λ st,
  match pr_conns st with
  | [] => (Ok tt, st)
  | conns =>
     (conn_CloseErr, {| pr_ctl := pr_ctl st; pr_stderr := pr_stderr st;
                        pr_conns := alter close_conn (length conns - 1)%nat conns |})
  end.

(** The [RunE] of a command. *)
Definition runE (disk : string → res FsNode) (output : string) (defaultNS : option string) inv args
    : M (CtlState R) unit :=
  let json := bool_decide (output = "json") in
  let text := default "" in
  match inv with
  | Serve cfg => of_res (serve_result cfg)
  | HelpOf _ | Refused _ => mret tt
  | NamespaceList => namespaceListCmd json args
  | NamespaceCreate metadata => namespaceCreateCmd metadata args
  | SchemaList => schemaListCmd json defaultNS args
  | SchemaInfoOf => schemaInfoCmd json defaultNS args
  | SchemaSource version => schemaSourceCmd json defaultNS version args
  | SchemaDescriptor version outFile => schemaDescriptorCmd defaultNS version outFile args
  | Push createdBy metadata promote force => pushCmd defaultNS disk createdBy metadata promote force args
  | Load createdBy promote force => loadCmd defaultNS disk createdBy promote force args
  | PromoteAll => promoteCmd defaultNS args
  | Discard yes => discardCmd defaultNS yes args
  | RollbackTo promote yes force => rollbackCmd defaultNS promote yes force args
  | PxfEncode schema message => pxfEncodeCmd defaultNS (text schema) (text message) args
  | PxfDecode schema message => pxfDecodeCmd defaultNS (text schema) (text message) args
  | PxfValidate schema message => pxfValidateCmd defaultNS (text schema) (text message) args
  | PxfFmt schema message => pxfFmtCmd defaultNS (text schema) (text message) args
  end.

(** The order of cobra: the argument count, the hook before, the required flags, the
    command, and after a command without error the hook after. Help is printed, and a command
    line refused, before any of it. *)
Definition runCommand (connCfg : clientConnConfig) (disk : string → res FsNode) (output : string)
    (defaultNS : option string) inv args : M PS unit :=
  match inv with
  | HelpOf _ => mret tt
  | Refused e => fail e
  | _ =>
    let cmd := commandOf user inv in
    on_ctl (rangeArgs (cmd_args cmd).1 (cmd_args cmd).2 args) ;;
    PersistentPreRunE connCfg (cmd_name cmd) ;;
    (if decide (missingFlags user inv = []) then mret tt
     else fail (required_error (missingFlags user inv))) ;;
    on_ctl (runE disk output defaultNS inv args) ;;
    PersistentPostRunE
  end.

(** [Execute]: cobra prints the error of a command, since [SilenceErrors] is not set. *)
Definition Execute (connCfg : clientConnConfig) (disk : string → res FsNode) (output : string)
    (defaultNS : option string) inv args : M PS unit := λ st,
  match runCommand connCfg disk output defaultNS inv args st with
  | (Ok _, st) => (Ok tt, st)
  | (Err e, st) => (Err e, (eprint ("Error: " +:+ error_Error e) st).2)
  end.

(** [main]: the exit status and the final state. *)
Definition main (connCfg : clientConnConfig) (disk : string → res FsNode) (output : string)
    (defaultNS : option string) inv args st : nat * PS :=
  match Execute connCfg disk output defaultNS inv args st with
  | (Ok _, st) => (0%nat, st)
  | (Err e, st) => (1%nat, (eprint ("Error: " +:+ error_Error e) st).2)
  end.
(** ** What a run does *)

(** No other command is named like the root or [serve]. *)
Lemma commandName_dials inv :
  dials inv = true →
  ¬ (cmd_name (commandOf user inv) = "serve" ∨ cmd_name (commandOf user inv) = "protoregistry").
Proof. destruct inv; try discriminate; vm_compute; by intros _ []. Qed.

(** The token is sent in plaintext exactly when the command warns. *)
Lemma plaintext_warns (c : clientConnConfig) opts :
  let '(c', warn) := withEnvironment env_value c in
  dialOptions c' = Ok opts → warn = true ↔ opts.1 = None ∧ is_Some opts.2.
Proof.
  unfold withEnvironment. set (c' := Build_clientConnConfig _ _ _ _ _ _ _ _).
  change (if decide (cc_token c = "") then _ else _) with (cc_token c').
  clearbody c'. unfold dialOptions.
  destruct (tlsEnabled c').
  - destruct (buildClientTLSConfig c'); intros [= <-]. cbn. rewrite andb_false_r. naive_solver.
  - intros [= <-]. cbn. rewrite andb_true_r, bool_decide_eq_true. case_decide.
    + split; [done|]. by intros [_ [? ?]].
    + split; [|done]. intros _. split; [done|by eexists].
Qed.

(** The connection the hook before a command makes. *)
Lemma PreRun_spec connCfg inv st x st' :
  dials inv = true →
  PersistentPreRunE connCfg (cmd_name (commandOf user inv)) st = (x, st') →
  let c := (withEnvironment env_value connCfg).1 in
  pr_ctl st' = pr_ctl st ∧
  match x with
  | Err _ => pr_conns st' = pr_conns st
  | Ok _ => ∃ opts, dialOptions c = Ok opts ∧
      pr_conns st' = pr_conns st ++ [{| cn_addr := cc_serverAddr c; cn_tls := opts.1;
                                        cn_token := opts.2; cn_open := true |}] ∧
      (opts.1 = None → is_Some opts.2 → plaintextWarning ∈ pr_stderr st')
  end.
Proof.
  intros Hd. unfold PersistentPreRunE. rewrite decide_False by by apply commandName_dials.
  pose proof (plaintext_warns connCfg) as Hw.
  destruct (withEnvironment env_value connCfg) as [c warn]. cbn [fst]. intros E.
  assert (∃ st1, (if warn : bool then eprint plaintextWarning else mret tt) st = (Ok tt, st1) ∧
    pr_ctl st1 = pr_ctl st ∧ pr_conns st1 = pr_conns st ∧
    (warn = true → plaintextWarning ∈ pr_stderr st1)) as (st1 & E1 & Hc & Hn & Hs).
  { destruct warn; eexists; (split; [done|]); [|done]. split_and!; [done|done|].
    intros _. cbn. apply elem_of_app. right. left. }
  unfold mbind at 1, M_bind at 1 in E. rewrite E1 in E. unfold dialServer in E.
  destruct (dialOptions c) as [opts|e] eqn:Ed; [|by injection E as <- <-].
  cbv [mbind M_bind of_res wrapM modify] in E.
  destruct (grpc_NewConn (cc_serverAddr c) opts.1 opts.2); cbn in E; injection E as <- <-; cbn; [|done].
  rewrite Hc, Hn. split; [done|]. exists opts. split_and!; [done|done|]. intros Hp Ht.
  by apply Hs, (Hw opts).
Qed.

Lemma on_ctl_frame {A} (m : M (CtlState R) A) st :
  pr_conns (on_ctl m st).2 = pr_conns st ∧ pr_stderr (on_ctl m st).2 = pr_stderr st.
Proof. unfold on_ctl. by destruct (m (pr_ctl st)). Qed.

(** A client command, without the two cases cobra answers itself. *)
Lemma runCommand_dials connCfg disk output defaultNS inv args :
  dials inv = true →
  runCommand connCfg disk output defaultNS inv args =
   (let cmd := commandOf user inv in
    on_ctl (rangeArgs (cmd_args cmd).1 (cmd_args cmd).2 args) ;;
    PersistentPreRunE connCfg (cmd_name cmd) ;;
    (if decide (missingFlags user inv = []) then mret tt
     else fail (required_error (missingFlags user inv))) ;;
    on_ctl (runE disk output defaultNS inv args) ;;
    PersistentPostRunE).
Proof. by destruct inv. Qed.

(** What a client command does to the outside. *)
Definition connected (c : clientConnConfig) st code st' : Prop :=
  (code = 1%nat ∧ pr_conns st' = [] ∧ pr_ctl st' = pr_ctl st) ∨
  ∃ opts closed, dialOptions c = Ok opts ∧
    pr_conns st' = [{| cn_addr := cc_serverAddr c; cn_tls := opts.1; cn_token := opts.2;
                       cn_open := negb closed |}] ∧
    (opts.1 = None → is_Some opts.2 → plaintextWarning ∈ pr_stderr st') ∧
    (code = 0%nat → closed = true).

Lemma client_connection connCfg disk output defaultNS inv args st code st' :
  pr_conns st = [] → dials inv = true →
  main connCfg disk output defaultNS inv args st = (code, st') →
  connected (withEnvironment env_value connCfg).1 st code st'.
Proof.
  intros Hn Hd. unfold main, Execute. rewrite runCommand_dials by done. unfold mbind, M_bind.
  destruct (on_ctl_frame (rangeArgs (cmd_args (commandOf user inv)).1 (cmd_args (commandOf user inv)).2 args) st) as [Hn1 _].
  assert (Hc1 : pr_ctl (on_ctl (rangeArgs (cmd_args (commandOf user inv)).1 (cmd_args (commandOf user inv)).2 args) st).2 = pr_ctl st).
  { unfold on_ctl, rangeArgs. by destruct (_ && _). }
  destruct (on_ctl _ st) as [[[]|e] st1]; cbn in Hn1, Hc1.
  2: { intros [= <- <-]. left. cbn. by rewrite Hn1. }
  destruct (PersistentPreRunE connCfg (cmd_name (commandOf user inv)) st1) as [x st2] eqn:Ep.
  apply PreRun_spec in Ep as [Hc2 Hx]; [|done]. rewrite Hc1 in Hc2. rewrite Hn1, Hn in Hx.
  destruct x as [[]|e].
  2: { intros [= <- <-]. left. cbn. by rewrite Hx. }
  destruct Hx as (opts & Ed & Hn2 & Hw). cbn in Hn2.
  assert (Hfail : ∀ l, pr_conns l = pr_conns st2 → pr_stderr l = pr_stderr st2 → ∀ e,
    (let l' := (eprint ("Error: " +:+ error_Error e) (eprint ("Error: " +:+ error_Error e) l).2).2 in
    (1%nat, l') = (code, st')) → pr_conns st' = pr_conns st2 ∧ code = 1%nat ∧
      (plaintextWarning ∈ pr_stderr st2 → plaintextWarning ∈ pr_stderr st')).
  { intros l El Es e [= <- <-]. cbn. rewrite El, Es. split_and!; [done|done|]. set_solver. }
  intros E. right. exists opts. case_decide.
  2: { apply (Hfail st2) in E as (E1 & -> & E3); [|done..]. exists false. rewrite E1, Hn2. split_and!; [done|done|auto|done]. }
  cbn in E. destruct (on_ctl_frame (runE disk output defaultNS inv args) st2) as [Hn3 Hs3].
  destruct (on_ctl (runE disk output defaultNS inv args) st2) as [[[]|e] st3]; cbn in Hn3, Hs3.
  2: { apply (Hfail st3) in E as (E1 & -> & E3); [|done..]. exists false. rewrite E1, Hn2. split_and!; [done|done|auto|done]. }
  exists true. unfold PersistentPostRunE in E. rewrite Hn3, Hn2 in E. cbn in E.
  destruct conn_CloseErr; injection E as <- <-; cbn; rewrite Hs3; split_and!; try done.
  intros ? ?. set_solver.
Qed.


(** [serve] runs without the hooks. *)
Lemma serve_run connCfg disk output defaultNS cfg args st :
  pr_conns st = [] →
  ∃ st', runCommand connCfg disk output defaultNS (Serve cfg) args st = (serve_result cfg, st') ∧
    pr_conns st' = [] ∧ pr_ctl st' = pr_ctl st.
Proof.
  intros Hn. exists st. split; [|done]. unfold runCommand, mbind, M_bind.
  change (commandOf user (Serve cfg)) with newServeCmd. cbn [cmd_args cmd_name newServeCmd leaf fst snd].
  destruct st as [c conns out]. cbn in Hn. subst conns. unfold on_ctl at 1, rangeArgs. cbn [Nat.leb andb].
  unfold PersistentPreRunE. rewrite decide_True by by left.
  change (missingFlags user (Serve cfg)) with ([] : list string). rewrite decide_True by done.
  unfold on_ctl, runE. cbn. by destruct (serve_result cfg) as [[]|e].
Qed.

(** C28. What a run of the program does to the outside, for every command it declares. A client
    command either exits with status 1 without having made a connection or reached the
    registry; or it made one connection, to the address and with the credentials of the flags
    and the environment, and if the bearer token travels on it in plaintext then the warning
    was printed; if it succeeds, the connection is closed. [serve] makes no connection, and
    its status says whether the server ended without error. A run that prints help, as the
    program without a command does, makes none and exits with status 0; a command line that
    cobra refuses makes none and exits with status 1. *)
Theorem main_connection connCfg disk output defaultNS inv args st code st' :
  pr_conns st = [] → main connCfg disk output defaultNS inv args st = (code, st') →
  match inv with
  | Serve cfg => pr_conns st' = [] ∧ pr_ctl st' = pr_ctl st ∧
      (code = 0%nat ↔ serve_result cfg = Ok tt)
  | HelpOf _ => code = 0%nat ∧ pr_conns st' = [] ∧ pr_ctl st' = pr_ctl st
  | Refused _ => code = 1%nat ∧ pr_conns st' = [] ∧ pr_ctl st' = pr_ctl st
  | _ => connected (withEnvironment env_value connCfg).1 st code st'
  end.
Proof.
  intros Hn. destruct inv as [cfg|path|e| | | | | | | | | | | | | | |];
    try (intros E; eapply client_connection; [exact Hn| |exact E]; reflexivity).
  - intros E. destruct (serve_run connCfg disk output defaultNS cfg args st Hn) as (st1 & E1 & Hn1 & Hc1).
    unfold main, Execute in E. rewrite E1 in E.
    destruct (serve_result cfg) as [[]|e]; injection E as <- <-; cbn; rewrite Hn1, Hc1; by split_and!.
  - by intros [= <- <-].
  - intros [= <- <-]. cbn. by rewrite Hn.
Qed.

(** A command that fails is reported twice: by cobra, whose error output is not switched
    off, and by [main]; the exit status is 1. *)
Theorem main_reports_twice connCfg disk output defaultNS inv args st e st1 :
  runCommand connCfg disk output defaultNS inv args st = (Err e, st1) →
  main connCfg disk output defaultNS inv args st =
    (1%nat, {| pr_ctl := pr_ctl st1; pr_conns := pr_conns st1;
               pr_stderr := pr_stderr st1 ++ ["Error: " +:+ error_Error e; "Error: " +:+ error_Error e] |}).
Proof. intros E. unfold main, Execute. rewrite E. cbn. by rewrite <-app_assoc. Qed.
End process.
