(* ===== verification/CtlExamples.v ===== *)
(** * Runs of the command line and of the served registry

    Directory trees, a parser of imports, operators and environments, and at them the
    witnesses of the theorems on the client's listing, on the loaders, on the commands and
    on the server process. *)

From S2P Require Import Prelude GoProg GoStrings GoPath Descriptor Protobuf NsFiles NsTypes Compat.
From S2P Require Import Compiler Namespace Store Postgres PostgresThms Registry Validate Auth.
From S2P Require Import Server ServerThms Paging PostgresPaging RegistryExamples ServerExamples GoFS Client.
From S2P Require Import ClientSnapshot ClientServer GoDir Ctl CtlLoad CtlLoadThms CtlCommands.
From S2P Require Import CtlCommandsThms CtlServe.
From S2P Require Import CtlRoot.
From stdpp Require Import prelude gmap strings list.

Open Scope string_scope.
Open Scope list_scope.

#[local] Existing Instance path_files.
#[local] Existing Instance name_types.
#[local] Existing Instance self_desc.
#[local] Existing Instance plain_toolchain.
#[local] Existing Instance range_default.
#[local] Existing Instance byte_order.
#[local] Existing Instance RegistryExamples.Examples.names.
#[local] Existing Instance RegistryExamples.Examples.release.
#[local] Existing Instance ServerExamples.Examples.driver.
#[local] Existing Instance ServerExamples.Examples.paged.
#[local] Notation SS := (SState (S := DB)).
#[local] Notation server := ServerExamples.Examples.server.
#[local] Notation ann := ServerExamples.Examples.ann.
#[local] Notation two := ServerExamples.Examples.two.

(** ** The client's listing *)

Definition cli : Resolver := {|
  r_conn := Some 0%nat; r_ownsConn := false; r_rpc := Some 0%nat; r_ns := "app";
  r_cfg := defaultConfig; r_snapshot := None; r_agg := newAgg; r_running := false;
  r_ancestors := []; r_fromCache := false |}.
Definition served : SS := (ServerExamples.Examples.publish ServerExamples.Examples.start).2.
Definition wT : World SS :=
  {| w_srv := served; w_heap := [];
     w_fs := {| fs_files := ∅; fs_dirs := ∅; fs_faults := [] |}; w_log := [] |}.

#[local] Instance ann_conn : RegistryConn SS := server_conn server ann.

Lemma listAllSchemas_complete_witness :
  ∃ L, listAllSchemas 5 cli wT = Returns (Ok L, wT) ∧
    (si_SchemaId <$> L) = ["users"].
Proof.
  eexists. split.
  - apply (listAllSchemas_complete server ann 5 cli 0%nat wT).
    + reflexivity.
    + vm_compute. repeat split; discriminate.
    + vm_compute. reflexivity.
    + refine (proj1 (Forall_forall (λ a, sc_SchemaID a ≠ EmptyString ∧
        (strlen (sc_SchemaID a) <= 256)%Z) _) _).
      apply (bool_decide_unpack _). vm_compute. exact I.
    + vm_compute. lia.
  - vm_compute. reflexivity.
Defined.

(** ** Directories *)

(** A parser for sources that are just the path of one import, or empty. *)
Definition one_import : ImportParser := λ _ content,
  ([], if decide (content = "") then [] else [(false, content)]).
#[local] Existing Instance one_import.

(** [/protos] holds [a.proto], which imports [c.proto], a note and a subdirectory. *)
Definition tree : FsNode := DirNode (Ok tt)
  [("a.proto", FileNode (Ok "c.proto")); ("c.proto", FileNode (Ok ""));
   ("note.txt", FileNode (Err (ErrNew "permission denied")));
   ("sub", DirNode (Ok tt) [("b.proto", FileNode (Ok "a.proto"))])].
Definition cycle : FsNode := DirNode (Ok tt)
  [("a.proto", FileNode (Ok "b.proto")); ("b.proto", FileNode (Ok "a.proto"))].
Definition disk (n : FsNode) : string → res FsNode := λ p,
  if decide (p = "/protos") then Ok n else Err (ErrNew "no such file").

Lemma tree_is_ok : tree_ok tree.
Proof.
  repeat first [ progress constructor | done | set_solver | split | intros ? ];
    try (refine (bool_decide_eq_true_1 _ _); vm_compute; reflexivity).
Qed.

Lemma tree_readable root : (∀ n, n = tree → ∀ x, x ∈ treeFiles [] n → x.1 ≠ ["note.txt"] → is_ok x.2 = true) →
  HasSuffix (walkPath root ["note.txt"]) ".proto" = false → protos_readable root tree.
Proof.
  intros Hok Hn x Hx Hs. apply (Hok tree eq_refl x Hx). intros E. rewrite E, Hn in Hs. discriminate Hs.
Qed.

Lemma tree_protos : protos_readable "/protos" tree.
Proof.
  apply tree_readable; [|vm_compute; reflexivity]. intros n -> x. unfold tree. cbn.
  intros Hx Hn. repeat (apply elem_of_cons in Hx as [->|Hx]; [first [done|by destruct Hn]|]).
  by apply elem_of_nil in Hx.
Qed.

(** The built-ins of the tree: three files, the one of the subdirectory under its path. *)
Lemma LoadBuiltIns_exact_witness :
  ∃ l, LoadBuiltIns "/protos" (Ok tree) = Ok l ∧
    (ds_Filename <$> l) = ["a.proto"; "c.proto"; "sub/b.proto"].
Proof.
  destruct (LoadBuiltIns_exact "/protos" tree tree_is_ok tree_protos) as [E _].
  eexists. split; [exact E|]. vm_compute. reflexivity.
Defined.

(** ** Loading a directory *)

#[local] Instance ann_client : RegistryClient SS := server_client server ann.
Definition at_start : CtlState SS :=
  {| ct_srv := ServerExamples.Examples.start; ct_out := []; ct_stdin := Ok ""; ct_tty := false;
     ct_files := ∅ |}.
Definition load (n : FsNode) : res unit * CtlState SS :=
  runLoad (disk n) "app" "/protos/" "ann" true false at_start.

(** The file of the subdirectory fails, the two others are published in order. *)
Example nested_load_fails :
  (load tree).1 = Err (ErrNew "1 file(s) failed to load") ∧
  published (load tree).2 = ["c.proto"; "a.proto"].
Proof. vm_compute. split; reflexivity. Qed.

(** Two files that import each other: nothing is published, nothing is reported, and the
    command succeeds. *)
Example cyclic_load_succeeds :
  (load cycle).1 = Ok tt ∧ published (load cycle).2 = [] ∧
  ct_out (load cycle).2 = [OutFound 2 "/protos/"; OutLoadDone 0 "app"].
Proof. vm_compute. repeat split; reflexivity. Qed.

Definition flat : FsNode := DirNode (Ok tt)
  [("a.proto", FileNode (Ok "c.proto")); ("c.proto", FileNode (Ok ""))].
Definition flatN : list protoFile :=
  [{| pf_filename := "a.proto"; pf_content := "c.proto"; pf_imports := ["c.proto"] |};
   {| pf_filename := "c.proto"; pf_content := ""; pf_imports := [] |}].

Lemma flat_acyclic : CtlLoadThms.acyclic flatN.
Proof.
  exists (λ f, if decide (f = "a.proto") then 1%nat else 0%nat). intros p imp Hp Hi _.
  apply elem_of_cons in Hp as [->|[->|Hp%elem_of_nil]%elem_of_cons]; [|by apply elem_of_nil in Hi|done].
  apply list_elem_of_singleton in Hi as ->. vm_compute. lia.
Qed.

(** The publications the server accepted: [c.proto] before [a.proto], which imports it. *)
Definition recorded : CtlState (SS * list PublishRPC) :=
  {| ct_srv := (ServerExamples.Examples.start, []); ct_out := []; ct_stdin := Ok "";
     ct_tty := false; ct_files := ∅ |}.
Definition load_flat : M (CtlState (SS * list PublishRPC)) unit :=
  @runLoad _ _ _ recording one_import (disk flat) "app" "/protos/" "ann" true false.

Lemma runLoad_in_order_witness :
  ∃ st' ps, load_flat recorded = (Ok tt, st') ∧
    accepted st' = (loadRequest "app" "ann" false <$> ps) ∧
    ordered flatN (pf_filename <$> ps) ∧ ps ≡ₚ flatN.
Proof.
  destruct (runLoad_in_order (disk flat) "app" "/protos/" "ann" true false flatN recorded flat)
    as (x & st' & ps & E & _ & Ha & _ & _ & Ho & Hall).
  - vm_compute. reflexivity.
  - repeat first [ progress constructor | done | set_solver | split ].
  - intros y Hy _. cbn in Hy. apply elem_of_cons in Hy as [->|[->|Hy%elem_of_nil]%elem_of_cons]; done.
  - vm_compute. reflexivity.
  - discriminate.
  - assert (Hx : (load_flat recorded).1 = Ok tt) by (vm_compute; reflexivity).
    change (load_flat recorded = (x, st')) in E. rewrite E in Hx. cbn in Hx. subst x.
    exists st', ps. split; [exact E|]. split; [exact Ha|]. split; [exact Ho|].
    exact (Hall eq_refl flat_acyclic).
Defined.

(** ** Commands *)

(** An operator who answers no at a terminal. *)
Definition hesitant : CtlState SS :=
  {| ct_srv := served; ct_out := []; ct_stdin := Ok "n"; ct_tty := true; ct_files := ∅ |}.
#[local] Instance usage : Cobra := λ _, ErrNew "wrong number of arguments".


Lemma hesitant_refuses : ¬ consented false hesitant.
Proof.
  intros [Hy|(_ & input & E & Hy)]; [discriminate Hy|]. cbn in E. injection E as <-.
  vm_compute in Hy. destruct Hy as [Hy|Hy]; discriminate Hy.
Qed.

Lemma destructive_commands_ask_witness :
  ct_srv (rollbackCmd (Some "app") true false true ["users"; "1"] hesitant).2 = ct_srv hesitant.
Proof.
  exact (proj2 (destructive_commands_ask (Some "app") false true true ["users"; "1"] hesitant
    hesitant_refuses)).
Defined.

(** The version of [rollback] may be zero or have a tail. *)
Example rollback_versions :
  scanUint "3x" = Ok 3%Z ∧ scanUint "0" = Ok 0%Z.
Proof. vm_compute. split; reflexivity. Qed.

(** The second of two files with the same base name replaces the first. *)
Example pushed_base_names :
  resolveProtoSources (λ p, Ok (FileNode (Ok p))) ["v1/user.proto"; "v2/user.proto"]
    = Ok {[ "user.proto" := "v2/user.proto" ]}.
Proof. vm_compute. reflexivity. Qed.

Definition nested : protoFile :=
  {| pf_filename := "sub/b.proto"; pf_content := ""; pf_imports := [] |}.
Lemma nested_files_are_rejected_witness :
  ∃ e, client_Publish (loadRequest "app" "ann" false nested) served = (Err e, served).
Proof.
  destruct (nested_files_are_rejected server ann "app" "ann" false nested served)
    as (e & st' & E & ->); [discriminate|]. exists e. exact E.
Defined.

(** ** Serving *)

#[local] Instance no_tls : TLSFiles := {|
  Certificate := unit; CertPool := unit;
  tls_LoadX509KeyPair _ _ := Err (ErrNew "no such file");
  read_PEM _ := Err (ErrNew "no such file");
  AppendCertsFromPEM _ := None |}.
Definition tokens : string := "# tokens" +:+ String newline ("k1 alice admin" +:+
  String newline ("k2  ci-bot" +:+ String newline "")).
#[local] Instance env : ServeEnv := {|
  env_var _ := "postgres://registry";
  env_tree := disk flat;
  env_file p := if decide (p = "tokens") then Ok tokens else Err (ErrNew "no such file");
  env_sqlOpen _ := Ok tt; env_setDialect _ := Ok tt; env_gooseUp _ := Ok tt; env_newPool _ := Ok tt; env_ping _ := Ok tt; env_listen _ := Ok tt |}.
Definition serve_flags (builtins tokensFile : string) : serveConfig := {|
  sv_dbURL := ""; sv_listenAddr := ":50051"; sv_builtInsDir := builtins; sv_migrate := true;
  sv_tlsCert := ""; sv_tlsKey := ""; sv_tlsClientCA := ""; sv_authTokensFile := tokensFile;
  sv_allowAnonymousWrites := false; sv_maxRecvMsgSize := 0; sv_maxSendMsgSize := 0 |}.

Definition started (cfg : serveConfig) : res Serving * RState (S := DB) := runServe cfg fresh_state.
Definition nobody : Serving := {| srv_server := server; srv_auth := NoAuth; srv_tls := None;
  srv_maxRecv := 0; srv_maxSend := 0; srv_unary := []; srv_streams := [] |}.
Definition serving (cfg : serveConfig) : Serving :=
  match (started cfg).1 with Ok sv => sv | Err _ => nobody end.

Lemma started_ok cfg : is_ok (started cfg).1 = true →
  runServe cfg fresh_state = (Ok (serving cfg), (started cfg).2).
Proof. unfold serving, started. by destruct (runServe cfg fresh_state) as [[]]. Qed.

Definition k1 : Metadata := Some {[ "authorization" := ["Bearer k1"] ]}.

Definition publish_method : string := "/protoregistry.v1.RegistryService/Publish".
Lemma publish_registered : publish_method ∈ registryMethods.
Proof. apply (bool_decide_eq_true_1 _). vm_compute. reflexivity. Qed.

(** A call with the token of alice runs as alice. *)
Lemma serve_authenticates_witness :
  srv_auth (serving (serve_flags "" "tokens")) k1 publish_method
    = Ok {| Subject := "alice"; Admin := true |}.
Proof.
  destruct (serve_authenticates (serve_flags "" "tokens") fresh_state
    (serving (serve_flags "" "tokens")) (started (serve_flags "" "tokens")).2 tokens
    (λ _ id, write_rpc server id ServerExamples.Examples.publish_users) (mret tt) k1
    publish_method served) as [Hg _].
  - apply started_ok. vm_compute. reflexivity.
  - discriminate.
  - reflexivity.
  - apply (Hg publish_registered). exists {[ "authorization" := ["Bearer k1"] ]}, "k1", [], "k1 alice admin".
    split; [reflexivity|]. split; [reflexivity|]. split.
    + right. left.
    + exists ["admin"]. vm_compute. repeat split.
Defined.

Lemma serve_readonly_witness :
  serveCall (serving (serve_flags "" "")) None publish_method
    (λ s id, write_rpc s id ServerExamples.Examples.publish_users) (mret tt) served
  = (Err (ErrStatus PermissionDenied "write operations require authentication"), served).
Proof.
  apply (serve_readonly (serve_flags "" "") fresh_state _ (started (serve_flags "" "")).2).
  - apply started_ok. vm_compute. reflexivity.
  - reflexivity.
  - reflexivity.
  - exact publish_registered.
Defined.

(** The built-in files are published one by one under one schema, each publication
    replacing the staged one before it: of the two files only the second is served. *)
Definition builtins_served : res (Z * gmap string string) :=
  (Server_GetSource (srv_server (serving (serve_flags "/protos" ""))) ann BuiltinsNamespace "builtins" 0
     {| ss_reg := (started (serve_flags "/protos" "")).2; ss_log := [] |}).1.
Example last_builtin_survives :
  match builtins_served with Ok (v, m) => (dom m : gset string) = {[ "c.proto" ]} | Err _ => False end.
Proof. vm_compute. reflexivity. Qed.

(** ** Runs of the whole command *)

#[local] Existing Instance one_import.
#[local] Existing Instance usage.
#[local] Existing Instance ann_client.

(** No files, no codecs, and no certificates. *)
#[local] Instance no_files : CtlOS :=
  {| os_read _ := Err (ErrNew "no such file"); os_write _ := Err (ErrNew "read-only") |}.
#[local] Instance no_codec : PXF := {|
  DynMessage := unit; pxf_UnmarshalDescriptor _ _ := Err (ErrNew "syntax error");
  pxf_Marshal _ _ := Ok ""; proto_Marshal _ := Ok "";
  proto_Unmarshal _ _ := Err (ErrNew "syntax error") |}.
#[local] Instance no_certs : TLSFiles := {|
  Certificate := unit; CertPool := unit;
  tls_LoadX509KeyPair _ _ := Err (ErrNew "no such file");
  read_PEM _ := Err (ErrNew "no such file"); AppendCertsFromPEM _ := None |}.
(** The token is in the environment. *)
#[local] Instance lab : CtlProcess := {|
  grpc_NewConn _ _ _ := Ok tt; conn_CloseErr := Ok tt;
  serve_result _ := Ok tt;
  required_error l := ErrNew ("required flag(s) " +:+ strings_Join l ", " +:+ " not set");
  env_value k := if decide (k = "PROTOREGISTRY_TOKEN") then "secret" else "" |}.

Definition proc : Proc SS := {| pr_ctl := hesitant; pr_conns := []; pr_stderr := [] |}.
Definition run (inv : Invocation) (args : list string) : nat * Proc SS :=
  main connDefaults (disk tree) "table" (Some "app") inv args proc.

(** A promotion over a plaintext connection with a token. *)
Lemma main_connection_witness :
  let st' := (run PromoteAll []).2 in
  (run PromoteAll []).1 = 0%nat ∧
  ∃ closed, pr_conns st' = [{| cn_addr := "localhost:50051"; cn_tls := None; cn_token := Some "secret";
                               cn_open := negb closed |}] ∧ closed = true ∧
  plaintextWarning ∈ pr_stderr st'.
Proof.
  cbv zeta. assert (Hc : (run PromoteAll []).1 = 0%nat) by (vm_compute; reflexivity).
  split; [exact Hc|].
  destruct (main_connection connDefaults (disk tree) "table" (Some "app") PromoteAll [] proc
    (run PromoteAll []).1 (run PromoteAll []).2 eq_refl (surjective_pairing _))
    as [(Hx & _)|(opts & closed & Ed & Hn & Hw & Hz)].
  - rewrite Hc in Hx. discriminate Hx.
  - assert (Ed' : Ok opts = Ok (None, Some "secret")) by (rewrite <-Ed; vm_compute; reflexivity).
    injection Ed' as ->. exists closed. split; [exact Hn|]. split; [exact (Hz Hc)|].
    apply Hw; [reflexivity|]. exists "secret". reflexivity.
Defined.

(** A rollback to something that is not a version. *)
Lemma main_reports_twice_witness :
  pr_stderr (run (RollbackTo false true false) ["users"; "x"]).2 =
    [plaintextWarning; "Error: invalid version " +:+ quote "x" +:+ ": must be a positive integer";
     "Error: invalid version " +:+ quote "x" +:+ ": must be a positive integer"].
Proof.
  unfold run.
  erewrite (main_reports_twice connDefaults (disk tree) "table" (Some "app") (RollbackTo false true false)
    ["users"; "x"] proc (ErrNew ("invalid version " +:+ quote "x" +:+ ": must be a positive integer"))
    {| pr_ctl := hesitant; pr_stderr := [plaintextWarning];
       pr_conns := [{| cn_addr := "localhost:50051"; cn_tls := None; cn_token := Some "secret";
                       cn_open := true |}] |});
    reflexivity.
Defined.
