(* ===== verification/BuildVersion.v ===== *)
(** * The version string of the compiler

    Models [compiler.Version] ([src/compiler/compiler.go]) over the build information of
    the binary: the list of module dependencies with their versions, or nothing when the
    binary carries none. The registry compares the string with the one stored beside a
    compiled schema to decide whether the schema has to be compiled again. *)

From S2P Require Import Prelude GoStrings GoPath.
From stdpp Require Import prelude strings list.

Open Scope string_scope.

Definition protocompile_path : string := "github.com/trendvidia/protocompile".
Definition protobuf_path : string := "google.golang.org/protobuf".

(** The loop over [info.Deps]: the versions of the two modules, the last entry of each. *)
Definition depVersions (deps : list (string * string)) : string * string :=
  fold_left (λ acc dep,
    if decide (dep.1 = protocompile_path) then (dep.2, acc.2)
    else if decide (dep.1 = protobuf_path) then (acc.1, dep.2)
    else acc) deps ("", "").

Definition Version (info : option (list (string * string))) : string :=
  let '(protocompileVersion, protobufVersion) :=
    match info with Some deps => depVersions deps | None => ("", "") end in
  "protocompile@" +:+ protocompileVersion +:+ "+protobuf-go@" +:+ protobufVersion.

(** ** What the string tells apart *)

Definition at_sign : Ascii.ascii := Ascii.ascii_of_nat 64.

(** The version of a module, the one of its last entry. *)
Definition module_version (path : string) (info : option (list (string * string))) : string :=
  from_option (λ deps, from_option snd "" (last (filter (λ dep, dep.1 = path) deps))) "" info.

Lemma depVersions_spec deps :
  depVersions deps = (module_version protocompile_path (Some deps), module_version protobuf_path (Some deps)).
Proof.
  unfold depVersions, module_version. cbn. induction deps as [|[path v] deps IH] using rev_ind; [done|].
  rewrite fold_left_app, IH, !filter_app, !last_app. cbn [fold_left fst snd].
  destruct (decide (path = protocompile_path)) as [->|H1];
    [by rewrite filter_cons_True, filter_cons_False by done|].
  rewrite filter_cons_False by done. destruct (decide (path = protobuf_path)) as [->|H2].
  - by rewrite filter_cons_True.
  - by rewrite filter_cons_False.
Qed.

Lemma Version_text info :
  Version info = "protocompile@" +:+ module_version protocompile_path info +:+ "+protobuf-go@" +:+
                 module_version protobuf_path info.
Proof. unfold Version. destruct info as [deps|]; [by rewrite depVersions_spec|done]. Qed.

(** Texts are told apart at the first separator. *)
Lemma cut_at_byte c a a' r r' :
  no_byte c a → no_byte c a' → a +:+ String c r = a' +:+ String c r' → a = a' ∧ r = r'.
Proof.
  intros Ha Ha' E. pose proof (f_equal (λ s, Split s c) E) as Es. cbn in Es.
  rewrite !Split_app in Es by done. injection Es as <- _.
  apply str_app_inj_r in E as [_ [= ->]]; done.
Qed.

(** Two binaries have the same version string exactly when they were built with the same
    versions of the protobuf compiler and of the protobuf runtime (module versions have no
    at sign), so a schema is compiled again whenever one of the two changes. *)
Theorem Version_identifies info info' :
  (∀ path, no_byte at_sign (module_version path info)) →
  (∀ path, no_byte at_sign (module_version path info')) →
  Version info = Version info' ↔
  module_version protocompile_path info = module_version protocompile_path info' ∧
  module_version protobuf_path info = module_version protobuf_path info'.
Proof.
  intros Hv Hv'. rewrite !Version_text. split; [|by intros [-> ->]]. intros E.
  apply (str_app_inj_r "protocompile@" "protocompile@") in E as [_ E]; [|done].
  set (a := module_version protocompile_path info) in *.
  set (a' := module_version protocompile_path info') in *.
  assert (Hsplit : ∀ x y : string, x +:+ "+protobuf-go@" +:+ y = (x +:+ "+protobuf-go") +:+ String at_sign y)
    by (intros x y; by rewrite str_app_assoc).
  rewrite !Hsplit in E.
  apply cut_at_byte in E as [Ea ->]; [|by apply no_byte_app; split; [apply Hv|]|by apply no_byte_app; split; [apply Hv'|]].
  split; [|done]. assert (El : String.length a = String.length a').
  { apply (f_equal String.length) in Ea. rewrite !length_str_app in Ea. lia. }
  by apply str_app_inj_r in Ea as [-> _].
Qed.

Lemma Version_identifies_witness :
  Version (Some [(protocompile_path, "v1.0.0"); (protobuf_path, "v1.36.0")]) ≠
  Version (Some [(protocompile_path, "v1.0.0"); (protobuf_path, "v1.36.1")]).
Proof.
  intros E. apply Version_identifies in E as [_ E]; [discriminate E|..];
    (intros path; unfold module_version; cbn [from_option]; rewrite !filter_cons; repeat case_decide; reflexivity).
Defined.
