(* ===== verification/CtlOutput.v ===== *)
(** * Tables on the terminal

    Models [printTable] ([src/internal/ctl/output.go]) and the rows the list commands give
    it, with the part of text/tabwriter it uses: cells end at a tab, lines at a new line;
    the cells that end at a tab in consecutive lines form a column, as wide as its widest
    cell and the padding; the last cell of a line belongs to no column. Texts are valid
    UTF-8, the width of a cell is its number of characters. *)

From S2P Require Import Prelude GoStrings GoPath Descriptor Protobuf Server.
From stdpp Require Import prelude gmap strings list pretty.

Open Scope string_scope.
Open Scope list_scope.
Open Scope nat_scope.

Definition tab : Ascii.ascii := Ascii.ascii_of_nat 9.

(** ** text/tabwriter *)

(** [utf8.RuneCount]: the bytes that do not continue a character. *)
Fixpoint RuneCount (s : string) : nat :=
  match s with
  | EmptyString => 0
  | String c s => (if decide (128 <= byte_of c < 192)%nat then 0 else 1) + RuneCount s
  end.

Fixpoint spaces (n : nat) : string :=
  match n with O => "" | S n => String (Ascii.ascii_of_nat 32) (spaces n) end.

(** The cell of column [j], when a tab ends it. *)
Definition column_cell (j : nat) (line : list string) : option string :=
  if decide (S j < length line)%nat then line !! j else None.

(** The widest cell of the column block that starts at the first line. *)
Fixpoint block_width (j : nat) (lines : list (list string)) : nat :=
  match lines with
  | [] => 0
  | line :: lines =>
     match column_cell j line with
     | Some c => RuneCount c `max` block_width j lines
     | None => 0
     end
  end.

(** The width of column [j] at every line; [above] is the widest cell of the block in the
    lines before. *)
Fixpoint column_widths (j above : nat) (lines : list (list string)) : list nat :=
  match lines with
  | [] => []
  | line :: lines =>
     match column_cell j line with
     | Some c =>
        let above := above `max` RuneCount c in
        (above `max` block_width j lines)%nat :: column_widths j above lines
     | None => 0 :: column_widths j 0 lines
     end
  end.

(** A line with its cells padded to the widths of their columns. *)
Fixpoint format_line (padding j : nat) (width : nat → nat) (line : list string) : string :=
  match line with
  | [] => ""
  | [c] => c
  | c :: line => c +:+ spaces (width j + padding - RuneCount c) +:+ format_line padding (S j) width line
  end.

(** [tabwriter.NewWriter(w, 0, 0, padding, ' ', 0)], the text written, and [Flush]. *)
Definition tabwriter (padding : nat) (text : string) : string :=
  let lines := (λ line, Split line tab) <$> Split text newline in
  strings_Join (imap (λ i line,
    format_line padding 0 (λ j, column_widths j 0 lines !!! i) line) lines) (String newline "").

(** ** The commands *)

(** The loop that writes one row. *)
Definition write_row (row : list string) : string :=
  strings_Join row (String tab "") +:+ String newline "".

Definition printTable (headers : list string) (rows : list (list string)) : string :=
  tabwriter 2 (write_row headers +:+ foldr (λ row text, write_row row +:+ text) "" rows).

(** The rows of [namespace list] and [schema list]; [date] is the layout 2006-01-02. *)
Definition namespace_rows (date : Z → string) (l : list NamespaceInfo) : list (list string) :=
  (λ ns, [ni_Id ns; date (ni_CreatedAt ns)]) <$> l.

Definition version_cell (v : option Z) : string :=
  match v with Some v => "v" +:+ pretty v | None => "-" end.

Definition schema_rows (date : Z → string) (l : list SchemaInfo) : list (list string) :=
  (λ s, [si_SchemaId s; version_cell (si_CurrentVersion s); version_cell (si_StagedVersion s);
         date (si_CreatedAt s)]) <$> l.

Definition namespace_table (date : Z → string) (l : list NamespaceInfo) : string :=
  printTable ["NAMESPACE"; "CREATED"] (namespace_rows date l).
Definition schema_table (date : Z → string) (l : list SchemaInfo) : string :=
  printTable ["SCHEMA"; "CURRENT"; "STAGED"; "CREATED"] (schema_rows date l).

(** ** Columns line up *)

(** The table by its columns: every cell but the last padded to the widest cell of its
    column, in all rows. *)
Definition widest (rows : list (list string)) (j : nat) : nat :=
  foldr (λ row w, RuneCount (row !!! j) `max` w) 0 rows.
Definition aligned (padding : nat) (rows : list (list string)) : string :=
  foldr (λ row text, format_line padding 0 (widest rows) row +:+ String newline "" +:+ text) "" rows.

(** Rows of one length whose cells hold no tab and no new line. *)
Definition tabular (n : nat) (rows : list (list string)) : Prop :=
  Forall (λ row, length row = n ∧ Forall (λ c, no_byte tab c ∧ no_byte newline c) row) rows.

Lemma no_byte_Join c l sep : no_byte c sep → Forall (no_byte c) l → no_byte c (strings_Join l sep).
Proof.
  intros Hsep. induction 1 as [|x l Hx Hl IH]; [done|]. destruct l as [|y l]; [done|].
  rewrite strings_Join_cons by done. by rewrite !no_byte_app.
Qed.

(** The text is split into the cells again, and an empty last line. *)
Lemma lines_of_text n rows :
  tabular n rows → 1 ≤ n →
  (λ line, Split line tab) <$> Split (foldr (λ row text, write_row row +:+ text) "" rows) newline =
    rows ++ [[""]].
Proof.
  intros Htab Hn. induction Htab as [|row rows [Hl Hc] _ IH]; [done|]. cbn [foldr].
  apply Forall_and in Hc as [Ht Hnl]. unfold write_row at 1. rewrite str_app_assoc.
  change (String newline "" +:+ ?t) with (String newline t).
  rewrite Split_app by by apply no_byte_Join. rewrite fmap_cons, IH.
  rewrite Split_Join; [done| |done]. by destruct row; [cbn in Hl; lia|].
Qed.

Lemma column_cell_row n rows row j :
  tabular n rows → row ∈ rows → S j < n → column_cell j row = Some (row !!! j).
Proof.
  intros Htab Hin Hj. unfold tabular in Htab. rewrite Forall_forall in Htab.
  destruct (Htab row Hin) as [Hl _].
  unfold column_cell. rewrite decide_True by lia. apply list_lookup_lookup_total_lt. lia.
Qed.

(** A column has one width. *)
Lemma block_width_rows n rows j :
  tabular n rows → S j < n → block_width j (rows ++ [[""]]) = widest rows j.
Proof.
  intros Htab Hj. induction rows as [|row rows IH]; [done|]. cbn.
  rewrite (column_cell_row n (row :: rows)) by (done || left). cbn. f_equal. apply IH.
  by apply Forall_cons in Htab as [_ ?].
Qed.

Lemma column_widths_rows n rows j above :
  tabular n rows → S j < n →
  column_widths j above (rows ++ [[""]]) = replicate (length rows) (above `max` widest rows j) ++ [0].
Proof.
  intros Htab Hj. revert above. induction rows as [|row rows IH]; intros above; [done|].
  cbn [column_widths app length replicate].
  change (widest (row :: rows) j) with (RuneCount (row !!! j) `max` widest rows j).
  rewrite (column_cell_row n (row :: rows)) by (done || left). apply Forall_cons in Htab as [_ Htab].
  rewrite (block_width_rows n) by done. rewrite (IH Htab). f_equal; [lia|]. do 2 f_equal. lia.
Qed.

Lemma format_line_ext padding j width width' line :
  (∀ k, S k < length line → width (j + k) = width' (j + k)) →
  format_line padding j width line = format_line padding j width' line.
Proof.
  revert j. induction line as [|c line IH]; intros j Hw; [done|]. destruct line as [|c' line]; [done|].
  cbn [format_line]. f_equal. f_equal.
  - specialize (Hw 0). rewrite Nat.add_0_r in Hw. rewrite Hw; [done|cbn; lia].
  - apply IH. intros k Hk. replace (S j + k) with (j + S k) by lia. apply Hw. cbn in *. lia.
Qed.

Lemma Join_lines (f : list string → string) rows :
  strings_Join ((f <$> rows) ++ [""]) (String newline "") =
    foldr (λ row text, f row +:+ String newline "" +:+ text) "" rows.
Proof.
  induction rows as [|row rows IH]; [done|]. cbn [fmap list_fmap app foldr].
  rewrite strings_Join_cons by (by destruct rows). by rewrite <-IH.
Qed.

(** A table of rows of one length, of cells without tabs and new lines, is printed with
    every column at one position: each cell but the last of its row is padded to the
    widest cell of its column, in the header and in all rows. *)
Theorem printTable_aligned n headers rows :
  tabular n (headers :: rows) → 1 ≤ n → printTable headers rows = aligned 2 (headers :: rows).
Proof.
  intros Htab Hn. unfold printTable, tabwriter, aligned. set (all := headers :: rows) in *.
  change (write_row headers +:+ _) with (foldr (λ row text, write_row row +:+ text) "" all).
  clearbody all. rewrite (lines_of_text n) by done. rewrite imap_app, <-Join_lines. f_equal. cbn. f_equal.
  apply list_eq. intros i. rewrite list_lookup_imap, list_lookup_fmap.
  destruct (all !! i) as [row|] eqn:Ei; [|done]. cbn. f_equal. apply format_line_ext. intros k Hk.
  assert (Hl : length row = n).
  { eapply Forall_lookup_1 in Htab as [Hl _]; [|exact Ei]. done. }
  rewrite (column_widths_rows n) by (done || lia). apply lookup_lt_Some in Ei.
  apply list_lookup_total_correct. rewrite lookup_app_l by (rewrite length_replicate; done).
  by rewrite lookup_replicate_2.
Qed.

Lemma printTable_aligned_witness :
  printTable ["SCHEMA"; "CURRENT"] [["users"; "v1"]; ["accounting"; "-"]] =
  "SCHEMA      CURRENT" +:+ String newline ("users       v1" +:+ String newline
    ("accounting  -" +:+ String newline "")).
Proof.
  rewrite (printTable_aligned 2); [reflexivity|repeat constructor|lia].
Defined.
