(* ===== verification/Tasks.v ===== *)
(** * Tasks: programs that interleave

    A call of the registry holds no lock between its accesses to the database and to the
    shared memory. A [Task] is such a call with the atomic accesses made explicit: it is
    finished, or it makes one access and goes on. Several tasks run in a pool, in any
    order of their accesses; the accesses one task makes are described on their own, under
    an arbitrary interference ([runs]), with a relation on states in the style of
    rely-guarantee reasoning. *)

From S2P Require Import Prelude.
From stdpp Require Import prelude strings list.

Open Scope list_scope.

Inductive Task (S A : Type) :=
  | Done (x : res A)
  | Next (k : S → Task S A * S).
Arguments Done {_ _} _.
Arguments Next {_ _} _.

Section monad.
Context {S : Type}.

#[global] Instance Task_ret : MRet (Task S) := λ A a, Done (Ok a).
Fixpoint task_bind {A B} (f : A → Task S B) (t : Task S A) : Task S B :=
  match t with
  | Done (Ok a) => f a
  | Done (Err e) => Done (Err e)
  | Next k => Next (λ s, let '(t, s') := k s in (task_bind f t, s'))
  end.
#[global] Instance Task_bind : MBind (Task S) := λ A B, task_bind.

(** One access. *)
Definition atomic {A} (m : M S A) : Task S A := Next (λ s, let '(x, s') := m s in (Done x, s')).
Definition failT {A} (e : error) : Task S A := Done (Err e).
Definition of_resT {A} (r : res A) : Task S A := Done r.

(** Change the result. *)
Fixpoint mapT {A B} (f : res A → res B) (t : Task S A) : Task S B :=
  match t with
  | Done x => Done (f x)
  | Next k => Next (λ s, let '(t, s') := k s in (mapT f t, s'))
  end.
Definition attemptT {A} (t : Task S A) : Task S (res A) := mapT Ok t.
Definition wrapT {A} (ctx : string) (t : Task S A) : Task S A := mapT (wrap ctx) t.

Fixpoint forT_ {A} (l : list A) (f : A → Task S unit) : Task S unit :=
  match l with
  | [] => mret tt
  | x :: l => f x ;; forT_ l f
  end.

(** ** A task that runs alone *)

Fixpoint runTask {A} (t : Task S A) : M S A := λ s,
  match t with
  | Done x => (x, s)
  | Next k => let '(t, s') := k s in runTask t s'
  end.
End monad.

(** Induction, with the continuations of a task at every state. *)
Section induction.
Context {S A : Type} (P : Task S A → Prop).
Context (Hdone : ∀ x, P (Done x)) (Hnext : ∀ k, (∀ s, P (k s).1) → P (Next k)).
Fixpoint Task_ind' (t : Task S A) : P t :=
  match t with
  | Done x => Hdone x
  | Next k => Hnext k (λ s, match k s as p return P p.1 with (t, _) => Task_ind' t end)
  end.
End induction.

(** Running is a morphism from tasks to programs. *)
Section run.
Context {S : Type}.

Lemma run_ret {A} (a : A) (s : S) : runTask (mret a) s = (Ok a, s).
Proof. done. Qed.

Lemma run_atomic {A} (m : M S A) s : runTask (atomic m) s = m s.
Proof. cbn. by destruct (m s). Qed.

Lemma run_bind {A B} (t : Task S A) (f : A → Task S B) s :
  runTask (t ≫= f) s = (runTask t ≫= λ a, runTask (f a)) s.
Proof.
  revert s. induction t as [[a|e]|k IH] using Task_ind'; intros s; [done..|].
  specialize (IH s). unfold mbind, M_bind, Task_bind in *. cbn.
  destruct (k s) as [t s']. apply IH.
Qed.

Lemma run_mapT {A B} (f : res A → res B) (t : Task S A) s :
  runTask (mapT f t) s = let '(x, s') := runTask t s in (f x, s').
Proof.
  revert s. induction t as [x|k IH] using Task_ind'; intros s; [done|].
  cbn. specialize (IH s). destruct (k s) as [t s']. apply IH.
Qed.

Lemma run_attemptT {A} (t : Task S A) s : runTask (attemptT t) s = attempt (runTask t) s.
Proof. apply run_mapT. Qed.

Lemma run_wrapT {A} ctx (t : Task S A) s : runTask (wrapT ctx t) s = wrapM ctx (runTask t) s.
Proof. apply run_mapT. Qed.

(** Programs that agree on every state. *)
Lemma bind_ext {A B} (m m' : M S A) (f f' : A → M S B) s :
  (∀ s, m s = m' s) → (∀ a s, f a s = f' a s) → (m ≫= f) s = (m' ≫= f') s.
Proof. intros Hm Hf. unfold mbind, M_bind. rewrite Hm. by destruct (m' s) as [[] ?]. Qed.

Lemma run_bind_ext {A B} (t : Task S A) (f : A → Task S B) (m : M S A) (g : A → M S B) s :
  (∀ s, runTask t s = m s) → (∀ a s, runTask (f a) s = g a s) →
  runTask (t ≫= f) s = (m ≫= g) s.
Proof. intros Hm Hf. rewrite run_bind. by apply bind_ext. Qed.

Lemma run_wrapT_ext {A} ctx (t : Task S A) (m : M S A) s :
  (∀ s, runTask t s = m s) → runTask (wrapT ctx t) s = wrapM ctx m s.
Proof. intros Hm. rewrite run_wrapT. unfold wrapM. by rewrite Hm. Qed.

Lemma run_attemptT_ext {A} (t : Task S A) (m : M S A) s :
  (∀ s, runTask t s = m s) → runTask (attemptT t) s = attempt m s.
Proof. intros Hm. rewrite run_attemptT. unfold attempt. by rewrite Hm. Qed.

Lemma run_forT_ext {A} (l : list A) (f : A → Task S unit) (g : A → M S unit) s :
  (∀ x s, runTask (f x) s = g x s) → runTask (forT_ l f) s = forM_ l g s.
Proof.
  intros Hf. revert s. induction l as [|x l IH]; intros s; [done|]. cbn [forT_ forM_].
  apply run_bind_ext; [apply Hf|]. intros _. apply IH.
Qed.

Lemma run_mapM_ext {A B} (l : list A) (f : A → Task S B) (g : A → M S B) s :
  (∀ x s, runTask (f x) s = g x s) → runTask (mapM f l) s = mapM g l s.
Proof.
  intros Hf. revert s. induction l as [|x l IH]; intros s; [done|]. cbn [mapM].
  apply run_bind_ext; [apply Hf|]. intros b s1. apply run_bind_ext; [apply IH|]. done.
Qed.
End run.

(** ** A task under interference *)

(** [runs R s t l s' u]: from [s], with the others moving the state by [R], task [t] makes
    the accesses [l] (states before and after) and is then [u], in state [s']. *)
Inductive runs {S A} (R : S → S → Prop) : S → Task S A → list (S * S) → S → Task S A → Prop :=
  | runs_idle s s' t : R s s' → runs R s t [] s' t
  | runs_step s s1 k t s2 l s' u :
      R s s1 → k s1 = (t, s2) → runs R s2 t l s' u → runs R s (Next k) ((s1, s2) :: l) s' u.

Section runs.
Context {S : Type} (R : S → S → Prop) `{!PreOrder R}.

Lemma runs_Done {A} s (x : res A) l s' u :
  runs R s (Done x) l s' u → l = [] ∧ u = Done x ∧ R s s'.
Proof. by inversion 1. Qed.

Lemma runs_later {A} s (t : Task S A) l s1 u s2 : runs R s t l s1 u → R s1 s2 → runs R s t l s2 u.
Proof.
  induction 1 as [s s1 t Hr|s s1 k t s1' l s' u Hr E _ IH]; intros Hr'; [constructor; by etrans|].
  econstructor; [done..|]. by apply IH.
Qed.

Lemma runs_snoc {A} s (t : Task S A) l s1 k u s2 :
  runs R s t l s1 (Next k) → k s1 = (u, s2) → runs R s t (l ++ [(s1, s2)]) s2 u.
Proof.
  intros Hr. remember (Next k) as n eqn:En. revert En.
  induction Hr as [s s1 t Hr|s s0 k' t s1' l s' u' Hr E _ IH]; intros -> Hk; cbn.
  - econstructor; [done..|]. by constructor.
  - econstructor; [done..|]. by apply IH.
Qed.

Lemma runs_bind_inv {A B} s (t : Task S A) (f : A → Task S B) l s' u :
  runs R s (t ≫= f) l s' u →
  (∃ t', runs R s t l s' t' ∧ u = t' ≫= f) ∨
  (∃ a l1 s1 l2, l = l1 ++ l2 ∧ runs R s t l1 s1 (Done (Ok a)) ∧ runs R s1 (f a) l2 s' u).
Proof.
  revert s l. induction t as [[a|e]|k IH] using Task_ind'; intros s l Hr.
  - right. exists a, [], s, l. split; [done|]. split; [by constructor|done].
  - apply runs_Done in Hr as (-> & -> & Hr). left. exists (Done (Err e)). split; [by constructor|done].
  - inversion Hr as [? ? ? Hr'|? s1 k' t s2 l' ? ? Hr' Ek Hrest]; subst.
    + left. exists (Next k). split; [by constructor|done].
    + specialize (IH s1). destruct (k s1) as [t0 s0] eqn:Ek0. injection Ek as <- <-. cbn in IH.
      apply IH in Hrest as [(t' & Ht & ->)|(a & l1 & s3 & l2 & -> & Ht & Hf)].
      * left. exists t'. split; [by econstructor|done].
      * right. exists a, ((s1, s0) :: l1), s3, l2. split; [done|]. split; [by econstructor|done].
Qed.

(** A sequence that succeeds. *)
Lemma runs_bind_Ok {A B} s (t : Task S A) (f : A → Task S B) l s' b :
  runs R s (t ≫= f) l s' (Done (Ok b)) →
  ∃ a l1 s1 l2, l = l1 ++ l2 ∧ runs R s t l1 s1 (Done (Ok a)) ∧ runs R s1 (f a) l2 s' (Done (Ok b)).
Proof.
  intros [(t' & Ht & E)|Hr]%runs_bind_inv; [|done]. destruct t' as [[a|e]|k]; [|done..].
  exists a, l, s', []. rewrite app_nil_r. split; [done|]. split; [done|]. cbn in E. rewrite <-E.
  by constructor.
Qed.

Lemma runs_mapT_inv {A B} s (f : res A → res B) (t : Task S A) l s' u :
  runs R s (mapT f t) l s' u → ∃ t', runs R s t l s' t' ∧ u = mapT f t'.
Proof.
  revert s l. induction t as [x|k IH] using Task_ind'; intros s l Hr.
  - apply runs_Done in Hr as (-> & -> & Hr). exists (Done x). split; [by constructor|done].
  - inversion Hr as [? ? ? Hr'|? s1 k' t s2 l' ? ? Hr' Ek Hrest]; subst.
    + exists (Next k). split; [by constructor|done].
    + specialize (IH s1). destruct (k s1) as [t0 s0] eqn:Ek0. injection Ek as <- <-. cbn in IH.
      apply IH in Hrest as (t' & Ht & ->). exists t'. split; [by econstructor|done].
Qed.

Lemma runs_mapT_Done {A B} s (f : res A → res B) (t : Task S A) l s' y :
  runs R s (mapT f t) l s' (Done y) → ∃ x, runs R s t l s' (Done x) ∧ y = f x.
Proof. intros (t' & Ht & E)%runs_mapT_inv. destruct t' as [x|k]; [|done]. injection E as ->. eauto. Qed.

(** One access happens in a state the others led to. *)
Lemma runs_atomic_Done {A} s (m : M S A) l s' x :
  runs R s (atomic m) l s' (Done x) →
  ∃ s1 s2, R s s1 ∧ m s1 = (x, s2) ∧ l = [(s1, s2)] ∧ R s2 s'.
Proof.
  inversion 1 as [|? s1 k' t s2 l' ? ? Hr Ek Hrest]; subst. destruct (m s1) as [y s0] eqn:Em.
  injection Ek as <- <-. apply runs_Done in Hrest as (-> & [= ->] & Hr'). eauto 6.
Qed.
End runs.

(** [t] makes an access in [E] whenever it succeeds with a result in [Q]. *)
Definition does {S A} (R E : S → S → Prop) (t : Task S A) (Q : A → Prop) : Prop :=
  ∀ s l s' a, runs R s t l s' (Done (Ok a)) → Q a → ∃ p, p ∈ l ∧ E p.1 p.2.

Section does.
Context {S : Type} (R E : S → S → Prop) `{!PreOrder R}.
#[local] Notation does := (does R E).

Lemma does_skip {A B} (t : Task S A) (f : A → Task S B) Q :
  (∀ a, does (f a) Q) → does (t ≫= f) Q.
Proof.
  intros Hf s l s' b (a & l1 & s1 & l2 & -> & _ & Hr)%runs_bind_Ok HQ; [|done].
  destruct (Hf a s1 l2 s' b Hr HQ) as (p & Hp & HE). exists p. set_solver.
Qed.

Lemma does_now {A B} (t : Task S A) (f : A → Task S B) Q :
  does t (λ _, True) → does (t ≫= f) Q.
Proof.
  intros Ht s l s' b (a & l1 & s1 & l2 & -> & Hr & _)%runs_bind_Ok _; [|done].
  destruct (Ht s l1 s1 a Hr I) as (p & Hp & HE). exists p. set_solver.
Qed.

Lemma does_done {A} (x : res A) (Q : A → Prop) : (∀ a, x = Ok a → ¬ Q a) → does (Done x) Q.
Proof. intros HQ s l s' a (_ & [= Hx] & _)%runs_Done Ha. by destruct (HQ a). Qed.

Lemma does_wrapT {A} c (t : Task S A) Q : does t Q → does (wrapT c t) Q.
Proof.
  intros Ht s l s' a (x & Hr & Ex)%runs_mapT_Done HQ. destruct x as [a'|]; [|done].
  injection Ex as ->. by apply (Ht s l s' a').
Qed.

Lemma does_ret {A B} (t : Task S A) (g : A → B) Q :
  does t (λ a, Q (g a)) → does (a ← t; mret (g a)) Q.
Proof.
  intros Ht s l s' b (a & l1 & s1 & l2 & -> & Hr & Hb)%runs_bind_Ok HQ; [|done].
  apply runs_Done in Hb as (-> & [= ->] & _). rewrite app_nil_r. by apply (Ht s l1 s1 a).
Qed.

Lemma does_atomic {A} (m : M S A) Q :
  (∀ s a s', m s = (Ok a, s') → Q a → E s s') → does (atomic m) Q.
Proof.
  intros Hm s l s' a (s1 & s2 & _ & Em & -> & _)%runs_atomic_Done HQ.
  exists (s1, s2). split; [left|]. by eapply Hm.
Qed.
End does.

(** ** Rely and guarantee *)

Definition stable {S} (R : S → S → Prop) (P : S → Prop) : Prop := ∀ s s', P s → R s s' → P s'.

(** From a state in [P], while the others move by [R], every access of the task is in [G],
    and its result and the state are in [Q] whenever it has finished. *)
Definition rg {S A} (R G : S → S → Prop) (P : S → Prop) (t : Task S A)
    (Q : res A → S → Prop) : Prop :=
  ∀ s l s' u, P s → runs R s t l s' u →
    Forall (λ p, G p.1 p.2) l ∧ ∀ x, u = Done x → Q x s'.

Section rg.
Context {S : Type} (R G : S → S → Prop) `{!PreOrder R}.
#[local] Notation rg := (rg R G).

Lemma rg_conseq {A} P P' (t : Task S A) Q Q' :
  rg P' t Q' → (∀ s, P s → P' s) → (∀ x s, Q' x s → Q x s) → rg P t Q.
Proof. intros Ht HP HQ s l s' u Hs Hr. destruct (Ht s l s' u (HP s Hs) Hr). eauto. Qed.

Lemma rg_done {A} (P : S → Prop) (x : res A) Q :
  stable R P → (∀ s, P s → Q x s) → rg P (Done x) Q.
Proof.
  intros HP HQ s l s' u Hs (-> & -> & Hr)%runs_Done. split; [done|].
  intros y [= <-]. eauto.
Qed.

Lemma rg_atomic {A} (P : S → Prop) (m : M S A) (Q : res A → S → Prop) :
  stable R P → (∀ x, stable R (Q x)) →
  (∀ s, P s → let '(x, s') := m s in G s s' ∧ Q x s') → rg P (atomic m) Q.
Proof.
  intros HP HQ Hm s l s' u Hs Hr.
  inversion Hr as [|? s1 k' t s2 l' ? ? Hr' Ek Hrest]; subst; [done|].
  specialize (Hm s1 (HP _ _ Hs Hr')). destruct (m s1) as [y s0]. destruct Hm as [HG HQy].
  injection Ek as <- <-. apply runs_Done in Hrest as (-> & -> & Hr2).
  split; [by repeat constructor|]. intros x [= <-]. by eapply HQ.
Qed.

Lemma rg_bind {A B} P (t : Task S A) (f : A → Task S B) Q1 Q :
  rg P t Q1 → (∀ a, rg (Q1 (Ok a)) (f a) Q) → (∀ e s, Q1 (Err e) s → Q (Err e) s) →
  rg P (t ≫= f) Q.
Proof.
  intros Ht Hf He s l s' u Hs [(t' & Hr & ->)|(a & l1 & s1 & l2 & -> & Hr & Hr2)]%runs_bind_inv.
  - destruct (Ht _ _ _ _ Hs Hr) as [HG HQ]. split; [done|]. intros x E.
    destruct t' as [[a|e]|k]; [|by injection E as <-; apply He, HQ|done].
    apply (Hf a s' [] s' (f a)); [by apply HQ|by constructor|done].
  - destruct (Ht _ _ _ _ Hs Hr) as [HG HQ]. destruct (Hf a s1 l2 s' u (HQ _ eq_refl) Hr2).
    split; [by apply Forall_app|done].
  - done.
Qed.

Lemma rg_mapT {A B} P (f : res A → res B) (t : Task S A) Q :
  rg P t (λ x, Q (f x)) → rg P (mapT f t) Q.
Proof.
  intros Ht s l s' u Hs (t' & Hr & ->)%runs_mapT_inv. destruct (Ht _ _ _ _ Hs Hr) as [HG HQ].
  split; [done|]. intros x E. destruct t' as [y|k]; [|done]. injection E as <-. by apply HQ.
Qed.

(** Loops keep an invariant. *)
Lemma rg_forT_ {A} (I : S → Prop) (l : list A) f :
  stable R I → (∀ x, rg I (f x) (λ _, I)) → rg I (forT_ l f) (λ _, I).
Proof.
  intros HI Hf. induction l as [|x l IH]; cbn; [by apply rg_done|].
  apply (rg_bind _ _ _ (λ _, I)); [done| |done]. by intros _.
Qed.

Lemma rg_mapM {A B} (I : S → Prop) (l : list A) (f : A → Task S B) :
  stable R I → (∀ x, rg I (f x) (λ _, I)) → rg I (mapM f l) (λ _, I).
Proof.
  intros HI Hf. induction l as [|x l IH]; cbn; [by apply rg_done|].
  apply (rg_bind _ _ _ (λ _, I)); [done| |done]. intros b.
  apply (rg_bind _ _ _ (λ _, I)); [done| |done]. intros bs. by apply rg_done.
Qed.
End rg.

(** ** Calm tasks

    A task is calm when its accesses are steps the others may make, too: it keeps every
    stable predicate. [ok] is a condition on states that the predicates imply. *)
Section calm.
Context {S : Type} (R G : S → S → Prop) `{!PreOrder R} (ok : S → Prop).

Definition growing (P : S → Prop) : Prop := (∀ s, P s → ok s) ∧ stable R P.
Definition calm {A} (t : Task S A) : Prop := ∀ P, growing P → rg R G P t (λ _, P).

Lemma calm_done {A} (x : res A) : calm (Done x).
Proof. intros P [_ HP]. by apply rg_done. Qed.

Lemma calm_atomic {A} (m : M S A) :
  (∀ s, ok s → R s (m s).2 ∧ G s (m s).2) → calm (atomic m).
Proof.
  intros Hm P [HP HPs]. apply rg_atomic; [done|done|]. intros s Hs. specialize (Hm s (HP _ Hs)).
  destruct (m s) as [x s']. split; [apply Hm|]. eapply HPs; [done|apply Hm].
Qed.

Lemma calm_bind {A B} (t : Task S A) (f : A → Task S B) :
  calm t → (∀ a, calm (f a)) → calm (t ≫= f).
Proof. intros Ht Hf P HP. eapply rg_bind; [done|by apply Ht|intros a; by apply Hf|done]. Qed.

Lemma calm_mapT {A B} (f : res A → res B) (t : Task S A) : calm t → calm (mapT f t).
Proof. intros Ht P HP. by apply rg_mapT, Ht. Qed.

Lemma calm_forT_ {A} (l : list A) (f : A → Task S unit) : (∀ x, calm (f x)) → calm (forT_ l f).
Proof. intros Hf P HP. apply rg_forT_; [done|apply HP|]. intros x. by apply Hf. Qed.

Lemma calm_mapM {A B} (l : list A) (f : A → Task S B) : (∀ x, calm (f x)) → calm (mapM f l).
Proof. intros Hf P HP. apply rg_mapM; [done|apply HP|]. intros x. by apply Hf. Qed.

(** A sequence whose first step establishes [Q], or fails in [E]. *)
Definition ensures {A} (Q : A → S → Prop) (E : S → Prop) (x : res A) (s : S) : Prop :=
  match x with Ok a => Q a s | Err _ => E s end.

Lemma rg_then {A B} P (t : Task S A) (f : A → Task S B) Q Q' (E : S → Prop) :
  rg R G P t (ensures Q E) → (∀ a, rg R G (Q a) (f a) (ensures Q' E)) →
  rg R G P (t ≫= f) (ensures Q' E).
Proof. intros Ht Hf. eapply rg_bind; [done|exact Ht|exact Hf|done]. Qed.

Lemma calm_then {A B} (P : S → Prop) (t : Task S A) (f : A → Task S B) Q (E : S → Prop) :
  growing P → (∀ s, P s → E s) → calm t → (∀ a, rg R G P (f a) (ensures Q E)) →
  rg R G P (t ≫= f) (ensures Q E).
Proof.
  intros HP HE Ht Hf. apply (rg_then _ _ _ (λ _, P)); [|done].
  eapply rg_conseq; [by apply Ht|done|]. intros [a|e] s Hs; [done|by apply HE].
Qed.

Lemma rg_wrap {A} c P (t : Task S A) Q (E : S → Prop) :
  rg R G P t (ensures Q E) → rg R G P (wrapT c t) (ensures Q E).
Proof. intros Ht. apply rg_mapT. eapply rg_conseq; [exact Ht|done|]. by intros [a|e] s. Qed.

Lemma rg_return {A} (P : S → Prop) (x : res A) Q E :
  stable R P → (∀ s, P s → ensures Q E x s) → rg R G P (Done x) (ensures Q E).
Proof. apply rg_done. Qed.

Lemma rg_pure {A} (φ : Prop) P (t : Task S A) Q :
  (φ → rg R G P t Q) → rg R G (λ s, P s ∧ φ) t Q.
Proof. intros Ht s l s' u [Hs Hφ] Hr. by apply (Ht Hφ s l s' u). Qed.
End calm.

(** ** Pools of tasks *)

(** One of the tasks makes its next access; the label says which, and between which
    states. The trace grows at its end. *)
Inductive pool_exec {S A} (ts : list (Task S A)) (s : S)
    : list (nat * (S * S)) → list (Task S A) → S → Prop :=
  | pool_start : pool_exec ts s [] ts s
  | pool_access tr ts1 s1 i k u s2 :
      pool_exec ts s tr ts1 s1 → ts1 !! i = Some (Next k) → k s1 = (u, s2) →
      pool_exec ts s (tr ++ [(i, (s1, s2))]) (<[i := u]> ts1) s2.

Lemma pool_length {S A} (ts : list (Task S A)) s tr ts' s' :
  pool_exec ts s tr ts' s' → length ts' = length ts.
Proof. induction 1; [done|]. by rewrite length_insert. Qed.

(** The accesses of task [i]. *)
Definition own {S} (i : nat) (tr : list (nat * (S * S))) : list (S * S) :=
  (filter (λ e, e.1 = i) tr).*2.

Section pools.
Context {S A : Type} (R G : nat → S → S → Prop) `{!∀ i, PreOrder (R i)}.
Context (P : nat → S → Prop) (Q : nat → res A → S → Prop).
Context (compatible : ∀ i j s s', i ≠ j → G j s s' → R i s s').
Context (ts : list (Task S A)) (s : S).
Context (Htasks : ∀ i t, ts !! i = Some t → rg (R i) (G i) (P i) t (Q i) ∧ P i s).

(** In a pool of tasks whose guarantees are within the others' relies, every task runs as
    it does under its rely. *)
Lemma pool_runs tr ts' s' :
  pool_exec ts s tr ts' s' →
  ∀ i t, ts !! i = Some t → ∃ u, ts' !! i = Some u ∧ runs (R i) s t (own i tr) s' u.
Proof.
  induction 1 as [|tr ts1 s1 j k u s2 Hex IH Hj Hk]; intros i t Hi.
  { exists t. split; [done|]. by constructor. }
  destruct (IH i t Hi) as (u0 & Hu0 & Hr). unfold own. rewrite filter_app.
  assert (Hlt : (j < length ts1)%nat) by by eapply lookup_lt_Some.
  destruct (decide (j = i)) as [->|Hne].
  - rewrite Hj in Hu0. injection Hu0 as <-. exists u. split; [by rewrite list_lookup_insert_eq|].
    rewrite filter_cons_True, fmap_app by done. by eapply runs_snoc.
  - exists u0. split; [by rewrite list_lookup_insert_ne|].
    rewrite filter_cons_False, app_nil_r by done. eapply runs_later; [done|done|].
    destruct (ts !! j) as [tj|] eqn:Etj.
    + destruct (IH j tj Etj) as (uj & Huj & Hrj). rewrite Hj in Huj. injection Huj as <-.
      destruct (Htasks j tj Etj) as [Hrg HP]. eapply runs_snoc in Hrj; [|done|done].
      destruct (Hrg _ _ _ _ HP Hrj) as [HG _]. apply Forall_app in HG as [_ HG].
      apply Forall_cons in HG as [HG _]. by apply (compatible i j).
    + exfalso. pose proof (pool_length _ _ _ _ _ Hex). apply lookup_ge_None in Etj. lia.
Qed.

(** Every task that has finished is in its postcondition. *)
Lemma pool_post tr ts' s' i x :
  pool_exec ts s tr ts' s' → ts' !! i = Some (Done x) → Q i x s'.
Proof.
  intros Hex Hi. destruct (ts !! i) as [t|] eqn:Et.
  - destruct (pool_runs _ _ _ Hex i t Et) as (u & Hu & Hr). rewrite Hi in Hu. injection Hu as <-.
    destruct (Htasks i t Et) as [Hrg HP]. by destruct (Hrg _ _ _ _ HP Hr) as [_ HQ]; apply HQ.
  - apply lookup_ge_None in Et. apply lookup_lt_Some in Hi.
    rewrite (pool_length _ _ _ _ _ Hex) in Hi. lia.
Qed.

(** Every access is in the guarantee of the task that makes it. *)
Lemma pool_guarantee tr ts' s' i p :
  pool_exec ts s tr ts' s' → (i, p) ∈ tr → G i p.1 p.2.
Proof.
  intros Hex Hin. assert (Hi : (i < length ts)%nat).
  { clear Htasks. induction Hex as [|tr ts1 s1 j k u s2 Hex IH Hj Hk]; [by apply elem_of_nil in Hin|].
    apply elem_of_app in Hin as [Hin|Hin]; [by apply IH|].
    apply list_elem_of_singleton in Hin as [= -> ->]. rewrite <-(pool_length _ _ _ _ _ Hex).
    by eapply lookup_lt_Some. }
  apply lookup_lt_is_Some in Hi as [t Ht]. destruct (pool_runs _ _ _ Hex i t Ht) as (u & _ & Hr).
  destruct (Htasks i t Ht) as [Hrg HP]. destruct (Hrg _ _ _ _ HP Hr) as [HG _].
  rewrite Forall_forall in HG. apply HG. unfold own. apply list_elem_of_fmap. exists (i, p).
  split; [done|]. by apply list_elem_of_filter.
Qed.
End pools.

Lemma elem_of_own {S} i (p : S * S) tr : p ∈ own i tr ↔ (i, p) ∈ tr.
Proof.
  unfold own. rewrite list_elem_of_fmap. split.
  - intros ([j q] & -> & [E Hin]%list_elem_of_filter). cbn in *. by subst.
  - intros Hin. exists (i, p). split; [done|]. by apply list_elem_of_filter.
Qed.

(** Two elements of a list, one before the other. *)
Lemma elem_of_two {A} (x y : A) l :
  x ∈ l → y ∈ l → x ≠ y →
  ∃ pre mid post, l = pre ++ x :: mid ++ y :: post ∨ l = pre ++ y :: mid ++ x :: post.
Proof.
  intros (l1 & l2 & ->)%list_elem_of_split Hy Hne. apply elem_of_app in Hy as [Hy|Hy].
  - apply list_elem_of_split in Hy as (l3 & l4 & ->). exists l3, l4, l2. right. by simplify_list_eq.
  - apply elem_of_cons in Hy as [->|Hy]; [done|]. apply list_elem_of_split in Hy as (l3 & l4 & ->).
    exists l1, l3, l4. by left.
Qed.

(** The states of a trace follow one another. *)
Section trace.
Context {S A : Type} (T : S → S → Prop) `{!PreOrder T}.
Implicit Types (ts : list (Task S A)) (tr : list (nat * (S * S))).

Lemma trace_last ts s tr ts' s' :
  pool_exec ts s tr ts' s' → (∀ e, e ∈ tr → T e.2.1 e.2.2) →
  T s s' ∧ ∀ pre e post, tr = pre ++ e :: post → T e.2.2 s'.
Proof.
  induction 1 as [|tr ts1 s1 i k u s2 Hex IH Hi Hk]; intros HT.
  { split; [done|]. intros [] ? ? [=]. }
  destruct IH as [IHs IH]; [set_solver|].
  assert (HT2 : T s1 s2) by (apply (HT (i, (s1, s2))); set_solver).
  split; [by etrans|]. intros pre e post E. destruct post as [|e' post _] using rev_ind.
  - apply app_inj_tail in E as [-> <-]. done.
  - rewrite app_comm_cons, app_assoc in E. apply app_inj_tail in E as [-> <-].
    etrans; [by eapply IH|done].
Qed.

Lemma trace_first ts s tr ts' s' :
  pool_exec ts s tr ts' s' → (∀ e, e ∈ tr → T e.2.1 e.2.2) → ∀ e, e ∈ tr → T s e.2.1.
Proof.
  induction 1 as [|tr ts1 s1 i k u s2 Hex IH Hi Hk]; intros HT e He; [by apply elem_of_nil in He|].
  apply elem_of_app in He as [He|He]; [apply IH; [set_solver|done]|].
  apply list_elem_of_singleton in He as ->. destruct (trace_last _ _ _ _ _ Hex); [set_solver|done].
Qed.

Lemma trace_between ts s tr ts' s' :
  pool_exec ts s tr ts' s' → (∀ e, e ∈ tr → T e.2.1 e.2.2) →
  ∀ pre e mid e' post, tr = pre ++ e :: mid ++ e' :: post → T e.2.2 e'.2.1.
Proof.
  induction 1 as [|tr ts1 s1 i k u s2 Hex IH Hi Hk]; intros HT pre e mid e' post E.
  { by destruct pre. }
  destruct post as [|e1 post _] using rev_ind.
  - rewrite app_comm_cons, app_assoc in E. apply app_inj_tail in E as [-> <-].
    destruct (trace_last _ _ _ _ _ Hex) as [_ HT']; [set_solver|]. by eapply HT'.
  - replace (pre ++ e :: mid ++ e' :: post ++ [e1]) with ((pre ++ e :: mid ++ e' :: post) ++ [e1])
      in E by by simplify_list_eq.
    apply app_inj_tail in E as [-> _]. eapply IH; [set_solver|done].
Qed.
End trace.

(** ** Schedules *)

(** The accesses of a list of task numbers, as far as the tasks can make them. *)
Fixpoint schedule {S A} (l : list nat) (ts : list (Task S A)) (s : S) : list (Task S A) * S :=
  match l with
  | [] => (ts, s)
  | i :: l =>
     match ts !! i with
     | Some (Next k) => let '(u, s') := k s in schedule l (<[i := u]> ts) s'
     | _ => schedule l ts s
     end
  end.

Lemma pool_exec_cons {S A} (ts : list (Task S A)) s i k u s1 tr ts' s' :
  ts !! i = Some (Next k) → k s = (u, s1) → pool_exec (<[i := u]> ts) s1 tr ts' s' →
  pool_exec ts s ((i, (s, s1)) :: tr) ts' s'.
Proof.
  intros Hi Hk. induction 1 as [|tr ts1 s2 j k' u' s3 _ IH Hj Hk'].
  - apply (pool_access ts s [] ts s i k u s1); [constructor|done|done].
  - rewrite app_comm_cons. by eapply pool_access.
Qed.

Lemma schedule_exec {S A} l (ts : list (Task S A)) s :
  ∃ tr, pool_exec ts s tr (schedule l ts s).1 (schedule l ts s).2.
Proof.
  revert ts s. induction l as [|i l IH]; intros ts s; cbn; [exists []; constructor|].
  destruct (ts !! i) as [[x|k]|] eqn:Ei; [apply IH| |apply IH].
  destruct (k s) as [u s1] eqn:Ek. destruct (IH (<[i := u]> ts) s1) as [tr Htr].
  exists ((i, (s, s1)) :: tr). by eapply pool_exec_cons.
Qed.
