(* ===== verification/RegistryTasks.v ===== *)
(** * The registry's calls as tasks

    Models the calls of [src/registry.go] with their accesses to the store and to the
    in-memory namespaces ([src/namespace/namespace.go]) as separate steps, the way they
    interleave when several calls run at once: a call of the store is one transaction, a
    pointer of a namespace is loaded or stored atomically, and nothing is locked in
    between. The walk along the parent pointers and the conflict check along it are one
    access each; a [Range] over the schemas of a namespace visits the schemas there were
    when it started. A task that runs alone is the call of [Registry]. *)

From S2P Require Import Prelude GoStrings Descriptor Protobuf Snapshot Compat Conflict.
From S2P Require Import Compiler Namespace NamespaceThms Store Registry Tasks.
From stdpp Require Import prelude gmap strings list pretty.

Open Scope string_scope.

Section RegistryTasks.
Context `{Toolchain, ProtoTypes, ProtoNames, GoRange, CompilerVersion} {S : Type} `{Store S}.
#[local] Notation RS := (RState (S := S)).
#[local] Notation T := (Task RS).

Definition dbT {A} (m : M S A) : T A := atomic (db m).
Definition memT {A} (f : gmap string Namespace → A) : T A := atomic (mem f).

(** ** Internal helpers *)

Definition ensureNamespaceT (namespaceID : string) : T unit :=
  r1 ← attemptT (dbT (store_GetNamespace namespaceID));
  match r1 with
  | Ok _ => mret tt
  | Err _ =>
     r2 ← attemptT (dbT (store_CreateNamespace
       {| sn_ID := namespaceID; sn_CreatedAt := 0; sn_DeletedAt := None;
          sn_Metadata := None; sn_ParentNamespaceID := None |}));
     match r2 with
     | Ok _ => mret tt
     | Err err =>
        r3 ← attemptT (dbT (store_GetNamespace namespaceID));
        match r3 with
        | Ok _ => mret tt
        | Err _ => failT (ErrWrap "creating namespace" err)
        end
     end
  end.

Definition ensureSchemaT (namespaceID schemaID : string) : T unit :=
  r1 ← attemptT (dbT (store_GetSchema namespaceID schemaID));
  match r1 with
  | Ok _ => mret tt
  | Err _ =>
     r2 ← attemptT (dbT (store_CreateSchema
       {| sc_NamespaceID := namespaceID; sc_SchemaID := schemaID; sc_CurrentVersion := None;
          sc_StagedVersion := None; sc_CreatedAt := 0; sc_DeletedAt := None;
          sc_Metadata := None |}));
     match r2 with
     | Ok _ => mret tt
     | Err err =>
        r3 ← attemptT (dbT (store_GetSchema namespaceID schemaID));
        match r3 with
        | Ok _ => mret tt
        | Err _ => failT (ErrWrap "creating schema" err)
        end
     end
  end.

Definition ensureNamespaceAndSchemaT (namespaceID schemaID : string) : T unit :=
  ensureNamespaceT namespaceID ;; ensureSchemaT namespaceID schemaID.

(** The files of a schema version as dependencies, one read per blob. *)
Definition depSourcesT (namespaceID : string) (ctx : CurrentSchema → VersionFile → string)
    (cs : CurrentSchema) : T (list DepSource) :=
  mapM (λ f,
    blob ← wrapT (ctx cs f) (dbT (store_GetBlob namespaceID (vf_BlobSHA256 f)));
    mret {| ds_Namespace := namespaceID; ds_SchemaID := cs_SchemaID cs;
            ds_Version := cs_Version cs; ds_Filename := vf_Filename f;
            ds_Source := pb_OriginalSource blob |}) (cs_Files cs).

Definition gatherDepsT (namespaceID schemaID : string) : T (list DepSource) :=
  proposed ← dbT (store_LoadNamespaceProposed namespaceID);
  ls ← mapM (λ cs,
    if decide (cs_SchemaID cs = schemaID) then mret []
    else depSourcesT namespaceID (λ cs f, "fetching blob for " +:+ cs_SchemaID cs +:+ "/" +:+
                                           vf_Filename f) cs) proposed;
  mret (concat ls).

Definition gatherChainTiersT (nsID : string) : T (list ChainTier) :=
  chain ← memT (λ h, Chain h nsID);
  mapM (λ ancestor,
    let ancestorID := ns_id ancestor in
    currents ← wrapT ("loading current state of ancestor " +:+ ancestorID)
                 (dbT (store_LoadNamespaceCurrent ancestorID));
    ls ← mapM (depSourcesT ancestorID (λ _ f, "fetching blob " +:+ vf_Filename f +:+
                                              " from ancestor " +:+ ancestorID)) currents;
    mret {| ct_NamespaceID := ancestorID; ct_Files := concat ls |}) (tail chain).

Definition gatherBuiltinsT : T (list DepSource) :=
  current ← dbT (store_LoadNamespaceCurrent BuiltinsNamespace);
  ls ← mapM (depSourcesT BuiltinsNamespace (λ cs f, "fetching builtin blob for " +:+
                                              cs_SchemaID cs +:+ "/" +:+ vf_Filename f)) current;
  mret (concat ls).

Definition isUnchangedT (namespaceID schemaID fingerprint : string) : T bool :=
  schema ← attemptT (dbT (store_GetSchema namespaceID schemaID));
  match schema with
  | Err _ => mret false
  | Ok schema =>
     match (match sc_StagedVersion schema with
            | Some v => Some v | None => sc_CurrentVersion schema end) with
     | None => mret false
     | Some checkVersion =>
        files ← attemptT (dbT (store_GetVersionFiles namespaceID schemaID checkVersion));
        match files with
        | Err _ => mret false
        | Ok files =>
           mret (bool_decide (ComputeFingerprint
             ((λ f, {| fr_Filename := vf_Filename f; fr_BlobSHA256 := vf_BlobSHA256 f;
                       fr_OriginalSource := "" |}) <$> files) = fingerprint))
        end
     end
  end.

Definition loadSourcesT (namespaceID : string) (files : list VersionFile)
    (ctx : VersionFile → string) : T (gmap string string) :=
  l ← mapM (λ f,
    blob ← wrapT (ctx f) (dbT (store_GetBlob namespaceID (vf_BlobSHA256 f)));
    mret (vf_Filename f, pb_OriginalSource blob)) files;
  mret (fold_left (λ m kv, <[kv.1 := kv.2]> m) l (∅ : gmap string string)).

(** ** Publishing *)

(** The rows of a version. *)
Definition putVersionOf (req : PublishRequest) (nextVersion : Z) (result : CompileResult)
    : M S unit :=
  store_PutVersion
    {| sv_NamespaceID := pr_NamespaceID req; sv_SchemaID := pr_SchemaID req;
       sv_Version := nextVersion; sv_Compiled := cr_Compiled result;
       sv_CompilerVersion := compiler_Version; sv_CreatedAt := 0;
       sv_CreatedBy := pr_CreatedBy req; sv_DeletedAt := None;
       sv_Metadata := pr_Metadata req |}
    ((λ f, {| vf_NamespaceID := pr_NamespaceID req; vf_SchemaID := pr_SchemaID req;
              vf_Version := nextVersion; vf_Filename := fr_Filename f;
              vf_BlobSHA256 := fr_BlobSHA256 f |}) <$> cr_Files result)
    ((λ d, {| vd_NamespaceID := pr_NamespaceID req; vd_SchemaID := pr_SchemaID req;
              vd_Version := nextVersion; vd_DepNamespaceID := DepNamespaceID d;
              vd_DepSchemaID := DepSchemaID d; vd_DepFilename := DepFilename d;
              vd_DepVersion := DepVersion d |}) <$> cr_Deps result).

Definition storeVersionT (req : PublishRequest) (nextVersion : Z) (result : CompileResult)
    : T unit :=
  forT_ (cr_Files result) (λ f,
    wrapT ("storing blob for " +:+ fr_Filename f) (dbT (store_PutBlob
      {| pb_NamespaceID := pr_NamespaceID req; pb_SHA256 := fr_BlobSHA256 f;
         pb_OriginalSource := fr_OriginalSource f;
         pb_SizeBytes := Z.of_nat (String.length (fr_OriginalSource f));
         pb_CreatedAt := 0 |}))) ;;
  wrapT "storing version" (dbT (putVersionOf req nextVersion result)) ;;
  wrapT "staging version"
    (dbT (store_SetStaged (pr_NamespaceID req) (pr_SchemaID req) nextVersion)).

Definition publishInternalT (r : RegistryConfig) (req : PublishRequest)
    (forceNewVersion : bool) : T PublishResult :=
  if decide (size (pr_Sources req) = 0%nat) then failT (ErrNew "no source files provided")
  else
  of_resT (shadowCheck req) ;;
  ensureNamespaceAndSchemaT (pr_NamespaceID req) (pr_SchemaID req) ;;
  atomic (getOrCreate (pr_NamespaceID req)) ;;
  deps ← wrapT "gathering dependencies" (gatherDepsT (pr_NamespaceID req) (pr_SchemaID req));
  chainTiers ← wrapT "gathering parent chain" (gatherChainTiersT (pr_NamespaceID req));
  builtins ← (if decide (pr_NamespaceID req = BuiltinsNamespace) then mret []
              else wrapT "gathering builtins" gatherBuiltinsT);
  versions ← wrapT "listing versions"
               (dbT (store_ListVersions (pr_NamespaceID req) (pr_SchemaID req)));
  let nextVersion := nextVersionOf versions in
  result ← of_resT (wrap "compilation failed"
    (Compile (r_compiler r) nextVersion (pr_Sources req) deps chainTiers builtins));
  atomic (checkAncestorFQNConflicts (cr_Snapshot result) (pr_NamespaceID req)) ;;
  let fingerprint := ComputeFingerprint (cr_Files result) in
  noChange ← (if forceNewVersion then mret false
              else isUnchangedT (pr_NamespaceID req) (pr_SchemaID req) fingerprint);
  if noChange : bool then
    mret {| pub_Version := 0; pub_Fingerprint := fingerprint; pub_Snapshot := None;
            pub_NoChange := true |}
  else
    storeVersionT req nextVersion result ;;
    atomic (on_ns (pr_NamespaceID req)
      (SetStaged (pr_SchemaID req) (Some (cr_Snapshot result)))) ;;
    mret {| pub_Version := nextVersion; pub_Fingerprint := fingerprint;
            pub_Snapshot := Some (cr_Snapshot result); pub_NoChange := false |}.

Definition PublishT (r : RegistryConfig) (req : PublishRequest) : T PublishResult :=
  of_resT (CanPublish (r_authz r) (pr_NamespaceID req) (pr_SchemaID req)) ;;
  publishInternalT r req false.

(** ** Promotion *)

(** The loop over the schemas: the staged and the current pointer are loaded one after the
    other. *)
Fixpoint promoteChecksT (namespaceID : string) (ids : list string) : T unit :=
  match ids with
  | [] => mret tt
  | schemaID :: ids =>
     staged ← memT (λ h, Get h namespaceID ≫= λ ns, Staged ns schemaID);
     match staged with
     | None => promoteChecksT namespaceID ids
     | Some staged =>
        current ← memT (λ h, Get h namespaceID ≫= λ ns, Current ns schemaID);
        if match current with
           | Some c => bool_decide (snap_version staged <= snap_version c)%Z
           | None => false
           end then
          promoteChecksT namespaceID ids
        else
          let result := Check current staged in
          if OK result then promoteChecksT namespaceID ids
          else failT (ErrNew ("compatibility check failed for " +:+ namespaceID +:+ "/" +:+
                        schemaID +:+ ": " +:+ Result_Error result))
     end
  end.

(** [slot.staged.Swap(nil)] of a schema the namespace has. *)
Definition swapStaged (namespaceID schemaID : string) : M RS (option Snapshot) := λ st,
  (Ok (Get (rs_mem st) namespaceID ≫= λ ns, Staged ns schemaID),
   {| rs_store := rs_store st;
      rs_mem := alter (λ ns, with_schemas ns (alter (λ slot,
        {| slot_current := slot_current slot; slot_staged := None |}) schemaID (ns_schemas ns)))
        namespaceID (rs_mem st) |}).

(** [slot.staged.Store(nil)]. *)
Definition clearStaged (namespaceID schemaID : string) : M RS unit :=
  on_ns namespaceID (λ ns, with_schemas ns (alter (λ slot,
    {| slot_current := slot_current slot; slot_staged := None |}) schemaID (ns_schemas ns))).

Definition storeCurrent (namespaceID schemaID : string) (snap : Snapshot) : M RS unit :=
  on_ns namespaceID (λ ns, with_schemas ns (alter (λ slot,
    {| slot_current := Some snap; slot_staged := slot_staged slot |}) schemaID (ns_schemas ns))).

(** The identifiers a [Range] over the namespace visits. *)
Definition schemaIDsT (namespaceID : string) : T (list string) :=
  memT (λ h, from_option SchemaIDs [] (Get h namespaceID)).

Definition promoteNsT (namespaceID : string) : T unit :=
  ids ← schemaIDsT namespaceID;
  forT_ ids (λ schemaID,
    staged ← atomic (swapStaged namespaceID schemaID);
    match staged with
    | None => mret tt
    | Some staged => atomic (storeCurrent namespaceID schemaID staged)
    end).

Definition PromoteT (r : RegistryConfig) (namespaceID : string) : T (list PromotedSchema) :=
  of_resT (CanPromote (r_authz r) namespaceID) ;;
  ns ← memT (λ h, Get h namespaceID);
  match ns with
  | None => failT (ErrNew ("namespace " +:+ namespaceID +:+ " not found"))
  | Some _ =>
     ids ← schemaIDsT namespaceID;
     promoteChecksT namespaceID ids ;;
     promoted ← wrapT "promoting" (dbT (store_Promote namespaceID));
     promoteNsT namespaceID ;;
     mret promoted
  end.

(** ** Staging *)

Definition discardNsT (namespaceID : string) : T unit :=
  ids ← schemaIDsT namespaceID;
  forT_ ids (λ schemaID, atomic (clearStaged namespaceID schemaID)).

Definition DiscardStagingT (namespaceID : string) : T unit :=
  wrapT "discarding staging" (dbT (store_DiscardStaging namespaceID)) ;;
  discardNsT namespaceID.

Definition RollbackT (namespaceID schemaID : string) (version : Z) (Force : bool) : T unit :=
  ver ← wrapT ("getting version " +:+ pretty version)
          (dbT (store_GetVersion namespaceID schemaID version));
  fds ← of_resT (wrap "unmarshaling compiled descriptors" (Unmarshal (sv_Compiled ver)));
  snap ← of_resT (wrap "building snapshot" (Snapshot.New version fds));
  (if Force then mret tt
   else
     current ← atomic (Registry_Current namespaceID schemaID);
     match current with
     | None => mret tt
     | Some current =>
        let result := Check (Some current) snap in
        if OK result then mret tt
        else failT (ErrNew ("rollback to version " +:+ pretty version +:+
               " would break consumers of " +:+ namespaceID +:+ "/" +:+ schemaID +:+ ": " +:+
               Result_Error result +:+ "; pass force=true to override"))
     end) ;;
  wrapT ("setting staged to version " +:+ pretty version)
    (dbT (store_SetStaged namespaceID schemaID version)) ;;
  atomic (getOrCreate namespaceID) ;;
  atomic (on_ns namespaceID (SetStaged schemaID (Some snap))).

(** ** Hierarchy *)

Definition CreateNamespaceT (r : RegistryConfig) (req : CreateNamespaceRequest) : T unit :=
  of_resT (CanCreateNamespace (r_authz r) (cn_NamespaceID req) (cn_ParentID req)) ;;
  wrapT ("creating namespace " +:+ cn_NamespaceID req) (dbT (store_CreateNamespace
    {| sn_ID := cn_NamespaceID req; sn_CreatedAt := 0; sn_DeletedAt := None;
       sn_Metadata := cn_Metadata req; sn_ParentNamespaceID := None |})) ;;
  atomic (getOrCreate (cn_NamespaceID req)) ;;
  match cn_ParentID req with
  | None => mret tt
  | Some p =>
     wrapT "setting parent on new namespace"
       (dbT (store_SetNamespaceParent (cn_NamespaceID req) (Some p) (cn_ActorID req))) ;;
     atomic (getOrCreate p) ;;
     atomic (on_ns (cn_NamespaceID req) (SetParent (Some p)))
  end.

Definition SetNamespaceParentT (r : RegistryConfig) (req : SetNamespaceParentRequest) : T unit :=
  of_resT (CanSetNamespaceParent (r_authz r) (sp_NamespaceID req) (sp_ParentID req)) ;;
  dbT (store_SetNamespaceParent (sp_NamespaceID req) (sp_ParentID req) (sp_ActorID req)) ;;
  atomic (getOrCreate (sp_NamespaceID req)) ;;
  match sp_ParentID req with
  | None => atomic (on_ns (sp_NamespaceID req) (SetParent None))
  | Some p =>
     atomic (getOrCreate p) ;; atomic (on_ns (sp_NamespaceID req) (SetParent (Some p)))
  end.

Definition RebaseT (r : RegistryConfig) (req : RebaseRequest) : T PublishResult :=
  of_resT (CanRebase (r_authz r) (rb_NamespaceID req) "") ;;
  ns ← memT (λ h, Get h (rb_NamespaceID req));
  match ns with
  | None => failT (ErrNew ("namespace " +:+ rb_NamespaceID req +:+ " not found"))
  | Some _ =>
  current ← memT (λ h, Get h (rb_NamespaceID req) ≫= λ ns, Current ns (rb_SchemaID req));
  match current with
  | None => failT (ErrNew ("schema " +:+ rb_NamespaceID req +:+ "/" +:+ rb_SchemaID req +:+
                           " has no current version to rebase"))
  | Some cur =>
  files ← wrapT "loading version files"
    (dbT (store_GetVersionFiles (rb_NamespaceID req) (rb_SchemaID req) (snap_version cur)));
  sources ← loadSourcesT (rb_NamespaceID req) files (λ f, "loading blob " +:+ vf_BlobSHA256 f);
  publishInternalT r
    {| pr_NamespaceID := rb_NamespaceID req; pr_SchemaID := rb_SchemaID req;
       pr_Sources := sources; pr_CreatedBy := rb_ActorID req;
       pr_Metadata := Some {[ "rebased_from_version" := pretty (snap_version cur) ]};
       pr_Force := false |} true
  end end.

(** ** Calls *)

(** A call a client of the registry makes; the version of a rollback is a [uint64]. *)
Inductive Call :=
  | CallPublish (req : PublishRequest)
  | CallPromote (namespaceID : string)
  | CallDiscardStaging (namespaceID : string)
  | CallRollback (namespaceID schemaID : string) (version : Z) (Force : bool)
  | CallCreateNamespace (req : CreateNamespaceRequest)
  | CallSetNamespaceParent (req : SetNamespaceParentRequest)
  | CallRebase (req : RebaseRequest).

Inductive Answer :=
  | Published (p : PublishResult)
  | Promoted (ps : list PromotedSchema)
  | Finished.

Definition callT (r : RegistryConfig) (c : Call) : T Answer :=
  match c with
  | CallPublish req => p ← PublishT r req; mret (Published p)
  | CallPromote ns => ps ← PromoteT r ns; mret (Promoted ps)
  | CallDiscardStaging ns => DiscardStagingT ns ;; mret Finished
  | CallRollback ns sc v force => RollbackT ns sc v force ;; mret Finished
  | CallCreateNamespace req => CreateNamespaceT r req ;; mret Finished
  | CallSetNamespaceParent req => SetNamespaceParentT r req ;; mret Finished
  | CallRebase req => p ← RebaseT r req; mret (Published p)
  end.

(** The same call with nothing in between. *)
Definition call (r : RegistryConfig) (c : Call) : M RS Answer :=
  match c with
  | CallPublish req => p ← Publish r req; mret (Published p)
  | CallPromote ns => ps ← Promote r ns; mret (Promoted ps)
  | CallDiscardStaging ns => DiscardStaging ns ;; mret Finished
  | CallRollback ns sc v force => Rollback ns sc v force ;; mret Finished
  | CallCreateNamespace req => CreateNamespace r req ;; mret Finished
  | CallSetNamespaceParent req => SetNamespaceParent r req ;; mret Finished
  | CallRebase req => p ← Rebase r req; mret (Published p)
  end.

End RegistryTasks.
