(* ===== verification/RegistryCalm.v ===== *)
(** * The accesses that move no version

    Most accesses of a call read, or add rows and objects that move no current or staged
    version. Over any rely and guarantee that allow those, the parts of the calls made of
    them are calm. *)

From S2P Require Import Prelude GoStrings Descriptor Protobuf Snapshot Compat Conflict.
From S2P Require Import Compiler Namespace NamespaceThms Store Registry RegistryThms.
From S2P Require Import Tasks RegistryTasks.
From stdpp Require Import prelude gmap strings list.

Open Scope string_scope.
Open Scope list_scope.

Section Calm.
Context `{Toolchain, ProtoTypes, ProtoNames, GoRange, CompilerVersion} {S : Type}
  `{StoreLaws S}.
#[local] Notation RS := (RState (S := S)).
#[local] Notation T := (Task RS).
Context (R G : RS → RS → Prop) `{!PreOrder R, !Reflexive G} (ok : RS → Prop).
#[local] Notation calm := (calm R G ok).

(** The schema has a slot. *)
Definition has_slot (h : gmap string Namespace) (ns sc : string) : Prop :=
  is_Some (h !! ns ≫= λ n, ns_schemas n !! sc).

(** The second heap has the same snapshots, and every object of the first. *)
Record snaps_same (h h' : gmap string Namespace) : Prop := {
  ss_slot ns sc : has_slot h ns sc → has_slot h' ns sc;
  ss_cur ns sc : cur_of h' ns sc = cur_of h ns sc;
  ss_stg ns sc : stg_of h' ns sc = stg_of h ns sc;
  ss_dom ns : is_Some (h !! ns) → is_Some (h' !! ns) }.

(** Steps of the database that move no version, and of the memory that keep every
    snapshot. *)
Class AllowsCalm : Prop := {
  allow_db {A} (m : M S A) : keeps_versions m → calm (dbT m);
  allow_mem f : (∀ h, snaps_same h (f h)) → calm (atomic (set_mem f)) }.

Context `{!AllowsCalm}.

Lemma calm_load {A} (f : gmap string Namespace → A) : calm (memT f).
Proof. by apply calm_atomic. Qed.

Lemma calm_getOrCreate id : calm (atomic (getOrCreate id)).
Proof. 
  apply allow_mem. intros h. destruct (mem_same_GetOrCreate h id) as [Hc Hg _ Hd].
  split; [|done..]. intros ns sc [slot Hs]. unfold has_slot. apply bind_Some in Hs as (n & Hn & Hs).
  exists slot. apply bind_Some. exists n. split; [|done]. unfold GetOrCreate.
  destruct (h !! id) eqn:E; cbn; [done|]. by rewrite lookup_insert_ne by congruence.
Qed.

Lemma calm_SetParent id p : calm (atomic (on_ns id (SetParent p))).
Proof.
  apply allow_mem. intros h. unfold cur_of, stg_of.
  split; intros ns; intros; unfold cur_of, stg_of, has_slot in *; rewrite lookup_alter; (case_decide; [subst|done]);
    by destruct (h !! ns).
Qed.

(** Goes through the program. *)
Ltac calm_step := first
  [ apply calm_done | apply calm_mapT | apply calm_bind | apply calm_forT_ | apply calm_mapM
  | apply _ | apply calm_load | apply calm_getOrCreate | apply calm_SetParent
  | apply allow_db; solve_keeps
  | match goal with
    | |- Tasks.calm _ _ _ (match ?x with _ => _ end) => destruct x
    | |- Tasks.calm _ _ _ (let _ := _ in _) => cbv zeta
    end ].
Ltac solve_calm := repeat (intros; calm_step).

Lemma calm_ensure ns sc : calm (ensureNamespaceAndSchemaT ns sc).
Proof. unfold ensureNamespaceAndSchemaT, ensureNamespaceT, ensureSchemaT. solve_calm. Qed.

Lemma calm_gatherDeps ns sc : calm (gatherDepsT ns sc).
Proof. unfold gatherDepsT, depSourcesT. solve_calm. Qed.

Lemma calm_gatherChainTiers ns : calm (gatherChainTiersT ns).
Proof. unfold gatherChainTiersT, depSourcesT. solve_calm. Qed.

Lemma calm_gatherBuiltins : calm gatherBuiltinsT.
Proof. unfold gatherBuiltinsT, depSourcesT. solve_calm. Qed.

Lemma calm_isUnchanged ns sc fp : calm (isUnchangedT ns sc fp).
Proof. unfold isUnchangedT. solve_calm. Qed.

Lemma calm_loadSources ns fs ctx : calm (loadSourcesT ns fs ctx).
Proof. unfold loadSourcesT. solve_calm. Qed.

Lemma calm_checkAncestor snap ns : calm (atomic (checkAncestorFQNConflicts snap ns)).
Proof.
  apply calm_atomic. intros st _. unfold checkAncestorFQNConflicts, mbind, M_bind, mem, gets.
  by destruct (ancestorConflicts _ _) as [[]|].
Qed.

Lemma calm_promoteChecks ns ids : calm (promoteChecksT ns ids).
Proof. induction ids as [|sc ids IH]; cbn [promoteChecksT]; solve_calm; done. Qed.

Lemma calm_storeBlobs (req : PublishRequest) (files : list FileResult) f :
  calm (forT_ files (λ x, wrapT (f x) (dbT (store_PutBlob
    {| pb_NamespaceID := pr_NamespaceID req; pb_SHA256 := fr_BlobSHA256 x;
       pb_OriginalSource := fr_OriginalSource x;
       pb_SizeBytes := Z.of_nat (String.length (fr_OriginalSource x)); pb_CreatedAt := 0 |})))).
Proof. solve_calm. Qed.

Lemma calm_CreateNamespace r req : calm (CreateNamespaceT r req).
Proof. unfold CreateNamespaceT. solve_calm. Qed.

Lemma calm_SetNamespaceParent r req : calm (SetNamespaceParentT r req).
Proof. unfold SetNamespaceParentT. solve_calm. Qed.

End Calm.

(** The same, with the parts above. *)
Ltac calm_step := first
  [ apply calm_done | apply calm_mapT | apply calm_bind | apply calm_forT_ | apply calm_mapM
  | apply _ | apply calm_load | apply calm_getOrCreate | apply calm_SetParent
  | apply calm_ensure | apply calm_gatherDeps | apply calm_gatherChainTiers | apply calm_gatherBuiltins
  | apply calm_isUnchanged | apply calm_loadSources | apply calm_checkAncestor
  | apply calm_promoteChecks | apply calm_CreateNamespace | apply calm_SetNamespaceParent
  | apply allow_db; [try apply _..|]; solve_keeps
  | match goal with
    | |- Tasks.calm _ _ _ (match ?x with _ => _ end) => destruct x
    | |- Tasks.calm _ _ _ (let _ := _ in _) => cbv zeta
    end ].
Ltac solve_calm := repeat (intros; calm_step).
