(* ===== verification/RegistryInterleaved.v ===== *)
(** * Interleaved calls of the registry

    Any number of calls of a running registry, over every store with [StoreLaws], their
    accesses interleaved in any order: versions are only added, the database and the
    memory only ever point to stored versions, and two calls never get the same version
    of a schema. *)

From S2P Require Import Prelude GoStrings Descriptor Protobuf Snapshot Compat Conflict.
From S2P Require Import Compiler Namespace NamespaceThms Store Registry RegistryThms RegistryCoherence.
From S2P Require Import Tasks RegistryTasks RegistryCalm.
From stdpp Require Import prelude gmap strings list.

Open Scope string_scope.
Open Scope list_scope.

Section Interleaved.
Context `{Toolchain, ProtoTypes, ProtoNames, GoRange, CompilerVersion} {S : Type}
  `{StoreLaws S}.
#[local] Notation RS := (RState (S := S)).
#[local] Notation T := (Task RS).
Implicit Types (st : RS) (h : gmap string Namespace).

(** ** What every access keeps *)

Definition stored st (ns sc : string) (v : Z) : Prop := (ns, sc, v) ∈ v_versions (rs_store st).

(** No pointer, in the database or in memory, leads to a version that is not stored. *)
Record pointers_ok st : Prop := {
  po_ok : v_ok (rs_store st);
  po_db_current ns sc v : v_current (rs_store st) !! (ns, sc) = Some v → stored st ns sc v;
  po_db_staged ns sc v : v_staged (rs_store st) !! (ns, sc) = Some v → stored st ns sc v;
  po_current ns sc snap :
    cur_of (rs_mem st) ns sc = Some snap → stored st ns sc (snap_version snap);
  po_staged ns sc snap :
    stg_of (rs_mem st) ns sc = Some snap → stored st ns sc (snap_version snap) }.

(** The step of one access, of this call or of another. *)
Record grown st st' : Prop := {
  gr_pointers : pointers_ok st';
  gr_schemas : v_schemas (rs_store st) ⊆ v_schemas (rs_store st');
  gr_versions : v_versions (rs_store st) ⊆ v_versions (rs_store st') }.
Definition grows st st' : Prop := pointers_ok st → grown st st'.

#[global] Instance grows_preorder : PreOrder grows.
Proof.
  split.
  - intros st Hst. by split.
  - intros st1 st2 st3 H12 H23 Hst. destruct (H12 Hst) as [Hp Hs Hv].
    destruct (H23 Hp) as [Hp' Hs' Hv']. split; [done|..]; by etrans.
Qed.

#[local] Notation growing := (growing grows pointers_ok).
#[local] Notation calm := (calm grows grows pointers_ok).

Lemma growing_pointers : growing pointers_ok.
Proof. split; [done|]. intros st st' Hst Hg. apply (Hg Hst). Qed.

Lemma growing_stored ns sc v : growing (λ st, pointers_ok st ∧ stored st ns sc v).
Proof.
  split; [by intros st []|]. intros st st' [Hst Hv] Hg. destruct (Hg Hst) as [Hp _ Hs].
  split; [done|]. by apply Hs.
Qed.

Lemma growing_schema P ns sc :
  growing P → growing (λ st, P st ∧ (ns, sc) ∈ v_schemas (rs_store st)).
Proof.
  intros [HP HPs]. split; [intros st []; auto|]. intros st st' [Hst Hin] Hg. split; [by eapply HPs|].
  destruct (Hg (HP _ Hst)) as [_ Hs _]. by apply Hs.
Qed.

Lemma growing_versions ns sc (vs : list Z) :
  growing (λ st, pointers_ok st ∧ ∀ v, v ∈ vs → stored st ns sc v).
Proof.
  split; [by intros st []|]. intros st st' [Hst Hv] Hg. destruct (Hg Hst) as [Hp _ Hs].
  split; [done|]. intros v Hin. by apply Hs, Hv.
Qed.

Lemma grows_same st st' :
  v_ok (rs_store st') →
  v_current (rs_store st') = v_current (rs_store st) →
  v_staged (rs_store st') = v_staged (rs_store st) →
  v_schemas (rs_store st) ⊆ v_schemas (rs_store st') →
  v_versions (rs_store st) ⊆ v_versions (rs_store st') →
  snaps_same (rs_mem st) (rs_mem st') → grows st st'.
Proof.
  intros Hok Ec Eg Hs Hv Hm [_ Hdc Hds Hc Hg]. split; [|done|done]. unfold stored in *.
  split; [done|..]; intros ns sc ?; rewrite ?Ec, ?Eg, ?(ss_cur _ _ Hm), ?(ss_stg _ _ Hm);
    intros ?; apply Hv; eauto.
Qed.

Lemma calm_grows {A} (m : M RS A) : (∀ st, grows st (m st).2) → calm (atomic m).
Proof. intros Hm. by apply calm_atomic. Qed.

#[local] Instance grows_allows : AllowsCalm grows grows pointers_ok.
Proof.
  split.
  - intros A m Hm. apply calm_grows. intros st Hst. destruct (Hm (rs_store st) (po_ok _ Hst))
      as (Hok & Ec & Eg & Hs & Hv). unfold db. destruct (m (rs_store st)) as [x s'].
    by apply (grows_same st).
  - intros f Hf. apply calm_grows. intros st Hst. apply (grows_same st); [apply Hst|done..|apply Hf|done].
Qed.

(** ** The accesses that move versions *)

Lemma po_db st ns sc v :
  pointers_ok st →
  v_current (rs_store st) !! (ns, sc) = Some v ∨ v_staged (rs_store st) !! (ns, sc) = Some v →
  stored st ns sc v.
Proof. intros []. naive_solver. Qed.

Lemma po_mem st ns sc snap :
  pointers_ok st → cur_of (rs_mem st) ns sc = Some snap ∨ stg_of (rs_mem st) ns sc = Some snap →
  stored st ns sc (snap_version snap).
Proof. intros []. naive_solver. Qed.

(** The database moves its pointers to stored versions. *)
Lemma grown_db st s' :
  pointers_ok st → v_ok s' →
  v_schemas s' = v_schemas (rs_store st) → v_versions s' = v_versions (rs_store st) →
  (∀ ns sc v, v_current s' !! (ns, sc) = Some v ∨ v_staged s' !! (ns, sc) = Some v →
     stored st ns sc v) →
  grown st {| rs_store := s'; rs_mem := rs_mem st |}.
Proof.
  intros [_ _ _ Hc Hg] Hok Es Ev Hp. unfold stored in *.
  split; [split; unfold stored; cbn; rewrite ?Ev; eauto|cbn; by rewrite ?Es, ?Ev..].
Qed.

(** The memory moves its pointers to snapshots of stored versions. *)
Lemma grown_mem st h' :
  pointers_ok st →
  (∀ ns sc snap, cur_of h' ns sc = Some snap ∨ stg_of h' ns sc = Some snap →
     stored st ns sc (snap_version snap)) →
  grown st {| rs_store := rs_store st; rs_mem := h' |}.
Proof. intros [Hok Hdc Hds _ _] Hp. split; [split; eauto|done|done]. Qed.

Lemma calm_Promote ns : calm (dbT (store_Promote ns)).
Proof.
  apply calm_grows. intros st Hst. unfold db. pose proof (Promote_versions ns (rs_store st)) as Ev.
  destruct (store_Promote ns (rs_store st)) as [[ps|e] s'] eqn:E; cbn in *.
  - destruct (Promote_Ok _ _ _ _ (po_ok _ Hst) E) as (Hok & Ec & Eg & Es & _).
    apply grown_db; [done..|]. intros ns' sc v. rewrite Ec, Eg, lookup_promoted, lookup_cleared.
    case_decide; [|by apply po_db].
    intros Hv. apply po_db; [done|]. destruct (v_staged (rs_store st) !! _); naive_solver.
  - apply Promote_Err in E as ->. destruct st. by split.
Qed.

Lemma calm_DiscardStaging ns : calm (dbT (store_DiscardStaging ns)).
Proof.
  apply calm_grows. intros st Hst. unfold db.
  pose proof (DiscardStaging_versions ns (rs_store st)) as Ev.
  destruct (store_DiscardStaging ns (rs_store st)) as [[[]|e] s'] eqn:E; cbn in *.
  - destruct (DiscardStaging_Ok _ _ _ (po_ok _ Hst) E) as (Hok & Eg & Ec & Es).
    apply grown_db; [done..|]. intros ns' sc v. rewrite Ec, Eg, lookup_cleared.
    intros Hv. apply po_db; [done|]. case_decide; naive_solver.
  - apply DiscardStaging_Err in E as ->. destruct st. by split.
Qed.

(** Staging a stored version of a schema. *)
Lemma rg_SetStaged ns sc v :
  (0 < v <= maxInt64)%Z →
  rg grows grows
    (λ st, (pointers_ok st ∧ stored st ns sc v) ∧ (ns, sc) ∈ v_schemas (rs_store st))
    (dbT (store_SetStaged ns sc v)) (λ _ st, pointers_ok st ∧ stored st ns sc v).
Proof.
  intros Hv. apply rg_atomic.
  { apply growing_schema, growing_stored. }
  { intros _. apply growing_stored. }
  intros st [[Hst Hs] Hsc]. unfold db.
  destruct (store_SetStaged ns sc v (rs_store st)) as [[[]|e] s'] eqn:E.
  - destruct (SetStaged_Ok _ _ _ _ _ E Hsc Hv (po_ok _ Hst)) as (Hok & Eg & Ec & Es & Ev).
    assert (Hg : grown st {| rs_store := s'; rs_mem := rs_mem st |}).
    { apply grown_db; [done..|]. intros ns' sc' w. rewrite Ec, Eg.
      intros [Hw|[[[= <- <-] <-]|[_ Hw]]%lookup_insert_Some]; [|done|]; apply po_db; auto. }
    split; [by intros _|]. split; [apply Hg|]. unfold stored. cbn. by rewrite Ev.
  - apply SetStaged_Err in E as ->. destruct st. by split.
Qed.

(** Storing a snapshot of a stored version in memory. *)
Lemma rg_on_ns ns sc snap f :
  (∀ n sc' snap', Current (f n) sc' = Some snap' ∨ Staged (f n) sc' = Some snap' →
     (sc' = sc ∧ snap' = snap) ∨ Current n sc' = Some snap' ∨ Staged n sc' = Some snap') →
  rg grows grows (λ st, pointers_ok st ∧ stored st ns sc (snap_version snap))
    (atomic (on_ns ns f)) (λ _, pointers_ok).
Proof.
  intros Hf. apply rg_atomic; [apply growing_stored|intros _; apply growing_pointers|].
  intros st [Hst Hs]. cbn. assert (Hg : grown st {| rs_store := rs_store st; rs_mem := alter f ns (rs_mem st) |}).
  { apply grown_mem; [done|]. intros ns' sc' snap' Hp.
    assert (Hold : cur_of (rs_mem st) ns' sc' = Some snap' ∨ stg_of (rs_mem st) ns' sc' = Some snap' →
      stored st ns' sc' (snap_version snap')).
    { by apply po_mem. }
    unfold cur_of, stg_of in Hp, Hold. rewrite lookup_alter in Hp. case_decide as En; [|auto]. subst ns'.
    destruct (rs_mem st !! ns) as [n|]; cbn in *; [|by destruct Hp].
    apply Hf in Hp as [[-> ->]|Hp]; auto. }
  split; [by intros _|apply Hg].
Qed.

Lemma rg_stage ns sc snap :
  rg grows grows (λ st, pointers_ok st ∧ stored st ns sc (snap_version snap))
    (atomic (on_ns ns (SetStaged sc (Some snap)))) (λ _, pointers_ok).
Proof.
  apply rg_on_ns. intros n sc' snap'. rewrite Current_SetStaged, Staged_SetStaged.
  case_decide; naive_solver.
Qed.

(** ** Every call *)

Definition safe {A} (t : T A) : Prop := rg grows grows pointers_ok t (λ _, pointers_ok).

Lemma calm_safe {A} (t : T A) : calm t → safe t.
Proof. intros Ht. apply Ht, growing_pointers. Qed.

Ltac solve_safe := apply calm_safe; solve_calm.

Lemma safe_bind {A B} (t : T A) (f : A → T B) : safe t → (∀ a, safe (f a)) → safe (t ≫= f).
Proof. intros Ht Hf. eapply rg_bind; [apply _|exact Ht|exact Hf|done]. Qed.

(** A step after which more is known. *)
Lemma safe_then {A B} P (t : T A) (f : A → T B) (Q : A → RS → Prop) :
  rg grows grows P t (λ x st, match x with Ok a => Q a st | Err _ => pointers_ok st end) →
  (∀ a, rg grows grows (Q a) (f a) (λ _, pointers_ok)) →
  rg grows grows P (t ≫= f) (λ _, pointers_ok).
Proof. intros Ht Hf. eapply rg_bind; [apply _|exact Ht|exact Hf|done]. Qed.

Lemma safe_calm {A B} P (t : T A) (f : A → T B) :
  growing P → calm t → (∀ a, rg grows grows P (f a) (λ _, pointers_ok)) →
  rg grows grows P (t ≫= f) (λ _, pointers_ok).
Proof.
  intros HP Ht Hf. apply (safe_then _ _ _ (λ _, P)); [|done].
  eapply rg_conseq; [by apply Ht|done|]. intros [a|e] st Hst; [done|by apply HP].
Qed.

(** A staged snapshot goes. *)
Lemma grown_cleared ns sc st : pointers_ok st → grown st (clearStaged ns sc st).2.
Proof.
  intros Hst. apply grown_mem; [done|]. intros ns' sc' snap Hp. apply po_mem; [done|].
  unfold cur_of, stg_of in *. rewrite lookup_alter in Hp. case_decide; [subst|done].
  destruct (rs_mem st !! ns') as [n|]; [|done]. cbn in *. unfold Current, Staged, getSlot in *.
  cbn in Hp. rewrite lookup_alter in Hp. case_decide; [subst|done].
  destruct (ns_schemas n !! sc') as [slot|]; naive_solver.
Qed.

(** The slots one after the other: a staged snapshot is taken out, then made current. *)
Lemma safe_swapStaged ns sc :
  rg grows grows pointers_ok (atomic (swapStaged ns sc))
    (λ x st, match x with
             | Ok (Some snap) => pointers_ok st ∧ stored st ns sc (snap_version snap)
             | _ => pointers_ok st
             end).
Proof.
  apply rg_atomic; [apply growing_pointers| |].
  { intros [[snap|]|e]; [apply growing_stored|apply growing_pointers..]. }
  intros st Hst. pose proof (grown_cleared ns sc st Hst) as Hg. cbn.
  split; [by intros _|]. destruct (Get _ _ ≫= _) as [snap|] eqn:E; [|apply Hg].
  split; [apply Hg|]. apply (po_staged _ Hst). unfold stg_of, Get in *. done.
Qed.

Lemma safe_promoteNs ns : safe (promoteNsT ns).
Proof.
  unfold promoteNsT, schemaIDsT. apply safe_bind; [solve_safe|]. intros ids.
  apply rg_forT_; [apply _|apply growing_pointers|]. intros sc.
  eapply safe_then; [eapply rg_conseq; [apply (safe_swapStaged ns sc)|done|]|].
  { intros [o|e] st Hx; [exact Hx|exact Hx]. }
  intros [snap|]; [|apply rg_done; [apply growing_pointers|done]].
  apply (rg_on_ns ns sc snap). intros n sc' snap'. unfold Current, Staged, getSlot. cbn.
  rewrite lookup_alter. case_decide; [subst|by right].
  destruct (ns_schemas n !! sc'); naive_solver.
Qed.

Lemma safe_discardNs ns : safe (discardNsT ns).
Proof.
  unfold discardNsT, schemaIDsT. apply safe_bind; [solve_safe|]. intros ids.
  apply rg_forT_; [apply _|apply growing_pointers|]. intros sc.
  apply calm_safe, calm_grows. intros st Hst. by apply grown_cleared.
Qed.

(** The versions listed stay stored. *)
Lemma rg_ListVersions ns sc c :
  rg grows grows pointers_ok (wrapT c (dbT (store_ListVersions ns sc)))
    (λ x st, match x with
       | Ok vs => (pointers_ok st ∧ ∀ v, v ∈ vs → stored st ns sc v) ∧
                  ∃ s0, v_ok s0 ∧ store_ListVersions ns sc s0 = (Ok vs, s0)
       | Err _ => pointers_ok st
       end).
Proof.
  apply rg_mapT, rg_atomic; [apply growing_pointers| |].
  { intros [vs|e]; [|apply growing_pointers]. intros st st' [Hst He] Hg. split; [|done].
    exact (proj2 (growing_versions _ _ _) st st' Hst Hg). }
  intros st Hst. unfold db. pose proof (reads_ListVersions ns sc (rs_store st)) as Hrd.
  destruct (store_ListVersions ns sc (rs_store st)) as [[vs|e] s'] eqn:E; cbn in *; subst s';
    destruct st as [s h]; [|by split].
  split; [by split|]. split; [|exists s; split; [apply Hst|done]]. split; [done|].
  intros v Hv. by apply (ListVersions_stored _ _ _ _ _ _ (po_ok _ Hst) E).
Qed.

(** Storing the version that comes after the listed ones: the number is in range, because
    it was free. *)
Lemma rg_PutVersion req vs result s0 c :
  v_ok s0 → store_ListVersions (pr_NamespaceID req) (pr_SchemaID req) s0 = (Ok vs, s0) →
  rg grows grows
    (λ st, pointers_ok st ∧ ∀ v, v ∈ vs → stored st (pr_NamespaceID req) (pr_SchemaID req) v)
    (wrapT c (dbT (putVersionOf req (nextVersionOf vs) result)))
    (λ x st, match x with
       | Ok _ => ((pointers_ok st ∧
                   stored st (pr_NamespaceID req) (pr_SchemaID req) (nextVersionOf vs)) ∧
                  (pr_NamespaceID req, pr_SchemaID req) ∈ v_schemas (rs_store st)) ∧
                 (0 < nextVersionOf vs <= maxInt64)%Z
       | Err _ => pointers_ok st
       end).
Proof.
  intros Hok Hlist. apply rg_mapT, rg_atomic; [apply growing_versions| |].
  { intros [[]|e]; [|apply growing_pointers]. intros st st' [Hst Hr] Hg. split; [|done].
    exact (proj2 (growing_schema _ _ _ (growing_stored _ _ _)) st st' Hst Hg). }
  intros st [Hst Hvs]. unfold putVersionOf. set (ver := {| sv_NamespaceID := _ |}).
  set (fs := (λ f : FileResult, _) <$> _). set (ds := (λ d : Dep, _) <$> _).
  destruct (keeps_PutVersion ver fs ds (rs_store st) (po_ok _ Hst)) as (Hok' & Ec & Eg & Hs & Hv).
  unfold db. destruct (store_PutVersion ver fs ds (rs_store st)) as [[[]|e] s'] eqn:E; cbn in *.
  all: assert (Hgr : grown st {| rs_store := s'; rs_mem := rs_mem st |}) by by apply grows_same.
  2: { split; [by intros _|apply Hgr]. }
  split; [by intros _|].
  assert (Hr : (0 < nextVersionOf vs <= maxInt64)%Z).
  { by apply (nextVersion_range (pr_NamespaceID req) (pr_SchemaID req) vs s0 vs ver fs ds (rs_store st) s'). }
  split; [|done]. split; [|by apply (PutVersion_schema _ _ _ _ _ E)]. split; [apply Hgr|].
  assert (Hu : (0 <= sv_Version ver < 2 ^ 64)%Z) by (subst ver; cbn; unfold maxInt64 in Hr; lia).
  pose proof (PutVersion_stored _ _ _ _ _ Hu E) as Hin. subst ver. cbn in Hin.
  by rewrite Z.min_l in Hin by lia.
Qed.

Lemma rg_storeVersion req vs result s0 :
  v_ok s0 → store_ListVersions (pr_NamespaceID req) (pr_SchemaID req) s0 = (Ok vs, s0) →
  rg grows grows
    (λ st, pointers_ok st ∧ ∀ v, v ∈ vs → stored st (pr_NamespaceID req) (pr_SchemaID req) v)
    (storeVersionT req (nextVersionOf vs) result)
    (λ x st, match x with
       | Ok _ => pointers_ok st ∧
                 stored st (pr_NamespaceID req) (pr_SchemaID req) (nextVersionOf vs)
       | Err _ => pointers_ok st
       end).
Proof.
  intros Hok Hlist. unfold storeVersionT.
  eapply rg_bind; [apply _|apply (calm_storeBlobs grows grows pointers_ok req), growing_versions| |by intros e st []].
  intros []. eapply rg_bind; [apply _|by apply (rg_PutVersion req vs result s0)| |done].
  intros []. apply rg_pure. intros Hr. apply rg_mapT.
  eapply rg_conseq; [by apply rg_SetStaged|done|]. intros [[]|e] st Hx; [exact Hx|apply Hx].
Qed.

Lemma safe_publishInternal r req force : safe (publishInternalT r req force).
Proof.
  unfold publishInternalT. case_decide; [solve_safe|].
  apply safe_bind; [solve_safe|intros []].
  apply safe_bind; [solve_safe|intros []].
  apply safe_bind; [solve_safe|intros []].
  apply safe_bind; [solve_safe|intros deps].
  apply safe_bind; [solve_safe|intros tiers].
  apply safe_bind; [|intros builtins].
  { solve_safe. }
  eapply safe_then; [apply rg_ListVersions|]. intros vs. cbv zeta. apply rg_pure.
  intros (s0 & Hok0 & Hlist). set (P := λ st : RS, pointers_ok st ∧ _).
  assert (HP : growing P) by apply growing_versions.
  apply (safe_then _ _ _ (λ result st, P st ∧ snap_version (cr_Snapshot result) = nextVersionOf vs)).
  { apply rg_done; [apply HP|]. intros st Hst.
    destruct (Compile _ _ _ _ _ _) as [result|] eqn:E; [|by apply HP]. split; [done|].
    by eapply Compile_version. }
  intros result. apply rg_pure. intros Ev.
  apply safe_calm; [done|solve_calm|intros []].
  apply safe_calm; [done|solve_calm|].
  intros [|]; [apply rg_done; [apply HP|apply HP]|].
  eapply safe_then; [by apply (rg_storeVersion req vs result s0)|]. intros [].
  rewrite <-Ev. eapply rg_bind; [apply _|apply rg_stage| |done].
  intros []. solve_safe.
Qed.

Lemma safe_Rollback ns sc v force :
  (0 < v <= maxInt64)%Z → safe (RollbackT ns sc v force).
Proof.
  intros Hv. unfold RollbackT. set (P := λ st : RS, pointers_ok st ∧ stored st ns sc v).
  set (P' := λ st, P st ∧ (ns, sc) ∈ v_schemas (rs_store st)).
  assert (HP : growing P) by apply growing_stored.
  assert (HP' : growing P') by by apply growing_schema.
  apply (safe_then _ _ _ (λ _, P')).
  { apply rg_mapT, rg_atomic; [apply growing_pointers| |].
    { intros [ver|e]; [apply HP'|apply growing_pointers]. }
    intros st Hst. unfold db. pose proof (reads_GetVersion ns sc v (rs_store st)) as Hrd.
    destruct (store_GetVersion ns sc v (rs_store st)) as [[ver|e] s'] eqn:E; cbn in *; subst s';
      destruct st as [s h]; (split; [done|]); [|done].
    split; [split; [done|]|].
    - by apply (GetVersion_stored ns sc v ver s s); [lia|].
    - by apply (GetVersion_schema ns sc v ver s s); [apply Hst|]. }
  intros ver. apply safe_calm; [done|solve_calm|intros fds].
  apply (safe_then _ _ _ (λ snap st, P' st ∧ snap_version snap = v)).
  { apply rg_done; [apply HP'|]. intros st Hst.
    destruct (Snapshot.New v fds) as [snap|e] eqn:En; [|by apply HP']. split; [done|].
    unfold Snapshot.New in En. destruct (NewFiles fds); [|done].
    destruct (foldM _ _ _); [|done]. by injection En as <-. }
  intros snap. apply rg_pure. intros <-. apply safe_calm; [done| |intros []].
  { destruct force; solve_calm. }
  apply (safe_then _ _ _ (λ _, P)).
  { apply rg_mapT. eapply rg_conseq; [by apply rg_SetStaged|done|].
    intros [[]|e] st Hx; [exact Hx|apply Hx]. }
  intros []. apply safe_calm; [done|solve_calm|intros []]. apply rg_stage.
Qed.

(** A rollback names a version in the range of the version column. *)
Definition call_ok (c : Call) : Prop :=
  match c with CallRollback _ _ v _ => (0 < v <= maxInt64)%Z | _ => True end.

Lemma safe_call r c : call_ok c → safe (callT r c).
Proof.
  intros Hc. destruct c; cbn [callT] in *; (apply safe_bind; [|intros; solve_safe]).
  - apply safe_bind; [solve_safe|intros []]. apply safe_publishInternal.
  - unfold PromoteT. apply safe_bind; [solve_safe|intros []].
    apply safe_bind; [solve_safe|intros [n|]]; [|solve_safe].
    apply safe_bind; [solve_safe|intros ids].
    apply safe_bind; [solve_safe|intros []].
    apply safe_bind; [apply calm_safe, calm_mapT, calm_Promote|intros ps].
    apply safe_bind; [apply safe_promoteNs|intros; solve_safe].
  - apply safe_bind; [apply calm_safe, calm_mapT, calm_DiscardStaging|intros []].
    apply safe_discardNs.
  - by apply safe_Rollback.
  - solve_safe.
  - solve_safe.
  - unfold RebaseT. apply safe_bind; [solve_safe|intros []].
    apply safe_bind; [solve_safe|intros [n|]]; [|solve_safe].
    apply safe_bind; [solve_safe|intros [cur|]]; [|solve_safe].
    apply safe_bind; [solve_safe|intros fs].
    apply safe_bind; [solve_safe|intros src]. apply safe_publishInternal.
Qed.

(** Calls that run at once: every access grows the state. *)
Lemma pool_grows r cs st tr ts st' :
  Forall call_ok cs → pointers_ok st → pool_exec (callT r <$> cs) st tr ts st' →
  (∀ e, e ∈ tr → grows e.2.1 e.2.2) ∧ grows st st'.
Proof.
  intros Hcs Hst Hex. assert (Hall : ∀ e, e ∈ tr → grows e.2.1 e.2.2).
  { intros [i p] Hin. eapply (pool_guarantee (λ _, grows) (λ _, grows) (λ _, pointers_ok)
      (λ _ _, pointers_ok)) in Hin; [done|done| |done].
    intros j t Hj. split; [|done]. rewrite list_lookup_fmap in Hj.
    destruct (cs !! j) as [c|] eqn:Ec; [|done]. injection Hj as <-. apply safe_call.
    by eapply Forall_lookup_1. }
  split; [done|]. by eapply (trace_last grows).
Qed.

(** C9. Whatever calls run at once, and however their accesses interleave: every current
    and every staged version, in the database and in memory, is a version that is stored,
    and no stored version and no schema is lost. The pointers are not foreign keys of the
    tables; nothing but the code sees to it. *)
Theorem pointers_stay_valid r cs st tr ts st' :
  Forall call_ok cs → pointers_ok st → pool_exec (callT r <$> cs) st tr ts st' →
  pointers_ok st' ∧ v_schemas (rs_store st) ⊆ v_schemas (rs_store st') ∧
  v_versions (rs_store st) ⊆ v_versions (rs_store st').
Proof. intros Hcs Hst [_ Hg]%(pool_grows r cs st tr ts st'); [|done..]. by destruct (Hg Hst). Qed.

(** ** Version numbers *)

(** The access that stores a version under a number that was free. *)
Definition allocates (ns sc : string) (v : Z) st st' : Prop :=
  ¬ stored st ns sc (Z.min v maxInt64) ∧ stored st' ns sc (Z.min v maxInt64).

Lemma nextVersionOf_u64 vs : (0 <= nextVersionOf vs < 2 ^ 64)%Z.
Proof. unfold nextVersionOf, u64. destruct (last vs); [apply Z.mod_pos_bound|]; lia. Qed.

Lemma storeVersion_allocates R req v result :
  PreOrder R → (0 <= v < 2 ^ 64)%Z →
  does R (allocates (pr_NamespaceID req) (pr_SchemaID req) v) (storeVersionT req v result) (λ _, True).
Proof.
  intros HR Hv. unfold storeVersionT. apply does_skip; [done|]. intros [].
  apply does_now; [done|]. apply does_wrapT, does_atomic. intros st [] st' E _.
  unfold putVersionOf, db in E. set (ver := {| sv_NamespaceID := _ |}) in E.
  destruct (store_PutVersion ver _ _ (rs_store st)) as [[[]|e] s'] eqn:Ep; [|done].
  injection E as <-. split.
  - exact (PutVersion_fresh ver _ _ _ _ Hv Ep).
  - exact (PutVersion_stored ver _ _ _ _ Hv Ep).
Qed.

Lemma publishInternal_allocates R r req force v :
  PreOrder R →
  does R (allocates (pr_NamespaceID req) (pr_SchemaID req) v) (publishInternalT r req force)
    (λ p, pub_NoChange p = false ∧ pub_Version p = v).
Proof.
  intros HR. unfold publishInternalT. case_decide; [by apply does_done|].
  do 7 (apply does_skip; [done|]; intros ?). cbv zeta.
  do 3 (apply does_skip; [done|]; intros ?). case_match; [apply does_done; naive_solver|].
  set (w := nextVersionOf _). destruct (decide (v = w)) as [->|Hne].
  - apply does_now; [done|]. apply storeVersion_allocates; [done|]. apply nextVersionOf_u64.
  - do 2 (apply does_skip; [done|]; intros ?). apply does_done. naive_solver.
Qed.

(** The schema a call may add a version to. *)
Definition call_schema (c : Call) : option (string * string) :=
  match c with
  | CallPublish req => Some (pr_NamespaceID req, pr_SchemaID req)
  | CallRebase req => Some (rb_NamespaceID req, rb_SchemaID req)
  | _ => None
  end.

Lemma call_allocates R r c ns sc v :
  PreOrder R → call_schema c = Some (ns, sc) →
  does R (allocates ns sc v) (callT r c)
    (λ x, match x with Published p => pub_NoChange p = false ∧ pub_Version p = v | _ => False end).
Proof.
  intros HR Hc. destruct c; try done; injection Hc as <- <-; cbn [callT].
  - apply does_ret; [done|]. apply does_skip; [done|]. intros _. by apply publishInternal_allocates.
  - apply does_ret; [done|]. do 2 (apply does_skip; [done|]; intros ?).
    case_match; [|by apply does_done]. apply does_skip; [done|].
    intros [cur|]; [|by apply does_done]. do 2 (apply does_skip; [done|]; intros ?).
    apply (publishInternal_allocates R r {| pr_NamespaceID := _ |} true v HR).
Qed.

(** A finished publish made the access that stored its version. *)
Lemma published_allocates r cs st tr ts st' i c ns sc p :
  Forall call_ok cs → pointers_ok st → pool_exec (callT r <$> cs) st tr ts st' →
  cs !! i = Some c → call_schema c = Some (ns, sc) →
  ts !! i = Some (Done (Ok (Published p))) → pub_NoChange p = false →
  ∃ e, (i, e) ∈ tr ∧ allocates ns sc (pub_Version p) e.1 e.2.
Proof.
  intros Hcs Hst Hex Hi Hc Hts Hp.
  destruct (pool_runs (λ _, grows) (λ _, grows) (λ _, pointers_ok) (λ _ _, pointers_ok)
    (λ _ _ _ _ _ Hg, Hg) (callT r <$> cs) st) with tr ts st' i (callT r c) as (u & Hu & Hr).
  { intros j t Hj. split; [|done]. rewrite list_lookup_fmap in Hj.
    destruct (cs !! j) as [cj|] eqn:Ec; [|done]. injection Hj as <-. apply safe_call.
    by eapply Forall_lookup_1. }
  { done. }
  { by rewrite list_lookup_fmap, Hi. }
  rewrite Hts in Hu. injection Hu as <-.
  destruct (call_allocates grows r c ns sc (pub_Version p) _ Hc _ _ _ _ Hr) as (e & He & Ha); [done|].
  exists e. by rewrite <-elem_of_own.
Qed.

(** The states before, between and after the accesses of a trace. *)
Lemma trace_grown r cs st tr ts st' :
  Forall call_ok cs → pointers_ok st → pool_exec (callT r <$> cs) st tr ts st' →
  (∀ e, e ∈ tr → grown st e.2.1 ∧ grown e.2.2 st') ∧
  (∀ pre e mid e' post, tr = pre ++ e :: mid ++ e' :: post → grown e.2.2 e'.2.1).
Proof.
  intros Hcs Hst Hex. destruct (pool_grows r cs st tr ts st' Hcs Hst Hex) as [Hgr _].
  assert (Hfirst : ∀ e, e ∈ tr → grown st e.2.1).
  { intros e He. by apply (trace_first grows _ _ _ _ _ Hex Hgr e He). }
  assert (Hafter : ∀ e, e ∈ tr → pointers_ok e.2.2).
  { intros e He. apply (Hgr e He), (Hfirst e He). }
  split; [intros e He; split; [auto|]|].
  - destruct (list_elem_of_split _ _ He) as (pre & post & ->).
    by apply (proj2 (trace_last grows _ _ _ _ _ Hex Hgr) pre e post), Hafter.
  - intros pre e mid e' post ->. eapply (trace_between grows _ _ _ _ _ Hex Hgr); [done|].
    apply Hafter. set_solver.
Qed.

Lemma allocates_within ns sc v st st1 st2 st' :
  allocates ns sc v st1 st2 → grown st st1 → grown st2 st' → allocates ns sc v st st'.
Proof.
  intros [Hn Hs] Hg1 Hg2. split; [|by apply (gr_versions _ _ Hg2)].
  intros Hin. by apply Hn, (gr_versions _ _ Hg1).
Qed.

Lemma allocates_once ns sc v st1 st2 st3 st4 :
  allocates ns sc v st1 st2 → grown st2 st3 → ¬ allocates ns sc v st3 st4.
Proof. intros [_ Hs] Hg [Hn _]. by apply Hn, (gr_versions _ _ Hg). Qed.

(** C4. No two calls get the same version: when publishes and rebases of one schema run at
    once, interleaved in any way with each other and with any other calls, those that
    succeed in making a version have made different ones, each under a number that was
    free when they started and is stored at the end. *)
Theorem versions_are_unique r cs st tr ts st' i j ci cj ns sc pi pj :
  Forall call_ok cs → pointers_ok st → pool_exec (callT r <$> cs) st tr ts st' → i ≠ j →
  cs !! i = Some ci → call_schema ci = Some (ns, sc) →
  cs !! j = Some cj → call_schema cj = Some (ns, sc) →
  ts !! i = Some (Done (Ok (Published pi))) → pub_NoChange pi = false →
  ts !! j = Some (Done (Ok (Published pj))) → pub_NoChange pj = false →
  pub_Version pi ≠ pub_Version pj ∧
  allocates ns sc (pub_Version pi) st st' ∧ allocates ns sc (pub_Version pj) st st'.
Proof.
  intros Hcs Hst Hex Hij Hi Hci Hj Hcj Hti Hpi Htj Hpj.
  destruct (published_allocates r cs st tr ts st' i ci ns sc pi) as (ei & Hei & Ai); [done..|].
  destruct (published_allocates r cs st tr ts st' j cj ns sc pj) as (ej & Hej & Aj); [done..|].
  destruct (trace_grown r cs st tr ts st' Hcs Hst Hex) as [Hends Hmid].
  split; [|split; [eapply allocates_within; [exact Ai|..]|eapply allocates_within; [exact Aj|..]];
             by (apply (Hends _ Hei) || apply (Hends _ Hej))].
  intros E. rewrite E in Ai.
  destruct (elem_of_two (i, ei) (j, ej) tr) as (pre & mid & post & [->| ->]); [done|done|congruence|..].
  - exact (allocates_once _ _ _ _ _ _ _ Ai (Hmid _ _ _ _ _ eq_refl) Aj).
  - exact (allocates_once _ _ _ _ _ _ _ Aj (Hmid _ _ _ _ _ eq_refl) Ai).
Qed.

End Interleaved.
