(* ===== verification/RegistryIsolation.v ===== *)
(** * Calls on different namespaces

    Database and memory agree when the calls that run at once move the versions of
    different namespaces, however their accesses interleave: each call sees its namespace
    as if it ran alone. Within one namespace this fails; see [InterleavedExamples]. *)

From S2P Require Import Prelude GoStrings Descriptor Protobuf Snapshot Compat Conflict.
From S2P Require Import Compiler Namespace NamespaceThms Store Registry RegistryThms RegistryCoherence.
From S2P Require Import Tasks RegistryTasks RegistryCalm RegistryInterleaved.
From stdpp Require Import prelude gmap strings list.

Open Scope string_scope.
Open Scope list_scope.

Section Isolation.
Context `{Toolchain, ProtoTypes, ProtoNames, GoRange, CompilerVersion} {S : Type}
  `{StoreLaws S}.
#[local] Notation RS := (RState (S := S)).
#[local] Notation T := (Task RS).
Implicit Types (st : RS) (h : gmap string Namespace).

(** ** What a call does to other namespaces *)

Definition ok st : Prop := v_ok (rs_store st).

Record kept st st' : Prop := {
  kp_ok : ok st';
  kp_schemas : v_schemas (rs_store st) ⊆ v_schemas (rs_store st');
  kp_versions : v_versions (rs_store st) ⊆ v_versions (rs_store st') }.

Record untouched (ns : string) st st' : Prop := {
  ut_current sc : v_current (rs_store st') !! (ns, sc) = v_current (rs_store st) !! (ns, sc);
  ut_staged sc : v_staged (rs_store st') !! (ns, sc) = v_staged (rs_store st) !! (ns, sc);
  ut_cur sc : cur_of (rs_mem st') ns sc = cur_of (rs_mem st) ns sc;
  ut_stg sc : stg_of (rs_mem st') ns sc = stg_of (rs_mem st) ns sc;
  ut_slot sc : has_slot (rs_mem st) ns sc → has_slot (rs_mem st') ns sc;
  ut_dom : is_Some (rs_mem st !! ns) → is_Some (rs_mem st' !! ns) }.

#[global] Instance kept_trans : Transitive kept.
Proof. intros st1 st2 st3 [] []. split; [done|..]; by etrans. Qed.

#[global] Instance untouched_preorder ns : PreOrder (untouched ns).
Proof.
  split; [by split|]. intros st1 st2 st3 [] []. split; intros; try (etrans; eauto); eauto.
Qed.

(** The steps of a call that moves versions of [o], and of the calls beside it. *)
Definition touches (o : option string) st st' : Prop :=
  ok st → kept st st' ∧ ∀ ns, o ≠ Some ns → untouched ns st st'.
Definition others (o : option string) st st' : Prop :=
  ok st → kept st st' ∧ ∀ ns, o = Some ns → untouched ns st st'.

#[global] Instance touches_refl o : Reflexive (touches o).
Proof. intros st Hst. by split. Qed.

#[global] Instance others_preorder o : PreOrder (others o).
Proof.
  split; [intros st Hst; by split|]. intros st1 st2 st3 H12 H23 Hst.
  destruct (H12 Hst) as [Hk Hu]. destruct (H23 (kp_ok _ _ Hk)) as [Hk' Hu'].
  split; [by etrans|]. intros ns Hn. etrans; eauto.
Qed.

Lemma touches_others o o' st st' :
  (∀ ns, o = Some ns → o' ≠ Some ns) → touches o' st st' → others o st st'.
Proof. intros Ho Ht Hst. destruct (Ht Hst) as [Hk Hu]. split; [done|]. intros ns Hn. auto. Qed.

#[global] Instance touches_allows o : AllowsCalm (others o) (touches o) ok.
Proof.
  assert (Hall : ∀ A (m : M RS A),
    (∀ st, ok st → kept st (m st).2 ∧ ∀ ns, untouched ns st (m st).2) →
    calm (others o) (touches o) ok (atomic m)).
  { intros A m Hm. apply calm_atomic. intros st Hst. destruct (Hm st Hst). split; intros _; by split. }
  split.
  - intros A m Hm. apply Hall. intros st Hst.
    destruct (Hm (rs_store st) Hst) as (Hok & Ec & Eg & Hs & Hv). unfold db.
    destruct (m (rs_store st)) as [x s']; cbn in *. split; [by split|].
    intros ns. split; cbn; congruence || done.
  - intros f Hf. apply Hall. intros st Hst. destruct (Hf (rs_mem st)). split; [by split|].
    intros ns. split; cbn; auto.
Qed.

(** ** One namespace at a time *)

(** The versions of a schema, in the database and in memory. *)
Record View := { d_cur : option Z; d_stg : option Z; m_cur : option Z; m_stg : option Z }.

Definition view st (ns sc : string) : View := {|
  d_cur := v_current (rs_store st) !! (ns, sc);
  d_stg := v_staged (rs_store st) !! (ns, sc);
  m_cur := snap_version <$> cur_of (rs_mem st) ns sc;
  m_stg := snap_version <$> stg_of (rs_mem st) ns sc |}.

Definition each (φ : string → View → Prop) (ns : string) st : Prop :=
  ∀ sc, φ sc (view st ns sc).

(** The stages of the calls: agreement; the database one staging ahead; the database
    promoted, and one staged snapshot taken out but not yet current; the database's
    staging discarded. [remaining] bounds the schemas with a staged snapshot in memory. *)
Definition agreeing (_ : string) (v : View) : Prop := m_cur v = d_cur v ∧ m_stg v = d_stg v.
Definition ahead (sc0 : string) (w : Z) (sc : string) (v : View) : Prop :=
  m_cur v = d_cur v ∧ d_stg v = if decide (sc = sc0) then Some w else m_stg v.
Definition promoted (_ : string) (v : View) : Prop :=
  d_stg v = None ∧ d_cur v = match m_stg v with Some w => Some w | None => m_cur v end.
Definition pending (sc0 : string) (w : Z) (sc : string) (v : View) : Prop :=
  d_stg v = None ∧
  if decide (sc = sc0) then d_cur v = Some w ∧ m_stg v = None
  else d_cur v = match m_stg v with Some w => Some w | None => m_cur v end.
Definition discarded (_ : string) (v : View) : Prop := d_stg v = None ∧ m_cur v = d_cur v.
Definition remaining (rem : list string) (sc : string) (v : View) : Prop := is_Some (m_stg v) → sc ∈ rem.

Section one.
Context (ns : string).
#[local] Notation RG := (rg (others (Some ns)) (touches (Some ns))).

(** What the call knows of its namespace stays true beside other calls. *)
Definition local (P : RS → Prop) : Prop :=
  ∀ st st', P st → kept st st' → untouched ns st st' → P st'.
Definition with_ok (P : RS → Prop) st : Prop := ok st ∧ P st.
#[local] Notation E := (with_ok (each agreeing ns)).

Lemma local_growing P : local P → growing (others (Some ns)) ok (with_ok P).
Proof.
  intros HP. split; [by intros st []|]. intros st st' [Hok Hst] Ho. destruct (Ho Hok) as [Hk Hu].
  split; [apply Hk|]. eapply HP; eauto.
Qed.

Lemma local_and P Q : local P → local Q → local (λ st, P st ∧ Q st).
Proof. intros HP HQ st st' []. split; eauto. Qed.

Lemma local_pure (φ : Prop) : local (λ _, φ).
Proof. by intros ???. Qed.

Lemma view_untouched st st' sc : untouched ns st st' → view st' ns sc = view st ns sc.
Proof. intros [Hc Hg Hc' Hg' _ _]. unfold view. by rewrite Hc, Hg, Hc', Hg'. Qed.

Lemma local_each φ : local (each φ ns).
Proof. intros st st' Hst _ Hu sc. rewrite (view_untouched st) by done. apply Hst. Qed.

Lemma local_dom : local (λ st, is_Some (rs_mem st !! ns)).
Proof. intros st st' Hst _ Hu. by apply (ut_dom _ _ _ Hu). Qed.

Lemma local_slot sc : local (λ st, has_slot (rs_mem st) ns sc).
Proof. intros st st' Hst _ Hu. by apply (ut_slot _ _ _ Hu). Qed.

Lemma local_schema sc : local (λ st, (ns, sc) ∈ v_schemas (rs_store st)).
Proof. intros st st' Hst Hk _. by apply (kp_schemas _ _ Hk). Qed.

Lemma local_versions sc (vs : list Z) : local (λ st, ∀ v, v ∈ vs → stored st ns sc v).
Proof. intros st st' Hst Hk _ v Hv. by apply (kp_versions _ _ Hk), Hst. Qed.

(** An access to the namespace. *)
Lemma rg_step {A} P (m : M RS A) (Q : res A → RS → Prop) :
  local P → (∀ x, local (Q x)) →
  (∀ st, ok st → P st →
     touches (Some ns) st (m st).2 ∧ Q (m st).1 (m st).2) →
  RG (with_ok P) (atomic m) (λ x, with_ok (Q x)).
Proof.
  intros HP HQ Hm. apply rg_atomic; [by apply local_growing|intros x; by apply local_growing|].
  intros st [Hok Hst]. specialize (Hm st Hok Hst). destruct (m st) as [x st'].
  destruct Hm as [Ht Hq]. split; [done|]. split; [|done]. by apply (Ht Hok).
Qed.

(** The same with a postcondition on success; a failure leaves agreement. *)
Lemma rg_step_ok {A} P (m : M RS A) (Q : A → RS → Prop) :
  local P → (∀ a, local (Q a)) →
  (∀ st, ok st → P st →
     touches (Some ns) st (m st).2 ∧
     match (m st).1 with Ok a => Q a (m st).2 | Err _ => each agreeing ns (m st).2 end) →
  RG (with_ok P) (atomic m) (ensures (λ a, with_ok (Q a)) E).
Proof.
  intros HP HQ Hm. eapply rg_conseq; [apply (rg_step P m (λ x, match x with
    | Ok a => Q a | Err _ => each agreeing ns end) HP)| done|].
  - intros [a|e]; [apply HQ|apply local_each].
  - intros st Hok Hst. specialize (Hm st Hok Hst) as [Ht Hq]. split; [done|].
    by destruct (m st).1.
  - by intros [a|e].
Qed.

(** ** Accesses to the database *)

Lemma touches_db st s' :
  v_ok s' → v_schemas (rs_store st) ⊆ v_schemas s' → v_versions (rs_store st) ⊆ v_versions s' →
  (∀ ns' sc, ns' ≠ ns → v_current s' !! (ns', sc) = v_current (rs_store st) !! (ns', sc) ∧
                        v_staged s' !! (ns', sc) = v_staged (rs_store st) !! (ns', sc)) →
  touches (Some ns) st {| rs_store := s'; rs_mem := rs_mem st |}.
Proof.
  intros Hok Hs Hv Hne _. split; [done|]. intros ns' Hn.
  split; cbn; try done; intros sc; apply Hne; congruence.
Qed.

(** Staging, with something known of the memory. *)
Lemma rg_stage_db sc v (F : gmap string Namespace → Prop) :
  local (λ st, F (rs_mem st)) → (0 < v <= maxInt64)%Z →
  RG (with_ok (λ st, (each agreeing ns st ∧ (ns, sc) ∈ v_schemas (rs_store st)) ∧ F (rs_mem st)))
    (dbT (store_SetStaged ns sc v))
    (ensures (λ _, with_ok (λ st, each (ahead sc v) ns st ∧ F (rs_mem st))) E).
Proof.
  intros HF Hv. apply rg_step_ok.
  { apply local_and; [apply local_and; [apply local_each|apply local_schema]|done]. }
  { intros _. apply local_and; [apply local_each|done]. }
  intros st Hok [[Ha Hsc] HFst]. unfold db.
  destruct (store_SetStaged ns sc v (rs_store st)) as [[[]|e] s'] eqn:Es; cbn [fst snd].
  - destruct (SetStaged_Ok _ _ _ _ _ Es Hsc Hv Hok) as (Hok' & Eg & Ec & Esc & Ev). split.
    + apply touches_db; [done|by rewrite Esc|by rewrite Ev|]. intros ns' sc' Hne. rewrite Ec, Eg.
      split; [done|]. apply lookup_insert_ne. congruence.
    + split; [|done]. intros sc'. specialize (Ha sc') as [Hc Hg]. unfold ahead, view in *.
      cbn in *. rewrite Ec, Eg. split; [done|]. rewrite lookup_insert.
      case_decide as En; case_decide as En'; try congruence.
  - apply SetStaged_Err in Es as ->. destruct st. by split.
Qed.

Lemma rg_list_db sc c :
  RG (with_ok (λ st, each agreeing ns st ∧ is_Some (rs_mem st !! ns)))
    (wrapT c (dbT (store_ListVersions ns sc)))
    (ensures (λ vs, with_ok (λ st,
       ((each agreeing ns st ∧ is_Some (rs_mem st !! ns)) ∧ ∀ v, v ∈ vs → stored st ns sc v) ∧
       ∃ s0, v_ok s0 ∧ store_ListVersions ns sc s0 = (Ok vs, s0))) E).
Proof.
  apply rg_wrap, rg_step_ok; [apply local_and; [apply local_each|apply local_dom]| |].
  { intros vs. apply local_and; [|apply local_pure]. apply local_and; [|apply local_versions].
    apply local_and; [apply local_each|apply local_dom]. }
  intros st Hok [Ha Hd]. unfold db. pose proof (reads_ListVersions ns sc (rs_store st)) as Hrd.
  destruct (store_ListVersions ns sc (rs_store st)) as [[vs|e] s'] eqn:El; cbn in *; subst s';
    destruct st as [s h]; split; try done. split; [split; [done|]|by exists s].
  intros v Hv. by apply (ListVersions_stored _ _ _ _ _ _ Hok El).
Qed.

Lemma rg_put_db req vs result s0 c :
  ns = pr_NamespaceID req → v_ok s0 →
  store_ListVersions ns (pr_SchemaID req) s0 = (Ok vs, s0) →
  RG (with_ok (λ st, (each agreeing ns st ∧ is_Some (rs_mem st !! ns)) ∧
                     ∀ v, v ∈ vs → stored st ns (pr_SchemaID req) v))
    (wrapT c (dbT (putVersionOf req (nextVersionOf vs) result)))
    (ensures (λ _, with_ok (λ st,
       ((each agreeing ns st ∧ (ns, pr_SchemaID req) ∈ v_schemas (rs_store st)) ∧
        is_Some (rs_mem st !! ns)) ∧ (0 < nextVersionOf vs <= maxInt64)%Z)) E).
Proof.
  intros Ens Hok0 Hlist. apply rg_wrap, rg_step_ok.
  { apply local_and; [|apply local_versions]. apply local_and; [apply local_each|apply local_dom]. }
  { intros _. apply local_and; [|apply local_pure]. apply local_and; [|apply local_dom].
    apply local_and; [apply local_each|apply local_schema]. }
  intros st Hok [[Ha Hd] Hvs]. unfold putVersionOf. set (ver := {| sv_NamespaceID := _ |}).
  set (fs := (λ f : FileResult, _) <$> _). set (ds := (λ d : Dep, _) <$> _).
  destruct (keeps_PutVersion ver fs ds (rs_store st) Hok) as (Hok' & Ec & Eg & Hs & Hv).
  unfold db. destruct (store_PutVersion ver fs ds (rs_store st)) as [[[]|e] s'] eqn:Ep;
    cbn [fst snd] in *.
  all: assert (Ha' : each agreeing ns {| rs_store := s'; rs_mem := rs_mem st |}) by
    (intros sc; specialize (Ha sc); unfold view in *; cbn in *; by rewrite Ec, Eg).
  all: split; [apply touches_db; [done..|]; intros; by rewrite Ec, Eg|].
  2: done.
  split; [split; [split; [done|]|done]|].
  - rewrite Ens. exact (PutVersion_schema ver _ _ _ _ Ep).
  - by apply (nextVersion_range ns (pr_SchemaID req) vs s0 vs ver fs ds (rs_store st) s').
Qed.


Lemma rg_promote_db c :
  RG E (wrapT c (dbT (store_Promote ns))) (ensures (λ _, with_ok (each promoted ns)) E).
Proof.
  apply rg_wrap, rg_step_ok; [apply local_each|intros _; apply local_each|]. intros st Hok Ha.
  unfold db. pose proof (Promote_versions ns (rs_store st)) as Ev.
  destruct (store_Promote ns (rs_store st)) as [[ps|e] s'] eqn:Es; cbn [fst snd] in *.
  - destruct (Promote_Ok _ _ _ _ Hok Es) as (Hok' & Ec & Eg & Esc & _). split.
    + apply touches_db; [done|by rewrite Esc|by rewrite Ev|]. intros ns' sc Hne.
      by rewrite Ec, Eg, lookup_promoted, lookup_cleared, !decide_False by congruence.
    + intros sc. specialize (Ha sc) as [Hc Hg]. unfold promoted, view in *. cbn in *.
      by rewrite Ec, Eg, lookup_promoted, lookup_cleared, !decide_True, Hc, Hg by done.
  - apply Promote_Err in Es as ->. by destruct st.
Qed.

Lemma rg_discard_db c :
  RG E (wrapT c (dbT (store_DiscardStaging ns))) (ensures (λ _, with_ok (each discarded ns)) E).
Proof.
  apply rg_wrap, rg_step_ok; [apply local_each|intros _; apply local_each|]. intros st Hok Ha.
  unfold db. pose proof (DiscardStaging_versions ns (rs_store st)) as Ev.
  destruct (store_DiscardStaging ns (rs_store st)) as [[[]|e] s'] eqn:Es; cbn [fst snd] in *.
  - destruct (DiscardStaging_Ok _ _ _ Hok Es) as (Hok' & Eg & Ec & Esc). split.
    + apply touches_db; [done|by rewrite Esc|by rewrite Ev|]. intros ns' sc Hne.
      by rewrite Ec, Eg, lookup_cleared, decide_False by congruence.
    + intros sc. specialize (Ha sc) as [Hc Hg]. unfold discarded, view in *. cbn in *.
      by rewrite Ec, Eg, lookup_cleared, decide_True by done.
  - apply DiscardStaging_Err in Es as ->. by destruct st.
Qed.

(** ** Accesses to the memory *)

Lemma touches_mem st h' :
  (∀ ns', ns' ≠ ns → h' !! ns' = rs_mem st !! ns') →
  touches (Some ns) st {| rs_store := rs_store st; rs_mem := h' |}.
Proof.
  intros Hh Hok. split; [by split|]. intros ns' Hn. assert (Hne : ns' ≠ ns) by congruence.
  specialize (Hh ns' Hne). by split; intros; unfold cur_of, stg_of, has_slot in *; cbn; rewrite ?Hh.
Qed.

Lemma rg_stage_mem sc snap :
  RG (with_ok (λ st, each (ahead sc (snap_version snap)) ns st ∧ is_Some (rs_mem st !! ns)))
    (atomic (on_ns ns (SetStaged sc (Some snap)))) (ensures (λ _, E) E).
Proof.
  apply rg_step_ok; [apply local_and; [apply local_each|apply local_dom]|intros _; apply local_each|].
  intros st Hok [Ha Hd]. cbn. split.
  - apply touches_mem. intros ns' Hne. by apply lookup_alter_ne.
  - intros sc'. specialize (Ha sc') as [Hc Hg]. unfold agreeing, ahead, view in *. cbn in *.
    rewrite cur_of_alter_SetStaged, stg_of_alter_SetStaged by done. split; [done|]. rewrite Hg.
    destruct (decide (sc' = sc)) as [->|Hne]; [by rewrite decide_True|].
    rewrite decide_False by naive_solver. done.
Qed.

(** One slot of the namespace changes. *)
Lemma slot_alter h f sc sc' :
  let h' := alter (λ n, with_schemas n (alter f sc (ns_schemas n))) ns h in
  cur_of h' ns sc' = (h !! ns ≫= λ n, ns_schemas n !! sc' ≫= λ slot,
                        slot_current (if decide (sc' = sc) then f slot else slot)) ∧
  stg_of h' ns sc' = (h !! ns ≫= λ n, ns_schemas n !! sc' ≫= λ slot,
                        slot_staged (if decide (sc' = sc) then f slot else slot)).
Proof.
  cbn. unfold cur_of, stg_of. rewrite lookup_alter_eq. destruct (h !! ns) as [n|]; [|done]. cbn.
  unfold Current, Staged, getSlot. cbn. rewrite lookup_alter.
  destruct (decide (sc' = sc)) as [->|Hne].
  - rewrite decide_True by done. by destruct (ns_schemas n !! sc).
  - rewrite decide_False by congruence. by destruct (ns_schemas n !! sc').
Qed.

Lemma cur_of_slot h sc : cur_of h ns sc = (h !! ns ≫= λ n, ns_schemas n !! sc ≫= slot_current).
Proof. unfold cur_of, Current, getSlot. destruct (h !! ns) as [n|]; [|done]. cbn. by destruct (ns_schemas n !! sc). Qed.
Lemma stg_of_slot h sc : stg_of h ns sc = (h !! ns ≫= λ n, ns_schemas n !! sc ≫= slot_staged).
Proof. unfold stg_of, Staged, getSlot. destruct (h !! ns) as [n|]; [|done]. cbn. by destruct (ns_schemas n !! sc). Qed.

Lemma view_swap st sc sc' :
  view (swapStaged ns sc st).2 ns sc' =
    if decide (sc' = sc) then {| d_cur := d_cur (view st ns sc'); d_stg := d_stg (view st ns sc');
                                 m_cur := m_cur (view st ns sc'); m_stg := None |}
    else view st ns sc'.
Proof.
  unfold view, swapStaged. cbn [snd rs_mem rs_store d_cur d_stg m_cur].
  edestruct slot_alter as [Hc Hg]. rewrite Hc, Hg, cur_of_slot, stg_of_slot.
  case_decide; [|done]. f_equal; destruct (rs_mem st !! ns) as [n|]; try done; cbn;
    by destruct (ns_schemas n !! sc').
Qed.

Lemma view_store st snap sc sc' :
  has_slot (rs_mem st) ns sc →
  view (storeCurrent ns sc snap st).2 ns sc' =
    if decide (sc' = sc) then {| d_cur := d_cur (view st ns sc'); d_stg := d_stg (view st ns sc');
                                 m_cur := Some (snap_version snap); m_stg := m_stg (view st ns sc') |}
    else view st ns sc'.
Proof.
  intros [slot Hs]. unfold view, storeCurrent, on_ns, set_mem, modify.
  cbn [snd rs_mem rs_store d_cur d_stg m_stg].
  edestruct slot_alter as [Hc Hg]. rewrite Hc, Hg, cur_of_slot, stg_of_slot.
  case_decide; [|done]. subst sc'. apply bind_Some in Hs as (n & Hn & Hs). rewrite Hn. cbn.
  by rewrite Hs.
Qed.

Lemma touches_slot st f sc :
  touches (Some ns) st {| rs_store := rs_store st;
    rs_mem := alter (λ n, with_schemas n (alter f sc (ns_schemas n))) ns (rs_mem st) |}.
Proof. apply touches_mem. intros ns' Hne. by apply lookup_alter_ne. Qed.

Lemma has_slot_swap st sc snap :
  stg_of (rs_mem st) ns sc = Some snap → has_slot (rs_mem (swapStaged ns sc st).2) ns sc.
Proof.
  rewrite stg_of_slot. intros (n & Hn & (slot & Hs & _)%bind_Some)%bind_Some. unfold has_slot. cbn.
  rewrite lookup_alter_eq, Hn. cbn. rewrite lookup_alter_eq, Hs. by eexists.
Qed.

Lemma remaining_swap st sc ids :
  each (remaining (sc :: ids)) ns st → each (remaining ids) ns (swapStaged ns sc st).2.
Proof.
  intros Hl sc'. rewrite view_swap. specialize (Hl sc'). unfold remaining in *.
  case_decide; [intros Hs; by apply is_Some_None in Hs|]. intros Hs.
  by apply Hl, elem_of_cons in Hs as [->|].
Qed.

Lemma rg_swap_promoted sc ids :
  RG (with_ok (λ st, each promoted ns st ∧ each (remaining (sc :: ids)) ns st))
    (atomic (swapStaged ns sc))
    (ensures (λ o, with_ok (match o with
       | None => λ st, each promoted ns st ∧ each (remaining ids) ns st
       | Some snap => λ st, (each (pending sc (snap_version snap)) ns st ∧ each (remaining ids) ns st) ∧
                            has_slot (rs_mem st) ns sc
       end)) E).
Proof.
  apply rg_step_ok; [apply local_and; apply local_each| |].
  { intros [snap|]; repeat apply local_and; apply local_each || apply local_slot. }
  intros st Hok [Hp Hl]. split; [apply touches_slot|].
  change (swapStaged ns sc st).1 with (Ok (stg_of (rs_mem st) ns sc)).
  assert (Hx : (snap_version <$> stg_of (rs_mem st) ns sc) = m_stg (view st ns sc)) by done.
  destruct (stg_of (rs_mem st) ns sc) as [snap|] eqn:Eg; cbn [fmap option_fmap option_map] in Hx.
  - split; [split; [|by apply remaining_swap]|by eapply has_slot_swap]. intros sc'.
    rewrite view_swap. specialize (Hp sc') as [Hd Hc]. split; [by case_decide|].
    case_decide; [subst sc'|done]. rewrite <-Hx in Hc. done.
  - split; [|by apply remaining_swap]. intros sc'. rewrite view_swap.
    specialize (Hp sc') as [Hd Hc]. case_decide; [subst sc'|done]. rewrite <-Hx in Hc. done.
Qed.

Lemma rg_store_promoted sc snap ids :
  RG (with_ok (λ st, (each (pending sc (snap_version snap)) ns st ∧ each (remaining ids) ns st) ∧
                     has_slot (rs_mem st) ns sc))
    (atomic (storeCurrent ns sc snap))
    (ensures (λ _, with_ok (λ st, each promoted ns st ∧ each (remaining ids) ns st)) E).
Proof.
  apply rg_step_ok; [repeat apply local_and; apply local_each || apply local_slot| |].
  { intros _. apply local_and; apply local_each. }
  intros st Hok [[Hp Hl] Hs]. split; [apply touches_slot|].
  split; intros sc'; rewrite view_store by done.
  - specialize (Hp sc') as [Hd Hc]. case_decide; [|done]. split; [done|]. by destruct Hc as [-> ->].
  - specialize (Hl sc'). by case_decide.
Qed.

Lemma remaining_nil st sc : each (remaining []) ns st → m_stg (view st ns sc) = None.
Proof.
  intros Hl. specialize (Hl sc). unfold remaining in Hl. destruct (m_stg _) as [w|]; [|done].
  assert (Hin : sc ∈ []) by by apply Hl. by apply elem_of_nil in Hin.
Qed.

(** The loops end with nothing staged in memory. *)
Lemma rg_promote_loop ids :
  RG (with_ok (λ st, each promoted ns st ∧ each (remaining ids) ns st))
    (forT_ ids (λ sc, staged ← atomic (swapStaged ns sc);
                      match staged with
                      | None => mret tt
                      | Some staged => atomic (storeCurrent ns sc staged)
                      end)) (ensures (λ _, E) E).
Proof.
  induction ids as [|sc ids IH]; cbn [forT_].
  - apply rg_return; [apply local_growing, local_and; apply local_each|].
    intros st [Hok [Hp Hl]]. split; [done|]. intros sc. specialize (Hp sc) as [Hd Hc].
    pose proof (remaining_nil st sc Hl) as Hm. rewrite Hm in Hc. split; congruence.
  - eapply rg_then; [apply _| |intros u; exact IH].
    eapply rg_then; [apply _|apply rg_swap_promoted|].
    intros [snap|]; [apply rg_store_promoted|].
    apply rg_return; [apply local_growing, local_and; apply local_each|done].
Qed.

Lemma rg_discard_loop ids :
  RG (with_ok (λ st, each discarded ns st ∧ each (remaining ids) ns st))
    (forT_ ids (λ sc, atomic (clearStaged ns sc))) (ensures (λ _, E) E).
Proof.
  induction ids as [|sc ids IH]; cbn [forT_].
  - apply rg_return; [apply local_growing, local_and; apply local_each|].
    intros st [Hok [Hp Hl]]. split; [done|]. intros sc. specialize (Hp sc) as [Hd Hc].
    pose proof (remaining_nil st sc Hl) as Hm. split; congruence.
  - eapply rg_then; [apply _| |intros u; exact IH].
    apply rg_step_ok; [apply local_and; apply local_each|intros _; apply local_and; apply local_each|].
    intros st Hok [Hp Hl]. split; [apply touches_slot|]. cbn [fst clearStaged].
    change (clearStaged ns sc st).2 with (swapStaged ns sc st).2.
    split; [|by apply remaining_swap]. intros sc'. rewrite view_swap. specialize (Hp sc').
    by case_decide.
Qed.

(** A walk over the namespace meets every staged snapshot. *)
Lemma rg_schemaIDs φ :
  RG (with_ok (each φ ns)) (schemaIDsT ns)
    (ensures (λ ids, with_ok (λ st, each φ ns st ∧ each (remaining ids) ns st)) E).
Proof.
  apply rg_step_ok; [apply local_each|intros ids; apply local_and; apply local_each|].
  intros st Hok Hp. cbn. split; [done|]. split; [done|]. intros sc [w Hw]. unfold view, Get in *.
  cbn in Hw. unfold stg_of in Hw. destruct (rs_mem st !! ns) as [n|] eqn:En; [|done]. cbn in *.
  destruct (Staged n sc) as [snap|] eqn:Es; [|done]. by eapply elem_of_SchemaIDs.
Qed.

End one.

(** ** The calls *)

#[local] Notation RG ns := (rg (others (Some ns)) (touches (Some ns))).
#[local] Notation E ns := (with_ok (each agreeing ns)).
#[local] Hint Resolve local_growing local_and local_each local_dom local_schema local_versions : local.

(** A part that moves no version. *)
Lemma iso_calm {A B} ns P (t : T A) (f : A → T B) :
  local ns P → (∀ st, P st → each agreeing ns st) → calm (others (Some ns)) (touches (Some ns)) ok t →
  (∀ a, RG ns (with_ok P) (f a) (ensures (λ _, E ns) (E ns))) →
  RG ns (with_ok P) (t ≫= f) (ensures (λ _, E ns) (E ns)).
Proof.
  intros HP He Ht Hf. eapply calm_then; [apply _|by apply local_growing| |done|done].
  intros st [Hok Hst]. split; auto.
Qed.

Lemma iso_done {A} ns P (x : res A) :
  local ns P → (∀ st, P st → each agreeing ns st) →
  RG ns (with_ok P) (Done x) (ensures (λ _, E ns) (E ns)).
Proof.
  intros HP He. apply rg_return; [by apply local_growing|]. intros st [Hok Hst].
  destruct x; split; auto.
Qed.

Lemma iso_end {A} ns (x : res A) : RG ns (E ns) (Done x) (ensures (λ _, E ns) (E ns)).
Proof. apply iso_done; [apply local_each|done]. Qed.

Ltac calmly := apply iso_calm; [eauto with local|by intros ? ?; naive_solver|solve_calm|].

(** Getting the namespace object. *)
Lemma rg_getOrCreate ns φ :
  RG ns (with_ok (each φ ns)) (atomic (getOrCreate ns))
    (ensures (λ _, with_ok (λ st, each φ ns st ∧ is_Some (rs_mem st !! ns))) (E ns)).
Proof.
  apply rg_step_ok; [eauto with local|intros _; eauto with local|]. intros st Hok Hst. cbn.
  destruct (mem_same_GetOrCreate (rs_mem st) ns) as [Hc Hg _ _]. split; [|split].
  - apply touches_mem. intros ns' Hne. unfold GetOrCreate.
    destruct (rs_mem st !! ns); [done|]. by apply lookup_insert_ne.
  - intros sc. specialize (Hst sc). unfold view in *. cbn in *. by rewrite Hc, Hg.
  - apply GetOrCreate_is_Some.
Qed.

Lemma iso_pure {A} ns (φ : Prop) P (t : T A) Q :
  (φ → RG ns (with_ok P) t Q) → RG ns (with_ok (λ st, P st ∧ φ)) t Q.
Proof. intros Ht st l st' u [Hok [Hst Hφ]] Hr. by apply (Ht Hφ st l st' u). Qed.

Lemma iso_storeVersion req vs result s0 :
  let ns := pr_NamespaceID req in
  v_ok s0 → store_ListVersions ns (pr_SchemaID req) s0 = (Ok vs, s0) →
  RG ns (with_ok (λ st, (each agreeing ns st ∧ is_Some (rs_mem st !! ns)) ∧
                        ∀ v, v ∈ vs → stored st ns (pr_SchemaID req) v))
    (storeVersionT req (nextVersionOf vs) result)
    (ensures (λ _, with_ok (λ st, each (ahead (pr_SchemaID req) (nextVersionOf vs)) ns st ∧
                                  is_Some (rs_mem st !! ns))) (E ns)).
Proof.
  intros ns Hok0 Hlist. unfold storeVersionT.
  eapply calm_then; [apply _|eauto 6 with local|by intros st [? [[] ?]]|
    apply (calm_storeBlobs (others (Some ns)) (touches (Some ns)) ok req)|intros []].
  eapply rg_then; [apply _|by apply (rg_put_db ns req vs result s0)|]. intros [].
  apply iso_pure. intros Hr. apply rg_wrap.
  apply (rg_stage_db ns (pr_SchemaID req) (nextVersionOf vs) (λ h, is_Some (h !! ns)));
    [apply local_dom|done].
Qed.

Lemma iso_publishInternal r req force :
  RG (pr_NamespaceID req) (E (pr_NamespaceID req)) (publishInternalT r req force)
    (ensures (λ _, E (pr_NamespaceID req)) (E (pr_NamespaceID req))).
Proof.
  set (ns := pr_NamespaceID req). unfold publishInternalT. fold ns.
  case_decide; [apply iso_end|].
  calmly. intros []. calmly. intros [].
  eapply rg_then; [apply _|apply rg_getOrCreate|]. intros [].
  calmly. intros deps. calmly. intros tiers. calmly. intros builtins.
  eapply rg_then; [apply _|apply rg_list_db|]. intros vs. cbv zeta.
  apply iso_pure. intros (s0 & Hok0 & Hlist). set (P := λ st : RS, _ ∧ _).
  assert (HP : local ns P) by (unfold P; eauto 6 with local).
  assert (HE : ∀ st, P st → each agreeing ns st) by by intros st [[] _].
  apply (rg_then _ _ _ _ _ (λ result, with_ok (λ st, P st ∧
    snap_version (cr_Snapshot result) = nextVersionOf vs))).
  { apply rg_return; [by apply local_growing|]. intros st [Hok Hst].
    destruct (Compile _ _ _ _ _ _) as [result|] eqn:Ec; [|by split; [|apply HE]].
    split; [done|]. split; [done|]. by eapply Compile_version. }
  intros result. apply iso_pure. intros Ev.
  apply iso_calm; [done|done|solve_calm|intros []].
  apply iso_calm; [done|done|solve_calm|intros [|]]; [by apply iso_done|].
  eapply rg_then; [apply _|by apply (iso_storeVersion req vs result s0)|]. intros [].
  eapply rg_then; [apply _|rewrite <-Ev; apply rg_stage_mem|]. intros u.
  apply iso_end.
Qed.

Lemma iso_Promote r ns : RG ns (E ns) (PromoteT r ns) (ensures (λ _, E ns) (E ns)).
Proof.
  unfold PromoteT. calmly. intros []. calmly. intros [n|]; [|apply iso_end].
  apply iso_calm; [eauto with local|done|apply calm_load; apply _|intros ids].
  calmly. intros []. eapply rg_then; [apply _|apply rg_promote_db|]. intros ps.
  eapply rg_then; [apply _| |intros u; apply iso_end].
  eapply rg_then; [apply _|apply rg_schemaIDs|]. intros ids'. apply rg_promote_loop.
Qed.

Lemma iso_Discard ns : RG ns (E ns) (DiscardStagingT ns) (ensures (λ _, E ns) (E ns)).
Proof.
  unfold DiscardStagingT. eapply rg_then; [apply _|apply rg_discard_db|]. intros [].
  eapply rg_then; [apply _|apply rg_schemaIDs|]. intros ids. apply rg_discard_loop.
Qed.

Lemma iso_Rollback ns sc v force :
  (0 < v <= maxInt64)%Z → RG ns (E ns) (RollbackT ns sc v force) (ensures (λ _, E ns) (E ns)).
Proof.
  intros Hv. unfold RollbackT. set (P := λ st : RS, each agreeing ns st ∧ (ns, sc) ∈ v_schemas (rs_store st)).
  assert (HP : local ns P) by (unfold P; eauto with local).
  assert (HE : ∀ st, P st → each agreeing ns st) by by intros st [].
  apply (rg_then _ _ _ _ _ (λ _, with_ok P)).
  { apply rg_wrap, rg_step_ok; [apply local_each|done|]. intros st Hok Ha. unfold db.
    pose proof (reads_GetVersion ns sc v (rs_store st)) as Hrd.
    destruct (store_GetVersion ns sc v (rs_store st)) as [[ver|e] s'] eqn:Eg; cbn in *; subst s';
      destruct st as [s h]; (split; [done|]); [|done].
    split; [done|]. by apply (GetVersion_schema ns sc v ver s s). }
  intros ver. apply iso_calm; [done|done|solve_calm|intros fds].
  apply (rg_then _ _ _ _ _ (λ snap, with_ok (λ st, P st ∧ snap_version snap = v))).
  { apply rg_return; [by apply local_growing|]. intros st [Hok Hst].
    destruct (Snapshot.New v fds) as [snap|e] eqn:En; [|split; auto]. split; [done|]. split; [done|].
    unfold Snapshot.New in En. destruct (NewFiles fds); [|done].
    destruct (foldM _ _ _); [|done]. by injection En as <-. }
  intros snap. apply iso_pure. intros <-. apply iso_calm; [done|done| |intros []].
  { destruct force; solve_calm. }
  apply (rg_then _ _ _ _ _ (λ _, with_ok (each (ahead sc (snap_version snap)) ns))).
  { apply rg_wrap. eapply rg_conseq; [by apply (rg_stage_db ns sc _ (λ _, True) (local_pure ns True))|..].
    - by intros st [Hok Hst].
    - by intros [[]|e] st; [intros [Hok [Ha _]]|]. }
  intros []. eapply rg_then; [apply _|apply rg_getOrCreate|]. intros []. apply rg_stage_mem.
Qed.

Lemma iso_Rebase r req :
  RG (rb_NamespaceID req) (E (rb_NamespaceID req)) (RebaseT r req)
    (ensures (λ _, E (rb_NamespaceID req)) (E (rb_NamespaceID req))).
Proof.
  unfold RebaseT. calmly. intros []. calmly. intros [n|]; [|apply iso_end].
  calmly. intros [cur|]; [|apply iso_end].
  calmly. intros fs. calmly. intros src.
  apply (iso_publishInternal r {| pr_NamespaceID := rb_NamespaceID req |}).
Qed.

(** The namespace whose versions a call moves. *)
Definition call_ns (c : Call) : option string :=
  match c with
  | CallPublish req => Some (pr_NamespaceID req)
  | CallPromote ns | CallDiscardStaging ns | CallRollback ns _ _ _ => Some ns
  | CallRebase req => Some (rb_NamespaceID req)
  | CallCreateNamespace _ | CallSetNamespaceParent _ => None
  end.

(** What a call starts from and leaves. *)
Definition own_agrees (o : option string) st : Prop :=
  ok st ∧ ∀ ns, o = Some ns → each agreeing ns st.

Lemma iso_call r c :
  call_ok c →
  rg (others (call_ns c)) (touches (call_ns c)) (own_agrees (call_ns c)) (callT r c)
    (λ _, own_agrees (call_ns c)).
Proof.
  assert (Hwrap : ∀ ns A (t : T A) (g : A → Answer),
    RG ns (E ns) t (ensures (λ _, E ns) (E ns)) →
    RG ns (own_agrees (Some ns)) (a ← t; mret (g a)) (λ _, own_agrees (Some ns))).
  { intros ns A t g Ht. eapply rg_conseq.
    - eapply rg_then; [apply _|exact Ht|]. intros a. apply iso_end.
    - intros st [Hok Ha]. split; [done|]. by apply Ha.
    - intros [a|e] st [Hok Ha]; (split; [done|]); by intros ? [= <-]. }
  assert (Hcalm : ∀ A (t : T A) (g : A → Answer), calm (others None) (touches None) ok t →
    rg (others None) (touches None) (own_agrees None) (a ← t; mret (g a)) (λ _, own_agrees None)).
  { intros A t g Ht. refine (calm_bind _ _ _ _ _ Ht _ _ _); [intros a; apply calm_done|].
    split; [by intros st []|]. intros st st' [Hok _] Ho. split; [by apply (Ho Hok)|done]. }
  intros Hc. destruct c; cbn [callT call_ns].
  - apply Hwrap. unfold PublishT. calmly. intros []. apply iso_publishInternal.
  - apply Hwrap, iso_Promote.
  - apply (Hwrap _ _ _ (λ _, Finished)), iso_Discard.
  - by apply (Hwrap _ _ _ (λ _, Finished)), iso_Rollback.
  - apply (Hcalm _ _ (λ _, Finished)). solve_calm.
  - apply (Hcalm _ _ (λ _, Finished)). solve_calm.
  - apply Hwrap, iso_Rebase.
Qed.

(** ** Calls at once *)

(** No two calls move the versions of one namespace. *)
Definition one_per_namespace (cs : list Call) : Prop :=
  ∀ i j ci cj ns, i ≠ j → cs !! i = Some ci → cs !! j = Some cj →
    call_ns ci = Some ns → call_ns cj ≠ Some ns.

Section pool.
Context (r : RegistryConfig) (cs : list Call) (st : RS).
Context (Hcs : Forall call_ok cs) (Hone : one_per_namespace cs) (Hst : coherent st).
Let o (i : nat) : option string := cs !! i ≫= call_ns.

Lemma pool_compatible i j st1 st2 :
  i ≠ j → touches (o j) st1 st2 → others (o i) st1 st2.
Proof.
  intros Hij. apply touches_others. subst o. cbn. intros ns Hi Hj.
  apply bind_Some in Hi as (ci & Hci & Hi). apply bind_Some in Hj as (cj & Hcj & Hj).
  by apply (Hone i j ci cj ns).
Qed.

Lemma pool_tasks i t :
  (callT r <$> cs) !! i = Some t →
  rg (others (o i)) (touches (o i)) (own_agrees (o i)) t (λ _, own_agrees (o i)) ∧
  own_agrees (o i) st.
Proof.
  rewrite list_lookup_fmap. destruct (cs !! i) as [c|] eqn:Ec; [|done]. intros [= <-].
  subst o. cbn. rewrite Ec. cbn. split.
  - apply iso_call. by eapply Forall_lookup_1.
  - destruct Hst as [Hok Ha]. split; [done|]. intros ns _ sc. apply Ha.
Qed.

Lemma pool_agrees tr ts st' ns :
  pool_exec (callT r <$> cs) st tr ts st' →
  (∀ i c, cs !! i = Some c → call_ns c = Some ns → ∃ x, ts !! i = Some (Done x)) →
  each agreeing ns st'.
Proof.
  intros Hex Hdone. destruct (decide (Exists (λ c, call_ns c = Some ns) cs)) as [He|Hne].
  - apply Exists_exists in He as (c & Hc & Ens). apply list_elem_of_lookup in Hc as [i Hi].
    destruct (Hdone i c Hi Ens) as [x Hx].
    eapply (pool_post (λ i, others (o i)) (λ i, touches (o i)) (λ i, own_agrees (o i))
      (λ i _, own_agrees (o i)) pool_compatible _ st pool_tasks) in Hx; [|done].
    apply Hx. subst o. cbn. by rewrite Hi.
  - assert (Ho : others (Some ns) st st').
    { eapply (trace_last (others (Some ns))); [done|]. intros [i e] He.
      eapply (pool_guarantee (λ i, others (o i)) (λ i, touches (o i)) (λ i, own_agrees (o i))
        (λ i _, own_agrees (o i)) pool_compatible _ st pool_tasks) in He; [|done].
      revert He. apply touches_others. intros ns' [= <-] Hi. apply Hne.
      apply bind_Some in Hi as (c & Hi & Ens). apply Exists_exists. exists c.
      split; [by eapply list_elem_of_lookup_2|done]. }
    destruct Hst as [Hok Ha]. destruct (Ho Hok) as [_ Hu]. intros sc.
    rewrite (view_untouched ns st) by by apply Hu. apply Ha.
Qed.
End pool.

(** C3. Calls that move the versions of different namespaces do not disturb one another:
    however the accesses of publishes, promotions, discards, rollbacks and rebases of
    pairwise different namespaces interleave, with each other and with any number of
    hierarchy changes, database and memory agree on every namespace as soon as the call
    on it, if there is one, has returned, successfully or not. *)
Theorem different_namespaces_agree r cs st tr ts st' ns sc :
  Forall call_ok cs → one_per_namespace cs → coherent st →
  pool_exec (callT r <$> cs) st tr ts st' →
  (∀ i c, cs !! i = Some c → call_ns c = Some ns → ∃ x, ts !! i = Some (Done x)) →
  snap_version <$> cur_of (rs_mem st') ns sc = v_current (rs_store st') !! (ns, sc) ∧
  snap_version <$> stg_of (rs_mem st') ns sc = v_staged (rs_store st') !! (ns, sc).
Proof. intros Hcs Hone Hst Hex Hdone. exact (pool_agrees r cs st Hcs Hone Hst tr ts st' ns Hex Hdone sc). Qed.

End Isolation.
