(* ===== verification/RegistryTasksThms.v ===== *)
(** * The registry's calls run alone

    A call whose accesses are not interleaved with another's is the call of [Registry]:
    the two descriptions of the code agree. *)

From S2P Require Import Prelude GoStrings Descriptor Protobuf Snapshot Compat Conflict.
From S2P Require Import Compiler Namespace NamespaceThms Store Registry RegistryThms Tasks RegistryTasks.
From stdpp Require Import prelude gmap strings list.

Open Scope string_scope.
Open Scope list_scope.

Section alone.
Context `{Toolchain, ProtoTypes, ProtoNames, GoRange, CompilerVersion} {S : Type} `{Store S}.
#[local] Notation RS := (RState (S := S)).
#[local] Notation T := (Task RS).
Implicit Types (st : RS).

(** The accesses of a task, one combinator at a time. *)
Ltac run_step := first
  [ apply run_bind_ext | apply run_wrapT_ext | apply run_attemptT_ext | apply run_forT_ext
  | apply run_mapM_ext | apply run_atomic | reflexivity
  | match goal with
    | |- runTask (match ?x with _ => _ end) _ = _ => destruct x
    | |- runTask (let _ := _ in _) _ = _ => cbv zeta
    end ].
Ltac run_steps := repeat (intros; run_step).

(** A load of the shared memory. *)
Lemma run_load {A B} (f : gmap string Namespace → A) (k : A → T B) st :
  runTask (memT f ≫= k) st = runTask (k (f (rs_mem st))) st.
Proof. done. Qed.

Lemma load_bind {A B} (f : gmap string Namespace → A) (k : A → M RS B) st :
  (mem f ≫= k) st = k (f (rs_mem st)) st.
Proof. done. Qed.

Lemma run_ensure ns sc st :
  runTask (ensureNamespaceAndSchemaT ns sc) st = ensureNamespaceAndSchema ns sc st.
Proof. unfold ensureNamespaceAndSchemaT, ensureNamespaceT, ensureSchemaT, dbT. run_steps. Qed.

Lemma run_gatherDeps ns sc st : runTask (gatherDepsT ns sc) st = gatherDeps ns sc st.
Proof. unfold gatherDepsT, depSourcesT, dbT. run_steps. Qed.

Lemma run_gatherChainTiers ns st : runTask (gatherChainTiersT ns) st = gatherChainTiers ns st.
Proof. unfold gatherChainTiersT, depSourcesT, dbT, memT. run_steps. Qed.

Lemma run_gatherBuiltins st : runTask gatherBuiltinsT st = gatherBuiltins st.
Proof. unfold gatherBuiltinsT, depSourcesT, dbT. run_steps. Qed.

Lemma run_isUnchanged ns sc fp st : runTask (isUnchangedT ns sc fp) st = isUnchanged ns sc fp st.
Proof. unfold isUnchangedT, isUnchanged, dbT. run_steps. Qed.

Lemma run_loadSources ns fs ctx st : runTask (loadSourcesT ns fs ctx) st = loadSources ns fs ctx st.
Proof. unfold loadSourcesT, dbT. run_steps. Qed.

Lemma run_storeVersion req v res st : runTask (storeVersionT req v res) st = storeVersion req v res st.
Proof. unfold storeVersionT, dbT. run_steps. Qed.

Lemma run_publishInternal r req force st :
  runTask (publishInternalT r req force) st = publishInternal r req force st.
Proof.
  unfold publishInternalT, publishInternal. case_decide; [done|].
  run_steps; first [apply run_ensure | apply run_gatherDeps | apply run_gatherChainTiers
    | apply run_gatherBuiltins | apply run_isUnchanged | apply run_storeVersion].
Qed.

Lemma run_Publish r req st : runTask (PublishT r req) st = Publish r req st.
Proof. unfold PublishT. run_step; [done|]. intros _ st1. apply run_publishInternal. Qed.

Lemma run_Rebase r req st : runTask (RebaseT r req) st = Rebase r req st.
Proof.
  unfold RebaseT, Rebase. run_step; [done|]. intros _ st1. rewrite run_load, load_bind.
  destruct (Get _ _) as [n|] eqn:En; [|done]. rewrite run_load, En. cbn [mbind option_bind].
  destruct (Current n _); [|done]. run_step; [run_steps|]. intros fs st2.
  run_step; [intros; apply run_loadSources|]. intros src st3. apply run_publishInternal.
Qed.

(** ** The loops over the slots of a namespace *)

Lemma run_promoteChecks ns n ids st :
  Get (rs_mem st) ns = Some n →
  runTask (promoteChecksT ns ids) st = (promoteChecks ns n ids, st).
Proof.
  intros Hn. induction ids as [|sc ids IH]; [done|]. cbn [promoteChecksT promoteChecks].
  rewrite run_load, Hn. cbn [mbind option_bind]. destruct (Staged n sc) as [sg|]; [|done].
  rewrite run_load, Hn. cbn [mbind option_bind]. destruct (match Current n sc with Some _ => _ | None => _ end); [done|].
  by destruct (OK _).
Qed.

(** Altering the slots of distinct schemas, one after the other. *)
Lemma alter_all {K A} `{Countable K} (f : A → A) (ids : list K) (m : gmap K A) :
  NoDup ids → (∀ k, is_Some (m !! k) → k ∈ ids) →
  fold_left (λ m k, alter f k m) ids m = f <$> m.
Proof.
  intros Hnd Hall. apply map_eq. intros k. rewrite lookup_fmap.
  assert (Hk : fold_left (λ m k, alter f k m) ids m !! k =
    if decide (k ∈ ids) then f <$> m !! k else m !! k).
  { clear Hall. revert m. induction Hnd as [|i ids Hi Hnd IH]; intros m; cbn; [done|].
    rewrite IH. destruct (decide (k = i)) as [->|Hne].
    - rewrite decide_False, decide_True, lookup_alter_eq by (done || left). done.
    - rewrite lookup_alter_ne by done. repeat case_decide; set_solver. }
  rewrite Hk. case_decide as Hin; [done|]. destruct (m !! k) eqn:E; [|done].
  destruct Hin. apply Hall. by eexists.
Qed.

Definition slots_at (st : RS) (ns : string) (n : Namespace) (m : gmap string schemaSlot) : RS :=
  {| rs_store := rs_store st; rs_mem := <[ns := with_schemas n m]> (rs_mem st) |}.

(** A loop whose body alters one slot. *)
Lemma run_slots ns n st (body : string → T unit) f ids m :
  (∀ sc m, runTask (body sc) (slots_at st ns n m) = (Ok tt, slots_at st ns n (alter f sc m))) →
  runTask (forT_ ids body) (slots_at st ns n m) =
    (Ok tt, slots_at st ns n (fold_left (λ m k, alter f k m) ids m)).
Proof.
  intros Hb. revert m. induction ids as [|sc ids IH]; intros m; cbn [forT_ fold_left]; [done|].
  rewrite run_bind. unfold mbind, M_bind. rewrite Hb. apply IH.
Qed.

Lemma with_schemas_same n : with_schemas n (ns_schemas n) = n.
Proof. by destruct n. Qed.

Lemma slots_same st ns n : rs_mem st !! ns = Some n → slots_at st ns n (ns_schemas n) = st.
Proof.
  intros Hn. unfold slots_at. rewrite with_schemas_same, insert_id by done. by destruct st.
Qed.

Lemma SchemaIDs_NoDup n : NoDup (SchemaIDs n).
Proof. apply NoDup_fst_go_range. Qed.

Lemma SchemaIDs_all n sc : is_Some (ns_schemas n !! sc) → sc ∈ SchemaIDs n.
Proof. intros [slot Hs]. apply list_elem_of_fmap. exists (sc, slot). by rewrite elem_of_go_range. Qed.

(** The whole loop over the slots of a namespace. *)
Lemma run_all_slots ns n st (body : string → T unit) f :
  rs_mem st !! ns = Some n →
  (∀ sc m, runTask (body sc) (slots_at st ns n m) = (Ok tt, slots_at st ns n (alter f sc m))) →
  runTask (forT_ (SchemaIDs n) body) st =
    (Ok tt, slots_at st ns n (f <$> ns_schemas n)).
Proof.
  intros Hn Hb. rewrite <-(slots_same st ns n Hn) at 1. rewrite (run_slots _ _ _ _ f) by done.
  rewrite alter_all; [done|apply SchemaIDs_NoDup|apply SchemaIDs_all].
Qed.

(** The accesses to one slot. *)
Lemma swapStaged_slots ns n st sc m :
  swapStaged ns sc (slots_at st ns n m) =
    (Ok (m !! sc ≫= slot_staged),
     slots_at st ns n (alter (λ slot, {| slot_current := slot_current slot; slot_staged := None |}) sc m)).
Proof.
  unfold swapStaged, slots_at, Get. cbn [rs_mem rs_store]. rewrite lookup_insert_eq, alter_insert_eq.
  unfold Staged, getSlot. cbn. by destruct (m !! sc).
Qed.

Lemma clearStaged_slots ns n st sc m :
  clearStaged ns sc (slots_at st ns n m) =
    (Ok tt, slots_at st ns n
      (alter (λ slot, {| slot_current := slot_current slot; slot_staged := None |}) sc m)).
Proof. unfold clearStaged, on_ns, set_mem, modify, slots_at. cbn. by rewrite alter_insert_eq. Qed.

Lemma storeCurrent_slots ns n st sc snap m :
  storeCurrent ns sc snap (slots_at st ns n m) =
    (Ok tt, slots_at st ns n
      (alter (λ slot, {| slot_current := Some snap; slot_staged := slot_staged slot |}) sc m)).
Proof. unfold storeCurrent, on_ns, set_mem, modify, slots_at. cbn. by rewrite alter_insert_eq. Qed.

Lemma run_promoteSlot ns n st sc m :
  runTask (staged ← atomic (swapStaged ns sc);
           match staged with
           | None => mret tt
           | Some staged => atomic (storeCurrent ns sc staged)
           end) (slots_at st ns n m) = (Ok tt, slots_at st ns n (alter promoteSlot sc m)).
Proof.
  rewrite run_bind. unfold mbind, M_bind. rewrite run_atomic, swapStaged_slots.
  destruct (m !! sc) as [slot|] eqn:Em; cbn [mbind option_bind].
  - destruct (slot_staged slot) as [sg|] eqn:Es.
    + rewrite run_atomic, storeCurrent_slots, alter_alter_eq. do 2 f_equal.
      apply alter_ext. intros x. rewrite Em. intros [= <-]. cbn. unfold promoteSlot. by rewrite Es.
    + cbn. do 2 f_equal. apply alter_ext. intros x. rewrite Em. intros [= <-].
      unfold promoteSlot. by rewrite Es.
  - cbn. do 2 f_equal. by rewrite !alter_id by (intros x; rewrite Em; done).
Qed.

Lemma run_promoteNs ns st :
  runTask (promoteNsT ns) st = on_ns ns (λ ns, (PromoteNs ns).2) st.
Proof.
  unfold promoteNsT, schemaIDsT. rewrite run_load. unfold on_ns, set_mem, modify, Get.
  destruct (rs_mem st !! ns) as [n|] eqn:Hn; cbn [from_option].
  - rewrite (run_all_slots ns n st _ promoteSlot) by (done || apply run_promoteSlot).
    unfold slots_at. do 2 f_equal. apply map_eq. intros k. rewrite lookup_insert, lookup_alter.
    case_decide; [subst|done]. by rewrite Hn.
  - cbn. rewrite alter_id by (intros x; rewrite Hn; done). by destruct st.
Qed.

Lemma run_discardNs ns st : runTask (discardNsT ns) st = on_ns ns DiscardStagingNs st.
Proof.
  unfold discardNsT, schemaIDsT. rewrite run_load. unfold on_ns, set_mem, modify, Get.
  destruct (rs_mem st !! ns) as [n|] eqn:Hn; cbn [from_option].
  - rewrite (run_all_slots ns n st _ (λ slot, {| slot_current := slot_current slot; slot_staged := None |}));
      [|done|intros; by rewrite run_atomic, clearStaged_slots].
    unfold slots_at. do 2 f_equal. apply map_eq. intros k. rewrite lookup_insert, lookup_alter.
    case_decide; [subst|done]. by rewrite Hn.
  - cbn. rewrite alter_id by (intros x; rewrite Hn; done). by destruct st.
Qed.

(** ** The calls *)

Lemma run_Promote r ns st : runTask (PromoteT r ns) st = Promote r ns st.
Proof.
  unfold PromoteT, Promote. run_step; [done|]. intros _ st1. rewrite run_load, load_bind.
  destruct (Get _ _) as [n|] eqn:En; [|done]. unfold schemaIDsT. rewrite run_load, En.
  rewrite run_bind. unfold mbind at 1, M_bind at 1. rewrite (run_promoteChecks ns n) by done.
  unfold mbind at 3, M_bind at 1, of_res. destruct (promoteChecks _ _ _); [|done].
  run_step; [run_steps|]. intros ps st2. run_step; [apply run_promoteNs|done].
Qed.

Lemma run_Discard ns st : runTask (DiscardStagingT ns) st = DiscardStaging ns st.
Proof. unfold DiscardStagingT. run_step; [run_steps|]. intros _ st1. apply run_discardNs. Qed.

Lemma run_Rollback ns sc v force st : runTask (RollbackT ns sc v force) st = Rollback ns sc v force st.
Proof. unfold RollbackT, Rollback, dbT. run_steps. Qed.

Lemma run_CreateNamespace r req st : runTask (CreateNamespaceT r req) st = CreateNamespace r req st.
Proof. unfold CreateNamespaceT, CreateNamespace, dbT. run_steps. Qed.

Lemma run_SetNamespaceParent r req st :
  runTask (SetNamespaceParentT r req) st = SetNamespaceParent r req st.
Proof. unfold SetNamespaceParentT, SetNamespaceParent, dbT. run_steps. Qed.

(** A call that runs with no other call in between gives the result and leaves the
    state of the call described in one piece: the description of every mutating call of
    the registry by its single accesses to the database and to the shared memory (a
    pointer at a time in a promotion and a discard) agrees with the one all other theorems
    are about. *)
Lemma calls_run_alone r c st : runTask (callT r c) st = call r c st.
Proof.
  destruct c; cbn [callT call]; (apply run_bind_ext; [|done]); intros;
    first [apply run_Publish | apply run_Promote | apply run_Discard | apply run_Rollback
      | apply run_CreateNamespace | apply run_SetNamespaceParent | apply run_Rebase].
Qed.

End alone.
