(* ===== verification/PostgresIsolation.v ===== *)
(** * Re-parenting at the isolation level of the database

    [Postgres.SetNamespaceParent] is a transaction in one piece. PostgreSQL runs the
    transactions [pool.Begin] opens at READ COMMITTED: each statement sees what is
    committed when it starts and what its own transaction wrote; what a transaction wrote
    becomes visible when it commits, and a row it updated is locked until it ends. Here
    the transaction of [SetNamespaceParent] ([src/store/postgres/postgres.go]) is a task
    whose accesses are its statements. A statement scheduled while another open
    transaction has locked its row waits until its context ends; one that waits and then
    goes on is one scheduled after the lock is gone. The foreign-key check of the new
    parent locks its row only against deletion, which no update here conflicts with. The
    serial column of the events is numbered at the commit. *)

From S2P Require Import Prelude Store GoStrings GoPath GoJSON Postgres PostgresThms Tasks.
From stdpp Require Import prelude gmap strings list.

Open Scope string_scope.
Open Scope list_scope.

(** What an open transaction wrote: rows of namespaces and events. *)
Record Session := { ss_rows : gmap string NamespaceRow; ss_events : list EventRow }.

Definition no_writes : Session := {| ss_rows := ∅; ss_events := [] |}.

(** The committed database and the open transactions. *)
Record RC := { rc_db : DB; rc_open : gmap nat Session }.

Definition numbered (e : EventRow) (id : Z) : EventRow := {|
  er_id := id; er_namespace_id := er_namespace_id e;
  er_previous_parent_id := er_previous_parent_id e; er_new_parent_id := er_new_parent_id e;
  er_actor_id := er_actor_id e; er_occurred_at := er_occurred_at e |}.

(** The database with the writes of a transaction. *)
Definition apply_session (d : DB) (s : Session) : DB :=
  fold_left (λ d e, with_events d (t_parent_events d ++ [numbered e (next_event_id d)]))
    (ss_events s) (with_namespaces d (ss_rows s ∪ t_namespaces d)).

Section session.
Context (i : nat).

Definition session (st : RC) : Session :=
  default no_writes (rc_open st !! i).
Definition set_session (st : RC) (s : Session) : RC :=
  {| rc_db := rc_db st; rc_open := <[i := s]> (rc_open st) |}.

(** The database a statement of this transaction sees. *)
Definition seen (st : RC) : DB := apply_session (rc_db st) (session st).

(** Another open transaction wrote the row. *)
Definition locked (st : RC) (id : string) : Prop :=
  map_Exists (λ j s, j ≠ i ∧ is_Some (ss_rows s !! id)) (rc_open st).
#[global] Instance locked_dec st id : Decision (locked st id).
Proof. unfold locked. apply _. Defined.

Definition Begin : M RC unit := λ st, (Ok tt, set_session st no_writes).
Definition Commit : M RC unit := λ st,
  (Ok tt, {| rc_db := seen st; rc_open := delete i (rc_open st) |}).
Definition Rollback_ : M RC unit := λ st,
  (Ok tt, {| rc_db := rc_db st; rc_open := delete i (rc_open st) |}).

(** A query. *)
Definition select {A} (q : M DB A) : M RC A := λ st, ((q (seen st)).1, st).

(** An UPDATE of the row [id]; it takes the lock when it has a row to update. *)
Definition update (id : string) (q : M DB nat) : M RC nat := λ st,
  match q (seen st) with
  | (Ok (S n), d') =>
     if decide (locked st id) then (Err (ErrNew "canceling statement due to user request"), st)
     else
       (Ok (S n), set_session st
         {| ss_rows := from_option (λ r, <[id := r]> (ss_rows (session st))) (ss_rows (session st))
                         (t_namespaces d' !! id);
            ss_events := ss_events (session st) |})
  | (x, _) => (x, st)
  end.

(** An INSERT of events. *)
Definition insert_event (q : M DB unit) : M RC unit := λ st,
  match q (seen st) with
  | (Ok _, d') =>
     (Ok tt, set_session st
       {| ss_rows := ss_rows (session st);
          ss_events := ss_events (session st) ++
            drop (length (t_parent_events (seen st))) (t_parent_events d') |})
  | (Err e, _) => (Err e, st)
  end.

(** ** The transaction of SetNamespaceParent *)

Definition notFoundT {A} (t : Task RC A) : Task RC A :=
  mapT (λ x, match x with Ok a => Ok a | Err _ => Err (ErrSentinel ErrNamespaceNotFound) end) t.

Definition reparentT (namespaceID : string) (parentID : option string) (actorID : string)
    : Task RC unit :=
  existing ← notFoundT (atomic (select (q_GetNamespace namespaceID)));
  let previous := nr_parent_namespace_id existing in
  match parentID with
  | None =>
     wrapT ("clearing parent for " +:+ namespaceID)
       (atomic (update namespaceID (q_ClearNamespaceParent namespaceID))) ;;
     mret tt
  | Some parentID =>
     notFoundT (atomic (select (q_GetNamespace parentID))) ;;
     rows ← wrapT ("setting parent for " +:+ namespaceID)
              (atomic (update namespaceID (q_SetNamespaceParent parentID namespaceID)));
     if decide (rows = 0%nat) then failT (ErrSentinel ErrParentCycle) else mret tt
  end ;;
  wrapT "recording parent-change audit event"
    (atomic (insert_event (q_RecordNamespaceParentEvent namespaceID previous parentID actorID))).

Definition SetNamespaceParentTx (namespaceID : string) (parentID : option string)
    (actorID : string) : Task RC unit :=
  atomic Begin ;;
  x ← attemptT (reparentT namespaceID parentID actorID);
  match x with
  | Ok _ => atomic Commit
  | Err e => atomic Rollback_ ;; failT e
  end.
End session.

(** ** A transaction with no other open is the one of the store *)

Section alone.
Context (i : nat) (d : DB).

Definition opened (s : Session) : RC := {| rc_db := d; rc_open := {[ i := s ]} |}.

Lemma session_opened s : session i (opened s) = s.
Proof. unfold session, opened. cbn. by rewrite lookup_singleton_eq. Qed.

Lemma seen_opened s : seen i (opened s) = apply_session d s.
Proof. unfold seen. by rewrite session_opened. Qed.

Lemma set_session_opened s s' : set_session i (opened s) s' = opened s'.
Proof. unfold set_session, opened. cbn. by rewrite insert_singleton_eq. Qed.

Lemma not_locked s id : ¬ locked i (opened s) id.
Proof.
  intros (j & s' & Hs & Hj & _). cbn in Hs. apply lookup_singleton_Some in Hs as [-> _]. by apply Hj.
Qed.

Lemma with_namespaces_same : with_namespaces d (t_namespaces d) = d.
Proof. by destruct d. Qed.

Lemma apply_begin : apply_session d no_writes = d.
Proof. unfold apply_session. cbn. by rewrite (left_id_L ∅ (∪)), with_namespaces_same. Qed.

(** After the update of a row. *)
Definition row_written (id : string) (r : NamespaceRow) : Session :=
  {| ss_rows := {[ id := r ]}; ss_events := [] |}.

Lemma apply_row id f r :
  t_namespaces d !! id = Some r →
  apply_session d (row_written id (f r)) = with_namespaces d (alter f id (t_namespaces d)).
Proof.
  intros Hr. unfold apply_session, row_written. cbn. f_equal. rewrite <-insert_union_singleton_l.
  apply map_eq. intros k. rewrite lookup_insert, lookup_alter. case_decide; [subst|done]. by rewrite Hr.
Qed.

Lemma run_update id q f n r :
  t_namespaces d !! id = Some r → q d = (Ok (S n), with_namespaces d (alter f id (t_namespaces d))) →
  update i id q (opened no_writes) = (Ok (S n), opened (row_written id (f r))).
Proof.
  intros Hr Hq. unfold update. rewrite seen_opened, session_opened, apply_begin, Hq.
  rewrite decide_False by apply not_locked. rewrite set_session_opened. cbn [ss_rows ss_events].
  cbn. by rewrite lookup_alter_eq, Hr.
Qed.

Lemma numbered_same e : numbered e (er_id e) = e.
Proof. by destruct e. Qed.

(** The audit event, after the row. *)
Lemma run_event id r e :
  let d1 := apply_session d (row_written id r) in
  er_id e = next_event_id d1 →
  apply_session d {| ss_rows := {[ id := r ]}; ss_events := [e] |} =
    with_events d1 (t_parent_events d1 ++ [e]).
Proof.
  intros d1 He. unfold apply_session. cbn [ss_events ss_rows fold_left].
  change (with_namespaces d ({[id := r]} ∪ t_namespaces d)) with d1. by rewrite <-He, numbered_same.
Qed.
End alone.

(** Recording the event in the open transaction. *)
Lemma run_insert i d id r prev new actor :
  let d1 := apply_session d (row_written id r) in
  ∃ e, er_id e = next_event_id d1 ∧
    q_RecordNamespaceParentEvent id prev new actor d1 = (Ok tt, with_events d1 (t_parent_events d1 ++ [e])) ∧
    insert_event i (q_RecordNamespaceParentEvent id prev new actor) (opened i d (row_written id r)) =
      (Ok tt, opened i d {| ss_rows := {[ id := r ]}; ss_events := [e] |}).
Proof.
  intros d1. assert (Hr : t_namespaces d1 !! id = Some r).
  { unfold d1, apply_session, row_written. cbn. by rewrite <-insert_union_singleton_l, lookup_insert_eq. }
  eexists {| er_id := next_event_id d1 |}. split; [reflexivity|]. unfold q_RecordNamespaceParentEvent.
  rewrite Hr. split; [reflexivity|]. unfold insert_event. rewrite seen_opened, session_opened. fold d1.
  rewrite Hr. cbn [t_parent_events with_events]. by rewrite drop_app_length, set_session_opened.
Qed.

(** One statement of a task. *)
Lemma run_stmt {A B C} (f : res A → res B) (m : M RC A) (k : B → Task RC C) st x st' :
  m st = (x, st') →
  runTask (mapT f (atomic m) ≫= k) st =
    match f x with Ok b => runTask (k b) st' | Err e => (Err e, st') end.
Proof.
  intros Hm. rewrite run_bind. unfold mbind, M_bind. rewrite run_mapT, run_atomic, Hm.
  by destruct (f x).
Qed.

Lemma run_wrapped {A C} c (m : M RC A) (k : A → Task RC C) st x st' :
  m st = (x, st') →
  runTask (wrapT c (atomic m) ≫= k) st =
    match wrap c x with Ok b => runTask (k b) st' | Err e => (Err e, st') end.
Proof. apply run_stmt. Qed.

Lemma run_bind_assoc {A B C} (t : Task RC A) (f : A → Task RC B) (g : B → Task RC C) st :
  runTask ((t ≫= f) ≫= g) st = runTask (t ≫= λ a, f a ≫= g) st.
Proof.
  rewrite !run_bind. unfold mbind at 1 3, M_bind. rewrite run_bind. unfold mbind at 1, M_bind.
  destruct (runTask t st) as [[a|e] st']; [|done]. by rewrite run_bind.
Qed.

Lemma select_begin {A} i d (q : M DB A) :
  select i q (opened i d no_writes) =
    ((q d).1, opened i d no_writes).
Proof. unfold select. by rewrite seen_opened, apply_begin. Qed.

(** What follows the update of the row. *)
Lemma run_audit i d ns f r p prev actor :
  t_namespaces d !! ns = Some r →
  let d1 := with_namespaces d (alter f ns (t_namespaces d)) in
  ∃ s d', runTask (wrapT "recording parent-change audit event"
      (atomic (insert_event i (q_RecordNamespaceParentEvent ns prev p actor))))
      (opened i d (row_written ns (f r))) = (Ok tt, opened i d s) ∧
    q_RecordNamespaceParentEvent ns prev p actor d1 = (Ok tt, d') ∧ apply_session d s = d'.
Proof.
  intros Hr d1. destruct (run_insert i d ns (f r) prev p actor) as (e & He & Hq & Hi).
  pose proof (apply_row d ns f r Hr) as Ea. rewrite Ea in *. fold d1 in He, Hq |- *.
  eexists _, _. split; [unfold wrapT; rewrite run_mapT, run_atomic, Hi; reflexivity|].
  split; [exact Hq|]. rewrite run_event; rewrite Ea; done.
Qed.

(** The outcomes of the transaction in one piece. *)
Definition reparented (d : DB) (ns : string) (p : option string) (actor : string) (r : NamespaceRow) : DB :=
  (q_RecordNamespaceParentEvent ns (nr_parent_namespace_id r) p actor
     (with_namespaces d (alter (set_parent p) ns (t_namespaces d)))).2.

(** The WHERE clause of the update. *)
Definition admissible (d : DB) (ns : string) (p : option string) : Prop :=
  match p with
  | None => True
  | Some q => is_Some (t_namespaces d !! ns) ∧ ns ≠ q ∧ is_Some (t_namespaces d !! q) ∧
              ns ∉ cte_ancestors (t_namespaces d) 64 (Some q)
  end.
#[global] Instance admissible_dec d ns p : Decision (admissible d ns p).
Proof. destruct p; apply _. Defined.

Definition missing (d : DB) (ns : string) (p : option string) : Prop :=
  t_namespaces d !! ns = None ∨ ∃ q, p = Some q ∧ t_namespaces d !! q = None.

#[global] Instance missing_dec d ns p : Decision (missing d ns p).
Proof.
  unfold missing. destruct (t_namespaces d !! ns); [|by left; left].
  destruct p as [q|]; [|right; naive_solver].
  destruct (t_namespaces d !! q) eqn:Eq; [right; naive_solver|left; right; eauto].
Defined.

Lemma SetNamespaceParent_missing d ns p actor :
  missing d ns p → SetNamespaceParent ns p actor d = (Err (ErrSentinel ErrNamespaceNotFound), d).
Proof.
  unfold SetNamespaceParent, tx, orNotFound, q_GetNamespace, one, mbind, M_bind.
  intros [->|(q & -> & Hq)]; [done|]. destruct (t_namespaces d !! ns); [|done]. by rewrite Hq.
Qed.

Lemma SetNamespaceParent_cycle d ns p actor :
  ¬ missing d ns p → ¬ admissible d ns p →
  SetNamespaceParent ns p actor d = (Err (ErrSentinel ErrParentCycle), d).
Proof.
  intros Hm Ha. destruct p as [q|]; [|by destruct Ha].
  unfold SetNamespaceParent, tx, orNotFound, q_GetNamespace, one, mbind, M_bind.
  destruct (t_namespaces d !! ns) eqn:En; [|by destruct Hm; left].
  destruct (t_namespaces d !! q) eqn:Eq; [|by destruct Hm; right; exists q].
  unfold wrapM, q_SetNamespaceParent. by rewrite decide_False by exact Ha.
Qed.

Lemma SetNamespaceParent_done d ns p actor r :
  t_namespaces d !! ns = Some r → ¬ missing d ns p → admissible d ns p →
  SetNamespaceParent ns p actor d = (Ok tt, reparented d ns p actor r).
Proof.
  intros Hr Hm Ha. assert (Hq : ∀ prev, is_ok (q_RecordNamespaceParentEvent ns prev p actor
    (with_namespaces d (alter (set_parent p) ns (t_namespaces d)))).1 = true).
  { intros prev. unfold q_RecordNamespaceParentEvent. cbn. by rewrite lookup_alter_eq, Hr. }
  unfold SetNamespaceParent, tx, orNotFound, q_GetNamespace, one, mbind, M_bind, reparented.
  rewrite Hr. specialize (Hq (nr_parent_namespace_id r)). destruct p as [q|].
  - destruct (t_namespaces d !! q) eqn:Eq; [|by destruct Hm; right; exists q].
    unfold wrapM, q_SetNamespaceParent. rewrite decide_True by exact Ha. cbn [wrap].
    rewrite decide_False by done. unfold mret, M_ret.
    by destruct (q_RecordNamespaceParentEvent _ _ _ _ _) as [[[]|] ?].
  - unfold wrapM, q_ClearNamespaceParent, mret, M_ret. cbn [wrap].
    by destruct (q_RecordNamespaceParentEvent _ _ _ _ _) as [[[]|] ?].
Qed.

(** The same outcomes of the task. *)
Lemma reparent_missing i d ns p actor :
  missing d ns p →
  runTask (reparentT i ns p actor) (opened i d no_writes) =
    (Err (ErrSentinel ErrNamespaceNotFound), opened i d no_writes).
Proof.
  intros Hm. unfold reparentT, notFoundT. rewrite (run_stmt _ _ _ _ _ _ (select_begin i d _)).
  unfold q_GetNamespace, one. destruct (t_namespaces d !! ns) as [r|] eqn:Er; cbn [fst]; [|done].
  destruct Hm as [Hm|(q & -> & Hq)]; [congruence|]. rewrite run_bind_assoc.
  rewrite (run_stmt _ _ _ _ _ _ (select_begin i d _)). by rewrite Hq.
Qed.

Lemma reparent_cycle i d ns p actor :
  ¬ missing d ns p → ¬ admissible d ns p →
  runTask (reparentT i ns p actor) (opened i d no_writes) =
    (Err (ErrSentinel ErrParentCycle), opened i d no_writes).
Proof.
  intros Hm Ha. destruct p as [q|]; [|by destruct Ha].
  unfold reparentT, notFoundT, wrapT. rewrite (run_stmt _ _ _ _ _ _ (select_begin i d _)).
  unfold q_GetNamespace, one. destruct (t_namespaces d !! ns) as [r|] eqn:Er; [|by destruct Hm; left].
  cbn [fst]. rewrite run_bind_assoc, (run_stmt _ _ _ _ _ _ (select_begin i d _)).
  destruct (t_namespaces d !! q) eqn:Eq; [|by destruct Hm; right; exists q]. cbn [fst].
  rewrite run_bind_assoc. erewrite run_stmt; [|unfold update; rewrite seen_opened, apply_begin;
    unfold q_SetNamespaceParent; rewrite decide_False by exact Ha; reflexivity]. done.
Qed.

Lemma reparent_done i d ns p actor r :
  t_namespaces d !! ns = Some r → ¬ missing d ns p → admissible d ns p →
  ∃ s, runTask (reparentT i ns p actor) (opened i d no_writes) = (Ok tt, opened i d s) ∧
       apply_session d s = reparented d ns p actor r.
Proof.
  intros Hr Hm Ha. unfold reparentT, notFoundT. rewrite (run_stmt _ _ _ _ _ _ (select_begin i d _)).
  unfold q_GetNamespace, one. rewrite Hr. cbn [fst].
  destruct (run_audit i d ns (set_parent p) r p (nr_parent_namespace_id r) actor Hr)
    as (s & d' & Hrun & Hq & Es).
  exists s. split; [|rewrite Es; unfold reparented; by rewrite Hq]. destruct p as [q|].
  - rewrite run_bind_assoc, (run_stmt _ _ _ _ _ _ (select_begin i d _)).
    destruct (t_namespaces d !! q) eqn:Eq; [|by destruct Hm; right; exists q]. cbn [fst].
    assert (Hu : q_SetNamespaceParent q ns d =
      (Ok 1, with_namespaces d (alter (set_parent (Some q)) ns (t_namespaces d))))
      by (unfold q_SetNamespaceParent; by rewrite decide_True by exact Ha).
    by rewrite run_bind_assoc, (run_wrapped _ _ _ _ _ _ (run_update i d ns _ _ 0 r Hr Hu)).
  - assert (Hu : q_ClearNamespaceParent ns d =
      (Ok 1, with_namespaces d (alter (set_parent None) ns (t_namespaces d))))
      by (unfold q_ClearNamespaceParent; by rewrite decide_True by (by eexists)).
    by rewrite run_bind_assoc, (run_wrapped _ _ _ _ _ _ (run_update i d ns _ _ 0 r Hr Hu)).
Qed.

(** The transaction ends. *)
Lemma run_end i d s x (t : Task RC unit) :
  runTask t (opened i d no_writes) = (x, opened i d s) →
  runTask (atomic (Begin i) ;; y ← attemptT t;
           match y with Ok _ => atomic (Commit i) | Err e => atomic (Rollback_ i) ;; failT e end)
    {| rc_db := d; rc_open := ∅ |} =
  (x, {| rc_db := match x with Ok _ => apply_session d s | Err _ => d end; rc_open := ∅ |}).
Proof.
  intros Ht. rewrite run_bind. unfold mbind at 1, M_bind. rewrite run_atomic. unfold Begin.
  change (set_session i {| rc_db := d; rc_open := ∅ |} no_writes) with (opened i d no_writes).
  rewrite run_bind. unfold mbind at 1, M_bind. rewrite run_attemptT. unfold attempt. rewrite Ht.
  destruct x as [[]|e].
  - rewrite run_atomic. unfold Commit. rewrite seen_opened. cbn. by rewrite delete_singleton_eq.
  - cbn. by rewrite delete_singleton_eq.
Qed.

(** A re-parenting transaction that no other transaction overlaps gives the result and
    leaves the database of the transaction in one piece, over which the hierarchy was
    shown to stay free of cycles. *)
Theorem reparent_alone i d ns p actor :
  runTask (SetNamespaceParentTx i ns p actor) {| rc_db := d; rc_open := ∅ |} =
    let '(x, d') := SetNamespaceParent ns p actor d in (x, {| rc_db := d'; rc_open := ∅ |}).
Proof.
  destruct (decide (missing d ns p)) as [Hm|Hm].
  { rewrite SetNamespaceParent_missing by done. by apply (run_end i d no_writes _ _ (reparent_missing i d ns p actor Hm)). }
  destruct (decide (admissible d ns p)) as [Ha|Ha].
  - destruct (t_namespaces d !! ns) as [r|] eqn:Er; [|by destruct Hm; left].
    destruct (reparent_done i d ns p actor r Er Hm Ha) as (s & Hs & Es).
    rewrite (SetNamespaceParent_done d ns p actor r) by done. rewrite <-Es.
    by apply (run_end i d s _ _ Hs).
  - rewrite SetNamespaceParent_cycle by done.
    by apply (run_end i d no_writes _ _ (reparent_cycle i d ns p actor Hm Ha)).
Qed.

(** ** Two transactions at once *)

(** Namespaces that are each other's parent have no path to a root. *)
Lemma cycle_no_root t a b ra rb :
  t !! a = Some ra → nr_parent_namespace_id ra = Some b →
  t !! b = Some rb → nr_parent_namespace_id rb = Some a → ¬ acyclic t.
Proof.
  intros Ha Hpa Hb Hpb Hac. destruct (Hac a) as [l Hl]; [by eexists|].
  assert (Hno : ∀ l x, up t x l → x ≠ a ∧ x ≠ b).
  { induction 1 as [id row Hr Hp|id row p l0 Hr Hp _ IH].
    - split; intros ->; simplify_eq.
    - split; intros ->; simplify_eq; naive_solver. }
  by apply (Hno l a) in Hl as [].
Qed.

Module Skew.
Definition root_row : NamespaceRow := {| nr_created_at := 0; nr_deleted_at := None;
  nr_metadata := JObj []; nr_parent_namespace_id := None |}.
(** Two namespaces without a parent. *)
Definition start : DB := with_namespaces (empty_db 0) {[ "a" := root_row; "b" := root_row ]}.

Definition both : list (Task RC unit) :=
  [SetNamespaceParentTx 0 "a" (Some "b") "ann"; SetNamespaceParentTx 1 "b" (Some "a") "bob"].

(** One statement each, in turn. *)
Definition in_turn : list nat := flat_map (λ _, [0; 1]) (seq 0 8).
Definition final := schedule in_turn both {| rc_db := start; rc_open := ∅ |}.

(** C39. Two re-parentings at once can close a cycle: the check for cycles of each reads what
    is committed, so there is an interleaving of the statements of two transactions that
    make each of two namespaces the parent of the other, in which both succeed and commit
    and neither namespace has a path to a root any more. One after the other, the second
    is refused. *)
Theorem reparent_write_skew :
  acyclic (t_namespaces start) ∧
  (∃ tr st', pool_exec both {| rc_db := start; rc_open := ∅ |} tr [Done (Ok tt); Done (Ok tt)] st' ∧
     rc_open st' = ∅ ∧ ¬ acyclic (t_namespaces (rc_db st'))) ∧
  (SetNamespaceParent "b" (Some "a") "bob" (SetNamespaceParent "a" (Some "b") "ann" start).2).1
    = Err (ErrSentinel ErrParentCycle).
Proof.
  split; [|split; [|vm_compute; reflexivity]].
  - assert (Hroot : ∀ id row, t_namespaces start !! id = Some row → nr_parent_namespace_id row = None).
    { apply (bool_decide_unpack (map_Forall (λ _ row, nr_parent_namespace_id row = None) _)).
      vm_compute. exact I. }
    intros id [row Hr]. exists [id]. apply (up_root _ _ row); [done|by eapply Hroot].
  - destruct (schedule_exec in_turn both {| rc_db := start; rc_open := ∅ |}) as [tr Htr].
    exists tr, final.2. split; [|split; [vm_compute; reflexivity|]].
    + replace [Done (Ok tt); Done (Ok tt)] with final.1 by (vm_compute; reflexivity). exact Htr.
    + apply (cycle_no_root _ "a" "b" (set_parent (Some "b") root_row) (set_parent (Some "a") root_row));
        vm_compute; reflexivity.
Qed.
End Skew.
