(* ===== verification/InterleavedExamples.v ===== *)
(** * Interleaved calls on the PostgreSQL store

    Concrete schedules of two calls of the registry: the witnesses of the theorems on
    interleaved calls, and the windows in which two calls on one namespace break the
    agreement of the database and the memory, or the compatibility check. *)

From S2P Require Import Prelude GoStrings Descriptor Protobuf Snapshot Compat Conflict.
From S2P Require Import Compiler Namespace Store Postgres PostgresThms Registry RegistryThms.
From S2P Require Import RegistryCoherence RegistryExamples Tasks RegistryTasks RegistryInterleaved RegistryIsolation.
From stdpp Require Import prelude gmap strings list.

Open Scope string_scope.
Open Scope list_scope.

Module Interleavings.
#[local] Existing Instance path_files.
#[local] Existing Instance name_types.
#[local] Existing Instance self_desc.
#[local] Existing Instance plain_toolchain.
#[local] Existing Instance range_default.
#[local] Existing Instance byte_order.
#[local] Existing Instance Examples.names.
#[local] Existing Instance Examples.release.

(** Version 1 of app/users, with the file users.proto, is current. *)
Definition start : RState (S := DB) := Examples.promoted_state.

(** A publish of app/users that drops users.proto. *)
Definition drop : PublishRequest :=
  {| pr_NamespaceID := "app"; pr_SchemaID := "users"; pr_Sources := {[ "accounts.proto" := "syntax" ]};
     pr_CreatedBy := "bob"; pr_Metadata := None; pr_Force := false |}.

Definition calls : list (Task (RState (S := DB)) Answer) :=
  callT Examples.reg <$> [CallPromote "app"; CallPublish drop].

Definition run (l : list nat) := schedule l calls start.

Definition finished_ok {S A} (t : Task S A) : bool :=
  match t with Done (Ok _) => true | _ => false end.

(** The promotion has passed its checks, then the publish runs, then the promotion goes on. *)
Definition after_checks : list nat := [0; 0; 0] ++ replicate 40 1 ++ replicate 10 0.
(** The promotion is done with the database, then the publish runs. *)
Definition after_database : list nat := [0; 0; 0; 0] ++ replicate 40 1 ++ replicate 10 0.

Lemma start_coherent : coherent start.
Proof.
  apply (registry_step_coherent (H8 := postgres_laws) Examples.reg Examples.staged_state start);
    [apply (step_Promote Examples.reg "app" Examples.staged_state)|].
  apply (registry_step_coherent (H8 := postgres_laws) Examples.reg fresh_state Examples.staged_state);
    [apply step_Publish|exact fresh_coherent].
Qed.

(** Two publishes of one schema, the second within the first. *)
Definition two_publishes : list Call :=
  [CallPublish (Examples.req "app" "users" "syntax"); CallPublish drop].
Definition nested : list nat := [0; 0; 0] ++ replicate 40 1 ++ replicate 40 0.
Definition nested_run := schedule nested (callT Examples.reg <$> two_publishes) fresh_state.
(** The first has staged its version in the database when the second runs. *)
Definition overtaken : list nat := replicate 14 0 ++ replicate 40 1 ++ [0].
Definition overtaken_run := schedule overtaken (callT Examples.reg <$> two_publishes) fresh_state.

(** The snapshot that is current in memory. *)
Definition users_now (st : RState (S := DB)) : option Snapshot := cur_of (rs_mem st) "app" "users".
Definition compatible_now (st st' : RState (S := DB)) : bool :=
  match users_now st' with Some new => OK (Check (users_now st) new) | None => true end.

(** C38. Two calls on one namespace are not isolated. There are interleavings of two calls,
    both successful, from a state in which database and memory agree, such that: (1) a
    publish falls between the promotion's compatibility
    checks and its transaction, and a version that breaks the current one (a file is
    gone) becomes current unchecked; (2) it falls between the transaction and the swap of
    the snapshots in memory, and memory serves the new version as current while the
    database has it staged and the old one current; (3) a second publish of the schema
    falls between the two stagings of the first, and the database has the second version
    staged, memory the first. *)
Theorem one_namespace_is_not_isolated :
  coherent start ∧ coherent fresh_state ∧
  (∃ tr ts st', pool_exec calls start tr ts st' ∧ forallb finished_ok ts = true ∧
     v_current (rs_store st') !! ("app", "users") = Some 2%Z ∧
     snap_version <$> users_now st' = Some 2%Z ∧ compatible_now start st' = false) ∧
  (∃ tr ts st', pool_exec calls start tr ts st' ∧ forallb finished_ok ts = true ∧
     v_current (rs_store st') !! ("app", "users") = Some 1%Z ∧
     v_staged (rs_store st') !! ("app", "users") = Some 2%Z ∧
     snap_version <$> users_now st' = Some 2%Z ∧ compatible_now start st' = false) ∧
  (∃ tr ts st', pool_exec (callT Examples.reg <$> two_publishes) fresh_state tr ts st' ∧
     forallb finished_ok ts = true ∧
     v_staged (rs_store st') !! ("app", "users") = Some 2%Z ∧
     snap_version <$> stg_of (rs_mem st') "app" "users" = Some 1%Z).
Proof.
  split; [exact start_coherent|]. split; [exact fresh_coherent|]. split_and!.
  - destruct (schedule_exec after_checks calls start) as [tr Htr].
    exists tr, (run after_checks).1, (run after_checks).2. split; [exact Htr|].
    split_and!; vm_compute; reflexivity.
  - destruct (schedule_exec after_database calls start) as [tr Htr].
    exists tr, (run after_database).1, (run after_database).2. split; [exact Htr|].
    split_and!; vm_compute; reflexivity.
  - destruct (schedule_exec overtaken (callT Examples.reg <$> two_publishes) fresh_state) as [tr Htr].
    exists tr, overtaken_run.1, overtaken_run.2. split; [exact Htr|].
    split_and!; vm_compute; reflexivity.
Qed.

(** ** Witnesses *)

Lemma fresh_pointers : pointers_ok fresh_state.
Proof. split; [apply db_ok_empty|..]; intros ns sc v Hv; discriminate Hv. Qed.

Lemma two_ok : Forall call_ok two_publishes.
Proof. repeat constructor. Qed.

(** The result of a finished publish. *)
Definition published_of (t : option (Task (RState (S := DB)) Answer)) : option PublishResult :=
  match t with Some (Done (Ok (Published p))) => Some p | _ => None end.

Definition is_published (t : option (Task (RState (S := DB)) Answer)) : bool :=
  match t with Some (Done (Ok (Published _))) => true | _ => false end.

Lemma published_is t :
  is_published t = true →
  t = Some (Done (Ok (Published (default Examples.no_result (published_of t))))).
Proof. destruct t as [[[[]|]|]|]; cbn; intros Hx; try discriminate Hx. reflexivity. Qed.

Definition result (i : nat) : PublishResult :=
  default Examples.no_result (published_of (nested_run.1 !! i)).

Lemma pointers_stay_valid_witness : pointers_ok nested_run.2.
Proof.
  destruct (schedule_exec nested (callT Examples.reg <$> two_publishes) fresh_state) as [tr Htr].
  exact (proj1 (pointers_stay_valid (H8 := postgres_laws) Examples.reg two_publishes fresh_state tr
    nested_run.1 nested_run.2 two_ok fresh_pointers Htr)).
Defined.

Lemma versions_are_unique_witness : pub_Version (result 0) ≠ pub_Version (result 1).
Proof.
  destruct (schedule_exec nested (callT Examples.reg <$> two_publishes) fresh_state) as [tr Htr].
  refine (proj1 (versions_are_unique (H8 := postgres_laws) Examples.reg two_publishes fresh_state tr
    nested_run.1 nested_run.2 0 1 _ _ "app" "users" (result 0) (result 1)
    two_ok fresh_pointers Htr _ eq_refl eq_refl eq_refl eq_refl _ _ _ _)).
  - discriminate.
  - apply published_is. vm_compute. reflexivity.
  - vm_compute. reflexivity.
  - apply published_is. vm_compute. reflexivity.
  - vm_compute. reflexivity.
Defined.

(** A publish and a promotion of different namespaces, one access each in turn. *)
Definition two_namespaces : list Call :=
  [CallPromote "app"; CallPublish (Examples.req "web" "users" "syntax")].
Definition in_turn : list nat := flat_map (λ _, [0; 1]) (seq 0 40).
Definition in_turn_run := schedule in_turn (callT Examples.reg <$> two_namespaces) start.

Lemma different_namespaces_agree_witness :
  snap_version <$> stg_of (rs_mem in_turn_run.2) "web" "users" =
    v_staged (rs_store in_turn_run.2) !! ("web", "users").
Proof.
  destruct (schedule_exec in_turn (callT Examples.reg <$> two_namespaces) start) as [tr Htr].
  refine (proj2 (different_namespaces_agree (H8 := postgres_laws) Examples.reg two_namespaces start tr
    in_turn_run.1 in_turn_run.2 "web" "users" _ _ start_coherent Htr _)).
  - repeat constructor.
  - intros [|[|i]] [|[|j]] ci cj ns Hij Hi Hj; try discriminate Hi; try discriminate Hj;
      try (by destruct Hij); injection Hi as <-; injection Hj as <-; intros [= <-]; discriminate.
  - intros [|[|i]] c Hc Hns; [injection Hc as <-; discriminate Hns| |discriminate Hc].
    exists (Ok (Published (default Examples.no_result (published_of (in_turn_run.1 !! 1))))).
    apply published_is. vm_compute. reflexivity.
Defined.
End Interleavings.
