(* ===== verification/ServerReads.v ===== *)
(** * Reads of the server beside running writes

    [GetDescriptor] and [GetSource] of [src/server/server.go] read the current version from
    memory and then the version from the database, with nothing held in between. As tasks of
    single accesses they run in a pool with any calls that write. *)

From S2P Require Import Prelude GoStrings Descriptor Protobuf Snapshot Compat Conflict Compiler.
From S2P Require Import Namespace NamespaceThms Store Registry RegistryThms RegistryCoherence.
From S2P Require Import Auth Validate Server Tasks RegistryTasks RegistryCalm RegistryInterleaved.
From S2P Require Import Postgres PostgresThms.
From S2P Require Import RegistryExamples ServerExamples.
From S2P Require Import InterleavedExamples.
From stdpp Require Import prelude gmap strings list pretty.

Open Scope string_scope.
Open Scope list_scope.

(** ** The tasks *)

Section tasks.
Context `{Toolchain, ProtoTypes, ProtoNames, GoRange, CompilerVersion, DriverText} {S : Type}
  `{Store S}.
#[local] Notation RS := (RState (S := S)).
#[local] Notation SS := (SState (S := S)).
#[local] Notation T := (Task SS).

(** A task of the registry in the server. *)
Fixpoint liftT {A} (t : Task RS A) : T A :=
  match t with
  | Done x => Done x
  | Next k => Next (λ st,
      let '(t, r) := k (ss_reg st) in (liftT t, {| ss_reg := r; ss_log := ss_log st |}))
  end.

(** A call of the registry or of the store, and the handling of its error. *)
Definition callS {A} (m : M RS A) (onErr : error → M SS A) : T A :=
  x ← attemptT (atomic (Server.reg m));
  match x with Ok a => mret a | Err e => atomic (onErr e) end.

Definition versionOrCurrentS (namespaceId schemaId : string) (version : Z) : T Z :=
  if decide (version = 0%Z) then
    snap ← atomic (Server.reg (Registry_Current namespaceId schemaId));
    match snap with
    | None => failT (ErrStatus NotFoundCode "no current version")
    | Some snap => mret (snap_version snap)
    end
  else mret version.

Definition GetDescriptorS (s : Server) (id : Identity) (namespaceId schemaId : string)
    (reqVersion : Z) : T (Z * list FileDescriptorProto) :=
  of_resT (validateNamespaceID s namespaceId) ;;
  of_resT (validateID schemaId "schema_id" (MaxIDLength (o_Limits (s_opts s)))) ;;
  version ← versionOrCurrentS namespaceId schemaId reqVersion;
  ver ← callS (db (store_GetVersion namespaceId schemaId version)) (λ _,
    status_error NotFoundCode ("version " +:+ pretty version +:+ " not found"));
  match Unmarshal (sv_Compiled ver) with
  | Err e => atomic (internalError id "get_descriptor_unmarshal" e)
  | Ok fds => mret (version, fds)
  end.

Definition GetSourceS (s : Server) (id : Identity) (namespaceId schemaId : string)
    (reqVersion : Z) : T (Z * gmap string string) :=
  of_resT (validateNamespaceID s namespaceId) ;;
  of_resT (validateID schemaId "schema_id" (MaxIDLength (o_Limits (s_opts s)))) ;;
  version ← versionOrCurrentS namespaceId schemaId reqVersion;
  files ← callS (db (store_GetVersionFiles namespaceId schemaId version))
            (internalError id "get_source_files");
  l ← mapM (λ f,
    blob ← callS (db (store_GetBlob namespaceId (vf_BlobSHA256 f)))
             (internalError id "get_source_blob");
    mret (vf_Filename f, pb_OriginalSource blob)) files;
  mret (version, fold_left (λ m kv, <[kv.1 := kv.2]> m) l ∅).

(** ** Alone, a task is the handler *)

Lemma run_of_resT {A} (r : res A) (st : SS) : runTask (of_resT r) st = of_res r st.
Proof. done. Qed.

Lemma run_callS {A} (m : M RS A) (onErr : error → M SS A) st :
  runTask (callS m onErr) st = Server.call m onErr st.
Proof.
  apply run_bind_ext; [intros; apply run_attemptT_ext; intros; apply run_atomic|].
  intros [a|e] s1; [done|apply run_atomic].
Qed.

Lemma run_versionOrCurrentS ns sc v st :
  runTask (versionOrCurrentS ns sc v) st = versionOrCurrent ns sc v st.
Proof.
  unfold versionOrCurrentS, versionOrCurrent. case_decide; [|done].
  apply run_bind_ext; [apply run_atomic|]. by intros [snap|] s1.
Qed.

Lemma GetDescriptorS_alone s id ns sc v st :
  runTask (GetDescriptorS s id ns sc v) st = Server_GetDescriptor s id ns sc v st.
Proof.
  do 2 (apply run_bind_ext; [apply run_of_resT|intros ? ?]).
  apply run_bind_ext; [apply run_versionOrCurrentS|intros version ?].
  apply run_bind_ext; [apply run_callS|intros ver ?].
  destruct (Unmarshal (sv_Compiled ver)); [done|apply run_atomic].
Qed.

Lemma GetSourceS_alone s id ns sc v st :
  runTask (GetSourceS s id ns sc v) st = Server_GetSource s id ns sc v st.
Proof.
  do 2 (apply run_bind_ext; [apply run_of_resT|intros ? ?]).
  apply run_bind_ext; [apply run_versionOrCurrentS|intros version ?].
  apply run_bind_ext; [apply run_callS|intros files ?].
  apply run_bind_ext; [|done]. intros ?. apply run_mapM_ext. intros f ?.
  apply run_bind_ext; [apply run_callS|done].
Qed.
End tasks.

(** ** Under interference *)

(** A store that serves every version it has stored. *)
Class ServesVersions (S : Type) `{Store S, !StoreView S} : Prop := {
  GetVersion_found ns sc v s :
    v_ok s → (ns, sc, v) ∈ v_versions s → ∃ ver, store_GetVersion ns sc v s = (Ok ver, s) }.

Section reads.
Context `{Toolchain, ProtoTypes, ProtoNames, GoRange, CompilerVersion, DriverText} {S : Type}
  `{StoreLaws S} `{!ServesVersions S}.
#[local] Notation RS := (RState (S := S)).
#[local] Notation SS := (SState (S := S)).
Implicit Types (st : SS).

(** The steps of the others, as far as the registry sees them. *)
Definition growsS st st' : Prop := grows (ss_reg st) (ss_reg st').
#[global] Instance growsS_preorder : PreOrder growsS.
Proof. split; [by intros st|]. intros st1 st2 st3 H12 H23. unfold growsS in *. by etrans. Qed.

Lemma runs_liftT {A} st (t : Task RS A) l st' u :
  runs growsS st (liftT t) l st' u →
  ∃ u0 l0, u = liftT u0 ∧ runs grows (ss_reg st) t l0 (ss_reg st') u0 ∧
    l0 = (λ p : SS * SS, (ss_reg p.1, ss_reg p.2)) <$> l.
Proof.
  revert st l. induction t as [x|k IH] using Task_ind'; intros st l Hr.
  - apply runs_Done in Hr as (-> & -> & Hr). exists (Done x), [].
    split; [done|]. split; [by constructor|done].
  - inversion Hr as [? ? ? Hr'|? s1 k' t s2 l' ? ? Hr' Ek Hrest]; subst.
    + exists (Next k), []. split; [done|]. split; [by constructor|done].
    + specialize (IH (ss_reg s1)). destruct (k (ss_reg s1)) as [t0 r0] eqn:Ek0. injection Ek as <- <-.
      cbn in IH. apply IH in Hrest as (u0 & l0 & -> & Hrun & ->).
      eexists u0, _. split; [done|]. split; [by econstructor|done].
Qed.

Lemma rg_liftT {A} P (t : Task RS A) Q :
  rg grows grows P t Q → rg growsS growsS (λ st, P (ss_reg st)) (liftT t) (λ x st, Q x (ss_reg st)).
Proof.
  intros Ht st l st' u HP (u0 & l0 & -> & Hr & ->)%runs_liftT.
  destruct (Ht _ _ _ _ HP Hr) as [HG HQ]. split.
  - rewrite Forall_fmap in HG. exact HG.
  - intros x E. destruct u0 as [y|k]; [|done]. injection E as <-. by apply HQ.
Qed.

(** Reading keeps the registry, and so does writing to the log. *)
Definition keeps_reg {A} (m : M SS A) : Prop := ∀ st, ss_reg (m st).2 = ss_reg st.

Lemma rg_keeps {A} (P : RS → Prop) (m : M SS A) (Q : res A → RS → Prop) :
  stable grows P → (∀ x, stable grows (Q x)) → keeps_reg m →
  (∀ st, P (ss_reg st) → Q (m st).1 (ss_reg st)) →
  rg growsS growsS (λ st, P (ss_reg st)) (atomic m) (λ x st, Q x (ss_reg st)).
Proof.
  intros HP HQ Hk Hm. apply rg_atomic.
  - intros st st'. apply HP.
  - intros x st st'. apply HQ.
  - intros st Hst. specialize (Hk st). specialize (Hm st Hst). destruct (m st) as [x st']. cbn in *.
    split; [|by rewrite Hk]. unfold growsS. by rewrite Hk.
Qed.

Lemma stable_stored ns sc v : stable grows (λ r : RS, pointers_ok r ∧ stored r ns sc v).
Proof. apply growing_stored. Qed.

(** Why [GetDescriptor] of the current version may fail. *)
Inductive descriptor_error (s : Server) (ns sc : string) : error → Prop :=
| invalid_namespace e : validateNamespaceID s ns = Err e → descriptor_error s ns sc e
| invalid_schema e :
    validateID sc "schema_id" (MaxIDLength (o_Limits (s_opts s))) = Err e → descriptor_error s ns sc e
| no_current : descriptor_error s ns sc (ErrStatus NotFoundCode "no current version")
| undecodable b e e' :
    Unmarshal b = Err e → e' = e ∨ e' = ErrStatus Internal "get_descriptor_unmarshal failed" →
    descriptor_error s ns sc e'.

Definition described (s : Server) (ns sc : string) (x : res (Z * list FileDescriptorProto))
    (r : RS) : Prop :=
  match x with
  | Ok (v, _) => pointers_ok r ∧ stored r ns sc v
  | Err e => descriptor_error s ns sc e
  end.

Lemma stable_described s ns sc x : stable grows (described s ns sc x).
Proof. destruct x as [[v fds]|e]; [apply stable_stored|by intros r r']. Qed.

Lemma internalError_keeps {A} id op e : keeps_reg (internalError (A := A) id op e).
Proof. intros st. unfold internalError. by destruct (is_status e). Qed.

Lemma internalError_result {A} id op e st :
  ∃ e', (internalError (A := A) id op e st).1 = Err e' ∧
    (e' = e ∨ e' = ErrStatus Internal (op +:+ " failed")).
Proof. unfold internalError. destruct (is_status e); cbn; eauto. Qed.
(** The version just read as current is found. *)
Lemma rg_GetVersion s id ns sc v :
  rg growsS growsS (λ st, pointers_ok (ss_reg st) ∧ stored (ss_reg st) ns sc v)
    (ver ← callS (db (store_GetVersion ns sc v)) (λ _,
       status_error NotFoundCode ("version " +:+ pretty v +:+ " not found"));
     match Unmarshal (sv_Compiled ver) with
     | Err e => atomic (internalError id "get_descriptor_unmarshal" e)
     | Ok fds => mret (v, fds)
     end) (λ x st, described s ns sc x (ss_reg st)).
Proof.
  set (P := λ r : RS, pointers_ok r ∧ stored r ns sc v).
  assert (HP : stable grows P) by apply stable_stored.
  eapply rg_bind with (Q1 := λ x st, P (ss_reg st) ∧ is_ok x = true);
    [apply _| |intros ver|by intros e st []].
  - eapply rg_bind with (Q1 := λ x st, P (ss_reg st) ∧ ∃ a, x = Ok (Ok a));
      [apply _| | |by intros e st [_ [? ?]]].
    + apply rg_mapT. apply (rg_keeps P _ (λ x r, P r ∧ ∃ a, Ok x = Ok (Ok a))); [done|..].
      * intros x r r' [Hr Hx] Hg. split; [by eapply HP|done].
      * intros st. unfold Server.reg, db. destruct (store_GetVersion ns sc v (rs_store (ss_reg st))) as [x r'] eqn:E.
        cbn. pose proof (reads_GetVersion ns sc v (rs_store (ss_reg st))) as Hr. rewrite E in Hr.
        cbn in Hr. rewrite Hr. by destruct (ss_reg st).
      * intros st [Hok Hst]. split; [done|]. unfold Server.reg, db.
        destruct (GetVersion_found ns sc v (rs_store (ss_reg st))) as [ver ->]; [apply Hok|done|].
        by eexists.
    + intros x. destruct x as [ver|e].
      * apply rg_done.
        -- intros st st' [Hp Hx] Hg. split; [by eapply HP|done].
        -- intros st [Hp _]. by split.
      * intros st l st' u [_ [a [=]]].
  - destruct (Unmarshal (sv_Compiled ver)) as [fds|e] eqn:Eu.
    + apply rg_done.
      * intros st st' [Hp Hx] Hg. split; [by eapply HP|done].
      * by intros st [Hp _].
    + apply (rg_conseq _ _ _ (λ st, P (ss_reg st)) _ _ (λ x st, described s ns sc x (ss_reg st)));
        [|by intros st []|done].
      apply (rg_keeps P _ (described s ns sc)); [done|apply stable_described|apply internalError_keeps|].
      intros st _. destruct (internalError_result (A := Z * list FileDescriptorProto) id
        "get_descriptor_unmarshal" e st) as (e' & -> & He). by eapply undecodable.
Qed.

(** The current version is read from memory. *)
Lemma rg_versionOrCurrent ns sc :
  rg growsS growsS (λ st, pointers_ok (ss_reg st)) (versionOrCurrentS ns sc 0) (λ x st,
    match x with
    | Ok v => pointers_ok (ss_reg st) ∧ stored (ss_reg st) ns sc v
    | Err e => e = ErrStatus NotFoundCode "no current version"
    end).
Proof.
  assert (HP : stable grows pointers_ok) by apply growing_pointers.
  unfold versionOrCurrentS. rewrite decide_True by done.
  eapply rg_bind with (Q1 := λ x st, match x with
    | Ok (Some snap) => pointers_ok (ss_reg st) ∧ stored (ss_reg st) ns sc (snap_version snap)
    | Ok None => True | Err _ => False end); [apply _| | |by intros e st []].
  - apply (rg_keeps pointers_ok _ (λ x r, match x with
      | Ok (Some snap) => pointers_ok r ∧ stored r ns sc (snap_version snap)
      | Ok None => True | Err _ => False end)); [done|..].
    + intros [[snap|]|e]; [apply stable_stored|by intros r r'..].
    + intros st. by destruct st as [[]].
    + intros st Hst. cbn. destruct (cur_of (rs_mem (ss_reg st)) ns sc) as [snap|] eqn:E;
        unfold cur_of in E; unfold Get; rewrite E; [|done]. split; [done|]. by apply (po_current _ Hst).
  - intros [snap|]; apply rg_done; try done.
    intros st st' Hx Hg. by eapply stable_stored.
Qed.

Lemma rg_GetDescriptor s id ns sc :
  rg growsS growsS (λ st, pointers_ok (ss_reg st)) (GetDescriptorS s id ns sc 0)
    (λ x st, described s ns sc x (ss_reg st)).
Proof.
  assert (HP : stable grows pointers_ok) by apply growing_pointers.
  unfold GetDescriptorS, of_resT.
  eapply rg_bind with (Q1 := λ x st, pointers_ok (ss_reg st) ∧ x = validateNamespaceID s ns);
    [apply _|apply rg_done; [intros st st'; apply HP|done]| |].
  2: { intros e st [_ E]. by apply invalid_namespace. }
  intros []. apply (rg_conseq _ _ _ (λ st, pointers_ok (ss_reg st)) _ _ (λ x st, described s ns sc x (ss_reg st)));
    [|by intros st []|done].
  eapply rg_bind with (Q1 := λ x st, pointers_ok (ss_reg st) ∧ x = validateID sc "schema_id" _);
    [apply _|apply rg_done; [intros st st'; apply HP|done]| |].
  2: { intros e st [_ E]. by apply invalid_schema. }
  intros []. apply (rg_conseq _ _ _ (λ st, pointers_ok (ss_reg st)) _ _ (λ x st, described s ns sc x (ss_reg st)));
    [|by intros st []|done].
  eapply rg_bind; [apply _|apply rg_versionOrCurrent|intros v; apply rg_GetVersion|].
  intros e st ->. apply no_current.
Qed.

(** ** Readers and writers at once *)

(** What a task of the pool answers: a reader a version with its files, a writer the answer of
    its call. *)
Definition reader (s : Server) (q : Identity * string * string) :
    Task SS ((Z * list FileDescriptorProto) + Answer) :=
  mapT (fmap inl) (GetDescriptorS s q.1.1 q.1.2 q.2 0).
Definition writer (r : RegistryConfig) (c : Call) : Task SS ((Z * list FileDescriptorProto) + Answer) :=
  mapT (fmap inr) (liftT (callT r c)).

#[local] Notation pool r s qs cs := ((reader s <$> qs) ++ (writer r <$> cs)).

(** The result of the [i]-th task, when it is a reader. *)
Definition answered (s : Server) (qs : list (Identity * string * string)) (i : nat)
    (x : res ((Z * list FileDescriptorProto) + Answer)) (st : SS) : Prop :=
  match qs !! i with
  | None => True
  | Some (id, ns, sc) =>
      match x with
      | Ok (inl (v, _)) => stored (ss_reg st) ns sc v
      | Ok (inr _) => False
      | Err e => descriptor_error s ns sc e
      end
  end.

Lemma rg_pool r s qs cs i t :
  Forall call_ok cs → pool r s qs cs !! i = Some t →
  rg growsS growsS (λ st, pointers_ok (ss_reg st)) t (answered s qs i).
Proof.
  intros Hcs Hi. unfold answered. destruct (qs !! i) as [[[id ns] sc]|] eqn:Eq.
  - rewrite lookup_app_l in Hi by (rewrite length_fmap; by eapply lookup_lt_Some).
    rewrite list_lookup_fmap, Eq in Hi. injection Hi as <-. apply rg_mapT.
    eapply rg_conseq; [apply rg_GetDescriptor|done|]. intros [[v fds]|e] st Hx; [apply Hx|exact Hx].
  - rewrite lookup_app_r in Hi by (rewrite length_fmap; by apply lookup_ge_None).
    rewrite list_lookup_fmap in Hi. destruct (cs !! _) as [c|] eqn:Ec; [|done]. injection Hi as <-.
    apply rg_mapT. eapply rg_conseq; [apply rg_liftT, (safe_call r c)|done|done].
    by eapply Forall_lookup_1.
Qed.

(** C12. The current version can always be read. Requests for the descriptor of the current
    version run at once with any calls that write, their accesses interleaved in any way; the
    version is read from memory and its row then from the database, with no lock held in between.
    A request that finishes has answered with a version that is stored, or it fails because the
    request is invalid, the schema has no current version, or the stored bytes do not decode:
    the lookup of the version it took as current does not fail. *)
Theorem reads_beside_writes r s qs cs st tr ts st' i id ns sc x :
  Forall call_ok cs → pointers_ok (ss_reg st) → pool_exec (pool r s qs cs) st tr ts st' →
  qs !! i = Some (id, ns, sc) → ts !! i = Some (Done x) →
  match x with
  | Ok (inl (v, _)) => stored (ss_reg st') ns sc v
  | Ok (inr _) => False
  | Err e => descriptor_error s ns sc e
  end.
Proof.
  intros Hcs Hst Hex Hq Hx.
  pose proof (pool_post (λ _, growsS) (λ _, growsS) (λ _ st, pointers_ok (ss_reg st)) (answered s qs)
    (λ _ _ _ _ _ Hg, Hg) (pool r s qs cs) st) as Hpost.
  assert (Ha : answered s qs i x st').
  { eapply Hpost; [|done|done]. intros j t Hj. split; [by eapply rg_pool|done]. }
  unfold answered in Ha. by rewrite Hq in Ha.
Qed.
End reads.

(** ** A read of the server beside a publish and a promotion

    Over the PostgreSQL store: a request reads version 1 as current, then another version is
    published and promoted, then the request reads the row of version 1. *)

(** The PostgreSQL store serves every version that has a row, a deleted one too. *)
#[global] Instance postgres_serves `{Collation} : ServesVersions DB.
Proof.
  split. intros ns sc v d Hok Hv. cbn in Hok, Hv. apply elem_of_dom in Hv as [row Hrow].
  destruct (dbo_versions d Hok _ _ _ _ Hrow) as [Hrange _].
  unfold store_GetVersion, postgres_store, GetVersion, Postgres.q_GetVersion, one, wrapM, mbind, M_bind.
  cbv beta. rewrite versionToDB_id by exact Hrange. rewrite Hrow. by eexists.
Qed.

Module Reads.
#[local] Existing Instance path_files.
#[local] Existing Instance name_types.
#[local] Existing Instance self_desc.
#[local] Existing Instance plain_toolchain.
#[local] Existing Instance range_default.
#[local] Existing Instance byte_order.
#[local] Existing Instance RegistryExamples.Examples.names.
#[local] Existing Instance RegistryExamples.Examples.release.
#[local] Existing Instance ServerExamples.Examples.driver.

Definition server : Server := ServerExamples.Examples.server.
Definition ann : Identity := ServerExamples.Examples.ann.

(** Version 1 of app/users is published and promoted. *)
Definition first_writes : list Call :=
  [CallPublish (RegistryExamples.Examples.req "app" "users" "syntax"); CallPromote "app"].
Definition first_run :=
  schedule (replicate 40 0 ++ replicate 20 1) (callT RegistryExamples.Examples.reg <$> first_writes)
    fresh_state.
Definition start : SState (S := DB) := {| ss_reg := first_run.2; ss_log := [] |}.

Definition requests : list (Identity * string * string) := [(ann, "app", "users")].
Definition writes : list Call :=
  [CallPublish (RegistryExamples.Examples.req "app" "users" "syntax 2"); CallPromote "app"].
Definition pool := (reader server <$> requests) ++ (writer RegistryExamples.Examples.reg <$> writes).
Definition overtaken : list nat := [0] ++ replicate 40 1 ++ replicate 20 2 ++ replicate 5 0.
Definition run := schedule overtaken pool start.

(** The version a finished reader has answered with. *)
Definition version_of (t : option (Task (SState (S := DB)) ((Z * list FileDescriptorProto) + Answer)))
    : option Z :=
  match t with Some (Done (Ok (inl (v, _)))) => Some v | _ => None end.
Definition files_of (t : option (Task (SState (S := DB)) ((Z * list FileDescriptorProto) + Answer)))
    : list FileDescriptorProto :=
  match t with Some (Done (Ok (inl (_, fds)))) => fds | _ => [] end.

Lemma version_is t v : version_of t = Some v → t = Some (Done (Ok (inl (v, files_of t)))).
Proof. destruct t as [[[[[w fds]|]|]|]|]; cbn; intros E; try discriminate E. injection E as ->. reflexivity. Qed.

Definition current (st : SState (S := DB)) : option Z :=
  snap_version <$> Interleavings.users_now (ss_reg st).

(** The request answers with the version that was current when it began. *)
Lemma overtaken_read :
  current start = Some 1%Z ∧ version_of (run.1 !! 0) = Some 1%Z ∧ current run.2 = Some 2%Z.
Proof. split_and!; vm_compute; reflexivity. Qed.

Lemma start_pointers : pointers_ok (ss_reg start).
Proof.
  destruct (schedule_exec (replicate 40 0 ++ replicate 20 1)
    (callT RegistryExamples.Examples.reg <$> first_writes) fresh_state) as [tr Htr].
  exact (gr_pointers _ _ (proj2 (pool_grows (H8 := postgres_laws) RegistryExamples.Examples.reg
    first_writes fresh_state tr first_run.1 first_run.2 ltac:(repeat constructor)
    Interleavings.fresh_pointers Htr) Interleavings.fresh_pointers)).
Qed.

Lemma reads_beside_writes_witness : stored (ss_reg run.2) "app" "users" 1.
Proof.
  destruct (schedule_exec overtaken pool start) as [tr Htr].
  exact (reads_beside_writes (H9 := postgres_laws) RegistryExamples.Examples.reg server requests writes
    start tr run.1 run.2 0 ann "app" "users" (Ok (inl (1%Z, files_of (run.1 !! 0))))
    ltac:(repeat constructor) start_pointers Htr eq_refl
    (version_is _ _ (proj1 (proj2 overtaken_read)))).
Defined.
End Reads.
